(* ===== verification/_CoqProject ===== *)
-Q . S2P
Prelude.v
Text.v
F64.v
Rounding.v
Event.v
Json.v
Buffer.v
Dedup.v
Store.v
Reference.v
Schema.v
Confluent.v
Avro.v
Kms.v
Security.v
Watermark.v
Consensus.v
Parallel.v
Snapshot.v
Sync.v
Clock.v
Metrics.v
Exporter.v
RateLimiter.v
RateBound.v
Sip.v
Router.v
Transform.v
Wasm.v
Wat.v
Guests.v
Source.v
Sink.v
Cli.v
Pipeline.v
Effects.v
Engine.v
Sensors.v
Throttle.v
Leadership.v
Progress.v
Main.v
Shutdown.v
EndToEnd.v
Lives.v
Tests.v
IntegrationTests.v
