(* ===== verification/Prelude.v ===== *)
(** * Caminus: a verified model of the change-data-capture engine

    Caminus ([src/], a Rust crate) reads the change streams of PostgreSQL and Cassandra, filters and
    orders their events, passes them through a WebAssembly guest and sends them to sinks, keeping its
    offsets and schemas in RocksDB.  This library models the crate component by component and proves
    what makes each correct, up to [main]: its startup, its two concurrent tasks, its shutdown and the
    lives of the process from one crash or restart to the next.

    ** How the program is read

    - A handler of the source is one definition with the source's name; a [&mut self] is a state that is
      passed and returned; [Result] is [Prelude.Result] and [?] is [Prelude.try].  A call that can panic
      returns an [Outcome].  Integer arithmetic of a fixed width is [add_w], [sub_w], [mul_w], which
      panic in the dev profile and wrap in the release profile; theorems hold for both.
    - Time, and whatever else the environment decides (the order of a [HashMap]'s iteration, leadership,
      the results of connection attempts), is an argument.
    - Concurrent code is a step relation, one step per atomic access or critical section, so every
      interleaving is covered.
    - The standard library is modelled: UTF-8, decimal and hexadecimal text ([Text.v]), binary64
      ([F64.v], on the IEEE 754 operations of [SpecFloat]), durations ([Clock.v]) and the SipHash of
      [DefaultHasher] ([Sip.v], with test vectors).
    - Third-party crates are interfaces whose laws are the documented behaviour the code relies on:
      [SerdeJson] with [SerdeJsonLaws] ([Event.v]), [RocksDB] with [RocksDBLaws] ([Store.v]),
      [Wasmtime] with [WasmtimeLaws] ([Transform.v]).  [Reference.v], [Json.v] and [Guests.v] give
      instances on which the laws are proved and the witnesses run.
    - The guests are part of the program as text, so that text is what is modelled: [Wat.v] compiles it and
      [Wasm.v] gives the modules their meaning, for the instructions that the guests use.

    ** Files

    - [Prelude.v] (this file): results, panics, build profiles, reachability, the shared tactics
      ([by_eval], [div_lia]) and hint databases ([caminus], [caminus_rw]).
    - [Text.v], [F64.v], [Clock.v], [Sip.v]: the standard library, see above.  [F64.v] also proves that the
      operations are exact on the integers below [2 ^ 53].
    - [Rounding.v]: the real value of a binary64 number and the rounding error of each operation (relative
      [2 ^ (- 53)]), over the reals of the Standard Library, whose axioms it brings in.
    - [Event.v]: [src/source/mod.rs] (data) and JSON values.
    - [Json.v]: a reference codec for the interface [SerdeJson], written by hand after the documentation of
      [serde_json]; it models no code of the crate, but shows that the laws can hold, and witnesses run on it.
    - [Buffer.v] ([src/buffer/mod.rs]): [TransactionBuffer] computes a function of the event history;
      transactions are atomic and independent of each other; [prune].
    - [Dedup.v] ([src/resiliency/dedup.rs]): [DeduplicationFilter] is a sliding window.
    - [Store.v] ([src/storage/mod.rs]): [StateStore], offsets and schemas are read back as saved and do not
      disturb each other.
    - [Schema.v] ([src/storage/schema.rs]): [SchemaRegistry], what each compatibility mode accepts, what
      validation accepts, what a Backward evolution guarantees and what it does not.
    - [Confluent.v], [Avro.v] ([src/storage/confluent.rs], [src/serialize/]): the wire format is a bijection,
      an id is never given to two subjects, also under concurrent registration, events survive a round trip.
    - [Kms.v], [Security.v] ([src/security/]): key rotation; masking of payload fields.
    - [Watermark.v] ([src/snapshot/watermark.rs]): reconciliation row by row, and the consistency of a
      snapshot chunk with the log as a consumer replays them.
    - [Consensus.v] ([src/consensus/]): the election task against [shutdown]; the failover lease and the
      checkpoint a restarted node resumes from.
    - [Parallel.v] ([src/snapshot/parallel.rs]): the chunks partition the key range; the workers terminate
      and process each chunk once.  [Snapshot.v] joins the two with the saved progress: a snapshot passes each
      row to [process_fn] exactly once, whatever the interleaving of the workers.
    - [Sync.v] ([src/sync/mod.rs]): last-write-wins and loop suppression.
    - [RateLimiter.v] ([src/resiliency/rate_limiter.rs]): at one instant the bucket is an exact counter;
      requests that can never be served; independence of the tenants.
    - [RateBound.v]: the same bucket over time: what a period can let pass, the termination of [acquire], the
      range of the tokens.
    - [Metrics.v] ([src/resiliency/metrics.rs]): the counters under concurrent calls (none is lost) and reads, the
      text of [render] and the response of the exporter.
    - [Exporter.v] (the same file): the accept loop and the tasks of its connections among the threads that count;
      what a scrape can see, and that the exporter goes on serving.
    - [Router.v] ([src/router/mod.rs]): partitions in range, quotas per tenant.
    - [Transform.v] ([src/transform/]): the host side of a guest call and the plugin registry, for any engine.
    - [Wasm.v], [Wat.v]: the WebAssembly of the guests, its semantics and validation (a valid module does not go
      wrong), and its text format.
    - [Guests.v]: the engine of these two as an instance of [Wasmtime], and the two guests of the crate inside
      [WasmTransformer]: the bundled one hands back the text it got, the other replaces a word.
    - [Source.v] ([src/source/]): bounded retries with jitter; the simulated streams.  The trait [CdcSource] is a class
      whose laws both sources meet; that a stream resumes where it was cut is proved from the laws.
    - [Sink.v] ([src/sink/], [src/resiliency/dlq.rs]), the trait [CdcSink] as a class with laws; [Cli.v]
      ([src/cli/mod.rs]).
    - [Pipeline.v] ([src/main.rs]): the two ingestion loops, with a trace of their effects.  The
      PostgreSQL loop is shown to be the composition of its components; on a serial log a crash and a
      resumption lose and repeat nothing, on interleaved transactions they can lose mutations; a
      standby takes what arrives and drops it; a failed send is lost.
    - [Effects.v]: the same loops effect by effect: an offset is saved only after its event is sent, the
      metrics count what was sent, and a crash between any two effects repeats at most one event.
    - [Engine.v]: both tasks at once, as atomic steps on the shared store, failover controller and limiter.  The
      class [Task] is what a task does with an event and [TaskLaws] what it promises; the invariant of a
      task is proved for any two tasks with different source ids, and the instances [pg] and [cass] are
      those of [main].  The result of [save_offset] being dropped, the invariant says which offset is stored
      whether or not the writes succeed.
    - [Sensors.v]: the simulated Cassandra stream joined with its loop, over a crash between any two effects.
    - [Throttle.v]: both tasks on their one limiter: how many events it lets pass for the two in a period.
    - [Leadership.v]: the node, that is both tasks under the flag of the coordinator, which the election task and
      [shutdown] write: before the election the tasks only drop what they take, and after a shutdown each
      finishes at most the item it has in hand and drops the rest.
    - [Progress.v]: the PostgreSQL loop, alone on its limiter, returns: the limiter lets every item pass, and only
      the guest can panic.
    - [Main.v]: the startup of [main] with its errors, and the process started again and again: whatever the
      number of crashes, at any steps, neither task loses a mutation and each crash repeats at most one.
    - [Shutdown.v]: a task from its spawn through [start_stream] to its loop, and Ctrl+C, which drops both tasks where
      they wait: the shutdown comes to an end between no event and its [save_offset], and restarts by
      shutdowns send every mutation exactly once.
    - [EndToEnd.v]: the simulated PostgreSQL stream joined with that loop in the configuration of [main]:
      its events pass every stage, and two nodes, the second resuming where the first one stopped between
      two items, send the mutations of the whole transactions once each.
    - [Lives.v]: the whole process on both simulated sources, over any number of lives that crashes end, at any steps:
      per task, the numbers of the events sent are consecutive but for one repetition after a crash.
    - [Tests.v], [IntegrationTests.v] ([src/tests/]): the tests of the crate, transcribed and run on the model.

    What the theorems on the process assume of the database is said with each: [readable] that no read fails
    (an unreadable schema sends every event to the dead letter queue), [writable] or [db_writable] that no
    write fails.  Delivery over restarts ([Main.v], [Shutdown.v], [Lives.v], [EndToEnd.v]) needs both, since
    [main] ignores a failed [save_offset]; startup, the invariant of the tasks and the end of a shutdown hold
    whether or not the writes succeed.

    Each component is a [Module] of its file with the source's type name.  Theorems numbered [C<n>] are the
    main properties; a lemma named [<theorem>_witness] applies one to concrete data.

    ** Bounds and fuel

    The recursions that are not structural take fuel: [ParallelSnapshotter.new] (one turn more than there
    are chunks is enough, and the number of chunks is given by [chunk_count]) and
    [retry_with_backoff] (as many turns as attempts).  The interpreter of a guest takes fuel as an engine does:
    two turns are enough for the bundled guest, eighty more than there are bytes for the one that replaces,
    and with more fuel nothing changes ([invoke_enough]).  The JSON parser takes the length of the text,
    which is shown to be enough for what is printed.  [display_u64] emits at most twenty digits, which
    hold every 64-bit value.  Loops driven by the environment ([acquire], the ingestion loops) recurse on
    the list of what the environment supplies and say [None] while they wait.  The bounds on the limiter hold
    for capacities in [u32], rates from [2 ^ (- 100)] to [2 ^ 100] (from [1 / 256] to [2 ^ 40] where
    [acquire] must return, in at most five turns) and clocks below [2 ^ 99] nanoseconds; the exact text
    of a latency sum for sums up to [2 ^ 50] microseconds.

    ** Not modelled

    - What the exporter that [init_metrics] starts does, which is a third-party crate, and module declarations.
    - The scheduler of tokio beyond what the steps say: a task that [abort] or the end of the runtime stops is dropped
      where it waits, and a sleep waits.  A Ctrl+C before [main] listens for it kills the process, which is a crash.
    - Floats in the codec of [Json.v], and the instructions and types of WebAssembly that no guest uses.
    - Most progress messages on the console, and the latencies that are simulated with sleeps.
    - Weak memory orders: the relaxed accesses are taken as interleaved steps.
    - Fairness: that [acquire] returns is proved for a task that is the limiter's only caller, not for two tasks
      that compete for its tokens.
    - The durability of RocksDB: a start of the process opens the database as the last one left it.
    - What the crates do beyond the laws stated for them. *)
From Stdlib Require Export ZArith Lia Ascii String.
From stdpp Require Export prelude gmap strings pretty list.

#[global] Set Default Goal Selector "!".
#[global] Open Scope Z_scope.
#[global] Set Warnings "-clear-no-such-hyp,-register-all".

Create HintDb caminus discriminated.
Create Rewrite HintDb caminus_rw.

(** ** Results, panics and build profiles *)

(** [Result T E] of the Rust standard library. *)
Inductive Result (T E : Type) : Type :=
  | Ok (t : T)
  | Err (e : E).
Arguments Ok {_ _} _.
Arguments Err {_ _} _.

(** What a call does: it returns a value, or the thread panics. *)
Inductive Outcome (T : Type) : Type :=
  | Ret (t : T)
  | Panic.
Arguments Ret {_} _.
Arguments Panic {_}.

#[export] Instance Outcome_ret : MRet Outcome := @Ret.
#[export] Instance Outcome_bind : MBind Outcome := fun A B f m =>
  match m with Ret a => f a | Panic => Panic end.

(** The reflexive [From] conversion. *)
Definition same {A} (a : A) : A := a.

(** The [?] operator: propagate the error, converted by [From]. *)
Definition try {T U E F} (from : E → F) (r : Result T E) (k : T → Result U F) : Result U F :=
  match r with Ok t => k t | Err e => Err (from e) end.

Definition is_ok {T E} (r : Result T E) : bool :=
  match r with Ok _ => true | Err _ => false end.

(** The value of a successful call, without its error type. *)
Definition ok_val {T E} (r : Result T E) : option T :=
  match r with Ok t => Some t | Err _ => None end.

Definition ret_val {T} (o : Outcome T) : option T :=
  match o with Ret t => Some t | Panic => None end.

Definition ok_or {T E} (o : option T) (e : E) : Result T E :=
  match o with Some t => Ok t | None => Err e end.

#[export] Instance Result_eq_dec {T E} `{EqDecision T, EqDecision E} : EqDecision (Result T E).
Proof. solve_decision. Defined.

(** Integer arithmetic checks for overflow in the dev profile (and panics) and wraps in the
    release profile.  The manifest sets no [overflow-checks], so both occur. *)
Inductive Profile := Dev | Release.

Definition overflowing (bits : Z) (p : Profile) (r : Z) : Outcome Z :=
  if (0 <=? r) && (r <? 2 ^ bits) then Ret r
  else match p with Dev => Panic | Release => Ret (r mod 2 ^ bits) end.

Definition add_w (bits : Z) (p : Profile) (a b : Z) : Outcome Z := overflowing bits p (a + b).
Definition sub_w (bits : Z) (p : Profile) (a b : Z) : Outcome Z := overflowing bits p (a - b).
Definition mul_w (bits : Z) (p : Profile) (a b : Z) : Outcome Z := overflowing bits p (a * b).

Definition in_range (bits n : Z) : Prop := 0 <= n < 2 ^ bits.

#[export] Instance in_range_dec bits n : Decision (in_range bits n).
Proof. unfold in_range. apply _. Defined.

Lemma ok_val_inv {T E} (r : Result T E) t : ok_val r = Some t → r = Ok t.
Proof. destruct r; cbn; congruence. Qed.

Lemma ret_val_inv {T} (o : Outcome T) t : ret_val o = Some t → o = Ret t.
Proof. destruct o; cbn; congruence. Qed.

Lemma ret_ok_inv {T E} (o : Outcome (Result T E)) t :
  (ret_val o ≫= ok_val) = Some t → o = Ret (Ok t).
Proof. destruct o as [[]|]; cbn; congruence. Qed.

(** Evaluates a call on concrete arguments: the goal is that it returns a given value. *)
Ltac by_eval :=
  lazymatch goal with
  | |- _ = Ret (Ok _) => apply ret_ok_inv
  | |- _ = Ret _ => apply ret_val_inv
  | |- _ = Ok _ => apply ok_val_inv
  | |- _ = (_, Ok _) => etransitivity; [apply surjective_pairing|]; f_equal; apply ok_val_inv
  | _ => idtac
  end; vm_compute; reflexivity.

(** [lia] with division and modulo by numerals. *)
Ltac div_lia := Z.to_euclidean_division_equations; lia.

Lemma overflowing_exact bits p r : in_range bits r → overflowing bits p r = Ret r.
Proof. intros [??]. unfold overflowing. by rewrite (proj2 (Z.leb_le _ _)), (proj2 (Z.ltb_lt _ _)). Qed.

Lemma overflowing_range bits p r n : 0 <= bits → overflowing bits p r = Ret n → in_range bits n.
Proof.
  intros Hb. unfold overflowing, in_range.
  destruct ((0 <=? r) && (r <? 2 ^ bits)) eqn:E.
  - intros [= <-]. apply andb_true_iff in E as [?%Z.leb_le ?%Z.ltb_lt]. lia.
  - destruct p; [done|]. intros [= <-]. apply Z.mod_pos_bound. by apply Z.pow_pos_nonneg.
Qed.

(** ** Reachability *)

(** Rule induction in the form used for invariants of step relations. *)
Lemma rtc_invariant {A} (R : A → A → Prop) (P : A → Prop) :
  (∀ x y, P x → R x y → P y) → ∀ x y, rtc R x y → P x → P y.
Proof. intros HP x y H. induction H as [|x y z Hxy _ IH]; [done|]. intros Hx. eauto. Qed.
