(* ===== verification/Text.v ===== *)
(** Text and bytes as the Rust standard library handles them: [Display] and [FromStr] of the
    unsigned integers, the [{:02x}] and [{:016x}] formats, [str::as_bytes],
    [String::from_utf8] and [str::starts_with].

    A [String] is its sequence of UTF-8 bytes, so a Rocq [string] stands for the byte sequence
    and [is_str] says that the sequence is one a Rust [String] can hold.  A [Vec<u8>] or a
    [&[u8]] is a [list byte]. *)
From S2P Require Import Prelude.
From Stdlib Require Export Strings.Byte.

(** ** Bytes *)

Definition byte_val (b : byte) : Z := Z.of_N (Byte.to_N b).

#[export] Instance byte_eq_dec : EqDecision byte := Byte.byte_eq_dec.

#[export] Program Instance byte_countable : Countable byte :=
  inj_countable Byte.to_N Byte.of_N _.
Next Obligation. intros b. apply Byte.of_to_N. Qed.

(** Truncation of an integer to its low byte, [x as u8]. *)
Definition byte_of (n : Z) : byte :=
  match Byte.of_N (Z.to_N (n mod 256)) with Some b => b | None => x00 end.

(** [str::as_bytes] and its inverse on byte sequences. *)
Definition as_bytes (s : string) : list byte := list_byte_of_string s.
Definition of_bytes (l : list byte) : string := string_of_list_byte l.

(** ** UTF-8 validation ([String::from_utf8]) *)

Definition byte_in (lo hi : Z) (b : byte) : bool := (lo <=? byte_val b) && (byte_val b <=? hi).
Definition continuation (b : byte) : bool := byte_in 128 191 b.

Fixpoint utf8_valid (l : list byte) : bool :=
  match l with
  | [] => true
  | b0 :: l1 =>
    if byte_in 0 127 b0 then utf8_valid l1 else
    match l1 with
    | [] => false
    | b1 :: l2 =>
      if byte_in 194 223 b0 then continuation b1 && utf8_valid l2 else
      match l2 with
      | [] => false
      | b2 :: l3 =>
        if byte_in 224 224 b0 then byte_in 160 191 b1 && continuation b2 && utf8_valid l3 else
        if byte_in 225 236 b0 || byte_in 238 239 b0
        then continuation b1 && continuation b2 && utf8_valid l3 else
        if byte_in 237 237 b0 then byte_in 128 159 b1 && continuation b2 && utf8_valid l3 else
        match l3 with
        | [] => false
        | b3 :: l4 =>
          let tail := continuation b2 && continuation b3 && utf8_valid l4 in
          if byte_in 240 240 b0 then byte_in 144 191 b1 && tail else
          if byte_in 241 243 b0 then continuation b1 && tail else
          if byte_in 244 244 b0 then byte_in 128 143 b1 && tail else false
        end
      end
    end
  end.

(** The byte sequences a Rust [String] can hold. *)
Definition is_str (s : string) : Prop := utf8_valid (as_bytes s) = true.

(** [Utf8Error]: the length of the valid prefix, and that of the invalid sequence unless the input ends
    inside a character. *)
Record Utf8Error := MkUtf8Error { valid_up_to : nat; error_len : option nat }.

(** The error of an invalid input: where [utf8_valid] stops. *)
Fixpoint utf8_error (i : nat) (l : list byte) : Utf8Error :=
  let err := MkUtf8Error i in
  match l with
  | [] => err None
  | b0 :: l1 =>
    if byte_in 0 127 b0 then utf8_error (S i) l1 else
    if negb (byte_in 194 244 b0) then err (Some 1%nat) else
    match l1 with
    | [] => err None
    | b1 :: l2 =>
      if byte_in 194 223 b0 then if continuation b1 then utf8_error (i + 2) l2 else err (Some 1%nat) else
      let second := if byte_in 224 224 b0 then byte_in 160 191 b1
                    else if byte_in 237 237 b0 then byte_in 128 159 b1
                    else if byte_in 240 240 b0 then byte_in 144 191 b1
                    else if byte_in 244 244 b0 then byte_in 128 143 b1
                    else continuation b1 in
      if negb second then err (Some 1%nat) else
      match l2 with
      | [] => err None
      | b2 :: l3 =>
        if negb (continuation b2) then err (Some 2%nat) else
        if byte_in 224 239 b0 then utf8_error (i + 3) l3 else
        match l3 with
        | [] => err None
        | b3 :: l4 => if continuation b3 then utf8_error (i + 4) l4 else err (Some 3%nat)
        end
      end
    end
  end.

Definition from_utf8 (l : list byte) : Result string Utf8Error :=
  if utf8_valid l then Ok (of_bytes l) else Err (utf8_error 0 l).

(** ** Decimal integers *)

Definition digit_char (d : Z) : ascii := ascii_of_N (Z.to_N (48 + d)).

Definition digit_val (c : ascii) : option Z :=
  let n := Z.of_N (N_of_ascii c) in
  if (48 <=? n) && (n <=? 57) then Some (n - 48) else None.

Fixpoint dec_digits (fuel : nat) (n : Z) (acc : string) : string :=
  match fuel with
  | O => acc
  | S fuel' =>
    let acc' := String (digit_char (n mod 10)) acc in
    if n <? 10 then acc' else dec_digits fuel' (n / 10) acc'
  end.

(** [Display] of a [u32], [u64] or [usize]: twenty digits hold every 64-bit value. *)
Definition display_u64 (n : Z) : string := dec_digits 20 n "".

Fixpoint parse_digits (acc : Z) (s : string) : option Z :=
  match s with
  | EmptyString => Some acc
  | String c s' =>
    d ← digit_val c;
    let acc' := acc * 10 + d in
    if acc' <? 2 ^ 64 then parse_digits acc' s' else None
  end.

(** [str::parse::<u64>().ok()]: an optional [+], then one digit at least, overflow checked. *)
Definition parse_u64 (s : string) : option Z :=
  match s with
  | EmptyString => None
  | String c s' =>
    if Ascii.eqb c "+" then match s' with EmptyString => None | _ => parse_digits 0 s' end
    else parse_digits 0 s
  end.

(** [Display for Utf8Error]. *)
Definition utf8_error_to_string (e : Utf8Error) : string :=
  match e.(error_len) with
  | Some n => "invalid utf-8 sequence of " ++ display_u64 (Z.of_nat n) ++ " bytes from index "
                ++ display_u64 (Z.of_nat e.(valid_up_to))
  | None => "incomplete utf-8 byte sequence from index " ++ display_u64 (Z.of_nat e.(valid_up_to))
  end%string.

Example utf8_error_bad : from_utf8 [x61; xff] = Err (MkUtf8Error 1 (Some 1%nat)).
Proof. reflexivity. Qed.

Example utf8_error_cut : from_utf8 [xe2; x82] = Err (MkUtf8Error 0 None).
Proof. reflexivity. Qed.

(** ** Hexadecimal *)

Definition hex_char (d : Z) : ascii :=
  if d <? 10 then ascii_of_N (Z.to_N (48 + d)) else ascii_of_N (Z.to_N (87 + d)).

Definition hex_val (c : ascii) : option Z :=
  let n := Z.of_N (N_of_ascii c) in
  if (48 <=? n) && (n <=? 57) then Some (n - 48)
  else if (97 <=? n) && (n <=? 102) then Some (n - 87) else None.

(** The last [digits] hexadecimal digits of [n]: [{:02x}] of a [u8] and [{:016x}] of a [u64]
    pad with zeros to a width no value of the type exceeds. *)
Fixpoint hex_fixed (digits : nat) (n : Z) (acc : string) : string :=
  match digits with
  | O => acc
  | S k => hex_fixed k (n / 16) (String (hex_char (n mod 16)) acc)
  end.

Definition hex_byte (b : byte) : string := hex_fixed 2 (byte_val b) "".
Definition hex_u64 (n : Z) : string := hex_fixed 16 n "".

(** [iter().map(|b| format!("{:02x}", b)).collect::<String>()] *)
Fixpoint hex_bytes (l : list byte) : string :=
  match l with [] => "" | b :: l' => hex_byte b ++ hex_bytes l' end.

(** The decoder an observer of the output can run; not part of the program. *)
Fixpoint unhex_bytes (s : string) : option (list byte) :=
  match s with
  | EmptyString => Some []
  | String a (String b s') =>
    h ← hex_val a; l ← hex_val b; r ← unhex_bytes s'; Some (byte_of (16 * h + l) :: r)
  | _ => None
  end.

(** [str::starts_with] *)
Definition starts_with (s pre : string) : bool := String.prefix pre s.

(** ** Lemmas *)

Lemma byte_val_range b : 0 <= byte_val b < 256.
Proof. unfold byte_val. pose proof (Byte.to_N_bounded b). lia. Qed.

Lemma byte_of_val b : byte_of (byte_val b) = b.
Proof.
  unfold byte_of. rewrite Z.mod_small by apply byte_val_range.
  unfold byte_val. by rewrite N2Z.id, Byte.of_to_N.
Qed.

Lemma byte_val_of n : byte_val (byte_of n) = n mod 256.
Proof.
  unfold byte_of, byte_val.
  pose proof (Z.mod_pos_bound n 256 ltac:(lia)).
  destruct (Byte.of_N (Z.to_N (n mod 256))) as [b|] eqn:E.
  - apply Byte.to_of_N in E. lia.
  - apply Byte.of_N_None_iff in E. lia.
Qed.

Lemma byte_val_inj a b : byte_val a = byte_val b → a = b.
Proof. intros E. by rewrite <- (byte_of_val a), E, byte_of_val. Qed.

Lemma of_as_bytes s : of_bytes (as_bytes s) = s.
Proof. apply string_of_list_byte_of_string. Qed.

Lemma as_of_bytes l : as_bytes (of_bytes l) = l.
Proof. apply list_byte_of_string_of_list_byte. Qed.

Lemma as_bytes_inj s t : as_bytes s = as_bytes t → s = t.
Proof. intros E. by rewrite <- (of_as_bytes s), E, of_as_bytes. Qed.

Lemma from_utf8_as_bytes s : is_str s → from_utf8 (as_bytes s) = Ok s.
Proof. unfold is_str, from_utf8. intros ->. by rewrite of_as_bytes. Qed.

Lemma digit_char_code d : 0 <= d < 10 → Z.of_N (N_of_ascii (digit_char d)) = 48 + d.
Proof. intros ?. unfold digit_char. rewrite N_ascii_embedding; lia. Qed.

Lemma digit_val_char d : 0 <= d < 10 → digit_val (digit_char d) = Some d.
Proof.
  intros Hd. unfold digit_val. rewrite digit_char_code by done.
  rewrite (proj2 (Z.leb_le _ _)), (proj2 (Z.leb_le _ _)) by lia. cbn. f_equal. lia.
Qed.

Lemma digit_char_not_plus d : 0 <= d < 10 → Ascii.eqb (digit_char d) "+" = false.
Proof.
  intros Hd. apply Ascii.eqb_neq. intros E.
  pose proof (digit_char_code d Hd) as C. rewrite E in C. change (Z.of_N (N_of_ascii "+")) with 43 in C. lia.
Qed.

Lemma parse_dec_digits fuel n s :
  0 <= n < 10 ^ Z.of_nat fuel → (0 < fuel)%nat → n < 2 ^ 64 →
  parse_digits 0 (dec_digits fuel n s) = parse_digits n s.
Proof.
  revert n s. induction fuel as [|fuel IH]; intros n s Hn Hf Hmax; [lia|].
  rewrite Nat2Z.inj_succ, Z.pow_succ_r in Hn by lia.
  pose proof (Z.mod_pos_bound n 10 ltac:(lia)) as Hmod.
  pose proof (Z.div_mod n 10 ltac:(lia)) as Hdm.
  cbn [dec_digits]. destruct (n <? 10) eqn:E.
  - apply Z.ltb_lt in E. cbn [parse_digits]. rewrite digit_val_char by done. cbn [mbind option_bind].
    rewrite Z.mod_small by lia. change (0 * 10) with 0.
    rewrite (proj2 (Z.ltb_lt _ _)); [done | lia].
  - apply Z.ltb_ge in E. assert (0 < fuel)%nat.
    { destruct fuel; [|lia]. change (10 ^ Z.of_nat 0) with 1 in Hn. lia. }
    rewrite IH; [|split; [apply Z.div_pos; lia | apply Z.div_lt_upper_bound; lia] | done | lia].
    cbn [parse_digits]. rewrite digit_val_char by done. cbn [mbind option_bind].
    replace (n / 10 * 10 + n mod 10) with n by lia. rewrite (proj2 (Z.ltb_lt _ _)); [done | lia].
Qed.

Lemma dec_digits_head fuel n s :
  (0 < fuel)%nat → 0 <= n → ∃ d s', 0 <= d < 10 ∧ dec_digits fuel n s = String (digit_char d) s'.
Proof.
  revert n s. induction fuel as [|fuel IH]; intros n s Hf Hn; [lia|]. cbn [dec_digits].
  pose proof (Z.mod_pos_bound n 10 ltac:(lia)). destruct (n <? 10); [eauto|].
  destruct fuel; [eauto|]. apply IH; [lia|]. apply Z.div_pos; lia.
Qed.

(** The decimal rendering of a 64-bit value parses back to it. *)
Lemma parse_display_u64 n : in_range 64 n → parse_u64 (display_u64 n) = Some n.
Proof.
  intros [H0 H1]. unfold display_u64.
  destruct (dec_digits_head 20 n "" ltac:(lia) H0) as (d & s' & Hd & E).
  unfold parse_u64. rewrite E, digit_char_not_plus, <- E by done.
  rewrite parse_dec_digits; [done | split; [lia|]; etrans; [exact H1 | done] | lia | lia].
Qed.

Lemma display_u64_inj n m : in_range 64 n → in_range 64 m → display_u64 n = display_u64 m → n = m.
Proof.
  intros Hn Hm E. apply (f_equal parse_u64) in E.
  rewrite !parse_display_u64 in E by done. by injection E.
Qed.

Lemma hex_val_char d : 0 <= d < 16 → hex_val (hex_char d) = Some d.
Proof.
  intros Hd. unfold hex_val, hex_char. destruct (d <? 10) eqn:E.
  - apply Z.ltb_lt in E. rewrite N_ascii_embedding by lia.
    rewrite Z2N.id by lia. rewrite !(proj2 (Z.leb_le _ _)) by lia. cbn. f_equal. lia.
  - apply Z.ltb_ge in E. rewrite N_ascii_embedding by lia. rewrite Z2N.id by lia.
    rewrite (proj2 (Z.leb_gt (87 + d) 57)) by lia. rewrite andb_false_r.
    rewrite !(proj2 (Z.leb_le _ _)) by lia. cbn. f_equal. lia.
Qed.

Lemma string_app_cons c s t : (String c s ++ t)%string = String c (s ++ t)%string.
Proof. done. Qed.

Lemma string_app_nil s : ("" ++ s)%string = s.
Proof. done. Qed.

Lemma unhex_hex_bytes l : unhex_bytes (hex_bytes l) = Some l.
Proof.
  induction l as [|b l IH]; [done|].
  pose proof (byte_val_range b) as Hb. cbn [hex_bytes].
  unfold hex_byte, hex_fixed. rewrite !string_app_cons, string_app_nil. cbn [unhex_bytes].
  pose proof (Z.mod_pos_bound (byte_val b) 16 ltac:(lia)).
  pose proof (Z.div_mod (byte_val b) 16 ltac:(lia)).
  rewrite !hex_val_char by (done || (apply Z.mod_pos_bound; lia)). cbn [mbind option_bind].
  rewrite IH. cbn [mbind option_bind]. f_equal. f_equal.
  rewrite (Z.mod_small (byte_val b / 16)) by lia.
  rewrite <- (byte_of_val b) at 3. f_equal. lia.
Qed.

Lemma hex_fixed_length k n s : String.length (hex_fixed k n s) = (k + String.length s)%nat.
Proof. revert n s. induction k as [|k IH]; intros n s; [done|]. cbn. rewrite IH. cbn. lia. Qed.

Lemma prefix_app p s : String.prefix p (p ++ s) = true.
Proof.
  induction p as [|c p IH]; [by destruct s|]. rewrite string_app_cons. cbn.
  destruct (ascii_dec c c); [done|congruence].
Qed.

Lemma prefix_spec p s : String.prefix p s = true ↔ ∃ t, s = (p ++ t)%string.
Proof.
  split; [|intros [t ->]; apply prefix_app].
  revert s. induction p as [|c p IH]; intros s; [by exists s|].
  destruct s as [|c' s]; [done|]. cbn. destruct (ascii_dec c c') as [->|]; [|done].
  intros [t ->]%IH. by exists t.
Qed.

Lemma starts_with_spec s p : starts_with s p = true ↔ ∃ t, s = (p ++ t)%string.
Proof. apply prefix_spec. Qed.

Lemma string_app_inj_l p s t : (p ++ s)%string = (p ++ t)%string → s = t.
Proof. induction p as [|c p IH]; [done|]. rewrite !string_app_cons. intros [= E]. by apply IH. Qed.

Lemma length_app_string s t : String.length (s ++ t) = (String.length s + String.length t)%nat.
Proof. induction s as [|c s IH]; [done|]. rewrite string_app_cons. cbn. by rewrite IH. Qed.

Lemma dec_digits_length fuel n s :
  (String.length (dec_digits fuel n s) <= fuel + String.length s)%nat.
Proof.
  revert n s. induction fuel as [|fuel IH]; intros n s; [done|]. cbn [dec_digits].
  destruct (n <? 10); [cbn; lia|]. etransitivity; [apply IH|]. cbn. lia.
Qed.

(** A 64-bit value has at most twenty digits. *)
Lemma display_u64_length n : (String.length (display_u64 n) <= 20)%nat.
Proof. etransitivity; [apply dec_digits_length|]. done. Qed.

Lemma string_app_nil_r s : (s ++ "")%string = s.
Proof. induction s as [|c s IH]; [done|]. by rewrite string_app_cons, IH. Qed.

Lemma string_app_assoc p s t : ((p ++ s) ++ t)%string = (p ++ (s ++ t))%string.
Proof. induction p as [|c p IH]; [done|]. by rewrite !string_app_cons, IH. Qed.

#[export] Hint Rewrite of_as_bytes as_of_bytes byte_of_val unhex_hex_bytes : caminus_rw.
#[export] Hint Resolve as_bytes_inj string_app_inj_l byte_val_inj : caminus.
