(* ===== verification/F64.v ===== *)
(** The [f64] operations the program uses, on the binary64 format of the Standard Library's
    [SpecFloat]: every operation is the IEEE 754 one, rounding to nearest even. *)
From S2P Require Import Prelude.
From Stdlib Require Export SpecFloat.

Abbreviation f64 := spec_float.
Abbreviation prec64 := 53%Z.
Abbreviation emax64 := 1024%Z.

Definition f64_add : f64 → f64 → f64 := SFadd prec64 emax64.
Definition f64_sub : f64 → f64 → f64 := SFsub prec64 emax64.
Definition f64_mul : f64 → f64 → f64 := SFmul prec64 emax64.
Definition f64_div : f64 → f64 → f64 := SFdiv prec64 emax64.

(** [n as f64] for an integer of at most 64 bits. *)
Definition f64_of_Z (n : Z) : f64 := binary_normalize prec64 emax64 n 0 false.

Definition f64_eqb (a b : f64) : bool := SFeqb a b.
Definition f64_leb (a b : f64) : bool := SFleb a b.
Definition f64_ltb (a b : f64) : bool := SFltb a b.

(** [f64::min] and [f64::max]: a NaN operand is ignored.  Of two zeros the right one is
    returned (the library leaves the choice open). *)
Definition f64_min (a b : f64) : f64 :=
  match SFcompare a b with
  | Some Lt => a
  | Some _ => b
  | None => match a with S754_nan => b | _ => a end
  end.

Definition f64_max (a b : f64) : f64 :=
  match SFcompare a b with
  | Some Gt => a
  | Some _ => b
  | None => match a with S754_nan => b | _ => a end
  end.

(** [f64::trunc] and [f64::fract]. *)
Definition f64_trunc (x : f64) : f64 :=
  match x with
  | S754_finite s m e =>
    if 0 <=? e then x
    else binary_normalize prec64 emax64 (cond_Zopp s (Z.pos m / 2 ^ (- e))) 0 s
  | _ => x
  end.

Definition f64_fract (x : f64) : f64 := f64_sub x (f64_trunc x).

Definition f64_zero : f64 := S754_zero false.

(** ** Exactness on integers

    The integers below [2 ^ 53] are represented exactly, and the operations on them are the ones on
    integers. *)

Definition digits (p : positive) : Z := Z.pos (digits2_pos p).

(** The float of the positive integer [p], at full precision. *)
Definition canon (s : bool) (p : positive) : f64 :=
  S754_finite s (Z.to_pos (Z.pos p * 2 ^ (53 - digits p))) (digits p - 53).

Lemma digits_bounds p : 2 ^ (digits p - 1) <= Z.pos p < 2 ^ digits p.
Proof.
  unfold digits. induction p as [p IH|p IH|]; cbn [digits2_pos]; [| |by cbn];
    rewrite Pos2Z.inj_succ, Z.pow_succ_r by lia;
    replace (Z.succ (Z.pos (digits2_pos p)) - 1) with (Z.succ (Z.pos (digits2_pos p) - 1)) by lia;
    rewrite Z.pow_succ_r by lia; lia.
Qed.

Lemma digits_unique p n : 2 ^ (n - 1) <= Z.pos p < 2 ^ n → digits p = n.
Proof.
  intros [H1 H2]. pose proof (digits_bounds p) as [G1 G2].
  assert (0 <= n). { destruct (Z.lt_ge_cases n 0); [|done]. rewrite Z.pow_neg_r in H2; lia. }
  assert (0 < digits p) by done.
  apply Z.le_antisymm.
  - assert (digits p - 1 < n); [|lia]. apply (Z.pow_lt_mono_r_iff 2); lia.
  - assert (n - 1 < digits p); [|lia].
    destruct (Z.le_gt_cases 0 (n - 1)); [apply (Z.pow_lt_mono_r_iff 2); lia | lia].
Qed.

Lemma digits_le p n : 0 <= n → Z.pos p < 2 ^ n → digits p <= n.
Proof.
  intros Hn H. pose proof (digits_bounds p). assert (0 < digits p) by done.
  assert (digits p - 1 < n); [|lia]. apply (Z.pow_lt_mono_r_iff 2); lia.
Qed.

Lemma iter_xO p d : Z.pos (Pos.iter xO p d) = Z.pos p * 2 ^ Z.pos d.
Proof.
  induction d as [|d IH] using Pos.peano_ind; [cbn; lia|].
  rewrite Pos.iter_succ, Pos2Z.inj_succ, Z.pow_succ_r by lia. lia.
Qed.

Lemma shl_align_down p e e' : e' <= e →
  Z.pos (shl_align p e e').1 = Z.pos p * 2 ^ (e - e') ∧ (shl_align p e e').2 = e'.
Proof.
  intros He. unfold shl_align. destruct (e' - e) as [|d|d] eqn:E; cbn; [|lia|].
  - replace (e - e') with 0 by lia. lia.
  - rewrite iter_xO. split; [|done]. f_equal. f_equal. lia.
Qed.

Lemma iter_pos_nat {A} (f : A → A) n x : iter_pos f n x = Nat.iter (Pos.to_nat n) f x.
Proof.
  revert x. induction n as [n IH|n IH|]; intros x; [| |done]; cbn [iter_pos]; rewrite !IH.
  - rewrite Pos2Nat.inj_xI, <- Nat.iter_succ_r, <- Nat.iter_add. f_equal. lia.
  - rewrite Pos2Nat.inj_xO, <- Nat.iter_add. f_equal. lia.
Qed.

Lemma shr_exact k p :
  Nat.iter k shr_1 {| shr_m := Z.pos p * 2 ^ Z.of_nat k; shr_r := false; shr_s := false |} =
    {| shr_m := Z.pos p; shr_r := false; shr_s := false |}.
Proof.
  induction k as [|k IH]; [cbn; by rewrite Z.mul_1_r|]. rewrite Nat.iter_succ_r.
  rewrite Nat2Z.inj_succ, Z.pow_succ_r by lia.
  replace (Z.pos p * (2 * 2 ^ Z.of_nat k)) with (2 * (Z.pos p * 2 ^ Z.of_nat k)) by lia.
  destruct (Z.pos p * 2 ^ Z.of_nat k) as [|q|q] eqn:E; [|exact IH|];
    pose proof (Z.pow_pos_nonneg 2 (Z.of_nat k) ltac:(lia) ltac:(lia)); nia.
Qed.

Lemma mul_pow_pos p k : 0 <= k → 0 < Z.pos p * 2 ^ k.
Proof. intros Hk. apply Z.mul_pos_pos; [done|]. by apply Z.pow_pos_nonneg. Qed.

(** Rounding a number that has an exact representation. *)
Lemma binary_round_aux_exact s p k e :
  0 <= k → digits p = 53 → e + k <= 971 → -1074 <= e + k →
  binary_round_aux prec64 emax64 s (Z.pos p * 2 ^ k) e loc_Exact = S754_finite s p (e + k).
Proof.
  intros Hk Hd H1 H2. unfold binary_round_aux, shr_fexp.
  destruct (Z.pos p * 2 ^ k) as [|q|q] eqn:E; try (pose proof (mul_pow_pos p k ltac:(lia)); lia).
  assert (Hq : digits q = 53 + k).
  { apply digits_unique. rewrite <- E. pose proof (digits_bounds p) as B. rewrite Hd in B.
    replace (53 + k - 1) with (52 + k) by lia. rewrite !Z.pow_add_r by lia. nia. }
  assert (Hs : shr {| shr_m := Z.pos q; shr_r := false; shr_s := false |} e
                 (fexp prec64 emax64 (Zdigits2 (Z.pos q) + e) - e)
               = ({| shr_m := Z.pos p; shr_r := false; shr_s := false |}, e + k)).
  { change (Zdigits2 (Z.pos q)) with (digits q). rewrite Hq. unfold fexp, emin.
    rewrite Z.max_l by lia. replace (53 + k + e - 53 - e) with k by lia.
    destruct k as [|k|k]; [|cbn [shr]|lia].
    - cbn. rewrite Z.mul_1_r in E. rewrite Z.add_0_r. by injection E as ->.
    - rewrite iter_pos_nat, <- E. f_equal. rewrite <- (positive_nat_Z k). apply shr_exact. }
  cbn [shr_record_of_loc]. rewrite Hs. cbn [shr_m loc_of_shr_record round_nearest_even].
  change (Zdigits2 (Z.pos p)) with (digits p). rewrite Hd. unfold fexp, emin.
  rewrite Z.max_l by lia. replace (53 + (e + k) - 53 - (e + k)) with 0 by lia. cbn [shr shr_m].
  rewrite (proj2 (Z.leb_le _ _)); [done|lia].
Qed.

Lemma binary_round_aux_id s p e : digits p = 53 → -1074 <= e <= 971 →
  binary_round_aux prec64 emax64 s (Z.pos p) e loc_Exact = S754_finite s p e.
Proof.
  intros Hd He. pose proof (binary_round_aux_exact s p 0 e) as H.
  change (2 ^ 0) with 1 in H. rewrite Z.mul_1_r, Z.add_0_r in H. apply H; lia.
Qed.

Lemma canon_digits p : digits p <= 53 → digits (Z.to_pos (Z.pos p * 2 ^ (53 - digits p))) = 53.
Proof.
  intros Hd. assert (0 < digits p) by done. pose proof (digits_bounds p) as [B1 B2].
  apply digits_unique. rewrite Z2Pos.id by (apply mul_pow_pos; lia).
  replace (53 - 1) with (digits p - 1 + (53 - digits p)) by lia.
  assert (E : 2 ^ 53 = 2 ^ digits p * 2 ^ (53 - digits p)).
  { rewrite <- Z.pow_add_r by lia. f_equal. lia. }
  rewrite E, Z.pow_add_r by lia. assert (0 < 2 ^ (53 - digits p)) by (apply Z.pow_pos_nonneg; lia).
  split; [by apply Z.mul_le_mono_nonneg_r; [lia|] | by apply Z.mul_lt_mono_pos_r].
Qed.

Lemma binary_round_exact s p q n :
  0 <= n <= 1000 → digits p <= 53 → Z.pos q = Z.pos p * 2 ^ n →
  binary_round prec64 emax64 s q (- n) = canon s p.
Proof.
  intros Hn Hd E. pose proof (digits_bounds p) as [B1 B2]. assert (0 < digits p) by done.
  assert (Hq : digits q = digits p + n).
  { apply digits_unique. rewrite E.
    replace (digits p + n - 1) with (digits p - 1 + n) by lia. rewrite !Z.pow_add_r by lia. nia. }
  unfold binary_round. change (Z.pos (digits2_pos q)) with (digits q). rewrite Hq.
  unfold fexp, emin. rewrite Z.max_l by lia.
  replace (digits p + n + - n - 53) with (digits p - 53) by lia. unfold canon.
  pose proof (canon_digits p Hd) as Hc.
  assert (Hm : Z.pos (Z.to_pos (Z.pos p * 2 ^ (53 - digits p))) = Z.pos p * 2 ^ (53 - digits p)).
  { apply Z2Pos.id, mul_pow_pos. lia. }
  destruct (Z.le_gt_cases (digits p - 53) (- n)) as [Hle|Hgt].
  - destruct (shl_align_down q (- n) (digits p - 53) Hle) as [S1 S2].
    destruct (shl_align q (- n) (digits p - 53)) as [mz ez]. cbn in S1, S2. subst ez.
    rewrite S1, E, <- Z.mul_assoc, <- Z.pow_add_r by lia.
    replace (n + (- n - (digits p - 53))) with (53 - digits p) by lia. rewrite <- Hm.
    by apply binary_round_aux_id; [|lia].
  - unfold shl_align. destruct (digits p - 53 - - n) as [|k|k] eqn:Ek; [lia| |lia].
    replace n with (53 - digits p + Z.pos k) in E by lia.
    rewrite Z.pow_add_r, Z.mul_assoc, <- Hm in E by lia. rewrite E.
    rewrite binary_round_aux_exact by (done || lia). f_equal. lia.
Qed.

Lemma f64_of_Z_pos p : digits p <= 53 → f64_of_Z (Z.pos p) = canon false p.
Proof.
  intros Hd. unfold f64_of_Z. cbn [binary_normalize]. change 0 with (- 0).
  apply binary_round_exact; lia.
Qed.

Lemma small_digits p : Z.pos p < 2 ^ 53 → digits p <= 53.
Proof. by apply digits_le. Qed.

(** The integer [a >= 0] on the scale [2 ^ (- n)]. *)
Lemma normalize_exact a n : 0 <= a < 2 ^ 53 → 0 <= n <= 1000 →
  binary_normalize prec64 emax64 (a * 2 ^ n) (- n) false = f64_of_Z a.
Proof.
  intros Ha Hn. destruct a as [|p|p]; [done| |lia].
  destruct (Z.pos p * 2 ^ n) as [|q|q] eqn:E; try (pose proof (mul_pow_pos p n ltac:(lia)); lia).
  rewrite f64_of_Z_pos by (apply small_digits; lia). cbn [binary_normalize].
  apply binary_round_exact; [done | apply small_digits; lia | done].
Qed.

(** The mantissas of two integers aligned on the smaller exponent. *)
Lemma canon_align p n : digits p <= 53 → 53 - digits p <= n →
  Z.pos (shl_align (Z.to_pos (Z.pos p * 2 ^ (53 - digits p))) (digits p - 53) (- n)).1
    = Z.pos p * 2 ^ n.
Proof.
  intros Hd Hn. rewrite (proj1 (shl_align_down _ (digits p - 53) (- n) ltac:(lia))).
  rewrite Z2Pos.id by (apply mul_pow_pos; lia).
  rewrite <- Z.mul_assoc, <- Z.pow_add_r by lia. do 2 f_equal. lia.
Qed.

Lemma f64_sub_exact a b : 0 <= b <= a → a < 2 ^ 53 →
  f64_sub (f64_of_Z a) (f64_of_Z b) = f64_of_Z (a - b).
Proof.
  intros Hb Ha. destruct a as [|p|p]; [by replace b with 0 by lia| |lia].
  pose proof (small_digits p Ha) as Hp. rewrite f64_of_Z_pos by done.
  destruct b as [|q|q]; [rewrite Z.sub_0_r, f64_of_Z_pos by done; done| |lia].
  assert (Hq : digits q <= 53) by (apply small_digits; lia). rewrite f64_of_Z_pos by done.
  unfold f64_sub, canon. cbn [SFsub cond_Zopp].
  assert (0 < digits p ∧ 0 < digits q) as [? ?] by done.
  replace (Z.min (digits p - 53) (digits q - 53)) with (- (Z.max (53 - digits p) (53 - digits q)))
    by lia.
  change (fst ?x) with (x.1). rewrite !canon_align by lia. rewrite <- Z.mul_sub_distr_r.
  apply normalize_exact; lia.
Qed.

Lemma f64_compare_exact a b : 0 <= a < 2 ^ 53 → 0 <= b < 2 ^ 53 →
  SFcompare (f64_of_Z a) (f64_of_Z b) = Some (a ?= b).
Proof.
  intros Ha Hb. destruct a as [|p|p]; [| |lia].
  { destruct b as [|q|q]; [done| |lia].
    rewrite (f64_of_Z_pos q) by (apply small_digits; lia). done. }
  assert (Hp : digits p <= 53) by (apply small_digits; lia). rewrite (f64_of_Z_pos p) by done.
  destruct b as [|q|q]; [done| |lia].
  assert (Hq : digits q <= 53) by (apply small_digits; lia). rewrite (f64_of_Z_pos q) by done.
  unfold canon. cbn [SFcompare]. f_equal.
  pose proof (digits_bounds p) as [P1 P2]. pose proof (digits_bounds q) as [Q1 Q2].
  assert (0 < digits p ∧ 0 < digits q) as [? ?] by done.
  destruct (Z.compare_spec (digits p - 53) (digits q - 53)) as [E|E|E].
  - change (Pos.compare_cont Eq ?x ?y) with (Z.pos x ?= Z.pos y).
    rewrite !Z2Pos.id by (apply Z.mul_pos_pos; [done|apply Z.pow_pos_nonneg; lia]).
    replace (digits q) with (digits p) by lia.
    assert (0 < 2 ^ (53 - digits p)) by (apply Z.pow_pos_nonneg; lia).
    generalize dependent (2 ^ (53 - digits p)). intros k Hk. clear -Hk.
    destruct (Z.compare_spec (Z.pos p) (Z.pos q)) as [->|Hl|Hl].
    + apply Z.compare_refl.
    + apply Z.compare_lt_iff. by apply Z.mul_lt_mono_pos_r.
    + apply Z.compare_gt_iff. by apply Z.mul_lt_mono_pos_r.
  - symmetry. apply Z.compare_lt_iff. eapply Z.lt_le_trans; [exact P2|]. etrans; [|exact Q1].
    apply Z.pow_le_mono_r; lia.
  - symmetry. apply Z.compare_gt_iff. eapply Z.lt_le_trans; [exact Q2|]. etrans; [|exact P1].
    apply Z.pow_le_mono_r; lia.
Qed.

Lemma f64_leb_exact a b : 0 <= a < 2 ^ 53 → 0 <= b < 2 ^ 53 →
  f64_leb (f64_of_Z a) (f64_of_Z b) = (a <=? b).
Proof. intros Ha Hb. unfold f64_leb, SFleb. rewrite f64_compare_exact by done. unfold Z.leb. by destruct (a ?= b). Qed.

Lemma f64_min_exact a b : 0 <= a < 2 ^ 53 → 0 <= b < 2 ^ 53 →
  f64_min (f64_of_Z a) (f64_of_Z b) = f64_of_Z (Z.min a b).
Proof.
  intros Ha Hb. unfold f64_min, Z.min. rewrite f64_compare_exact by done.
  destruct (Z.compare_spec a b); by subst.
Qed.

(** The shape of the float of an integer: zero or a positive finite number. *)
Lemma f64_of_Z_cases a : 0 <= a < 2 ^ 53 →
  f64_of_Z a = S754_zero false ∨ ∃ m e, f64_of_Z a = S754_finite false m e.
Proof.
  intros Ha. destruct a as [|p|p]; [by left| |lia]. right.
  rewrite f64_of_Z_pos by (apply small_digits; lia). by eexists _, _.
Qed.

Lemma f64_add_zero a s : 0 <= a < 2 ^ 53 → f64_add (f64_of_Z a) (S754_zero s) = f64_of_Z a.
Proof. intros Ha. destruct (f64_of_Z_cases a Ha) as [-> | (m & e & ->)]; by destruct s. Qed.

(** The order of the floats is transitive. *)
Lemma f64_compare_trans x y z : SFcompare x y = Some Lt → SFcompare y z = Some Lt →
  SFcompare z x = Some Gt.
Proof.
  destruct x as [[] |[]| |[] m1 e1], y as [[] |[]| |[] m2 e2], z as [[] |[]| |[] m3 e3];
    cbn [SFcompare]; try done; change (Pos.compare_cont Eq ?a ?b) with (Pos.compare a b).
  all: destruct (Z.compare_spec e1 e2), (Z.compare_spec e2 e3), (Z.compare_spec e3 e1);
    try done; try lia; subst;
    destruct (Pos.compare_spec m1 m2); try done; try lia;
    destruct (Pos.compare_spec m2 m3); try done; try lia;
    destruct (Pos.compare_spec m3 m1); try done; try lia.
Qed.

(** An integer has no fraction. *)
Lemma f64_integer a : 0 <= a < 2 ^ 53 → f64_eqb (f64_fract (f64_of_Z a)) f64_zero = true.
Proof.
  intros Ha. assert (Ht : f64_trunc (f64_of_Z a) = f64_of_Z a).
  { destruct a as [|p|p]; [done| |lia]. pose proof (small_digits p ltac:(lia)) as Hd.
    rewrite f64_of_Z_pos by done. unfold canon. cbn [f64_trunc].
    destruct (Z.leb_spec 0 (digits p - 53)); [done|]. cbn [cond_Zopp].
    rewrite Z2Pos.id by (apply mul_pow_pos; lia). replace (- (digits p - 53)) with (53 - digits p) by lia.
    rewrite Z.div_mul by (apply Z.pow_nonzero; lia). fold (f64_of_Z (Z.pos p)).
    change (binary_normalize prec64 emax64 (Z.pos p) 0 false) with (f64_of_Z (Z.pos p)).
    by rewrite f64_of_Z_pos. }
  unfold f64_fract. rewrite Ht, f64_sub_exact, Z.sub_diag by lia. done.
Qed.
