(* ===== verification/Rounding.v ===== *)
(** The rounding error of the [f64] operations on nonnegative numbers: the value of a float as a real
    number, and that each operation returns the exact result rounded to the nearest float. *)
From S2P Require Import Prelude F64.
From Stdlib Require Import Reals Lra.

#[local] Open Scope R_scope.

(** ** Powers of two *)

Definition bp (e : Z) : R := powerRZ 2 e.

Lemma bp_pos e : 0 < bp e.
Proof. apply powerRZ_lt. lra. Qed.
#[export] Hint Resolve bp_pos : caminus.

Lemma bp_add a b : bp (a + b) = bp a * bp b.
Proof. apply powerRZ_add. lra. Qed.

Lemma bp_IZR n : (0 <= n)%Z → bp n = IZR (2 ^ n).
Proof.
  intros Hn. unfold bp. destruct n as [|p|]; [done| |lia]. cbn [powerRZ].
  rewrite pow_IZR. by rewrite positive_nat_Z.
Qed.

Lemma bp_split a b : bp a = bp b * bp (a - b).
Proof. rewrite <- bp_add. f_equal. lia. Qed.

Lemma bp_ge1 n : (0 <= n)%Z → 1 <= bp n.
Proof. intros Hn. rewrite bp_IZR by done. apply IZR_le. pose proof (Z.pow_pos_nonneg 2 n). lia. Qed.

Lemma bp_le a b : (a <= b)%Z → bp a <= bp b.
Proof.
  intros H. rewrite (bp_split b a). pose proof (bp_pos a). pose proof (bp_ge1 (b - a) ltac:(lia)). nra.
Qed.

Lemma bp_lt a b : (a < b)%Z → bp a < bp b.
Proof.
  intros H. pose proof (bp_le (a + 1) b ltac:(lia)) as Hb. rewrite bp_add in Hb.
  change (bp 1) with (2 * 1) in Hb. pose proof (bp_pos a). lra.
Qed.

Lemma bp_le_inv a b : bp a <= bp b → (a <= b)%Z.
Proof. intros H. destruct (Z.le_gt_cases a b) as [|Hlt%bp_lt]; [done|lra]. Qed.

Lemma bp_half e : bp e / 2 = bp (e - 1).
Proof. rewrite (bp_split e (e - 1)). replace (e - (e - 1))%Z with 1%Z by lia. change (bp 1) with (2 * 1). lra. Qed.

Lemma bp_inv e : / bp e = bp (- e).
Proof.
  pose proof (bp_pos e). apply (Rmult_eq_reg_l (bp e)); [|lra]. rewrite Rinv_r by lra.
  rewrite <- bp_add, Z.add_opp_diag_r. done.
Qed.

Lemma bp_div x a b : x / bp a / bp b = x / bp (a + b).
Proof. rewrite bp_add. pose proof (bp_pos a). pose proof (bp_pos b). field. lra. Qed.

Lemma IZR_bp k e : (0 <= e)%Z → IZR k * bp e = IZR (k * 2 ^ e).
Proof. intros He. by rewrite bp_IZR, mult_IZR. Qed.

Lemma div_bp_mul x e : x / bp e * bp e = x.
Proof. pose proof (bp_pos e). field. lra. Qed.

Lemma le_div_bp x y e : x * bp e <= y ↔ x <= y / bp e.
Proof.
  pose proof (bp_pos e) as Hp. rewrite <- (div_bp_mul y e) at 1. split; intros H; [|nra].
  apply (Rmult_le_reg_r (bp e)); lra.
Qed.

Lemma div_bp_le x y e : x <= y * bp e ↔ x / bp e <= y.
Proof.
  pose proof (bp_pos e) as Hp. rewrite <- (div_bp_mul x e) at 1. split; intros H; [|nra].
  apply (Rmult_le_reg_r (bp e)); lra.
Qed.

Lemma div_bp_lt x y e : x < y * bp e ↔ x / bp e < y.
Proof.
  pose proof (bp_pos e) as Hp. rewrite <- (div_bp_mul x e) at 1. split; intros H; [|nra].
  apply (Rmult_lt_reg_r (bp e)); lra.
Qed.

(** ** The shift register *)

(** The real [x] lies in [[m, m + 1)], in the place that the two bits tell. *)
Definition inb (x : R) (mrs : shr_record) : Prop :=
  let m := IZR mrs.(shr_m) in
  match mrs.(shr_r), mrs.(shr_s) with
  | false, false => x = m
  | false, true => m < x < m + 1 / 2
  | true, false => x = m + 1 / 2
  | true, true => m + 1 / 2 < x < m + 1
  end.

Lemma inb_bounds x mrs : inb x mrs → IZR mrs.(shr_m) <= x < IZR mrs.(shr_m) + 1.
Proof. destruct mrs as [m [] []]; cbn; lra. Qed.

Lemma inb_shr_1 x mrs : (0 <= mrs.(shr_m))%Z → inb x mrs → inb (x / 2) (shr_1 mrs).
Proof.
  destruct mrs as [[|[p|p|]|p] r s]; cbn [shr_m]; intros Hm; try lia; unfold inb; cbn [shr_1 shr_m shr_r shr_s].
  2: rewrite (Pos2Z.inj_xI p), plus_IZR, mult_IZR.
  3: rewrite (Pos2Z.inj_xO p), mult_IZR.
  all: destruct r, s; cbn [orb]; lra.
Qed.

Lemma shr_1_nonneg mrs : (0 <= mrs.(shr_m))%Z → (0 <= (shr_1 mrs).(shr_m))%Z.
Proof. destruct mrs as [[|[p|p|]|p] r s]; cbn; lia. Qed.

Lemma inb_iter n x mrs : (0 <= mrs.(shr_m))%Z → inb x mrs →
  inb (x / bp (Z.pos n)) (SpecFloat.iter_pos shr_1 n mrs) ∧ (0 <= (SpecFloat.iter_pos shr_1 n mrs).(shr_m))%Z.
Proof.
  rewrite iter_pos_nat. rewrite <- (positive_nat_Z n). generalize (Pos.to_nat n). clear n.
  intros n Hm Hx. induction n as [|n [IH1 IH2]].
  { change (bp (Z.of_nat 0)) with 1. cbn. split; [|done]. by rewrite Rdiv_1_r. }
  cbn [Nat.iter]. split; [|by apply shr_1_nonneg].
  rewrite Nat2Z.inj_succ, <- Z.add_1_r, <- bp_div. change (bp 1) with (2 * 1).
  rewrite Rmult_1_r. by apply inb_shr_1.
Qed.

(** ** Rounding to an integer *)

Lemma round_near y mrs : inb y mrs →
  let N := round_nearest_even mrs.(shr_m) (loc_of_shr_record mrs) in
  y - 1 / 2 <= IZR N <= y + 1 / 2 ∧ (mrs.(shr_m) <= N <= mrs.(shr_m) + 1)%Z.
Proof.
  destruct mrs as [m [] []]; unfold inb; cbn [shr_m shr_r shr_s loc_of_shr_record round_nearest_even];
    intros Hy; [| destruct (Z.even m) | |]; rewrite ?plus_IZR; (split; [lra|lia]).
Qed.

Lemma near_above N y k : y - 1 / 2 <= IZR N → IZR k <= y → (k <= N)%Z.
Proof. intros H Hk. assert (IZR (k - 1) < IZR N) as ?%lt_IZR; [|lia]. rewrite minus_IZR. lra. Qed.

Lemma near_below N y k : IZR N <= y + 1 / 2 → y <= IZR k → (N <= k)%Z.
Proof. intros H Hk. assert (IZR N < IZR (k + 1)) as ?%lt_IZR; [|lia]. rewrite plus_IZR. lra. Qed.

(** ** Values *)

(** The value of a finite float. *)
Definition to_R (x : f64) : R :=
  match x with
  | S754_finite s m e => (if s then -1 else 1) * IZR (Z.pos m) * bp e
  | _ => 0
  end.

(** A zero or a positive float with its mantissa in the canonical form. *)
Definition nonnegative (x : f64) : Prop :=
  match x with
  | S754_zero _ => True
  | S754_finite s m e => s = false ∧ SpecFloat.bounded prec64 emax64 m e = true
  | _ => False
  end.

(** The numbers that a mantissa of 53 bits can express. *)
Definition in_format (z : R) : Prop :=
  ∃ k g, (0 <= k <= 2 ^ 53)%Z ∧ (-1074 <= g)%Z ∧ z = IZR k * bp g.

(** The float [x] is the real [X] rounded to nearest. *)
Record rounds (x : f64) (X : R) : Prop := {
  rounds_nonnegative : nonnegative x;
  rounds_err : X - X * bp (-53) - bp (-1075) <= to_R x <= X + X * bp (-53) + bp (-1075);
  rounds_above : ∀ z, in_format z → z <= X → z <= to_R x;
  rounds_below : ∀ z, in_format z → X <= z → to_R x <= z;
}.

Lemma bounded_spec m e : SpecFloat.bounded prec64 emax64 m e = true ↔
  (Z.max (digits m + e - 53) (-1074) = e ∧ e <= 971)%Z.
Proof.
  unfold SpecFloat.bounded, canonical_mantissa, fexp, emin, digits. rewrite andb_true_iff, Z.eqb_eq, Z.leb_le. done.
Qed.

Lemma to_R_pos m e : 0 < to_R (S754_finite false m e).
Proof. cbn. pose proof (bp_pos e). assert (0 < IZR (Z.pos m)) by (apply IZR_lt; lia). nra. Qed.

Lemma nonnegative_to_R x : nonnegative x → 0 <= to_R x.
Proof. destruct x as [| | |s m e]; cbn; try lra. intros [-> _]. left. apply to_R_pos. Qed.

Lemma digits_R p : bp (digits p - 1) <= IZR (Z.pos p) < bp (digits p).
Proof.
  pose proof (digits_bounds p) as [H1 H2]. assert (0 < digits p)%Z by done.
  rewrite !bp_IZR by lia. split; [by apply IZR_le|by apply IZR_lt].
Qed.

Lemma nonnegative_format x : nonnegative x → in_format (to_R x).
Proof.
  destruct x as [s| | |s m e]; [|done|done|].
  - intros _. exists 0%Z, 0%Z. split; [lia|]. split; [lia|]. cbn. lra.
  - intros [-> H%bounded_spec]. exists (Z.pos m), e. split; [|split; [lia|cbn; lra]].
    pose proof (digits_bounds m) as [_ H2]. assert (2 ^ digits m <= 2 ^ 53)%Z; [|lia].
    apply Z.pow_le_mono_r; lia.
Qed.

Lemma rounds_self x : nonnegative x → rounds x (to_R x).
Proof.
  intros H. split; [done| |done|done]. pose proof (nonnegative_to_R x H).
  pose proof (bp_pos (-53)). pose proof (bp_pos (-1075)). nra.
Qed.

(** ** Rounding *)

Lemma shr_inb x mrs e n : (0 <= n)%Z → (0 <= mrs.(shr_m))%Z → inb x mrs →
  ∃ mrs', shr mrs e n = (mrs', (e + n)%Z) ∧ inb (x / bp n) mrs' ∧ (0 <= mrs'.(shr_m))%Z.
Proof.
  intros Hn Hm Hx. destruct n as [|n|n]; cbn [shr]; [| |lia].
  - exists mrs. rewrite Z.add_0_r. change (bp 0) with 1. by rewrite Rdiv_1_r.
  - destruct (inb_iter n x mrs Hm Hx). by eexists.
Qed.

Lemma Zdigits2_pow n : (0 <= n)%Z → Zdigits2 (2 ^ n) = (n + 1)%Z.
Proof.
  intros Hn. pose proof (Z.pow_pos_nonneg 2 n). destruct (2 ^ n)%Z as [|p|p] eqn:E; [lia| |lia].
  change (Zdigits2 (Z.pos p)) with (digits p). apply digits_unique.
  rewrite <- E, Z.add_simpl_r, Z.pow_add_r by lia. lia.
Qed.

(** The second half of the rounding: the rounded mantissa may need one more shift. *)
Definition finish (N f : Z) : f64 :=
  let '(mrs, e) := shr_fexp prec64 emax64 N f loc_Exact in
  match mrs.(shr_m) with
  | Z0 => S754_zero false
  | Z.pos m => if (e <=? 1024 - 53)%Z then S754_finite false m e else S754_infinity false
  | _ => S754_nan
  end.

Lemma finish_spec N f : (0 <= N <= 2 ^ 53)%Z → (-1074 <= f <= 970)%Z → (f = -1074 ∨ 2 ^ 52 <= N)%Z →
  nonnegative (finish N f) ∧ to_R (finish N f) = IZR N * bp f.
Proof.
  intros HN Hf Hc. unfold finish, shr_fexp, fexp, emin. cbn [shr_record_of_loc].
  destruct (decide (N = 2 ^ 53)%Z) as [->|Hne].
  { rewrite Zdigits2_pow by lia. rewrite Z.max_l by lia.
    replace (53 + 1 + f - 53 - f)%Z with 1%Z by lia. cbn [shr].
    change (SpecFloat.iter_pos shr_1 1 _) with (Build_shr_record (2 ^ 52) false false).
    cbn [shr_m]. change (2 ^ 52)%Z with (Z.pos (Z.to_pos (2 ^ 52))). cbn iota.
    rewrite (proj2 (Z.leb_le _ _)) by lia. split.
    - split; [done|]. apply bounded_spec. change (digits (Z.to_pos (2 ^ 52))) with 53%Z. lia.
    - cbn [to_R]. rewrite Rmult_1_l, bp_add, (Rmult_comm (bp f)), <- Rmult_assoc. f_equal.
      rewrite IZR_bp by lia. done. }
  assert (Hd : (Zdigits2 N <= 53)%Z).
  { destruct N as [|p|p]; [done| |lia]. apply digits_le; lia. }
  assert (Hs : ∀ mrs, shr mrs f (Z.max (Zdigits2 N + f - 53) (3 - 1024 - 53) - f) = (mrs, f)).
  { intros mrs. destruct (Z.max _ _ - f)%Z as [|q|q] eqn:E; [done|lia|done]. }
  rewrite Hs. cbn [shr_m]. destruct N as [|p|p]; [|rewrite (proj2 (Z.leb_le _ _)) by lia|lia].
  - split; [done|]. cbn. lra.
  - split; [|cbn [to_R]; lra]. split; [done|]. apply bounded_spec. split; [|lia].
    change (Zdigits2 (Z.pos p)) with (digits p) in Hd. destruct Hc as [->|Hc]; [lia|].
    rewrite (digits_unique p 53); lia.
Qed.

Lemma round_aux_finish m e l :
  binary_round_aux prec64 emax64 false m e l =
    let '(mrs, f) := shr_fexp prec64 emax64 m e l in
    finish (round_nearest_even mrs.(shr_m) (loc_of_shr_record mrs)) f.
Proof. done. Qed.

Lemma shr_record_m m l : (shr_record_of_loc m l).(shr_m) = m.
Proof. by destruct l as [|[]]. Qed.

(** A number of the format lies on the grid [2 ^ f] or below its first normal number. *)
Lemma format_grid z f : in_format z → (∃ k, z = IZR k * bp f) ∨ (-1074 < f)%Z ∧ z <= IZR (2 ^ 52) * bp f.
Proof.
  intros (k & g & Hk & Hg & ->). destruct (Z.le_gt_cases f g).
  - left. exists (k * 2 ^ (g - f))%Z. rewrite mult_IZR, <- bp_IZR, Rmult_assoc, <- bp_add by lia.
    do 2 f_equal. lia.
  - right. split; [lia|]. replace f with (g + (f - g))%Z by lia. rewrite bp_add.
    assert (IZR k <= IZR (2 ^ 53)) by (apply IZR_le; lia).
    assert (IZR (2 ^ 52) * bp (f - g) >= IZR (2 ^ 53)).
    { rewrite bp_IZR, <- mult_IZR by lia. apply Rle_ge, IZR_le. change (2 ^ 53)%Z with (2 ^ 52 * 2 ^ 1)%Z.
      apply Z.mul_le_mono_nonneg_l; [lia|]. apply Z.pow_le_mono_r; lia. }
    pose proof (bp_pos g). nra.
Qed.

Lemma grid_rounds x X N f : nonnegative x → to_R x = IZR N * bp f → 0 <= X →
  X / bp f - 1 / 2 <= IZR N <= X / bp f + 1 / 2 → (-1074 <= f)%Z →
  (f = -1074)%Z ∨ (2 ^ 52 <= N)%Z ∧ IZR (2 ^ 52) * bp f <= X → rounds x X.
Proof.
  intros Hx Ex HX HN Hf Hc. set (y := X / bp f) in *.
  assert (Ey : X = y * bp f) by (unfold y; by rewrite div_bp_mul). pose proof (bp_pos f) as Hp.
  split; [done| | |]; rewrite ?Ex.
  - pose proof (bp_half f) as Hh. assert (bp (f - 1) <= X * bp (-53) + bp (-1075)).
    { pose proof (bp_pos (-53)). pose proof (bp_pos (-1075)). destruct Hc as [->|[_ Hc]].
      - change (-1074 - 1)%Z with (-1075)%Z. nra.
      - rewrite <- bp_IZR, <- bp_add in Hc by lia. apply (Rmult_le_compat_r (bp (-53))) in Hc; [|lra].
        rewrite <- bp_add in Hc. replace (52 + f + -53)%Z with (f - 1)%Z in Hc by lia. lra. }
    rewrite Ey in *. nra.
  - intros z Hz Hle. destruct (format_grid z f Hz) as [[k ->]|[Hf' Hz']].
    + apply Rmult_le_compat_r; [lra|]. apply IZR_le, (near_above _ y); [lra|]. nra.
    + destruct Hc as [->|[Hc%IZR_le _]]; [lia|]. nra.
  - intros z Hz Hle. destruct (format_grid z f Hz) as [[k ->]|[Hf' Hz']].
    + apply Rmult_le_compat_r; [lra|]. apply IZR_le, (near_below _ y); [lra|]. nra.
    + destruct Hc as [->|[_ Hc]]; [lia|].
      assert (y = IZR (2 ^ 52)) as Hy by nra. assert (N <= 2 ^ 52)%Z as HN2%IZR_le; [|nra].
      apply (near_below _ y); lra.
Qed.

Lemma round_aux_rounds m e l X : (0 <= m)%Z → inb (X / bp e) (shr_record_of_loc m l) →
  (e <= fexp prec64 emax64 (Zdigits2 m + e))%Z → X <= bp 1000 →
  rounds (binary_round_aux prec64 emax64 false m e l) X.
Proof.
  intros Hm Hin He HX. rewrite round_aux_finish. unfold shr_fexp. set (d := Zdigits2 m) in *.
  unfold fexp, emin in *. set (f := Z.max (d + e - 53) (3 - 1024 - 53)) in *.
  pose proof (inb_bounds _ _ Hin) as Hb. rewrite shr_record_m in Hb.
  destruct (shr_inb _ _ e (f - e) ltac:(lia) ltac:(by rewrite shr_record_m) Hin) as (mrs & -> & Hin' & Hm').
  rewrite bp_div in Hin'. replace (e + (f - e))%Z with f in * by lia.
  set (y := X / bp f) in *. pose proof (inb_bounds _ _ Hin') as Hy.
  pose proof (round_near y mrs Hin') as [HN1 HN2]. set (N := round_nearest_even _ _) in *.
  pose proof (IZR_le _ _ Hm) as Hm0. pose proof (bp_pos e) as Hpe. pose proof (bp_pos f) as Hpf.
  assert (HX0 : IZR m * bp e <= X) by (apply le_div_bp; lra).
  assert (Hup : X < bp (f + 53)).
  { apply Rlt_le_trans with (IZR (m + 1) * bp e); [apply div_bp_lt | apply Rle_trans with (bp (d + e))].
    - rewrite plus_IZR. lra.
    - rewrite bp_add. apply Rmult_le_compat_r; [lra|]. subst d. destruct m as [|p|p]; [by vm_compute; lra| |lia].
      pose proof (digits_bounds p). cbn [Zdigits2]. rewrite bp_IZR by lia. apply IZR_le. fold (digits p). lia.
    - apply bp_le. lia. }
  assert (Hlo : (f = -1074)%Z ∨ IZR (2 ^ 52) * bp f <= X).
  { destruct (decide (f = -1074)%Z) as [|Hne]; [by left|right]. assert (Hf : (d + e - 53 = f)%Z) by lia.
    destruct m as [|p|p]; [change d with 0%Z in *; lia| |lia].
    pose proof (digits_R p) as [Hd _]. change (digits p) with d in Hd. rewrite <- bp_IZR, <- bp_add by lia.
    replace (52 + f)%Z with (d - 1 + e)%Z by lia. rewrite bp_add. nra. }
  assert (Hf : (-1074 <= f <= 970)%Z).
  { split; [lia|]. destruct Hlo as [->|Hlo]; [lia|]. rewrite <- bp_IZR, <- bp_add in Hlo by lia.
    assert (52 + f <= 1000)%Z; [|lia]. apply bp_le_inv. lra. }
  assert (HN53 : (N <= 2 ^ 53)%Z).
  { rewrite Z.add_comm, bp_add, (bp_IZR 53) in Hup by lia. apply div_bp_lt in Hup. fold y in Hup.
    assert (mrs.(shr_m) < 2 ^ 53)%Z; [|lia]. apply lt_IZR. lra. }
  assert (Hc : (f = -1074)%Z ∨ (2 ^ 52 <= N)%Z ∧ IZR (2 ^ 52) * bp f <= X).
  { destruct Hlo as [|Hlo]; [by left|right]. split; [|done]. apply (near_above _ y); [lra|]. by apply le_div_bp. }
  destruct (finish_spec N f) as [F1 F2]; [lia|done|by destruct Hc as [|[]]; auto|].
  apply (grid_rounds _ _ N f); [done|done|nra|fold y; lra|lia|done].
Qed.

(** ** Operations *)

Lemma inb_exact m e : inb (IZR m * bp e / bp e) (shr_record_of_loc m loc_Exact).
Proof. cbn. pose proof (bp_pos e). field. lra. Qed.

Lemma shl_align_R p e e' : (e' <= e)%Z → IZR (Z.pos (shl_align p e e').1) * bp e' = IZR (Z.pos p) * bp e.
Proof.
  intros H. rewrite (proj1 (shl_align_down p e e' H)), <- IZR_bp, Rmult_assoc, <- bp_add by lia.
  do 2 f_equal. lia.
Qed.

Lemma digits_shl p q n : (0 <= n)%Z → Z.pos q = (Z.pos p * 2 ^ n)%Z → digits q = (digits p + n)%Z.
Proof.
  intros Hn Hq. pose proof (digits_bounds p) as [H1 H2]. assert (0 < digits p)%Z by done.
  apply digits_unique. rewrite Hq. replace (digits p + n - 1)%Z with (digits p - 1 + n)%Z by lia.
  rewrite !Z.pow_add_r by lia. pose proof (Z.pow_pos_nonneg 2 n). nia.
Qed.

Lemma normalize_rounds n e s : (0 <= n)%Z → IZR n * bp e <= bp 1000 →
  rounds (binary_normalize prec64 emax64 n e s) (IZR n * bp e).
Proof.
  intros Hn HX. destruct n as [|p|p]; [|cbn [binary_normalize]; unfold binary_round|lia].
  { cbn. rewrite Rmult_0_l. by apply (rounds_self (S754_zero s)). }
  change (Z.pos (digits2_pos p)) with (digits p). set (f := fexp prec64 emax64 (digits p + e)).
  destruct (Z.le_gt_cases f e) as [Hf|Hf].
  - destruct (shl_align_down p e f Hf) as [E1 E2]. pose proof (shl_align_R p e f Hf) as E3.
    destruct (shl_align p e f) as [q ez]. cbn [fst snd] in *. subst ez. rewrite <- E3 in *.
    apply round_aux_rounds; [done|apply inb_exact| |done]. change (Zdigits2 (Z.pos q)) with (digits q).
    rewrite (digits_shl p q (e - f)) by (done || lia). fold f.
    replace (digits p + (e - f) + f)%Z with (digits p + e)%Z by lia. done.
  - assert (shl_align p e f = (p, e)) as ->.
    { unfold shl_align. destruct (f - e)%Z eqn:E; [done|done|lia]. }
    apply round_aux_rounds; [done|apply inb_exact| |done]. by apply Z.lt_le_incl.
Qed.

Lemma of_Z_rounds n : (0 <= n < 2 ^ 1000)%Z → rounds (f64_of_Z n) (IZR n).
Proof.
  intros Hn. pose proof (normalize_rounds n 0 false ltac:(lia)) as H. change (bp 0) with 1 in H.
  rewrite Rmult_1_r in H. apply H. rewrite bp_IZR by lia. apply IZR_le. lia.
Qed.

(** A number of the format is its own rounding. *)
Lemma rounds_format x X : rounds x X → in_format X → to_R x = X.
Proof. intros [_ _ H1 H2] Hf. apply Rle_antisym; [by apply H2; [|lra]|by apply H1; [|lra]]. Qed.

Lemma format_Z n : (0 <= n <= 2 ^ 53)%Z → in_format (IZR n).
Proof. intros Hn. exists n, 0%Z. split; [done|]. split; [lia|]. change (bp 0) with 1. by rewrite Rmult_1_r. Qed.

Lemma of_Z_exact n : (0 <= n <= 2 ^ 53)%Z → to_R (f64_of_Z n) = IZR n ∧ nonnegative (f64_of_Z n).
Proof.
  intros Hn. assert (H : rounds (f64_of_Z n) (IZR n)) by (apply of_Z_rounds; lia).
  split; [|apply H]. by apply rounds_format, format_Z.
Qed.

Lemma add_rounds x y : nonnegative x → nonnegative y → to_R x + to_R y <= bp 1000 →
  rounds (f64_add x y) (to_R x + to_R y).
Proof.
  destruct x as [sx| | |sx mx ex], y as [sy| | |sy my ey]; try done; intros Hx Hy HX.
  - cbn [to_R]. rewrite Rplus_0_l. unfold f64_add. cbn [SFadd].
    destruct sx, sy; by apply (rounds_self (S754_zero _)).
  - cbn [f64_add SFadd] in *. rewrite Rplus_0_l. by apply rounds_self.
  - cbn [f64_add SFadd] in *. rewrite Rplus_0_r. by apply rounds_self.
  - destruct Hx as [-> _], Hy as [-> _]. unfold f64_add. cbn [SFadd cond_Zopp]. change (fst ?x) with (x.1).
    set (ez := Z.min ex ey). cbn [to_R] in *. rewrite !Rmult_1_l in *.
    rewrite <- (shl_align_R mx ex ez), <- (shl_align_R my ey ez), <- Rmult_plus_distr_r, <- plus_IZR in * by lia.
    apply normalize_rounds; [lia|done].
Qed.

Lemma sub_rounds x y : nonnegative x → nonnegative y → to_R y <= to_R x → to_R x <= bp 1000 →
  rounds (f64_sub x y) (to_R x - to_R y).
Proof.
  destruct x as [sx| | |sx mx ex], y as [sy| | |sy my ey]; try done; intros Hx Hy Hle HX.
  - cbn [to_R]. rewrite Rminus_diag. unfold f64_sub. cbn [SFsub].
    destruct sx, sy; by apply (rounds_self (S754_zero _)).
  - destruct Hy as [-> _]. pose proof (to_R_pos my ey). change (to_R (S754_zero sx)) with 0 in *. lra.
  - cbn [f64_sub SFsub] in *. rewrite Rminus_0_r. by apply rounds_self.
  - destruct Hx as [-> _], Hy as [-> _]. unfold f64_sub. cbn [SFsub cond_Zopp]. change (fst ?x) with (x.1).
    set (ez := Z.min ex ey). cbn [to_R] in *. rewrite !Rmult_1_l in *. pose proof (bp_pos ez).
    rewrite <- (shl_align_R mx ex ez), <- (shl_align_R my ey ez) in * by lia.
    rewrite <- Rmult_minus_distr_r, <- minus_IZR. apply normalize_rounds.
    + apply Rmult_le_reg_r, le_IZR in Hle; [lia|done].
    + rewrite minus_IZR. rewrite Rmult_minus_distr_r.
      assert (0 <= IZR (Z.pos (shl_align my ey ez).1)) by (by apply IZR_le). nra.
Qed.

Lemma mul_rounds x y : nonnegative x → nonnegative y → to_R x * to_R y <= bp 1000 →
  rounds (f64_mul x y) (to_R x * to_R y).
Proof.
  destruct x as [sx| | |sx mx ex], y as [sy| | |sy my ey]; try done; intros Hx Hy HX.
  1-3: cbn [to_R]; rewrite ?Rmult_0_l, ?Rmult_0_r; unfold f64_mul; cbn [SFmul]; by apply (rounds_self (S754_zero _)).
  destruct Hx as [-> Hx%bounded_spec], Hy as [-> Hy%bounded_spec]. unfold f64_mul. cbn [SFmul xorb].
  assert (E : to_R (S754_finite false mx ex) * to_R (S754_finite false my ey)
    = IZR (Z.pos (mx * my)) * bp (ex + ey)).
  { cbn [to_R]. rewrite Pos2Z.inj_mul, mult_IZR, bp_add. ring. }
  rewrite E in *. apply round_aux_rounds; [done|apply inb_exact| |done].
  change (Zdigits2 (Z.pos (mx * my))) with (digits (mx * my)). unfold fexp, emin.
  assert (Hd : (digits mx + digits my - 1 <= digits (mx * my))%Z).
  { pose proof (digits_bounds mx) as [Mx _]. pose proof (digits_bounds my) as [My _].
    pose proof (digits_bounds (mx * my)) as [_ M]. assert (0 < digits mx ∧ 0 < digits my)%Z as [? ?] by done.
    assert (digits mx + digits my - 2 < digits (mx * my))%Z; [|lia].
    apply (Z.pow_lt_mono_r_iff 2); [lia|by apply Z.lt_le_incl|].
    replace (digits mx + digits my - 2)%Z with ((digits mx - 1) + (digits my - 1))%Z by lia.
    rewrite Z.pow_add_r by lia. rewrite Pos2Z.inj_mul in M.
    eapply Z.le_lt_trans; [|exact M]. apply Z.mul_le_mono_nonneg; lia. }
  assert (0 < digits mx ∧ 0 < digits my)%Z as [? ?] by done. lia.
Qed.

Lemma new_location_inb q r n : (0 <= r < n)%Z →
  inb (IZR q + IZR r / IZR n) (shr_record_of_loc q (new_location n r)).
Proof.
  intros Hr. assert (Hn : 0 < IZR n) by (apply IZR_lt; lia). set (t := IZR r / IZR n).
  assert (Et : t * IZR n = IZR r) by (unfold t; field; lra).
  assert (H0 : 0 <= IZR r < IZR n) by (split; [apply IZR_le|apply IZR_lt]; lia).
  unfold new_location, new_location_even, new_location_odd.
  destruct r as [|r|r]; [| |lia].
  { assert (t = 0) as -> by (unfold t; by rewrite Rdiv_0_l). unfold inb. destruct (Z.even n); cbn; lra. }
  assert (0 < IZR (Z.pos r)) by (apply IZR_lt; lia). change (IntDef.Z.eqb (Z.pos r) 0) with false. cbn iota.
  destruct (Z.even n) eqn:Ev.
  - destruct (Z.compare_spec (2 * Z.pos r) n) as [Hc|Hc|Hc]; unfold inb; cbn.
    + apply (f_equal IZR) in Hc. rewrite mult_IZR in Hc.
      assert (t = 1 / 2) by (apply (Rmult_eq_reg_r (IZR n)); [lra|apply Rgt_not_eq; lra]). lra.
    + apply IZR_lt in Hc. rewrite mult_IZR in Hc. nra.
    + apply IZR_lt in Hc. rewrite mult_IZR in Hc. nra.
  - assert (Hodd : (2 * Z.pos r)%Z ≠ n) by (intros <-; by rewrite Z.even_mul in Ev).
    destruct (Z.compare_spec (2 * Z.pos r + 1) n) as [Hc|Hc|Hc]; unfold inb; cbn.
    1-2: assert (Hc' : (2 * Z.pos r < n)%Z) by lia; apply IZR_lt in Hc'; rewrite mult_IZR in Hc'; nra.
    assert (Hc' : (n < 2 * Z.pos r)%Z) by lia. apply IZR_lt in Hc'. rewrite mult_IZR in Hc'. nra.
Qed.

Lemma div_rounds x y : nonnegative x → nonnegative y → 0 < to_R y → to_R x / to_R y <= bp 1000 →
  rounds (f64_div x y) (to_R x / to_R y).
Proof.
  destruct x as [sx| | |sx mx ex], y as [sy| | |sy my ey]; try done; intros Hx Hy Hpos HX; try (cbn in Hpos; lra).
  { change (to_R (S754_zero sx)) with 0. rewrite Rdiv_0_l. unfold f64_div. cbn [SFdiv].
    by apply (rounds_self (S754_zero _)). }
  destruct Hx as [-> _], Hy as [-> _]. unfold f64_div. cbn [SFdiv xorb]. unfold SFdiv_core_binary.
  change (Zdigits2 (Z.pos ?p)) with (digits p). set (k := (digits mx + ex - (digits my + ey))%Z).
  set (e := Z.min (fexp prec64 emax64 k) (ex - ey)). cbv zeta.
  set (X := to_R _ / to_R _) in *. set (s := (ex - ey - e)%Z) in *.
  assert (Em : match s with Z0 => Z.pos mx | Z.pos _ => Z.shiftl (Z.pos mx) s | _ => Z0 end
    = (Z.pos mx * 2 ^ s)%Z).
  { destruct s as [|p|p] eqn:E; [lia|by rewrite Z.shiftl_mul_pow2|lia]. }
  rewrite Em. set (m := (Z.pos mx * 2 ^ s)%Z).
  assert (Hm : (0 < m)%Z) by (apply mul_pow_pos; lia).
  pose proof (Z_div_mod m (Z.pos my) ltac:(done)) as Hdiv. destruct (Z.div_eucl m (Z.pos my)) as [q r].
  destruct Hdiv as [Hq Hr]. assert (Hmy : 0 < IZR (Z.pos my)) by (by apply IZR_lt).
  assert (HXe : X = IZR m / IZR (Z.pos my) * bp e).
  { unfold X, m. cbn [to_R]. rewrite mult_IZR, <- (bp_IZR s) by lia.
    replace ex with (s + e + ey)%Z by lia. rewrite !bp_add. pose proof (bp_pos ey). field. lra. }
  assert (HXq : X / bp e = IZR q + IZR r / IZR (Z.pos my)).
  { rewrite HXe, Hq, plus_IZR, mult_IZR. pose proof (bp_pos e). field. lra. }
  assert (Hq0 : (0 <= q)%Z) by nia.
  apply round_aux_rounds; [done|by rewrite HXq; apply new_location_inb| |done].
  unfold fexp, emin in *. destruct (Z.le_gt_cases e (-1074)) as [|He]; [lia|].
  assert (Hk : (e + 53 <= k)%Z) by lia. enough (53 <= Zdigits2 q)%Z by lia.
  assert (Hlow : IZR (2 ^ 52) < IZR m / IZR (Z.pos my)).
  { pose proof (digits_R mx) as [D1 _]. pose proof (digits_R my) as [_ D2].
    apply (Rmult_lt_reg_r (IZR (Z.pos my))); [done|]. unfold Rdiv. rewrite Rmult_assoc, Rinv_l, Rmult_1_r by lra.
    unfold m. rewrite mult_IZR, <- !bp_IZR by lia.
    apply Rlt_le_trans with (bp 52 * bp (digits my)); [pose proof (bp_pos 52); nra|].
    rewrite <- bp_add. apply Rle_trans with (bp (digits mx - 1 + s)); [apply bp_le; lia|].
    rewrite bp_add. pose proof (bp_pos s). nra. }
  assert (HqR : IZR (2 ^ 52) < IZR (q + 1)).
  { rewrite plus_IZR. assert (IZR r / IZR (Z.pos my) < 1).
    { apply (Rmult_lt_reg_r (IZR (Z.pos my))); [done|]. unfold Rdiv. rewrite Rmult_assoc, Rinv_l, Rmult_1_r, Rmult_1_l by lra.
      apply IZR_lt. lia. }
    pose proof (bp_pos e). assert (X / bp e = IZR m / IZR (Z.pos my)) by (rewrite HXe; field; lra). lra. }
  apply lt_IZR in HqR. destruct q as [|p|p]; [lia| |lia]. change (Zdigits2 (Z.pos p)) with (digits p).
  pose proof (digits_bounds p) as [_ Hp]. assert (0 < digits p)%Z by done.
  assert (52 < digits p)%Z; [|lia]. apply (Z.pow_lt_mono_r_iff 2); lia.
Qed.

(** ** Comparison *)

Lemma canonical_lt m1 e1 m2 e2 : SpecFloat.bounded prec64 emax64 m1 e1 = true →
  SpecFloat.bounded prec64 emax64 m2 e2 = true → (e1 < e2)%Z →
  IZR (Z.pos m1) * bp e1 < IZR (Z.pos m2) * bp e2.
Proof.
  intros [H1 _]%bounded_spec [H2 _]%bounded_spec He.
  pose proof (digits_R m1) as [_ D1]. pose proof (digits_R m2) as [D2 _].
  pose proof (bp_pos e1). pose proof (bp_pos e2).
  apply Rlt_le_trans with (bp (digits m1) * bp e1); [nra|].
  apply Rle_trans with (bp (digits m2 - 1) * bp e2); [|nra].
  rewrite <- !bp_add. apply bp_le. lia.
Qed.

Lemma compare_R x y : nonnegative x → nonnegative y → ∃ c, SFcompare x y = Some c ∧
  match c with Lt => to_R x < to_R y | Eq => to_R x = to_R y | Gt => to_R y < to_R x end.
Proof.
  destruct x as [sx| | |sx mx ex], y as [sy| | |sy my ey]; try done; intros Hx Hy.
  - by exists Eq.
  - destruct Hy as [-> _]. exists Lt. split; [done|]. apply to_R_pos.
  - destruct Hx as [-> _]. exists Gt. split; [done|]. apply to_R_pos.
  - destruct Hx as [-> Hx], Hy as [-> Hy]. eexists. split; [reflexivity|]. cbn [to_R]. rewrite !Rmult_1_l.
    change (IntDef.Z.compare ex ey) with (ex ?= ey)%Z.
    destruct (Z.compare_spec ex ey) as [->|H|H].
    + change (Pos.compare_cont Eq mx my) with (mx ?= my)%positive. pose proof (bp_pos ey).
      destruct (Pos.compare_spec mx my) as [->|Hm|Hm]; [done| |];
        apply Rmult_lt_compat_r; try done; by apply IZR_lt.
    + by apply canonical_lt.
    + by apply canonical_lt.
Qed.

Lemma leb_R x y : nonnegative x → nonnegative y → f64_leb x y = true ↔ to_R x <= to_R y.
Proof.
  intros Hx Hy. unfold f64_leb, SFleb. destruct (compare_R x y Hx Hy) as ([] & -> & H); split; (done || lra).
Qed.

Lemma leb_false_R x y : nonnegative x → nonnegative y → f64_leb x y = false ↔ to_R y < to_R x.
Proof.
  intros Hx Hy. unfold f64_leb, SFleb. destruct (compare_R x y Hx Hy) as ([] & -> & H); split; (done || lra).
Qed.

Lemma min_R x y : nonnegative x → nonnegative y →
  nonnegative (f64_min x y) ∧ to_R (f64_min x y) = Rmin (to_R x) (to_R y).
Proof.
  intros Hx Hy. unfold f64_min. destruct (compare_R x y Hx Hy) as ([] & -> & H).
  - rewrite Rmin_right by lra. done.
  - rewrite Rmin_left by lra. done.
  - rewrite Rmin_right by lra. done.
Qed.

Lemma max_R x y : nonnegative x → nonnegative y →
  nonnegative (f64_max x y) ∧ to_R (f64_max x y) = Rmax (to_R x) (to_R y).
Proof.
  intros Hx Hy. unfold f64_max. destruct (compare_R x y Hx Hy) as ([] & -> & H).
  - rewrite Rmax_right by lra. done.
  - rewrite Rmax_right by lra. done.
  - rewrite Rmax_left by lra. done.
Qed.

(** ** Error bounds *)

(** The relative error of one operation, and of a few. *)
Definition ulp : R := bp (-53).

(** [x] is [X] up to a relative error [d], or both are zero. *)
Definition within (d : R) (x : f64) (X : R) : Prop :=
  nonnegative x ∧ X * (1 - d) <= to_R x <= X * (1 + d).

Lemma ulp_small : 0 < ulp < 1 / 8000000000000000.
Proof.
  unfold ulp. split; [apply bp_pos|]. change (-53)%Z with (- (53))%Z. rewrite <- bp_inv, bp_IZR by lia.
  change (2 ^ 53)%Z with 9007199254740992%Z. lra.
Qed.

(** Numbers that are not in the subnormal range. *)
Definition normal (X : R) : Prop := X = 0 ∨ bp (-1000) <= X.

Lemma rounds_within x X : rounds x X → normal X → within (2 * ulp) x X.
Proof.
  intros [H1 H2 H3 H4] [->|HX]; (split; [done|]).
  - assert (in_format 0) as H0 by (apply (format_Z 0); lia). specialize (H3 0 H0 ltac:(lra)).
    specialize (H4 0 H0 ltac:(lra)). lra.
  - fold ulp in H2. assert (bp (-1075) <= X * ulp); [|lra].
    apply (Rmult_le_compat_r ulp) in HX; [|pose proof ulp_small; lra]. unfold ulp in *. rewrite <- bp_add in HX.
    pose proof (bp_le (-1075) (-1000 + -53) ltac:(lia)). lra.
Qed.
