(* ===== verification/Event.v ===== *)
(** The data that flows through the engine: JSON values, [Operation] and [ChangeEvent]
    ([src/source/mod.rs]).

    [serde_json::Value] is the public enum of that crate, with its default features: an object
    is a [BTreeMap], here the list of its entries in increasing order of the keys, and a number
    is a [u64], a negative [i64] or a finite [f64].  How values are printed and parsed is the
    crate's own code and a parameter ([SerdeJson]). *)
From S2P Require Import Prelude Text F64.



(** ** JSON values *)

Inductive Number :=
  | PosInt (n : Z)
  | NegInt (n : Z)
  | Float (x : f64).

Inductive Value :=
  | VNull
  | VBool (b : bool)
  | VNumber (n : Number)
  | VString (s : string)
  | VArray (l : list Value)
  | VObject (fields : list (string * Value)).

(** [BTreeMap]: ordered entries. *)
Section btree.
Context {A : Type}.

Fixpoint bt_get (k : string) (m : list (string * A)) : option A :=
  match m with
  | [] => None
  | (k', v) :: m' => if String.eqb k k' then Some v else bt_get k m'
  end.

Definition bt_contains (k : string) (m : list (string * A)) : bool :=
  match bt_get k m with Some _ => true | None => false end.

Fixpoint bt_insert (k : string) (v : A) (m : list (string * A)) : list (string * A) :=
  match m with
  | [] => [(k, v)]
  | (k', v') :: m' =>
    if String.eqb k k' then (k, v) :: m'
    else if String.ltb k k' then (k, v) :: m
    else (k', v') :: bt_insert k v m'
  end.

(** [if let Some(val) = map.get_mut(k) { *val = f(val) }] *)
Fixpoint bt_modify (k : string) (f : A → A) (m : list (string * A)) : list (string * A) :=
  match m with
  | [] => []
  | (k', v) :: m' => if String.eqb k k' then (k', f v) :: m' else (k', v) :: bt_modify k f m'
  end.
End btree.

(** [json!({ k1: v1, ... })] *)
Definition json_object (l : list (string * Value)) : Value :=
  VObject (fold_left (fun m '(k, v) => bt_insert k v m) l []).

(** [Value::get] with a string index, [as_object], [as_str] and the [is_*] tests. *)
Definition value_get (v : Value) (k : string) : option Value :=
  match v with VObject m => bt_get k m | _ => None end.

Definition as_object (v : Value) : option (list (string * Value)) :=
  match v with VObject m => Some m | _ => None end.

Definition as_str (v : Value) : option string :=
  match v with VString s => Some s | _ => None end.

Definition is_number (v : Value) : bool := match v with VNumber _ => true | _ => false end.
Definition is_string (v : Value) : bool := match v with VString _ => true | _ => false end.
Definition is_boolean (v : Value) : bool := match v with VBool _ => true | _ => false end.

(** [Value::as_f64]: total on numbers. *)
Definition as_f64 (v : Value) : option f64 :=
  match v with
  | VNumber (PosInt n) | VNumber (NegInt n) => Some (f64_of_Z n)
  | VNumber (Float x) => Some x
  | _ => None
  end.

Definition number_eqb (a b : Number) : bool :=
  match a, b with
  | PosInt x, PosInt y | NegInt x, NegInt y => x =? y
  | Float x, Float y => f64_eqb x y
  | _, _ => false
  end.

(** [PartialEq for Value]. *)
Fixpoint value_eqb (a b : Value) {struct a} : bool :=
  match a, b with
  | VNull, VNull => true
  | VBool x, VBool y => Bool.eqb x y
  | VNumber x, VNumber y => number_eqb x y
  | VString x, VString y => String.eqb x y
  | VArray l, VArray l' =>
    (fix go (l l' : list Value) :=
       match l, l' with
       | [], [] => true
       | x :: l, y :: l' => value_eqb x y && go l l'
       | _, _ => false
       end) l l'
  | VObject m, VObject m' =>
    (fix go (m m' : list (string * Value)) :=
       match m, m' with
       | [], [] => true
       | (k, x) :: m, (k', y) :: m' => String.eqb k k' && value_eqb x y && go m m'
       | _, _ => false
       end) m m'
  | _, _ => false
  end.

(** ** Change events *)

Inductive Operation := Create | Update | Delete | Snapshot | Commit | Rollback.

#[export] Instance Operation_eq_dec : EqDecision Operation.
Proof. solve_decision. Defined.

(** [timestamp] is a [DateTime<Utc>]: the nanoseconds since the epoch. *)
Record ChangeEvent := MkEvent {
  id : string;
  source_database : string;
  source_table_or_collection : string;
  operation : Operation;
  timestamp : Z;
  key : Value;
  before : option Value;
  after : option Value;
  transaction_id : option string;
  offset : string;
}.

Definition with_after (e : ChangeEvent) (a : option Value) : ChangeEvent :=
  MkEvent e.(id) e.(source_database) e.(source_table_or_collection) e.(operation) e.(timestamp)
    e.(key) e.(before) a e.(transaction_id) e.(offset).

Definition with_before (e : ChangeEvent) (b : option Value) : ChangeEvent :=
  MkEvent e.(id) e.(source_database) e.(source_table_or_collection) e.(operation) e.(timestamp)
    e.(key) b e.(after) e.(transaction_id) e.(offset).

Definition with_timestamp (e : ChangeEvent) (t : Z) : ChangeEvent :=
  MkEvent e.(id) e.(source_database) e.(source_table_or_collection) e.(operation) t
    e.(key) e.(before) e.(after) e.(transaction_id) e.(offset).

(** ** The JSON library

    Printing and parsing are the crates [serde_json] and [simd_json]: parameters. *)
Class SerdeJson := {
  json_error : Type;
  value_to_string : Value → string;                          (* Value: Display *)
  value_debug : Value → string;                              (* Value: Debug *)
  value_to_vec : Value → Result (list byte) json_error;       (* serde_json::to_vec *)
  value_from_slice : list byte → Result Value json_error;     (* serde_json::from_slice *)
  event_to_vec : ChangeEvent → Result (list byte) json_error;
  event_from_slice : list byte → Result ChangeEvent json_error;
  simd_to_string : ChangeEvent → Result string json_error;    (* simd_json::to_string *)
  json_error_to_string : json_error → string;
}.

(** The values the crate documents as printed and parsed back without loss: the keys of an object
    are in increasing order and integers have the width of their variant (what a [Value] always
    satisfies), strings are UTF-8, there is no [Float] (without the feature [float_roundtrip] the
    last digit may change) and the nesting stays below the parser's recursion limit. *)
Definition json_depth : nat := 120.

Definition str_ok (s : string) : bool := utf8_valid (as_bytes s).

Fixpoint keys_sorted {A} (m : list (string * A)) : bool :=
  match m with
  | (k, _) :: ((k', _) :: _) as m' => String.ltb k k' && keys_sorted m'
  | _ => true
  end.

Fixpoint plain_value (d : nat) (v : Value) {struct v} : bool :=
  match v with
  | VNull | VBool _ => true
  | VNumber (PosInt n) => (0 <=? n) && (n <? 2 ^ 64)
  | VNumber (NegInt n) => (- 2 ^ 63 <=? n) && (n <? 0)
  | VNumber (Float _) => false
  | VString s => str_ok s
  | VArray l =>
    match d with
    | O => false
    | S d' => (fix go l := match l with [] => true | x :: l => plain_value d' x && go l end) l
    end
  | VObject m =>
    match d with
    | O => false
    | S d' =>
      keys_sorted m &&
      (fix go m :=
         match m with [] => true | (k, x) :: m => str_ok k && plain_value d' x && go m end) m
    end
  end.

(** An [Option<Value>] that is [Some(Null)] is printed as [null] and comes back as [None]. *)
Definition plain_event (e : ChangeEvent) : bool :=
  let opt (f : Value → bool) o := match o with Some VNull => false | Some v => f v | None => true end in
  str_ok e.(id) && str_ok e.(source_database) && str_ok e.(source_table_or_collection) &&
  plain_value json_depth e.(key) && opt (plain_value json_depth) e.(before) &&
  opt (plain_value json_depth) e.(after) &&
  match e.(transaction_id) with Some t => str_ok t | None => true end && str_ok e.(offset).

(** What the code relies on: what was serialised parses back. *)
Class SerdeJsonLaws (J : SerdeJson) := {
  value_roundtrip v b :
    plain_value json_depth v = true → value_to_vec v = Ok b → value_from_slice b = Ok v;
  event_roundtrip e b :
    plain_event e = true → event_to_vec e = Ok b → event_from_slice b = Ok e;
}.

(** The induction principle that reaches into arrays and objects. *)
Lemma Value_ind' (P : Value → Prop) :
  P VNull → (∀ b, P (VBool b)) → (∀ n, P (VNumber n)) → (∀ s, P (VString s)) →
  (∀ l, Forall P l → P (VArray l)) → (∀ m, Forall (λ kv, P kv.2) m → P (VObject m)) →
  ∀ v, P v.
Proof.
  intros Hn Hb Hnum Hs Ha Ho. fix IH 1. intros [ | b | n | s | l | m].
  - exact Hn.
  - apply Hb.
  - apply Hnum.
  - apply Hs.
  - apply Ha. induction l as [|x l IHl]; constructor; [apply IH | apply IHl].
  - apply Ho. induction m as [|[k x] m IHm]; constructor; [apply IH | apply IHm].
Qed.

(** ** Lemmas *)

(** ASCII texts. *)
Definition is_ascii (s : string) : bool := forallb (byte_in 0 127) (as_bytes s).

Lemma ascii_str_ok s : is_ascii s = true → str_ok s = true.
Proof.
  unfold is_ascii, str_ok. induction (as_bytes s) as [|b l IH]; [done|]. cbn [forallb utf8_valid].
  intros [Hb Hl]%andb_true_iff. by rewrite Hb, IH.
Qed.

Lemma as_bytes_app s t : as_bytes (s ++ t) = as_bytes s ++ as_bytes t.
Proof.
  induction s as [|c s IH]; [done|]. rewrite string_app_cons.
  change (byte_of_ascii c :: as_bytes (s ++ t) = byte_of_ascii c :: (as_bytes s ++ as_bytes t)).
  by rewrite IH.
Qed.

Lemma is_ascii_app s t : is_ascii (s ++ t) = is_ascii s && is_ascii t.
Proof. unfold is_ascii. by rewrite as_bytes_app, forallb_app. Qed.

Section btree_lemmas.
Context {A : Type}.
Implicit Types (m : list (string * A)) (k : string).

Lemma bt_get_elem k m v : bt_get k m = Some v → (k, v) ∈ m.
Proof.
  induction m as [|[k' v'] m IH]; [done|]. cbn. destruct (String.eqb_spec k k') as [->|].
  - intros [= ->]. left.
  - intros ?. right. by apply IH.
Qed.

Lemma bt_contains_keys k m : bt_contains k m = true ↔ k ∈ m.*1.
Proof.
  unfold bt_contains. induction m as [|[k' v'] m IH]; cbn.
  - split; [done|]. by intros ?%not_elem_of_nil.
  - destruct (String.eqb_spec k k') as [->|Hne].
    + split; [intros _; left | done].
    + rewrite IH, elem_of_cons. naive_solver.
Qed.

Lemma bt_get_modify k k' f m :
  bt_get k (bt_modify k' f m) = (if String.eqb k' k then f <$> bt_get k m else bt_get k m).
Proof.
  induction m as [|[j v] m IH]; cbn; [by destruct (String.eqb k' k)|].
  destruct (String.eqb_spec k' j) as [->|Hj]; cbn.
  - destruct (String.eqb_spec k j) as [->|]; [by rewrite String.eqb_refl|].
    destruct (String.eqb_spec j k); [congruence | done].
  - rewrite IH. destruct (String.eqb_spec k j) as [->|]; [|done].
    destruct (String.eqb_spec k' j); [congruence | done].
Qed.

Lemma bt_modify_keys k f m : (bt_modify k f m).*1 = m.*1.
Proof.
  induction m as [|[j v] m IH]; [done|]. cbn. destruct (String.eqb k j); cbn; congruence.
Qed.

Lemma bt_modify_comm k k' f g m :
  k ≠ k' → bt_modify k f (bt_modify k' g m) = bt_modify k' g (bt_modify k f m).
Proof.
  intros Hne. induction m as [|[j v] m IH]; [done|]. cbn.
  destruct (String.eqb_spec k' j) as [E1|E1], (String.eqb_spec k j) as [E2|E2]; [congruence|..];
    cbn; repeat case_match; try congruence;
    repeat match goal with H : String.eqb _ _ = _ |- _ =>
      apply String.eqb_eq in H || apply String.eqb_neq in H end; congruence.
Qed.

Lemma bt_get_insert k k' v m :
  bt_get k (bt_insert k' v m) = if String.eqb k' k then Some v else bt_get k m.
Proof.
  induction m as [|[j w] m IH]; cbn.
  { rewrite String.eqb_sym. by destruct (String.eqb k' k). }
  destruct (String.eqb_spec k' j) as [->|Hj]; cbn.
  { rewrite (String.eqb_sym j). by destruct (String.eqb k j). }
  destruct (String.ltb k' j); cbn; rewrite ?(String.eqb_sym k' k).
  { done. }
  rewrite IH, (String.eqb_sym k' k). destruct (String.eqb_spec k j) as [->|]; [|done].
  destruct (String.eqb_spec j k'); congruence.
Qed.
End btree_lemmas.

Lemma value_eqb_string s t : value_eqb (VString s) (VString t) = String.eqb s t.
Proof. done. Qed.

#[export] Hint Rewrite @bt_get_modify @bt_modify_keys @bt_get_insert : caminus_rw.

(** Decimal text is ASCII. *)
Lemma is_ascii_digit d s : 0 <= d < 10 → is_ascii (String (digit_char d) s) = is_ascii s.
Proof.
  intros Hd. assert (d ∈ [0; 1; 2; 3; 4; 5; 6; 7; 8; 9]) as Hin.
  { rewrite !elem_of_cons. lia. }
  rewrite !elem_of_cons, elem_of_nil in Hin. by naive_solver.
Qed.

Lemma is_ascii_digits fuel n s : 0 <= n → is_ascii s = true → is_ascii (dec_digits fuel n s) = true.
Proof.
  revert n s. induction fuel as [|fuel IH]; intros n s Hn Hs; [done|]. cbn [dec_digits].
  pose proof (Z.mod_pos_bound n 10 ltac:(lia)).
  destruct (n <? 10); [by rewrite is_ascii_digit|]. apply IH; [by apply Z.div_pos|by rewrite is_ascii_digit].
Qed.

Lemma display_ascii n : 0 <= n → is_ascii (display_u64 n) = true.
Proof. intros H. by apply is_ascii_digits. Qed.
