(* ===== verification/Json.v ===== *)
(** The JSON text of values and events, as the compact format of [serde_json] is documented: a printer and a
    parser that are inverse to each other on the values without floats, an instance of [SerdeJson] with its
    laws.  It is the codec of the witnesses that look into the text; the theorems of the other files hold for
    every codec with these laws.

    The members of an event are those that [#[derive(Serialize, Deserialize)]] gives the struct [ChangeEvent]
    ([src/source/mod.rs]): its fields in order, [Operation] by the name of its variant, [None] as [null].  The
    text of a [DateTime<Utc>] is the crate chrono's and a parameter ([TimeText]). *)
From S2P Require Import Prelude Text F64 Event.

Module Json.

(** ** Printing *)

Definition quote : ascii := "034".

Definition escape_char (c : ascii) : string :=
  if Ascii.eqb c quote then String "\" (String quote "")
  else if Ascii.eqb c "\" then "\\"
  else if Ascii.eqb c "008" then "\b"
  else if Ascii.eqb c "012" then "\f"
  else if Ascii.eqb c "010" then "\n"
  else if Ascii.eqb c "013" then "\r"
  else if Ascii.eqb c "009" then "\t"
  else if (N_of_ascii c <? 32)%N then "\u00" ++ hex_fixed 2 (Z.of_N (N_of_ascii c)) ""
  else String c "".

Fixpoint escape (s : string) : string :=
  match s with EmptyString => "" | String c s => escape_char c ++ escape s end.

Definition text_of (s : string) : string := String quote (escape s ++ String quote "").

Definition number (n : Number) : string :=
  match n with
  | PosInt n => display_u64 n
  | NegInt n => String "-" (display_u64 (- n))
  | Float _ => "null"                          (* not printed by this codec, see [floatless] *)
  end.

(** The parts with commas between them. *)
Fixpoint commas (l : list string) : string :=
  match l with [] => "" | [s] => s | s :: l => s ++ "," ++ commas l end.

Fixpoint print (v : Value) : string :=
  match v with
  | VNull => "null"
  | VBool true => "true"
  | VBool false => "false"
  | VNumber n => number n
  | VString s => text_of s
  | VArray l => String "[" (commas (map print l) ++ "]")
  | VObject m => String "{" (commas (map (λ '(k, v), text_of k ++ String ":" (print v))%string m) ++ "}")
  end.

Definition entry (kv : string * Value) : string := text_of kv.1 ++ String ":" (print kv.2).

Fixpoint floatless (v : Value) : bool :=
  match v with
  | VNumber (Float _) => false
  | VArray l => forallb floatless l
  | VObject m => forallb (λ kv, floatless kv.2) m
  | _ => true
  end.

(** ** Parsing *)

Definition is_space (c : ascii) : bool :=
  Ascii.eqb c " " || Ascii.eqb c "010" || Ascii.eqb c "013" || Ascii.eqb c "009".

Fixpoint skip (s : string) : string :=
  match s with String c s' => if is_space c then skip s' else s | EmptyString => s end.

(** A code point below [2 ^ 16] in UTF-8; surrogates stand for nothing alone. *)
Definition utf8 (n : Z) : option string :=
  let char n := String (ascii_of_N (Z.to_N n)) in
  if n <? 128 then Some (char n "")
  else if n <? 2048 then Some (char (192 + n / 64) (char (128 + n mod 64) ""))
  else if (55296 <=? n) && (n <? 57344) then None
  else Some (char (224 + n / 4096) (char (128 + n / 64 mod 64) (char (128 + n mod 64) ""))).

Definition simple_escape (c : ascii) : option ascii :=
  if Ascii.eqb c quote then Some quote
  else if Ascii.eqb c "\" then Some c
  else if Ascii.eqb c "/" then Some c
  else if Ascii.eqb c "b" then Some ("008")%char
  else if Ascii.eqb c "f" then Some ("012")%char
  else if Ascii.eqb c "n" then Some ("010")%char
  else if Ascii.eqb c "r" then Some ("013")%char
  else if Ascii.eqb c "t" then Some ("009")%char
  else None.

(** The rest of a string after its opening quote, and what follows it. *)
Fixpoint string_tail (s : string) : option (string * string) :=
  match s with
  | EmptyString => None
  | String c s =>
    if Ascii.eqb c quote then Some (""%string, s)
    else if Ascii.eqb c "\" then
      match s with
      | String "u" (String a (String b (String c (String d s)))) =>
        a ← hex_val a; b ← hex_val b; c ← hex_val c; d ← hex_val d;
        t ← utf8 (((a * 16 + b) * 16 + c) * 16 + d);
        '(t', rest) ← string_tail s; Some ((t ++ t')%string, rest)
      | String e s => c ← simple_escape e; '(t, rest) ← string_tail s; Some (String c t, rest)
      | EmptyString => None
      end
    else if (N_of_ascii c <? 32)%N then None
    else '(t, rest) ← string_tail s; Some (String c t, rest)
  end.

Definition parse_string (s : string) : option (string * string) :=
  '(t, rest) ← string_tail s; if str_ok t then Some (t, rest) else None.

Definition is_digit (c : ascii) : bool := match digit_val c with Some _ => true | None => false end.

Fixpoint digits (s : string) : string * string :=
  match s with
  | String c s' => if is_digit c then let '(ds, rest) := digits s' in (String c ds, rest) else (""%string, s)
  | EmptyString => (""%string, s)
  end.

(** A number goes on with a fraction or an exponent: a float, which this codec does not read. *)
Definition goes_on (s : string) : bool :=
  match s with
  | String c _ => is_digit c || Ascii.eqb c "." || Ascii.eqb c "e" || Ascii.eqb c "E"
  | EmptyString => false
  end.

Definition leading_zero (ds : string) : bool :=
  match ds with String c (String _ _) => Ascii.eqb c "0" | _ => false end.

Definition parse_natural (s : string) : option (Z * string) :=
  let '(ds, rest) := digits s in
  if goes_on rest || leading_zero ds then None else n ← parse_u64 ds; Some (n, rest).

(** What follows the character [c]. *)
Definition next (c : ascii) (s : string) : option string :=
  match s with String c' s => if Ascii.eqb c' c then Some s else None | EmptyString => None end.

Definition parse_number (s : string) : option (Number * string) :=
  match next "-" s with
  | Some s =>
    '(n, rest) ← parse_natural s;
    if (0 <? n) && (n <=? 2 ^ 63) then Some (NegInt (- n), rest) else None
  | None => '(n, rest) ← parse_natural s; Some (PosInt n, rest)
  end.

Fixpoint expect (word s : string) : option string :=
  match word with EmptyString => Some s | String c word => s ← next c s; expect word s end.

(** The entries of an object in a [BTreeMap]. *)
Definition btree (m : list (string * Value)) : list (string * Value) :=
  fold_left (λ m '(k, v), bt_insert k v m) m [].

Fixpoint parse_value (fuel : nat) (s : string) : option (Value * string) :=
  match fuel with
  | O => None
  | S fuel =>
    match skip s with
    | EmptyString => None
    | String c s' =>
      if Ascii.eqb c "n" then rest ← expect "ull" s'; Some (VNull, rest)
      else if Ascii.eqb c "t" then rest ← expect "rue" s'; Some (VBool true, rest)
      else if Ascii.eqb c "f" then rest ← expect "alse" s'; Some (VBool false, rest)
      else if Ascii.eqb c quote then '(t, rest) ← parse_string s'; Some (VString t, rest)
      else if Ascii.eqb c "[" then
        match next "]" (skip s') with
        | Some rest => Some (VArray [], rest)
        | None => '(l, rest) ← parse_elements fuel s'; Some (VArray l, rest)
        end
      else if Ascii.eqb c "{" then '(m, rest) ← parse_members fuel s'; Some (VObject (btree m), rest)
      else '(n, rest) ← parse_number (String c s'); Some (VNumber n, rest)
    end
  end
with parse_elements (fuel : nat) (s : string) : option (list Value * string) :=
  match fuel with
  | O => None
  | S fuel =>
    '(v, s) ← parse_value fuel s;
    match next "," (skip s) with
    | Some s => '(l, rest) ← parse_elements fuel s; Some (v :: l, rest)
    | None => rest ← next "]" (skip s); Some ([v], rest)
    end
  end
with parse_members (fuel : nat) (s : string) : option (list (string * Value) * string) :=
  match fuel with
  | O => None
  | S fuel =>
    match next "}" (skip s) with
    | Some rest => Some ([], rest)
    | None => parse_entries fuel s
    end
  end
with parse_entries (fuel : nat) (s : string) : option (list (string * Value) * string) :=
  match fuel with
  | O => None
  | S fuel =>
    s ← next quote (skip s);
    '(k, s) ← parse_string s;
    s ← next ":" (skip s);
    '(v, s) ← parse_value fuel s;
    match next "," (skip s) with
    | Some s => '(m, rest) ← parse_entries fuel s; Some ((k, v) :: m, rest)
    | None => rest ← next "}" (skip s); Some ([(k, v)], rest)
    end
  end.

(** A whole text. *)
Definition ends (s : string) : bool := match skip s with EmptyString => true | _ => false end.

Definition parse (s : string) : option Value :=
  '(v, rest) ← parse_value (S (String.length s)) s; if ends rest then Some v else None.

Example parse_ex :
  parse (" { " ++ text_of "b" ++ " : [ 1 , -2,true ] , " ++ text_of "a" ++ ":" ++ String quote "x\u0041\n" ++ String quote " }")
    = Some (VObject [("a", VString ("xA" ++ String "010" "")); ("b", VArray [VNumber (PosInt 1); VNumber (NegInt (-2)); VBool true])])%string.
Proof. vm_compute. reflexivity. Qed.

Example parse_rejects : omap parse ["01"; "1.5"; "[1,]"; "{a:1}"; "-0"; "[1 2]"; "nul"; String quote (String "001" (String quote ""))]%string = [].
Proof. vm_compute. reflexivity. Qed.

(** ** Events *)

(** The text of a timestamp. *)
Class TimeText := {
  print_time : Z → string;
  parse_time : string → option Z;
  time_roundtrip t : parse_time (print_time t) = Some t;
  time_text t : str_ok (print_time t) = true;
}.

Section event.
Context {T : TimeText}.

Definition operation_name (o : Operation) : string :=
  match o with
  | Create => "Create"
  | Update => "Update"
  | Delete => "Delete"
  | Snapshot => "Snapshot"
  | Commit => "Commit"
  | Rollback => "Rollback"
  end.

Definition operation_named (s : string) : option Operation :=
  List.find (λ o, String.eqb (operation_name o) s) [Create; Update; Delete; Snapshot; Commit; Rollback].

Definition option_value {A} (f : A → Value) (o : option A) : Value :=
  match o with Some a => f a | None => VNull end.

(** [#[derive(Serialize)]]: the fields in the order of the struct. *)
Definition event_members (e : ChangeEvent) : list (string * Value) :=
  [("id", VString e.(id));
   ("source_database", VString e.(source_database));
   ("source_table_or_collection", VString e.(source_table_or_collection));
   ("operation", VString (operation_name e.(operation)));
   ("timestamp", VString (print_time e.(timestamp)));
   ("key", e.(key));
   ("before", option_value same e.(before));
   ("after", option_value same e.(after));
   ("transaction_id", option_value VString e.(transaction_id));
   ("offset", VString e.(offset))]%string.

(** [#[derive(Deserialize)]]: the members in any order, unknown ones ignored, none twice; an [Option] that is
    missing or [null] is [None]. *)
Definition field (ms : list (string * Value)) (name : string) : Result (option Value) unit :=
  match List.filter (λ kv, String.eqb kv.1 name) ms with
  | [] => Ok None
  | [(_, v)] => Ok (Some v)
  | _ => Err tt
  end.

Definition required (ms : list (string * Value)) (name : string) : option Value :=
  match field ms name with Ok o => o | Err _ => None end.

Definition optional {A} (f : Value → option A) (ms : list (string * Value)) (name : string) : option (option A) :=
  match field ms name with
  | Ok None | Ok (Some VNull) => Some None
  | Ok (Some v) => Some <$> f v
  | Err _ => None
  end.

Definition event_of_members (ms : list (string * Value)) : option ChangeEvent :=
  id ← required ms "id" ≫= as_str;
  source_database ← required ms "source_database" ≫= as_str;
  source_table_or_collection ← required ms "source_table_or_collection" ≫= as_str;
  operation ← (required ms "operation" ≫= as_str) ≫= operation_named;
  timestamp ← (required ms "timestamp" ≫= as_str) ≫= parse_time;
  key ← required ms "key";
  before ← optional Some ms "before";
  after ← optional Some ms "after";
  transaction_id ← optional as_str ms "transaction_id";
  offset ← required ms "offset" ≫= as_str;
  Some (MkEvent id source_database source_table_or_collection operation timestamp key before after
    transaction_id offset).

Definition print_event (e : ChangeEvent) : string := print (VObject (event_members e)).

Definition parse_event (s : string) : option ChangeEvent :=
  s' ← next "{" (skip s);
  '(ms, rest) ← parse_members (S (String.length s)) s';
  if ends rest then event_of_members ms else None.
End event.

(** ** Lemmas *)

Lemma string_tail_char c t :
  string_tail (escape_char c ++ t) = '(u, rest) ← string_tail t; Some (String c u, rest).
Proof. destruct c as [[] [] [] [] [] [] [] []]; reflexivity. Qed.

Lemma string_tail_escape s rest : string_tail (escape s ++ String quote rest) = Some (s, rest).
Proof.
  induction s as [|c s IH]; [done|]. cbn [escape]. by rewrite string_app_assoc, string_tail_char, IH.
Qed.

Lemma parse_string_text s rest : str_ok s = true → parse_string (escape s ++ String quote rest) = Some (s, rest).
Proof. intros H. unfold parse_string. rewrite string_tail_escape. cbn [mbind option_bind]. by rewrite H. Qed.

(** *** Numbers *)

Fixpoint all_digits (s : string) : bool :=
  match s with EmptyString => true | String c s => is_digit c && all_digits s end.

Lemma digits_app s rest : all_digits s = true → goes_on rest = false → digits (s ++ rest) = (s, rest).
Proof.
  intros Hs Hr. induction s as [|c s IH].
  - rewrite string_app_nil. destruct rest as [|c rest]; [done|]. cbn [goes_on digits] in *.
    by destruct (is_digit c).
  - rewrite string_app_cons. cbn [all_digits digits] in *. apply andb_true_iff in Hs as [-> Hs]. by rewrite IH.
Qed.

Lemma is_digit_char d : 0 <= d < 10 → is_digit (digit_char d) = true.
Proof. intros H. unfold is_digit. by rewrite digit_val_char. Qed.

Lemma dec_digits_all fuel n acc : 0 <= n → all_digits acc = true → all_digits (dec_digits fuel n acc) = true.
Proof.
  revert n acc. induction fuel as [|fuel IH]; intros n acc Hn Ha; [done|]. cbn [dec_digits].
  pose proof (Z.mod_pos_bound n 10 ltac:(lia)).
  assert (H1 : all_digits (String (digit_char (n mod 10)) acc) = true) by (cbn [all_digits]; by rewrite is_digit_char, Ha).
  destruct (n <? 10); [done|]. apply IH; [by apply Z.div_pos|done].
Qed.

Lemma digit_not_zero d : 0 < d < 10 → Ascii.eqb (digit_char d) "0" = false.
Proof.
  intros H. apply Ascii.eqb_neq. intros E. apply (f_equal digit_val) in E. rewrite digit_val_char in E by lia.
  injection E as ->. lia.
Qed.

Lemma dec_digits_zero fuel n acc : 0 < n < 10 ^ Z.of_nat fuel → leading_zero (dec_digits fuel n acc) = false.
Proof.
  revert n acc. induction fuel as [|fuel IH]; intros n acc Hn; [cbn in Hn; lia|].
  rewrite Nat2Z.inj_succ, Z.pow_succ_r in Hn by lia. cbn [dec_digits]. destruct (Z.ltb_spec n 10).
  - rewrite Z.mod_small by lia. cbn [leading_zero]. destruct acc; [done|]. apply digit_not_zero. lia.
  - apply IH. split; [apply Z.div_str_pos; lia|apply Z.div_lt_upper_bound; lia].
Qed.

Lemma parse_natural_display n rest : in_range 64 n → goes_on rest = false →
  parse_natural (display_u64 n ++ rest) = Some (n, rest).
Proof.
  intros Hn Hr. unfold parse_natural. pose proof Hn as [H0 H1].
  rewrite digits_app by (done || by apply dec_digits_all). rewrite Hr, parse_display_u64 by done.
  assert (leading_zero (display_u64 n) = false) as ->; [|done].
  destruct (decide (n = 0)) as [->|]; [done|]. apply dec_digits_zero. split; [lia|]. etrans; [exact H1|done].
Qed.

(** *** Values *)

(** The text after a value does not continue a number. *)
Definition stops (rest : string) : Prop := goes_on rest = false.

Definition size (v : Value) : nat := String.length (print v).

Definition parses (v : Value) : Prop :=
  ∀ d, plain_value d v = true → ∀ fuel rest, (size v <= fuel)%nat → stops rest →
    parse_value fuel (print v ++ rest) = Some (v, rest).

Lemma digit_alone d : 0 <= d < 10 →
  is_space (digit_char d) = false ∧
  Forall (λ c, Ascii.eqb (digit_char d) c = false) ["n"; "t"; "f"; quote; "["; "{"; "-"; "]"; "}"]%char.
Proof.
  intros Hd.
  assert (d = 0 ∨ d = 1 ∨ d = 2 ∨ d = 3 ∨ d = 4 ∨ d = 5 ∨ d = 6 ∨ d = 7 ∨ d = 8 ∨ d = 9) as H by lia.
  repeat destruct H as [->|H]; subst; (split; [done|by repeat constructor]).
Qed.

(** What dispatches on the first character of a value that is a number. *)
Lemma parse_number_text fuel d s : 0 <= d < 10 → parse_value (S fuel) (String (digit_char d) s) =
  '(n, rest) ← parse_natural (String (digit_char d) s); Some (VNumber (PosInt n), rest).
Proof.
  intros Hd. destruct (digit_alone d Hd) as [Hs Hc].
  repeat match goal with H : Forall _ (_ :: _) |- _ => apply Forall_cons in H as [? H] end.
  cbn [parse_value skip]. rewrite Hs. unfold parse_number. cbn [next].
  repeat match goal with H : Ascii.eqb _ _ = false |- _ => rewrite H; clear H end.
  by destruct (parse_natural _) as [[n rest]|].
Qed.

Lemma parse_negative_text fuel s : parse_value (S fuel) (String "-" s) =
  '(n, rest) ← parse_natural s;
  if (0 <? n) && (n <=? 2 ^ 63) then Some (VNumber (NegInt (- n)), rest) else None.
Proof.
  transitivity ('(n, rest) ← parse_number (String "-" s); Some (VNumber n, rest)); [reflexivity|].
  unfold parse_number. change (next "-" (String "-" s)) with (Some s).
  cbv iota beta. destruct (parse_natural s) as [[n rest]|]; cbn [mbind option_bind]; [|done].
  by destruct ((0 <? n) && (n <=? 2 ^ 63)).
Qed.

Lemma parses_number n : parses (VNumber n).
Proof.
  intros d Hp fuel rest Hf Hr. unfold size in Hf. destruct n as [n|n|x]; [| |done]; cbn [print number plain_value] in *.
  - apply andb_true_iff in Hp as [H0%Z.leb_le H1%Z.ltb_lt].
    destruct (dec_digits_head 20 n "" ltac:(lia) H0) as (c & s & Hc & E).
    assert (Hn : in_range 64 n) by (unfold in_range; lia). pose proof (parse_natural_display n rest Hn Hr) as P.
    unfold display_u64 in *. rewrite E in *. rewrite string_app_cons in *.
    destruct fuel as [|fuel]; [cbn in Hf; lia|]. by rewrite parse_number_text, P.
  - apply andb_true_iff in Hp as [H0%Z.leb_le H1%Z.ltb_lt]. cbn [String.length] in Hf.
    destruct fuel as [|fuel]; [lia|].
    assert (Hn : in_range 64 (- n)) by (unfold in_range; lia).
    rewrite string_app_cons, parse_negative_text, parse_natural_display by done. cbn [mbind option_bind].
    rewrite (proj2 (Z.ltb_lt _ _)), (proj2 (Z.leb_le _ _)) by lia. cbn [andb]. by rewrite Z.opp_involutive.
Qed.

Lemma parses_string s : parses (VString s).
Proof.
  intros d Hp fuel rest Hf Hr. destruct fuel as [|fuel]; [cbn in Hf; lia|].
  cbn [print plain_value] in *. unfold text_of. rewrite string_app_cons, string_app_assoc.
  cbn [parse_value skip]. change (is_space quote) with false. cbn [Ascii.eqb].
  change (String quote "" ++ rest)%string with (String quote rest).
  rewrite parse_string_text by done. done.
Qed.

Lemma plain_array d l : plain_value (S d) (VArray l) = forallb (plain_value d) l.
Proof. cbn [plain_value]. induction l as [|x l IH]; [done|]. cbn [forallb]. by rewrite <- IH. Qed.

Lemma plain_object d m : plain_value (S d) (VObject m) =
  keys_sorted m && forallb (λ kv, str_ok kv.1 && plain_value d kv.2) m.
Proof.
  cbn [plain_value]. f_equal. induction m as [|[k x] m IH]; [done|]. cbn [forallb fst snd]. by rewrite <- IH.
Qed.

Lemma commas_cons s s' l : commas (s :: s' :: l) = (s ++ String "," (commas (s' :: l)))%string.
Proof. done. Qed.

Lemma print_head d v : plain_value d v = true →
  ∃ c s, print v = String c s ∧ is_space c = false ∧ Ascii.eqb c "]" = false.
Proof.
  intros Hp. destruct v as [|[]|[n|n|x]|s|l|m]; try done; try (eexists _, _; split; [reflexivity|done]).
  cbn [print number plain_value] in *. apply andb_true_iff in Hp as [H0%Z.leb_le _].
  destruct (dec_digits_head 20 n "" ltac:(lia) H0) as (c & s & Hc & E). exists (digit_char c), s.
  destruct (digit_alone c Hc) as [Hs Ha]. split_and!; [done|done|].
  rewrite Forall_forall in Ha. apply Ha. rewrite !elem_of_cons. by auto 12.
Qed.

Lemma parse_elements_text d l : Forall parses l → forallb (plain_value d) l = true → l ≠ [] →
  ∀ fuel rest, (S (String.length (commas (map print l))) <= fuel)%nat →
    parse_elements fuel (commas (map print l) ++ String "]" rest) = Some (l, rest).
Proof.
  induction 1 as [|v l Hv Hl IH]; [done|]. intros Hp _ fuel rest Hf. cbn [forallb] in Hp.
  apply andb_true_iff in Hp as [Hp Hpl]. destruct fuel as [|fuel]; [lia|]. destruct l as [|w l].
  - cbn [map commas] in *. cbn [parse_elements]. rewrite (Hv d) by (done || unfold size; lia). done.
  - cbn [map] in *. rewrite commas_cons, length_app_string in *. cbn [String.length] in Hf.
    rewrite string_app_assoc, string_app_cons. cbn [parse_elements].
    rewrite (Hv d) by (done || unfold size; lia). cbn [mbind option_bind].
    change (next "," (skip (String "," (commas (print w :: map print l) ++ String "]" rest)))) with
      (Some (commas (print w :: map print l) ++ String "]" rest)%string).
    cbv iota beta. rewrite IH by (done || lia). done.
Qed.

Lemma parses_array l : Forall parses l → parses (VArray l).
Proof.
  intros Hl [|d] Hp fuel rest Hf Hr; [by cbn in Hp|]. rewrite plain_array in Hp. unfold size in Hf.
  cbn [print String.length] in *. rewrite length_app_string in Hf. cbn [String.length] in Hf.
  destruct fuel as [|fuel]; [lia|]. rewrite string_app_cons, string_app_assoc. change ("]" ++ rest)%string with (String "]" rest).
  set (s := (commas (map print l) ++ String "]" rest)%string).
  transitivity (match next "]" (skip s) with
    | Some rest => Some (VArray [], rest)
    | None => '(l, rest) ← parse_elements fuel s; Some (VArray l, rest)
    end); [reflexivity|]. destruct l as [|v l]; [done|].
  assert (next "]" (skip s) = None) as ->.
  { cbn [forallb] in Hp. apply andb_true_iff in Hp as [Hv _]. destruct (print_head d v Hv) as (c & t & E & E1 & E2).
    assert (∃ t', s = String c t') as [t' ->].
    { unfold s. cbn [map]. destruct l; cbn [map]; rewrite ?commas_cons; cbn [commas]; rewrite E; by eexists. }
    cbn [skip]. rewrite E1. cbn [next]. by rewrite E2. }
  unfold s. rewrite (parse_elements_text d) by (done || lia). done.
Qed.

Lemma parses_leaf v : match v with VNull | VBool _ => parses v | _ => True end.
Proof. destruct v as [|[]| | | |]; try done; intros d _ [|fuel] rest Hf _; (cbn in Hf; lia) || done. Qed.

Lemma print_object m : print (VObject m) = String "{" (commas (map entry m) ++ "}").
Proof. cbn [print]. do 3 f_equal. apply map_ext. by intros [k v]. Qed.

Lemma parse_entries_text d m : Forall (λ kv, parses kv.2) m →
  forallb (λ kv, str_ok kv.1 && plain_value d kv.2) m = true → m ≠ [] →
  ∀ fuel rest, (String.length (commas (map entry m)) <= fuel)%nat →
    parse_entries fuel (commas (map entry m) ++ String "}" rest) = Some (m, rest).
Proof.
  induction 1 as [|[k v] m Hv Hm IH]; [done|]. intros Hp _ fuel rest Hf. cbn [forallb fst snd] in *.
  apply andb_true_iff in Hp as [[Hk Hp]%andb_true_iff Hpm].
  assert (Hstep : ∀ fuel tail, (size v <= fuel)%nat → stops tail →
    parse_entries (S fuel) (entry (k, v) ++ tail) =
      match next "," (skip tail) with
      | Some s => '(m, rest) ← parse_entries fuel s; Some ((k, v) :: m, rest)
      | None => rest ← next "}" (skip tail); Some ([(k, v)], rest)
      end).
  { clear -Hv Hk Hp. intros fuel tail Hf Ht. unfold entry. cbn [fst snd]. unfold text_of.
    rewrite string_app_assoc, string_app_cons, string_app_assoc. cbn [parse_entries].
    change (String quote "" ++ ?s)%string with (String quote s).
    change (next quote (skip (String quote ?s))) with (Some s).
    cbn [mbind option_bind]. rewrite parse_string_text by done. cbn [mbind option_bind].
    change (next ":" (skip (String ":" (print v) ++ tail))) with (Some (print v ++ tail)%string).
    cbn [mbind option_bind]. by rewrite (Hv d). }
  assert (Hlen : (size v < String.length (entry (k, v)))%nat).
  { unfold entry, text_of, size. cbn [fst snd String.length]. rewrite !length_app_string. cbn [String.length]. lia. }
  destruct m as [|kv' m].
  - cbn [map commas] in *. destruct fuel as [|fuel]; [lia|]. by rewrite Hstep by (done || lia).
  - cbn [map] in *. rewrite commas_cons in *. rewrite length_app_string in Hf. cbn [String.length] in Hf.
    destruct fuel as [|fuel]; [lia|]. rewrite string_app_assoc, Hstep by (done || lia).
    change (next "," (skip (String "," (commas (entry kv' :: map entry m)) ++ String "}" rest))) with
      (Some (commas (entry kv' :: map entry m) ++ String "}" rest)%string).
    cbv iota beta. by rewrite IH by (done || lia).
Qed.

Lemma parse_members_text d m fuel rest : Forall (λ kv, parses kv.2) m →
  forallb (λ kv, str_ok kv.1 && plain_value d kv.2) m = true →
  (String.length (commas (map entry m)) < fuel)%nat →
  parse_members fuel (commas (map entry m) ++ String "}" rest) = Some (m, rest).
Proof.
  intros Hm Hp Hf. destruct fuel as [|fuel]; [lia|]. cbn [parse_members]. destruct m as [|kv m]; [done|].
  assert (∃ s, commas (map entry (kv :: m)) = String quote s) as [s E].
  { cbn [map]. destruct m; cbn [map]; rewrite ?commas_cons; cbn [commas]; unfold entry, text_of; by eexists. }
  assert (Hn : next "}" (skip (commas (map entry (kv :: m)) ++ String "}" rest)) = None) by by rewrite E.
  rewrite Hn. apply (parse_entries_text d); [done|done|done|lia].
Qed.

(** *** Objects *)

Lemma compare_trans a : ∀ b c, String.compare a b = Lt → String.compare b c = Lt → String.compare a c = Lt.
Proof.
  induction a as [|x a IH]; intros [|y b] [|z c]; cbn; try done. unfold Ascii.compare.
  destruct (N.compare_spec (N_of_ascii x) (N_of_ascii y)) as [E1|E1|E1],
    (N.compare_spec (N_of_ascii y) (N_of_ascii z)) as [E2|E2|E2]; try done; intros H1 H2;
    destruct (N.compare_spec (N_of_ascii x) (N_of_ascii z)); try done; try lia. by eapply IH.
Qed.

Lemma ltb_compare a b : String.ltb a b = true ↔ String.compare a b = Lt.
Proof. unfold String.ltb. by destruct (String.compare a b). Qed.

Lemma ltb_trans a b c : String.ltb a b = true → String.ltb b c = true → String.ltb a c = true.
Proof. rewrite !ltb_compare. apply compare_trans. Qed.

Lemma bt_insert_last k v (m : list (string * Value)) : Forall (λ kv, String.ltb kv.1 k = true) m →
  bt_insert k v m = m ++ [(k, v)].
Proof.
  induction 1 as [|[k' v'] m Hk _ IH]; [done|]. cbn [bt_insert fst] in *. apply ltb_compare in Hk.
  destruct (String.eqb_spec k k') as [->|_].
  { pose proof (String.compare_antisym k' k') as A. by rewrite Hk in A. }
  assert (String.ltb k k' = false) as ->; [|by rewrite IH].
  unfold String.ltb. rewrite String.compare_antisym, Hk. done.
Qed.

Lemma keys_sorted_all k v (m : list (string * Value)) : keys_sorted ((k, v) :: m) = true →
  Forall (λ kv, String.ltb k kv.1 = true) m ∧ keys_sorted m = true.
Proof.
  revert k v. induction m as [|[k' v'] m IH]; intros k v H; [done|].
  cbn [keys_sorted] in H. apply andb_true_iff in H as [H1 H2]. split; [|exact H2].
  destruct (IH k' v' H2) as [H3 _]. constructor; [done|]. eapply Forall_impl; [exact H3|].
  intros kv H. by eapply ltb_trans.
Qed.

Lemma btree_sorted m : keys_sorted m = true → btree m = m.
Proof.
  unfold btree. enough (G : ∀ acc, Forall (λ a, Forall (λ kv, String.ltb a.1 kv.1 = true) m) acc → keys_sorted m = true →
    fold_left (λ m '(k, v), bt_insert k v m) m acc = acc ++ m) by (intros H; by apply (G [])).
  induction m as [|[k v] m IH]; intros acc Ha H; [by rewrite app_nil_r|].
  destruct (keys_sorted_all _ _ _ H) as [Hk Hm]. cbn [fold_left].
  rewrite bt_insert_last by (eapply Forall_impl; [exact Ha|]; by intros a [? _]%Forall_cons).
  rewrite IH, <- app_assoc; [done| |done]. apply Forall_app. split.
  - eapply Forall_impl; [exact Ha|]. by intros a [_ ?]%Forall_cons.
  - by constructor.
Qed.

Lemma parses_object m : Forall (λ kv, parses kv.2) m → parses (VObject m).
Proof.
  intros Hm [|d] Hp fuel rest Hf Hr; [by cbn in Hp|]. rewrite plain_object in Hp.
  apply andb_true_iff in Hp as [Hs Hp]. unfold size in Hf. rewrite print_object in *.
  cbn [String.length] in Hf. rewrite length_app_string in Hf. cbn [String.length] in Hf.
  destruct fuel as [|fuel]; [lia|]. rewrite string_app_cons, string_app_assoc. change ("}" ++ rest)%string with (String "}" rest).
  set (s := (commas (map entry m) ++ String "}" rest)%string).
  transitivity ('(m, rest) ← parse_members fuel s; Some (VObject (btree m), rest)); [reflexivity|].
  unfold s. rewrite (parse_members_text d) by (done || lia). cbn [mbind option_bind]. by rewrite btree_sorted.
Qed.

Lemma value_parses v : parses v.
Proof.
  induction v as [|b|n|s|l IH|m IH] using Value_ind'.
  - apply (parses_leaf VNull).
  - apply (parses_leaf (VBool b)).
  - apply parses_number.
  - apply parses_string.
  - by apply parses_array.
  - by apply parses_object.
Qed.

(** What is printed parses back. *)
Lemma parse_print d v : plain_value d v = true → parse (print v) = Some v.
Proof.
  intros Hp. unfold parse. pose proof (value_parses v d Hp (S (String.length (print v))) "") as H.
  rewrite string_app_nil_r in H. rewrite H; [done| |done]. unfold size. lia.
Qed.

(** *** Events *)

Section event_lemmas.
Context {T : TimeText}.

Lemma operation_name_ok o : str_ok (operation_name o) = true.
Proof. by destruct o. Qed.

Definition not_null (o : option Value) : Prop := o ≠ Some VNull.

Lemma plain_event_inv e : plain_event e = true →
  forallb (λ kv, str_ok kv.1 && plain_value json_depth kv.2) (event_members e) = true ∧
  not_null e.(before) ∧ not_null e.(after).
Proof.
  unfold plain_event. rewrite !andb_true_iff. intros (((((((H1 & H2) & H3) & H4) & H5) & H6) & H7) & H8).
  assert (G : ∀ o : option Value, match o with Some VNull => false | Some v => plain_value json_depth v | None => true end = true →
    plain_value json_depth (option_value same o) = true ∧ not_null o).
  { by intros [[]|]. }
  apply G in H5 as [H5 H5'], H6 as [H6 H6']. split; [|done]. unfold event_members. cbn [forallb fst snd plain_value].
  rewrite H1, H2, H3, H4, H5, H6, H8, operation_name_ok, time_text.
  destruct (transaction_id e); cbn [option_value plain_value]; by rewrite ?H7.
Qed.

Lemma event_of_event_members e : not_null e.(before) → not_null e.(after) →
  event_of_members (event_members e) = Some e.
Proof.
  intros Hb Ha. destruct e as [i d s o t k b a x f]. cbn [Event.before Event.after] in *.
  unfold event_of_members, required, optional, field, event_members.
  assert (Hop : operation_named (operation_name o) = Some o) by by destruct o.
  cbn -[operation_named operation_name]. rewrite Hop. cbn. rewrite time_roundtrip. cbn.
  destruct b as [[]|], a as [[]|]; (done || destruct x; done).
Qed.

(** An event without [Some(Null)] and floats is read back from its text. *)
Lemma parse_print_event e : plain_event e = true → parse_event (print_event e) = Some e.
Proof.
  intros (Hp & Hb & Ha)%plain_event_inv. unfold parse_event, print_event. rewrite print_object.
  change (next "{" (skip (String "{" ?s))) with (Some s). cbn [mbind option_bind].
  change (commas (map entry (event_members e)) ++ "}")%string with
    (commas (map entry (event_members e)) ++ String "}" "")%string.
  rewrite (parse_members_text json_depth).
  - cbn [mbind option_bind]. by apply event_of_event_members.
  - apply Forall_forall. intros kv _. apply value_parses.
  - exact Hp.
  - cbn [String.length]. rewrite length_app_string. lia.
Qed.

(** What a reader gets: the struct cannot tell [Some(Value::Null)] from [None], both are [null]. *)
Definition not_null_option (o : option Value) : option Value :=
  match o with Some VNull => None | _ => o end.

Definition read_back (e : ChangeEvent) : ChangeEvent :=
  MkEvent e.(id) e.(source_database) e.(source_table_or_collection) e.(operation) e.(timestamp) e.(key)
    (not_null_option e.(before)) (not_null_option e.(after)) e.(transaction_id) e.(offset).

Lemma event_members_read_back e : event_members (read_back e) = event_members e.
Proof. destruct e as [? ? ? ? ? ? [[]|] [[]|] ? ?]; done. Qed.

Lemma event_of_read_back e : event_of_members (event_members e) = Some (read_back e).
Proof.
  rewrite <- event_members_read_back. apply event_of_event_members;
    destruct e as [? ? ? ? ? ? [[]|] [[]|] ? ?]; done.
Qed.

#[export] Instance field_perm : Proper ((≡ₚ) ==> eq ==> eq) field.
Proof.
  intros ms ms' H name _ <-. unfold field.
  assert (HF : List.filter (λ kv, String.eqb kv.1 name) ms ≡ₚ List.filter (λ kv, String.eqb kv.1 name) ms').
  { induction H as [|x l l' _ IH|x y l|l l' l'' _ IH1 _ IH2]; [done|..]; cbn [List.filter].
    - destruct (String.eqb _ _); [by constructor|done].
    - repeat destruct (String.eqb _ _); (done || constructor).
    - by etransitivity. }
  destruct (List.filter _ ms) as [|[k v] [|x l]].
  - by apply Permutation_nil in HF as ->.
  - by apply Permutation_length_1_inv in HF as ->.
  - destruct (List.filter _ ms') as [|[k' v'] [|x' l']]; [by apply Permutation_length in HF..|done].
Qed.

(** Only the fields of the struct matter. *)
Lemma event_of_fields e ms ms' : (∀ name, name ∈ map fst (event_members e) → field ms name = field ms' name) →
  event_of_members ms = event_of_members ms'.
Proof.
  intros H. unfold event_of_members, required, optional.
  rewrite !H; [done|..]; cbn [map fst event_members]; rewrite !elem_of_cons; auto 12.
Qed.

(** Members with other names are ignored. *)
Definition unknown (ms : list (string * Value)) (kv : string * Value) : Prop := kv.1 ∉ map fst ms.

Lemma field_unknown ms extra name : Forall (unknown ms) extra → name ∈ map fst ms →
  field (ms ++ extra) name = field ms name.
Proof.
  intros Hx Hn. unfold field. rewrite List.filter_app.
  assert (List.filter (λ kv, String.eqb kv.1 name) extra = []) as ->; [|by rewrite app_nil_r].
  induction Hx as [|kv extra Hk _ IH]; [done|]. cbn [List.filter].
  destruct (String.eqb_spec kv.1 name) as [<-|]; [|done]. by destruct Hk.
Qed.

Lemma event_of_members_unknown e extra : Forall (unknown (event_members e)) extra →
  event_of_members (event_members e ++ extra) = event_of_members (event_members e).
Proof.
  intros Hx. apply (event_of_fields e). intros. by apply field_unknown.
Qed.

(** This codec reads an event back from its text, and from its members in any order with members of other names
    among them.  The one exception is a payload [Some(Value::Null)], which shares its text with [None]. *)
Theorem event_text_roundtrip (e : ChangeEvent) (ms extra : list (string * Value))
    (Hp : plain_event (read_back e) = true) (Hms : ms ≡ₚ event_members e ++ extra)
    (Hextra : Forall (unknown (event_members e)) extra) :
  parse_event (print_event e) = Some (read_back e) ∧ event_of_members ms = Some (read_back e).
Proof.
  split.
  - unfold print_event. rewrite <- event_members_read_back. by apply parse_print_event.
  - rewrite <- event_of_read_back, <- (event_of_members_unknown e extra) by done. apply (event_of_fields e).
    intros name _. by rewrite Hms.
Qed.
End event_lemmas.

(** ** The codec *)

Definition codec (T : TimeText) : SerdeJson := {|
  json_error := string;
  value_to_string := print;
  value_debug := print;
  value_to_vec v := if floatless v then Ok (as_bytes (print v)) else Err "float"%string;
  value_from_slice b := match parse (of_bytes b) with Some v => Ok v | None => Err "invalid JSON"%string end;
  event_to_vec e :=
    if floatless (VObject (event_members e)) then Ok (as_bytes (print_event e)) else Err "float"%string;
  event_from_slice b :=
    match parse_event (of_bytes b) with Some e => Ok e | None => Err "invalid event"%string end;
  simd_to_string e := if floatless (VObject (event_members e)) then Ok (print_event e) else Err "float"%string;
  json_error_to_string e := e;
|}.

Lemma codec_laws T : SerdeJsonLaws (codec T).
Proof.
  split.
  - intros v b Hp. cbn [value_to_vec value_from_slice codec]. destruct (floatless v); [|done]. intros [= <-].
    by rewrite of_as_bytes, (parse_print _ _ Hp).
  - intros e b Hp. cbn [event_to_vec event_from_slice codec]. destruct (floatless _); [|done]. intros [= <-].
    by rewrite of_as_bytes, parse_print_event.
Qed.

(** ** A text for timestamps: the sign and the binary digits of the nanoseconds *)

Fixpoint binary (p : positive) : string :=
  match p with xH => "1" | xO p => String "0" (binary p) | xI p => String "1" (binary p) end.

Fixpoint of_binary (s : string) : option positive :=
  match s with
  | String c EmptyString => if Ascii.eqb c "1" then Some xH else None
  | String c s => p ← of_binary s; Some (if Ascii.eqb c "1" then xI p else xO p)
  | EmptyString => None
  end.

Lemma of_binary_binary p : of_binary (binary p) = Some p.
Proof. induction p as [p IH|p IH|]; cbn; [| |done]; rewrite IH; by destruct p. Qed.

Lemma binary_ascii p : is_ascii (binary p) = true.
Proof. induction p as [p IH|p IH|]; [exact IH..|done]. Qed.

Definition print_nanos (t : Z) : string :=
  match t with Z0 => "0" | Zpos p => String "+" (binary p) | Zneg p => String "-" (binary p) end.

Definition parse_nanos (s : string) : option Z :=
  match s with
  | String c s =>
    if Ascii.eqb c "0" then Some 0
    else if Ascii.eqb c "+" then Z.pos <$> of_binary s
    else if Ascii.eqb c "-" then Z.neg <$> of_binary s else None
  | EmptyString => None
  end.

#[export] Program Instance nanos_text : TimeText := {| print_time := print_nanos; parse_time := parse_nanos |}.
Next Obligation. intros [|p|p]; [done|..]; cbn; by rewrite of_binary_binary. Qed.
Next Obligation. intros [|p|p]; [done|..]; apply ascii_str_ok; exact (binary_ascii p). Qed.
End Json.

(** A deletion with an explicit [null], and its members reversed around one that [ChangeEvent] does not have. *)
Definition null_event : ChangeEvent :=
  MkEvent "evt-9" "caminus_db" "users" Delete (-7) (json_object [("id", VNumber (PosInt 9))]) (Some VNull) None
    (Some "tx-9"%string) "41".

Lemma event_text_roundtrip_witness :
  Json.parse_event (T:=Json.nanos_text) (Json.print_event (T:=Json.nanos_text) null_event) = Some (Json.read_back null_event) ∧
  Json.event_of_members (T:=Json.nanos_text)
    (("schema", VNull)%string :: rev (Json.event_members (T:=Json.nanos_text) null_event)) = Some (Json.read_back null_event).
Proof.
  apply (Json.event_text_roundtrip (T:=Json.nanos_text) null_event _ [("schema", VNull)%string]).
  - vm_compute. reflexivity.
  - rewrite <- Permutation_rev. apply Permutation_cons_append.
  - repeat constructor. unfold Json.unknown. intros H. repeat (apply elem_of_cons in H as [H|H]; [discriminate H|]).
    by apply elem_of_nil in H.
Defined.

(** The codec of the witnesses that look into the text. *)
Definition text_json : SerdeJson := Json.codec Json.nanos_text.
