(* ===== verification/Buffer.v ===== *)
(** [TransactionBuffer] ([src/buffer/mod.rs]): mutations are held per transaction until its
    commit releases them in order or its rollback drops them.

    The specification is a function of the history alone ([pending], [released]); the buffer is
    shown to compute it, and the transactions are shown not to influence each other. *)
From S2P Require Import Prelude Text Event.

Module TransactionBuffer.

(** ** The component *)

Record t := Mk { buffer : gmap string (list ChangeEvent) }.

Definition new : t := Mk ∅.

(** [entry(tx_id.clone()).or_insert_with(Vec::new).push(event)] *)
Definition push_entry (tx_id : string) (event : ChangeEvent)
    (b : gmap string (list ChangeEvent)) : gmap string (list ChangeEvent) :=
  <[tx_id := default [] (b !! tx_id) ++ [event]]> b.

Definition process (self : t) (event : ChangeEvent) : t * list ChangeEvent :=
  match event.(transaction_id) with
  | None => (self, [event])
  | Some tx_id =>
    match event.(operation) with
    | Commit =>
      match self.(buffer) !! tx_id with
      | Some mutations => (Mk (delete tx_id self.(buffer)), mutations)
      | None => (self, [])
      end
    | Rollback => (Mk (delete tx_id self.(buffer)), [])
    | _ => (Mk (push_entry tx_id event self.(buffer)), [])
    end
  end.

Definition prune (self : t) (max_size : nat) : t :=
  if (max_size <? size self.(buffer))%nat then Mk ∅ else self.

(** The events of a stream, one call of [process] each: the outputs of the calls in order. *)
Fixpoint run (self : t) (events : list ChangeEvent) : t * list (list ChangeEvent) :=
  match events with
  | [] => (self, [])
  | e :: events' =>
    let '(self', out) := process self e in
    let '(self'', outs) := run self' events' in (self'', out :: outs)
  end.

(** ** The specification *)

Definition in_tx (tx : string) (e : ChangeEvent) : bool :=
  match e.(transaction_id) with Some t => String.eqb tx t | None => false end.

Definition is_control (e : ChangeEvent) : bool :=
  match e.(operation) with Commit | Rollback => true | _ => false end.

(** The mutations of [tx] since its last commit or rollback. *)
Definition pending_step (tx : string) (acc : list ChangeEvent) (e : ChangeEvent) :
    list ChangeEvent :=
  if in_tx tx e then if is_control e then [] else acc ++ [e] else acc.

Definition pending (tx : string) (h : list ChangeEvent) : list ChangeEvent :=
  fold_left (pending_step tx) h [].

(** What arrives downstream when [e] follows the history [h]. *)
Definition released (h : list ChangeEvent) (e : ChangeEvent) : list ChangeEvent :=
  match e.(transaction_id) with
  | None => [e]
  | Some tx => match e.(operation) with Commit => pending tx h | _ => [] end
  end.

(** The buffer represents the history [h]: no entry is empty and each holds what is pending. *)
Definition represents (self : t) (h : list ChangeEvent) : Prop :=
  ∀ tx, self.(buffer) !! tx = match pending tx h with [] => None | l => Some l end.

(** ** Lemmas *)

Lemma pending_snoc tx h e : pending tx (h ++ [e]) = pending_step tx (pending tx h) e.
Proof. unfold pending. by rewrite fold_left_app. Qed.

Lemma pending_step_other tx acc e : in_tx tx e = false → pending_step tx acc e = acc.
Proof. unfold pending_step. by intros ->. Qed.

Lemma in_tx_spec tx e : in_tx tx e = true ↔ e.(transaction_id) = Some tx.
Proof.
  unfold in_tx. destruct (transaction_id e) as [t|]; [|naive_solver].
  rewrite String.eqb_eq. naive_solver.
Qed.

Lemma buffer_represents_new : represents new [].
Proof. intros tx. apply lookup_empty. Qed.

(** One call moves the buffer from representing [h] to representing [h ++ [e]] and returns what
    the specification releases. *)
Lemma process_represents self h e :
  represents self h →
  represents (process self e).1 (h ++ [e]) ∧ (process self e).2 = released h e.
Proof.
  intros R. unfold process, released.
  destruct (transaction_id e) as [tx|] eqn:Etx; cycle 1.
  { split; [|done]. intros tx. rewrite pending_snoc, pending_step_other; [apply R|].
    unfold in_tx. by rewrite Etx. }
  assert (Hother : ∀ tx', tx' ≠ tx → pending tx' (h ++ [e]) = pending tx' h).
  { intros tx' Hne. rewrite pending_snoc. apply pending_step_other.
    unfold in_tx. rewrite Etx. by apply String.eqb_neq. }
  assert (Hsame : pending tx (h ++ [e]) = if is_control e then [] else pending tx h ++ [e]).
  { rewrite pending_snoc. unfold pending_step. by rewrite (proj2 (in_tx_spec tx e)). }
  assert (Hdel : is_control e = true → represents (Mk (delete tx (buffer self))) (h ++ [e])).
  { intros Hc tx'. cbn. rewrite lookup_delete. case_decide as Hd.
    - subst. by rewrite Hsame, Hc.
    - rewrite Hother by done. apply R. }
  assert (Hpush : is_control e = false →
    represents (Mk (push_entry tx e (buffer self))) (h ++ [e])).
  { intros Hc tx'. cbn. unfold push_entry. rewrite lookup_insert. case_decide as Hd.
    - subst. rewrite Hsame, Hc, (R tx'). by destruct (pending tx' h).
    - rewrite Hother by done. apply R. }
  destruct (operation e) eqn:Eop;
    try (split; [|done]; apply Hpush || apply Hdel; unfold is_control; by rewrite Eop).
  assert (Hc : is_control e = true) by (unfold is_control; by rewrite Eop).
  rewrite (R tx). destruct (pending tx h) as [|m ms] eqn:Ep; (split; [|done]).
  - intros tx'. cbn. destruct (decide (tx' = tx)) as [->|Hne].
    + rewrite Hsame, Hc, (R tx), Ep. done.
    + rewrite Hother by done. apply R.
  - by apply Hdel.
Qed.

Lemma run_app self h1 h2 :
  run self (h1 ++ h2) =
    let '(s1, o1) := run self h1 in let '(s2, o2) := run s1 h2 in (s2, o1 ++ o2).
Proof.
  revert self. induction h1 as [|e h1 IH]; intros self; cbn.
  - by destruct (run self h2).
  - destruct (process self e) as [s' o]. rewrite IH.
    destruct (run s' h1) as [s1 o1]. by destruct (run s1 h2).
Qed.

(** The outputs the specification prescribes for the events [es] after the history [h]. *)
Fixpoint released_all (h es : list ChangeEvent) : list (list ChangeEvent) :=
  match es with [] => [] | e :: es' => released h e :: released_all (h ++ [e]) es' end.

Lemma buffer_run_represents self h es :
  represents self h →
  represents (run self es).1 (h ++ es) ∧ (run self es).2 = released_all h es.
Proof.
  revert self h. induction es as [|e es IH]; intros self h R; cbn.
  - by rewrite app_nil_r.
  - destruct (process_represents self h e R) as [R' E].
    destruct (process self e) as [s' o]. cbn in *. specialize (IH s' (h ++ [e]) R').
    destruct (run s' es) as [s'' os]. cbn in *. rewrite <- app_assoc in IH.
    destruct IH as [? ->]. split; [done|]. by rewrite E.
Qed.

(** *** Interleaving *)

Definition tx_only (tx : string) : list ChangeEvent → list ChangeEvent :=
  List.filter (in_tx tx).

Lemma pending_tx_only tx h : pending tx (tx_only tx h) = pending tx h.
Proof.
  unfold pending. generalize (@nil ChangeEvent) as acc.
  induction h as [|e h IH]; intros acc; [done|]. cbn.
  destruct (in_tx tx e) eqn:E; cbn; [apply IH|]. rewrite IH.
  by rewrite pending_step_other.
Qed.

Lemma pending_in_tx tx h : Forall (λ e, in_tx tx e = true) (pending tx h).
Proof.
  unfold pending. assert (Hacc : Forall (λ e, in_tx tx e = true) []) by constructor.
  revert Hacc. generalize (@nil ChangeEvent) as acc.
  induction h as [|e h IH]; intros acc Hacc; [done|]. cbn. apply IH. unfold pending_step.
  destruct (in_tx tx e) eqn:E; [|done]. destruct (is_control e); [constructor|].
  apply Forall_app. by repeat constructor.
Qed.

Lemma tx_only_id tx l : Forall (λ e, in_tx tx e = true) l → tx_only tx l = l.
Proof. induction 1 as [|e l E _ IH]; [done|]. cbn. by rewrite E, IH. Qed.

Lemma tx_only_other tx tx' l :
  tx ≠ tx' → Forall (λ e, in_tx tx' e = true) l → tx_only tx l = [].
Proof.
  intros Hne. induction 1 as [|e l E _ IH]; [done|]. cbn. apply in_tx_spec in E.
  unfold in_tx at 1. rewrite E. by rewrite (proj2 (String.eqb_neq _ _) Hne).
Qed.

Lemma tx_only_released tx h e :
  tx_only tx (released h e) = if in_tx tx e then released (tx_only tx h) e else [].
Proof.
  unfold released. destruct (transaction_id e) as [tx'|] eqn:Etx; cycle 1.
  { cbn. unfold in_tx at 1. unfold in_tx at 1. by rewrite Etx. }
  destruct (in_tx tx e) eqn:Ein.
  - apply in_tx_spec in Ein. assert (tx' = tx) as -> by congruence.
    destruct (operation e); try done. rewrite pending_tx_only.
    apply tx_only_id, pending_in_tx.
  - assert (tx ≠ tx').
    { intros ->. apply (in_tx_spec tx' e) in Etx. congruence. }
    destruct (operation e); try done. by apply (tx_only_other _ tx'); [|apply pending_in_tx].
Qed.

Lemma tx_only_app tx l1 l2 : tx_only tx (l1 ++ l2) = tx_only tx l1 ++ tx_only tx l2.
Proof. apply List.filter_app. Qed.

Lemma tx_only_released_all tx h es :
  tx_only tx (concat (released_all h es)) = concat (released_all (tx_only tx h) (tx_only tx es)).
Proof.
  revert h. induction es as [|e es IH]; intros h; [done|].
  cbn [released_all concat tx_only List.filter]. fold (tx_only tx).
  rewrite tx_only_app, tx_only_released, IH, tx_only_app. cbn [tx_only List.filter].
  fold (tx_only tx). destruct (in_tx tx e); [done|]. by rewrite app_nil_r.
Qed.

Lemma run_new_outputs es : (run new es).2 = released_all [] es.
Proof. apply (buffer_run_represents new [] es buffer_represents_new). Qed.

(** *** Conservation: what goes out came in, once *)

(** All that the buffer holds. *)
Definition contents (self : t) : list ChangeEvent := concat (map_to_list self.(buffer)).*2.

Lemma contents_delete b tx ms : b !! tx = Some ms → contents (Mk b) ≡ₚ ms ++ contents (Mk (delete tx b)).
Proof. intros H. unfold contents. cbn [buffer]. by rewrite <- (map_to_list_delete b tx ms H). Qed.

Lemma contents_dropped b tx : contents (Mk (delete tx b)) ⊆+ contents (Mk b).
Proof.
  destruct (b !! tx) as [ms|] eqn:E; [|by rewrite delete_id].
  rewrite (contents_delete b tx ms E). by apply submseteq_inserts_l.
Qed.

Lemma contents_pushed b tx e : contents (Mk (push_entry tx e b)) ≡ₚ e :: contents (Mk b).
Proof.
  unfold push_entry. rewrite (contents_delete _ tx (default [] (b !! tx) ++ [e])) by apply lookup_insert_eq.
  rewrite delete_insert_eq. destruct (b !! tx) as [ms|] eqn:E; cbn [default].
  - rewrite (contents_delete b tx ms E). by rewrite <- Permutation_middle, app_nil_r.
  - by rewrite delete_id.
Qed.

Lemma process_conserves self e : (process self e).2 ++ contents (process self e).1 ⊆+ e :: contents self.
Proof.
  destruct self as [b]. unfold process. destruct (transaction_id e) as [tx|]; [|done]. cbn [buffer].
  destruct (operation e); cbn [fst snd app]; try (by rewrite contents_pushed).
  - destruct (b !! tx) as [ms|] eqn:E; cbn [fst snd].
    + rewrite <- (contents_delete b tx ms E). by apply submseteq_cons.
    + by apply submseteq_cons.
  - apply submseteq_cons, contents_dropped.
Qed.

Lemma run_conserves self es : concat (run self es).2 ++ contents (run self es).1 ⊆+ es ++ contents self.
Proof.
  revert self. induction es as [|e es IH]; intros self; [done|]. cbn [run].
  pose proof (process_conserves self e) as H. destruct (process self e) as [self1 out]. cbn [fst snd] in H.
  specialize (IH self1). destruct (run self1 es) as [self2 outs]. cbn [fst snd concat] in *.
  rewrite <- app_assoc. etransitivity; [by apply submseteq_skips_l|]. rewrite app_assoc, (Permutation_app_comm out), <- app_assoc.
  etransitivity; [by apply submseteq_skips_l|]. by rewrite <- Permutation_middle.
Qed.

(** The mutations that leave a buffer that was empty. *)
Lemma outputs_conserved es : concat (run new es).2 ⊆+ es.
Proof.
  pose proof (run_conserves new es) as H. assert (contents new = []) as E by done. rewrite E, app_nil_r in H.
  etransitivity; [|exact H]. by apply submseteq_inserts_r.
Qed.

(** Events without a transaction pass through at once. *)
Lemma run_untransacted self es : Forall (λ e, e.(transaction_id) = None) es → concat (run self es).2 = es.
Proof.
  induction 1 as [|e es He _ IH]; [done|]. cbn [run]. unfold process. rewrite He.
  destruct (run self es) as [self2 outs]. cbn [snd concat] in *. by rewrite IH.
Qed.

(** *** The mutations of one transaction *)

Lemma pending_mutations tx h ms :
  Forall (λ e, in_tx tx e = true ∧ is_control e = false) ms →
  pending tx (h ++ ms) = pending tx h ++ ms.
Proof.
  intros H. revert h. induction H as [|e ms [E C] _ IH]; intros h; [by rewrite !app_nil_r|].
  replace (h ++ e :: ms) with ((h ++ [e]) ++ ms) by by rewrite <- app_assoc.
  rewrite IH, pending_snoc. unfold pending_step. rewrite E, C. by rewrite <- app_assoc.
Qed.

Lemma released_mutations tx h ms :
  Forall (λ e, in_tx tx e = true ∧ is_control e = false) ms →
  concat (released_all h ms) = [].
Proof.
  intros H. revert h. induction H as [|e ms [E C] _ IH]; intros h; [done|].
  cbn. rewrite IH, app_nil_r. unfold released. apply in_tx_spec in E. rewrite E.
  unfold is_control in C. by destruct (operation e).
Qed.

Lemma released_all_app h es1 es2 :
  released_all h (es1 ++ es2) = released_all h es1 ++ released_all (h ++ es1) es2.
Proof.
  revert h. induction es1 as [|e es1 IH]; intros h; cbn; [by rewrite app_nil_r|].
  by rewrite IH, <- app_assoc.
Qed.

Lemma interleaving_aux tx es :
  tx_only tx (concat (run new es).2) = concat (released_all [] (tx_only tx es)).
Proof. rewrite run_new_outputs. apply tx_only_released_all. Qed.

Lemma released_atomic tx ms last :
  Forall (λ e, in_tx tx e = true ∧ is_control e = false) ms → in_tx tx last = true →
  concat (released_all [] (ms ++ [last])) =
    match last.(operation) with Commit => ms | _ => [] end.
Proof.
  intros Hms Hl. rewrite released_all_app, concat_app, (released_mutations tx) by done.
  cbn. unfold released. apply in_tx_spec in Hl. rewrite Hl.
  destruct (operation last); try done.
  rewrite app_nil_r. by apply (pending_mutations tx []).

Qed.

(** ** Properties *)

(** C11. The buffer implements its specification: after any sequence of events the entry of each
    transaction is exactly its mutations since its last commit or rollback (with no empty entry
    left behind), and every call returned what the history prescribes: an event without a
    transaction at once, everything pending on a commit, nothing otherwise. *)
Theorem process_refines_history (es : list ChangeEvent) :
  represents (run new es).1 es ∧ (run new es).2 = released_all [] es.
Proof. apply (buffer_run_represents new [] es buffer_represents_new). Qed.

(** Interleaved transactions do not influence each other: what is output for a transaction is
    what would be output if its events were the whole stream. *)
Theorem interleaving_independent (tx : string) (es : list ChangeEvent) :
  tx_only tx (concat (run new es).2) = concat (run new (tx_only tx es)).2.
Proof. by rewrite interleaving_aux, run_new_outputs. Qed.

(** C27. Transactions are atomic whatever is interleaved: if the events of [tx] are some mutations
    and then a commit, exactly those mutations are output for [tx], in order; if they end with a
    rollback instead, or with neither, none is. *)
Theorem transaction_atomic (tx : string) (es ms : list ChangeEvent) (last : ChangeEvent)
    (Hms : Forall (λ e, in_tx tx e = true ∧ is_control e = false) ms)
    (Hes : tx_only tx es = ms ++ [last]) :
  tx_only tx (concat (run new es).2) =
    match last.(operation) with Commit => ms | _ => [] end.
Proof.
  rewrite interleaving_aux, Hes. apply (released_atomic tx); [done|].
  assert (Hl : last ∈ tx_only tx es) by (rewrite Hes; set_solver).
  by apply list_elem_of_In, List.filter_In in Hl as [_ ?].
Qed.

(** The memory bound of [prune]: it never leaves more than [max_size] transactions, it does
    nothing while the bound holds, and when it acts it forgets every open transaction, so that a
    later commit releases only what arrived after the pruning. *)
Theorem prune_bound (self : t) (h es : list ChangeEvent) (max_size : nat)
    (R : represents self h) :
  (size (prune self max_size).(buffer) ≤ max_size)%nat ∧
  ((size self.(buffer) ≤ max_size)%nat → prune self max_size = self) ∧
  ((max_size < size self.(buffer))%nat →
     (run (prune self max_size) es).2 = released_all [] es).
Proof.
  unfold prune. destruct (Nat.ltb_spec max_size (size (buffer self))); (split_and!; intros).
  - cbn. rewrite map_size_empty. lia.
  - lia.
  - apply (buffer_run_represents new [] es buffer_represents_new).
  - done.
  - done.
  - lia.
Qed.

(** ** Witnesses *)

Definition ev (i tx : string) (op : Operation) : ChangeEvent :=
  MkEvent i "db" "users" op 0 VNull None None (Some tx) "0".

Definition interleaved : list ChangeEvent :=
  [ev "1" "A" Create; ev "2" "B" Create; ev "3" "A" Update; ev "4" "B" Rollback; ev "5" "A" Commit].

Lemma transaction_atomic_witness :
  tx_only "A" (concat (run new interleaved).2) = [ev "1" "A" Create; ev "3" "A" Update].
Proof.
  apply (transaction_atomic "A" interleaved [ev "1" "A" Create; ev "3" "A" Update]
           (ev "5" "A" Commit)); [by repeat constructor | reflexivity].
Defined.

Lemma prune_bound_witness :
  (size (prune (run new [ev "1" "A" Create; ev "2" "B" Create]).1 1).(buffer) ≤ 1)%nat ∧
  (run (prune (run new [ev "1" "A" Create; ev "2" "B" Create]).1 1) [ev "3" "A" Commit]).2 = [[]].
Proof.
  pose proof (prune_bound (run new [ev "1" "A" Create; ev "2" "B" Create]).1
    [ev "1" "A" Create; ev "2" "B" Create] [ev "3" "A" Commit] 1) as H.
  destruct H as (H1 & _ & H3).
  { apply (buffer_run_represents new []). apply buffer_represents_new. }
  split; [exact H1|]. rewrite H3; [reflexivity|]. vm_compute. lia.
Defined.

End TransactionBuffer.
