(* ===== verification/Dedup.v ===== *)
(** [DeduplicationFilter] ([src/resiliency/dedup.rs]): a set of processed ids with first-in
    first-out eviction.  The specification is a sliding window over the ids accepted so far. *)
From S2P Require Import Prelude Text.

Module DeduplicationFilter.

(** ** The component *)

Record t := Mk {
  processed_ids : gset string;
  order : list string;          (* VecDeque, front first *)
  max_capacity : nat;
}.

Definition new (max_capacity : nat) : t := Mk ∅ [] max_capacity.

(** [true] when the id is a duplicate; otherwise it is tracked, evicting the oldest one when the
    capacity is exceeded. *)
Definition check_and_track (self : t) (event_id : string) : t * bool :=
  if decide (event_id ∈ self.(processed_ids)) then (self, true)
  else
    let ids := {[event_id]} ∪ self.(processed_ids) in
    let order' := self.(order) ++ [event_id] in
    if (self.(max_capacity) <? length order')%nat then
      match order' with
      | oldest :: rest => (Mk (ids ∖ {[oldest]}) rest self.(max_capacity), false)
      | [] => (Mk ids order' self.(max_capacity), false)
      end
    else (Mk ids order' self.(max_capacity), false).

Fixpoint run (self : t) (event_ids : list string) : t * list bool :=
  match event_ids with
  | [] => (self, [])
  | i :: l =>
    let '(self', dup) := check_and_track self i in
    let '(self'', dups) := run self' l in (self'', dup :: dups)
  end.

(** The ids that pass the filter, in order. *)
Fixpoint passed (event_ids : list string) (dups : list bool) : list string :=
  match event_ids, dups with
  | i :: l, d :: ds => if d : bool then passed l ds else i :: passed l ds
  | _, _ => []
  end.

(** ** The specification *)

Definition last_n {A} (n : nat) (l : list A) : list A := drop (length l - n) l.

(** An id is a duplicate when it is one of the last [cap] accepted ids. *)
Definition dup_spec (cap : nat) (accepted : list string) (i : string) : bool :=
  bool_decide (i ∈ last_n cap accepted).

Definition accept (cap : nat) (accepted : list string) (i : string) : list string :=
  if dup_spec cap accepted i then accepted else accepted ++ [i].

Fixpoint window_run (cap : nat) (accepted : list string) (l : list string) : list bool :=
  match l with
  | [] => []
  | i :: l' => dup_spec cap accepted i :: window_run cap (accept cap accepted i) l'
  end.

(** The state holds the window of [accepted], once each, in both of its containers. *)
Definition represents (self : t) (accepted : list string) : Prop :=
  self.(order) = last_n self.(max_capacity) accepted ∧
  self.(processed_ids) = list_to_set self.(order) ∧
  NoDup self.(order).

(** The first occurrences of a list. *)
Fixpoint first_occurrences (seen l : list string) : list string :=
  match l with
  | [] => []
  | i :: l' =>
    if decide (i ∈ seen) then first_occurrences seen l'
    else i :: first_occurrences (seen ++ [i]) l'
  end.

(** ** Lemmas *)

Lemma last_n_length {A} n (l : list A) : length (last_n n l) = Nat.min n (length l).
Proof. unfold last_n. rewrite length_drop. lia. Qed.

Lemma last_n_all {A} n (l : list A) : (length l ≤ n)%nat → last_n n l = l.
Proof. intros H. unfold last_n. by replace (length l - n)%nat with 0%nat by lia. Qed.

Lemma last_n_snoc {A} n (l : list A) x :
  last_n n (l ++ [x]) =
    if (n <? length (last_n n l ++ [x]))%nat then tail (last_n n l ++ [x]) else last_n n l ++ [x].
Proof.
  rewrite length_app, last_n_length. cbn [length]. unfold last_n. rewrite length_app. cbn [length].
  destruct (Nat.ltb_spec n (Nat.min n (length l) + 1)).
  - rewrite drop_app. replace (length l + 1 - n)%nat with (S (length l - n)) by lia.
    destruct (drop (length l - n) l) as [|a r] eqn:E.
    + apply (f_equal length) in E. rewrite length_drop in E. cbn in E.
      rewrite drop_ge by lia. replace (S (length l - n) - length l)%nat with 1%nat by lia. done.
    + apply (f_equal (drop 1)) in E as E'. rewrite drop_drop in E'. cbn in E'.
      rewrite Nat.add_1_r in E'. rewrite E'. cbn.
      apply (f_equal length) in E. rewrite length_drop in E. cbn in E.
      by replace (S (length l - n) - length l)%nat with 0%nat by lia.
  - replace (length l - n)%nat with 0%nat by lia.
    by replace (length l + 1 - n)%nat with 0%nat by lia.
Qed.

Lemma dedup_represents_new cap : represents (new cap) [].
Proof. split_and!; [done | done | constructor]. Qed.

Lemma check_and_track_capacity self i :
  (check_and_track self i).1.(max_capacity) = self.(max_capacity).
Proof. unfold check_and_track. repeat case_match; done. Qed.

Lemma check_and_track_represents self acc i :
  represents self acc →
  represents (check_and_track self i).1 (accept self.(max_capacity) acc i) ∧
  (check_and_track self i).2 = dup_spec self.(max_capacity) acc i.
Proof.
  intros (Ho & Hp & Hn). unfold check_and_track, accept, dup_spec. rewrite <- Ho, Hp.
  destruct (decide (i ∈ (list_to_set (order self) : gset string))) as [Hin|Hout].
  - rewrite elem_of_list_to_set in Hin. rewrite bool_decide_true by done. cbn.
    split; [|done]. by split_and!.
  - rewrite elem_of_list_to_set in Hout. rewrite bool_decide_false by done.
    assert (Hn' : NoDup (order self ++ [i])).
    { apply NoDup_app. split_and!; [done | set_solver | apply NoDup_singleton]. }
    assert (Hs : {[i]} ∪ list_to_set (order self) =@{gset string} list_to_set (order self ++ [i]))
      by set_solver.
    pose proof (last_n_snoc (max_capacity self) acc i) as Hl. rewrite <- Ho in Hl. revert Hl Hs Hn'.
    generalize (order self ++ [i]) as o. intros o Hl Hs Hn'.
    destruct (max_capacity self <? length o)%nat eqn:E; [destruct o as [|oldest rest]|];
      (split; [|done]); cbn; unfold represents; cbn; rewrite ?Hl, ?Hs; split_and!; try done.
    + apply NoDup_cons in Hn' as [? ?]. set_solver.
    + by apply NoDup_cons in Hn' as [? ?].
Qed.

Lemma dedup_run_represents self acc l :
  represents self acc → (run self l).2 = window_run self.(max_capacity) acc l.
Proof.
  revert self acc. induction l as [|i l IH]; intros self acc R; [done|]. cbn.
  destruct (check_and_track_represents self acc i R) as [R' E].
  pose proof (check_and_track_capacity self i) as Hc.
  destruct (check_and_track self i) as [s' d]. cbn in *. rewrite <- Hc in R' at 1.
  specialize (IH s' _ R'). destruct (run s' l) as [s'' ds]. cbn in *. by rewrite E, IH, Hc.
Qed.

Lemma run_invariant self acc l :
  represents self acc → ∃ acc', represents (run self l).1 acc' ∧
    (run self l).1.(max_capacity) = self.(max_capacity).
Proof.
  revert self acc. induction l as [|i l IH]; intros self acc R; [by exists acc|]. cbn.
  destruct (check_and_track_represents self acc i R) as [R' _].
  pose proof (check_and_track_capacity self i) as Hc.
  destruct (check_and_track self i) as [s' d]. cbn in *. destruct (IH s' _ R') as (acc' & ? & ?).
  destruct (run s' l) as [s'' ds]. cbn in *. exists acc'. split; [done | congruence].
Qed.

Lemma elem_first_occurrences seen l x :
  x ∈ first_occurrences seen l ↔ x ∈ l ∧ x ∉ seen.
Proof.
  revert seen. induction l as [|i l IH]; intros seen; cbn; [set_solver|].
  destruct (decide (i ∈ seen)) as [Hi|Hi].
  - rewrite IH, elem_of_cons. naive_solver.
  - rewrite !elem_of_cons, IH, elem_of_app, list_elem_of_singleton.
    destruct (decide (x = i)) as [->|]; naive_solver.
Qed.

Lemma NoDup_first_occurrences seen l : NoDup (first_occurrences seen l).
Proof.
  revert seen. induction l as [|i l IH]; intros seen; cbn; [constructor|].
  destruct (decide (i ∈ seen)); [done|]. constructor; [|done].
  rewrite elem_first_occurrences, elem_of_app, list_elem_of_singleton. naive_solver.
Qed.

(** While the accepted ids fit in the window, the filter passes exactly first occurrences. *)
Lemma passed_window cap acc l :
  (length (acc ++ first_occurrences acc l) ≤ cap)%nat →
  passed l (window_run cap acc l) = first_occurrences acc l.
Proof.
  revert acc. induction l as [|i l IH]; intros acc Hlen; [done|]. cbn in *.
  unfold accept, dup_spec in *. destruct (decide (i ∈ acc)) as [Hi|Hi].
  - rewrite length_app in Hlen. rewrite last_n_all by lia. rewrite bool_decide_true by done.
    apply IH. rewrite length_app. lia.
  - rewrite !length_app in Hlen. cbn in Hlen. rewrite last_n_all by lia.
    rewrite bool_decide_false by done. f_equal. apply IH. rewrite !length_app. cbn. lia.
Qed.

(** ** Properties *)

(** C16. The filter is a sliding window: on any stream of ids, whatever its length, an id is reported
    as a duplicate exactly when it is among the last [max_capacity] ids accepted before it. *)
Theorem check_and_track_refines_window (cap : nat) (ids : list string) :
  (run (new cap) ids).2 = window_run cap [] ids.
Proof. apply (dedup_run_represents (new cap)), dedup_represents_new. Qed.

(** The filter's memory is bounded and its two containers stay in step: after any stream the
    queue holds at most [max_capacity] ids, without repetition, and the set holds the same ids. *)
Theorem check_and_track_memory (cap : nat) (ids : list string) :
  let self := (run (new cap) ids).1 in
  (length self.(order) ≤ cap)%nat ∧ NoDup self.(order) ∧
  self.(processed_ids) = list_to_set self.(order).
Proof.
  destruct (run_invariant (new cap) [] ids (dedup_represents_new cap)) as (acc & (Ho & Hp & Hn) & Hc).
  cbn in Hc |- *. split_and!; [|done|done]. rewrite Ho, Hc, last_n_length. lia.
Qed.

(** Exactly once: on a stream with at most [max_capacity] distinct ids every id passes at its
    first occurrence and never again; the ids that pass are the distinct ids of the stream. *)
Theorem check_and_track_exactly_once (cap : nat) (ids : list string)
    (Hcap : (length (first_occurrences [] ids) ≤ cap)%nat) :
  let out := passed ids (run (new cap) ids).2 in
  out = first_occurrences [] ids ∧ NoDup out ∧ (∀ i, i ∈ out ↔ i ∈ ids).
Proof.
  cbn. rewrite (dedup_run_represents (new cap) [] ids (dedup_represents_new cap)).
  rewrite passed_window by done. split_and!; [done | apply NoDup_first_occurrences |].
  intros i. rewrite elem_first_occurrences. set_solver.
Qed.

(** ** Witnesses *)

Lemma check_and_track_exactly_once_witness :
  passed ["e1"; "e2"; "e1"; "e3"; "e2"] (run (new 3) ["e1"; "e2"; "e1"; "e3"; "e2"]).2
    = ["e1"; "e2"; "e3"].
Proof.
  destruct (check_and_track_exactly_once 3 ["e1"; "e2"; "e1"; "e3"; "e2"]) as [E _];
    [vm_compute; lia | exact E].
Defined.

(** The eviction of the unit test: the fourth id pushes the first one out. *)
Example eviction : (run (new 3) ["1"; "1"; "2"; "3"; "4"; "1"]).2
  = [false; true; false; false; false; false].
Proof. reflexivity. Qed.

End DeduplicationFilter.
