(* ===== verification/Store.v ===== *)
(** [StateStore] ([src/storage/mod.rs]): replication offsets and table schemas in RocksDB, under
    the key prefixes [offset:] and [schema:].

    The database is the crate [rocksdb], an interface ([RocksDB]) with its laws: a read that
    succeeds returns what the last successful write of that key stored. *)
From S2P Require Import Prelude Text F64 Event.

(** ** The database *)

Class RocksDB := {
  db : Type;
  rocks_error : Type;
  rocks_error_to_string : rocks_error → string;
  db_get : db → list byte → Result (option (list byte)) rocks_error;
  db_put : db → list byte → list byte → db * Result unit rocks_error;
}.

(** [db_view] is the contents a database holds; it is not visible to the program. *)
Class RocksDBLaws (R : RocksDB) := {
  db_view : db → gmap (list byte) (list byte);
  db_get_view d k o : db_get d k = Ok o → o = db_view d !! k;
  db_put_view d k v d' : db_put d k v = (d', Ok tt) → db_view d' = <[k := v]> (db_view d);
  db_put_err d k v d' e : db_put d k v = (d', Err e) → db_view d' = db_view d;
}.

(** A database none of whose reads fails. *)
Definition db_readable `{RocksDB} (d : db) : Prop := ∀ k, ∃ o, db_get d k = Ok o.

(** A database none of whose writes fails. *)
Definition db_writable (R : RocksDB) : Prop := ∀ (d : db) k b, ∃ d', db_put d k b = (d', Ok tt).

Module StateStore.
Section store.
Context `{R : RocksDB} `{J : SerdeJson}.

Inductive StorageError :=
  | Db (e : rocks_error)
  | Serialization (e : json_error)
  | Utf8 (e : Utf8Error).

(** [Display], from the [#[error]] attributes. *)
Definition error_to_string (e : StorageError) : string :=
  match e with
  | Db e => "RocksDB error: " ++ rocks_error_to_string e
  | Serialization e => "Serialization error: " ++ json_error_to_string e
  | Utf8 e => "Utf8 conversion error: " ++ utf8_error_to_string e
  end%string.

Record t := Mk { handle : db }.

(** [open] is [DB::open] with [create_if_missing]. *)
Definition new (open : string → Result db rocks_error) (path : string) : Result t StorageError :=
  try Db (open path) (fun d => Ok (Mk d)).

Definition offset_key (source_id : string) : string := ("offset:" ++ source_id)%string.
Definition schema_key (source_id : string) : string := ("schema:" ++ source_id)%string.

(** [self.db.put(key.as_bytes(), v)?; Ok(())] *)
Definition put (self : t) (k : string) (v : list byte) : t * Result unit StorageError :=
  let '(d, r) := db_put self.(handle) (as_bytes k) v in
  (Mk d, try Db r Ok).

Definition save_offset (self : t) (source_id offset : string) : t * Result unit StorageError :=
  put self (offset_key source_id) (as_bytes offset).

Definition get_offset (self : t) (source_id : string) : Result (option string) StorageError :=
  try Db (db_get self.(handle) (as_bytes (offset_key source_id))) (fun o =>
    match o with
    | Some val => try Utf8 (from_utf8 val) (fun offset_str => Ok (Some offset_str))
    | None => Ok None
    end).

Definition save_schema (self : t) (source_id : string) (schema : Value) :
    t * Result unit StorageError :=
  match value_to_vec schema with
  | Err e => (self, Err (Serialization e))
  | Ok serialized => put self (schema_key source_id) serialized
  end.

Definition get_schema (self : t) (source_id : string) : Result (option Value) StorageError :=
  try Db (db_get self.(handle) (as_bytes (schema_key source_id))) (fun o =>
    match o with
    | Some val => try Serialization (value_from_slice val) (fun schema => Ok (Some schema))
    | None => Ok None
    end).

(** ** Specification *)

Context {L : RocksDBLaws R}.

(** What the store holds for a source. *)
Definition offset_at (self : t) (source_id : string) : option (list byte) :=
  db_view self.(handle) !! as_bytes (offset_key source_id).
Definition schema_at (self : t) (source_id : string) : option (list byte) :=
  db_view self.(handle) !! as_bytes (schema_key source_id).

(** ** Lemmas *)

Lemma offset_key_inj a b : as_bytes (offset_key a) = as_bytes (offset_key b) → a = b.
Proof. intros E%as_bytes_inj. by apply string_app_inj_l in E. Qed.

Lemma schema_key_inj a b : as_bytes (schema_key a) = as_bytes (schema_key b) → a = b.
Proof. intros E%as_bytes_inj. by apply string_app_inj_l in E. Qed.

Lemma offset_schema_key a b : as_bytes (offset_key a) ≠ as_bytes (schema_key b).
Proof. intros E%as_bytes_inj. unfold offset_key, schema_key in E. by rewrite !string_app_cons in E. Qed.

Lemma put_ok self k v self' :
  put self k v = (self', Ok tt) → db_view (handle self') = <[as_bytes k := v]> (db_view (handle self)).
Proof.
  unfold put. destruct (db_put (handle self) (as_bytes k) v) as [d [[]|e]] eqn:E; [|done].
  intros [= <-]. by apply db_put_view.
Qed.

Lemma put_err self k v self' e :
  put self k v = (self', Err e) → db_view (handle self') = db_view (handle self).
Proof.
  unfold put. destruct (db_put (handle self) (as_bytes k) v) as [d [[]|e']] eqn:E; [done|].
  intros [= <- _]. by eapply db_put_err.
Qed.

Lemma save_offset_at self sid off self' :
  save_offset self sid off = (self', Ok tt) →
  (∀ s, offset_at self' s = if decide (s = sid) then Some (as_bytes off) else offset_at self s) ∧
  (∀ s, schema_at self' s = schema_at self s).
Proof.
  intros H%put_ok. unfold offset_at, schema_at. split; intros s; rewrite H, lookup_insert.
  - repeat case_decide; [done|..]; [by apply offset_key_inj in H0 | congruence | done].
  - case_decide as E; [by apply offset_schema_key in E | done].
Qed.

(** A failed [save_offset] changes nothing. *)
Lemma save_offset_failed self sid off self' e :
  save_offset self sid off = (self', Err e) →
  (∀ s, offset_at self' s = offset_at self s) ∧ (∀ s, schema_at self' s = schema_at self s).
Proof. intros H%put_err. unfold offset_at, schema_at. by rewrite H. Qed.

Lemma save_schema_at self sid v self' :
  save_schema self sid v = (self', Ok tt) →
  ∃ b, value_to_vec v = Ok b ∧
  (∀ s, schema_at self' s = if decide (s = sid) then Some b else schema_at self s) ∧
  (∀ s, offset_at self' s = offset_at self s).
Proof.
  unfold save_schema. destruct (value_to_vec v) as [b|e] eqn:Eb; [|done].
  intros H%put_ok. exists b. split; [done|]. unfold offset_at, schema_at.
  split; intros s; rewrite H, lookup_insert.
  - repeat case_decide; [done|..]; [by apply schema_key_inj in H0 | congruence | done].
  - case_decide as E; [symmetry in E; by apply offset_schema_key in E | done].
Qed.

Lemma get_offset_at self sid o : get_offset self sid = Ok o →
  match offset_at self sid with
  | None => o = None
  | Some b => utf8_valid b = true ∧ o = Some (of_bytes b)
  end.
Proof.
  unfold get_offset, offset_at. destruct (db_get _ _) as [v|e] eqn:E; [|done].
  apply db_get_view in E as <-. destruct v as [b|]; cbn; [|by intros [= <-]].
  unfold from_utf8. by destruct (utf8_valid b); [intros [= <-]|].
Qed.

Lemma get_offset_readable self sid :
  db_readable (handle self) →
  get_offset self sid = match offset_at self sid with
                        | None => Ok None
                        | Some b => if utf8_valid b then Ok (Some (of_bytes b)) else Err (Utf8 (utf8_error 0 b))
                        end.
Proof.
  intros Hr. unfold get_offset, offset_at.
  destruct (Hr (as_bytes (offset_key sid))) as [o E]. rewrite E. apply db_get_view in E as <-.
  destruct o as [b|]; [|done]. cbn. unfold from_utf8. by destruct (utf8_valid b).
Qed.

Lemma get_schema_at self sid o : get_schema self sid = Ok o →
  match schema_at self sid with
  | None => o = None
  | Some b => ∃ v, value_from_slice b = Ok v ∧ o = Some v
  end.
Proof.
  unfold get_schema, schema_at. destruct (db_get _ _) as [v|e] eqn:E; [|done].
  apply db_get_view in E as <-. destruct v as [b|]; cbn; [|by intros [= <-]].
  destruct (value_from_slice b) as [v|]; [|done]. intros [= <-]. by exists v.
Qed.

Lemma get_schema_readable self sid :
  db_readable (handle self) →
  get_schema self sid = match schema_at self sid with
                        | None => Ok None
                        | Some b => try Serialization (value_from_slice b) (λ v, Ok (Some v))
                        end.
Proof.
  intros Hr. unfold get_schema, schema_at.
  destruct (Hr (as_bytes (schema_key sid))) as [o E]. rewrite E. apply db_get_view in E as <-.
  by destruct o.
Qed.

(** ** Properties *)

(** A saved offset is read back: after a successful [save_offset], [get_offset] of that source
    returns the offset unless the database fails to read, and every other source's offset and
    every schema are what they were. *)
Theorem save_get_offset (self self' : t) (sid off : string)
    (Hoff : is_str off) (Hsave : save_offset self sid off = (self', Ok tt)) :
  (∀ o, get_offset self' sid = Ok o → o = Some off) ∧
  (db_readable (handle self') → get_offset self' sid = Ok (Some off)) ∧
  (∀ s, s ≠ sid → offset_at self' s = offset_at self s) ∧
  (∀ s, schema_at self' s = schema_at self s).
Proof.
  apply save_offset_at in Hsave as [Ho Hs]. pose proof (Ho sid) as Hsid.
  rewrite decide_True in Hsid by done. split_and!; [| | |done].
  - intros o Hg%get_offset_at. rewrite Hsid in Hg. destruct Hg as [_ ->]. by rewrite of_as_bytes.
  - intros Hr. rewrite get_offset_readable, Hsid, of_as_bytes by done. by rewrite Hoff.
  - intros s Hne. by rewrite Ho, decide_False.
Qed.

(** A saved schema is read back as the same JSON value (for values the JSON library prints and
    parses without loss), and no offset and no other schema changes. *)
Theorem save_get_schema {JL : SerdeJsonLaws J} (self self' : t) (sid : string) (v : Value)
    (Hv : plain_value json_depth v = true) (Hsave : save_schema self sid v = (self', Ok tt)) :
  (∀ o, get_schema self' sid = Ok o → o = Some v) ∧
  (db_readable (handle self') → get_schema self' sid = Ok (Some v)) ∧
  (∀ s, s ≠ sid → schema_at self' s = schema_at self s) ∧
  (∀ s, offset_at self' s = offset_at self s).
Proof.
  apply save_schema_at in Hsave as (b & Hb & Hs & Ho). pose proof (Hs sid) as Hsid.
  rewrite decide_True in Hsid by done. apply (value_roundtrip v b Hv) in Hb. split_and!; [| | |done].
  - intros o Hg%get_schema_at. rewrite Hsid in Hg. destruct Hg as (v' & Hv' & ->). congruence.
  - intros Hr. by rewrite get_schema_readable, Hsid, Hb.
  - intros s Hne. by rewrite Hs, decide_False.
Qed.

End store.
Arguments StorageError : clear implicits.
Arguments t : clear implicits.
End StateStore.
