(* ===== verification/Reference.v ===== *)
(** Concrete instances of the external interfaces, on which the laws are proved and the witnesses
    run: an in-memory database and a lossless codec for JSON values and events.  They are not
    models of RocksDB or of serde_json; they show that the laws the theorems assume can hold. *)
From stdpp Require Import countable.
From S2P Require Import Prelude Text F64 Event Store.

(** ** An in-memory database *)

#[export] Instance mem_db : RocksDB := {
  db := gmap (list byte) (list byte);
  rocks_error := Empty_set;
  rocks_error_to_string e := match e with end;
  db_get d k := Ok (d !! k);
  db_put d k v := (<[k := v]> d, Ok tt);
}.

#[export] Instance mem_db_laws : RocksDBLaws mem_db.
Proof. refine {| db_view := λ d : @db mem_db, (d : gmap (list byte) (list byte)) |}; cbn; congruence. Defined.

Lemma mem_db_readable (d : @db mem_db) : db_readable d.
Proof. intros k. by eexists. Qed.

(** ** A lossless codec *)

#[export] Instance f64_eq_dec : EqDecision f64.
Proof. solve_decision. Defined.

Definition f64_code (x : f64) : (bool + bool) + (unit + (bool * positive * Z)) :=
  match x with
  | S754_zero s => inl (inl s)
  | S754_infinity s => inl (inr s)
  | S754_nan => inr (inl tt)
  | S754_finite s m e => inr (inr (s, m, e))
  end.

Definition f64_decode (c : (bool + bool) + (unit + (bool * positive * Z))) : f64 :=
  match c with
  | inl (inl s) => S754_zero s
  | inl (inr s) => S754_infinity s
  | inr (inl _) => S754_nan
  | inr (inr (s, m, e)) => S754_finite s m e
  end.

#[export] Program Instance f64_countable : Countable f64 := inj_countable' f64_code f64_decode _.
Next Obligation. by intros [ | | | ]. Qed.

Definition leaf : Type := bool + (Z + (Z + (f64 + string))).

Fixpoint value_tree (v : Value) : gen_tree leaf :=
  match v with
  | VNull => GenNode 0 []
  | VBool b => GenLeaf (inl b)
  | VNumber (PosInt n) => GenLeaf (inr (inl n))
  | VNumber (NegInt n) => GenLeaf (inr (inr (inl n)))
  | VNumber (Float x) => GenLeaf (inr (inr (inr (inl x))))
  | VString s => GenLeaf (inr (inr (inr (inr s))))
  | VArray l => GenNode 1 (map value_tree l)
  | VObject m =>
    GenNode 2 (map (λ '(k, x), GenNode 3 [GenLeaf (inr (inr (inr (inr k)))); value_tree x]) m)
  end.

Fixpoint tree_value (t : gen_tree leaf) : Value :=
  match t with
  | GenLeaf (inl b) => VBool b
  | GenLeaf (inr (inl n)) => VNumber (PosInt n)
  | GenLeaf (inr (inr (inl n))) => VNumber (NegInt n)
  | GenLeaf (inr (inr (inr (inl x)))) => VNumber (Float x)
  | GenLeaf (inr (inr (inr (inr s)))) => VString s
  | GenNode 1 l => VArray (map tree_value l)
  | GenNode 2 l =>
    VObject (map (λ t, match t with
                       | GenNode 3 [GenLeaf (inr (inr (inr (inr k)))); x] => (k, tree_value x)
                       | _ => (""%string, VNull)
                       end) l)
  | GenNode _ _ => VNull
  end.

Lemma tree_value_tree v : tree_value (value_tree v) = v.
Proof.
  induction v as [ | | [ | | ] | | l IH | m IH] using Value_ind'; try done; cbn; f_equal.
  - induction IH as [|x l E _ IHl]; cbn; [done|]. by rewrite E, IHl.
  - induction IH as [|[k x] m E _ IHm]; cbn in *; [done|]. by rewrite E, IHm.
Qed.

Definition str_tree (s : string) : gen_tree leaf := GenLeaf (inr (inr (inr (inr s)))).
Definition tree_str (t : gen_tree leaf) : string :=
  match t with GenLeaf (inr (inr (inr (inr s)))) => s | _ => "" end.

Definition opt_tree {A} (f : A → gen_tree leaf) (o : option A) : gen_tree leaf :=
  match o with Some a => GenNode 1 [f a] | None => GenNode 0 [] end.
Definition tree_opt {A} (f : gen_tree leaf → A) (t : gen_tree leaf) : option A :=
  match t with GenNode 1 [a] => Some (f a) | _ => None end.

Definition op_code (o : Operation) : Z :=
  match o with Create => 0 | Update => 1 | Delete => 2 | Snapshot => 3 | Commit => 4 | Rollback => 5 end.
Definition code_op (n : Z) : Operation :=
  match n with 0 => Create | 1 => Update | 2 => Delete | 3 => Snapshot | 4 => Commit | _ => Rollback end.

Definition event_tree (e : ChangeEvent) : gen_tree leaf :=
  GenNode 0 [str_tree e.(id); str_tree e.(source_database);
    str_tree e.(source_table_or_collection); GenLeaf (inr (inl (op_code e.(operation))));
    GenLeaf (inr (inl e.(timestamp))); value_tree e.(key); opt_tree value_tree e.(before);
    opt_tree value_tree e.(after); opt_tree str_tree e.(transaction_id); str_tree e.(offset)].

Definition tree_event (t : gen_tree leaf) : option ChangeEvent :=
  match t with
  | GenNode 0 [i; d; s; GenLeaf (inr (inl o)); GenLeaf (inr (inl ts)); k; b; a; tx; off] =>
    Some (MkEvent (tree_str i) (tree_str d) (tree_str s) (code_op o) ts (tree_value k)
      (tree_opt tree_value b) (tree_opt tree_value a) (tree_opt tree_str tx) (tree_str off))
  | _ => None
  end.

Lemma tree_event_tree e : tree_event (event_tree e) = Some e.
Proof.
  destruct e as [i d s o ts k b a tx off]. cbn. f_equal.
  f_equal; [by destruct o | apply tree_value_tree |..].
  - destruct b; [|done]. cbn. by rewrite tree_value_tree.
  - destruct a; [|done]. cbn. by rewrite tree_value_tree.
  - by destruct tx.
Qed.

Fixpoint pos_bytes (p : positive) : list byte :=
  match p with xH => [] | xO p => x00 :: pos_bytes p | xI p => x01 :: pos_bytes p end.
Fixpoint bytes_pos (l : list byte) : positive :=
  match l with [] => xH | x00 :: l => xO (bytes_pos l) | _ :: l => xI (bytes_pos l) end.

Lemma bytes_pos_bytes p : bytes_pos (pos_bytes p) = p.
Proof. induction p; cbn; congruence. Qed.

Definition tree_bytes (t : gen_tree leaf) : list byte := pos_bytes (encode t).
Definition bytes_tree (l : list byte) : option (gen_tree leaf) := decode (bytes_pos l).

Lemma bytes_tree_bytes t : bytes_tree (tree_bytes t) = Some t.
Proof. unfold bytes_tree, tree_bytes. by rewrite bytes_pos_bytes, decode_encode. Qed.

#[export] Instance tree_json : SerdeJson := {
  json_error := unit;
  value_to_string v := match v with VString s => s | _ => "?" end;
  value_debug v := match v with VString s => s | _ => "?" end;
  value_to_vec v := Ok (tree_bytes (value_tree v));
  value_from_slice b := match bytes_tree b with Some t => Ok (tree_value t) | None => Err tt end;
  event_to_vec e := Ok (tree_bytes (event_tree e));
  event_from_slice b :=
    match bytes_tree b ≫= tree_event with Some e => Ok e | None => Err tt end;
  simd_to_string e := Ok e.(id);
  json_error_to_string _ := "error";
}.

#[export] Instance tree_json_laws : SerdeJsonLaws tree_json.
Proof.
  split.
  - intros v b _ [= <-]. cbn. by rewrite bytes_tree_bytes, tree_value_tree.
  - intros e b _ [= <-]. cbn. rewrite bytes_tree_bytes. cbn [mbind option_bind]. by rewrite tree_event_tree.
Defined.

(** ** Witnesses of the store's properties *)

Definition empty_store : StateStore.t mem_db := StateStore.Mk (∅ : gmap (list byte) (list byte)).

Lemma save_get_offset_witness :
  StateStore.get_offset (StateStore.save_offset empty_store "pg_users" "offset-99").1 "pg_users"
    = Ok (Some "offset-99"%string).
Proof.
  apply (StateStore.save_get_offset empty_store
    (StateStore.save_offset empty_store "pg_users" "offset-99").1 "pg_users" "offset-99");
    [reflexivity | reflexivity | apply mem_db_readable].
Defined.

Definition user_schema : Value :=
  json_object [("fields", json_object [("id", VString "integer"); ("name", VString "string")])].

Lemma save_get_schema_witness :
  StateStore.get_schema (StateStore.save_schema empty_store "pg_users" user_schema).1 "pg_users"
    = Ok (Some user_schema).
Proof.
  apply (StateStore.save_get_schema empty_store
    (StateStore.save_schema empty_store "pg_users" user_schema).1 "pg_users" user_schema);
    [reflexivity | reflexivity | apply mem_db_readable].
Defined.
