(* ===== verification/Schema.v ===== *)
(** [SchemaRegistry] ([src/storage/schema.rs]): compatibility of schema versions and validation of
    event payloads against the registered schema. *)
From S2P Require Import Prelude Text F64 Event Store Reference.

Module SchemaRegistry.

(** [None_] is the source's [None]. *)
Inductive SchemaCompatibility := None_ | Backward | Forward | Full.

#[export] Instance SchemaCompatibility_eq_dec : EqDecision SchemaCompatibility.
Proof. solve_decision. Defined.

Section schema.
Context `{R : RocksDB} `{J : SerdeJson}.
Abbreviation store := (@StateStore.t R).

Inductive SchemaError :=
  | Storage (e : @StateStore.StorageError R J)
  | Incompatibility (msg : string)
  | Validation (msg : string).

(** [Display], from the [#[error]] attributes. *)
Definition error_to_string (e : SchemaError) : string :=
  match e with
  | Storage e => "Storage error: " ++ StateStore.error_to_string e
  | Incompatibility msg => "Incompatible schema change: " ++ msg
  | Validation msg => "Validation failed: " ++ msg
  end%string.

Abbreviation fields_t := (list (string * Value)).

(** [schema.get("fields").and_then(|f| f.as_object())] *)
Definition schema_fields (schema : Value) : option fields_t :=
  f ← value_get schema "fields"; as_object f.

(** 1. Type changes in common fields. *)
Fixpoint check_types (old_fields new_fields : fields_t) : Result unit SchemaError :=
  match old_fields with
  | [] => Ok tt
  | (field_name, old_type) :: rest =>
    match bt_get field_name new_fields with
    | Some new_type =>
      if negb (value_eqb old_type new_type)
      then Err (Incompatibility ("Field '" ++ field_name ++ "' type changed from "
                 ++ value_debug old_type ++ " to " ++ value_debug new_type))
      else check_types rest new_fields
    | None => check_types rest new_fields
    end
  end.

(** [for field_name in names { if !fields.contains_key(field_name) { return Err(..) } }] *)
Fixpoint check_contained (names fields : fields_t) (err : string → SchemaError) :
    Result unit SchemaError :=
  match names with
  | [] => Ok tt
  | (field_name, _) :: rest =>
    if negb (bt_contains field_name fields) then Err (err field_name)
    else check_contained rest fields err
  end.

Definition deleted_err (kind field_name : string) : SchemaError :=
  Incompatibility (kind ++ " compatibility violation: Field '" ++ field_name ++ "' was deleted").
Definition new_field_err (field_name : string) : SchemaError :=
  Incompatibility ("Forward compatibility violation: New field '" ++ field_name ++ "' added").
Definition added_err (field_name : string) : SchemaError :=
  Incompatibility ("Full compatibility violation: Field '" ++ field_name ++ "' was added").

Definition check_compatibility (old_schema new_schema : Value) (mode : SchemaCompatibility) :
    Result unit SchemaError :=
  if decide (mode = None_) then Ok tt else
  try same (ok_or (schema_fields old_schema)
            (Incompatibility "Old schema missing 'fields' object")) (fun old_fields =>
  try same (ok_or (schema_fields new_schema)
            (Incompatibility "New schema missing 'fields' object")) (fun new_fields =>
  try same (check_types old_fields new_fields) (fun _ =>
  match mode with
  | Backward => check_contained old_fields new_fields (deleted_err "Backward")
  | Forward => check_contained new_fields old_fields new_field_err
  | Full =>
    try same (check_contained old_fields new_fields (deleted_err "Full")) (fun _ =>
    check_contained new_fields old_fields added_err)
  | None_ => Ok tt
  end))).

(** [self] is the store; the schema is saved only after the check has passed. *)
Definition register_schema (self : store) (source_id : string) (new_schema : Value)
    (mode : SchemaCompatibility) : store * Result unit SchemaError :=
  match StateStore.get_schema self source_id with
  | Err e => (self, Err (Storage e))
  | Ok old =>
    let checked := match old with
                   | Some old_schema => check_compatibility old_schema new_schema mode
                   | None => Ok tt
                   end in
    match checked with
    | Err e => (self, Err e)
    | Ok _ =>
      let '(self', r) := StateStore.save_schema self source_id new_schema in
      (self', try Storage r Ok)
    end
  end.

(** One field of a payload. [as_f64().unwrap()] panics where the value is not a number. *)
Definition check_field (payload_obj : fields_t) (field_name : string) (type_val : Value) :
    Outcome (Result unit SchemaError) :=
  match as_str type_val with
  | None => Ret (Err (Validation ("Schema type for '" ++ field_name ++ "' is not a string")))
  | Some expected_type =>
    match bt_get field_name payload_obj with
    | None => Ret (Err (Validation ("Missing required field '" ++ field_name ++ "'")))
    | Some val =>
      let mismatch ty := Err (Validation ("Field '" ++ field_name ++ "' expected " ++ ty
                                           ++ ", found " ++ value_debug val)) in
      if String.eqb expected_type "integer" then
        if negb (is_number val) then Ret (mismatch "integer")
        else match as_f64 val with
             | None => Panic
             | Some x =>
               Ret (if negb (f64_eqb (f64_fract x) f64_zero) then mismatch "integer" else Ok tt)
             end
      else if String.eqb expected_type "string" then
        Ret (if negb (is_string val) then mismatch "string" else Ok tt)
      else if String.eqb expected_type "boolean" then
        Ret (if negb (is_boolean val) then mismatch "boolean" else Ok tt)
      else if String.eqb expected_type "float" then
        Ret (if negb (is_number val) then mismatch "float" else Ok tt)
      else Ret (Err (Validation ("Unsupported schema type: " ++ expected_type)))
    end
  end.

Fixpoint check_fields (payload_obj fields : fields_t) : Outcome (Result unit SchemaError) :=
  match fields with
  | [] => Ret (Ok tt)
  | (field_name, type_val) :: rest =>
    r ← check_field payload_obj field_name type_val;
    match r with Err e => Ret (Err e) | Ok _ => check_fields payload_obj rest end
  end.

Definition validate_event (self : store) (source_id : string) (event : ChangeEvent) :
    Outcome (Result unit SchemaError) :=
  match StateStore.get_schema self source_id with
  | Err e => Ret (Err (Storage e))
  | Ok None => Ret (Ok tt)
  | Ok (Some schema) =>
    match schema_fields schema with
    | None => Ret (Err (Validation "Registered schema missing 'fields' object"))
    | Some fields =>
      if negb (bool_decide (event.(operation) = Create))
         && negb (bool_decide (event.(operation) = Update))
      then Ret (Ok tt)
      else match event.(after) with
           | Some payload =>
             match as_object payload with
             | None => Ret (Err (Validation "Event payload is not a JSON object"))
             | Some payload_obj => check_fields payload_obj fields
             end
           | None => Ret (Err (Validation "Event payload 'after' is missing"))
           end
    end
  end.

(** ** Specification *)

(** The value has the type the schema names. *)
Definition has_type (ty : string) (v : Value) : bool :=
  if String.eqb ty "integer" then
    match as_f64 v with Some x => f64_eqb (f64_fract x) f64_zero | None => false end
  else if String.eqb ty "string" then is_string v
  else if String.eqb ty "boolean" then is_boolean v
  else if String.eqb ty "float" then is_number v
  else false.

Definition field_ok (obj : fields_t) (field : string * Value) : bool :=
  match field.2 with
  | VString ty => match bt_get field.1 obj with Some v => has_type ty v | None => false end
  | _ => false
  end.

Definition payload_ok (fields obj : fields_t) : Prop := Forall (λ f, field_ok obj f = true) fields.

Definition types_agree (old new : fields_t) : Prop :=
  ∀ k ty ty', (k, ty) ∈ old → bt_get k new = Some ty' → value_eqb ty ty' = true.

Definition keys_within (a b : fields_t) : Prop := ∀ k, k ∈ a.*1 → k ∈ b.*1.

Definition compatible (mode : SchemaCompatibility) (old new : fields_t) : Prop :=
  types_agree old new ∧
  match mode with
  | None_ => True
  | Backward => keys_within old new
  | Forward => keys_within new old
  | Full => keys_within old new ∧ keys_within new old
  end.

(** ** Lemmas *)

Lemma check_types_ok old new : check_types old new = Ok tt ↔ types_agree old new.
Proof.
  unfold types_agree. induction old as [|[k ty] old IH]; cbn.
  { split; [|done]. by intros _ k ty ty' ?%not_elem_of_nil. }
  destruct (bt_get k new) as [ty'|] eqn:E; cycle 1.
  { rewrite IH. split; intros H k' t t' Hin Hg; [|by eapply H; [right|]].
    apply elem_of_cons in Hin as [[= -> ->]|Hin]; [congruence | by eapply H]. }
  destruct (value_eqb ty ty') eqn:Ev; cbn.
  - rewrite IH. split; intros H k' t t' Hin Hg; [|by eapply H; [right|]].
    apply elem_of_cons in Hin as [[= -> ->]|Hin]; [congruence | by eapply H].
  - split; [done|]. intros H. rewrite (H k ty ty') in Ev; [done | left | done].
Qed.

Lemma check_contained_ok a b err : check_contained a b err = Ok tt ↔ keys_within a b.
Proof.
  unfold keys_within. induction a as [|[k v] a IH]; cbn.
  { split; [|done]. by intros _ k ?%not_elem_of_nil. }
  destruct (bt_contains k b) eqn:E; cbn.
  - apply bt_contains_keys in E. rewrite IH. setoid_rewrite elem_of_cons. naive_solver.
  - split; [done|]. intros H. assert (bt_contains k b = true) by (apply bt_contains_keys, H; left).
    congruence.
Qed.

Lemma check_field_ok obj k ty :
  check_field obj k ty = Ret (Ok tt) ↔ field_ok obj (k, ty) = true.
Proof.
  unfold check_field, field_ok, has_type, as_str. cbn [fst snd].
  destruct ty as [| | |s| |]; try (by split; [intros [=] | intros [=]]).
  destruct (bt_get k obj) as [v|]; [|by split; intros [=]].
  destruct (String.eqb s "integer").
  { destruct v as [| |[n|n|x]| | |]; cbn [is_number as_f64 negb]; try done;
      destruct (f64_eqb _ _); naive_solver. }
  repeat (destruct (String.eqb s _); [destruct v; naive_solver|]). done.
Qed.

Lemma check_field_total obj k ty : ∃ r, check_field obj k ty = Ret r.
Proof.
  unfold check_field, as_str. destruct ty; eauto. destruct (bt_get k obj) as [v|]; eauto.
  repeat case_match; eauto. by destruct v as [| |[]| | |].
Qed.

Lemma check_fields_ok obj fields : check_fields obj fields = Ret (Ok tt) ↔ payload_ok fields obj.
Proof.
  unfold payload_ok. induction fields as [|[k ty] fields IH]; cbn; [by split|].
  rewrite Forall_cons, <- IH, <- check_field_ok.
  destruct (check_field_total obj k ty) as [[[]|e] ->]; cbn; naive_solver.
Qed.

Lemma check_fields_total obj fields : ∃ r, check_fields obj fields = Ret r.
Proof.
  induction fields as [|[k ty] fields IH]; cbn; [eauto|].
  destruct (check_field_total obj k ty) as [[[]|e] ->]; cbn; eauto.
Qed.

(** A field of [new] with the name of a field of [old] accepts the same values. *)
Lemma value_eqb_str_l v s : value_eqb v (VString s) = true → v = VString s.
Proof. destruct v as [| |[]|s'| |]; cbn; try done. by intros ->%String.eqb_eq. Qed.

Lemma compatible_payload old new obj :
  types_agree old new → keys_within old new → payload_ok new obj → payload_ok old obj.
Proof.
  unfold payload_ok. rewrite !Forall_forall. intros Ht Hk Hnew [k ty] Hin.
  assert (Hc : bt_contains k new = true).
  { apply bt_contains_keys, Hk. apply list_elem_of_fmap. by exists (k, ty). }
  unfold bt_contains in Hc. destruct (bt_get k new) as [ty'|] eqn:E; [|done].
  pose proof (Hnew _ (bt_get_elem _ _ _ E)) as Hf. specialize (Ht _ _ _ Hin E).
  unfold field_ok in Hf |- *. cbn in *. destruct ty' as [| | |s| |]; try done.
  by apply value_eqb_str_l in Ht as ->.
Qed.

Lemma check_compatibility_ok old new mode :
  mode ≠ None_ →
  check_compatibility old new mode = Ok tt ↔
  ∃ fo fn, schema_fields old = Some fo ∧ schema_fields new = Some fn ∧ compatible mode fo fn.
Proof.
  intros Hm. unfold check_compatibility. rewrite decide_False by done.
  destruct (schema_fields old) as [fo|]; [|by split; [|intros (?&?&[=]&?)]].
  destruct (schema_fields new) as [fn|]; [|by split; [|intros (?&?&?&[=]&?)]]. cbn.
  trans (compatible mode fo fn); [|naive_solver]. unfold compatible. rewrite <- check_types_ok.
  destruct (check_types fo fn) as [[]|]; cbn; [|naive_solver].
  destruct mode; [done|..].
  - rewrite check_contained_ok. naive_solver.
  - rewrite check_contained_ok. naive_solver.
  - rewrite <- (check_contained_ok fo fn (deleted_err "Full")).
    destruct (check_contained fo fn _) as [[]|]; cbn; [|naive_solver].
    rewrite check_contained_ok. naive_solver.
Qed.

Lemma validate_event_total self sid e : ∃ r, validate_event self sid e = Ret r.
Proof.
  unfold validate_event. destruct (StateStore.get_schema self sid) as [[v|]|]; eauto.
  destruct (schema_fields v); eauto. case_match; eauto.
  destruct (after e) as [p|]; eauto. destruct (as_object p); eauto using check_fields_total.
Qed.

(** Whether [validate_event] looks at the payload. *)
Definition validated (e : ChangeEvent) : bool :=
  match e.(operation) with Create | Update => true | _ => false end.

Lemma validated_guard e :
  negb (bool_decide (e.(operation) = Create)) && negb (bool_decide (e.(operation) = Update))
    = negb (validated e).
Proof. unfold validated. by destruct (operation e). Qed.

Lemma validate_event_ok self sid e :
  validate_event self sid e = Ret (Ok tt) ↔
  StateStore.get_schema self sid = Ok None ∨
  ∃ schema fields, StateStore.get_schema self sid = Ok (Some schema) ∧
    schema_fields schema = Some fields ∧
    (validated e = true → ∃ obj, e.(after) = Some (VObject obj) ∧ payload_ok fields obj).
Proof.
  unfold validate_event. rewrite validated_guard.
  destruct (StateStore.get_schema self sid) as [[v|]|];
    [|by split; [left|]|split; [done | intros [?|(?&?&?&?&?)]; congruence]].
  destruct (schema_fields v) as [fs|] eqn:Ef;
    [|split; [done | intros [?|(?&?&?&?&?)]; congruence]].
  trans (validated e = true → ∃ obj, e.(after) = Some (VObject obj) ∧ payload_ok fs obj); cycle 1.
  { split; [by right; exists v, fs|]. intros [?|(s & fs' & [= <-] & Hf & Hp)]; [done|].
    by rewrite Ef in Hf; injection Hf as <-. }
  destruct (validated e); cbn [negb]; [|done].
  destruct (after e) as [p|]; [|split; [done | naive_solver]].
  destruct p as [| | | | |obj]; cbn [as_object]; try (split; [done | naive_solver]).
  rewrite check_fields_ok. naive_solver.
Qed.

Lemma missing_field_rejected self sid k new fn e obj :
  StateStore.get_schema self sid = Ok (Some new) → schema_fields new = Some fn → k ∈ fn.*1 →
  validated e = true → e.(after) = Some (VObject obj) → bt_get k obj = None →
  ∃ err, validate_event self sid e = Ret (Err err).
Proof.
  intros Hnew Hfn Hk He Hobj Hmiss.
  destruct (validate_event_total self sid e) as [[[]|err] Hr]; [|eauto]. exfalso.
  apply validate_event_ok in Hr as [Hn|(s & fs & Hg & Hf & Hp)]; [congruence|].
  assert (s = new) as -> by congruence. assert (fs = fn) as -> by congruence.
  destruct (Hp He) as (obj' & Ho & Hpo). assert (obj' = obj) as -> by congruence.
  apply list_elem_of_fmap in Hk as ([k' ty] & -> & Hin). unfold payload_ok in Hpo.
  rewrite Forall_forall in Hpo. apply Hpo in Hin. unfold field_ok in Hin. cbn in *.
  rewrite Hmiss in Hin. by destruct ty.
Qed.

Lemma register_schema_saved self sid new mode self' :
  register_schema self sid new mode = (self', Ok tt) →
  StateStore.save_schema self sid new = (self', Ok tt) ∧
  (∀ old, StateStore.get_schema self sid = Ok (Some old) →
     check_compatibility old new mode = Ok tt).
Proof.
  unfold register_schema. destruct (StateStore.get_schema self sid) as [o|]; [|done].
  destruct (match o with Some _ => _ | None => _ end) as [[]|] eqn:Ec; [|done].
  destruct (StateStore.save_schema self sid new) as [s [[]|]]; [|done]. intros [= <-].
  split; [done|]. by intros old [= ->].
Qed.

(** ** Properties *)

(** C28. [check_compatibility] accepts exactly the compatible evolutions: with mode [None]
    everything; otherwise both schemas have a [fields] object, no common field changes its type,
    and no field is deleted (Backward), added (Forward), or either (Full). *)
Theorem check_compatibility_spec (old new : Value) (mode : SchemaCompatibility) :
  check_compatibility old new mode = Ok tt ↔
  mode = None_ ∨
  ∃ fo fn, schema_fields old = Some fo ∧ schema_fields new = Some fn ∧ compatible mode fo fn.
Proof.
  destruct (decide (mode = None_)) as [->|Hm].
  - unfold check_compatibility. rewrite decide_True by done. naive_solver.
  - rewrite check_compatibility_ok by done. naive_solver.
Qed.

(** Full compatibility is the conjunction of Backward and Forward compatibility. *)
Theorem full_iff_backward_forward (old new : Value) :
  check_compatibility old new Full = Ok tt ↔
  check_compatibility old new Backward = Ok tt ∧ check_compatibility old new Forward = Ok tt.
Proof. rewrite !check_compatibility_ok by done. unfold compatible. naive_solver. Qed.

(** C29. [validate_event] never panics (its [unwrap] is guarded) and accepts an event exactly when
    no schema is registered, or the registered schema has a [fields] object and, for a Create or
    Update, the payload is an object in which every field of the schema is present with its type. *)
Theorem validate_event_spec (self : store) (sid : string) (e : ChangeEvent) :
  (∃ r, validate_event self sid e = Ret r) ∧
  (validate_event self sid e = Ret (Ok tt) ↔
   StateStore.get_schema self sid = Ok None ∨
   ∃ schema fields, StateStore.get_schema self sid = Ok (Some schema) ∧
     schema_fields schema = Some fields ∧
     (validated e = true → ∃ obj, e.(after) = Some (VObject obj) ∧ payload_ok fields obj)).
Proof. split; [apply validate_event_total | apply validate_event_ok]. Qed.

Context {L : RocksDBLaws R}.

(** C30. [register_schema] is gated: when it fails, no schema and no offset in the store has changed;
    when it succeeds, the schema it replaced was compatible, the source's schema is the new one
    and nothing else has changed. *)
Theorem register_schema_gate (self self' : store) (sid : string) (new : Value)
    (mode : SchemaCompatibility) (r : Result unit SchemaError)
    (Hreg : register_schema self sid new mode = (self', r)) :
  (∀ s, StateStore.offset_at self' s = StateStore.offset_at self s) ∧
  match r with
  | Err _ => ∀ s, StateStore.schema_at self' s = StateStore.schema_at self s
  | Ok _ =>
    (∀ old, StateStore.get_schema self sid = Ok (Some old) →
       check_compatibility old new mode = Ok tt) ∧
    ∃ b, value_to_vec new = Ok b ∧ ∀ s, StateStore.schema_at self' s =
      if decide (s = sid) then Some b else StateStore.schema_at self s
  end.
Proof.
  destruct r as [[]|e].
  - apply register_schema_saved in Hreg as [Hs Hc].
    apply StateStore.save_schema_at in Hs as (b & Hb & Hs & Ho). eauto.
  - assert (H : db_view (StateStore.handle self') = db_view (StateStore.handle self)).
    { revert Hreg. unfold register_schema. destruct (StateStore.get_schema self sid) as [o|];
        [|by intros [= <- _]].
      destruct (match o with Some _ => _ | None => _ end); [|by intros [= <- _]].
      destruct (StateStore.save_schema self sid new) as [s [[]|]] eqn:Es; [done|].
      intros [= <- _]. revert Es. unfold StateStore.save_schema.
      destruct (value_to_vec new); [apply StateStore.put_err | by intros [= <- _]]. }
    unfold StateStore.offset_at, StateStore.schema_at. by rewrite H.
Qed.

(** C17. What Backward guarantees: after a successful Backward registration over a schema, [validate_event] against
    the new one accepts no event that it did not accept against the old one (every field of the old schema is
    in the new one, with the same type).  The new schema is a JSON value that the JSON library reads back as it printed it, by its
    documented round trip (no floats, valid UTF-8, nesting within the limit of the parser: [plain_value]).
    (An event that the old schema accepts may be rejected by the new one: [added_field_rejects_old_data].) *)
Theorem backward_evolution {JL : SerdeJsonLaws J} (self self' : store) (sid : string)
    (old new : Value) (e : ChangeEvent)
    (Hold : StateStore.get_schema self sid = Ok (Some old))
    (Hplain : plain_value json_depth new = true)
    (Hreg : register_schema self sid new Backward = (self', Ok tt))
    (Hval : validate_event self' sid e = Ret (Ok tt)) :
  validate_event self sid e = Ret (Ok tt).
Proof.
  apply register_schema_saved in Hreg as [Hs Hc]. specialize (Hc _ Hold).
  apply check_compatibility_ok in Hc as (fo & fn & Hfo & Hfn & Ht & Hk); [|done].
  apply StateStore.save_schema_at in Hs as (b & Hb & Hsc & _). specialize (Hsc sid).
  rewrite decide_True in Hsc by done. apply (value_roundtrip _ _ Hplain) in Hb.
  assert (Hget : ∀ o, StateStore.get_schema self' sid = Ok o → o = Some new).
  { intros o Ho%StateStore.get_schema_at. rewrite Hsc in Ho.
    destruct Ho as (v & Hv & ->). congruence. }
  apply validate_event_ok. right. exists old, fo. split_and!; [done..|]. intros Hv.
  apply validate_event_ok in Hval as [Hn|(s & fs & Hg & Hf & Hp)]; [by apply Hget in Hn|].
  apply Hget in Hg as [= ->]. assert (fs = fn) as -> by congruence.
  destruct (Hp Hv) as (obj & Ho & Hpo). eauto using compatible_payload.
Qed.

(** What Backward does not guarantee, though its comment says so ("new schema must be able to
    read old data"): a payload without a field of the new schema is rejected, so each field that
    a Backward evolution adds makes the old data invalid. *)
Theorem added_field_rejects_old_data (self : store) (sid k : string) (new : Value) (fn : fields_t)
    (e : ChangeEvent) (obj : fields_t)
    (Hnew : StateStore.get_schema self sid = Ok (Some new)) (Hfn : schema_fields new = Some fn)
    (Hk : k ∈ fn.*1) (He : validated e = true) (Hobj : e.(after) = Some (VObject obj))
    (Hmiss : bt_get k obj = None) :
  ∃ err, validate_event self sid e = Ret (Err err).
Proof.
  by eapply missing_field_rejected.
Qed.
End schema.
Arguments SchemaError : clear implicits.

(** ** Witnesses *)

Definition old_schema : Value := user_schema.
Definition new_schema : Value :=
  json_object [("fields", json_object [("id", VString "integer"); ("name", VString "string");
                                       ("email", VString "string")])].

Definition old_store : StateStore.t mem_db :=
  (register_schema empty_store "pg_users" old_schema Backward).1.
Definition new_store : StateStore.t mem_db :=
  (register_schema old_store "pg_users" new_schema Backward).1.

Definition user_event (payload : Value) : ChangeEvent :=
  MkEvent "evt-1" "db" "users" Create 0 VNull None (Some payload) None "1".

Definition old_payload : Value :=
  json_object [("id", VNumber (PosInt 1)); ("name", VString "John")].
Definition new_payload : Value :=
  json_object [("id", VNumber (PosInt 1)); ("name", VString "John"); ("email", VString "j@x")].

Lemma register_schema_gate_witness :
  check_compatibility (R:=mem_db) old_schema new_schema Backward = Ok tt.
Proof.
  destruct (register_schema_gate old_store new_store "pg_users" new_schema Backward (Ok tt))
    as (_ & H & _); [by_eval|]. apply H. by_eval.
Defined.

Lemma backward_evolution_witness :
  validate_event old_store "pg_users" (user_event new_payload) = Ret (Ok tt).
Proof.
  apply (backward_evolution old_store new_store "pg_users" old_schema new_schema); by_eval.
Defined.

Lemma added_field_rejects_old_data_witness :
  validate_event old_store "pg_users" (user_event old_payload) = Ret (Ok tt) ∧
  ∃ err, validate_event new_store "pg_users" (user_event old_payload) = Ret (Err err).
Proof.
  split; [by_eval|].
  apply (added_field_rejects_old_data new_store "pg_users" "email" new_schema
    [("email", VString "string"); ("id", VString "integer"); ("name", VString "string")]
    (user_event old_payload) [("id", VNumber (PosInt 1)); ("name", VString "John")]);
    try by_eval. left.
Defined.
End SchemaRegistry.
