(* ===== verification/Confluent.v ===== *)
(** [ConfluentRegistryClient] ([src/storage/confluent.rs]): schema ids per subject, their registration by
    concurrent callers, and the five-byte wire header. *)
From S2P Require Import Prelude Text F64 Event Store Reference.

(** [u32::to_be_bytes] and [u32::from_be_bytes]. *)
Definition to_be_bytes (n : Z) : list byte :=
  [byte_of (Z.shiftr n 24); byte_of (Z.shiftr n 16); byte_of (Z.shiftr n 8); byte_of n].

Definition from_be_bytes (b0 b1 b2 b3 : byte) : Z :=
  Z.lor (Z.lor (Z.lor (Z.shiftl (byte_val b0) 24) (Z.shiftl (byte_val b1) 16))
               (Z.shiftl (byte_val b2) 8)) (byte_val b3).

Module ConfluentRegistryClient.

(** ** The component *)

Record t := Mk {
  registry_url : string;
  next_schema_id : Z;               (* RwLock<u32> *)
  schema_cache : gmap string Z;     (* RwLock<HashMap<String, u32>> *)
}.

Definition new (registry_url : string) : t := Mk registry_url 100 ∅.

(** The part of [register_schema] under the two write locks. *)
Definition assign (p : Profile) (self : t) (subject : string) : Outcome (t * Z) :=
  let assigned_id := self.(next_schema_id) in
  next ← add_w 32 p assigned_id 1;
  Ret (Mk self.(registry_url) next (<[subject := assigned_id]> self.(schema_cache)), assigned_id).

Definition register_schema (p : Profile) (self : t) (subject schema_json : string) :
    Outcome (t * Z) :=
  match self.(schema_cache) !! subject with
  | Some id => Ret (self, id)
  | None => assign p self subject
  end.

Definition encode_wire_format (self : t) (schema_id : Z) (payload_bytes : list byte) : list byte :=
  x00 :: to_be_bytes schema_id ++ payload_bytes.

Definition decode_wire_format (self : t) (buffer : list byte) : Result (Z * list byte) string :=
  if (length buffer <? 5)%nat then Err "Buffer too short for Confluent wire format header"
  else match buffer with
  | b0 :: b1 :: b2 :: b3 :: b4 :: rest =>
    if negb (byte_val b0 =? 0)
    then Err ("Invalid magic byte: expected 0x00, got 0x" ++ hex_byte b0)%string
    else Ok (from_be_bytes b1 b2 b3 b4, rest)
  | _ => Err ""   (* fewer than five bytes: excluded by the test *)
  end.

(** *** Concurrent callers

    A call releases the read lock before it takes the write locks, so that calls interleave
    between the two steps. *)
Inductive pc :=
  | Start (subject : string)
  | Missed (subject : string)        (* the cache was read and had no entry *)
  | Done (subject : string) (id : Z).

Inductive step (p : Profile) : t * list pc → t * list pc → Prop :=
  | step_hit self i ts s id :
      ts !! i = Some (Start s) → self.(schema_cache) !! s = Some id →
      step p (self, ts) (self, <[i := Done s id]> ts)
  | step_miss self i ts s :
      ts !! i = Some (Start s) → self.(schema_cache) !! s = None →
      step p (self, ts) (self, <[i := Missed s]> ts)
  | step_assign self i ts s self' id :
      ts !! i = Some (Missed s) → assign p self s = Ret (self', id) →
      step p (self, ts) (self', <[i := Done s id]> ts).

(** ** Invariants *)

(** Ids have the width of [u32] and belong to one subject; the counter is above them all. *)
Record wf (self : t) : Prop := {
  wf_next : in_range 32 self.(next_schema_id);
  wf_below s id : self.(schema_cache) !! s = Some id → 0 ≤ id < self.(next_schema_id);
  wf_inj s s' id : self.(schema_cache) !! s = Some id → self.(schema_cache) !! s' = Some id → s = s';
}.

(** Every id handed out is below the counter and belongs to one subject, cached or not. *)
Definition threads_ok (c : t * list pc) : Prop :=
  let '(self, ts) := c in
  wf self ∧
  (∀ i s id, ts !! i = Some (Done s id) → 0 ≤ id < self.(next_schema_id)) ∧
  (∀ i s id s', ts !! i = Some (Done s id) → self.(schema_cache) !! s' = Some id → s = s') ∧
  (∀ i j s s' id, ts !! i = Some (Done s id) → ts !! j = Some (Done s' id) → s = s').

(** ** Lemmas *)

Lemma length_to_be_bytes n : length (to_be_bytes n) = 4%nat.
Proof. done. Qed.

Lemma from_be_bytes_sum b0 b1 b2 b3 :
  from_be_bytes b0 b1 b2 b3 =
    ((byte_val b0 * 256 + byte_val b1) * 256 + byte_val b2) * 256 + byte_val b3.
Proof.
  unfold from_be_bytes.
  pose proof (byte_val_range b0). pose proof (byte_val_range b1).
  pose proof (byte_val_range b2). pose proof (byte_val_range b3).
  assert (Hlor : ∀ a b k, 0 ≤ k → 0 ≤ b < 2 ^ k → Z.lor (a * 2 ^ k) b = a * 2 ^ k + b).
  { intros a b k Hk Hb. assert (Z.land (a * 2 ^ k) b = 0) as Hl.
    { apply Z.bits_inj'. intros n Hn. rewrite Z.land_spec, Z.bits_0.
      destruct (decide (n < k)); [by rewrite Z.mul_pow2_bits_low|].
      rewrite <- (Z.mod_small b (2 ^ k)), (Z.mod_pow2_bits_high b) by lia. apply andb_false_r. }
    by rewrite Z.add_nocarry_lxor, Z.lxor_lor. }
  rewrite !Z.shiftl_mul_pow2 by lia.
  rewrite <- !Z.lor_assoc.
  rewrite (Hlor (byte_val b2) (byte_val b3) 8) by lia.
  rewrite (Hlor (byte_val b1) _ 16) by lia. rewrite (Hlor (byte_val b0) _ 24) by lia. lia.
Qed.

Lemma from_be_bytes_range b0 b1 b2 b3 : in_range 32 (from_be_bytes b0 b1 b2 b3).
Proof.
  rewrite from_be_bytes_sum. unfold in_range.
  pose proof (byte_val_range b0). pose proof (byte_val_range b1).
  pose proof (byte_val_range b2). pose proof (byte_val_range b3). lia.
Qed.

Lemma from_to_be_bytes n : in_range 32 n →
  from_be_bytes (byte_of (Z.shiftr n 24)) (byte_of (Z.shiftr n 16)) (byte_of (Z.shiftr n 8))
    (byte_of n) = n.
Proof.
  intros [? Hn]. rewrite from_be_bytes_sum, !byte_val_of, !Z.shiftr_div_pow2 by lia.
  change (2 ^ 24) with 16777216. change (2 ^ 16) with 65536. change (2 ^ 8) with 256.
  change (2 ^ 32) with 4294967296 in Hn.
  div_lia.
Qed.

Lemma to_from_be_bytes b0 b1 b2 b3 : to_be_bytes (from_be_bytes b0 b1 b2 b3) = [b0; b1; b2; b3].
Proof.
  rewrite from_be_bytes_sum. unfold to_be_bytes. rewrite !Z.shiftr_div_pow2 by lia.
  change (2 ^ 24) with 16777216. change (2 ^ 16) with 65536. change (2 ^ 8) with 256.
  pose proof (byte_val_range b0). pose proof (byte_val_range b1).
  pose proof (byte_val_range b2). pose proof (byte_val_range b3).
  repeat f_equal; apply byte_val_inj; rewrite byte_val_of; div_lia.
Qed.

Lemma decode_encode self self' id payload : in_range 32 id →
  decode_wire_format self (encode_wire_format self' id payload) = Ok (id, payload).
Proof.
  intros H. unfold decode_wire_format, encode_wire_format, to_be_bytes. cbn.
  change (byte_val x00) with 0. cbn. by rewrite from_to_be_bytes.
Qed.

Lemma wf_new url : wf (new url).
Proof. split; [done|..]; intros *; cbn; by rewrite lookup_empty. Qed.

Lemma assign_spec p self s self' id :
  assign p self s = Ret (self', id) →
  id = self.(next_schema_id) ∧ schema_cache self' = <[s := id]> (schema_cache self) ∧
  in_range 32 self'.(next_schema_id) ∧
  (self.(next_schema_id) + 1 < 2 ^ 32 → 0 ≤ self.(next_schema_id) →
     self'.(next_schema_id) = self.(next_schema_id) + 1).
Proof.
  unfold assign. destruct (add_w 32 p (next_schema_id self) 1) as [n|] eqn:E; [|done]. cbn.
  intros [= <- <-]. cbn. split_and!; [done|done|by eapply overflowing_range|].
  intros H1 H2. unfold add_w in E. rewrite overflowing_exact in E by (split; lia). congruence.
Qed.

(** The counter never passed its last value. *)
Definition ids_left (self : t) : Prop := self.(next_schema_id) + 1 < 2 ^ 32.

Lemma assign_wf p self s self' id :
  wf self → ids_left self → assign p self s = Ret (self', id) →
  wf self' ∧ next_schema_id self' = next_schema_id self + 1.
Proof.
  intros [[Hn0 Hn1] Hb Hi] Hl H. apply assign_spec in H as (-> & Hc & Hr & Hnext).
  specialize (Hnext Hl Hn0). split; [|done]. split; [done|..].
  - intros s' id. rewrite Hc, lookup_insert. case_decide; intros H'; [simplify_eq; lia|].
    apply Hb in H'. lia.
  - intros s1 s2 id. rewrite Hc, !lookup_insert.
    repeat case_decide; intros H1 H2; simplify_eq; try done;
      [apply Hb in H2; lia | apply Hb in H1; lia | by eapply Hi].
Qed.

Lemma register_schema_wf p self s j self' id :
  wf self → ids_left self → register_schema p self s j = Ret (self', id) →
  wf self' ∧ schema_cache self' !! s = Some id ∧
  (∀ s' id', schema_cache self !! s' = Some id' → schema_cache self' !! s' = Some id').
Proof.
  unfold register_schema. intros Hw Hl. destruct (schema_cache self !! s) as [i|] eqn:E.
  - intros [= <- <-]. done.
  - intros H. destruct (assign_wf _ _ _ _ _ Hw Hl H) as [Hw' _]. split; [done|].
    apply assign_spec in H as (_ & Hc & _). rewrite Hc. split; [apply lookup_insert_eq|].
    intros s' id' Hs'. rewrite lookup_insert_ne; [done | congruence].
Qed.

Lemma step_threads_ok p c c' :
  ids_left c.1 → threads_ok c → step p c c' → threads_ok c'.
Proof.
  intros Hl Hok St.
  destruct St as [self i ts s id Hs Hid | self i ts s Hs Hid | self i ts s self' id Hs Has];
    destruct Hok as (Hw & Hd & Hc & Hdd); cbn in *.
  - assert (Hlt : 0 ≤ id < next_schema_id self) by (by eapply wf_below).
    split_and!; [done|..].
    + intros k s' id'. rewrite list_lookup_insert. case_decide; [|apply Hd]. naive_solver.
    + intros k s1 id1 s2. rewrite list_lookup_insert. case_decide; [|apply Hc].
      intros [= -> ->] ?. by eapply wf_inj.
    + intros k l s1 s2 id1. rewrite !list_lookup_insert. repeat case_decide; [..|apply Hdd];
        intros Hk1 Hk2; simplify_eq; try done; [symmetry|]; by eapply Hc; eauto.
  - split_and!; [done|..].
    + intros k s' id'. rewrite list_lookup_insert. case_decide; [done | apply Hd].
    + intros k s1 id1 s2. rewrite list_lookup_insert. case_decide; [done | apply Hc].
    + intros k l s1 s2 id1. rewrite !list_lookup_insert. repeat case_decide; try done. apply Hdd.
  - destruct (assign_wf _ _ _ _ _ Hw Hl Has) as [Hw' Hn].
    apply assign_spec in Has as (-> & Hca & _). pose proof (wf_next _ Hw) as [? ?].
    split_and!; [done|..].
    + intros k s' id'. rewrite list_lookup_insert. case_decide; [|intros ?%Hd; lia].
      intros ?; simplify_eq. lia.
    + intros k s1 id1 s2. rewrite list_lookup_insert, Hca, lookup_insert.
      repeat case_decide; intros Hk1 Hk2; simplify_eq; try done.
      * apply (wf_below _ Hw) in Hk2. lia.
      * apply Hd in Hk1. lia.
      * by eapply Hc.
    + intros k l s1 s2 id1. rewrite !list_lookup_insert. repeat case_decide; [..|apply Hdd];
        intros Hk1 Hk2; simplify_eq; try done; [apply Hd in Hk2 | apply Hd in Hk1]; lia.
Qed.

(** The calls still to be answered, and what each was asked for. *)
Definition unanswered (ts : list pc) : nat :=
  length (List.filter (λ c, match c with Done _ _ => false | _ => true end) ts).
Definition asked (c : pc) : string := match c with Start s | Missed s | Done s _ => s end.

(** [subjects] being what the calls are asked for, the counter has an id left for each that is not answered. *)
Record calls_ok (subjects : list string) (c : t * list pc) : Prop := {
  ok_threads : threads_ok c;
  ok_budget : c.1.(next_schema_id) + Z.of_nat (unanswered c.2) <= 100 + Z.of_nat (length subjects);
  ok_asked : asked <$> c.2 = subjects;
}.

Lemma unanswered_insert ts i c c' : ts !! i = Some c →
  (unanswered (<[i := c']> ts) + unanswered [c] = unanswered ts + unanswered [c'])%nat.
Proof.
  unfold unanswered. revert i. induction ts as [|a ts IH]; intros [|i] H; [done..| |].
  - injection H as ->. cbn. destruct c, c'; cbn; lia.
  - cbn in H. specialize (IH i H). change (<[S i := c']> (a :: ts)) with (a :: <[i := c']> ts).
    cbn [List.filter] in *. destruct a; cbn [length]; lia.
Qed.

Lemma asked_insert (ts : list pc) (i : nat) c c' : ts !! i = Some c → asked c' = asked c → asked <$> <[i := c']> ts = asked <$> ts.
Proof.
  intros Hi Ha. rewrite list_fmap_insert, Ha. apply list_insert_id. by rewrite list_lookup_fmap, Hi.
Qed.

Lemma calls_ok_new url subjects : calls_ok subjects (new url, Start <$> subjects).
Proof.
  split; cbn [fst snd].
  - split_and!; [apply wf_new| | |]; intros *; rewrite !list_lookup_fmap; by destruct (subjects !! i).
  - cbn [new next_schema_id]. enough (unanswered (Start <$> subjects) = length subjects) by lia. unfold unanswered.
    induction subjects as [|s subjects IH]; [done|]. cbn. by rewrite IH.
  - rewrite <- list_fmap_compose. apply list_fmap_id.
Qed.

Lemma step_calls_ok p subjects c c' : 100 + Z.of_nat (length subjects) < 2 ^ 32 → step p c c' →
  calls_ok subjects c → calls_ok subjects c'.
Proof.
  intros Hids St [Hok Hb Ha].
  assert (Hleft : (0 < unanswered c.2)%nat → ids_left c.1) by (unfold ids_left; lia).
  assert (Hone : ids_left c.1).
  { apply Hleft. destruct St as [self i ts s id Hi _|self i ts s Hi _|self i ts s self' id Hi _]; cbn [snd];
      (pose proof (unanswered_insert ts i _ (Done s 0) Hi) as H; cbn in H; lia). }
  pose proof (step_threads_ok p c c' Hone Hok St) as Hok'.
  destruct St as [self i ts s id Hi Hid|self i ts s Hi Hid|self i ts s self' id Hi Has]; split; cbn [fst snd] in *; try done.
  - pose proof (unanswered_insert ts i _ (Done s id) Hi) as H. cbn in H. lia.
  - by rewrite (asked_insert ts i _ _ Hi).
  - pose proof (unanswered_insert ts i _ (Missed s) Hi) as H. cbn in H. lia.
  - by rewrite (asked_insert ts i _ _ Hi).
  - pose proof (unanswered_insert ts i _ (Done s id) Hi) as H. cbn in H.
    destruct (assign_wf _ _ _ _ _ (proj1 Hok) Hone Has) as [_ Hn]. lia.
  - by rewrite (asked_insert ts i _ _ Hi).
Qed.

Lemma run_calls_ok p subjects c c' : 100 + Z.of_nat (length subjects) < 2 ^ 32 → rtc (step p) c c' →
  calls_ok subjects c → calls_ok subjects c'.
Proof. intros Hids. induction 1 as [|x y z Hxy _ IH]; [done|]. intros H. by eapply IH, step_calls_ok. Qed.

(** ** Properties *)

(** C39. Wire format round trip and soundness: decoding an encoded message gives back the id and the
    payload, and a buffer that decodes is exactly the encoding of what it decodes to, so encoding
    and decoding are inverse bijections between pairs and well-formed buffers. *)
Theorem wire_format_bijection (self : t) (buf payload : list byte) (id : Z) :
  (in_range 32 id ∧ buf = encode_wire_format self id payload) ↔
  decode_wire_format self buf = Ok (id, payload).
Proof.
  split; [intros [? ->]; by apply decode_encode|].
  unfold decode_wire_format. destruct (Nat.ltb_spec (length buf) 5); [done|].
  destruct buf as [|b0 [|b1 [|b2 [|b3 [|b4 rest]]]]]; cbn in *; try lia.
  destruct (byte_val b0 =? 0) eqn:E; [|done]. cbn. intros [= <- <-].
  split; [apply from_be_bytes_range|]. unfold encode_wire_format. rewrite to_from_be_bytes.
  apply Z.eqb_eq in E. by rewrite (byte_val_inj b0 x00).
Qed.

(** The errors of [decode_wire_format]: it rejects exactly the buffers shorter than the header
    and those whose first byte is not the magic byte. *)
Theorem decode_wire_format_errors (self : t) (buf : list byte) :
  is_ok (decode_wire_format self buf) = false ↔
  (length buf < 5)%nat ∨ head buf ≠ Some x00.
Proof.
  unfold decode_wire_format. destruct (Nat.ltb_spec (length buf) 5) as [Hlt|Hge].
  { split; [by left | done]. }
  destruct buf as [|b0 [|b1 [|b2 [|b3 [|b4 rest]]]]]; cbn in *; try lia.
  destruct (byte_val b0 =? 0) eqn:E; cbn.
  - apply Z.eqb_eq in E. rewrite (byte_val_inj b0 x00) by done. split; [done|]. intros [|]; [lia|done].
  - apply Z.eqb_neq in E. split; [|done]. intros _. right. intros [= ->]. by apply E.
Qed.

(** Registration assigns stable ids: from a well-formed client whose counter is not exhausted,
    [register_schema] returns without panic, caches the id it returns, changes no other cached id
    and never gives two subjects the same id; registering the subject again returns the same id
    and changes nothing. *)
Theorem register_schema_stable (p : Profile) (self : t) (s j j' : string)
    (Hw : wf self) (Hl : ids_left self) :
  ∃ self' id, register_schema p self s j = Ret (self', id) ∧ wf self' ∧
    (∀ s', s' ≠ s → schema_cache self' !! s' = schema_cache self !! s') ∧
    (∀ s', schema_cache self' !! s' = Some id ↔ s' = s) ∧
    register_schema p self' s j' = Ret (self', id).
Proof.
  assert (∃ self' id, register_schema p self s j = Ret (self', id)) as (self' & id & E).
  { unfold register_schema, assign, add_w. destruct (schema_cache self !! s); [eauto|].
    rewrite overflowing_exact; [by eexists _, _|]. destruct (wf_next _ Hw). unfold ids_left in Hl.
    split; lia. }
  destruct (register_schema_wf _ _ _ _ _ _ Hw Hl E) as (Hw' & Hs & Hkeep).
  exists self', id. split_and!; [done..| | |].
  - intros s' Hne. revert E. unfold register_schema.
    destruct (schema_cache self !! s); [by intros [= <- <-]|].
    intros (_ & -> & _)%assign_spec. by rewrite lookup_insert_ne.
  - intros s'. split; [|by intros ->]. intros Hs'. by eapply (wf_inj _ Hw').
  - unfold register_schema. by rewrite Hs.
Qed.

(** C35. No id is given to two subjects: of any number of concurrent calls of [register_schema] on a new client, as
    long as the [u32] counter, which starts at 100, has an id for each of them, however their two steps (the
    look into the cache, the assignment) interleave and at every moment: a call that has returned answers
    for the subject it was asked for; calls that have returned the same id were asked for the same subject,
    an id returned and an id cached are the same only for the same subject, and so are two cached ids. *)
Theorem concurrent_ids_unique (p : Profile) (url : string) (subjects : list string) (self : t) (calls : list pc)
    (Hids : 100 + Z.of_nat (length subjects) < 2 ^ 32)
    (Hrun : rtc (step p) (new url, Start <$> subjects) (self, calls)) :
  (∀ i s id, calls !! i = Some (Done s id) → subjects !! i = Some s) ∧
  (∀ i j s s' id, calls !! i = Some (Done s id) → calls !! j = Some (Done s' id) → s = s') ∧
  (∀ i s s' id, calls !! i = Some (Done s id) → self.(schema_cache) !! s' = Some id → s = s') ∧
  (∀ s s' id, self.(schema_cache) !! s = Some id → self.(schema_cache) !! s' = Some id → s = s').
Proof.
  destruct (run_calls_ok p subjects _ _ Hids Hrun (calls_ok_new url subjects)) as [(Hw & _ & H2 & H3) _ Hs].
  cbn [fst snd] in *. split_and!.
  - intros i s id Hi. by rewrite <- Hs, list_lookup_fmap, Hi.
  - exact H3.
  - intros i s s' id Hi. by apply (H2 i).
  - intros s s' id. by apply (wf_inj _ Hw).
Qed.

(** The same subject can get two ids: the read lock is released before the write locks are
    taken, so two concurrent first registrations of a subject both miss and both assign. *)
Theorem concurrent_double_registration (p : Profile) (url s : string) :
  ∃ self, rtc (step p) (new url, [Start s; Start s]) (self, [Done s 100; Done s 101]) ∧
    schema_cache self !! s = Some 101.
Proof.
  exists (Mk url 102 (<[s := 101]> (<[s := 100]> ∅))). split; [|apply lookup_insert_eq].
  eapply rtc_l; [by apply (step_miss p _ 0%nat)|].
  eapply rtc_l; [by apply (step_miss p _ 1%nat)|].
  eapply rtc_l; [by eapply (step_assign p _ 0%nat)|].
  eapply rtc_l; [by eapply (step_assign p _ 1%nat)|]. apply rtc_refl.
Qed.

(** ** Witnesses *)

Lemma register_schema_stable_witness :
  ∃ self' id, register_schema Dev (new "http://localhost:8081") "users-value" "{}" = Ret (self', id).
Proof.
  destruct (register_schema_stable Dev (new "http://localhost:8081") "users-value" "{}" "{}"
    (wf_new _) ltac:(done)) as (self' & id & E & _). by exists self', id.
Defined.

(** Two subjects, and a second call for the first one that comes between its two steps. *)
Lemma concurrent_ids_unique_witness : ∃ self,
  rtc (step Dev) (new "u", Start <$> ["s"; "r"; "s"]) (self, [Done "s" 101; Done "r" 100; Done "s" 102]) ∧
  ∀ s' id, id = 100 → self.(schema_cache) !! s' = Some id → s' = "r"%string.
Proof.
  assert (H : ∃ self, rtc (step Dev) (new "u", Start <$> ["s"; "r"; "s"]) (self, [Done "s" 101; Done "r" 100; Done "s" 102])).
  { eexists. cbn [fmap list_fmap].
    eapply rtc_l; [by apply (step_miss Dev _ 0%nat)|]. eapply rtc_l; [by apply (step_miss Dev _ 1%nat)|].
    eapply rtc_l; [by eapply (step_assign Dev _ 1%nat)|]. eapply rtc_l; [by apply (step_miss Dev _ 2%nat)|].
    eapply rtc_l; [by eapply (step_assign Dev _ 0%nat)|]. eapply rtc_l; [by eapply (step_assign Dev _ 2%nat)|].
    apply rtc_refl. }
  destruct H as [self H]. exists self. split; [exact H|]. intros s' id -> Hc.
  destruct (concurrent_ids_unique Dev "u" ["s"; "r"; "s"] self _ ltac:(by vm_compute) H) as (_ & _ & H3 & _).
  symmetry. by apply (H3 1%nat "r"%string s' 100).
Defined.
End ConfluentRegistryClient.
