(* ===== verification/Avro.v ===== *)
(** [AvroEncoder] ([src/serialize/avro.rs]): events in the Confluent wire format, the payload being
    their JSON rendering, and [serialize_event] ([src/serialize/mod.rs]). *)
From S2P Require Import Prelude Text F64 Event Store Reference Confluent.

(** [serialize_event]: [simd_json::to_string(event)?]. *)
Definition serialize_event `{J : SerdeJson} (event : ChangeEvent) : Result string json_error :=
  simd_to_string event.

Module AvroEncoder.
Section avro.
Context `{J : SerdeJson}.

Record t := Mk { registry_client : ConfluentRegistryClient.t }.

Definition new (registry_url : string) : t := Mk (ConfluentRegistryClient.new registry_url).

(** The literal of the source, with [034] for the double quote. *)
Definition quoted (s : string) : string := String "034"%char (s ++ String "034"%char "").
Definition schema_json : string :=
  "{" ++ quoted "type" ++ ":" ++ quoted "record" ++ "," ++ quoted "name" ++ ":"
      ++ quoted "ChangeEvent" ++ "}".

Definition subject_of (event : ChangeEvent) : string :=
  (event.(source_table_or_collection) ++ "-value")%string.

Definition encode_event (p : Profile) (self : t) (event : ChangeEvent) :
    Outcome (t * Result (list byte) string) :=
  r ← ConfluentRegistryClient.register_schema p self.(registry_client) (subject_of event) schema_json;
  let '(client, schema_id) := r in
  Ret (Mk client,
       try (λ e, "Serialization error: " ++ json_error_to_string e)%string (event_to_vec event)
         (fun raw_payload =>
            Ok (ConfluentRegistryClient.encode_wire_format client schema_id raw_payload))).

Definition decode_event (self : t) (buffer : list byte) : Result (Z * ChangeEvent) string :=
  try same (ConfluentRegistryClient.decode_wire_format self.(registry_client) buffer)
    (fun '(schema_id, payload_bytes) =>
  try (λ e, "Deserialization error: " ++ json_error_to_string e)%string
    (event_from_slice payload_bytes) (fun event => Ok (schema_id, event))).

(** ** Properties *)

(** An encoded event decodes to itself, tagged with the id the registry holds for its table: from
    a well-formed encoder whose ids are not exhausted, encoding never panics, and when the JSON
    library serialises the event, decoding the message (with any encoder) gives the event and the
    id cached for the subject of its table. *)
Theorem encode_decode_event {JL : SerdeJsonLaws J} (p : Profile) (self other : t)
    (event : ChangeEvent) (raw : list byte)
    (Hw : ConfluentRegistryClient.wf self.(registry_client))
    (Hl : ConfluentRegistryClient.ids_left self.(registry_client))
    (Hp : plain_event event = true) (Hraw : event_to_vec event = Ok raw) :
  ∃ self' buf id, encode_event p self event = Ret (self', Ok buf) ∧
    decode_event other buf = Ok (id, event) ∧
    ConfluentRegistryClient.schema_cache self'.(registry_client) !! subject_of event = Some id.
Proof.
  unfold encode_event.
  assert (∃ c id, ConfluentRegistryClient.register_schema p self.(registry_client)
    (subject_of event) schema_json = Ret (c, id)) as (c & id & E).
  { unfold ConfluentRegistryClient.register_schema, ConfluentRegistryClient.assign, add_w.
    destruct (ConfluentRegistryClient.schema_cache _ !! _); [eauto|].
    rewrite overflowing_exact; [by eexists _, _|]. destruct (ConfluentRegistryClient.wf_next _ Hw).
    unfold ConfluentRegistryClient.ids_left in Hl. split; lia. }
  rewrite E. cbn. destruct (ConfluentRegistryClient.register_schema_wf _ _ _ _ _ _ Hw Hl E)
    as (Hw' & Hs & _). rewrite Hraw. cbn. eexists _, _, id. split_and!; [done| |done].
  unfold decode_event. rewrite ConfluentRegistryClient.decode_encode.
  - cbn. by rewrite (event_roundtrip _ _ Hp Hraw).
  - destruct (ConfluentRegistryClient.wf_below _ Hw' _ _ Hs).
    destruct (ConfluentRegistryClient.wf_next _ Hw'). unfold in_range. lia.
Qed.
End avro.
Arguments t : clear implicits.

(** ** Witness *)

Definition avro_event : ChangeEvent :=
  MkEvent "evt-avro-1" "db" "users" Create 7 (json_object [("id", VNumber (PosInt 1))]) None
    (Some (json_object [("id", VNumber (PosInt 1)); ("name", VString "Bob")])) (Some "tx-1")
    "offset-1".

Lemma encode_decode_event_witness :
  ∃ self' buf id, encode_event (J:=tree_json) Dev (new "http://localhost:8081") avro_event
      = Ret (self', Ok buf) ∧
    decode_event (J:=tree_json) (new "http://other") buf = Ok (id, avro_event).
Proof.
  destruct (encode_decode_event (J:=tree_json) Dev (new "http://localhost:8081") (new "http://other")
    avro_event (tree_bytes (event_tree avro_event))) as (s & b & i & H1 & H2 & _);
    [apply ConfluentRegistryClient.wf_new | done | vm_compute; reflexivity | reflexivity |].
  by exists s, b, i.
Defined.
End AvroEncoder.
