(* ===== verification/Kms.v ===== *)
(** [KmsProvider] ([src/security/kms.rs]): versioned keys with rotation. *)
From S2P Require Import Prelude Text.

Module KmsProvider.

Record t := Mk {
  current_version : Z;           (* RwLock<u32> *)
  keys : gmap Z (list byte);     (* RwLock<HashMap<u32, Vec<u8>>> *)
}.

Definition new (initial_key : list byte) : t := Mk 1 {[1 := initial_key]}.

Definition get_active_key (self : t) : Z * list byte :=
  (self.(current_version), default [] (self.(keys) !! self.(current_version))).

Definition get_key_by_version (self : t) (version : Z) : option (list byte) :=
  self.(keys) !! version.

Definition rotate_key (p : Profile) (self : t) (new_key : list byte) : Outcome (t * Z) :=
  next_version ← add_w 32 p self.(current_version) 1;
  Ret (Mk next_version (<[next_version := new_key]> self.(keys)), next_version).

Fixpoint rotate_all (p : Profile) (self : t) (new_keys : list (list byte)) : Outcome t :=
  match new_keys with
  | [] => Ret self
  | k :: ks => r ← rotate_key p self k; rotate_all p r.1 ks
  end.

(** ** Specification: the list of all keys, version 1 first *)

Definition holds (self : t) (history : list (list byte)) : Prop :=
  self.(current_version) = Z.of_nat (length history) ∧
  ∀ v, self.(keys) !! v = if decide (1 ≤ v) then history !! Z.to_nat (v - 1) else None.

Lemma holds_new k : holds (new k) [k].
Proof.
  split; [done|]. intros v. cbn. destruct (decide (v = 1)) as [->|Hne]; [done|].
  rewrite lookup_singleton_ne by done. case_decide; [|done].
  symmetry. apply lookup_ge_None. cbn. lia.
Qed.

Lemma rotate_key_holds p self h k :
  holds self h → Z.of_nat (length h) + 1 < 2 ^ 32 →
  ∃ self', rotate_key p self k = Ret (self', Z.of_nat (length h) + 1) ∧ holds self' (h ++ [k]).
Proof.
  intros [Hv Hk] Hb. unfold rotate_key, add_w. rewrite Hv, overflowing_exact by (split; lia). cbn.
  eexists. split; [done|]. split; cbn; [rewrite length_app; cbn; lia|].
  intros v. rewrite lookup_insert. case_decide as E.
  - subst v. rewrite decide_True by lia.
    replace (Z.to_nat _) with (length h) by lia. by rewrite list_lookup_middle.
  - rewrite Hk. case_decide; [|done]. destruct (decide (v ≤ Z.of_nat (length h))).
    + rewrite lookup_app_l by lia. done.
    + rewrite !lookup_ge_None_2; rewrite ?length_app; cbn; [done|lia..].
Qed.

Lemma rotate_all_holds p self h ks :
  holds self h → Z.of_nat (length h + length ks) < 2 ^ 32 →
  ∃ self', rotate_all p self ks = Ret self' ∧ holds self' (h ++ ks).
Proof.
  revert self h. induction ks as [|k ks IH]; intros self h H Hb; cbn.
  - exists self. by rewrite app_nil_r.
  - cbn in Hb. destruct (rotate_key_holds p self h k H) as (s & E & Hs); [lia|].
    rewrite E. cbn. destruct (IH s (h ++ [k]) Hs) as (s' & E' & Hs').
    + rewrite length_app. cbn. lia.
    + exists s'. by rewrite <- app_assoc in Hs'.
Qed.

Lemma holds_active self h k : holds self (h ++ [k]) → get_active_key self = (Z.of_nat (S (length h)), k).
Proof.
  intros [Hv Hk]. unfold get_active_key. rewrite Hk, Hv, length_app. cbn [length].
  rewrite decide_True by lia. replace (Z.to_nat _) with (length h) by lia.
  rewrite list_lookup_middle by done. cbn. f_equal. lia.
Qed.

(** ** Properties *)

(** C40. Rotation loses no key: after one or more rotations, as many as the 32-bit version numbers, no call
    has panicked, the active key is the last one installed, under the number of keys installed,
    and every earlier version still returns its key (so that old data stays readable). *)
Theorem rotate_keeps_keys (p : Profile) (first last : list byte) (mid : list (list byte))
    (Hb : Z.of_nat (length mid) + 2 < 2 ^ 32) :
  ∃ self, rotate_all p (new first) (mid ++ [last]) = Ret self ∧
    get_active_key self = (Z.of_nat (length mid) + 2, last) ∧
    (∀ v, get_key_by_version self v =
       if decide (1 ≤ v) then (first :: mid ++ [last]) !! Z.to_nat (v - 1) else None).
Proof.
  destruct (rotate_all_holds p (new first) [first] (mid ++ [last])) as (s & E & H).
  - apply holds_new.
  - rewrite length_app. cbn. lia.
  - exists s. split; [done|]. split; [|apply H].
    rewrite app_assoc in H. rewrite (holds_active _ _ _ H), length_app. cbn. f_equal. lia.
Qed.

Lemma rotate_keeps_keys_witness :
  ∃ self, rotate_all Dev (new [x00]) [[x01]; [x02]] = Ret self ∧ get_active_key self = (3, [x02]).
Proof.
  destruct (rotate_keeps_keys Dev [x00] [x02] [[x01]] ltac:(done)) as (s & E & A & _).
  by exists s.
Defined.
End KmsProvider.
