(* ===== verification/Security.v ===== *)
(** [PayloadSecurityEngine] ([src/security/mod.rs]): masking of payload fields by rule.

    The rules are a [HashMap], whose iteration order is unspecified: the functions take the order
    as an argument, any list of the entries, and the theorems hold for every order. *)
From S2P Require Import Prelude Text F64 Event Reference Kms.

Module PayloadSecurityEngine.
Section security.
Context `{J : SerdeJson}.

Inductive MaskingRule := Redact | Hash | Encrypt.

Record t := Mk {
  field_rules : gmap string MaskingRule;
  kms_provider : option KmsProvider.t;
}.

Definition new : t := Mk ∅ None.

Definition with_kms (self : t) (kms : KmsProvider.t) : t := Mk self.(field_rules) (Some kms).

Definition add_rule (self : t) (field_name : string) (rule : MaskingRule) : t :=
  Mk (<[field_name := rule]> self.(field_rules)) self.(kms_provider).

(** [for b in s.bytes() { hash = ((hash << 5).wrapping_add(hash)).wrapping_add(b as u64) }] *)
Definition hash_step (hash : Z) (b : byte) : Z :=
  let shifted := Z.shiftl hash 5 mod 2 ^ 64 in
  ((shifted + hash) mod 2 ^ 64 + byte_val b) mod 2 ^ 64.

Definition hash_string (s : string) : Z := fold_left hash_step (as_bytes s) 5381.

Definition encrypt (kms : KmsProvider.t) (val : Value) : string :=
  let '(version, key) := KmsProvider.get_active_key kms in
  let raw_str := value_to_string val in
  let hex_key := hex_bytes key in
  let hex_data := hex_bytes (as_bytes raw_str) in
  ("ENC:v" ++ display_u64 version ++ ":" ++ hex_key ++ ":" ++ hex_data)%string.

(** The body of the loop on a field that is present. *)
Definition mask (self : t) (rule : MaskingRule) (val : Value) : Value :=
  match rule with
  | Redact => VString "[REDACTED]"
  | Hash => match val with VString s => VString (hex_u64 (hash_string s)) | _ => val end
  | Encrypt =>
    match self.(kms_provider) with
    | Some kms => VString (encrypt kms val)
    | None => match val with VString _ => VString "[ENCRYPTED_WITHOUT_KMS]" | _ => val end
    end
  end.

Definition transform_value (self : t) (order : list (string * MaskingRule)) (value : Value) : Value :=
  match value with
  | VObject map =>
    VObject (fold_left (fun m '(key, rule) => bt_modify key (mask self rule) m) order map)
  | _ => value
  end.

Definition apply_security (self : t) (order : list (string * MaskingRule)) (event : ChangeEvent) :
    ChangeEvent :=
  let event := match event.(after) with
               | Some a => with_after event (Some (transform_value self order a))
               | None => event
               end in
  match event.(before) with
  | Some b => with_before event (Some (transform_value self order b))
  | None => event
  end.

(** ** Specification *)

(** An order in which a [HashMap] may be iterated. *)
Definition iteration_of (self : t) (order : list (string * MaskingRule)) : Prop :=
  order ≡ₚ map_to_list self.(field_rules).

(** What every field becomes. *)
Definition masked (self : t) (k : string) (v : Value) : Value :=
  match self.(field_rules) !! k with Some rule => mask self rule v | None => v end.

(** What an observer of the ciphertext computes, knowing nothing else: the texts between the
    colons, the last two read as hexadecimal. *)
Fixpoint split_colon (s : string) : list string :=
  match s with
  | EmptyString => [""%string]
  | String c s' =>
    if Ascii.eqb c ":" then ""%string :: split_colon s'
    else match split_colon s' with [] => [String c ""] | x :: l => String c x :: l end
  end.

Definition observe (ciphertext : string) : option (list byte * string) :=
  match split_colon ciphertext with
  | [_; _; hex_key; hex_data] =>
    k ← unhex_bytes hex_key; d ← unhex_bytes hex_data; Some (k, of_bytes d)
  | _ => None
  end.

(** ** Lemmas *)

Abbreviation rules_run self order map :=
  (fold_left (fun m '(key, rule) => bt_modify key (mask self rule) m) order map).

Lemma rules_run_get self order m k :
  NoDup order.*1 →
  bt_get k (rules_run self order m) =
    match (list_to_map order : gmap string MaskingRule) !! k with
    | Some rule => mask self rule <$> bt_get k m
    | None => bt_get k m
    end.
Proof.
  revert m. induction order as [|[j r] order IH]; intros m Hn; cbn; [done|].
  apply NoDup_cons in Hn as [Hj Hn]. rewrite IH, lookup_insert, bt_get_modify by done.
  case_decide as Hd; cycle 1.
  { apply String.eqb_neq in Hd. by rewrite Hd. }
  subst. rewrite String.eqb_refl.
  by rewrite (not_elem_of_list_to_map_1 order) by done.
Qed.

Lemma rules_run_keys self order m : (rules_run self order m).*1 = m.*1.
Proof. revert m. induction order as [|[j r] order IH]; intros m; cbn; [done|]. by rewrite IH, bt_modify_keys. Qed.

Lemma rules_run_perm self o1 o2 m :
  o1 ≡ₚ o2 → NoDup o1.*1 → rules_run self o1 m = rules_run self o2 m.
Proof.
  intros Hp. revert m. induction Hp as [|[k r] l1 l2 Hp IH|[k r] [k' r'] l|l1 l2 l3 H1 IH1 H2 IH2];
    intros m Hn; cbn in *.
  - done.
  - apply NoDup_cons in Hn as [_ Hn]. by apply IH.
  - apply NoDup_cons in Hn as [Hk _]. rewrite bt_modify_comm; [done | set_solver].
  - rewrite IH1 by done. apply IH2. by rewrite <- H1.
Qed.

Lemma iteration_nodup self order : iteration_of self order → NoDup order.*1.
Proof. intros ->. apply NoDup_fst_map_to_list. Qed.

Lemma iteration_lookup self order : iteration_of self order →
  (list_to_map order : gmap string MaskingRule) = self.(field_rules).
Proof.
  intros H. rewrite <- (list_to_map_to_list (field_rules self)).
  apply list_to_map_proper; [by eapply iteration_nodup | done].
Qed.

Lemma hash_step_spec h b : hash_step h b = (33 * h + byte_val b) mod 2 ^ 64.
Proof.
  unfold hash_step. rewrite Z.shiftl_mul_pow2 by lia.
  cbv zeta. rewrite Zplus_mod_idemp_l, <- Z.add_assoc, Zplus_mod_idemp_l. f_equal. lia.
Qed.

(** A string without a colon. *)
Fixpoint no_colon (s : string) : bool :=
  match s with EmptyString => true | String c s' => negb (Ascii.eqb c ":") && no_colon s' end.

Lemma split_colon_cons s : split_colon s ≠ [].
Proof. destruct s as [|c s]; cbn; [done|]. destruct (Ascii.eqb c ":"), (split_colon s); done. Qed.

Lemma split_colon_app s t :
  no_colon s = true → split_colon (s ++ String ":" t) = s :: split_colon t.
Proof.
  induction s as [|c s IH]; [done|]. rewrite string_app_cons. cbn.
  destruct (Ascii.eqb c ":"); [done|]. cbn. intros H. by rewrite IH.
Qed.

Lemma split_colon_none s : no_colon s = true → split_colon s = [s].
Proof.
  induction s as [|c s IH]; [done|]. cbn. destruct (Ascii.eqb c ":"); [done|].
  intros H. by rewrite IH.
Qed.

Lemma no_colon_app s t : no_colon (s ++ t) = no_colon s && no_colon t.
Proof.
  induction s as [|c s IH]; [done|]. rewrite string_app_cons. cbn. by rewrite IH, andb_assoc.
Qed.

Lemma hex_char_no_colon d : 0 <= d < 16 → Ascii.eqb (hex_char d) ":" = false.
Proof.
  intros Hd. apply Ascii.eqb_neq. intros E. apply (f_equal hex_val) in E.
  by rewrite hex_val_char in E.
Qed.

Lemma no_colon_hex l : no_colon (hex_bytes l) = true.
Proof.
  induction l as [|b l IH]; [done|]. cbn [hex_bytes]. rewrite no_colon_app, IH, andb_true_r.
  unfold hex_byte, hex_fixed. cbn [no_colon].
  by rewrite !hex_char_no_colon by (apply Z.mod_pos_bound; lia).
Qed.

Lemma no_colon_dec fuel n s : no_colon s = true → no_colon (dec_digits fuel n s) = true.
Proof.
  revert n s. induction fuel as [|fuel IH]; intros n s Hs; [done|]. cbn.
  assert (Hd : no_colon (String (digit_char (n mod 10)) s) = true).
  { cbn. rewrite Hs, andb_true_r. apply negb_true_iff, Ascii.eqb_neq. intros E.
    pose proof (digit_val_char (n mod 10) ltac:(apply Z.mod_pos_bound; lia)) as H.
    by rewrite E in H. }
  destruct (n <? 10); [done | by apply IH].
Qed.

Lemma observe_encrypt kms v :
  observe (encrypt kms v) = Some ((KmsProvider.get_active_key kms).2, value_to_string v).
Proof.
  unfold encrypt, observe. destruct (KmsProvider.get_active_key kms) as [version k]. cbn [snd].
  assert (Hv : no_colon (display_u64 version) = true) by by apply no_colon_dec.
  change ("ENC:v" ++ display_u64 version ++ ":" ++ hex_bytes k ++ ":"
            ++ hex_bytes (as_bytes (value_to_string v)))%string
    with ("ENC" ++ String ":" (("v" ++ display_u64 version)
            ++ String ":" (hex_bytes k ++ String ":" (hex_bytes (as_bytes (value_to_string v))))))%string.
  rewrite !split_colon_app, split_colon_none by (rewrite ?no_colon_app; auto using no_colon_hex).
  rewrite !unhex_hex_bytes. cbn. by rewrite of_as_bytes.
Qed.

(** ** Properties *)

(** C36. Masking is per field and independent of the order of the rules: whatever order the rule map
    is iterated in, an object keeps its keys in order, each field with a rule becomes the rule's
    mask of its value and every other field is unchanged; the event's other members do not change. *)
Theorem apply_security_spec (self : t) (order : list (string * MaskingRule)) (event : ChangeEvent)
    (m : list (string * Value)) (Hord : iteration_of self order)
    (Hafter : event.(after) = Some (VObject m)) :
  ∃ m', apply_security self order event =
      with_before (with_after event (Some (VObject m')))
        (transform_value self (map_to_list self.(field_rules)) <$> event.(before)) ∧
    m'.*1 = m.*1 ∧ ∀ k, bt_get k m' = masked self k <$> bt_get k m.
Proof.
  exists (rules_run self order m). split_and!.
  - unfold apply_security. rewrite Hafter. cbn [transform_value with_after before].
    destruct event as [i d s o ts k b a tx off]. cbn in *. subst a.
    destruct b as [[| | | | |b]|]; cbn; unfold with_before; cbn; try done.
    by rewrite (rules_run_perm self order _ b Hord (iteration_nodup _ _ Hord)).
  - apply rules_run_keys.
  - intros k. rewrite rules_run_get, (iteration_lookup _ _ Hord) by (by eapply iteration_nodup).
    unfold masked. destruct (field_rules self !! k); [done|]. by destruct (bt_get k m).
Qed.

(** Redaction hides the value: two payloads that differ only in a redacted field have the same
    masked output. *)
Theorem redact_hides (self : t) (order : list (string * MaskingRule)) (k : string)
    (m : list (string * Value)) (v1 v2 : Value)
    (Hord : iteration_of self order) (Hk : self.(field_rules) !! k = Some Redact) :
  transform_value self order (VObject (bt_modify k (λ _, v1) m)) =
  transform_value self order (VObject (bt_modify k (λ _, v2) m)).
Proof.
  unfold transform_value. f_equal.
  assert (Hin : (k, Redact) ∈ order) by (rewrite Hord; by apply elem_of_map_to_list).
  apply elem_of_Permutation in Hin as [rest Hrest].
  rewrite !(rules_run_perm self order ((k, Redact) :: rest)) by
    (done || by eapply iteration_nodup).
  cbn. f_equal. clear. induction m as [|[j w] m IH]; [done|]. cbn.
  destruct (String.eqb k j) eqn:E; cbn; rewrite E; [done | by rewrite IH].
Qed.

(** The Hash rule is the djb2 polynomial hash modulo 2^64, printed in exactly sixteen hexadecimal
    digits: hashing a string extended by one byte multiplies by 33 and adds the byte. *)
Theorem hash_string_spec (s : string) :
  in_range 64 (hash_string s) ∧ String.length (hex_u64 (hash_string s)) = 16%nat ∧
  hash_string s = fold_left (λ h b, 33 * h + byte_val b) (as_bytes s) 5381 mod 2 ^ 64.
Proof.
  assert (H : ∀ l h, fold_left hash_step l (h mod 2 ^ 64) =
    fold_left (λ h b, 33 * h + byte_val b) l h mod 2 ^ 64).
  { induction l as [|b l IH]; intros h; cbn; [done|]. rewrite <- IH, hash_step_spec. f_equal.
    by rewrite <- Zplus_mod_idemp_l, Zmult_mod_idemp_r, Zplus_mod_idemp_l. }
  assert (E : hash_string s = fold_left (λ h b, 33 * h + byte_val b) (as_bytes s) 5381 mod 2 ^ 64)
    by apply (H _ 5381).
  split_and!; [|apply hex_fixed_length|done]. rewrite E. unfold in_range.
  by apply Z.mod_pos_bound.
Qed.

(** The Encrypt rule protects nothing: its output contains the active key and the plaintext in
    hexadecimal, so an observer who knows only the ciphertext recovers both. *)
Theorem encrypt_leaks (self : t) (kms : KmsProvider.t) (v : Value)
    (Hkms : self.(kms_provider) = Some kms) :
  ∃ c, mask self Encrypt v = VString c ∧
    observe c = Some ((KmsProvider.get_active_key kms).2, value_to_string v).
Proof. unfold mask. rewrite Hkms. eexists. split; [done|]. apply observe_encrypt. Qed.
End security.

(** ** Witnesses *)

Definition engine : t :=
  add_rule (add_rule (with_kms new (KmsProvider.new [x01; xff])) "ssn" Redact) "card" Encrypt.

Definition card_event : ChangeEvent :=
  MkEvent "e" "db" "t" Create 0 VNull None
    (Some (VObject [("card", VString "4532"); ("name", VString "Al"); ("ssn", VString "000")]))
    None "1".

Lemma apply_security_spec_witness :
  ∃ m', (apply_security (J:=tree_json) engine (map_to_list engine.(field_rules)) card_event).(after)
      = Some (VObject m') ∧ bt_get "ssn" m' = Some (VString "[REDACTED]") ∧
    bt_get "name" m' = Some (VString "Al").
Proof.
  destruct (apply_security_spec (J:=tree_json) engine (map_to_list engine.(field_rules)) card_event
    [("card", VString "4532"); ("name", VString "Al"); ("ssn", VString "000")]) as (m' & E & _ & G);
    [exact (Permutation_refl _) | reflexivity |].
  exists m'. rewrite E, !G. split_and!; reflexivity.
Defined.

Lemma redact_hides_witness :
  transform_value (J:=tree_json) engine (map_to_list engine.(field_rules))
    (VObject [("ssn", VString "000")]) =
  transform_value (J:=tree_json) engine (map_to_list engine.(field_rules))
    (VObject [("ssn", VString "111")]).
Proof.
  apply (redact_hides (J:=tree_json) engine (map_to_list engine.(field_rules)) "ssn"
    [("ssn", VNull)] (VString "000") (VString "111")); [exact (Permutation_refl _) | reflexivity].
Defined.

Lemma encrypt_leaks_witness :
  ∃ c, mask (J:=tree_json) engine Encrypt (VString "4532") = VString c ∧
    observe c = Some ([x01; xff], "4532"%string).
Proof.
  apply (encrypt_leaks (J:=tree_json) engine (KmsProvider.new [x01; xff]) (VString "4532")).
  reflexivity.
Defined.

Example encrypt_output :
  encrypt (J:=tree_json) (KmsProvider.new [x01; xff]) (VString "45") = "ENC:v1:01ff:3435".
Proof. reflexivity. Qed.
End PayloadSecurityEngine.
