(* ===== verification/Watermark.v ===== *)
(** [WatermarkSnapshotter] ([src/snapshot/watermark.rs]): a chunk of snapshot rows is reconciled with
    the replication log between a low and a high watermark. *)
From S2P Require Import Prelude Text F64 Event Reference.

Module WatermarkSnapshotter.
Section watermark.
Context `{J : SerdeJson}.

(** ** The component *)

Record t := Mk {
  active_chunk : gmap string ChangeEvent;
  in_watermark_window : bool;
  active_tx : option string;
}.

Definition new : t := Mk ∅ false None.

(** [event.key.to_string()] *)
Definition key_str (event : ChangeEvent) : string := value_to_string event.(key).

Definition load_chunk (self : t) (chunk_events : list ChangeEvent) : t :=
  Mk (fold_left (fun m e => <[key_str e := e]> m) chunk_events ∅)
     self.(in_watermark_window) self.(active_tx).

Definition is_watermark (event : ChangeEvent) : bool :=
  String.eqb event.(source_table_or_collection) "caminus_watermarks".

(** The match on the operation of an event whose key is in the chunk. *)
Definition reconcile (chunk : gmap string ChangeEvent) (event : ChangeEvent) :
    gmap string ChangeEvent :=
  match event.(operation) with
  | Delete => delete (key_str event) chunk
  | Update | Create =>
    alter (fun chunk_event =>
             with_timestamp (with_after chunk_event event.(after)) event.(timestamp))
      (key_str event) chunk
  | _ => chunk
  end.

Definition process_replication_event (self : t) (event : ChangeEvent) : t * option ChangeEvent :=
  if is_watermark event then
    (match event.(operation) with
     | Create | Commit =>
       if negb self.(in_watermark_window)
       then Mk self.(active_chunk) true event.(transaction_id)
       else Mk self.(active_chunk) false None
     | _ => self
     end, None)
  else if self.(in_watermark_window)
          && bool_decide (is_Some (self.(active_chunk) !! key_str event))
  then (Mk (reconcile self.(active_chunk) event) self.(in_watermark_window) self.(active_tx),
        Some event)
  else (self, Some event).

(** [values()] of a [HashMap] come in an unspecified order, the argument [order]. *)
Definition flush_chunk (self : t) (order : list (string * ChangeEvent)) : t * list ChangeEvent :=
  (Mk ∅ self.(in_watermark_window) self.(active_tx), order.*2).

Definition flush_order (self : t) (order : list (string * ChangeEvent)) : Prop :=
  order ≡ₚ map_to_list self.(active_chunk).

Definition is_in_window (self : t) : bool := self.(in_watermark_window).

Fixpoint run (self : t) (events : list ChangeEvent) : t * list ChangeEvent :=
  match events with
  | [] => (self, [])
  | e :: events' =>
    let '(self', out) := process_replication_event self e in
    let '(self'', outs) := run self' events' in
    (self'', match out with Some o => o :: outs | None => outs end)
  end.

(** ** Specification, row by row *)

(** Whether the window is open after [e]. *)
Definition window_step (w : bool) (e : ChangeEvent) : bool :=
  if is_watermark e then match e.(operation) with Create | Commit => negb w | _ => w end else w.

(** What [e] does to the row with key [k]. *)
Definition row_step (k : string) (w : bool) (e : ChangeEvent) (row : option ChangeEvent) :
    option ChangeEvent :=
  if negb (is_watermark e) && w && String.eqb (key_str e) k then
    match e.(operation) with
    | Delete => None
    | Update | Create => (λ r, with_timestamp (with_after r e.(after)) e.(timestamp)) <$> row
    | _ => row
    end
  else row.

Fixpoint row_run (k : string) (w : bool) (es : list ChangeEvent) (row : option ChangeEvent) :
    option ChangeEvent :=
  match es with [] => row | e :: es' => row_run k (window_step w e) es' (row_step k w e row) end.

(** ** Specification, as seen by a consumer

    A consumer keeps, for the snapshotted table, the value of each key; it applies the log events
    it is sent and then the rows of the flushed chunk. *)
Abbreviation table := (gmap string (option Value)).

Definition replay_event (tbl : string) (T : table) (e : ChangeEvent) : table :=
  if String.eqb e.(source_table_or_collection) tbl then
    match e.(operation) with
    | Create | Update => <[key_str e := e.(after)]> T
    | Delete => delete (key_str e) T
    | _ => T
    end
  else T.

Definition replay (tbl : string) (T : table) (es : list ChangeEvent) : table :=
  fold_left (replay_event tbl) es T.

Definition apply_rows (T : table) (rows : list ChangeEvent) : table :=
  fold_left (λ T r, <[key_str r := r.(after)]> T) rows T.

(** Whether the log changed the row [k] of the table. *)
Definition touches (tbl k : string) (e : ChangeEvent) : bool :=
  String.eqb e.(source_table_or_collection) tbl && String.eqb (key_str e) k &&
  match e.(operation) with Create | Update | Delete => true | _ => false end.

Definition touched (tbl k : string) (es : list ChangeEvent) : bool := existsb (touches tbl k) es.

(** The rows of the chunk are stored under their own keys. *)
Definition keyed (m : gmap string ChangeEvent) : Prop := ∀ k r, m !! k = Some r → key_str r = k.

(** ** Lemmas *)

Lemma process_window self e :
  (process_replication_event self e).1.(in_watermark_window)
    = window_step self.(in_watermark_window) e.
Proof.
  unfold process_replication_event, window_step. destruct (is_watermark e).
  - by destruct (operation e), (in_watermark_window self) eqn:?.
  - by destruct (_ && _).
Qed.

Lemma process_row self e k :
  (process_replication_event self e).1.(active_chunk) !! k
    = row_step k self.(in_watermark_window) e (self.(active_chunk) !! k).
Proof.
  unfold process_replication_event, row_step. destruct (is_watermark e); cbn [negb andb].
  { by destruct (operation e), (in_watermark_window self). }
  destruct (in_watermark_window self); cbn [andb]; [|done].
  destruct (String.eqb_spec (key_str e) k) as [<-|Hne].
  - case_bool_decide as Hin; cbn.
    + unfold reconcile. destruct (operation e); rewrite ?lookup_alter_eq, ?lookup_delete_eq; done.
    + apply eq_None_not_Some in Hin. rewrite Hin. by destruct (operation e).
  - case_bool_decide; cbn; [|done]. unfold reconcile.
    destruct (operation e); rewrite ?lookup_alter_ne, ?lookup_delete_ne; done.
Qed.

Lemma process_out self e :
  (process_replication_event self e).2 = if is_watermark e then None else Some e.
Proof. unfold process_replication_event. destruct (is_watermark e); [done|]. by destruct (_ && _). Qed.

Lemma watermark_run_row self es k :
  (run self es).1.(active_chunk) !! k
    = row_run k self.(in_watermark_window) es (self.(active_chunk) !! k).
Proof.
  revert self. induction es as [|e es IH]; intros self; cbn; [done|].
  pose proof (process_row self e k) as Hr. pose proof (process_window self e) as Hw.
  destruct (process_replication_event self e) as [s o]. cbn in *. specialize (IH s).
  destruct (run s es) as [s' os]. cbn in *. by rewrite IH, Hr, Hw.
Qed.

Lemma watermark_run_out self es :
  (run self es).2 = List.filter (λ e, negb (is_watermark e)) es.
Proof.
  revert self. induction es as [|e es IH]; intros self; cbn; [done|].
  pose proof (process_out self e) as Ho.
  destruct (process_replication_event self e) as [s o]. cbn in *. specialize (IH s).
  destruct (run s es) as [s' os]. cbn in *. subst. by destruct (is_watermark e).
Qed.

Lemma watermark_run_window self es :
  (run self es).1.(in_watermark_window) = fold_left window_step es self.(in_watermark_window).
Proof.
  revert self. induction es as [|e es IH]; intros self; cbn; [done|].
  pose proof (process_window self e) as Hw.
  destruct (process_replication_event self e) as [s o]. cbn in *. specialize (IH s).
  destruct (run s es) as [s' os]. cbn in *. by rewrite IH, Hw.
Qed.

Lemma load_chunk_keyed self rows : keyed (load_chunk self rows).(active_chunk).
Proof.
  cbn. assert (Hk : keyed ∅) by (intros k r; by rewrite lookup_empty).
  revert Hk. generalize (∅ : gmap string ChangeEvent) as m.
  induction rows as [|e rows IH]; intros m Hk; cbn; [done|]. apply IH.
  intros k r. rewrite lookup_insert. case_decide; [naive_solver | apply Hk].
Qed.

Lemma row_step_keyed k w e row :
  (∀ r, row = Some r → key_str r = k) → ∀ r, row_step k w e row = Some r → key_str r = k.
Proof.
  intros H r. unfold row_step. destruct (negb _ && w && _); [|apply H].
  destruct (operation e); try apply H; try done; destruct row as [r'|]; cbn; try done;
    intros [= <-]; apply (H r' eq_refl).
Qed.

Lemma run_keyed self es : keyed self.(active_chunk) → keyed (run self es).1.(active_chunk).
Proof.
  intros H k. rewrite watermark_run_row.
  assert (Hr : ∀ r, self.(active_chunk) !! k = Some r → key_str r = k) by (intros r; apply H).
  revert Hr. generalize (active_chunk self !! k) as row. generalize (in_watermark_window self) as w.
  induction es as [|e es IH]; intros w row Hr; cbn; [done|].
  apply IH. by apply row_step_keyed.
Qed.

(** One key of the consumer's table. *)
Definition cell_step (tbl k : string) (e : ChangeEvent) (c : option (option Value)) :
    option (option Value) :=
  if touches tbl k e then match e.(operation) with Delete => None | _ => Some e.(after) end else c.

Lemma replay_cell tbl T e k : replay_event tbl T e !! k = cell_step tbl k e (T !! k).
Proof.
  unfold replay_event, cell_step, touches.
  destruct (String.eqb (source_table_or_collection e) tbl); cbn [andb]; [|done].
  destruct (String.eqb_spec (key_str e) k) as [<-|Hne]; cbn [andb];
    destruct (operation e); rewrite ?lookup_insert_eq, ?lookup_delete_eq, ?lookup_insert_ne,
      ?lookup_delete_ne; done.
Qed.

(** A row of the chunk is gone or holds the consumer's value. *)
Definition tracks (row : option ChangeEvent) (c : option (option Value)) : Prop :=
  row = None ∨ ∃ r, row = Some r ∧ c = Some r.(after).

Lemma step_tracks tbl k e row c :
  is_watermark e = false → (key_str e = k → e.(source_table_or_collection) = tbl) →
  tracks row c ∨ touches tbl k e = true →
  tracks (row_step k true e row) (cell_step tbl k e c).
Proof.
  intros Hw Ht Hr. unfold row_step, cell_step, tracks in *.
  assert (Hto : touches tbl k e = String.eqb (key_str e) k &&
    match e.(operation) with Create | Update | Delete => true | _ => false end).
  { unfold touches. destruct (String.eqb_spec (key_str e) k) as [Hk|]; [|by rewrite andb_false_r].
    by rewrite (Ht Hk), String.eqb_refl. }
  rewrite Hto in *. rewrite Hw. cbn [negb andb].
  destruct (String.eqb (key_str e) k); cbn [andb] in *; [|by destruct Hr].
  destruct (operation e); cbn in *; try (by left); try (by destruct Hr);
    destruct row; cbn; eauto.
Qed.

(** In the window, tracking is preserved, and established by the first touching event. *)
Lemma run_tracks tbl k es row c :
  Forall (λ e, is_watermark e = false ∧
               (key_str e = k → e.(source_table_or_collection) = tbl)) es →
  tracks row c ∨ touched tbl k es = true →
  tracks (row_run k true es row) (fold_left (λ c e, cell_step tbl k e c) es c).
Proof.
  intros H. revert row c. induction H as [|e es [Hw Ht] _ IH]; intros row c Hr.
  { by destruct Hr. }
  cbn in *. unfold window_step at 1. rewrite Hw. apply IH.
  destruct (touches tbl k e) eqn:Et; cbn in Hr.
  - left. apply step_tracks; auto.
  - destruct Hr as [Hr|Hr]; [left; apply step_tracks; auto | by right].
Qed.

Lemma row_run_untouched tbl k es row :
  Forall (λ e, is_watermark e = false ∧
               (key_str e = k → e.(source_table_or_collection) = tbl)) es →
  touched tbl k es = false → row_run k true es row = row.
Proof.
  intros H. revert row. induction H as [|e es [Hw Ht] _ IH]; intros row Hn; [done|].
  cbn in *. apply orb_false_iff in Hn as [Hn1 Hn2]. unfold window_step. rewrite Hw, IH by done.
  unfold row_step. rewrite Hw. cbn [negb andb].
  destruct (String.eqb_spec (key_str e) k) as [Hk|Hk]; [|done].
  unfold touches in Hn1. rewrite (Ht Hk), Hk, !String.eqb_refl in Hn1. cbn in Hn1.
  by destruct (operation e).
Qed.

Lemma replay_lookup tbl T es k :
  replay tbl T es !! k = fold_left (λ c e, cell_step tbl k e c) es (T !! k).
Proof.
  unfold replay. revert T. induction es as [|e es IH]; intros T; cbn; [done|].
  by rewrite IH, replay_cell.
Qed.

Lemma cell_untouched tbl k es c :
  touched tbl k es = false → fold_left (λ c e, cell_step tbl k e c) es c = c.
Proof.
  revert c. induction es as [|e es IH]; intros c Hn; cbn in *; [done|].
  apply orb_false_iff in Hn as [Hn1 Hn2]. rewrite IH by done. unfold cell_step. by rewrite Hn1.
Qed.

Lemma apply_rows_lookup T (order : list (string * ChangeEvent)) k :
  NoDup order.*1 → Forall (λ kr, key_str kr.2 = kr.1) order →
  apply_rows T order.*2 !! k =
    match (list_to_map order : gmap string ChangeEvent) !! k with
    | Some r => Some r.(after)
    | None => T !! k
    end.
Proof.
  unfold apply_rows. revert T. induction order as [|[j r] order IH]; intros T Hn Hk; cbn; [done|].
  apply NoDup_cons in Hn as [Hj Hn]. apply Forall_cons in Hk as [Hjr Hk]. cbn in Hjr. subst j.
  rewrite IH by done. destruct (decide (key_str r = k)) as [<-|Hne].
  - rewrite (not_elem_of_list_to_map_1 order) by done. by rewrite !lookup_insert_eq.
  - by rewrite !lookup_insert_ne.
Qed.

Lemma flush_lookup self order T k :
  keyed self.(active_chunk) → flush_order self order →
  apply_rows T (flush_chunk self order).2 !! k =
    match self.(active_chunk) !! k with Some r => Some r.(after) | None => T !! k end.
Proof.
  intros Hk Ho. assert (Hn : NoDup order.*1) by (rewrite Ho; apply NoDup_fst_map_to_list).
  unfold flush_chunk. cbn [snd]. rewrite apply_rows_lookup; [|done|].
  - by rewrite (list_to_map_proper order _ Hn Ho), list_to_map_to_list.
  - rewrite Ho. apply Forall_forall. intros [j r] Hin%elem_of_map_to_list. by apply Hk.
Qed.

(** ** Properties *)

(** The snapshotter is a row-by-row reconciliation: after any events, the window flag is the
    parity of the watermark markers, each row of the chunk is what the events of its own key
    inside the window made of it, and exactly the rows of the watermark table are filtered out
    of the stream, every other event passing unchanged and in order. *)
Theorem process_refines_rows (self : t) (es : list ChangeEvent) :
  let '(self', out) := run self es in
  self'.(in_watermark_window) = fold_left window_step es self.(in_watermark_window) ∧
  (∀ k, self'.(active_chunk) !! k =
     row_run k self.(in_watermark_window) es (self.(active_chunk) !! k)) ∧
  out = List.filter (λ e, negb (is_watermark e)) es.
Proof.
  pose proof (watermark_run_window self es). pose proof (watermark_run_row self es).
  pose proof (watermark_run_out self es). by destruct (run self es).
Qed.

(** C12. The snapshot is consistent with the log: load a chunk of one table, process log events in the
    window, send them and then flush the chunk in any order.  A key the log touched ends with the
    value the log gave it (the flush never brings back an older value or a deleted row), and an
    untouched key ends with its snapshot value, or keeps the consumer's when it has no row.  It is
    required that no event of another table has the key of a row. *)
Theorem snapshot_consistent (self self' : t) (tbl : string) (rows es out : list ChangeEvent)
    (order : list (string * ChangeEvent)) (T : table)
    (Hwin : self.(in_watermark_window) = true)
    (Hrun : run (load_chunk self rows) es = (self', out))
    (Hes : Forall (λ e, is_watermark e = false) es)
    (Hkeys : ∀ k e, e ∈ es → is_Some ((load_chunk self rows).(active_chunk) !! k) →
       key_str e = k → e.(source_table_or_collection) = tbl)
    (Hord : flush_order self' order) :
  ∀ k, apply_rows (replay tbl T out) (flush_chunk self' order).2 !! k =
    if touched tbl k es then replay tbl T es !! k
    else match (load_chunk self rows).(active_chunk) !! k with
         | Some r => Some r.(after)
         | None => T !! k
         end.
Proof.
  intros k. set (s0 := load_chunk self rows) in *.
  assert (Hout : out = es).
  { pose proof (watermark_run_out s0 es) as Ho. rewrite Hrun in Ho. cbn in Ho. subst.
    clear -Hes. induction Hes as [|e es E _ IH]; cbn; [done|]. by rewrite E, IH. }
  assert (Hrow : self'.(active_chunk) !! k = row_run k true es (s0.(active_chunk) !! k)).
  { pose proof (watermark_run_row s0 es k) as Hr. rewrite Hrun in Hr. cbn in Hr.
    by rewrite Hwin in Hr. }
  assert (Hkeyed : keyed self'.(active_chunk)).
  { pose proof (run_keyed s0 es (load_chunk_keyed _ _)) as Hk. by rewrite Hrun in Hk. }
  subst out. rewrite flush_lookup, Hrow by done. clear Hrun Hrow Hkeyed Hord.
  destruct (s0.(active_chunk) !! k) as [r|] eqn:Er; cycle 1.
  - assert (Hnone : row_run k true es None = None).
    { clear -Hes. induction Hes as [|e es E _ IH]; cbn; [done|]. unfold window_step, row_step.
      rewrite E. cbn. destruct (String.eqb _ k), (operation e); done. }
    rewrite Hnone, replay_lookup. destruct (touched tbl k es) eqn:Et; [done|].
    by rewrite cell_untouched.
  - assert (Hall : Forall (λ e, is_watermark e = false ∧
               (key_str e = k → e.(source_table_or_collection) = tbl)) es).
    { apply Forall_forall. intros e He. rewrite Forall_forall in Hes. split; [by apply Hes|].
      intros Hk. eapply Hkeys; eauto. }
    rewrite replay_lookup. destruct (touched tbl k es) eqn:Et.
    + destruct (run_tracks tbl k es (Some r) (T !! k) Hall (or_intror Et)) as [->|(r' & -> & E)];
        [done|]. by rewrite E.
    + by rewrite (row_run_untouched tbl).
Qed.

(** The chunk is indexed by the key alone: inside the window, an update or insert in any other
    table whose key prints like the key of a row overwrites that row with the other table's
    payload, and a delete removes it. *)
Theorem other_table_corrupts_row (self : t) (row e : ChangeEvent)
    (Hwin : self.(in_watermark_window) = true)
    (Hrow : self.(active_chunk) !! key_str e = Some row)
    (Htable : e.(source_table_or_collection) ≠ row.(source_table_or_collection))
    (Hw : is_watermark e = false) :
  (process_replication_event self e).1.(active_chunk) !! key_str e =
    match e.(operation) with
    | Create | Update => Some (with_timestamp (with_after row e.(after)) e.(timestamp))
    | Delete => None
    | _ => Some row
    end.
Proof.
  rewrite process_row, Hrow, Hwin. unfold row_step. rewrite Hw, String.eqb_refl. cbn.
  by destruct (operation e).
Qed.
End watermark.

(** ** Witnesses *)

Definition row (k v : string) : ChangeEvent :=
  MkEvent "snap" "db" "users" Snapshot 0 (VString k) None (Some (VString v)) None "0".
Definition log_event (tbl : string) (op : Operation) (k v : string) : ChangeEvent :=
  MkEvent "e" "db" tbl op 1 (VString k) None (Some (VString v)) None "1".

Definition open_window : t := Mk ∅ true None.
Definition loaded : t :=
  load_chunk (J:=tree_json) open_window [row "1" "John"; row "2" "Ann"; row "3" "Bob"].
Definition live : list ChangeEvent :=
  [log_event "users" Update "1" "Jo"; log_event "users" Delete "2" ""; log_event "users" Create "4" "D"].

Lemma snapshot_consistent_witness :
  let '(s, out) := run (J:=tree_json) loaded live in
  apply_rows (J:=tree_json) (replay (J:=tree_json) "users" ∅ out)
    (flush_chunk s (map_to_list s.(active_chunk))).2 !! "1"%string = Some (Some (VString "Jo")).
Proof.
  destruct (run (J:=tree_json) loaded live) as [s out] eqn:E.
  rewrite (snapshot_consistent (J:=tree_json) open_window s "users"
    [row "1" "John"; row "2" "Ann"; row "3" "Bob"] live out (map_to_list s.(active_chunk)) ∅).
  - reflexivity.
  - reflexivity.
  - exact E.
  - repeat constructor.
  - intros k e He _ _. unfold live in He. rewrite !elem_of_cons in He.
    destruct He as [->|[->|[->|He]]]; [reflexivity..|]. by apply not_elem_of_nil in He.
  - exact (Permutation_refl _).
Defined.

Lemma other_table_corrupts_row_witness :
  (process_replication_event (J:=tree_json) loaded (log_event "orders" Update "1" "order-1"))
    .1.(active_chunk) !! "1"%string
    = Some (with_timestamp (with_after (row "1" "John") (Some (VString "order-1"))) 1).
Proof.
  apply (other_table_corrupts_row (J:=tree_json) loaded (row "1" "John")
    (log_event "orders" Update "1" "order-1")); [reflexivity | reflexivity | done | reflexivity].
Defined.
End WatermarkSnapshotter.
