(* ===== verification/Consensus.v ===== *)
(** [ClusterCoordinator] ([src/consensus/mod.rs]) and [FailoverController]
    ([src/consensus/failover.rs]).

    The election task and the caller of [shutdown] run concurrently on two atomic flags.  Each
    atomic access is one step and the steps of the two interleave in any order (a sequentially
    consistent reading of the relaxed accesses; weaker orders only add behaviours). *)
From S2P Require Import Prelude Text F64 Event Store Reference.

Module ClusterCoordinator.

(** ** The component *)

Inductive StateRole := Follower | Candidate | Leader.

(** [150 + (node_id * 50) % 150] milliseconds, in [u64]. *)
Definition election_timeout (p : Profile) (node_id : Z) : Outcome Z :=
  m ← mul_w 64 p node_id 50;
  add_w 64 p 150 (m mod 150).

(** Where the election task is: asleep, past its test of [shutdown] but not yet at the match, or
    out of the loop. *)
Inductive loop_pc := Sleeping | Checked | Terminated.

(** Where the caller of [shutdown] is: its two stores are separate. *)
Inductive shutdown_pc := NotCalled | FlagStored | Returned.

Record t := Mk {
  node_id : Z;
  is_leader : bool;         (* Arc<AtomicBool> *)
  shutdown : bool;          (* Arc<AtomicBool> *)
  role : StateRole;         (* local to the task *)
  term : Z;                 (* local to the task *)
  lpc : loop_pc;
  spc : shutdown_pc;
}.

(** [new(node_id)] followed by [start_election_loop()]. *)
Definition start (node_id : Z) : t := Mk node_id false false Follower 0 Sleeping NotCalled.

(** The sleep ends and [shutdown] is loaded. *)
Definition wake (s : t) : t :=
  Mk s.(node_id) s.(is_leader) s.(shutdown) s.(role) s.(term)
    (if s.(shutdown) then Terminated else Checked) s.(spc).

(** The match on the role, back to the sleep. *)
Definition act (s : t) : t :=
  match s.(role) with
  | Follower => Mk s.(node_id) s.(is_leader) s.(shutdown) Candidate (s.(term) + 1) Sleeping s.(spc)
  | Candidate => Mk s.(node_id) true s.(shutdown) Leader s.(term) Sleeping s.(spc)
  | Leader => Mk s.(node_id) true s.(shutdown) Leader s.(term) Sleeping s.(spc)
  end.

(** The two stores of [shutdown()]. *)
Definition store_flag (s : t) : t :=
  Mk s.(node_id) s.(is_leader) true s.(role) s.(term) s.(lpc) FlagStored.
Definition store_follower (s : t) : t :=
  Mk s.(node_id) false s.(shutdown) s.(role) s.(term) s.(lpc) Returned.

Inductive label := Wake | Act | Shut1 | Shut2.

(** One atomic step; [None] where the label is not enabled. *)
Definition exec (l : label) (s : t) : option t :=
  match l, s.(lpc), s.(spc) with
  | Wake, Sleeping, _ => Some (wake s)
  | Act, Checked, _ => Some (act s)
  | Shut1, _, NotCalled => Some (store_flag s)
  | Shut2, _, FlagStored => Some (store_follower s)
  | _, _, _ => None
  end.

Fixpoint exec_all (ls : list label) (s : t) : option t :=
  match ls with [] => Some s | l :: ls' => s' ← exec l s; exec_all ls' s' end.

Definition step (s s' : t) : Prop := ∃ l, exec l s = Some s'.
Definition reachable (node_id : Z) (s : t) : Prop := rtc step (start node_id) s.

(** ** Invariants *)

Record inv (s : t) : Prop := {
  inv_term : s.(term) = match s.(role) with Follower => 0 | _ => 1 end;
  inv_elected : s.(is_leader) = true → s.(role) = Leader;
  inv_leads : s.(role) = Leader → s.(spc) ≠ Returned → s.(is_leader) = true;
  inv_flag : s.(shutdown) = true ↔ s.(spc) ≠ NotCalled;
  inv_stop : s.(lpc) = Terminated → s.(shutdown) = true;
}.

(** The task can no longer store [true]: it will see the flag first. *)
Definition stopped (s : t) : Prop :=
  s.(shutdown) = true ∧ s.(spc) = Returned ∧ s.(lpc) ≠ Checked.

(** ** Lemmas *)

(** Case analysis on an enabled step. *)
Ltac exec_cases :=
  repeat match goal with
  | H : exec ?l ?s = Some _ |- _ =>
    destruct s, l; unfold exec in H; cbn in *; repeat case_match; simplify_eq
  end.

Lemma inv_start n : inv (start n).
Proof. by split. Qed.

Lemma exec_inv l s s' : inv s → exec l s = Some s' → inv s'.
Proof.
  intros [H1 H2 H3 H4 H5] H. exec_cases; unfold wake, act, store_flag, store_follower in *;
    cbn in *; repeat case_match; split; cbn in *; naive_solver.
Qed.

Lemma reachable_inv n s : reachable n s → inv s.
Proof.
  intros H. apply (rtc_invariant step inv) in H; [done| |apply inv_start].
  intros x y Hx [l Hl]. by eapply exec_inv.
Qed.

Lemma exec_all_step ls s s' : exec_all ls s = Some s' → rtc step s s'.
Proof.
  revert s. induction ls as [|l ls IH]; cbn; [intros s [= ->]; apply rtc_refl|].
  intros s H. destruct (exec l s) as [s1|] eqn:E; [|done]. cbn in H.
  eapply rtc_l; [by exists l | by apply IH].
Qed.

(** The flag and the state of the shutdown call never go back. *)
Lemma exec_stopped l s s' : stopped s → exec l s = Some s' → stopped s' ∧ is_leader s' = is_leader s.
Proof.
  unfold stopped. intros (H1 & H2 & H3) H. exec_cases; unfold wake in *; cbn in *; naive_solver.
Qed.

Lemma rtc_stopped s s' : rtc step s s' → stopped s → stopped s' ∧ is_leader s' = is_leader s.
Proof.
  intros H. induction H as [|x y z [l Hl] _ IH]; intros Hs; [done|].
  destruct (exec_stopped _ _ _ Hs Hl) as [Hy E]. destruct (IH Hy). split; congruence.
Qed.

Lemma election_timeout_range p n r : election_timeout p n = Ret r → 150 <= r < 300.
Proof.
  unfold election_timeout. destruct (mul_w 64 p n 50) as [m|] eqn:Em; [|done]. cbn.
  pose proof (Z.mod_pos_bound m 150 ltac:(lia)). unfold add_w.
  rewrite overflowing_exact by (split; lia). intros [= <-]. lia.
Qed.

(** ** Properties *)

(** The election: whatever its id, a node that is not shut down becomes leader of term 1 after
    exactly two timeouts (Follower, Candidate, Leader), with no vote of any other node, and the
    timeout, when it can be computed, is between 150 and 299 milliseconds; so any two nodes of a
    cluster are leaders of the same term at the same time. *)
Theorem every_node_elects_itself (p : Profile) (n m : Z) :
  exec_all [Wake; Act; Wake; Act] (start n) = Some (Mk n true false Leader 1 Sleeping NotCalled) ∧
  exec_all [Wake; Act; Wake; Act] (start m) = Some (Mk m true false Leader 1 Sleeping NotCalled) ∧
  (∀ r, election_timeout p n = Ret r → 150 <= r < 300).
Proof. split_and!; [done | done | apply election_timeout_range]. Qed.

(** C37. The invariant of the election, in every reachable state of the task and the shutdown call:
    the term is 0 in the role Follower, that is before the first timeout has been acted on, and 1 in the roles
    Candidate and Leader, so it never grows again; the leader flag is up only in the Leader role, a node
    in the Leader role stays leader until [shutdown] has returned, and the task ends only after
    [shutdown] was called. *)
Theorem election_invariant (n : Z) (s : t) (H : reachable n s) :
  s.(term) = match s.(role) with Follower => 0 | Candidate | Leader => 1 end ∧
  (s.(is_leader) = true → s.(role) = Leader ∧ s.(term) = 1) ∧
  (s.(role) = Leader → s.(spc) ≠ Returned → s.(is_leader) = true) ∧
  (s.(lpc) = Terminated → s.(spc) ≠ NotCalled).
Proof.
  destruct (reachable_inv n s H) as [H1 H2 H3 H4 H5].
  split_and!; [by destruct (role s) | | done |].
  - intros Hl. specialize (H2 Hl). by rewrite H1, H2.
  - intros Ht. by apply H4, H5.
Qed.

(** When [shutdown] returns while the task is not between its test of the flag and its match,
    leadership is released for good: no later state has the leader flag up. *)
Theorem shutdown_releases (n : Z) (s s' : t) (H : reachable n s)
    (Hret : s.(spc) = Returned) (Hpc : s.(lpc) ≠ Checked) (Hdown : s.(is_leader) = false)
    (Hlater : rtc step s s') : s'.(is_leader) = false.
Proof.
  apply rtc_stopped in Hlater as [_ ->]; [done|]. split_and!; [|done|done].
  apply (inv_flag s (reachable_inv n s H)). congruence.
Qed.

(** Otherwise leadership can survive the shutdown: if the task has already tested the flag, both
    stores of [shutdown] fall between its test and its own store, the leader flag ends up, the task
    then terminates, and no later step can lower the flag. *)
Theorem shutdown_race (n : Z) :
  ∃ s, reachable n s ∧ s.(spc) = Returned ∧ s.(lpc) = Terminated ∧ s.(is_leader) = true ∧
    ∀ s', rtc step s s' → s'.(is_leader) = true.
Proof.
  exists (Mk n true true Leader 1 Terminated Returned).
  split_and!; [|done|done|done|].
  - by apply (exec_all_step [Wake; Act; Wake; Shut1; Shut2; Act; Wake]).
  - by intros s' [_ ->]%rtc_stopped.
Qed.

(** ** Witnesses *)

Definition led : t := Mk 1 true false Leader 1 Sleeping NotCalled.

Lemma reachable_led : reachable 1 led.
Proof. by apply (exec_all_step [Wake; Act; Wake; Act]). Qed.

Lemma election_invariant_witness : led.(role) = Leader ∧ led.(term) = 1.
Proof. destruct (election_invariant 1 led reachable_led) as (_ & H & _). by apply H. Defined.

Lemma shutdown_releases_witness : (wake (store_follower (store_flag led))).(is_leader) = false.
Proof.
  apply (shutdown_releases 1 (store_follower (store_flag led))); [|done|done|done|].
  - by apply (exec_all_step [Wake; Act; Wake; Act; Shut1; Shut2]).
  - by apply (exec_all_step [Wake]).
Defined.
End ClusterCoordinator.

Module FailoverController.
Section failover.
Context `{R : RocksDB} `{J : SerdeJson}.

(** Instants and durations in nanoseconds. *)
Record t := Mk {
  node_id : Z;
  heartbeat_interval : Z;
  last_leader_heartbeat : Z;   (* Mutex<Instant> *)
  active_lease : bool;         (* Mutex<bool> *)
}.

(** [now] is what [Instant::now()] returns. *)
Definition new (now node_id heartbeat_millis : Z) : t :=
  Mk node_id (heartbeat_millis * 1000000) now false.

Definition record_heartbeat (now : Z) (self : t) : t :=
  Mk self.(node_id) self.(heartbeat_interval) now self.(active_lease).

(** [elapsed()] saturates at zero. *)
Definition check_and_claim_lease (now : Z) (self : t) : t * bool :=
  let elapsed := Z.max 0 (now - self.(last_leader_heartbeat)) in
  if self.(heartbeat_interval) * 2 <? elapsed
  then (Mk self.(node_id) self.(heartbeat_interval) self.(last_leader_heartbeat) true, true)
  else (self, self.(active_lease)).

Definition resume_checkpoint_offset (self : t) (store : StateStore.t R) (source_id : string) :
    option string :=
  match StateStore.get_offset (J:=J) store source_id with
  | Ok (Some offset) => Some offset
  | _ => None
  end.

(** ** Runs *)

Inductive op := Heartbeat (now : Z) | Check (now : Z).

Definition run_op (self : t) (o : op) : t :=
  match o with
  | Heartbeat now => record_heartbeat now self
  | Check now => (check_and_claim_lease now self).1
  end.

Definition run (ops : list op) (self : t) : t := fold_left run_op ops self.

(** The last heartbeat of a run. *)
Definition last_heartbeat (init : Z) (ops : list op) : Z :=
  fold_left (λ t o, match o with Heartbeat now => now | Check _ => t end) ops init.

(** A check of the run saw more than two intervals without a heartbeat. *)
Definition lapsed (self : t) (ops : list op) : Prop :=
  ∃ pre now post, ops = pre ++ Check now :: post ∧
    2 * self.(heartbeat_interval) < Z.max 0 (now - last_heartbeat self.(last_leader_heartbeat) pre).

(** ** Lemmas *)

Lemma failover_run_app ops1 ops2 self : run (ops1 ++ ops2) self = run ops2 (run ops1 self).
Proof. apply fold_left_app. Qed.

Lemma run_fields ops self :
  (run ops self).(last_leader_heartbeat) = last_heartbeat self.(last_leader_heartbeat) ops ∧
  (run ops self).(heartbeat_interval) = self.(heartbeat_interval).
Proof.
  unfold run, last_heartbeat. revert self. induction ops as [|o ops IH]; intros self; [done|]. cbn.
  destruct (IH (run_op self o)) as [-> ->].
  destruct o as [now|now]; cbn; [done|]. unfold check_and_claim_lease. by case_match.
Qed.

Lemma lapsed_snoc self ops o :
  lapsed self (ops ++ [o]) ↔ lapsed self ops ∨
    ∃ now, o = Check now ∧
      2 * self.(heartbeat_interval) < Z.max 0 (now - last_heartbeat self.(last_leader_heartbeat) ops).
Proof.
  unfold lapsed. split.
  - intros (pre & now & post & E & H). destruct post as [|p post _] using rev_ind.
    + apply app_inj_tail in E as [-> ->]. eauto.
    + rewrite app_comm_cons, app_assoc in E. apply app_inj_tail in E as [-> _].
      left. eauto 10.
  - intros [(pre & now & post & -> & H)|(now & -> & H)].
    + exists pre, now, (post ++ [o]). by rewrite <- app_assoc.
    + by exists ops, now, [].
Qed.

Lemma lease_lapsed ops self :
  (run ops self).(active_lease) = true ↔ self.(active_lease) = true ∨ lapsed self ops.
Proof.
  induction ops as [|o ops IH] using rev_ind.
  - cbn. split; [by left|]. intros [?|(pre & now & post & E & _)]; [done|].
    by destruct pre.
  - rewrite failover_run_app, lapsed_snoc, (assoc or), <- IH.
    destruct (run_fields ops self) as [Hl Hi].
    destruct o as [now|now]; cbn; [naive_solver|]. unfold check_and_claim_lease. rewrite Hi, Hl.
    case_match eqn:E; cbn.
    + apply Z.ltb_lt in E. split; [|done]. intros _. right. exists now. split; [done|lia].
    + apply Z.ltb_ge in E. split; [by left|]. intros [?|(? & [= <-] & ?)]; [done|lia].
Qed.

(** ** Properties *)

(** The lease is claimed exactly on a lapse: after any sequence of heartbeats and checks a node
    holds the lease iff it held it before, or some check came more than twice the heartbeat
    interval after the last heartbeat before it; so a leader that beats in time is never
    overtaken, and a claimed lease is never given back, whatever heartbeats follow. *)
Theorem lease_iff_lapsed (self : t) (ops : list op) :
  (run ops self).(active_lease) = true ↔ self.(active_lease) = true ∨ lapsed self ops.
Proof. apply lease_lapsed. Qed.

(** A restarted node resumes from the last saved offset: after a successful [save_offset] of a
    source, whatever later saves for other sources succeed, [resume_checkpoint_offset] returns
    exactly that offset (if the database can be read). *)
Theorem resume_after_save {L : RocksDBLaws R} (self : t) (s0 s1 s2 : StateStore.t R)
    (sid other off off' : string) (Hoff : is_str off) (Hne : other ≠ sid)
    (H1 : StateStore.save_offset (J:=J) s0 sid off = (s1, Ok tt))
    (H2 : StateStore.save_offset (J:=J) s1 other off' = (s2, Ok tt))
    (Hr : db_readable (StateStore.handle s2)) :
  resume_checkpoint_offset self s2 sid = Some off.
Proof.
  apply StateStore.save_offset_at in H1 as [H1 _], H2 as [H2 _].
  unfold resume_checkpoint_offset.
  rewrite StateStore.get_offset_readable, H2, decide_False, H1, decide_True, of_as_bytes by done.
  by rewrite Hoff.
Qed.
End failover.
Arguments t : clear implicits.

Lemma resume_after_save_witness :
  resume_checkpoint_offset (J:=tree_json) (new 0 1 1000)
    (StateStore.save_offset (J:=tree_json)
      (StateStore.save_offset (J:=tree_json) empty_store "pg" "555").1 "cass" "7").1 "pg"
    = Some "555"%string.
Proof.
  apply (resume_after_save (J:=tree_json) (new 0 1 1000) empty_store
    (StateStore.save_offset (J:=tree_json) empty_store "pg" "555").1 _ "pg" "cass" "555" "7");
    [reflexivity | done | reflexivity | reflexivity | apply mem_db_readable].
Defined.
End FailoverController.
