(* ===== verification/Parallel.v ===== *)
(** [ParallelSnapshotter] ([src/snapshot/parallel.rs]): the key range of a table is cut in chunks
    that a pool of workers claims, processes and completes under a mutex. *)
From S2P Require Import Prelude Text F64 Event Store Reference.

Module ParallelSnapshotter.

(** ** Chunks *)

Inductive ChunkStatus := Pending | InProgress | Completed.

#[export] Instance ChunkStatus_eq_dec : EqDecision ChunkStatus.
Proof. solve_decision. Defined.

Record ChunkRange := Chunk {
  chunk_id : Z;       (* u32 *)
  min_key : Z;        (* u64 *)
  max_key : Z;        (* u64 *)
  status : ChunkStatus;
}.

Definition set_status (s : ChunkStatus) (c : ChunkRange) : ChunkRange :=
  Chunk c.(chunk_id) c.(min_key) c.(max_key) s.

(** One turn of the [while] loop of [new], whose test has succeeded. *)
Definition cut_chunk (p : Profile) (total_rows chunk_size mn cid : Z) (chunks : list ChunkRange) :
    Outcome (Z * Z * list ChunkRange) :=
  a ← add_w 64 p mn chunk_size;
  b ← sub_w 64 p a 1;
  let mx := Z.min b total_rows in
  let chunks' := chunks ++ [Chunk cid mn mx Pending] in
  cid' ← add_w 32 p cid 1;
  mn' ← add_w 64 p mx 1;
  Ret (mn', cid', chunks').

(** The loop; [None] when [fuel] turns are not enough. *)
Fixpoint cut_loop (p : Profile) (fuel : nat) (total_rows chunk_size mn cid : Z)
    (chunks : list ChunkRange) : option (Outcome (list ChunkRange)) :=
  match fuel with
  | O => None
  | S fuel' =>
    if mn <=? total_rows then
      match cut_chunk p total_rows chunk_size mn cid chunks with
      | Panic => Some Panic
      | Ret (mn', cid', chunks') => cut_loop p fuel' total_rows chunk_size mn' cid' chunks'
      end
    else Some (Ret chunks)
  end.

Definition new (p : Profile) (fuel : nat) (total_rows chunk_size : Z) :
    option (Outcome (list ChunkRange)) :=
  cut_loop p fuel total_rows chunk_size 1 0 [].

(** ** Workers *)

(** The search under the first lock: the first pending chunk is marked and cloned. *)
Fixpoint claim (chunks : list ChunkRange) : option (ChunkRange * list ChunkRange) :=
  match chunks with
  | [] => None
  | c :: cs =>
    if decide (c.(status) = Pending)
    then let c' := set_status InProgress c in Some (c', c' :: cs)
    else '(x, cs') ← claim cs; Some (x, c :: cs')
  end.

(** The update under the second lock: the first chunk with that id is completed. *)
Fixpoint complete (cid : Z) (chunks : list ChunkRange) : list ChunkRange :=
  match chunks with
  | [] => []
  | c :: cs => if c.(chunk_id) =? cid then set_status Completed c :: cs else c :: complete cid cs
  end.

(** Where a worker is: about to look for a chunk, running [process_fn] on one, returned, or dead
    because [process_fn] panicked (the join error is ignored). *)
Inductive worker := Idle | Working (c : ChunkRange) | Stopped | Crashed (c : ChunkRange).

(** [calls] is the sequence of the calls of [process_fn]. *)
Record pool := Pool {
  chunks : list ChunkRange;
  workers : list worker;
  calls : list ChunkRange;
}.

Definition spawn (chunks : list ChunkRange) (worker_count : nat) : pool :=
  Pool chunks (replicate worker_count Idle) [].

Inductive step : pool → pool → Prop :=
  | step_claim s i c cs :
      s.(workers) !! i = Some Idle → claim s.(chunks) = Some (c, cs) →
      step s (Pool cs (<[i := Working c]> s.(workers)) (s.(calls) ++ [c]))
  | step_stop s i :
      s.(workers) !! i = Some Idle → claim s.(chunks) = None →
      step s (Pool s.(chunks) (<[i := Stopped]> s.(workers)) s.(calls))
  | step_complete s i c :
      s.(workers) !! i = Some (Working c) →
      step s (Pool (complete c.(chunk_id) s.(chunks)) (<[i := Idle]> s.(workers)) s.(calls))
  | step_crash s i c :
      s.(workers) !! i = Some (Working c) →
      step s (Pool s.(chunks) (<[i := Crashed c]> s.(workers)) s.(calls)).

(** All handles have been awaited. *)
Definition finished (s : pool) : Prop :=
  Forall (λ w, match w with Stopped | Crashed _ => True | _ => False end) s.(workers).

Definition completed_count (chunks : list ChunkRange) : nat :=
  length (filter (λ c, c.(status) = Completed) chunks).

(** The progress saved at the end. *)
Definition save_progress `{R : RocksDB} `{J : SerdeJson} (store : StateStore.t R)
    (table_name : string) (chunks : list ChunkRange) : StateStore.t R :=
  (StateStore.save_offset (J:=J) store (table_name ++ "_snapshot_progress")
     (display_u64 (Z.of_nat (completed_count chunks)) ++ "/"
        ++ display_u64 (Z.of_nat (length chunks)))).1.

(** ** Specification *)

(** The chunk number [i] of a table of [total_rows] rows. *)
Definition chunk_spec (total_rows chunk_size : Z) (i : nat) : ChunkRange :=
  Chunk (Z.of_nat i) (Z.of_nat i * chunk_size + 1)
    (Z.min ((Z.of_nat i + 1) * chunk_size) total_rows) Pending.

Definition chunk_count (total_rows chunk_size : Z) : nat :=
  Z.to_nat ((total_rows + chunk_size - 1) / chunk_size).

Definition chunks_spec (total_rows chunk_size : Z) : list ChunkRange :=
  chunk_spec total_rows chunk_size <$> seq 0 (chunk_count total_rows chunk_size).

(** The chunks being processed, or lost with their worker. *)
Definition held1 (w : worker) : list Z :=
  match w with Working c | Crashed c => [c.(chunk_id)] | _ => [] end.
Definition held (ws : list worker) : list Z := concat (held1 <$> ws).

Definition ids (l : list ChunkRange) : list Z := chunk_id <$> l.

Definition is_status (s : ChunkStatus) (c : ChunkRange) : bool :=
  match s, c.(status) with
  | Pending, Pending | InProgress, InProgress | Completed, Completed => true
  | _, _ => false
  end.

Record inv (cids : list Z) (s : pool) : Prop := {
  inv_ids : ids s.(chunks) = cids;
  inv_nodup : NoDup cids;
  inv_calls : ids s.(calls) ≡ₚ ids (List.filter (λ c, negb (is_status Pending c)) s.(chunks));
  inv_held : held s.(workers) ≡ₚ ids (List.filter (is_status InProgress) s.(chunks));
  inv_stopped : Stopped ∈ s.(workers) → List.filter (is_status Pending) s.(chunks) = [];
}.

(** The number of steps a pool can still make. *)
Definition weight1 (w : worker) : nat :=
  match w with Working _ => 2 | Idle => 1 | _ => 0 end.
Definition weight (s : pool) : nat :=
  3 * length (List.filter (is_status Pending) s.(chunks)) + list_sum (weight1 <$> s.(workers)).

(** ** Lemmas on the cutting *)

Lemma cut_chunk_exact p total cs (i : nat) acc :
  1 <= cs → 0 <= total → total + cs < 2 ^ 64 → Z.of_nat i * cs + 1 <= total → Z.of_nat i + 1 < 2 ^ 32 →
  cut_chunk p total cs (Z.of_nat i * cs + 1) (Z.of_nat i) acc =
    Ret (Z.min ((Z.of_nat i + 1) * cs) total + 1, Z.of_nat i + 1, acc ++ [chunk_spec total cs i]).
Proof.
  intros H1 H2 H3 H4 H5. unfold cut_chunk, add_w, sub_w.
  rewrite overflowing_exact by (split; lia). cbn [mbind Outcome_bind].
  rewrite overflowing_exact by (split; lia). cbn [mbind Outcome_bind].
  replace (Z.of_nat i * cs + 1 + cs - 1) with ((Z.of_nat i + 1) * cs) by lia.
  rewrite overflowing_exact by (split; lia). cbn [mbind Outcome_bind].
  rewrite overflowing_exact by (split; lia). done.
Qed.

Lemma chunk_count_bounds total cs : 1 <= cs → 0 <= total →
  let n := Z.of_nat (chunk_count total cs) in
  total <= n * cs ∧ (0 < n → (n - 1) * cs < total).
Proof.
  intros H1 H2. unfold chunk_count.
  assert (0 <= (total + cs - 1) / cs) by (apply Z.div_pos; lia).
  rewrite Z2Nat.id by lia. cbv zeta.
  pose proof (Z.div_mod (total + cs - 1) cs ltac:(lia)).
  pose proof (Z.mod_pos_bound (total + cs - 1) cs ltac:(lia)). split; nia.
Qed.

Lemma cut_loop_spec p total cs (i m fuel : nat) acc :
  1 <= cs → 0 <= total → total + cs < 2 ^ 64 →
  (i + m)%nat = chunk_count total cs → Z.of_nat (i + m) < 2 ^ 32 → (m < fuel)%nat →
  cut_loop p fuel total cs (Z.min (Z.of_nat i * cs) total + 1) (Z.of_nat i) acc =
    Some (Ret (acc ++ (chunk_spec total cs <$> seq i m))).
Proof.
  intros H1 H2 H3 Hn Hb. pose proof (chunk_count_bounds total cs H1 H2) as [Hc1 Hc2].
  rewrite <- Hn in Hc1, Hc2. clear Hn. revert i fuel acc Hb Hc1 Hc2.
  induction m as [|m IH]; intros i fuel acc Hb Hc1 Hc2 Hf; destruct fuel as [|fuel]; try lia;
    cbn [cut_loop].
  - rewrite (proj2 (Z.leb_gt _ _)); [by rewrite app_nil_r | nia].
  - assert (Hi : Z.of_nat i * cs < total) by nia.
    rewrite Z.min_l by lia. rewrite (proj2 (Z.leb_le _ _)) by lia.
    rewrite cut_chunk_exact by lia. replace (Z.of_nat i + 1) with (Z.of_nat (S i)) by lia.
    rewrite IH by (lia || (rewrite ?Nat.add_succ_l in *; lia)
      || (by rewrite Nat.add_succ_l, <- Nat.add_succ_r)).
    cbn. by rewrite <- app_assoc.
Qed.

Lemma chunks_cover total cs k : 1 <= cs → 0 <= total → 1 <= k <= total →
  ∃ i, (i < chunk_count total cs)%nat ∧
    (chunk_spec total cs i).(min_key) <= k <= (chunk_spec total cs i).(max_key).
Proof.
  intros H1 H2 Hk. pose proof (chunk_count_bounds total cs H1 H2) as [Hc1 _].
  pose proof (Z.div_mod (k - 1) cs ltac:(lia)). pose proof (Z.mod_pos_bound (k - 1) cs ltac:(lia)).
  assert (0 <= (k - 1) / cs) by (apply Z.div_pos; lia).
  exists (Z.to_nat ((k - 1) / cs)). unfold chunk_spec. cbn. rewrite Z2Nat.id by lia.
  split; [|nia]. apply Nat2Z.inj_lt. rewrite Z2Nat.id by lia. nia.
Qed.

Lemma chunks_disjoint total cs i j k : 1 <= cs →
  (chunk_spec total cs i).(min_key) <= k <= (chunk_spec total cs i).(max_key) →
  (chunk_spec total cs j).(min_key) <= k <= (chunk_spec total cs j).(max_key) → i = j.
Proof. unfold chunk_spec. cbn. intros. nia. Qed.

Lemma zero_size_loop p total fuel cid acc chs :
  1 <= total → in_range 64 total → cut_loop p fuel total 0 1 cid acc ≠ Some (Ret chs).
Proof.
  intros H1 [H2 H3]. revert cid acc. induction fuel as [|fuel IH]; intros cid acc; [done|].
  cbn [cut_loop]. rewrite (proj2 (Z.leb_le _ _)) by lia. unfold cut_chunk.
  change (add_w 64 p 1 0) with (@Ret Z 1). change (sub_w 64 p 1 1) with (@Ret Z 0).
  cbn [mbind Outcome_bind]. change (sub_w 64 p 1 1) with (@Ret Z 0). cbn [mbind Outcome_bind].
  rewrite Z.min_l by lia. destruct (add_w 32 p cid 1) as [cid'|]; cbn [mbind Outcome_bind]; [|done].
  change (add_w 64 p 0 1) with (@Ret Z 1). cbn [mbind Outcome_bind]. apply IH.
Qed.
(** ** Lemmas on the workers *)

Lemma claim_some l c l' : claim l = Some (c, l') →
  ∃ l1 d l2, l = l1 ++ d :: l2 ∧ d.(status) = Pending ∧ c = set_status InProgress d ∧
    l' = l1 ++ c :: l2.
Proof.
  revert c l'. induction l as [|d l IH]; intros c l'; cbn; [done|]. case_decide as Hd.
  - intros [= <- <-]. by exists [], d, l.
  - destruct (claim l) as [[x l2]|]; cbn; [|done]. intros [= <- <-].
    destruct (IH x l2 eq_refl) as (l1 & e & l3 & -> & He & -> & ->). by exists (d :: l1), e, l3.
Qed.

Lemma is_status_true s c : is_status s c = true ↔ c.(status) = s.
Proof. unfold is_status. destruct s, (status c); split; congruence. Qed.

Lemma is_status_false s c : is_status s c = false ↔ c.(status) ≠ s.
Proof. rewrite <- is_status_true. by rewrite not_true_iff_false. Qed.

Lemma claim_none l : claim l = None ↔ List.filter (is_status Pending) l = [].
Proof.
  induction l as [|d l IH]; cbn [claim List.filter]; [done|]. case_decide as Hd.
  - by rewrite (proj2 (is_status_true _ _) Hd).
  - rewrite (proj2 (is_status_false _ _) Hd), <- IH. by destruct (claim l) as [[]|].
Qed.

Lemma complete_split l1 d l2 : d.(chunk_id) ∉ ids l1 →
  complete d.(chunk_id) (l1 ++ d :: l2) = l1 ++ set_status Completed d :: l2.
Proof.
  induction l1 as [|c l1 IH]; cbn; intros H; [by rewrite Z.eqb_refl|].
  apply not_elem_of_cons in H as [Hne H]. rewrite (proj2 (Z.eqb_neq _ _)) by done. by rewrite IH.
Qed.

Lemma ids_app l1 l2 : ids (l1 ++ l2) = ids l1 ++ ids l2.
Proof. apply fmap_app. Qed.

Lemma filter_ids_elem (f : ChunkRange → bool) l k :
  k ∈ ids (List.filter f l) → ∃ l1 d l2, l = l1 ++ d :: l2 ∧ d.(chunk_id) = k ∧ f d = true.
Proof.
  intros (d & -> & Hd)%list_elem_of_fmap. apply list_elem_of_In, List.filter_In in Hd as [Hd Hf].
  apply in_split in Hd as (l1 & l2 & ->). by exists l1, d, l2.
Qed.

(** The contribution of one worker to a sum over the pool. *)
Lemma held_insert ws i w w' : ws !! i = Some w →
  held1 w ++ held (<[i := w']> ws) ≡ₚ held1 w' ++ held ws.
Proof.
  unfold held. revert i. induction ws as [|v ws IH]; intros [|i] H; cbn in *; [done..| |].
  - injection H as ->. rewrite !app_assoc. apply Permutation_app_tail, Permutation_app_comm.
  - rewrite !(Permutation_app_comm (held1 v)), !app_assoc. by rewrite IH.
Qed.

Lemma weight_insert ws i w w' : ws !! i = Some w →
  (weight1 w + list_sum (weight1 <$> <[i := w']> ws) = weight1 w' + list_sum (weight1 <$> ws))%nat.
Proof.
  revert i. induction ws as [|v ws IH]; intros [|i] H; [done..| |].
  - injection H as ->. cbn. lia.
  - specialize (IH i H).
    change (weight1 w + (weight1 v + list_sum (weight1 <$> <[i := w']> ws))
            = weight1 w' + (weight1 v + list_sum (weight1 <$> ws)))%nat. lia.
Qed.

Lemma held_elem ws i c : ws !! i = Some (Working c) → c.(chunk_id) ∈ held ws.
Proof.
  intros H. unfold held. apply list_elem_of_In, in_concat. exists [c.(chunk_id)].
  split; [|by left]. apply list_elem_of_In, list_elem_of_fmap. exists (Working c).
  split; [done|]. by apply list_elem_of_lookup_2 in H.
Qed.

(** A worker's chunk is in progress, with its id nowhere before it. *)
Lemma working_split cids s i c : inv cids s → s.(workers) !! i = Some (Working c) →
  ∃ l1 d l2, s.(chunks) = l1 ++ d :: l2 ∧ d.(chunk_id) = c.(chunk_id) ∧ d.(status) = InProgress ∧
    d.(chunk_id) ∉ ids l1.
Proof.
  intros [H1 H2 _ H4 _] Hi. apply held_elem in Hi. rewrite H4 in Hi.
  apply filter_ids_elem in Hi as (l1 & d & l2 & E & Hid & Hst). exists l1, d, l2.
  split_and!; [done|done|by apply is_status_true in Hst|]. rewrite <- H1, E, ids_app in H2.
  apply NoDup_app in H2 as (_ & H2 & _). intros Hin. apply (H2 _ Hin). left.
Qed.

Ltac filter_split :=
  rewrite ?List.filter_app; cbn [List.filter is_status set_status status];
  rewrite ?ids_app; cbn.

Lemma step_inv cids s s' : inv cids s → step s s' → inv cids s'.
Proof.
  intros Hinv St. destruct St as [s i c cs Hi Hc | s i Hi Hc | s i c Hi | s i c Hi].
  - destruct Hinv as [H1 H2 H3 H4 H5].
    apply claim_some in Hc as (l1 & d & l2 & E & Hd & -> & ->).
    pose proof (held_insert _ _ _ (Working (set_status InProgress d)) Hi) as Hh.
    rewrite E in *. split; cbn [chunks workers calls].
    + rewrite <- H1, !ids_app. done.
    + done.
    + rewrite ids_app, H3. unfold is_status. filter_split. rewrite Hd. cbn.
      rewrite <- app_assoc. apply Permutation_app_head. symmetry. apply Permutation_cons_append.
    + cbn in Hh. rewrite Hh, H4. unfold is_status. filter_split. rewrite Hd. cbn.
      apply Permutation_middle.
    + intros Hst. apply list_elem_of_lookup in Hst as [j Hj].
      rewrite list_lookup_insert in Hj. case_decide; [done|].
      apply list_elem_of_lookup_2, H5 in Hj. revert Hj. unfold is_status. filter_split.
      rewrite Hd. cbn. by intros [_ ?]%app_nil.
  - destruct Hinv as [H1 H2 H3 H4 H5].
    pose proof (held_insert _ _ _ Stopped Hi) as Hh. split; cbn [chunks workers calls]; try done.
    + cbn in Hh. by rewrite Hh.
    + intros _. by apply claim_none.
  - destruct (working_split _ _ _ _ Hinv Hi) as (l1 & d & l2 & E & Hid & Hd & Hnin).
    destruct Hinv as [H1 H2 H3 H4 H5]. pose proof (held_insert _ _ _ Idle Hi) as Hh.
    rewrite <- Hid in *. rewrite E in *.
    split; cbn [chunks workers calls]; rewrite ?complete_split by done.
    + rewrite <- H1, !ids_app. done.
    + done.
    + rewrite H3. unfold is_status. filter_split. by rewrite Hd.
    + cbn in Hh. rewrite H4 in Hh. revert Hh. unfold is_status. filter_split. rewrite Hd. cbn.
      rewrite <- Hid. intros Hh. symmetry in Hh. rewrite <- Permutation_middle in Hh.
      apply Permutation_cons_inv in Hh. by symmetry.
    + intros Hst. apply list_elem_of_lookup in Hst as [j Hj].
      rewrite list_lookup_insert in Hj. case_decide; [done|].
      apply list_elem_of_lookup_2, H5 in Hj. revert Hj. unfold is_status. filter_split.
      by rewrite Hd.
  - destruct Hinv as [H1 H2 H3 H4 H5].
    pose proof (held_insert _ _ _ (Crashed c) Hi) as Hh. split; cbn [chunks workers calls]; try done.
    + cbn in Hh. apply Permutation_cons_inv in Hh. by rewrite Hh.
    + intros Hst. apply H5. apply list_elem_of_lookup in Hst as [j Hj].
      rewrite list_lookup_insert in Hj. case_decide; [done|]. by apply list_elem_of_lookup_2 in Hj.
Qed.

Lemma step_weight cids s s' : inv cids s → step s s' → (weight s' < weight s)%nat.
Proof.
  intros Hinv St. unfold weight.
  destruct St as [s i c cs Hi Hc | s i Hi Hc | s i c Hi | s i c Hi]; cbn [chunks workers].
  - apply claim_some in Hc as (l1 & d & l2 & E & Hd & -> & ->). rewrite E.
    pose proof (weight_insert _ _ _ (Working (set_status InProgress d)) Hi) as Hw. cbn in Hw.
    unfold is_status. rewrite !List.filter_app, !length_app. cbn. rewrite Hd. cbn. lia.
  - pose proof (weight_insert _ _ _ Stopped Hi) as Hw. cbn in Hw. lia.
  - destruct (working_split _ _ _ _ Hinv Hi) as (l1 & d & l2 & E & Hid & Hd & Hnin).
    rewrite E, <- Hid, complete_split by done.
    pose proof (weight_insert _ _ _ Idle Hi) as Hw. cbn in Hw.
    unfold is_status. rewrite !List.filter_app, !length_app. cbn. rewrite Hd. cbn. lia.
  - pose proof (weight_insert _ _ _ (Crashed c) Hi) as Hw. cbn in Hw. lia.
Qed.

(** A pool in which not every handle is done can make a step. *)
Lemma step_progress s : ¬ finished s → ∃ s', step s s'.
Proof.
  intros Hn. unfold finished in Hn. apply not_Forall_Exists in Hn; cycle 1.
  { intros w. destruct w; apply _. }
  apply Exists_exists in Hn as (w & Hw & Hnw). apply list_elem_of_lookup in Hw as [i Hi].
  destruct w as [|c| |c]; [|eexists; by eapply step_complete|by destruct Hnw..].
  destruct (claim (chunks s)) as [[c cs]|] eqn:E; eexists; [by eapply step_claim | by eapply step_stop].
Qed.

Lemma list_filter_all {A} (f : A → bool) l : Forall (λ x, f x = true) l → List.filter f l = l.
Proof. induction 1 as [|x l Hx _ IH]; cbn; [done|]. by rewrite Hx, IH. Qed.

Lemma list_filter_none {A} (f : A → bool) l : Forall (λ x, f x = false) l → List.filter f l = [].
Proof. induction 1 as [|x l Hx _ IH]; cbn; [done|]. by rewrite Hx, IH. Qed.

Lemma inv_spawn chs n : NoDup (ids chs) → Forall (λ c, c.(status) = Pending) chs →
  inv (ids chs) (spawn chs n).
Proof.
  intros Hn Hp. split; cbn [spawn chunks workers calls]; [done|done|..].
  - rewrite list_filter_none; [done|]. eapply Forall_impl; [exact Hp|].
    intros c Hc. unfold is_status. by rewrite Hc.
  - rewrite list_filter_none; cycle 1.
    + eapply Forall_impl; [exact Hp|]. intros c Hc. unfold is_status. by rewrite Hc.
    + induction n as [|n IH]; [done|]. by rewrite IH.
  - intros H%elem_of_replicate_inv. done.
Qed.

Lemma filter_status_split l s : List.filter (is_status Pending) l = [] →
  List.filter (is_status InProgress) l = [] → s ∈ l → s.(status) = Completed.
Proof.
  intros H1 H2 Hs. apply list_elem_of_In in Hs.
  destruct (status s) eqn:E; [| |done]; exfalso.
  - assert (Hin : In s (List.filter (is_status Pending) l)).
    { apply List.filter_In. split; [done|]. unfold is_status. by rewrite E. }
    by rewrite H1 in Hin.
  - assert (Hin : In s (List.filter (is_status InProgress) l)).
    { apply List.filter_In. split; [done|]. unfold is_status. by rewrite E. }
    by rewrite H2 in Hin.
Qed.

(** *** The whole run of a pool *)

Section pool_run.
Context (chs : list ChunkRange) (n : nat).
Context (Hn : NoDup (ids chs)) (Hp : Forall (λ c, c.(status) = Pending) chs).

Lemma pool_bounded k s : nsteps step k (spawn chs n) s → (k ≤ 3 * length chs + n)%nat.
Proof using Hn Hp.
  assert (Hw0 : (weight (spawn chs n) ≤ 3 * length chs + n)%nat).
  { unfold weight. cbn [spawn chunks workers]. rewrite list_filter_all.
    - assert (list_sum (weight1 <$> replicate n Idle) = n) as ->; [|lia].
      clear. induction n as [|m IH]; [done|]. by apply (f_equal S).
    - eapply Forall_impl; [exact Hp|]. intros c Hc. unfold is_status. by rewrite Hc. }
  intros Hk. etrans; [|exact Hw0]. clear Hw0.
  assert (Hi : inv (ids chs) (spawn chs n)) by by apply inv_spawn. revert Hi Hk.
  generalize (spawn chs n) as s0. intros s0 Hi Hk.
  induction Hk as [|k x y z Hxy Hk IH]; [lia|].
  pose proof (step_weight _ _ _ Hi Hxy). specialize (IH (step_inv _ _ _ Hi Hxy)). lia.
Qed.

Lemma pool_inv s : rtc step (spawn chs n) s → inv (ids chs) s.
Proof using Hn Hp.
  intros Hs. apply (rtc_invariant step (inv (ids chs))) in Hs;
    [done | by intros; eapply step_inv | by apply inv_spawn].
Qed.

Lemma pool_done s : rtc step (spawn chs n) s → finished s → Stopped ∈ s.(workers) →
  (∀ c, Crashed c ∉ s.(workers)) →
  Forall (λ c, c.(status) = Completed) s.(chunks) ∧ ids s.(calls) ≡ₚ ids chs.
Proof using Hn Hp.
  intros Hs Hfin Hst Hcr. destruct (pool_inv s Hs) as [H1 H2 H3 H4 H5]. specialize (H5 Hst).
  assert (Hh : held (workers s) = []).
  { unfold held. unfold finished in Hfin. clear -Hfin Hcr.
    induction Hfin as [|w ws Hw _ IH]; [done|]. cbn. rewrite IH.
    - destruct w; try done. exfalso. eapply Hcr. left.
    - intros c Hc. apply (Hcr c). by right. }
  rewrite Hh in H4. apply Permutation_nil in H4. apply fmap_nil_inv in H4.
  assert (Hall : Forall (λ c, c.(status) = Completed) (chunks s)).
  { apply Forall_forall. intros c Hc. by eapply filter_status_split. }
  split; [done|]. rewrite H3, <- H1, list_filter_all; [done|].
  eapply Forall_impl; [exact Hall|]. intros c Hc. unfold is_status. by rewrite Hc.
Qed.
End pool_run.

(** ** Properties *)

(** [new] partitions the rows: for a positive chunk size, as long as the last bound fits in
    64 bits and the number of chunks in 32, the loop ends (one turn more than there are chunks
    suffices) without overflow in either profile, the chunks are numbered from 0 and pending,
    every row from 1 to [total_rows] is in exactly one chunk, and no chunk holds another row. *)
Theorem new_partitions (p : Profile) (total chunk_size : Z) (fuel : nat)
    (Hcs : 1 <= chunk_size) (Htot : 0 <= total) (H64 : total + chunk_size < 2 ^ 64)
    (H32 : Z.of_nat (chunk_count total chunk_size) < 2 ^ 32)
    (Hfuel : (chunk_count total chunk_size < fuel)%nat) :
  ∃ chs, new p fuel total chunk_size = Some (Ret chs) ∧
    chs = chunks_spec total chunk_size ∧
    (∀ k, 1 <= k <= total →
       exists! i, ∃ c, chs !! i = Some c ∧ c.(min_key) <= k <= c.(max_key)) ∧
    (∀ c k, c ∈ chs → c.(min_key) <= k <= c.(max_key) → 1 <= k <= total).
Proof.
  exists (chunks_spec total chunk_size). split_and!; [|done|..].
  - unfold new, chunks_spec.
    pose proof (cut_loop_spec p total chunk_size 0 (chunk_count total chunk_size) fuel []) as H.
    change (Z.of_nat 0 * chunk_size) with 0 in H. rewrite Z.min_l in H by lia.
    apply H; auto.
  - intros k Hk. destruct (chunks_cover total chunk_size k Hcs Htot Hk) as (i & Hi & Hin).
    exists i. split.
    + exists (chunk_spec total chunk_size i). split; [|done].
      unfold chunks_spec. rewrite list_lookup_fmap, lookup_seq_lt by done. done.
    + intros j (c & Hc & Hin'). unfold chunks_spec in Hc.
      rewrite list_lookup_fmap in Hc. apply fmap_Some in Hc as (j' & Hj & ->).
      apply lookup_seq in Hj as [-> _]. by eapply chunks_disjoint.
  - intros c k Hc. apply list_elem_of_fmap in Hc as (i & -> & _). unfold chunk_spec. cbn. lia.
Qed.

(** A chunk size of zero is not handled: on a table with rows, [new] returns no chunks in either
    profile, however long it runs (the loop never ends, or panics when the chunk counter overflows). *)
Theorem new_zero_size (p : Profile) (total : Z) (fuel : nat) (chs : list ChunkRange)
    (H1 : 1 <= total) (H64 : in_range 64 total) : new p fuel total 0 ≠ Some (Ret chs).
Proof. by apply zero_size_loop. Qed.

(** Under every interleaving of the workers no chunk is processed twice: in every reachable
    state the calls of [process_fn] have distinct ids, they are the chunks no longer pending, and
    the chunks in progress are exactly those held by a worker, each by one. *)
Theorem workers_exclusive (chs : list ChunkRange) (n : nat) (s : pool)
    (Hn : NoDup (ids chs)) (Hp : Forall (λ c, c.(status) = Pending) chs)
    (Hs : rtc step (spawn chs n) s) :
  ids s.(chunks) = ids chs ∧ NoDup (ids s.(calls)) ∧ NoDup (held s.(workers)) ∧
  ids s.(calls) ≡ₚ ids (List.filter (λ c, negb (is_status Pending c)) s.(chunks)) ∧
  held s.(workers) ≡ₚ ids (List.filter (is_status InProgress) s.(chunks)).
Proof.
  apply (rtc_invariant step (inv (ids chs))) in Hs;
    [|by intros; eapply step_inv | by apply inv_spawn].
  destruct Hs as [H1 H2 H3 H4 _].
  assert (Hf : ∀ f, NoDup (ids (List.filter f (chunks s)))).
  { intros f. rewrite <- H1 in H2. revert H2. clear. induction (chunks s) as [|c l IH]; [done|].
    cbn. intros [Hc Hl]%NoDup_cons. destruct (f c); cbn; [|by apply IH].
    apply NoDup_cons. split; [|by apply IH]. intros Hin. apply Hc.
    apply filter_ids_elem in Hin as (l1 & d & l2 & -> & <- & _).
    rewrite ids_app. apply elem_of_app. right. left. }
  split_and!; [done | by rewrite H3 | by rewrite H4 | done | done].
Qed.

(** The pool terminates and does its job: from [n] workers on pending chunks every run has at
    most three steps per chunk and one per worker, a run can always continue until every handle
    is done, and when it is, provided some worker returned and none crashed, every chunk is
    completed and was passed to [process_fn] exactly once. *)
Theorem workers_complete (chs : list ChunkRange) (n : nat)
    (Hn : NoDup (ids chs)) (Hp : Forall (λ c, c.(status) = Pending) chs) :
  (∀ k s, nsteps step k (spawn chs n) s → (k ≤ 3 * length chs + n)%nat) ∧
  (∀ s, rtc step (spawn chs n) s → ¬ finished s → ∃ s', step s s') ∧
  (∀ s, rtc step (spawn chs n) s → finished s → Stopped ∈ s.(workers) →
     (∀ c, Crashed c ∉ s.(workers)) →
     Forall (λ c, c.(status) = Completed) s.(chunks) ∧ ids s.(calls) ≡ₚ ids chs).
Proof.
  split_and!; [by apply pool_bounded|by intros s _; apply step_progress|by apply pool_done].
Qed.

(** ** Witnesses *)

Lemma new_partitions_witness :
  ∃ chs, new Dev 5 100 25 = Some (Ret chs) ∧ chs = chunks_spec 100 25.
Proof.
  destruct (new_partitions Dev 100 25 5) as (chs & H & E & _);
    [lia | lia | lia | vm_compute; reflexivity | vm_compute; lia |]. by exists chs.
Defined.

Lemma new_zero_size_witness : new Release 1000 100 0 ≠ Some (Ret []).
Proof. apply (new_zero_size Release 100 1000 []); [lia | vm_compute; split; [intros [=]|reflexivity]]. Defined.

Definition two_chunks : list ChunkRange := [Chunk 0 1 50 Pending; Chunk 1 51 100 Pending].

Lemma two_chunks_nodup : NoDup (ids two_chunks).
Proof. apply (bool_decide_unpack _). by vm_compute. Qed.

Lemma workers_exclusive_witness :
  NoDup (ids (Pool [Chunk 0 1 50 InProgress; Chunk 1 51 100 Pending]
                   [Idle; Working (Chunk 0 1 50 InProgress)] [Chunk 0 1 50 InProgress]).(calls)).
Proof.
  apply (workers_exclusive two_chunks 2
    (Pool [Chunk 0 1 50 InProgress; Chunk 1 51 100 Pending]
          [Idle; Working (Chunk 0 1 50 InProgress)] [Chunk 0 1 50 InProgress])).
  - apply two_chunks_nodup.
  - by repeat constructor.
  - apply rtc_once. by apply (step_claim (spawn two_chunks 2) 1).
Defined.

(** Two workers, one chunk each, both returned. *)
Definition done_pool : pool :=
  Pool (set_status Completed <$> two_chunks) [Stopped; Stopped] (set_status InProgress <$> two_chunks).

Lemma done_pool_reachable : rtc step (spawn two_chunks 2) done_pool.
Proof.
  eapply rtc_l; [by apply (step_claim (spawn two_chunks 2) 0)|].
  eapply rtc_l; [by eapply (step_claim _ 1)|].
  eapply rtc_l; [by eapply (step_complete _ 0)|].
  eapply rtc_l; [by eapply (step_complete _ 1)|].
  eapply rtc_l; [by eapply (step_stop _ 0)|].
  eapply rtc_l; [by eapply (step_stop _ 1)|]. apply rtc_refl.
Qed.

Lemma workers_complete_witness :
  Forall (λ c, c.(status) = Completed) done_pool.(chunks) ∧ ids done_pool.(calls) ≡ₚ ids two_chunks.
Proof.
  apply (workers_complete two_chunks 2);
    [apply two_chunks_nodup | by repeat constructor | apply done_pool_reachable
    | by repeat constructor | left |].
  intros c H. by repeat (apply elem_of_cons in H as [H|H]; [done|]); apply elem_of_nil in H.
Defined.
End ParallelSnapshotter.
