(* ===== verification/Snapshot.v ===== *)
(** A parallel snapshot from end to end ([src/snapshot/parallel.rs]): [new] cuts the table, [process_chunks] runs the
    workers, and the progress is saved.  This composes [Parallel] with the state store. *)
From S2P Require Import Prelude Text F64 Event Store Parallel Reference.

Module Snapshot.
Import ParallelSnapshotter.

(** ** The ranges of the chunks do not change *)

Definition fresh (c : ChunkRange) : ChunkRange := set_status Pending c.

Record ranges (chs : list ChunkRange) (s : pool) : Prop := {
  ranges_chunks : fresh <$> s.(chunks) = chs;
  ranges_calls : Forall (λ c, fresh c ∈ chs) s.(calls);
}.

Lemma fresh_complete cid l : fresh <$> complete cid l = fresh <$> l.
Proof. induction l as [|c l IH]; [done|]. cbn. destruct (_ =? _); cbn; [done|]. by f_equal. Qed.

Lemma ranges_step chs s s' : step s s' → ranges chs s → ranges chs s'.
Proof.
  destruct 1 as [s i c cs Hi Hc|s i Hi Hc|s i c Hi|s i c Hi]; intros [H1 H2]; split; cbn [chunks calls]; try done.
  - apply claim_some in Hc as (l1 & d & l2 & E & _ & -> & ->). rewrite <- H1, E, !fmap_app. by destruct d.
  - apply claim_some in Hc as (l1 & d & l2 & E & _ & -> & _). apply Forall_app. split; [done|]. apply Forall_singleton.
    rewrite <- H1, E, fmap_app. apply elem_of_app. right. left.
  - by rewrite fresh_complete.
Qed.

Lemma fresh_pending chs : Forall (λ c, c.(status) = Pending) chs → fresh <$> chs = chs.
Proof. induction 1 as [|c chs Hc _ IH]; [done|]. cbn. rewrite IH. f_equal. destruct c. cbn in *. by subst. Qed.

Lemma ranges_run chs n s : Forall (λ c, c.(status) = Pending) chs → rtc step (spawn chs n) s → ranges chs s.
Proof.
  intros Hp Hs. apply (rtc_invariant step (ranges chs)) in Hs; [done|by intros x y Hx Hxy; eapply ranges_step|].
  split; [by apply fresh_pending|by apply Forall_nil].
Qed.

Lemma workers_length s s' : step s s' → length s'.(workers) = length s.(workers).
Proof. destruct 1; cbn; by rewrite length_insert. Qed.

Lemma workers_run chs n s : rtc step (spawn chs n) s → length s.(workers) = n.
Proof.
  intros Hs. apply (rtc_invariant step (λ s, length s.(workers) = n)) in Hs; [done| |cbn; apply length_replicate].
  intros x y Hx Hxy. by rewrite (workers_length _ _ Hxy).
Qed.

(** ** Each row is passed to [process_fn] once *)

Lemma fresh_id c : (fresh c).(chunk_id) = c.(chunk_id).
Proof. by destruct c. Qed.

Lemma ids_fresh l : ids (fresh <$> l) = ids l.
Proof. unfold ids. rewrite <- list_fmap_compose. apply list_fmap_ext. intros i c _. apply fresh_id. Qed.

Lemma ids_inj (l : list ChunkRange) c d : NoDup (ids l) → c ∈ l → d ∈ l → c.(chunk_id) = d.(chunk_id) → c = d.
Proof.
  intros Hn [i Hi]%list_elem_of_lookup [j Hj]%list_elem_of_lookup E.
  assert (i = j) as ->; [|by simplify_eq]. eapply (NoDup_lookup (ids l)); [done| |]; unfold ids; rewrite list_lookup_fmap.
  - by rewrite Hi.
  - by rewrite Hj, E.
Qed.

Lemma calls_perm chs s : NoDup (ids chs) → ranges chs s → ids s.(calls) ≡ₚ ids chs → fresh <$> s.(calls) ≡ₚ chs.
Proof.
  intros Hn [_ Hc] Hp. assert (Hnc : NoDup (ids s.(calls))) by by rewrite Hp.
  apply NoDup_Permutation.
  - apply (NoDup_fmap_1 chunk_id). fold (ids (fresh <$> calls s)). by rewrite ids_fresh.
  - by apply (NoDup_fmap_1 chunk_id).
  - intros c. split.
    + intros (d & -> & Hd)%list_elem_of_fmap. rewrite Forall_forall in Hc. by apply Hc.
    + intros Hin. assert (c.(chunk_id) ∈ ids s.(calls)) as (d & Hd & Hdin)%list_elem_of_fmap.
      { rewrite Hp. by apply list_elem_of_fmap_2. }
      rewrite Forall_forall in Hc. pose proof (Hc _ Hdin) as Hf.
      assert (c = fresh d) as -> by (eapply ids_inj; [exact Hn|done|done|by rewrite fresh_id]).
      by apply list_elem_of_fmap_2.
Qed.

Definition covers (k : Z) (c : ChunkRange) : bool := (c.(min_key) <=? k) && (k <=? c.(max_key)).

Lemma covers_fresh k l : length (List.filter (covers k) (fresh <$> l)) = length (List.filter (covers k) l).
Proof. induction l as [|c l IH]; [done|]. cbn. destruct (covers k c) eqn:E; unfold covers in *; cbn in *; rewrite E; cbn; by rewrite IH. Qed.

Lemma filter_perm_length {A} (f : A → bool) l l' : l ≡ₚ l' → length (List.filter f l) = length (List.filter f l').
Proof. induction 1 as [|x l l' _ IH|x y l|l l' l'' _ IH1 _ IH2]; cbn; repeat case_match; cbn; congruence. Qed.

Lemma spec_once total size k : 1 <= size → 0 <= total → 1 <= k <= total →
  length (List.filter (covers k) (chunks_spec total size)) = 1%nat.
Proof.
  intros Hs Ht Hk. destruct (chunks_cover total size k Hs Ht Hk) as (i & Hi & Hc). unfold chunks_spec.
  assert (H : ∀ a m, length (List.filter (covers k) (chunk_spec total size <$> seq a m)) =
    if decide (a ≤ i < a + m)%nat then 1%nat else O).
  { intros a m. revert a. induction m as [|m IH]; intros a; cbn [seq fmap list_fmap List.filter].
    - case_decide; [lia|done].
    - assert (covers k (chunk_spec total size a) = bool_decide (a = i)) as ->.
      { case_bool_decide as Ha; unfold covers.
        - subst a. apply andb_true_iff. rewrite !Z.leb_le. lia.
        - apply not_true_iff_false. rewrite andb_true_iff, !Z.leb_le. intros Hc'. apply Ha.
          by eapply (chunks_disjoint total size). }
      specialize (IH (S a)). case_bool_decide; cbn [length]; rewrite IH; repeat case_decide; lia. }
  rewrite H. case_decide; [done|lia].
Qed.

Lemma spec_nodup total size : NoDup (ids (chunks_spec total size)).
Proof.
  unfold ids, chunks_spec. rewrite <- list_fmap_compose. apply NoDup_fmap_2; [|apply NoDup_seq].
  intros i j H. cbn in H. lia.
Qed.

Lemma spec_pending total size : Forall (λ c, c.(status) = Pending) (chunks_spec total size).
Proof. apply Forall_forall. by intros c (i & -> & _)%list_elem_of_fmap. Qed.

Lemma completed_all l : Forall (λ c, c.(status) = Completed) l → completed_count l = length l.
Proof.
  unfold completed_count. induction 1 as [|c l Hc _ IH]; [done|]. rewrite filter_cons, decide_True by done.
  cbn. by rewrite IH.
Qed.

(** What [new] returns, and the state in which workers that do not panic leave it. *)
Lemma new_spec p total size fuel : 1 <= size → 0 <= total → total + size < 2 ^ 64 →
  Z.of_nat (chunk_count total size) < 2 ^ 32 → (chunk_count total size < fuel)%nat →
  new p fuel total size = Some (Ret (chunks_spec total size)).
Proof.
  intros Hsize Htotal H64 H32 Hfuel.
  pose proof (cut_loop_spec p total size 0 (chunk_count total size) fuel [] Hsize Htotal H64 eq_refl H32 Hfuel) as H.
  change (Z.of_nat 0 * size) with 0 in H. rewrite Z.min_l in H by lia. change (0 + 1) with 1 in H.
  change (Z.of_nat 0) with 0 in H. unfold new. by rewrite H.
Qed.

Lemma snapshot_calls total size n s : (0 < n)%nat → rtc step (spawn (chunks_spec total size) n) s → finished s →
  (∀ c, Crashed c ∉ s.(workers)) →
  Forall (λ c, c.(status) = Completed) s.(chunks) ∧ length s.(chunks) = chunk_count total size ∧
  fresh <$> s.(calls) ≡ₚ chunks_spec total size.
Proof.
  intros Hworkers Hs Hfin Hcr. pose proof (spec_nodup total size) as Hn. pose proof (spec_pending total size) as Hp.
  assert (Hst : Stopped ∈ s.(workers)).
  { pose proof (workers_run _ _ _ Hs) as Hl. unfold finished in Hfin. destruct (workers s) as [|w ws]; [cbn in Hl; lia|].
    apply Forall_cons in Hfin as [Hw _]. destruct w as [| | |c]; try done; [left|]. exfalso. by eapply Hcr; left. }
  destruct (pool_done _ _ Hn Hp s Hs Hfin Hst Hcr) as [Hall Hcalls].
  pose proof (ranges_run _ _ _ Hp Hs) as Hr. split; [done|]. split; [|by apply calls_perm].
  rewrite <- (length_fmap fresh), (ranges_chunks _ _ Hr). unfold chunks_spec. by rewrite length_fmap, length_seq.
Qed.

(** ** Property *)

Section snapshot.
Context `{R : RocksDB} `{J : SerdeJson} {L : RocksDBLaws R}.

(** C13. A parallel snapshot is complete: for any number of rows [total] and chunk size at least 1 with
    [total + size] below [2 ^ 64] and fewer than [2 ^ 32] chunks (their ids are [u32]), [new] returns the
    chunks, in both profiles; processed by any positive number of workers, every run has a bounded number
    of steps and can go on until all workers are done, in every interleaving; when no [process_fn] panics,
    each row from 1 to [total] has then been in exactly one of the chunks passed to [process_fn], all
    chunks are completed, and, if the write of the progress succeeds (its result is dropped), what is saved for
    the table says so. *)
Theorem snapshot_complete (p : Profile) (total size : Z) (fuel n : nat)
    (table : string) (store : StateStore.t R) (Hsize : 1 <= size) (Htotal : 0 <= total)
    (H64 : total + size < 2 ^ 64) (H32 : Z.of_nat (chunk_count total size) < 2 ^ 32)
    (Hfuel : (chunk_count total size < fuel)%nat) (Hworkers : (0 < n)%nat) :
  ∃ chs, new p fuel total size = Some (Ret chs) ∧
  (∀ k s, nsteps step k (spawn chs n) s → (k ≤ 3 * chunk_count total size + n)%nat) ∧
  (∀ s, rtc step (spawn chs n) s → ¬ finished s → ∃ s', step s s') ∧
  ∀ s, rtc step (spawn chs n) s → finished s → (∀ c, Crashed c ∉ s.(workers)) →
    (∀ k, 1 <= k <= total → length (List.filter (covers k) s.(calls)) = 1%nat) ∧
    Forall (λ c, c.(status) = Completed) s.(chunks) ∧ length s.(chunks) = chunk_count total size ∧
    let all := display_u64 (Z.of_nat (chunk_count total size)) in
    db_writable R →
    StateStore.offset_at (save_progress (J:=J) store table s.(chunks)) (table ++ "_snapshot_progress") =
      Some (as_bytes (all ++ "/" ++ all))%string.
Proof.
  exists (chunks_spec total size). split; [by apply new_spec|].
  assert (Hlen : length (chunks_spec total size) = chunk_count total size)
    by (unfold chunks_spec; by rewrite length_fmap, length_seq).
  split_and!; [intros k s Hk; rewrite <- Hlen; by eapply pool_bounded, Hk; (apply spec_nodup || apply spec_pending)|by intros s _; apply step_progress|].
  intros s Hs Hfin Hcr. destruct (snapshot_calls total size n s Hworkers Hs Hfin Hcr) as (Hall & El & Hcalls).
  split; [|split; [done|split; [done|]]].
  - intros k Hk. rewrite <- covers_fresh, (filter_perm_length _ _ _ Hcalls). by apply spec_once.
  - intros all Hwrite. unfold save_progress. rewrite completed_all, El by done.
    destruct (StateStore.save_offset _ _ _) as [store' r] eqn:Hsave. cbn [fst].
    assert (Hr : r = Ok tt).
    { unfold StateStore.save_offset, StateStore.put in Hsave.
      destruct (Hwrite (StateStore.handle store) (as_bytes (StateStore.offset_key (table ++ "_snapshot_progress")))
        (as_bytes (all ++ "/" ++ all))) as [d' Ed].
      unfold all in Ed. rewrite Ed in Hsave. by injection Hsave. }
    subst r. apply StateStore.save_offset_at in Hsave as [Ho _]. by rewrite Ho, decide_True by done.
Qed.
End snapshot.

(** ** Witness *)

(** [test_parallel_worker_execution] of the crate: 200 rows in chunks of 50 and two workers, in every interleaving
    in which no worker panics. *)
Definition test_parallel_worker_execution : Prop :=
  ∃ chs, new Dev 5 200 50 = Some (Ret chs) ∧
  ∀ s, rtc step (spawn chs 2) s → finished s → (∀ c, Crashed c ∉ s.(workers)) →
    StateStore.get_offset (J:=tree_json) (save_progress (R:=mem_db) (J:=tree_json) empty_store "users" s.(chunks))
      "users_snapshot_progress" = Ok (Some "4/4"%string).

Lemma snapshot_complete_witness : test_parallel_worker_execution.
Proof.
  destruct (snapshot_complete (R:=mem_db) (J:=tree_json) Dev 200 50 5 2 "users" empty_store)
    as (chs & E & _ & _ & H); [lia|lia|lia|by vm_compute|vm_compute; lia|lia|].
  exists chs. split; [exact E|]. intros s Hs Hfin Hcr.
  destruct (H s Hs Hfin Hcr) as (_ & _ & _ & Ho). specialize (Ho ltac:(by eexists)).
  rewrite StateStore.get_offset_readable by apply mem_db_readable.
  change "users_snapshot_progress"%string with ("users" ++ "_snapshot_progress")%string. rewrite Ho. by vm_compute.
Defined.
End Snapshot.
