(* ===== verification/Sync.v ===== *)
(** [SyncCoordinator] ([src/sync/mod.rs]): which events of a multi-cluster deployment are forwarded
    to the other clusters, and which of two conflicting mutations wins. *)
From S2P Require Import Prelude Text F64 Event.

Module SyncCoordinator.

(** ** The component *)

Record ClusterNode := Node {
  cluster_id : string;
  endpoint_url : string;
  is_active : bool;
}.

Record t := Mk {
  local_cluster_id : string;
  remote_peers : list ClusterNode;
}.

Definition new (local_cluster_id : string) : t := Mk local_cluster_id [].

Definition register_peer (self : t) (cluster_id endpoint_url : string) : t :=
  Mk self.(local_cluster_id) (self.(remote_peers) ++ [Node cluster_id endpoint_url true]).

Definition loop_prefix (self : t) : string := ("remote-" ++ self.(local_cluster_id))%string.

Definition should_forward (self : t) (event : ChangeEvent) : bool :=
  match event.(transaction_id) with
  | Some tx_id => if starts_with tx_id (loop_prefix self) then false else true
  | None => true
  end.

Definition resolve_conflict (self : t) (event_a event_b : ChangeEvent) : ChangeEvent :=
  if event_b.(timestamp) <=? event_a.(timestamp) then event_a else event_b.

(** ** Specification *)

(** The value a cluster keeps after the mutations [es] of a key arrived on top of [e]. *)
Definition winner (self : t) (e : ChangeEvent) (es : list ChangeEvent) : ChangeEvent :=
  fold_left (resolve_conflict self) es e.

(** ** Lemmas *)

Lemma resolve_conflict_max self a b :
  timestamp (resolve_conflict self a b) = Z.max a.(timestamp) b.(timestamp).
Proof. unfold resolve_conflict. destruct (Z.leb_spec (timestamp b) (timestamp a)); lia. Qed.

Lemma resolve_conflict_elem self a b :
  resolve_conflict self a b = a ∨ resolve_conflict self a b = b.
Proof. unfold resolve_conflict. case_match; auto. Qed.

Lemma winner_spec self e es :
  winner self e es ∈ e :: es ∧ Forall (λ x, x.(timestamp) <= (winner self e es).(timestamp)) (e :: es).
Proof.
  revert e. induction es as [|a es IH]; intros e.
  - split; [left|]. constructor; [cbn; lia|constructor].
  - change (winner self e (a :: es)) with (winner self (resolve_conflict self e a) es).
    destruct (IH (resolve_conflict self e a)) as [Hin Hall].
    apply Forall_cons in Hall as [Hr Hes]. rewrite resolve_conflict_max in Hr. split.
    + apply elem_of_cons in Hin as [->|Hin]; [|by do 2 right].
      destruct (resolve_conflict_elem self e a) as [->| ->]; [left | right; left].
    + repeat constructor; [lia|lia|done].
Qed.

(** Events with distinct timestamps are determined by them. *)
Lemma nodup_timestamp l a b : NoDup (timestamp <$> l) → a ∈ l → b ∈ l →
  a.(timestamp) = b.(timestamp) → a = b.
Proof.
  induction l as [|x l IH]; cbn; [by intros _ ?%elem_of_nil|].
  intros [Hx Hn]%NoDup_cons Ha Hb E.
  apply elem_of_cons in Ha as [->|Ha], Hb as [->|Hb]; [done| | |by apply IH].
  - exfalso. apply Hx. rewrite E. by apply list_elem_of_fmap_2.
  - exfalso. apply Hx. rewrite <- E. by apply list_elem_of_fmap_2.
Qed.

(** ** Properties *)

(** Last-write-wins converges: when the mutations of a key have distinct timestamps, two clusters
    that receive them in any two orders keep the same one, the latest. *)
Theorem lww_converges (c1 c2 : t) (a b : ChangeEvent) (l1 l2 : list ChangeEvent)
    (Hp : a :: l1 ≡ₚ b :: l2) (Hn : NoDup (timestamp <$> a :: l1)) :
  winner c1 a l1 = winner c2 b l2 ∧
  Forall (λ e, e = winner c1 a l1 ∨ e.(timestamp) < (winner c1 a l1).(timestamp)) (a :: l1).
Proof.
  destruct (winner_spec c1 a l1) as [H1 M1], (winner_spec c2 b l2) as [H2 M2].
  rewrite <- Hp in H2, M2. rewrite Forall_forall in M1, M2. split.
  - apply (nodup_timestamp _ _ _ Hn H1 H2). apply M1 in H2. apply M2 in H1. lia.
  - apply Forall_forall. intros e He. pose proof (M1 e He).
    destruct (decide (e.(timestamp) = (winner c1 a l1).(timestamp))) as [E|]; [|lia].
    left. by apply (nodup_timestamp _ _ _ Hn).
Qed.

(** Ties are broken by the order of arrival: two clusters that receive two mutations with the
    same timestamp in opposite orders each keep the one that came first, and so diverge. *)
Theorem lww_tie_diverges (c1 c2 : t) (a b : ChangeEvent)
    (Ht : a.(timestamp) = b.(timestamp)) : winner c1 a [b] = a ∧ winner c2 b [a] = b.
Proof. unfold winner, resolve_conflict. cbn. rewrite Ht, Z.leb_refl. done. Qed.

(** Loop suppression works by prefix: an event is held back exactly when its transaction id is
    [remote-], the local cluster id and anything after.  So everything tagged with the local cluster
    is suppressed, and so is everything tagged with a cluster whose id extends the local one
    ([us-east-10] for [us-east-1]). *)
Theorem should_forward_spec (self : t) (event : ChangeEvent) :
  (should_forward self event = false ↔
     ∃ rest, event.(transaction_id) = Some ("remote-" ++ self.(local_cluster_id) ++ rest)%string) ∧
  (∀ more rest,
     event.(transaction_id) = Some ("remote-" ++ (self.(local_cluster_id) ++ more) ++ rest)%string →
     should_forward self event = false).
Proof.
  assert (Hiff : should_forward self event = false ↔
     ∃ rest, event.(transaction_id) = Some ("remote-" ++ self.(local_cluster_id) ++ rest)%string).
  { unfold should_forward, loop_prefix. destruct (transaction_id event) as [tx|]; [|naive_solver].
    pose proof (starts_with_spec tx ("remote-" ++ local_cluster_id self)) as H.
    destruct (starts_with _ _); (split; [intros E|intros [rest [= ->]]]).
    - destruct (proj1 H eq_refl) as [rest ->]. exists rest. by rewrite string_app_assoc.
    - done.
    - done.
    - symmetry. apply H. exists rest. by rewrite string_app_assoc. }
  split; [exact Hiff|]. intros more rest E. apply Hiff. exists (more ++ rest)%string.
  by rewrite E, string_app_assoc.
Qed.

(** ** Witnesses *)

Definition sync_ev (i : string) (ts : Z) (tx : option string) : ChangeEvent :=
  MkEvent i "db" "users" Update ts VNull None None tx "off".

Lemma lww_converges_witness :
  winner (new "us-east-1") (sync_ev "old" 5 None) [sync_ev "new" 9 None] =
  winner (new "eu-west-1") (sync_ev "new" 9 None) [sync_ev "old" 5 None].
Proof.
  apply (lww_converges (new "us-east-1") (new "eu-west-1") (sync_ev "old" 5 None)
    (sync_ev "new" 9 None) [sync_ev "new" 9 None] [sync_ev "old" 5 None]).
  - apply Permutation_swap.
  - apply (bool_decide_unpack _). by vm_compute.
Defined.

Lemma lww_tie_diverges_witness :
  winner (new "us-east-1") (sync_ev "x" 5 None) [sync_ev "y" 5 None] = sync_ev "x" 5 None ∧
  winner (new "eu-west-1") (sync_ev "y" 5 None) [sync_ev "x" 5 None] = sync_ev "y" 5 None.
Proof. by apply (lww_tie_diverges (new "us-east-1") (new "eu-west-1")). Defined.

Lemma should_forward_spec_witness :
  should_forward (new "us-east-1") (sync_ev "x" 5 (Some "remote-us-east-10-tx"%string)) = false.
Proof.
  apply (should_forward_spec (new "us-east-1") (sync_ev "x" 5 (Some "remote-us-east-10-tx"%string)))
    with (more := "0"%string) (rest := "-tx"%string). reflexivity.
Defined.
End SyncCoordinator.
