(* ===== verification/Clock.v ===== *)
(** [std::time]: an [Instant] and a [Duration] are nanoseconds, and the conversions between durations
    and [f64] seconds are the library's. *)
From S2P Require Import Prelude F64.

Definition NANOS_PER_SEC : Z := 10 ^ 9.

(** [Duration::from_millis] *)
Definition from_millis (ms : Z) : Z := ms * 10 ^ 6.

(** [Instant::duration_since] saturates at zero. *)
Definition duration_since (now earlier : Z) : Z := Z.max 0 (now - earlier).

(** [Duration::as_secs_f64] *)
Definition as_secs_f64 (d : Z) : f64 :=
  f64_add (f64_of_Z (d / NANOS_PER_SEC)) (f64_div (f64_of_Z (d mod NANOS_PER_SEC)) (f64_of_Z NANOS_PER_SEC)).

(** The nearest integer to [num / den], ties to even. *)
Definition round_half_even (num den : Z) : Z :=
  let q := num / den in let r := num mod den in
  if 2 * r <? den then q else if den <? 2 * r then q + 1 else if Z.even q then q else q + 1.

(** [Duration::from_secs_f64]: panics on a negative, infinite, NaN or too long duration. *)
Definition from_secs_f64 (x : f64) : Outcome Z :=
  match x with
  | S754_zero _ => Ret 0
  | S754_finite false m e =>
    let ns := if 0 <=? e then Z.pos m * 2 ^ e * NANOS_PER_SEC
              else round_half_even (Z.pos m * NANOS_PER_SEC) (2 ^ (- e)) in
    if ns <? 2 ^ 64 * NANOS_PER_SEC then Ret ns else Panic
  | _ => Panic
  end.

(** [Duration::mul_f64] *)
Definition mul_f64 (d : Z) (rhs : f64) : Outcome Z := from_secs_f64 (f64_mul rhs (as_secs_f64 d)).

Lemma as_secs_f64_zero : as_secs_f64 0 = S754_zero false.
Proof. vm_compute. reflexivity. Qed.

Lemma duration_since_self t : duration_since t t = 0.
Proof. unfold duration_since. lia. Qed.
