(* ===== verification/Metrics.v ===== *)
(** [MetricsRegistry] ([src/resiliency/metrics.rs]): five process-wide counters, their text in the
    Prometheus format and the HTTP response of the exporter.

    The counters are relaxed atomics: each [fetch_add] and each [load] is one atomic step, and the
    threads' steps interleave in any order. *)
From Stdlib Require Import Reals Lra.
From S2P Require Import Prelude Text F64 Rounding Clock.

Module MetricsRegistry.

(** ** The counters *)

Record t := Mk {
  EVENTS_INGESTED : Z;
  EVENTS_PROCESSED : Z;
  DUPLICATES_FILTERED : Z;
  PROCESSING_LATENCY_SUM_US : Z;
  PROCESSING_LATENCY_COUNT : Z;
}.

Definition init : t := Mk 0 0 0 0 0.

Inductive cell := Ingested | Processed | Duplicates | LatencySum | LatencyCount.

#[export] Instance cell_eq_dec : EqDecision cell.
Proof. solve_decision. Defined.

Definition load (c : cell) (s : t) : Z :=
  match c with
  | Ingested => s.(EVENTS_INGESTED)
  | Processed => s.(EVENTS_PROCESSED)
  | Duplicates => s.(DUPLICATES_FILTERED)
  | LatencySum => s.(PROCESSING_LATENCY_SUM_US)
  | LatencyCount => s.(PROCESSING_LATENCY_COUNT)
  end.

(** [AtomicU64::fetch_add] wraps around in every profile. *)
Definition fetch_add (c : cell) (n : Z) (s : t) : t :=
  let '(Mk a b d e f) := s in
  match c with
  | Ingested => Mk ((a + n) mod 2 ^ 64) b d e f
  | Processed => Mk a ((b + n) mod 2 ^ 64) d e f
  | Duplicates => Mk a b ((d + n) mod 2 ^ 64) e f
  | LatencySum => Mk a b d ((e + n) mod 2 ^ 64) f
  | LatencyCount => Mk a b d e ((f + n) mod 2 ^ 64)
  end.

(** The atomic steps of each operation. *)
Definition increment_ingested : list (cell * Z) := [(Ingested, 1)].
Definition increment_processed : list (cell * Z) := [(Processed, 1)].
Definition increment_duplicates : list (cell * Z) := [(Duplicates, 1)].
Definition record_latency (duration_us : Z) : list (cell * Z) :=
  [(LatencySum, duration_us); (LatencyCount, 1)].

(** ** The text *)

(** [k] decimal digits with leading zeros. *)
Fixpoint dec_fixed (k : nat) (n : Z) (acc : string) : string :=
  match k with
  | O => acc
  | S k' => dec_fixed k' (n / 10) (String (digit_char (n mod 10)) acc)
  end.

(** The format [{:.6}] of an [f64] in [[0, 2 ^ 64)]: the exact value rounded to six decimals, ties to
    even. *)
Definition display_fixed6 (x : f64) : string :=
  let micros :=
    match x with
    | S754_finite _ m e =>
      if 0 <=? e then Z.pos m * 2 ^ e * 10 ^ 6 else round_half_even (Z.pos m * 10 ^ 6) (2 ^ (- e))
    | _ => 0
    end in
  (display_u64 (micros / 10 ^ 6) ++ "." ++ dec_fixed 6 (micros mod 10 ^ 6) "")%string.

Definition nl : string := String "010" "".
Definition crlf : string := String "013" nl.

Definition latency_sum_sec (latency_sum_us : Z) : f64 :=
  f64_div (f64_of_Z latency_sum_us) (f64_of_Z 1000000).

(** The loads of [render], in order, and the text made of the values. *)
Definition loads : list cell := [Ingested; Processed; Duplicates; LatencySum; LatencyCount].

Definition text (ingested processed duplicates latency_sum_us latency_count : Z) : string :=
  "# HELP caminus_events_ingested_total Total events ingested by the sources." ++ nl ++
  "# TYPE caminus_events_ingested_total counter" ++ nl ++
  "caminus_events_ingested_total " ++ display_u64 ingested ++ nl ++
  "# HELP caminus_events_processed_total Total events successfully processed and dispatched." ++ nl ++
  "# TYPE caminus_events_processed_total counter" ++ nl ++
  "caminus_events_processed_total " ++ display_u64 processed ++ nl ++
  "# HELP caminus_duplicates_filtered_total Total duplicate events filtered out by deduplication." ++ nl ++
  "# TYPE caminus_duplicates_filtered_total counter" ++ nl ++
  "caminus_duplicates_filtered_total " ++ display_u64 duplicates ++ nl ++
  "# HELP caminus_processing_latency_seconds_sum Latency sum of processing events in seconds." ++ nl ++
  "# TYPE caminus_processing_latency_seconds_sum counter" ++ nl ++
  "caminus_processing_latency_seconds_sum " ++ display_fixed6 (latency_sum_sec latency_sum_us) ++ nl ++
  "# HELP caminus_processing_latency_seconds_count Count of events processed for latency." ++ nl ++
  "# TYPE caminus_processing_latency_seconds_count counter" ++ nl ++
  "caminus_processing_latency_seconds_count " ++ display_u64 latency_count ++ nl.

(** [render] when no other thread runs. *)
Definition render (s : t) : string :=
  text (load Ingested s) (load Processed s) (load Duplicates s) (load LatencySum s) (load LatencyCount s).

(** The response to a connection, whatever it sends. *)
Definition response (metrics_data : string) : string :=
  "HTTP/1.1 200 OK" ++ crlf ++
  "Content-Type: text/plain; version=0.0.4; charset=utf-8" ++ crlf ++
  "Content-Length: " ++ display_u64 (Z.of_nat (String.length metrics_data)) ++ crlf ++
  "Connection: close" ++ crlf ++ crlf ++
  metrics_data.

(** ** Threads *)

(** A writer has additions left; a reader (a call of [render]) has loads left and values read. *)
Inductive thread :=
  | Writer (todo : list (cell * Z))
  | Reader (todo : list cell) (seen : list Z).

Inductive step : t * list thread → t * list thread → Prop :=
  | step_add s ths i c n todo : ths !! i = Some (Writer ((c, n) :: todo)) →
    step (s, ths) (fetch_add c n s, <[i := Writer todo]> ths)
  | step_load s ths i c todo seen : ths !! i = Some (Reader (c :: todo) seen) →
    step (s, ths) (s, <[i := Reader todo (seen ++ [load c s])]> ths).

(** ** Specification *)

(** The calls a thread makes, one after the other, and the atomic additions that they are. *)
Inductive call := IncrementIngested | IncrementProcessed | IncrementDuplicates | RecordLatency (duration_us : Z).

Definition additions (k : call) : list (cell * Z) :=
  match k with
  | IncrementIngested => increment_ingested
  | IncrementProcessed => increment_processed
  | IncrementDuplicates => increment_duplicates
  | RecordLatency duration_us => record_latency duration_us
  end.

(** The threads at the beginning: one per list of calls, and [readers] calls of [render]. *)
Definition threads (programs : list (list call)) (readers : nat) : list thread :=
  ((λ ks, Writer (flat_map additions ks)) <$> programs) ++ replicate readers (Reader loads []).

(** How many of the calls a test accepts, and the durations of the latencies recorded. *)
Definition number (test : call → bool) (ks : list call) : Z := Z.of_nat (length (List.filter test ks)).
Definition is_latency (k : call) : bool := match k with RecordLatency _ => true | _ => false end.
Definition durations (ks : list call) : Z :=
  foldr (λ k r, (match k with RecordLatency d => d | _ => 0 end) + r) 0 ks.

(** What a list of additions, and what the threads, still add to a counter. *)
Definition added (c : cell) (adds : list (cell * Z)) : Z :=
  foldr (λ a r, (if decide (a.1 = c) then a.2 else 0) + r) 0 adds.

Definition pending (c : cell) (ths : list thread) : Z :=
  foldr (λ th r, match th with Writer todo => added c todo | Reader _ _ => 0 end + r) 0 ths.

Definition adds_ok (ths : list thread) : Prop :=
  Forall (λ th, match th with Writer todo => Forall (λ a, 0 <= a.2) todo | Reader _ _ => True end) ths.

(** ** Lemmas *)

Lemma load_fetch_add c c' n s :
  load c (fetch_add c' n s) = if decide (c' = c) then (load c s + n) mod 2 ^ 64 else load c s.
Proof. destruct s. by destruct c, c'. Qed.

Lemma pending_insert c ths i th th' : ths !! i = Some th →
  pending c (<[i := th']> ths) =
    pending c ths - pending c [th] + pending c [th'].
Proof.
  revert i. induction ths as [|a ths IH]; intros [|i] H; [done..| |].
  - injection H as ->. cbn. lia.
  - cbn in H. specialize (IH i H). change (<[S i := th']> (a :: ths)) with (a :: <[i := th']> ths).
    cbn [pending foldr] in IH |- *. unfold pending in *. lia.
Qed.

Lemma pending_writer c todo : pending c [Writer todo] = added c todo.
Proof. cbn. lia. Qed.
Lemma pending_reader c todo seen : pending c [Reader todo seen] = 0.
Proof. done. Qed.
Lemma pending_cons c th ths : pending c (th :: ths) = pending c [th] + pending c ths.
Proof. unfold pending. cbn [foldr]. lia. Qed.
Lemma added_cons c c' n todo : added c ((c', n) :: todo) = (if decide (c' = c) then n else 0) + added c todo.
Proof. done. Qed.

(** A step keeps the value that the counter will have at the end. *)
Lemma step_total c x y : step x y →
  (load c y.1 + pending c y.2) mod 2 ^ 64 = (load c x.1 + pending c x.2) mod 2 ^ 64.
Proof.
  destruct 1 as [s ths i c' n todo H|s ths i c' todo seen H]; cbn [fst snd]; rewrite (pending_insert _ _ _ _ _ H).
  - rewrite load_fetch_add, !pending_writer, added_cons. destruct (decide (c' = c)).
    + rewrite Zplus_mod_idemp_l. f_equal. lia.
    + f_equal. lia.
  - rewrite !pending_reader. f_equal. lia.
Qed.

Lemma steps_total c x y : rtc step x y →
  (load c y.1 + pending c y.2) mod 2 ^ 64 = (load c x.1 + pending c x.2) mod 2 ^ 64.
Proof. induction 1 as [|x y z Hxy _ IH]; [done|]. by rewrite IH, (step_total c x y). Qed.

Definition done_thread (th : thread) : Prop :=
  match th with Writer todo => todo = [] | Reader todo _ => todo = [] end.

Lemma pending_done c ths : Forall done_thread ths → pending c ths = 0.
Proof.
  induction 1 as [|th ths H _ IH]; [done|]. rewrite pending_cons, IH. destruct th as [todo|todo seen]; [cbn in H; by subst|done].
Qed.

(** The counters stay in their 64 bits. *)
Lemma steps_in_range x y : rtc step x y → (∀ c, in_range 64 (load c x.1)) → ∀ c, in_range 64 (load c y.1).
Proof.
  induction 1 as [|x y z Hxy _ IH]; [done|]. intros H. apply IH. intros c.
  destruct Hxy as [s ths i c' n todo _|s ths i c' todo seen _]; cbn [fst] in *; [|apply H].
  rewrite load_fetch_add. case_decide; [exact (Z.mod_pos_bound (load c s + n) (2 ^ 64) eq_refl)|apply H].
Qed.

Lemma added_app c x y : added c (x ++ y) = added c x + added c y.
Proof. induction x as [|[c' n] x IH]; [done|]. cbn [app]. rewrite !added_cons, IH. lia. Qed.

Lemma pending_app c x y : pending c (x ++ y) = pending c x + pending c y.
Proof. induction x as [|th x IH]; [done|]. cbn [app]. rewrite (pending_cons c th (x ++ y)), (pending_cons c th x), IH. lia. Qed.

Lemma pending_threads c programs readers :
  pending c (threads programs readers) = added c (flat_map additions (concat programs)).
Proof.
  unfold threads. rewrite pending_app. replace (pending c (replicate readers _)) with 0.
  - rewrite Z.add_0_r. induction programs as [|ks programs IH]; [done|]. cbn [fmap list_fmap concat].
    rewrite pending_cons, pending_writer, flat_map_app, added_app. by f_equal.
  - induction readers as [|readers IH]; [done|]. cbn [replicate]. by rewrite pending_cons, <- IH.
Qed.

Lemma number_cons test k ks : number test (k :: ks) = (if test k then 1 else 0) + number test ks.
Proof. unfold number. cbn. destruct (test k); cbn [length]; lia. Qed.

(** What the calls add to each counter. *)
Lemma durations_cons k ks : durations (k :: ks) = (match k with RecordLatency d => d | _ => 0 end) + durations ks.
Proof. done. Qed.

Ltac added_calls ks := induction ks as [|k ks IH]; [done|];
  cbn [flat_map]; rewrite added_app, IH, ?number_cons, ?durations_cons; f_equal; destruct k; cbn; repeat case_decide; (lia || done).
Lemma added_ingested ks : added Ingested (flat_map additions ks) =
  number (λ k, match k with IncrementIngested => true | _ => false end) ks.
Proof. added_calls ks. Qed.
Lemma added_processed ks : added Processed (flat_map additions ks) =
  number (λ k, match k with IncrementProcessed => true | _ => false end) ks.
Proof. added_calls ks. Qed.
Lemma added_duplicates ks : added Duplicates (flat_map additions ks) =
  number (λ k, match k with IncrementDuplicates => true | _ => false end) ks.
Proof. added_calls ks. Qed.
Lemma added_durations ks : added LatencySum (flat_map additions ks) = durations ks.
Proof. added_calls ks. Qed.
Lemma added_latencies ks : added LatencyCount (flat_map additions ks) = number is_latency ks.
Proof. added_calls ks. Qed.

Lemma added_nonneg c adds : Forall (λ a, 0 <= a.2) adds → 0 <= added c adds.
Proof.
  induction 1 as [|[c' n] adds H _ IH]; [done|]. rewrite added_cons. cbn in H. destruct (decide _); lia.
Qed.

Lemma pending_nonneg c ths : adds_ok ths → 0 <= pending c ths.
Proof.
  induction 1 as [|th ths H _ IH]; [done|]. rewrite pending_cons. destruct th as [todo|]; [|done].
  rewrite pending_writer. pose proof (added_nonneg c todo H). lia.
Qed.

(** While no counter overflows the counters only grow. *)
Lemma step_grows x y : step x y → adds_ok x.2 → (∀ c, 0 <= load c x.1 ∧ load c x.1 + pending c x.2 < 2 ^ 64) →
  adds_ok y.2 ∧ ∀ c, load c x.1 <= load c y.1 ∧ load c y.1 + pending c y.2 < 2 ^ 64.
Proof.
  destruct 1 as [s ths i c' n todo H|s ths i c' todo seen H]; cbn [fst snd]; intros Hok Hb.
  - pose proof (Forall_lookup_1 _ _ _ _ Hok H) as [Hn Ht]%Forall_cons. cbn in Hn. split; [by apply Forall_insert|].
    intros c. rewrite (pending_insert _ _ _ _ _ H), load_fetch_add, !pending_writer, added_cons.
    destruct (Hb c) as [Hc1 Hc2]. assert (Hp : pending c [Writer ((c', n) :: todo)] <= pending c ths).
    { pose proof (pending_nonneg c (<[i := Writer []]> ths) ltac:(by apply Forall_insert; [done|])) as Hp.
      rewrite (pending_insert _ _ _ _ _ H) in Hp. cbn [pending added foldr] in Hp |- *. unfold pending, added in *. cbn [foldr] in *. lia. }
    rewrite pending_writer, added_cons in Hp. pose proof (added_nonneg c todo Ht).
    destruct (decide (c' = c)); [|lia]. rewrite Z.mod_small by lia. lia.
  - split; [by apply Forall_insert|]. intros c.
    rewrite (pending_insert _ _ _ _ _ H), !pending_reader. destruct (Hb c). lia.
Qed.

(** *** Reading the response *)

(** What follows the first occurrence of [pat], and what precedes the first line end. *)
Fixpoint after (pat s : string) : option string :=
  if String.prefix pat s then Some (String.substring (String.length pat) (String.length s) s)
  else match s with EmptyString => None | String _ s' => after pat s' end.

Fixpoint line_of (s : string) : string :=
  match s with
  | EmptyString => ""
  | String c s' => if Ascii.eqb c "013" then "" else String c (line_of s')
  end.

(** How a client reads a response: the declared length, then that many bytes after the empty line. *)
Definition read_response (s : string) : option string :=
  h ← after "Content-Length: " s;
  n ← parse_u64 (line_of h);
  body ← after (crlf ++ crlf) h;
  if Z.of_nat (String.length body) =? n then Some body else None.

Fixpoint no_cr (s : string) : bool :=
  match s with EmptyString => true | String c s' => negb (Ascii.eqb c "013") && no_cr s' end.

Lemma substring_all n s : (String.length s <= n)%nat → String.substring 0 n s = s.
Proof.
  revert n. induction s as [|c s IH]; intros [|n] H; cbn in *; [done|done|lia|]. f_equal. apply IH. lia.
Qed.

Lemma after_found pat s : after pat (pat ++ s) = Some s.
Proof.
  assert (Hg : ∀ n, (String.length s <= n)%nat → String.substring (String.length pat) n (pat ++ s) = s).
  { intros n Hn. induction pat as [|c pat IH]; [by apply substring_all|done]. }
  assert (Hl : (String.length s <= String.length (pat ++ s))%nat).
  { clear Hg. induction pat as [|c pat IH]; [done|]. rewrite string_app_cons. cbn [String.length]. lia. }
  pose proof (Hg _ Hl) as H.
  unfold after at 1. destruct (pat ++ s)%string eqn:E; rewrite <- E in *; fold after; by rewrite prefix_app, H.
Qed.

Lemma after_no_cr pat d s : no_cr d = true →
  after (String "013" pat) (d ++ s) = after (String "013" pat) s.
Proof.
  induction d as [|c d IH]; [done|]. cbn [no_cr]. intros [Hc Hd]%andb_true_iff. rewrite string_app_cons.
  cbn [after String.prefix]. destruct (ascii_dec "013" c) as [<-|_]; [by rewrite Ascii.eqb_refl in Hc|]. by apply IH.
Qed.

Lemma line_of_no_cr d s : no_cr d = true → line_of (d ++ String "013" s) = d.
Proof.
  induction d as [|c d IH]; [done|]. cbn [no_cr]. intros [Hc Hd]%andb_true_iff. rewrite string_app_cons.
  cbn [line_of]. apply negb_true_iff in Hc. rewrite Hc. by rewrite IH.
Qed.

Lemma digit_char_no_cr d : 0 <= d < 10 → Ascii.eqb (digit_char d) "013" = false.
Proof.
  intros Hd. assert (d ∈ [0; 1; 2; 3; 4; 5; 6; 7; 8; 9]) as H by (rewrite !elem_of_cons; lia).
  rewrite !elem_of_cons, elem_of_nil in H. by naive_solver.
Qed.

Lemma dec_digits_no_cr fuel n s : 0 <= n → no_cr s = true → no_cr (dec_digits fuel n s) = true.
Proof.
  revert n s. induction fuel as [|fuel IH]; intros n s Hn Hs; [done|]. cbn [dec_digits].
  assert (H : no_cr (String (digit_char (n mod 10)) s) = true).
  { cbn [no_cr]. by rewrite digit_char_no_cr by (apply Z.mod_pos_bound; lia). }
  destruct (n <? 10); [done|]. apply IH; [by apply Z.div_pos|done].
Qed.

(** *** The exact decimals *)

Lemma round_half_even_unique num den n : 0 < den → Z.abs (2 * num - 2 * n * den) < den →
  round_half_even num den = n.
Proof.
  intros Hd H. unfold round_half_even. pose proof (Z.div_mod num den ltac:(lia)) as E.
  pose proof (Z.mod_pos_bound num den Hd) as Hr. set (q := num / den) in *. set (r := num mod den) in *.
  assert (q = n ∨ q = n - 1) as [->| ->] by nia.
  - by rewrite (proj2 (Z.ltb_lt _ _)) by lia.
  - rewrite (proj2 (Z.ltb_ge _ _)), (proj2 (Z.ltb_lt _ _)) by lia. lia.
Qed.

(** The quotient [n / 10 ^ 6] as a float is less than half a microsecond away from the exact one. *)
Lemma latency_sum_near n : 0 <= n < 2 ^ 50 →
  nonnegative (latency_sum_sec n) ∧ (IZR n - 1 / 4 <= to_R (latency_sum_sec n) * 1000000 <= IZR n + 1 / 4)%R.
Proof.
  intros Hn. destruct (of_Z_exact n ltac:(lia)) as [En Nn]. destruct (of_Z_exact 1000000 ltac:(lia)) as [Em Nm].
  assert (H0 : (0 <= IZR n < 1125899906842624)%R) by (split; [apply IZR_le|apply IZR_lt]; lia).
  assert (H1 : (1125899906842624 <= bp 1000)%R) by (rewrite bp_IZR by lia; apply IZR_le; vm_compute; discriminate).
  assert (Hr : rounds (latency_sum_sec n) (IZR n / 1000000)).
  { unfold latency_sum_sec. rewrite <- En, <- Em. apply div_rounds; [done|done|rewrite Em; lra|]. rewrite En, Em. lra. }
  split; [apply Hr|]. pose proof (rounds_err _ _ Hr) as He. fold ulp in He. pose proof ulp_small.
  pose proof (bp_lt (-1075) (-53) ltac:(lia)) as Ht. fold ulp in Ht. pose proof (bp_pos (-1075)).
  assert (Hu : (0 <= IZR n / 1000000 * ulp <= 1125899907 * ulp)%R).
  { split; [apply Rmult_le_pos; lra|apply Rmult_le_compat_r; lra]. }
  lra.
Qed.

Lemma fixed6_exact x n : nonnegative x → 0 <= n → (IZR n - 1 / 4 <= to_R x * 1000000 <= IZR n + 1 / 4)%R →
  display_fixed6 x = (display_u64 (n / 10 ^ 6) ++ "." ++ dec_fixed 6 (n mod 10 ^ 6) "")%string.
Proof.
  intros Hx Hn H. unfold display_fixed6. set (micros := match x with S754_finite _ _ _ => _ | _ => _ end).
  assert (micros = n) as ->; [|done]. unfold micros. destruct x as [z| | |z m e]; try done.
  - cbn [to_R] in H. assert (IZR n < IZR 1)%R as ?%lt_IZR; [lra|lia].
  - destruct Hx as [-> _]. cbn [to_R] in H. rewrite Rmult_1_l in H. destruct (Z.leb_spec 0 e) as [He|He].
    + rewrite IZR_bp, <- mult_IZR in H by done. change (10 ^ 6) with 1000000.
      assert (H1 : (IZR (n - 1) < IZR (Z.pos m * 2 ^ e * 1000000) < IZR (n + 1))%R).
      { rewrite minus_IZR, plus_IZR. lra. }
      destruct H1 as [?%lt_IZR ?%lt_IZR]. lia.
    + apply round_half_even_unique; [apply Z.pow_pos_nonneg; lia|]. change (10 ^ 6) with 1000000.
      set (D := 2 ^ (- e)). assert (HD : (0 < IZR D)%R) by (apply IZR_lt, Z.pow_pos_nonneg; lia).
      assert (HE : (bp e * IZR D = 1)%R).
      { unfold D. rewrite <- bp_IZR by lia. by rewrite <- bp_add, Z.add_opp_diag_r. }
      assert (Hm : (IZR (Z.pos m) * bp e * 1000000 * IZR D = IZR (Z.pos m * 1000000))%R).
      { rewrite mult_IZR. transitivity (IZR (Z.pos m) * 1000000 * (bp e * IZR D))%R; [ring|rewrite HE; ring]. }
      assert (H1 : (IZR (2 * (Z.pos m * 1000000) - 2 * n * D) < IZR D ∧ - IZR D < IZR (2 * (Z.pos m * 1000000) - 2 * n * D))%R).
      { rewrite minus_IZR, !(mult_IZR 2), (mult_IZR (2 * n)), (mult_IZR 2 n), <- Hm. split; nra. }
      destruct H1 as [H1%lt_IZR H2]. rewrite <- opp_IZR in H2. apply lt_IZR in H2. lia.
Qed.

(** ** Properties *)

(** C19. No call is lost: however the atomic accesses of any number of threads interleave, each making any
    sequence of calls of [increment_ingested], [increment_processed], [increment_duplicates] and
    [record_latency], while any number of calls of [render] read, the counters starting at 0 as their statics
    do: when all are done, [EVENTS_INGESTED], [EVENTS_PROCESSED] and [DUPLICATES_FILTERED] are the numbers of
    calls of their functions, [PROCESSING_LATENCY_COUNT] is the number of calls of [record_latency] and
    [PROCESSING_LATENCY_SUM_US] the sum of the durations recorded, all modulo [2 ^ 64]. *)
Theorem no_lost_update (programs : list (list call)) (readers : nat) (s : t) (ths : list thread)
    (Hsteps : rtc step (init, threads programs readers) (s, ths)) (Hdone : Forall done_thread ths) :
  let calls := concat programs in
  s.(EVENTS_INGESTED) = number (λ k, match k with IncrementIngested => true | _ => false end) calls mod 2 ^ 64 ∧
  s.(EVENTS_PROCESSED) = number (λ k, match k with IncrementProcessed => true | _ => false end) calls mod 2 ^ 64 ∧
  s.(DUPLICATES_FILTERED) = number (λ k, match k with IncrementDuplicates => true | _ => false end) calls mod 2 ^ 64 ∧
  s.(PROCESSING_LATENCY_SUM_US) = durations calls mod 2 ^ 64 ∧
  s.(PROCESSING_LATENCY_COUNT) = number is_latency calls mod 2 ^ 64.
Proof.
  intros calls. assert (H : ∀ c, load c s = added c (flat_map additions calls) mod 2 ^ 64).
  { intros c. pose proof (steps_total c _ _ Hsteps) as H. cbn [fst snd] in H.
    rewrite (pending_done c ths Hdone), Z.add_0_r, pending_threads in H.
    rewrite Z.mod_small in H by (apply (steps_in_range _ _ Hsteps); intros []; by split).
    rewrite H. f_equal. by destruct c. }
  split_and!; [rewrite <- (added_ingested calls); exact (H Ingested)|rewrite <- (added_processed calls); exact (H Processed)
    |rewrite <- (added_duplicates calls); exact (H Duplicates)|rewrite <- (added_durations calls); exact (H LatencySum)
    |rewrite <- (added_latencies calls); exact (H LatencyCount)].
Qed.

(** [render] reads the counters one after the other while other threads run, so its values need not
    have been there at one time; but without overflow each value lies between the counter's values
    when the rendering starts and when it ends. *)
Theorem render_between (s s' : t) (ths ths' : list thread) (i : nat) (cells : list cell) (seen : list Z)
    (Hok : adds_ok ths) (Hmax : ∀ c, 0 <= load c s ∧ load c s + pending c ths < 2 ^ 64)
    (Hi : ths !! i = Some (Reader cells [])) (Hsteps : rtc step (s, ths) (s', ths'))
    (Hi' : ths' !! i = Some (Reader [] seen)) :
  Forall2 (λ c v, load c s <= v <= load c s') cells seen.
Proof.
  enough (G : ∀ x y, rtc step x y → adds_ok x.2 → (∀ c, 0 <= load c x.1 ∧ load c x.1 + pending c x.2 < 2 ^ 64) →
    ∀ todo seen0, x.2 !! i = Some (Reader todo seen0) → y.2 !! i = Some (Reader [] seen) →
    (∀ c, load c x.1 <= load c y.1) ∧
    ∃ rest, seen = seen0 ++ rest ∧ Forall2 (λ c v, load c x.1 <= v <= load c y.1) todo rest).
  { destruct (G _ _ Hsteps Hok Hmax _ _ Hi Hi') as (_ & rest & -> & HF). by rewrite app_nil_l in *. }
  clear. intros x y Hsteps. induction Hsteps as [x|x y z Hxy _ IH]; intros Hok Hmax todo seen0 Hx Hz.
  { rewrite Hx in Hz. injection Hz as -> ->. split; [done|]. exists []. by rewrite app_nil_r. }
  destruct (step_grows x y Hxy Hok Hmax) as [Hok' Hg].
  assert (Hmax' : ∀ c, 0 <= load c y.1 ∧ load c y.1 + pending c y.2 < 2 ^ 64).
  { intros c. destruct (Hg c), (Hmax c). lia. }
  specialize (IH Hok' Hmax').
  assert (Hy : ∃ todo' seen', y.2 !! i = Some (Reader todo' seen') ∧
    ((todo' = todo ∧ seen' = seen0) ∨ ∃ c, todo = c :: todo' ∧ seen' = seen0 ++ [load c x.1])).
  { destruct Hxy as [s1 ths1 j c' n td Hj|s1 ths1 j c' td sn Hj]; cbn [fst snd] in *;
      (destruct (decide (j = i)) as [->|Hne]; [|exists todo, seen0; rewrite list_lookup_insert_ne by done; by auto]).
    - congruence.
    - rewrite Hx in Hj. injection Hj as -> ->. exists td, (sn ++ [load c' s1]). split; [|right; by eexists].
      rewrite list_lookup_insert_eq; [done|]. by eapply lookup_lt_Some. }
  destruct Hy as (todo' & seen' & Hy & Hcase). destruct (IH todo' seen' Hy Hz) as (Hyz & rest & -> & HF).
  split; [intros c; pose proof (Hg c); pose proof (Hyz c); lia|].
  assert (HF' : Forall2 (λ c v, load c x.1 <= v <= load c z.1) todo' rest).
  { eapply Forall2_impl; [exact HF|]. intros c v Hv. cbn in Hv. destruct (Hg c). lia. }
  destruct Hcase as [[-> ->]|(c & -> & ->)]; [by exists rest|].
  exists (load c x.1 :: rest). rewrite <- app_assoc. split; [done|]. constructor; [|done].
  destruct (Hg c). pose proof (Hyz c). lia.
Qed.

(** C22. The latency sum is printed to the microsecond: up to [2 ^ 50] microseconds (35 years) the float
    division and the six decimals give exactly the counter's seconds and microseconds. *)
Theorem render_latency_exact (sum_us : Z) (H : 0 <= sum_us < 2 ^ 50) :
  display_fixed6 (latency_sum_sec sum_us) =
    (display_u64 (sum_us / 10 ^ 6) ++ "." ++ dec_fixed 6 (sum_us mod 10 ^ 6) "")%string.
Proof. destruct (latency_sum_near sum_us H) as [H1 H2]. by apply fixed6_exact; [|lia|]. Qed.

(** The response is framed as HTTP: a client that takes the declared [Content-Length] after the empty
    line gets the rendered metrics, whatever they are. *)
Theorem response_framed (metrics_data : string) (Hlen : Z.of_nat (String.length metrics_data) < 2 ^ 64) :
  read_response (response metrics_data) = Some metrics_data.
Proof.
  unfold read_response, response. set (n := Z.of_nat (String.length metrics_data)) in *.
  set (d := display_u64 n). assert (Hd : no_cr d = true) by (apply dec_digits_no_cr; [lia|done]).
  assert (E : ∀ a, after "Content-Length: " (("HTTP/1.1 200 OK" ++ crlf ++
    "Content-Type: text/plain; version=0.0.4; charset=utf-8" ++ crlf ++ "Content-Length: " ++ a)%string) = Some a).
  { intros a. transitivity (after "Content-Length: " ("Content-Length: " ++ a)%string); [reflexivity|].
    apply (after_found "Content-Length: "). }
  rewrite E. cbn [mbind option_bind]. clear E.
  change (crlf ++ "Connection: close" ++ crlf ++ crlf ++ metrics_data)%string with
    (String "013" (nl ++ "Connection: close" ++ crlf ++ crlf ++ metrics_data)%string).
  rewrite line_of_no_cr by done. change (parse_u64 d) with (parse_u64 (display_u64 n)). rewrite parse_display_u64 by (unfold in_range; lia).
  cbn [mbind option_bind]. change (crlf ++ crlf)%string with (String "013" (nl ++ crlf)%string).
  rewrite after_no_cr by done.
  assert (E : after (String "013" (nl ++ crlf)%string)
    (String "013" (nl ++ "Connection: close" ++ (crlf ++ crlf) ++ metrics_data)%string) = Some metrics_data).
  { transitivity (after (crlf ++ crlf)%string ((crlf ++ crlf) ++ metrics_data)%string); [reflexivity|apply after_found]. }
  rewrite string_app_assoc in E. rewrite E. cbn [mbind option_bind]. fold n. by rewrite Z.eqb_refl.
Qed.

(** ** Witnesses *)

(** Two threads record latencies while a third renders. *)
Definition programs : list (list call) := [[RecordLatency 500000; IncrementIngested]; [RecordLatency 250000]].
Definition three_threads : list thread :=
  [Writer (record_latency 500000 ++ increment_ingested); Writer (record_latency 250000); Reader [LatencySum; LatencyCount] []].

Ltac step_at j := eapply rtc_l; [first [eapply (step_add _ _ j); reflexivity | eapply (step_load _ _ j); reflexivity]|].

Lemma three_threads_run : ∃ s' ths', rtc step (init, three_threads) (s', ths') ∧
  s' = Mk 1 0 0 750000 2 ∧ ths' = [Writer []; Writer []; Reader [] [750000; 1]].
Proof.
  eexists _, _. split; [|split; reflexivity].
  step_at 0%nat. step_at 0%nat. step_at 1%nat. step_at 2%nat. step_at 2%nat. step_at 1%nat. step_at 0%nat.
  apply rtc_refl.
Qed.

Lemma no_lost_update_witness : ∃ s ths, rtc step (init, threads programs 1) (s, ths) ∧
  s.(PROCESSING_LATENCY_SUM_US) = 750000 ∧ s.(PROCESSING_LATENCY_COUNT) = 2.
Proof.
  assert (H : ∃ s ths, rtc step (init, threads programs 1) (s, ths) ∧ Forall done_thread ths).
  { eexists _, _. split.
    - step_at 0%nat. step_at 1%nat. step_at 2%nat. step_at 2%nat. step_at 2%nat. step_at 2%nat. step_at 1%nat. step_at 0%nat.
      step_at 2%nat. step_at 0%nat. apply rtc_refl.
    - by repeat constructor. }
  destruct H as (s & ths & H & Hd). exists s, ths. split; [exact H|].
  destruct (no_lost_update programs 1 s ths H Hd) as (_ & _ & _ & E1 & E2). by rewrite E1, E2.
Defined.

Lemma render_between_witness : ∃ s' ths', rtc step (init, three_threads) (s', ths') ∧
  Forall2 (λ c v, load c init <= v <= load c s') [LatencySum; LatencyCount] [750000; 1].
Proof.
  destruct three_threads_run as (s' & ths' & H & Es & Eths). exists s', ths'. split; [exact H|].
  apply (render_between init s' three_threads ths' 2); [|intros []; vm_compute; split; (done || discriminate)|reflexivity|exact H|by rewrite Eths].
  repeat constructor; cbn; lia.
Defined.

Lemma render_latency_exact_witness : display_fixed6 (latency_sum_sec 1234567890123) = "1234567.890123"%string.
Proof. etransitivity; [apply render_latency_exact; lia|]. vm_compute. reflexivity. Defined.

Lemma response_framed_witness : read_response (response (render init)) = Some (render init).
Proof. apply response_framed. vm_compute. reflexivity. Defined.
End MetricsRegistry.
