(* ===== verification/Exporter.v ===== *)
(** The exporter of [MetricsRegistry] ([start_exporter] in [src/resiliency/metrics.rs]): its listener, and a task
    per accepted connection that reads, renders the counters and writes the response, all interleaved with the
    threads that update the counters. *)
From S2P Require Import Prelude Text F64 Metrics.

Module Exporter.
Import MetricsRegistry.

(** ** The component *)

(** The task of a connection: it waits for [read], loads the counters, and has written its response, or a part of
    it if the write failed.  The results of [read], [write_all] and [flush] are dropped. *)
Inductive connection :=
  | Reading
  | Rendering (todo : list cell) (seen : list Z)
  | Written (seen : list Z) (sent : string)
  | Broken (seen : list Z) (sent : string).

(** What [render] makes of the values that it has loaded, in the order of [loads]. *)
Definition rendered (seen : list Z) : string :=
  match seen with [a; b; c; d; e] => text a b c d e | _ => "" end.

(** The listener: what [accept] will return, in order. *)
Record t {A : Type} := Mk {
  counters : MetricsRegistry.t;
  writers : list thread;
  arrivals : list (Result unit A);
  connections : list connection;
}.
Arguments t : clear implicits.
Arguments Mk {_} _ _ _ _.

Inductive message (B : Type) :=
  | Listening (addr : string)
  | FailedToBind (addr : string) (e : B).
#[global] Arguments Listening {_} _.
#[global] Arguments FailedToBind {_} _ _.

(** The task that [start_exporter] spawns: it ends if the address cannot be bound. *)
Definition start_exporter {A B} (addr : string) (bind : Result unit B) (counters : MetricsRegistry.t)
    (writers : list thread) (arrivals : list (Result unit A)) : message B * option (t A) :=
  match bind with
  | Ok _ => (Listening addr, Some (Mk counters writers arrivals []))
  | Err e => (FailedToBind addr e, None)
  end.

(** One step of a thread that updates the counters, of the accept loop or of the task of a connection. *)
Inductive step {A} : t A → t A → Prop :=
  | step_write s ws s' ws' q cs : MetricsRegistry.step (s, ws) (s', ws') → step (Mk s ws q cs) (Mk s' ws' q cs)
  | step_accept s ws q cs : step (Mk s ws (Ok tt :: q) cs) (Mk s ws q (cs ++ [Reading]))
  | step_accept_error s ws e q cs : step (Mk s ws (Err e :: q) cs) (Mk s ws q cs)
  | step_read s ws q cs i : cs !! i = Some Reading →
    step (Mk s ws q cs) (Mk s ws q (<[i := Rendering loads []]> cs))
  | step_render s ws q cs i c todo seen : cs !! i = Some (Rendering (c :: todo) seen) →
    step (Mk s ws q cs) (Mk s ws q (<[i := Rendering todo (seen ++ [load c s])]> cs))
  | step_respond s ws q cs i seen : cs !! i = Some (Rendering [] seen) →
    step (Mk s ws q cs) (Mk s ws q (<[i := Written seen (response (rendered seen))]> cs))
  | step_break s ws q cs i seen p : cs !! i = Some (Rendering [] seen) →
    String.prefix p (response (rendered seen)) = true →
    step (Mk s ws q cs) (Mk s ws q (<[i := Broken seen p]> cs)).

(** ** Specification *)

(** Each value lies between the counter's values at two moments. *)
Definition between (s s' : MetricsRegistry.t) (seen : list Z) : Prop :=
  Forall2 (λ c v, load c s <= v <= load c s') loads seen.

(** The additions that are left do not overflow a counter. *)
Definition no_overflow {A} (x : t A) : Prop :=
  adds_ok x.(writers) ∧
  ∀ c, 0 <= load c x.(counters) ∧ load c x.(counters) + pending c x.(writers) < 2 ^ 64.

(** ** Lemmas *)

(** A connection that had not begun to load at [s0]. *)
Definition conn_ok (s0 s : MetricsRegistry.t) (c : connection) : Prop :=
  match c with
  | Reading => True
  | Rendering todo seen =>
    ∃ done_, loads = done_ ++ todo ∧ Forall2 (λ c v, load c s0 <= v <= load c s) done_ seen
  | Written seen sent => between s0 s seen ∧ sent = response (rendered seen)
  | Broken seen sent => between s0 s seen ∧ String.prefix sent (response (rendered seen)) = true
  end.

Lemma between_later s0 s s' done_ seen : (∀ c, load c s <= load c s') →
  Forall2 (λ c v, load c s0 <= v <= load c s) done_ seen → Forall2 (λ c v, load c s0 <= v <= load c s') done_ seen.
Proof. intros H HF. eapply Forall2_impl; [exact HF|]. intros c v Hv. specialize (H c). cbn in Hv. lia. Qed.

Lemma conn_ok_later s0 s s' c : (∀ c, load c s <= load c s') → conn_ok s0 s c → conn_ok s0 s' c.
Proof.
  intros H. destruct c; cbn; [done| | |].
  - intros (d & E & HF). exists d. split; [done|]. by eapply between_later.
  - intros [HF E]. split; [by eapply between_later|done].
  - intros [HF E]. split; [by eapply between_later|done].
Qed.

(** A step keeps the counters growing, and each connection that is there. *)
Lemma exporter_step_grows {A} (x y : t A) : step x y → no_overflow x →
  no_overflow y ∧ (∀ c, load c x.(counters) <= load c y.(counters)).
Proof.
  intros Hs [Hok Hmax]. destruct Hs as [s ws s' ws' q cs Hs| | | | | |]; cbn in *; try (split; [done|intros; lia]).
  destruct (MetricsRegistry.step_grows _ _ Hs Hok Hmax) as [Hok' Hg]. cbn in *. split; [|intros c; by destruct (Hg c)].
  split; [done|]. intros c. destruct (Hg c), (Hmax c). cbn in *. lia.
Qed.

Lemma lookup_insert_case {B} (l : list B) i j a b : <[i := a]> l !! j = Some b → (j = i ∧ b = a) ∨ l !! j = Some b.
Proof.
  destruct (decide (i = j)) as [->|Hne]; [|rewrite list_lookup_insert_ne by done; by right].
  intros H. left. split; [done|]. destruct (decide (j < length l)%nat).
  - rewrite list_lookup_insert_eq in H by done. congruence.
  - rewrite list_insert_ge in H by lia. apply lookup_lt_Some in H. lia.
Qed.

(** One step, for a connection that began to load after [s0]. *)
Lemma step_conn {A} s0 (x y : t A) i : step x y → no_overflow x → (∀ c, load c s0 <= load c x.(counters)) →
  (∀ c, x.(connections) !! i = Some c → conn_ok s0 x.(counters) c) →
  ∀ c, y.(connections) !! i = Some c → conn_ok s0 y.(counters) c.
Proof.
  intros Hs Hno H0 Hx c Hc. destruct (exporter_step_grows _ _ Hs Hno) as [_ Hg].
  destruct Hs as [s ws s' ws' q cs Hs|s ws q cs|s ws e q cs|s ws q cs j Hj|s ws q cs j d todo seen Hj
    |s ws q cs j seen Hj|s ws q cs j seen p Hj Hp]; cbn in *.
  - eapply conn_ok_later; [exact Hg|by apply Hx].
  - apply lookup_app_Some in Hc as [Hc|[_ Hc]]; [by apply Hx|].
    destruct (_ - _)%nat as [|k]; [|by destruct k]. by injection Hc as <-.
  - by apply Hx.
  - apply lookup_insert_case in Hc as [[-> ->]|Hc]; [|by apply Hx]. exists []. by split.
  - apply lookup_insert_case in Hc as [[-> ->]|Hc]; [|by apply Hx].
    destruct (Hx _ Hj) as (done_ & E & HF). exists (done_ ++ [d]). rewrite <- app_assoc. split; [done|].
    apply Forall2_app; [done|]. constructor; [|done]. specialize (H0 d). lia.
  - apply lookup_insert_case in Hc as [[-> ->]|Hc]; [|by apply Hx].
    destruct (Hx _ Hj) as (done_ & E & HF). rewrite app_nil_r in E. subst done_. by split.
  - apply lookup_insert_case in Hc as [[-> ->]|Hc]; [|by apply Hx].
    destruct (Hx _ Hj) as (done_ & E & HF). rewrite app_nil_r in E. subst done_. by split.
Qed.

Lemma run_conn {A} (x y : t A) i : rtc step x y → no_overflow x →
  (∀ c, x.(connections) !! i = Some c → c = Reading) →
  no_overflow y ∧ ∀ c, y.(connections) !! i = Some c → conn_ok x.(counters) y.(counters) c.
Proof.
  intros Hr Hno Hi.
  enough (G : (no_overflow y ∧ ∀ c, load c x.(counters) <= load c y.(counters)) ∧
    ∀ c, y.(connections) !! i = Some c → conn_ok x.(counters) y.(counters) c) by (split; apply G).
  refine (rtc_invariant step (λ y, (no_overflow y ∧ ∀ c, load c x.(counters) <= load c y.(counters)) ∧
    ∀ c, y.(connections) !! i = Some c → conn_ok x.(counters) y.(counters) c) _ x y Hr _).
  - intros y1 y2 [[Hn Hg] Hc] Hs. destruct (exporter_step_grows _ _ Hs Hn) as [Hn' Hg']. split.
    + split; [done|]. intros c. etransitivity; [apply Hg|apply Hg'].
    + by apply (step_conn _ y1 y2).
  - split; [by split|]. intros c Hc. by rewrite (Hi c Hc).
Qed.

(** What a connection has loaded and sent, whatever the values. *)
Definition shape (c : connection) : Prop :=
  match c with
  | Reading => True
  | Rendering todo seen => (length seen + length todo = length loads)%nat
  | Written seen sent => length seen = length loads ∧ sent = response (rendered seen)
  | Broken seen _ => length seen = length loads
  end.

Lemma run_shape {A} (x y : t A) : rtc step x y → Forall shape x.(connections) → Forall shape y.(connections).
Proof.
  intros Hr Hx. refine (rtc_invariant step (λ y, Forall shape y.(connections)) _ x y Hr Hx).
  clear. intros x y Hx Hs. destruct Hs as [s ws s' ws' q cs Hs|s ws q cs|s ws e q cs|s ws q cs i Hi
    |s ws q cs i c todo seen Hi|s ws q cs i seen Hi|s ws q cs i seen p Hi Hp]; cbn [connections] in *; try done.
  - apply Forall_app. split; [done|]. by apply Forall_singleton.
  - apply Forall_insert; [done|]. done.
  - apply Forall_insert; [done|]. eapply Forall_lookup_1 in Hx; [|exact Hi]. cbn [shape length] in *.
    rewrite length_app. cbn [length]. lia.
  - apply Forall_insert; [done|]. eapply Forall_lookup_1 in Hx; [|exact Hi]. cbn [shape] in *. cbn [length] in Hx. split; [lia|done].
  - apply Forall_insert; [done|]. eapply Forall_lookup_1 in Hx; [|exact Hi]. cbn [shape] in *. cbn [length] in Hx. lia.
Qed.

(** The text is short, so its length fits the header. *)
Lemma dec_fixed_length k n s : String.length (dec_fixed k n s) = (k + String.length s)%nat.
Proof. revert n s. induction k as [|k IH]; intros n s; [done|]. cbn [dec_fixed]. rewrite IH. cbn. lia. Qed.

Lemma text_length a b c d e : (String.length (text a b c d e) <= 2000)%nat.
Proof.
  unfold text, display_fixed6. rewrite !length_app_string, dec_fixed_length.
  pose proof (display_u64_length a). pose proof (display_u64_length b). pose proof (display_u64_length c).
  pose proof (display_u64_length e).
  match goal with |- context [display_u64 (?m / ?k)] => pose proof (display_u64_length (m / k)) end.
  cbn [String.length]. unfold nl. cbn [String.length]. lia.
Qed.

Lemma rendered_framed seen : read_response (response (rendered seen)) = Some (rendered seen).
Proof.
  apply response_framed. assert (String.length (rendered seen) <= 2000)%nat; [|lia].
  destruct seen as [|a [|b [|c [|d [|e [|]]]]]]; cbn [rendered]; try (cbn; lia). apply text_length.
Qed.

(** A connection that is accepted and answered while nothing else moves. *)
Lemma answered {A} (s : MetricsRegistry.t) ws (q : list (Result unit A)) cs i :
  cs !! i = Some Reading →
  ∃ seen, rtc step (Mk s ws q cs) (Mk s ws q (<[i := Written seen (response (render s))]> cs)).
Proof.
  intros Hi. pose proof (lookup_lt_Some _ _ _ Hi) as Hlt.
  assert (Hat : ∀ c, <[i := c]> cs !! i = Some c) by (intros c; by rewrite list_lookup_insert_eq).
  assert (G : ∀ todo seen c, rtc step (Mk s ws q (<[i := c]> cs)) (Mk s ws q (<[i := Rendering todo seen]> cs)) →
    rtc step (Mk s ws q (<[i := c]> cs)) (Mk s ws q (<[i := Rendering [] (seen ++ map (λ c, load c s) todo)]> cs))).
  { induction todo as [|d todo IH]; intros seen c H; [by rewrite app_nil_r|].
    cbn [map]. rewrite (cons_middle (load d s)), app_assoc. apply IH. eapply rtc_r; [exact H|].
    rewrite <- (list_insert_insert_eq cs i (Rendering todo (seen ++ [load d s])) (Rendering (d :: todo) seen)).
    by apply step_render. }
  exists (map (λ c, load c s) loads). eapply rtc_l; [by apply step_read|]. eapply rtc_r.
  - exact (G loads [] _ (rtc_refl _ _)).
  - cbn [app]. rewrite <- (list_insert_insert_eq cs i (Written _ _) (Rendering [] (map (λ c, load c s) loads))).
    by apply (step_respond s ws q (<[i := Rendering [] (map (λ c, load c s) loads)]> cs)).
Qed.

(** ** Properties *)

(** C21. What a scrape sees: whatever way the connections, the accept loop and the threads of the program
    interleave, the response of a connection accepted after [x] is framed as HTTP (a client that takes the
    declared [Content-Length] after the empty line gets exactly the text of the metrics), and each of its
    five values lies between the value of the counter at [x] and its value now, as long as the additions
    do not overflow; of a broken connection the client has seen a prefix of such a response. *)
Theorem scrape_between {A} (x y : t A) (i : nat) (c : connection)
    (Hrun : rtc step x y) (Hno : no_overflow x) (Hnew : ∀ c, x.(connections) !! i = Some c → c = Reading)
    (Hc : y.(connections) !! i = Some c) :
  match c with
  | Written seen sent =>
    between x.(counters) y.(counters) seen ∧ read_response sent = Some (rendered seen)
  | Broken seen sent =>
    between x.(counters) y.(counters) seen ∧ ∃ rest, (sent ++ rest)%string = response (rendered seen)
  | _ => True
  end.
Proof.
  destruct (run_conn x y i Hrun Hno Hnew) as [_ H]. specialize (H c Hc). destruct c; cbn in H; try done.
  - destruct H as [H ->]. split; [done|apply rendered_framed].
  - destruct H as [H [rest E]%prefix_spec]. split; [done|]. by exists rest.
Qed.

(** The exporter keeps serving: from any state, whatever errors [accept] returns first, each connection that
    arrives can be accepted and answered with the current metrics, however many others never finish. *)
Theorem exporter_serves {A} (x : t A) (k : nat) (Hk : x.(arrivals) !! k = Some (Ok tt)) :
  ∃ y seen, rtc step x y ∧ y.(counters) = x.(counters) ∧
    last y.(connections) = Some (Written seen (response (render x.(counters)))) ∧
    y.(arrivals) = drop (S k) x.(arrivals).
Proof.
  destruct x as [s ws q cs]. cbn in *.
  assert (G : ∃ cs', rtc step (Mk s ws q cs) (Mk s ws (drop (S k) q) (cs' ++ [Reading]))).
  { revert cs k Hk. induction q as [|r q IH]; intros cs k Hk; [by destruct k|]. destruct k as [|k].
    - injection Hk as ->. exists cs. apply rtc_once. rewrite skipn_cons, drop_0. apply step_accept.
    - cbn in Hk. rewrite skipn_cons. destruct r as [[]|e].
      + destruct (IH (cs ++ [Reading]) k Hk) as [cs' H]. exists cs'. eapply rtc_l; [apply step_accept|exact H].
      + destruct (IH cs k Hk) as [cs' H]. exists cs'. eapply rtc_l; [apply step_accept_error|exact H]. }
  destruct G as [cs' H]. destruct (answered s ws (drop (S k) q) (cs' ++ [Reading]) (length cs')) as [seen H'].
  { by rewrite list_lookup_middle. }
  exists (Mk s ws (drop (S k) q) (<[length cs' := Written seen (response (render s))]> (cs' ++ [Reading]))), seen.
  split; [by etransitivity|]. split; [done|]. split; [|done]. cbn [connections].
  rewrite <- (Nat.add_0_r (length cs')), insert_app_r. cbn. by rewrite last_snoc.
Qed.

(** ** Witnesses *)

(** A thread counts an event while a connection is served; the first [accept] fails. *)
Definition before_scrape : t unit := Mk init [Writer increment_ingested] [Err tt; Ok tt] [].

Example exporter_starts :
  start_exporter "127.0.0.1:29100" (Ok tt : Result unit unit) init [Writer increment_ingested] [Err tt; Ok tt]
    = (Listening "127.0.0.1:29100", Some before_scrape).
Proof. reflexivity. Qed.

Lemma before_scrape_safe : no_overflow before_scrape.
Proof.
  split; [repeat constructor; cbn; lia|]. intros []; vm_compute; split; (done || discriminate).
Qed.

Lemma scrape_between_witness : ∃ y sent, rtc step before_scrape y ∧
  y.(connections) = [Written [0; 0; 0; 0; 0] sent] ∧ EVENTS_INGESTED y.(counters) = 1 ∧
  read_response sent = Some (render init).
Proof.
  assert (H : ∃ y sent, rtc step before_scrape y ∧ y.(connections) = [Written [0; 0; 0; 0; 0] sent] ∧
    EVENTS_INGESTED y.(counters) = 1).
  { exists (Mk (fetch_add Ingested 1 init) [Writer []] []
      [Written [0; 0; 0; 0; 0] (response (rendered [0; 0; 0; 0; 0]))]), (response (rendered [0; 0; 0; 0; 0])).
    split; [|done]. eapply rtc_l; [apply step_accept_error|]. eapply rtc_l; [apply step_accept|]. cbn [app].
    eapply rtc_l; [by apply (step_read _ _ _ _ 0)|]. cbn [insert list_insert loads].
    eapply rtc_l; [by eapply (step_render _ _ _ _ 0)|]. cbn [insert list_insert app].
    eapply rtc_l; [apply step_write; by eapply (MetricsRegistry.step_add _ _ 0)|].
    do 4 (eapply rtc_l; [by eapply (step_render _ _ _ _ 0)|]; cbn [insert list_insert app]).
    eapply rtc_l; [by eapply (step_respond _ _ _ _ 0)|]. cbn [insert list_insert]. apply rtc_refl. }
  destruct H as (y & sent & H & Hc & Hi). exists y, sent. split; [exact H|]. split; [exact Hc|]. split; [exact Hi|].
  destruct (scrape_between before_scrape y 0 (Written [0; 0; 0; 0; 0] sent) H before_scrape_safe) as [_ Hr].
  - done.
  - by rewrite Hc.
  - exact Hr.
Defined.

Lemma exporter_serves_witness : ∃ y seen, rtc step before_scrape y ∧
  last y.(connections) = Some (Written seen (response (render init))).
Proof.
  destruct (exporter_serves before_scrape 1 eq_refl) as (y & seen & H & _ & Hl & _). by exists y, seen.
Defined.
End Exporter.
