(* ===== verification/RateLimiter.v ===== *)
(** [TokenBucketLimiter] and [TenantQuotaLimiter] ([src/resiliency/rate_limiter.rs]): a token bucket
    on [f64] and one bucket per tenant.

    The clock is an argument: each call of [Instant::now()] is a reading.  A turn of [acquire] and a
    call of [try_acquire] hold both mutexes, so each is one atomic step. *)
From S2P Require Import Prelude Text F64 Clock.

Module TokenBucketLimiter.

(** ** The component *)

Record t := Mk {
  capacity : Z;               (* u32 *)
  tokens : f64;
  refill_rate_per_sec : f64;
  last_refill : Z;
}.

Definition new (capacity : Z) (refill_rate_per_sec : f64) (now : Z) : t :=
  Mk capacity (f64_of_Z capacity) refill_rate_per_sec now.

(** The update of the bucket that opens [try_acquire] and every turn of [acquire]. *)
Definition refill (self : t) (now : Z) : t :=
  let elapsed_secs := as_secs_f64 (duration_since now self.(last_refill)) in
  let new_tokens := f64_add self.(tokens) (f64_mul elapsed_secs self.(refill_rate_per_sec)) in
  Mk self.(capacity) (f64_min new_tokens (f64_of_Z self.(capacity))) self.(refill_rate_per_sec) now.

(** [*tokens -= count as f64] *)
Definition take (self : t) (count : Z) : t :=
  Mk self.(capacity) (f64_sub self.(tokens) (f64_of_Z count)) self.(refill_rate_per_sec)
    self.(last_refill).

Definition try_acquire (self : t) (now count : Z) : t * bool :=
  let self := refill self now in
  if f64_leb (f64_of_Z count) self.(tokens) then (take self count, true) else (self, false).

(** How long [acquire] sleeps; [from_secs_f64] can panic. *)
Definition wait (self : t) (count : Z) : Outcome Z :=
  let missing_tokens := f64_sub (f64_of_Z count) self.(tokens) in
  let wait_secs := f64_div missing_tokens self.(refill_rate_per_sec) in
  from_secs_f64 (f64_max wait_secs (f64_div (f64_of_Z 1) (f64_of_Z 1000))).

(** One turn of the loop of [acquire]: [Ret None] is the [break], [Ret (Some d)] a sleep of [d]. *)
Definition acquire_turn (self : t) (now count : Z) : t * Outcome (option Z) :=
  let self := refill self now in
  if f64_leb (f64_of_Z count) self.(tokens) then (take self count, Ret None)
  else (self, d ← wait self count; Ret (Some d)).

(** The loop on the successive clock readings; [None] when it is still waiting after them. *)
Fixpoint acquire (self : t) (clock : list Z) (count : Z) : option (Outcome t) :=
  match clock with
  | [] => None
  | now :: clock' =>
    match acquire_turn self now count with
    | (self', Ret None) => Some (Ret self')
    | (self', Ret (Some _)) => acquire self' clock' count
    | (_, Panic) => Some Panic
    end
  end.

(** Successive requests at one instant. *)
Fixpoint requests (self : t) (now : Z) (counts : list Z) : t * list bool :=
  match counts with
  | [] => (self, [])
  | c :: counts' =>
    let '(self', b) := try_acquire self now c in
    let '(self'', bs) := requests self' now counts' in (self'', b :: bs)
  end.

(** ** Specification: a counter of whole tokens *)

Fixpoint counter (k : Z) (counts : list Z) : Z * list bool :=
  match counts with
  | [] => (k, [])
  | c :: counts' =>
    let '(k', b) := if c <=? k then (k - c, true) else (k, false) in
    let '(k'', bs) := counter k' counts' in (k'', b :: bs)
  end.

Definition finite (x : f64) : Prop :=
  match x with S754_finite _ _ _ | S754_zero _ => True | _ => False end.

(** The bucket holds [k] whole tokens and its clock stands at [now]. *)
Record holds (self : t) (now k : Z) : Prop := {
  holds_capacity : 0 <= self.(capacity) < 2 ^ 32;
  holds_tokens : self.(tokens) = f64_of_Z k;
  holds_bound : 0 <= k <= self.(capacity);
  holds_rate : finite self.(refill_rate_per_sec);
  holds_clock : self.(last_refill) = now;
}.

(** ** Lemmas *)

Lemma bucket_holds_new c rate now : 0 <= c < 2 ^ 32 → finite rate → holds (new c rate now) now c.
Proof. intros Hc Hr. split; cbn [capacity tokens refill_rate_per_sec last_refill new]; first [done | exact Hc | lia]. Qed.

Lemma holds_refill self now k : holds self now k → refill self now = self.
Proof.
  intros [H1 H2 H3 H4 <-]. unfold refill. rewrite duration_since_self, as_secs_f64_zero, H2.
  assert (Hz : ∃ s, f64_mul (S754_zero false) (refill_rate_per_sec self) = S754_zero s).
  { destruct (refill_rate_per_sec self); try done; by eexists. }
  destruct Hz as [s ->]. rewrite f64_add_zero, f64_min_exact, Z.min_l by lia.
  rewrite <- H2. by destruct self.
Qed.

Lemma holds_take self now k c : holds self now k → 0 <= c <= k → holds (take self c) now (k - c).
Proof.
  intros [H1 H2 H3 H4 H5] Hc. split; cbn; [done| |lia|done..].
  rewrite H2. apply f64_sub_exact; lia.
Qed.

Lemma holds_try_acquire self now k c : holds self now k → 0 <= c < 2 ^ 32 →
  (try_acquire self now c).2 = (c <=? k) ∧
  holds (try_acquire self now c).1 now (if c <=? k then k - c else k).
Proof.
  intros H Hc. unfold try_acquire. rewrite (holds_refill _ _ _ H). cbv zeta.
  pose proof H as [H1 H2 H3 H4 H5]. rewrite H2, f64_leb_exact by lia.
  destruct (Z.leb_spec c k); cbn; [|done]. split; [done|]. by apply holds_take; [|lia].
Qed.

(** Whatever the bucket holds, a refill leaves less than any integer above its capacity. *)
Lemma refill_below self now c : 0 <= self.(capacity) < c → c < 2 ^ 53 →
  f64_leb (f64_of_Z c) (refill self now).(tokens) = false.
Proof.
  intros H1 H2. unfold refill. cbn [tokens]. generalize (f64_add (tokens self)
    (f64_mul (as_secs_f64 (duration_since now (last_refill self))) (refill_rate_per_sec self))).
  intros x. assert (Hcap : f64_leb (f64_of_Z c) (f64_of_Z (capacity self)) = false).
  { rewrite f64_leb_exact by lia. apply Z.leb_gt. lia. }
  unfold f64_min. destruct (SFcompare x _) as [[]|] eqn:E; [done| |done|].
  - unfold f64_leb, SFleb. rewrite (f64_compare_trans x (f64_of_Z (capacity self))); [done|done|].
    rewrite f64_compare_exact by lia. f_equal. apply Z.compare_lt_iff. lia.
  - destruct x; try exact Hcap; destruct (f64_of_Z_cases (capacity self) ltac:(lia)) as [F|(? & ? & F)];
      by rewrite F in E.
Qed.

Lemma over_capacity_turn self now c : 0 <= self.(capacity) < c → c < 2 ^ 53 →
  ∃ r, acquire_turn self now c = (refill self now, r) ∧ r ≠ Ret None.
Proof.
  intros H1 H2. unfold acquire_turn. rewrite refill_below by done. eexists; split; [done|].
  by destruct (wait (refill self now) c).
Qed.

(** ** Properties *)

(** C15. At one instant the bucket is an exact counter: for a capacity in [u32], a finite rate and any
    requests in [u32], each is admitted exactly when the tokens left suffice, with no rounding, and
    the bucket holds the tokens the counter holds.  In particular a full bucket admits exactly
    [capacity] requests of one token. *)
Theorem requests_refine_counter (cap now : Z) (rate : f64) (counts : list Z)
    (Hcap : 0 <= cap < 2 ^ 32) (Hrate : finite rate)
    (Hc : Forall (λ c, 0 <= c < 2 ^ 32) counts) :
  let '(self, admitted) := requests (new cap rate now) now counts in
  let '(k, spec) := counter cap counts in
  admitted = spec ∧ self.(tokens) = f64_of_Z k ∧ 0 <= k <= cap.
Proof.
  enough (G : ∀ self k, holds self now k →
    (requests self now counts).2 = (counter k counts).2 ∧
    holds (requests self now counts).1 now (counter k counts).1 ∧
    (counter k counts).1 <= k).
  { destruct (G _ _ (bucket_holds_new cap rate now Hcap Hrate)) as (G1 & G2 & G3).
    destruct (requests _ _ _), (counter _ _). cbn in *. split_and!; [done|apply G2|apply G2|done]. }
  induction Hc as [|c counts Hc _ IH]; intros self k H; [cbn; split_and!; done || lia|].
  destruct (holds_try_acquire self now k c H Hc) as [E H']. cbn [requests counter].
  destruct (try_acquire self now c) as [s b]. cbn in E, H'. subst b.
  destruct (Z.leb_spec c k); destruct (IH _ _ H') as (G1 & G2 & G3);
    destruct (requests s now counts), (counter _ counts); cbn in *; (split_and!; [by f_equal|done|lia]).
Qed.

(** A request above the capacity is never served: [try_acquire] refuses it at any time in any
    state, and [acquire] does not return however long it runs (it sleeps forever or panics). *)
Theorem over_capacity_never (self : t) (now count : Z) (clock : list Z) (self' : t)
    (H1 : 0 <= self.(capacity) < count) (H2 : count < 2 ^ 32) :
  (try_acquire self now count).2 = false ∧ acquire self clock count ≠ Some (Ret self').
Proof.
  split.
  - unfold try_acquire. by rewrite refill_below by lia.
  - revert self H1. induction clock as [|n clock IH]; intros self H1; [done|]. cbn [acquire].
    destruct (over_capacity_turn self n count H1 ltac:(lia)) as (r & -> & Hr).
    destruct r as [[d|]|]; [|done..]. apply IH. done.
Qed.

(** A rate of zero is not handled by [acquire]: as soon as the tokens do not suffice, the computed
    wait is infinite and the conversion to a [Duration] panics. *)
Theorem zero_rate_panics (self : t) (now k count : Z) (clock : list Z)
    (Hk : holds self now k) (Hrate : self.(refill_rate_per_sec) = S754_zero false)
    (Hc : k < count < 2 ^ 32) : acquire self (now :: clock) count = Some Panic.
Proof.
  cbn [acquire]. unfold acquire_turn. rewrite (holds_refill _ _ _ Hk). cbv zeta.
  destruct Hk as [H1 H2 H3 H4 H5]. rewrite H2, f64_leb_exact, (proj2 (Z.leb_gt _ _)) by lia.
  unfold wait. rewrite H2, Hrate, f64_sub_exact by lia.
  destruct (count - k) as [|p|p] eqn:E; [lia| |lia].
  by rewrite f64_of_Z_pos by (apply small_digits; lia).
Qed.

(** ** Witnesses *)

Lemma requests_refine_counter_witness :
  (requests (new 2 (f64_of_Z 10) 0) 0 [1; 1; 1]).2 = [true; true; false].
Proof.
  pose proof (requests_refine_counter 2 0 (f64_of_Z 10) [1; 1; 1]) as H.
  destruct (requests _ _ _) as [s b]. cbn in H. apply H; [lia|done|].
  repeat constructor; lia.
Defined.

Lemma over_capacity_never_witness :
  (try_acquire (new 10 (f64_of_Z 100) 0) 5000000000 11).2 = false.
Proof. apply (over_capacity_never (new 10 (f64_of_Z 100) 0) 5000000000 11 [] (new 10 (f64_of_Z 100) 0)); cbn; lia. Defined.

Lemma zero_rate_panics_witness : acquire (new 0 (S754_zero false) 7) [7] 1 = Some Panic.
Proof.
  apply (zero_rate_panics (new 0 (S754_zero false) 7) 7 0 1 []);
    [apply bucket_holds_new; [lia|done] | reflexivity | lia].
Defined.
End TokenBucketLimiter.

Module TenantQuotaLimiter.

(** ** The component *)

Record t := Mk {
  tenant_limiters : gmap string TokenBucketLimiter.t;
  default_capacity : Z;
  default_refill_rate : f64;
}.

Definition new (default_capacity : Z) (default_refill_rate : f64) : t :=
  Mk ∅ default_capacity default_refill_rate.

Definition set_tenant_quota (self : t) (tenant_id : string) (capacity : Z)
    (refill_rate_per_sec : f64) (now : Z) : t :=
  Mk (<[tenant_id := TokenBucketLimiter.new capacity refill_rate_per_sec now]> self.(tenant_limiters))
    self.(default_capacity) self.(default_refill_rate).

(** The entry is looked up again under the write lock, so the call is atomic at that point; [created]
    is the clock at the insertion of a new bucket and [now] the one of its first use. *)
Definition try_allow (self : t) (tenant_id : string) (created now : Z) : t * bool :=
  let limiter :=
    match self.(tenant_limiters) !! tenant_id with
    | Some limiter => limiter
    | None => TokenBucketLimiter.new self.(default_capacity) self.(default_refill_rate) created
    end in
  let '(limiter', b) := TokenBucketLimiter.try_acquire limiter now 1 in
  (Mk (<[tenant_id := limiter']> self.(tenant_limiters)) self.(default_capacity)
     self.(default_refill_rate), b).

Definition tenant_count (self : t) : nat := size self.(tenant_limiters).

Definition has_tenant_quota (self : t) (tenant_id : string) : bool :=
  bool_decide (is_Some (self.(tenant_limiters) !! tenant_id)).

(** The calls a limiter receives. *)
Inductive call :=
  | Set_quota (tenant_id : string) (capacity : Z) (rate : f64) (now : Z)
  | Allow (tenant_id : string) (created now : Z).

Definition tenant_of (c : call) : string :=
  match c with Set_quota i _ _ _ | Allow i _ _ => i end.

Definition exec (self : t) (c : call) : t * option bool :=
  match c with
  | Set_quota i cap rate now => (set_tenant_quota self i cap rate now, None)
  | Allow i created now => let '(s, b) := try_allow self i created now in (s, Some b)
  end.

(** The answers, each with its tenant. *)
Fixpoint run (self : t) (cs : list call) : t * list (string * option bool) :=
  match cs with
  | [] => (self, [])
  | c :: cs' =>
    let '(self', r) := exec self c in
    let '(self'', rs) := run self' cs' in (self'', (tenant_of c, r) :: rs)
  end.

Definition of_tenant {A} (i : string) (f : A → string) (l : list A) : list A :=
  List.filter (λ a, String.eqb (f a) i) l.

(** Two limiters that agree on one tenant. *)
Definition agree (i : string) (a b : t) : Prop :=
  a.(tenant_limiters) !! i = b.(tenant_limiters) !! i ∧
  a.(default_capacity) = b.(default_capacity) ∧ a.(default_refill_rate) = b.(default_refill_rate).

(** ** Lemmas *)

Lemma exec_agree i a b c : agree i a b → tenant_of c = i →
  (exec a c).2 = (exec b c).2 ∧ agree i (exec a c).1 (exec b c).1.
Proof.
  intros (H1 & H2 & H3) <-. destruct c as [j cap rate now|j created now]; cbn in *.
  - split; [done|]. by split_and!; cbn; rewrite ?lookup_insert_eq.
  - unfold try_allow. rewrite <- H1, <- H2, <- H3.
    destruct (TokenBucketLimiter.try_acquire _ now 1). cbn. split; [done|].
    by split_and!; cbn; rewrite ?lookup_insert_eq.
Qed.

Lemma exec_other i a c : tenant_of c ≠ i → agree i (exec a c).1 a.
Proof.
  intros Hne. destruct c as [j cap rate now|j created now]; cbn in *.
  - split_and!; cbn; [by rewrite lookup_insert_ne|done..].
  - unfold try_allow. destruct (TokenBucketLimiter.try_acquire _ now 1). cbn.
    split_and!; cbn; [by rewrite lookup_insert_ne|done..].
Qed.

(** ** Properties *)

(** C33. Tenants do not share quotas: in any interleaving of calls the answers a tenant gets are the
    answers it would get if its calls were the only ones. *)
Theorem tenant_isolation (self : t) (cs : list call) (i : string) :
  of_tenant i fst (run self cs).2 = (run self (of_tenant i tenant_of cs)).2.
Proof.
  enough (G : ∀ a b, agree i a b →
    of_tenant i fst (run a cs).2 = (run b (of_tenant i tenant_of cs)).2).
  { by apply G. }
  induction cs as [|c cs IH]; intros a b H; [done|].
  cbn [run of_tenant List.filter]. fold (@of_tenant call i tenant_of cs).
  destruct (String.eqb_spec (tenant_of c) i) as [Hi|Hi]; cbn [run].
  - destruct (exec_agree i a b c H Hi) as [E H'].
    destruct (exec a c) as [a' r], (exec b c) as [b' r']. cbn in E, H'. subst r'.
    specialize (IH a' b' H'). destruct (run a' cs), (run b' (of_tenant i tenant_of cs)).
    cbn in *. rewrite (proj2 (String.eqb_eq _ _) Hi). by f_equal.
  - pose proof (exec_other i a c Hi) as Ho. destruct (exec a c) as [a' r]. cbn in Ho.
    assert (H' : agree i a' b).
    { destruct Ho as (?&?&?), H as (?&?&?). split_and!; congruence. }
    specialize (IH a' b H'). destruct (run a' cs). cbn in *.
    by rewrite (proj2 (String.eqb_neq _ _) Hi).
Qed.
End TenantQuotaLimiter.
