(* ===== verification/RateBound.v ===== *)
(** [TokenBucketLimiter] over time: how much the bucket can grant in a period, and that [acquire]
    returns.  Every float operation of the limiter is followed with its rounding error. *)
From S2P Require Import Prelude F64 Rounding Clock RateLimiter.
From Stdlib Require Import Reals Lra.

Module RateBound.
Import TokenBucketLimiter.
#[local] Open Scope R_scope.

(** ** Durations in seconds *)

Definition secs (d : Z) : R := IZR d / 1000000000.

Lemma bp30 : bp (-30) <= 1 / 1000000000.
Proof.
  change (-30)%Z with (- (30))%Z. rewrite <- bp_inv, bp_IZR by lia. change (2 ^ 30)%Z with 1073741824%Z. lra.
Qed.

(** A number is [normal] when it is zero or not too small. *)
Lemma normal_big X : bp (-900) <= X → normal X.
Proof. intros H. right. pose proof (bp_le (-1000) (-900) ltac:(lia)). lra. Qed.

Lemma normal_IZR n : (0 <= n)%Z → normal (IZR n).
Proof.
  intros Hn. destruct (decide (n = 0%Z)) as [->|]; [by left|]. apply normal_big.
  pose proof (bp_le (-900) 0 ltac:(lia)). change (bp 0) with 1 in *.
  assert (1 <= IZR n) by (apply IZR_le; lia). lra.
Qed.

Lemma secs_big d : (0 < d)%Z → bp (-30) <= secs d.
Proof. intros Hd. pose proof bp30. unfold secs. assert (1 <= IZR d) by (apply IZR_le; lia). lra. Qed.

Lemma secs_nonneg d : (0 <= d)%Z → 0 <= secs d.
Proof. intros Hd%IZR_le. unfold secs. lra. Qed.

Lemma secs_add a b : secs (a + b) = secs a + secs b.
Proof. unfold secs. rewrite plus_IZR. lra. Qed.

Lemma normal_secs d : (0 <= d)%Z → normal (secs d).
Proof.
  intros Hd. destruct (decide (d = 0%Z)) as [->|]; [left; unfold secs; lra|]. apply normal_big.
  pose proof (secs_big d ltac:(lia)). pose proof (bp_le (-900) (-30) ltac:(lia)). lra.
Qed.

Lemma within_range d x X : within d x X → 0 <= d <= 1 / 2 → 0 <= X → nonnegative x ∧ X / 2 <= to_R x <= 2 * X.
Proof. intros [Hx H] Hd HX. split; [done|]. nra. Qed.

Lemma as_secs_within d : (0 <= d < 2 ^ 100)%Z → within (8 * ulp) (as_secs_f64 d) (secs d).
Proof.
  intros Hd. pose proof ulp_small as Hu. unfold as_secs_f64, NANOS_PER_SEC. change (10 ^ 9)%Z with 1000000000%Z.
  set (q := (d / 1000000000)%Z). set (r := (d mod 1000000000)%Z).
  assert (Hq : (0 <= q < 2 ^ 100)%Z) by (unfold q; split; [apply Z.div_pos; lia|apply Z.div_lt_upper_bound; lia]).
  assert (Hr : (0 <= r < 1000000000)%Z) by (apply Z.mod_pos_bound; lia).
  assert (Hdr : (d = 1000000000 * q + r)%Z) by (apply Z.div_mod; lia).
  assert (Es : secs d = IZR q + secs r) by (unfold secs; rewrite Hdr, plus_IZR, mult_IZR; lra).
  assert (Hq1 : within (2 * ulp) (f64_of_Z q) (IZR q)).
  { apply rounds_within; [apply of_Z_rounds; lia|apply normal_IZR; lia]. }
  destruct (of_Z_exact r ltac:(lia)) as [Er Hr1]. destruct (of_Z_exact 1000000000 ltac:(lia)) as [Eg Hg].
  assert (Hb : within (2 * ulp) (f64_div (f64_of_Z r) (f64_of_Z 1000000000)) (secs r)).
  { apply rounds_within; [|apply normal_secs; lia]. unfold secs. rewrite <- Er, <- Eg.
    apply div_rounds; [done|done|rewrite Eg; lra|]. rewrite Er, Eg.
    pose proof (bp_ge1 1000 ltac:(lia)). assert (IZR r <= 1000000000) by (apply IZR_le; lia). lra. }
  pose proof (IZR_le _ _ (proj1 Hq)) as Hq0. pose proof (secs_nonneg r ltac:(lia)) as Hr0.
  destruct Hq1 as [Nq Bq], Hb as [Nb Bb].
  set (a := f64_of_Z q) in *. set (b := f64_div _ _) in *.
  assert (Hab : within (2 * ulp) (f64_add a b) (to_R a + to_R b)).
  { apply rounds_within; [apply add_rounds; [done|done|]|].
    - assert (IZR q <= bp 100) by (rewrite bp_IZR by lia; apply IZR_le; lia).
      assert (secs r <= 1) by (unfold secs; assert (IZR r <= 1000000000) by (apply IZR_le; lia); lra).
      apply Rle_trans with (bp 102); [|apply bp_le; lia]. change 102%Z with (100 + 2)%Z. rewrite bp_add.
      change (bp 2) with (2 * (2 * 1)). pose proof (bp_ge1 100 ltac:(lia)). nra.
    - destruct (decide (d = 0%Z)) as [Hd0|].
      + assert (q = 0%Z ∧ r = 0%Z) as [Hq' Hr'] by lia. left. rewrite Hq' in *. rewrite Hr' in *.
        unfold secs in *. nra.
      + apply normal_big. pose proof (secs_big d ltac:(lia)). rewrite Es in *.
        apply Rle_trans with (bp (-30) / 2); [rewrite bp_half; apply bp_le; lia|]. nra. }
  destruct Hab as [Nab Bab]. split; [done|]. rewrite Es. nra.
Qed.

(** ** The state of a bucket *)

(** The rates from [2 ^ (- 100)] to [2 ^ 100] tokens per second. *)
Record bucket_ok (self : t) : Prop := {
  ok_capacity : (0 <= self.(capacity) < 2 ^ 32)%Z;
  ok_tokens : nonnegative self.(tokens);
  ok_bound : to_R self.(tokens) <= IZR self.(capacity);
  ok_rate : nonnegative self.(refill_rate_per_sec);
  ok_rate_range : bp (-100) <= to_R self.(refill_rate_per_sec) <= bp 100;
}.

(** What the clock adds in [d] nanoseconds. *)
Definition gain (self : t) (d : Z) : R := secs d * to_R self.(refill_rate_per_sec).

Definition tiny : R := bp (-1075).

Lemma tiny_small : 0 < tiny < ulp.
Proof. split; [apply bp_pos|]. apply bp_lt. lia. Qed.

Lemma secs_range d : (0 <= d < 2 ^ 100)%Z → 0 <= secs d <= bp 100.
Proof.
  intros Hd. split; [apply secs_nonneg; lia|]. rewrite bp_IZR by lia. unfold secs.
  assert (IZR d <= IZR (2 ^ 100)) by (apply IZR_le; lia). assert (0 <= IZR (2 ^ 100)) by (apply IZR_le; lia). lra.
Qed.

Lemma gain_range self d : bucket_ok self → (0 <= d < 2 ^ 100)%Z → 0 <= gain self d <= bp 200.
Proof.
  intros [_ _ _ _ Hr] Hd. pose proof (secs_range d Hd). pose proof (bp_pos (-100)). unfold gain.
  change 200%Z with (100 + 100)%Z. rewrite bp_add. split; [nra|]. apply Rmult_le_compat; lra.
Qed.

Lemma gain_within self d : bucket_ok self → (0 <= d < 2 ^ 100)%Z →
  within (16 * ulp) (f64_mul (as_secs_f64 d) self.(refill_rate_per_sec)) (gain self d).
Proof.
  intros H Hd. pose proof ulp_small as Hu. pose proof (as_secs_within d Hd) as [Ne Be].
  pose proof (secs_range d Hd) as Hs. pose proof (gain_range self d H Hd) as Hg. destruct H as [_ _ _ Nr Hr].
  pose proof (bp_pos (-100)) as Hp. unfold gain in *.
  set (e := as_secs_f64 d) in *. set (r := refill_rate_per_sec self) in *.
  assert (Hw : within (2 * ulp) (f64_mul e r) (to_R e * to_R r)).
  { apply rounds_within; [apply mul_rounds; [done|done|]|].
    - apply Rle_trans with (bp 201); [|apply bp_le; lia]. change 201%Z with (1 + 200)%Z. rewrite bp_add.
      change (bp 1) with (2 * 1). nra.
    - destruct (decide (d = 0%Z)) as [->|].
      + left. assert (secs 0 = 0) as E by (unfold secs; lra). rewrite E in Be. nra.
      + apply normal_big. pose proof (secs_big d ltac:(lia)). pose proof (bp_pos (-30)).
        apply Rle_trans with (bp (-30) / 2 * bp (-100)); [rewrite bp_half, <- bp_add; apply bp_le; lia|].
        apply Rmult_le_compat; nra. }
  destruct Hw as [Nw Bw]. split; [done|].
  assert (0 <= to_R e * to_R r) by (apply Rmult_le_pos; [by apply nonnegative_to_R|lra]).
  assert (secs d * to_R r * (1 - 8 * ulp) <= to_R e * to_R r <= secs d * to_R r * (1 + 8 * ulp)) by nra.
  nra.
Qed.

Lemma capacity_R self : bucket_ok self →
  to_R (f64_of_Z self.(capacity)) = IZR self.(capacity) ∧ nonnegative (f64_of_Z self.(capacity)).
Proof. intros [H _ _ _ _]. apply of_Z_exact. lia. Qed.

Lemma cap_range self : bucket_ok self → 0 <= IZR self.(capacity) <= bp 32.
Proof. intros [H _ _ _ _]. rewrite bp_IZR by lia. split; apply IZR_le; lia. Qed.

(** A refill: the tokens grow by the gain, up to the capacity and to a rounding error. *)
Lemma refill_time self now : bucket_ok self → let d := duration_since now self.(last_refill) in
  (0 <= d < 2 ^ 100)%Z → let T := to_R self.(tokens) in let T' := to_R (refill self now).(tokens) in
  bucket_ok (refill self now) ∧ T <= T' ∧
  T' <= T + gain self d * (1 + 16 * ulp) + ulp * IZR self.(capacity) + tiny ∧
  Rmin (IZR self.(capacity)) (T + gain self d * (1 - 16 * ulp)) - ulp * IZR self.(capacity) - tiny <= T' ∧
  (∀ c, (0 <= c <= self.(capacity))%Z → IZR c <= T + gain self d * (1 - 16 * ulp) → IZR c <= T').
Proof.
  intros H d Hd. pose proof H as [Hc Nt Ht Nr Hr]. destruct (gain_within self d H Hd) as [Np Bp].
  pose proof (gain_range self d H Hd) as Hg. destruct (capacity_R self H) as [Ec Nc].
  pose proof (cap_range self H) as HC. pose proof ulp_small as Hu. pose proof tiny_small as Hy.
  unfold refill. fold d. cbn [tokens]. set (P := f64_mul _ _) in *. set (x := tokens self) in *.
  pose proof (nonnegative_to_R x Nt) as Hx0. pose proof (nonnegative_to_R P Np) as Hp0.
  assert (Hs : rounds (f64_add x P) (to_R x + to_R P)).
  { apply add_rounds; [done|done|]. pose proof (bp_le 32 200 ltac:(lia)).
    apply Rle_trans with (bp 202); [|apply bp_le; lia]. change 202%Z with (2 + 200)%Z. rewrite bp_add.
    change (bp 2) with (2 * (2 * 1)). nra. }
  set (s := f64_add x P) in *. destruct (min_R s (f64_of_Z (capacity self)) (rounds_nonnegative _ _ Hs) Nc) as [Nm Em].
  rewrite Ec in Em. pose proof (rounds_above _ _ Hs) as Ab. pose proof (rounds_err _ _ Hs) as Er. fold ulp tiny in Er.
  assert (Hsx : to_R x <= to_R s) by (apply Ab; [by apply nonnegative_format|lra]).
  split; [|split; [|split; [|split]]].
  - split; cbn [capacity tokens refill_rate_per_sec]; [done|done| |done|done]. rewrite Em. apply Rmin_r.
  - rewrite Em. by apply Rmin_glb.
  - rewrite Em. destruct (Rle_lt_dec (IZR (capacity self)) (to_R x + to_R P)).
    + pose proof (Rmin_r (to_R s) (IZR (capacity self))). nra.
    + pose proof (Rmin_l (to_R s) (IZR (capacity self))). nra.
  - rewrite Em. destruct (Rle_lt_dec (IZR (capacity self)) (to_R x + to_R P)).
    + assert (IZR (capacity self) <= to_R s) by (apply Ab; [apply format_Z; lia|done]).
      rewrite (Rmin_right (to_R s)) by done.
      pose proof (Rmin_l (IZR (capacity self)) (to_R x + gain self d * (1 - 16 * ulp))). nra.
    + apply Rmin_glb.
      * pose proof (Rmin_r (IZR (capacity self)) (to_R x + gain self d * (1 - 16 * ulp))). nra.
      * pose proof (Rmin_l (IZR (capacity self)) (to_R x + gain self d * (1 - 16 * ulp))). nra.
  - intros c Hc' Hle. rewrite Em. apply Rmin_glb; [|apply IZR_le; lia].
    apply Ab; [apply format_Z; lia|]. nra.
Qed.

Lemma take_time self c : bucket_ok self → (0 <= c <= self.(capacity))%Z → IZR c <= to_R self.(tokens) →
  bucket_ok (take self c) ∧
  IZR c <= to_R self.(tokens) - to_R (take self c).(tokens) + ulp * IZR self.(capacity) + tiny.
Proof.
  intros H Hc Hle. pose proof H as [Hcap Nt Ht Nr Hr]. destruct (of_Z_exact c ltac:(lia)) as [Ec Nc].
  pose proof (cap_range self H) as HC. pose proof (IZR_le _ _ (proj1 Hc)) as Hc0. pose proof ulp_small as Hu.
  assert (Hs : rounds (f64_sub self.(tokens) (f64_of_Z c)) (to_R self.(tokens) - IZR c)).
  { rewrite <- Ec. apply sub_rounds; [done|done|by rewrite Ec|]. pose proof (bp_le 32 1000 ltac:(lia)). lra. }
  pose proof (rounds_err _ _ Hs) as Er. fold ulp tiny in Er.
  pose proof (rounds_below _ _ Hs _ (nonnegative_format _ Nt) ltac:(lra)) as Hb.
  unfold take. split; [split|]; cbn [capacity tokens refill_rate_per_sec]; [done|apply Hs|lra|done|done|]. nra.
Qed.

(** ** Calls over time *)

(** Calls with their clock readings, and the tokens they are granted. *)
Fixpoint grants (self : t) (calls : list (Z * Z)) : t * Z :=
  match calls with
  | [] => (self, 0%Z)
  | (now, c) :: calls' =>
    let '(self', b) := try_acquire self now c in
    let '(self'', n) := grants self' calls' in (self'', (if b then c else 0) + n)%Z
  end.

(** The readings do not go back: from [t] to [t']. *)
Fixpoint clocked (t : Z) (calls : list (Z * Z)) (t' : Z) : Prop :=
  match calls with
  | [] => (t <= t')%Z
  | (now, _) :: calls' => (t <= now)%Z ∧ clocked now calls' t'
  end.

Lemma clocked_le t calls t' : clocked t calls t' → (t <= t')%Z.
Proof. revert t. induction calls as [|[now c] calls IH]; intros t; cbn; [done|]. intros [? ?%IH]. lia. Qed.

(** A turn of [acquire] changes the bucket as [try_acquire] does. *)
Lemma acquire_turn_try self now c :
  (acquire_turn self now c).1 = (try_acquire self now c).1 ∧
  ((acquire_turn self now c).2 = Ret None ↔ (try_acquire self now c).2 = true).
Proof.
  unfold acquire_turn, try_acquire. destruct (f64_leb _ _); [done|]. cbn. split; [done|].
  by destruct (wait _ c).
Qed.

(** One call: at most the tokens that leave the bucket are granted, up to the rounding errors. *)
Lemma try_acquire_time self now c : bucket_ok self → let d := (now - self.(last_refill))%Z in
  (0 <= d < 2 ^ 100)%Z → (0 <= c < 2 ^ 32)%Z → let '(self', b) := try_acquire self now c in
  bucket_ok self' ∧ self'.(last_refill) = now ∧ self'.(capacity) = self.(capacity) ∧
  self'.(refill_rate_per_sec) = self.(refill_rate_per_sec) ∧
  IZR (if b then c else 0) + to_R self'.(tokens) <=
    to_R self.(tokens) + gain self d * (1 + 16 * ulp) + 2 * (ulp * IZR self.(capacity) + tiny).
Proof.
  intros H d Hd Hc. pose proof (refill_time self now H) as Hr.
  assert (Ed : duration_since now (last_refill self) = d) by (unfold duration_since, d in *; lia).
  rewrite Ed in Hr. destruct (Hr Hd) as (Hok & _ & Hup & _). unfold try_acquire.
  pose proof (cap_range self H) as HC. pose proof ulp_small as Hu. pose proof tiny_small as Hy.
  destruct (of_Z_exact c ltac:(lia)) as [Ec Nc].
  destruct (f64_leb (f64_of_Z c) (tokens (refill self now))) eqn:E.
  - apply leb_R in E; [|done|apply Hok]. rewrite Ec in E.
    assert (Hcc : (0 <= c <= capacity self)%Z).
    { split; [lia|]. apply le_IZR. pose proof (ok_bound _ Hok). cbn [refill capacity] in *. lra. }
    destruct (take_time (refill self now) c Hok Hcc E) as [Hok' Ht]. split; [done|].
    split_and!; [done|done|done|]. cbn [refill capacity] in Ht. fold (refill self now) in *. nra.
  - split; [done|]. split_and!; [done|done|done|]. nra.
Qed.

Lemma grants_time self calls t' : bucket_ok self → clocked self.(last_refill) calls t' →
  (t' - self.(last_refill) < 2 ^ 100)%Z → Forall (λ nc, 0 <= nc.2 < 2 ^ 32)%Z calls →
  let '(self', n) := grants self calls in
  bucket_ok self' ∧ self'.(capacity) = self.(capacity) ∧
  IZR n + to_R self'.(tokens) <= to_R self.(tokens) + gain self (t' - self.(last_refill)) * (1 + 16 * ulp) +
    INR (length calls) * (2 * (ulp * IZR self.(capacity) + tiny)).
Proof.
  intros H Hcl Ht Hc. pose proof ulp_small as Hu.
  revert self H Hcl Ht. induction Hc as [|[now c] calls Hc _ IH]; intros self H Hcl Ht.
  - cbn [grants length INR]. split_and!; [done|done|].
    cbn in Hcl. pose proof (gain_range self (t' - last_refill self) H ltac:(lia)). nra.
  - destruct Hcl as [Hle Hcl]. pose proof (clocked_le _ _ _ Hcl) as Hle'. cbn [grants] in *.
    pose proof (try_acquire_time self now c H ltac:(lia) Hc) as Hone.
    destruct (try_acquire self now c) as [self1 b]. destruct Hone as (H1 & E1 & E2 & E3 & B1).
    specialize (IH self1 H1). rewrite E1, E2 in IH. specialize (IH Hcl ltac:(lia)).
    destruct (grants self1 calls) as [self2 n]. destruct IH as (H2 & E4 & B2).
    split_and!; [done|done|]. rewrite plus_IZR. change (length ((now, c) :: calls)) with (S (length calls)).
    rewrite S_INR. assert (Eg : gain self (t' - last_refill self) =
      gain self (now - last_refill self) + gain self1 (t' - now)).
    { unfold gain. rewrite E3, <- Rmult_plus_distr_r, <- secs_add. do 2 f_equal. lia. }
    rewrite Eg. lra.
Qed.

(** ** The wait of [acquire] *)

Lemma round_half_even_near num den : (0 < den)%Z →
  IZR num / IZR den - 1 / 2 <= IZR (round_half_even num den) <= IZR num / IZR den + 1 / 2.
Proof.
  intros Hd. unfold round_half_even. pose proof (Z.div_mod num den ltac:(lia)) as E.
  pose proof (Z.mod_pos_bound num den Hd) as Hr. set (q := (num / den)%Z) in *. set (r := (num mod den)%Z) in *.
  pose proof (IZR_lt _ _ Hd) as HdR. set (x := IZR num / IZR den).
  assert (Ex : (x - IZR q) * IZR den = IZR r).
  { unfold x. rewrite E at 1. rewrite plus_IZR, mult_IZR. field. lra. }
  assert (Hlt : ∀ k, (2 * r <= k)%Z → 2 * ((x - IZR q) * IZR den) <= IZR k).
  { intros k Hk%IZR_le. rewrite mult_IZR in Hk. lra. }
  assert (Hgt : ∀ k, (k <= 2 * r)%Z → IZR k <= 2 * ((x - IZR q) * IZR den)).
  { intros k Hk%IZR_le. rewrite mult_IZR in Hk. lra. }
  pose proof (Hlt (2 * den)%Z ltac:(lia)) as Hmax. pose proof (Hgt 0%Z ltac:(lia)) as Hmin. rewrite mult_IZR in Hmax.
  destruct (Z.ltb_spec (2 * r) den); [pose proof (Hlt den ltac:(lia)); nra|].
  destruct (Z.ltb_spec den (2 * r)); rewrite ?plus_IZR; [pose proof (Hgt den ltac:(lia)); nra|].
  pose proof (Hgt den ltac:(lia)). pose proof (Hlt den ltac:(lia)).
  destruct (Z.even q); rewrite ?plus_IZR; nra.
Qed.

Lemma from_secs_near x : nonnegative x → to_R x <= bp 60 → ∃ d, from_secs_f64 x = Ret d ∧
  (0 <= d < 2 ^ 99)%Z ∧ to_R x - 1 / 2000000000 <= secs d <= to_R x + 1 / 2000000000.
Proof.
  destruct x as [s| | |s m e]; try done.
  { intros _ _. exists 0%Z. split; [done|]. split; [lia|]. unfold secs. cbn. lra. }
  intros [-> _] Hx. cbn [from_secs_f64]. unfold NANOS_PER_SEC. change (10 ^ 9)%Z with 1000000000%Z.
  set (d := if (0 <=? e)%Z then _ else _). set (x := to_R (S754_finite false m e)) in *.
  assert (Hd : x * 1000000000 - 1 / 2 <= IZR d <= x * 1000000000 + 1 / 2).
  { unfold x. cbn [to_R]. rewrite Rmult_1_l. unfold d. destruct (Z.leb_spec 0 e).
    - rewrite mult_IZR, <- IZR_bp by done. lra.
    - pose proof (round_half_even_near (Z.pos m * 1000000000) (2 ^ (- e)) ltac:(apply Z.pow_pos_nonneg; lia)) as Hn.
      rewrite mult_IZR, <- (bp_IZR (- e)), <- bp_inv in Hn by lia. unfold Rdiv in *. rewrite Rinv_inv in Hn. lra. }
  assert (Hx0 : 0 < x) by apply to_R_pos. rewrite bp_IZR in Hx by lia.
  assert (Hlo : (0 <= d)%Z). { assert (-1 < IZR d)%R as ?%lt_IZR; [lra|lia]. }
  assert (Hhi : (d <= 2 ^ 60 * 1000000000)%Z).
  { assert (IZR d < IZR (2 ^ 60 * 1000000000 + 1)) as ?%lt_IZR; [|lia]. rewrite plus_IZR, mult_IZR. lra. }
  exists d. rewrite (proj2 (Z.ltb_lt _ _)) by lia. split; [done|]. split; [lia|]. unfold secs. lra.
Qed.

(** The rates for which the number of turns is bounded: from [1 / 256] to [2 ^ 40] tokens per second. *)
Definition usual_rate (self : t) : Prop :=
  1 / 256 <= to_R self.(refill_rate_per_sec) <= bp 40.

Lemma ulp_mul x : 0 <= x → 0 <= x * ulp <= x / 8000000000000000.
Proof.
  intros Hx. pose proof ulp_small as Hu. split; [apply Rmult_le_pos; lra|].
  unfold Rdiv. apply Rmult_le_compat_l; [done|]. lra.
Qed.

Lemma tiny_mul r : 0 <= r <= bp 40 → 0 <= tiny * r <= 1 / 100000000000.
Proof.
  intros [H0 H1]. pose proof tiny_small as [Ht _]. split; [apply Rmult_le_pos; lra|].
  apply Rle_trans with (bp (-100) * bp 40); [apply Rmult_le_compat; try lra; apply bp_le; lia|].
  rewrite <- bp_add. change (-100 + 40)%Z with (- (60))%Z. rewrite <- bp_inv, bp_IZR by lia.
  change (2 ^ 60)%Z with 1152921504606846976%Z. lra.
Qed.

(** The seconds that [acquire] computes: nearly the quotient, and a millisecond. *)
Lemma wait_secs self c : bucket_ok self → usual_rate self → (0 <= c <= self.(capacity))%Z →
  to_R self.(tokens) < IZR c → let g := IZR c - to_R self.(tokens) in
  let r := to_R self.(refill_rate_per_sec) in
  ∃ x, wait self c = from_secs_f64 x ∧ nonnegative x ∧ 999 / 1000000 <= to_R x <= bp 60 ∧
    g - 4 * (g * ulp) - 1 / 10000000000 <= to_R x * r.
Proof.
  intros H Hrate Hc Hlt g r. pose proof H as [Hcap Nt Ht Nr _]. pose proof ulp_small as Hu. pose proof tiny_small as Hy.
  destruct (of_Z_exact c ltac:(lia)) as [Ec Nc]. pose proof (nonnegative_to_R _ Nt) as Ht0.
  assert (HcR : IZR c <= 4294967296) by (apply IZR_le; lia).
  assert (H60 : 1000000000000000000 <= bp 60) by (rewrite bp_IZR by lia; apply IZR_le; lia).
  pose proof (bp_le 60 1000 ltac:(lia)) as H1000. unfold usual_rate in Hrate. fold r in Hrate.
  assert (Hm : rounds (f64_sub (f64_of_Z c) self.(tokens)) g).
  { unfold g. rewrite <- Ec. apply sub_rounds; [done|done|lra|lra]. }
  unfold wait. set (m := f64_sub _ _) in *. pose proof (rounds_err _ _ Hm) as Bm. fold ulp tiny in Bm.
  pose proof (rounds_nonnegative _ _ Hm) as Nm. pose proof (nonnegative_to_R _ Nm) as Hm0.
  assert (Hg0 : 0 <= g <= 4294967296) by (unfold g; lra). pose proof (ulp_mul g ltac:(lra)) as Hgu.
  assert (Hinv : 0 <= / r <= 256).
  { split; [apply Rlt_le, Rinv_0_lt_compat; lra|]. rewrite <- (Rinv_inv 256). apply Rinv_le_contravar; lra. }
  set (q := to_R m / r). assert (Hqr : q * r = to_R m) by (unfold q; field; lra).
  assert (Hq : 0 <= q <= 5000000000 * 256).
  { unfold q, Rdiv. split; [apply Rmult_le_pos; lra|apply Rmult_le_compat; lra]. }
  assert (Hw : rounds (f64_div m self.(refill_rate_per_sec)) q).
  { apply div_rounds; [done|done|fold r; lra|fold r q; lra]. }
  set (w := f64_div m _) in *. pose proof (rounds_err _ _ Hw) as Bw. fold ulp tiny in Bw.
  pose proof (ulp_mul q ltac:(lra)) as Hqu.
  destruct (of_Z_exact 1 ltac:(lia)) as [E1 N1]. destruct (of_Z_exact 1000 ltac:(lia)) as [E2 N2].
  assert (Hk : rounds (f64_div (f64_of_Z 1) (f64_of_Z 1000)) (1 / 1000)).
  { rewrite <- E1, <- E2. apply div_rounds; [done|done|lra|rewrite E1, E2; lra]. }
  set (k := f64_div (f64_of_Z 1) _) in *. pose proof (rounds_err _ _ Hk) as Bk. fold ulp tiny in Bk.
  destruct (max_R w k (rounds_nonnegative _ _ Hw) (rounds_nonnegative _ _ Hk)) as [Nx Ex].
  exists (f64_max w k). split; [done|]. split; [done|]. rewrite Ex.
  pose proof (Rmax_l (to_R w) (to_R k)) as X1. pose proof (Rmax_r (to_R w) (to_R k)) as X2.
  split; [split; [lra|apply Rmax_lub; lra]|]. pose proof (tiny_mul r ltac:(lra)) as Htr.
  apply Rle_trans with (to_R w * r); [|apply Rmult_le_compat_r; lra].
  apply Rle_trans with ((q - q * ulp - tiny) * r); [|apply Rmult_le_compat_r; lra].
  replace ((q - q * ulp - tiny) * r) with (q * r - q * r * ulp - tiny * r) by ring. rewrite Hqr.
  assert (to_R m * ulp <= (2 * g + tiny) * ulp) by (apply Rmult_le_compat_r; lra).
  assert (tiny * ulp <= tiny) by (rewrite <- (Rmult_1_r tiny) at 2; apply Rmult_le_compat_l; lra). lra.
Qed.

(** A sleep gains nearly what is missing, and what a millisecond gains. *)
Lemma wait_gains self c : bucket_ok self → usual_rate self → (0 <= c <= self.(capacity))%Z →
  to_R self.(tokens) < IZR c → let g := IZR c - to_R self.(tokens) in
  ∃ d, wait self c = Ret d ∧ (0 <= d < 2 ^ 99)%Z ∧
    g * (1 - 1 / 1000000) - 1 / 1000000000 <= gain self d ∧
    to_R self.(refill_rate_per_sec) / 1003 <= gain self d.
Proof.
  intros H Hrate Hc Hlt g. destruct (wait_secs self c H Hrate Hc Hlt) as (x & -> & Nx & Hx & Bx).
  fold g in Bx. destruct (from_secs_near x Nx ltac:(lra)) as (d & E & Hd & Bd).
  exists d. split; [done|]. split; [done|]. unfold gain, usual_rate in *.
  set (r := to_R (refill_rate_per_sec self)) in *. pose proof (ulp_mul g ltac:(unfold g; lra)) as Hgu. split.
  - assert (to_R x * r * (1 - 9 / 10000000) <= secs d * r).
    { replace (to_R x * r * (1 - 9 / 10000000)) with (to_R x * (1 - 9 / 10000000) * r) by ring.
      apply Rmult_le_compat_r; lra. }
    lra.
  - unfold Rdiv. rewrite Rmult_comm. apply Rmult_le_compat_r; lra.
Qed.

(** ** The turns of [acquire] *)

(** The bucket after a turn that sleeps for [d]: at most [g] tokens are missing. *)
Record sleeping (self : t) (c d : Z) (g : R) : Prop := {
  sl_ok : bucket_ok self;
  sl_rate : usual_rate self;
  sl_count : (0 <= c <= self.(capacity))%Z;
  sl_missing : 0 < IZR c - to_R self.(tokens) <= g;
  sl_sleep : (0 <= d < 2 ^ 99)%Z;
  sl_gain : (IZR c - to_R self.(tokens)) * (1 - 1 / 1000000) - 1 / 1000000000 <= gain self d;
  sl_ms : to_R self.(refill_rate_per_sec) / 1003 <= gain self d;
}.

(** A turn grants the tokens or sleeps. *)
Lemma turn_cases self now c g : bucket_ok self → usual_rate self → (0 <= c <= self.(capacity))%Z →
  (0 <= duration_since now self.(last_refill) < 2 ^ 100)%Z →
  IZR c - to_R (refill self now).(tokens) <= g →
  (∃ self', acquire_turn self now c = (self', Ret None)) ∨
  (∃ d, acquire_turn self now c = (refill self now, Ret (Some d)) ∧ sleeping (refill self now) c d g).
Proof.
  intros H Hr Hc Hd Hg. destruct (refill_time self now H Hd) as (Hok & _).
  destruct (of_Z_exact c ltac:(pose proof (ok_capacity _ H); lia)) as [Ec Nc]. unfold acquire_turn.
  destruct (f64_leb (f64_of_Z c) (tokens (refill self now))) eqn:E; [left; by eexists|right].
  apply leb_false_R in E; [|done|apply Hok]. rewrite Ec in E.
  destruct (wait_gains (refill self now) c Hok Hr Hc E) as (d & -> & Hd' & G1 & G2).
  exists d. split; [done|]. split; (done || lra).
Qed.

Lemma gain_mono self d d' : bucket_ok self → (0 <= d <= d')%Z → gain self d <= gain self d'.
Proof.
  intros [_ _ _ _ Hr] Hd. pose proof (bp_pos (-100)). unfold gain. apply Rmult_le_compat_r; [lra|].
  replace d' with (d + (d' - d))%Z by lia. rewrite secs_add. pose proof (secs_nonneg (d' - d) ltac:(lia)). lra.
Qed.

(** After the sleep nearly all that was missing is there; and all of it when a millisecond suffices. *)
Lemma next_turn self now c d g : sleeping self c d g → (self.(last_refill) + d <= now < 2 ^ 99)%Z →
  (0 <= self.(last_refill))%Z →
  (∃ self', acquire_turn self now c = (self', Ret None)) ∨
  (to_R self.(refill_rate_per_sec) * (9 / 10000) < g ∧
   ∃ d', acquire_turn self now c = (refill self now, Ret (Some d')) ∧
     sleeping (refill self now) c d' (g / 500000 + 1 / 500000)).
Proof.
  intros [H Hr Hc Hm Hd G1 G2] Hnow Hlast. pose proof ulp_small as Hu. pose proof tiny_small as Hy.
  assert (Hdur : duration_since now self.(last_refill) = (now - self.(last_refill))%Z).
  { unfold duration_since. lia. }
  pose proof (refill_time self now H) as Ht. rewrite Hdur in Ht.
  destruct (Ht ltac:(lia)) as (Hok & _ & _ & Hlow & Hgrant). clear Ht.
  pose proof (gain_mono self d (now - last_refill self) H ltac:(lia)) as Hmono.
  pose proof (gain_range self (now - last_refill self) H ltac:(lia)) as Hrange.
  set (G := gain self (now - last_refill self)) in *. pose proof (ulp_mul G ltac:(lra)) as HGu.
  assert (HT : G * (1 - 1 / 10000000000) <= G * (1 - 16 * ulp)) by (apply Rmult_le_compat_l; lra).
  destruct (Rle_lt_dec (IZR c) (to_R (tokens self) + G * (1 - 16 * ulp))) as [Hle|Hgt].
  { left. exists (take (refill self now) c). unfold acquire_turn.
    destruct (of_Z_exact c ltac:(pose proof (ok_capacity _ H); lia)) as [Ec Nc].
    assert (f64_leb (f64_of_Z c) (tokens (refill self now)) = true) as ->; [|done].
    apply leb_R; [done|apply Hok|]. rewrite Ec. by apply Hgrant. }
  destruct (turn_cases self now c (g / 500000 + 1 / 500000) H Hr Hc) as [Hdone|Hsleep].
  - rewrite Hdur. lia.
  - pose proof (ok_capacity _ H) as HC. pose proof (cap_range self H) as HCR. rewrite bp_IZR in HCR by lia.
    change (2 ^ 32)%Z with 4294967296%Z in HCR. pose proof (ulp_mul (IZR (capacity self)) ltac:(lra)) as HCu.
    assert (IZR c <= IZR (capacity self)) by (apply IZR_le; lia).
    rewrite Rmin_right in Hlow by lra. lra.
  - by left.
  - right. split; [|done]. lra.
Qed.

(** The readings of successive turns: each comes after the sleep before it. *)
Fixpoint slept (self : t) (clock : list Z) (count : Z) : Prop :=
  match clock with
  | now :: (now' :: _) as clock' =>
    match acquire_turn self now count with
    | (self', Ret (Some d)) => (now + d <= now')%Z ∧ slept self' clock' count
    | _ => True
    end
  | _ => True
  end.

(** What may still be missing after [k] more turns. *)
Fixpoint missing_after (k : nat) (g : R) : R :=
  match k with O => g | S k' => missing_after k' (g / 500000 + 1 / 500000) end.

Lemma acquire_sleeping k self c d g now clock : sleeping self c d g → (0 <= self.(last_refill))%Z →
  missing_after k g <= to_R self.(refill_rate_per_sec) * (9 / 10000) → (k <= length clock)%nat →
  (self.(last_refill) + d <= now)%Z → slept self (now :: clock) c → Forall (λ n, n < 2 ^ 99)%Z (now :: clock) →
  ∃ self', acquire self (now :: clock) c = Some (Ret self').
Proof.
  revert self d g now clock. induction k as [|k IH]; intros self d g now clock Hsl Hlast Hk Hlen Hnow Hslept Hb;
    apply Forall_cons in Hb as [Hn Hb]; cbn [acquire];
    destruct (next_turn self now c d g Hsl ltac:(lia) Hlast) as [[self' ->]|(Hg & d' & E & Hsl')].
  - by eexists.
  - cbn in Hk. lra.
  - by eexists.
  - rewrite E. destruct clock as [|now' clock]; [cbn in Hlen; lia|]. cbn [slept] in Hslept. rewrite E in Hslept.
    destruct Hslept as [Hn' Hslept]. pose proof (sl_sleep _ _ _ _ Hsl) as Hd.
    apply (IH _ d' _ now' clock Hsl'); [cbn [refill last_refill]; lia|exact Hk|cbn in Hlen; lia|exact Hn'|done|done].
Qed.

(** A turn, and a call that returns, leave a well-formed bucket with the same parameters. *)
Lemma acquire_turn_keeps self now c : bucket_ok self → (0 <= self.(last_refill))%Z → (0 <= now < 2 ^ 99)%Z →
  (0 <= c < 2 ^ 32)%Z → let self' := (acquire_turn self now c).1 in
  bucket_ok self' ∧ (0 <= self'.(last_refill))%Z ∧ self'.(capacity) = self.(capacity) ∧
  self'.(refill_rate_per_sec) = self.(refill_rate_per_sec).
Proof.
  intros H Hl Hn Hc. destruct (refill_time self now H) as (Hok & _); [unfold duration_since; lia|].
  destruct (of_Z_exact c ltac:(lia)) as [Ec Nc]. unfold acquire_turn.
  destruct (f64_leb (f64_of_Z c) (tokens (refill self now))) eqn:E; cbn [fst]; [|split_and!; (done || cbn; lia)].
  apply leb_R in E; [|done|apply Hok]. rewrite Ec in E.
  assert (Hcc : (0 <= c <= capacity self)%Z).
  { split; [lia|]. apply le_IZR. pose proof (ok_bound _ Hok). cbn [refill capacity] in *. lra. }
  destruct (take_time (refill self now) c Hok Hcc E) as [Hok' _]. split_and!; (done || cbn; lia).
Qed.

Lemma acquire_keeps clock self c self' : bucket_ok self → (0 <= self.(last_refill))%Z →
  Forall (λ n, 0 <= n < 2 ^ 99)%Z clock → (0 <= c < 2 ^ 32)%Z → acquire self clock c = Some (Ret self') →
  bucket_ok self' ∧ (0 <= self'.(last_refill))%Z ∧ self'.(capacity) = self.(capacity) ∧
  self'.(refill_rate_per_sec) = self.(refill_rate_per_sec).
Proof.
  intros H Hl Hclock Hc. revert self H Hl. induction Hclock as [|now clock Hn _ IH]; intros self H Hl; [done|].
  cbn [acquire]. pose proof (acquire_turn_keeps self now c H Hl Hn Hc) as Hk.
  destruct (acquire_turn self now c) as [self1 [[d|]|]]; cbn [fst] in Hk; [| |done].
  - intros Ha. destruct Hk as (H1 & H2 & E1 & E2). destruct (IH self1 H1 H2 Ha) as (H3 & H4 & E3 & E4).
    split_and!; congruence || done.
  - by intros [= <-].
Qed.

(** The loop of [acquire] leaves in its fifth turn at the latest. *)
Lemma acquire_passes (self : t) (clock : list Z) (count : Z) (Hok : bucket_ok self)
    (Hrate : usual_rate self) (Hcount : (0 <= count <= self.(capacity))%Z)
    (Hclock : Forall (λ n, self.(last_refill) <= n < 2 ^ 99)%Z clock) (Hlast : (0 <= self.(last_refill))%Z)
    (Hslept : slept self clock count) (Hturns : (5 <= length clock)%nat) :
  ∃ self', acquire self clock count = Some (Ret self').
Proof.
  destruct clock as [|now clock]; [cbn in Hturns; lia|]. pose proof Hclock as [Hnow _]%Forall_cons.
  assert (Hdur : duration_since now self.(last_refill) = (now - self.(last_refill))%Z).
  { unfold duration_since. lia. }
  destruct (refill_time self now Hok) as (Hok' & _); [rewrite Hdur; lia|].
  cbn [acquire]. destruct (turn_cases self now count 4294967296 Hok Hrate Hcount) as [[self' ->]|(d & E & Hsl)].
  - rewrite Hdur. lia.
  - pose proof (nonnegative_to_R _ (ok_tokens _ Hok')). pose proof (ok_capacity _ Hok).
    assert (IZR count <= 4294967296) by (apply IZR_le; lia). lra.
  - by eexists.
  - rewrite E. destruct clock as [|now' clock]; [cbn in Hturns; lia|]. cbn [slept] in Hslept. rewrite E in Hslept.
    destruct Hslept as [Hn' Hslept].
    apply (acquire_sleeping 3 _ count d 4294967296); [done|cbn [refill last_refill]; lia| |cbn in *; lia|done|done|].
    + unfold usual_rate in Hrate. cbn [missing_after refill refill_rate_per_sec]. lra.
    + apply Forall_cons in Hclock as [_ Hclock]. eapply Forall_impl; [exact Hclock|]. intros n. cbn. lia.
Qed.

(** The bound of a period, in whole tokens. *)
Lemma grants_bounded (self : t) (r s t' : Z) (calls : list (Z * Z))
    (Hok : bucket_ok self) (Hrate : self.(refill_rate_per_sec) = f64_of_Z r) (Hr : (0 <= r <= 2 ^ 53)%Z)
    (Hclock : clocked self.(last_refill) calls t') (Hs : (t' - self.(last_refill) <= s * 10 ^ 9)%Z)
    (Hrs : (r * s <= 2 ^ 40)%Z) (Hcalls : (Z.of_nat (length calls) * (self.(capacity) + 1) <= 2 ^ 48)%Z)
    (Hc : Forall (λ nc, 0 <= nc.2 < 2 ^ 32)%Z calls) :
  ((grants self calls).2 <= self.(capacity) + r * s)%Z.
Proof.
  pose proof (clocked_le _ _ _ Hclock) as Hle. pose proof ulp_small as Hu. pose proof tiny_small as Hy.
  destruct (of_Z_exact r Hr) as [Er _]. pose proof (ok_rate_range _ Hok) as Hrr. rewrite Hrate, Er in Hrr.
  assert (Hr1 : (0 < r)%Z). { apply lt_IZR. pose proof (bp_pos (-100)). lra. }
  pose proof (grants_time self calls t' Hok Hclock ltac:(nia) Hc) as Hg.
  destruct (grants self calls) as [self' n]. destruct Hg as (Hok' & Ec & Hg). cbn [snd].
  pose proof (nonnegative_to_R _ (ok_tokens _ Hok')) as Ht'. pose proof (ok_bound _ Hok) as Ht.
  assert (Hgain : gain self (t' - last_refill self) <= IZR (r * s)).
  { unfold gain, secs. rewrite Hrate, Er, mult_IZR, (Rmult_comm (IZR r)).
    apply Rmult_le_compat_r; [apply IZR_le; lia|]. apply IZR_le in Hs. rewrite mult_IZR in Hs.
    change (10 ^ 9)%Z with 1000000000%Z in Hs. lra. }
  assert (Hgu : IZR (r * s) * (16 * ulp) <= 1 / 4).
  { apply IZR_le in Hrs. change (2 ^ 40)%Z with 1099511627776%Z in Hrs.
    assert (0 <= IZR (r * s)) by (apply IZR_le; nia). pose proof (ulp_mul (IZR (r * s)) ltac:(lra)). lra. }
  assert (Hn : INR (length calls) * (2 * (ulp * IZR (capacity self) + tiny)) <= 1 / 2).
  { rewrite INR_IZR_INZ. apply IZR_le in Hcalls. rewrite mult_IZR, plus_IZR in Hcalls.
    set (N := IZR (Z.of_nat (length calls))) in *. assert (0 <= N) by (apply IZR_le; lia).
    assert (Hul : IZR (2 ^ 48) * ulp <= 1 / 8).
    { rewrite <- bp_IZR by lia. unfold ulp. rewrite <- bp_add. change (48 + -53)%Z with (- (5))%Z.
      rewrite <- bp_inv, bp_IZR by lia. change (2 ^ 5)%Z with 32%Z. lra. }
    assert (N * (IZR (capacity self) + 1) * ulp <= IZR (2 ^ 48) * ulp) by (apply Rmult_le_compat_r; lra).
    assert (N * tiny <= N * ulp) by (apply Rmult_le_compat_l; lra). lra. }
  assert (IZR n < IZR (capacity self + r * s + 1)) as ?%lt_IZR; [|lia]. rewrite !plus_IZR.
  pose proof (gain_range self (t' - last_refill self) Hok ltac:(nia)) as Hg0.
  assert (gain self (t' - last_refill self) * (16 * ulp) <= IZR (r * s) * (16 * ulp)) by (apply Rmult_le_compat_r; lra).
  lra.
Qed.

(** A bucket as [main] makes it. *)
Lemma new_bucket_ok cap now rate : (0 <= cap < 2 ^ 32)%Z → nonnegative rate → bp (-100) <= to_R rate <= bp 100 →
  bucket_ok (new cap rate now).
Proof.
  intros Hcap Hr Hrate. destruct (of_Z_exact cap ltac:(lia)) as [Ec Nc].
  split; cbn [new capacity tokens refill_rate_per_sec]; [done|done|rewrite Ec; lra|done|done].
Qed.

Lemma integral_rate r : (0 < r <= 2 ^ 53)%Z → nonnegative (f64_of_Z r) ∧ bp (-100) <= to_R (f64_of_Z r) <= bp 100.
Proof.
  intros Hr. destruct (of_Z_exact r ltac:(lia)) as [Er Nr]. split; [done|]. rewrite Er.
  assert (1 <= IZR r) by (apply IZR_le; lia). pose proof (bp_le (-100) 0 ltac:(lia)). change (bp 0) with 1 in *.
  assert (IZR r <= bp 53) by (rewrite bp_IZR by lia; apply IZR_le; lia). pose proof (bp_le 53 100 ltac:(lia)). lra.
Qed.

(** ** Properties *)

(** C14. The bucket keeps its promise over time: in any period of [s] whole seconds a bucket with an
    integral rate of [r] tokens per second, whatever it held at the start, grants at most
    [capacity + r * s] tokens, to any number of calls with any counts and at any times.  The
    rounding errors of [f64] never add up to a token while [r * s <= 2 ^ 40] and the calls times the
    capacity are at most [2 ^ 48]. *)
Theorem rate_bound (self : t) (r s t' : Z) (calls : list (Z * Z))
    (Hok : bucket_ok self) (Hrate : self.(refill_rate_per_sec) = f64_of_Z r) (Hr : (0 <= r <= 2 ^ 53)%Z)
    (Hclock : clocked self.(last_refill) calls t') (Hs : (t' - self.(last_refill) <= s * 10 ^ 9)%Z)
    (Hrs : (r * s <= 2 ^ 40)%Z) (Hcalls : (Z.of_nat (length calls) * (self.(capacity) + 1) <= 2 ^ 48)%Z)
    (Hc : Forall (λ nc, 0 <= nc.2 < 2 ^ 32)%Z calls) :
  ((grants self calls).2 <= self.(capacity) + r * s)%Z.
Proof. by apply (grants_bounded self r s t'). Qed.

(** [acquire] returns: for a request within the capacity and a rate between [1 / 256] and
    [2 ^ 40] tokens per second, whatever the bucket holds, when no other caller takes tokens and each
    sleep lasts at least as long as asked for, the loop leaves in its fifth turn at the latest and
    does not panic. *)
Theorem acquire_returns (self : t) (clock : list Z) (count : Z) (Hok : bucket_ok self)
    (Hrate : usual_rate self) (Hcount : (0 <= count <= self.(capacity))%Z)
    (Hclock : Forall (λ n, self.(last_refill) <= n < 2 ^ 99)%Z clock) (Hlast : (0 <= self.(last_refill))%Z)
    (Hslept : slept self clock count) (Hturns : (5 <= length clock)%nat) :
  ∃ self', acquire self clock count = Some (Ret self').
Proof. by apply acquire_passes. Qed.

(** C20. The bucket is well formed in every state it reaches: started with a capacity in [u32] and a rate from
    [2 ^ (- 100)] to [2 ^ 100] tokens per second, after any calls of [try_acquire] for [u32] counts at times
    that do not decrease and span less than [2 ^ 100] ns, the tokens are a number, neither NaN nor infinite,
    from 0 to the capacity, which has not changed.  (Nothing is claimed of rates outside these bounds.) *)
Theorem bucket_well_formed (cap now t' : Z) (rate : f64) (calls : list (Z * Z))
    (Hcap : (0 <= cap < 2 ^ 32)%Z) (Hr : nonnegative rate) (Hrate : bp (-100) <= to_R rate <= bp 100)
    (Hclock : clocked now calls t') (Ht : (t' - now < 2 ^ 100)%Z)
    (Hc : Forall (λ nc, 0 <= nc.2 < 2 ^ 32)%Z calls) :
  let self := (grants (new cap rate now) calls).1 in
  nonnegative self.(tokens) ∧ 0 <= to_R self.(tokens) <= IZR cap ∧ self.(capacity) = cap.
Proof.
  pose proof (grants_time (new cap rate now) calls t' (new_bucket_ok cap now rate Hcap Hr Hrate) Hclock Ht Hc) as H.
  destruct (grants _ calls) as [self n]. destruct H as (H & E & _). cbn [fst new capacity] in *.
  pose proof (ok_bound _ H) as Hb. rewrite E in Hb. pose proof (nonnegative_to_R _ (ok_tokens _ H)).
  split; [apply H|]. split; [lra|done].
Qed.

(** ** Witnesses *)

Definition main_bucket : t := new 1000 (f64_of_Z 500) 0.

Lemma main_bucket_ok : bucket_ok main_bucket ∧ usual_rate main_bucket.
Proof.
  destruct (of_Z_exact 1000 ltac:(lia)) as [Ec Nc]. destruct (of_Z_exact 500 ltac:(lia)) as [Er Nr].
  assert (bp (-100) <= 1) by (apply (bp_le (-100) 0); lia). assert (1024 <= bp 40) by (rewrite bp_IZR by lia; apply IZR_le; lia).
  pose proof (bp_le 40 100 ltac:(lia)). unfold main_bucket. split; [split|]; cbn [new capacity tokens refill_rate_per_sec];
    [lia|done|rewrite Ec; lra|done|rewrite Er; lra|]. unfold usual_rate. cbn [new refill_rate_per_sec]. rewrite Er. lra.
Qed.

Lemma main_tokens : IZR 1000 <= to_R main_bucket.(tokens).
Proof. destruct (of_Z_exact 1000 ltac:(lia)) as [Ec _]. cbn [main_bucket new tokens]. rewrite Ec. lra. Qed.

(** In one second at most 1000 + 500 tokens. *)
Lemma rate_bound_witness :
  ((grants main_bucket [(0, 1000); (300000000, 400); (1000000000, 400)]).2 <= 1000 + 500 * 1)%Z.
Proof.
  apply (rate_bound main_bucket 500 1 1000000000); [apply main_bucket_ok|reflexivity|lia|cbn; lia|cbn; lia|lia|cbn; lia|].
  repeat constructor; cbn; lia.
Defined.

(** The bucket is emptied at once; the second request waits for two milliseconds. *)
Lemma acquire_returns_witness :
  ∃ self', acquire (take main_bucket 1000) [0; 2000000; 4000000; 6000000; 8000000]%Z 1 = Some (Ret self').
Proof.
  apply (acquire_returns (take main_bucket 1000)).
  - apply take_time; [apply main_bucket_ok|cbn; lia|]. apply main_tokens.
  - apply main_bucket_ok.
  - cbn. lia.
  - repeat constructor; cbn; lia.
  - cbn. lia.
  - vm_compute. repeat split; discriminate.
  - cbn. lia.
Defined.

Lemma bucket_well_formed_witness :
  nonnegative (grants main_bucket [(0, 1000); (300000000, 400)]%Z).1.(tokens).
Proof.
  destruct main_bucket_ok as [H _].
  apply (bucket_well_formed 1000 0 300000000 (f64_of_Z 500) [(0, 1000); (300000000, 400)]%Z);
    [lia|apply H|apply H|cbn; lia|lia|repeat constructor; cbn; lia].
Defined.
End RateBound.
