(* ===== verification/Sip.v ===== *)
(** [DefaultHasher] of the Rust standard library as [DefaultHasher::new()] builds it: SipHash-1-3
    with both keys zero.  [str::hash] feeds it the bytes of the string and then [0xff].

    The library does not promise this algorithm for later releases; it is what every release so far
    computes, and the theorems of the router only use that the result is a function of the bytes
    with 64 bits. *)
From S2P Require Import Prelude Text.

Definition mask64 : Z := Z.ones 64.
Definition wrapping_add (a b : Z) : Z := Z.land (a + b) mask64.
Definition rotate_left (x n : Z) : Z :=
  Z.lor (Z.land (Z.shiftl x n) mask64) (Z.shiftr x (64 - n)).

Record sip_state := Sip { v0 : Z; v1 : Z; v2 : Z; v3 : Z }.

Definition sip_round (s : sip_state) : sip_state :=
  let v0 := wrapping_add s.(v0) s.(v1) in
  let v2 := wrapping_add s.(v2) s.(v3) in
  let v1 := Z.lxor (rotate_left s.(v1) 13) v0 in
  let v3 := Z.lxor (rotate_left s.(v3) 16) v2 in
  let v0 := rotate_left v0 32 in
  let v2 := wrapping_add v2 v1 in
  let v0 := wrapping_add v0 v3 in
  let v1 := Z.lxor (rotate_left v1 17) v2 in
  let v3 := Z.lxor (rotate_left v3 21) v0 in
  let v2 := rotate_left v2 32 in
  Sip v0 v1 v2 v3.

(** One compression round per 64-bit word. *)
Definition sip_word (s : sip_state) (m : Z) : sip_state :=
  let s' := sip_round (Sip s.(v0) s.(v1) s.(v2) (Z.lxor s.(v3) m)) in
  Sip (Z.lxor s'.(v0) m) s'.(v1) s'.(v2) s'.(v3).

(** The initial state for the keys [0], [0]. *)
Definition sip_init : sip_state :=
  Sip 0x736f6d6570736575 0x646f72616e646f6d 0x6c7967656e657261 0x7465646279746573.

(** A little-endian word of at most eight bytes. *)
Fixpoint le_word (l : list byte) : Z :=
  match l with [] => 0 | b :: l' => byte_val b + 256 * le_word l' end.

(** Whole words, then the remaining bytes with the length in the top byte. *)
Fixpoint sip_bytes (s : sip_state) (l : list byte) (len : Z) : sip_state :=
  match l with
  | b0 :: b1 :: b2 :: b3 :: b4 :: b5 :: b6 :: b7 :: l' =>
    sip_bytes (sip_word s (le_word [b0; b1; b2; b3; b4; b5; b6; b7])) l' len
  | _ => sip_word s (Z.lor (Z.shiftl (len mod 256) 56) (le_word l))
  end.

(** [finish]: three finalisation rounds. *)
Definition sip_finish (s : sip_state) : Z :=
  let s := sip_round (sip_round (sip_round (Sip s.(v0) s.(v1) (Z.lxor s.(v2) 255) s.(v3)))) in
  Z.lxor (Z.lxor s.(v0) s.(v1)) (Z.lxor s.(v2) s.(v3)).

Definition sip13 (l : list byte) : Z :=
  sip_finish (sip_bytes sip_init l (Z.of_nat (length l))).

(** [s.hash(&mut DefaultHasher::new())] and [finish()] for a [str]. *)
Definition hash_str (s : string) : Z := sip13 (as_bytes s ++ [xff]).

(** ** Test vectors *)

Example sip13_short : sip13 [x61] = 4644417185603328019.
Proof. vm_compute. reflexivity. Qed.

Example sip13_long : sip13 (as_bytes "caminus change data capture") = 13766798021248378770.
Proof. vm_compute. reflexivity. Qed.

Example hash_str_tenant : hash_str "tenant-alpha" = 6129473229208043193.
Proof. vm_compute. reflexivity. Qed.

(** ** The hash has 64 bits *)

Lemma land_mask64 n : Z.land n mask64 = n mod 2 ^ 64.
Proof. apply Z.land_ones. lia. Qed.

Lemma in_range_land n : in_range 64 (Z.land n mask64).
Proof. rewrite land_mask64. apply Z.mod_pos_bound. lia. Qed.

(** A word is a number whose bits above 63 are clear. *)
Lemma in_range_bits n : in_range 64 n ↔ 0 <= n ∧ ∀ i, 64 <= i → Z.testbit n i = false.
Proof.
  unfold in_range. split.
  - intros [H0 H1]. split; [done|]. intros i Hi.
    destruct (decide (n = 0)) as [->|]; [apply Z.testbit_0_l|].
    apply Z.bits_above_log2; [done|]. apply Z.log2_lt_pow2 in H1; lia.
  - intros [H0 H]. split; [done|]. destruct (Z.lt_ge_cases n (2 ^ 64)) as [|Hge]; [done|].
    exfalso. assert (Hl : 64 <= Z.log2 n) by (apply Z.log2_le_pow2; lia).
    pose proof (Z.bit_log2 n ltac:(lia)) as Hb. rewrite H in Hb by done. done.
Qed.

Lemma in_range_lxor a b : in_range 64 a → in_range 64 b → in_range 64 (Z.lxor a b).
Proof.
  rewrite !in_range_bits. intros [Ha Ba] [Hb Bb]. split; [by apply Z.lxor_nonneg|].
  intros i Hi. by rewrite Z.lxor_spec, Ba, Bb.
Qed.

Lemma in_range_lor a b : in_range 64 a → in_range 64 b → in_range 64 (Z.lor a b).
Proof.
  rewrite !in_range_bits. intros [Ha Ba] [Hb Bb]. split; [by apply Z.lor_nonneg|].
  intros i Hi. by rewrite Z.lor_spec, Ba, Bb.
Qed.

Lemma in_range_rotate x n : 0 <= n <= 64 → in_range 64 x → in_range 64 (rotate_left x n).
Proof.
  intros Hn Hx. apply in_range_lor; [apply in_range_land|]. apply in_range_bits in Hx as [H0 Hx].
  apply in_range_bits. split; [by apply Z.shiftr_nonneg|]. intros i Hi.
  rewrite Z.shiftr_spec by lia. apply Hx. lia.
Qed.

Definition sip_ok (s : sip_state) : Prop :=
  in_range 64 s.(v0) ∧ in_range 64 s.(v1) ∧ in_range 64 s.(v2) ∧ in_range 64 s.(v3).

#[local] Hint Resolve in_range_land in_range_lxor in_range_lor in_range_rotate : sip.

Lemma sip_round_ok s : sip_ok s → sip_ok (sip_round s).
Proof.
  intros (H0 & H1 & H2 & H3). unfold sip_round, wrapping_add.
  split_and!; cbn [v0 v1 v2 v3];
    repeat (apply in_range_lxor || apply in_range_rotate || apply in_range_land); done || lia.
Qed.

Lemma sip_word_ok s m : in_range 64 m → sip_ok s → sip_ok (sip_word s m).
Proof.
  intros Hm (H0 & H1 & H2 & H3). unfold sip_word.
  assert (Hr : sip_ok (sip_round (Sip (v0 s) (v1 s) (v2 s) (Z.lxor (v3 s) m)))).
  { apply sip_round_ok. split_and!; cbn; auto with sip. }
  destruct Hr as (G0 & G1 & G2 & G3). split_and!; cbn [v0 v1 v2 v3]; auto with sip.
Qed.

Lemma le_word_range l : 0 <= le_word l < 256 ^ Z.of_nat (length l).
Proof.
  induction l as [|b l IH]; [cbn; lia|]. cbn [le_word length].
  rewrite Nat2Z.inj_succ, Z.pow_succ_r by lia. pose proof (byte_val_range b). lia.
Qed.

Lemma le_word_ok l : (length l ≤ 8)%nat → in_range 64 (le_word l).
Proof.
  intros Hl. pose proof (le_word_range l) as [H0 H1]. split; [done|].
  eapply Z.lt_le_trans; [exact H1|]. change (2 ^ 64) with (256 ^ 8).
  apply Z.pow_le_mono_r; lia.
Qed.

Lemma sip_bytes_ok n s l len : (length l ≤ n)%nat → sip_ok s → sip_ok (sip_bytes s l len).
Proof.
  revert s l. induction n as [n IH] using lt_wf_ind. intros s l Hl Hs.
  assert (Htail : (length l ≤ 7)%nat →
    sip_ok (sip_word s (Z.lor (Z.shiftl (len mod 256) 56) (le_word l)))).
  { intros Hl'. apply sip_word_ok; [|done]. apply in_range_lor; [|apply le_word_ok; lia].
    rewrite Z.shiftl_mul_pow2 by lia. pose proof (Z.mod_pos_bound len 256 ltac:(lia)).
    split; [lia|]. change (2 ^ 64) with (256 * 2 ^ 56). lia. }
  destruct l as [|b0 [|b1 [|b2 [|b3 [|b4 [|b5 [|b6 [|b7 l]]]]]]]];
    try (apply Htail; cbn; lia). cbn [sip_bytes].
  apply (IH (length l)); [cbn in Hl; lia|done|]. apply sip_word_ok; [|done].
  apply le_word_ok. cbn. lia.
Qed.

Lemma hash_str_range s : in_range 64 (hash_str s).
Proof.
  unfold hash_str, sip13, sip_finish. generalize (as_bytes s ++ [xff]). intros l.
  assert (H : sip_ok (sip_bytes sip_init l (Z.of_nat (length l)))).
  { eapply sip_bytes_ok; [reflexivity|]. by split_and!. }
  destruct H as (H0 & H1 & H2 & H3).
  assert (G : sip_ok (sip_round (sip_round (sip_round
    (let s := sip_bytes sip_init l (Z.of_nat (length l)) in
     Sip (v0 s) (v1 s) (Z.lxor (v2 s) 255) (v3 s)))))).
  { do 3 apply sip_round_ok. split_and!; cbn [v0 v1 v2 v3]; auto with sip.
    apply in_range_lxor; [done|]. by split. }
  destruct G as (G0 & G1 & G2 & G3). auto with sip.
Qed.
