(* ===== verification/Router.v ===== *)
(** [PartitionRouter] and [TenantRouter] ([src/router/mod.rs]): the partition an event goes to, and the
    tenant's quota in front of it. *)
From S2P Require Import Prelude Text F64 Event Reference Clock RateLimiter Sip.

Module PartitionRouter.
Section router.
Context `{J : SerdeJson}.

(** ** The component *)

Inductive PartitionStrategy := KeyHash | TenantPrefix | RoundRobin.

Record t := Mk {
  num_partitions : Z;          (* u32 *)
  strategy : PartitionStrategy;
}.

Definition new (num_partitions : Z) (strategy : PartitionStrategy) : t := Mk num_partitions strategy.

(** [event.after.as_ref().and_then(|a| a.get("tenant_id")).and_then(|t| t.as_str())
    .unwrap_or(&event.source_database)] *)
Definition tenant_id (event : ChangeEvent) : string :=
  default event.(source_database)
    (event.(after) ≫= fun a => value_get a "tenant_id" ≫= as_str).

(** The string each strategy hashes. *)
Definition routing_key (strategy : PartitionStrategy) (event : ChangeEvent) : string :=
  match strategy with
  | KeyHash => value_to_string event.(key)
  | TenantPrefix => tenant_id event
  | RoundRobin => event.(id)
  end.

Definition resolve_partition (self : t) (event : ChangeEvent) : Z :=
  if self.(num_partitions) <=? 1 then 0
  else
    let hash_val := hash_str (routing_key self.(strategy) event) in
    (hash_val mod self.(num_partitions)) mod 2 ^ 32.

(** ** Properties *)

(** The partition exists and is a function of the routing key: with at least one partition the index
    is below their number (and no bit is lost in the conversion to [u32]), without any it is 0, and
    two events with the same routing key (the key, the tenant or the id, by the strategy) go to the
    same partition. *)
Theorem resolve_partition_spec (self : t) (event : ChangeEvent)
    (Hn : in_range 32 self.(num_partitions)) :
  0 <= resolve_partition self event < Z.max 1 self.(num_partitions) ∧
  (1 < self.(num_partitions) →
     resolve_partition self event =
       hash_str (routing_key self.(strategy) event) mod self.(num_partitions)) ∧
  (∀ event', routing_key self.(strategy) event' = routing_key self.(strategy) event →
     resolve_partition self event' = resolve_partition self event).
Proof.
  destruct Hn as [Hn0 Hn]. unfold resolve_partition.
  destruct (Z.leb_spec (num_partitions self) 1).
  - split; [lia|]. split; [lia|done].
  - pose proof (Z.mod_pos_bound (hash_str (routing_key (strategy self) event))
      (num_partitions self) ltac:(lia)).
    rewrite (Z.mod_small _ (2 ^ 32)) by lia. split; [lia|]. split; [done|].
    intros event' ->. by rewrite Z.mod_small by lia.
Qed.
End router.
End PartitionRouter.

Module TenantRouter.
Section tenant.
Context `{J : SerdeJson}.

(** ** The component *)

Record t := Mk {
  router : PartitionRouter.t;
  quota_limiter : TenantQuotaLimiter.t;
}.

Definition new (num_partitions default_quota_capacity : Z) (default_refill_rate : f64) : t :=
  Mk (PartitionRouter.new num_partitions PartitionRouter.TenantPrefix)
     (TenantQuotaLimiter.new default_quota_capacity default_refill_rate).

Definition set_tenant_quota (self : t) (tenant_id : string) (capacity : Z)
    (refill_rate_per_sec : f64) (now : Z) : t :=
  Mk self.(router)
    (TenantQuotaLimiter.set_tenant_quota self.(quota_limiter) tenant_id capacity
       refill_rate_per_sec now).

Definition route_event (self : t) (event : ChangeEvent) (created now : Z) : t * option Z :=
  let tenant_id := PartitionRouter.tenant_id event in
  let '(q, allowed) := TenantQuotaLimiter.try_allow self.(quota_limiter) tenant_id created now in
  (Mk self.(router) q,
   if allowed then Some (PartitionRouter.resolve_partition self.(router) event) else None).

(** The events that reach the router at one instant. *)
Fixpoint route_all (self : t) (now : Z) (events : list ChangeEvent) : t * list (option Z) :=
  match events with
  | [] => (self, [])
  | e :: events' =>
    let '(self', r) := route_event self e now now in
    let '(self'', rs) := route_all self' now events' in (self'', r :: rs)
  end.

(** How many of the events of tenant [i] were routed. *)
Definition routed (i : string) (events : list ChangeEvent) (rs : list (option Z)) : nat :=
  length (List.filter (λ er, String.eqb (PartitionRouter.tenant_id er.1) i && bool_decide (is_Some er.2))
    (zip events rs)).

Definition of_tenant (i : string) (events : list ChangeEvent) : list ChangeEvent :=
  List.filter (λ e, String.eqb (PartitionRouter.tenant_id e) i) events.

(** The bucket of [i], present or about to be created, holds [k] tokens. *)
Definition budget (self : t) (i : string) (now k : Z) : Prop :=
  TokenBucketLimiter.holds
    (default (TokenBucketLimiter.new self.(quota_limiter).(TenantQuotaLimiter.default_capacity)
                self.(quota_limiter).(TenantQuotaLimiter.default_refill_rate) now)
       (self.(quota_limiter).(TenantQuotaLimiter.tenant_limiters) !! i)) now k.

(** ** Lemmas *)

Lemma route_event_budget self e i now k : budget self i now k →
  let mine := String.eqb (PartitionRouter.tenant_id e) i in
  let granted := mine && (1 <=? k) in
  budget (route_event self e now now).1 i now (if granted then k - 1 else k) ∧
  (route_event self e now now).1.(router) = self.(router) ∧
  (mine = true → (route_event self e now now).2 =
     if 1 <=? k then Some (PartitionRouter.resolve_partition self.(router) e) else None).
Proof.
  intros H. unfold budget in *. unfold route_event, TenantQuotaLimiter.try_allow.
  destruct (String.eqb_spec (PartitionRouter.tenant_id e) i) as [->|Hne]; cbn zeta.
  - pose proof (TokenBucketLimiter.holds_try_acquire _ now k 1 H ltac:(lia)) as [E H'].
    unfold default in *. destruct (TenantQuotaLimiter.tenant_limiters _ !! i) as [l|];
      destruct (TokenBucketLimiter.try_acquire _ now 1) as [l' b]; cbn in *; subst b;
      rewrite lookup_insert_eq; destruct (Z.leb_spec 1 k); done.
  - destruct (TokenBucketLimiter.try_acquire _ now 1) as [l' b]. cbn.
    rewrite lookup_insert_ne by done. done.
Qed.

Lemma routed_cons i e es r rs :
  routed i (e :: es) (r :: rs) =
    ((if String.eqb (PartitionRouter.tenant_id e) i && bool_decide (is_Some r) then 1 else 0)
     + routed i es rs)%nat.
Proof. unfold routed. cbn. by destruct (_ && _). Qed.

Lemma route_all_budget self now events i k : budget self i now k → 0 <= k →
  Z.of_nat (routed i events (route_all self now events).2) =
    Z.min k (Z.of_nat (length (of_tenant i events))).
Proof.
  revert self k. induction events as [|e es IH]; intros self k H Hk; [cbn; lia|].
  cbn [route_all]. destruct (route_event_budget self e i now k H) as (H' & _ & E).
  destruct (route_event self e now now) as [s r]. cbn in H', E.
  pose proof (λ k', IH s k') as IH'. destruct (route_all s now es) as [s' rs].
  cbn [snd] in *. rewrite routed_cons. unfold of_tenant. cbn [List.filter].
  destruct (String.eqb (PartitionRouter.tenant_id e) i); cbn [andb] in *; [|cbn; by apply IH'].
  rewrite E by done. destruct (Z.leb_spec 1 k); cbn.
  - specialize (IH' _ H' ltac:(lia)). unfold of_tenant in IH'. cbn in IH'. lia.
  - specialize (IH' _ H' ltac:(lia)). unfold of_tenant in IH'. cbn in IH'. lia.
Qed.

(** ** Properties *)

(** Quotas bound what each tenant gets through: from a router without explicit quotas, of any
    mixture of events that arrive at one instant exactly the default capacity of those of each
    tenant is routed, or all of them when they are fewer, whatever the other tenants send. *)
Theorem route_all_quota (n cap now : Z) (rate : f64) (events : list ChangeEvent) (i : string)
    (Hcap : 0 <= cap < 2 ^ 32) (Hrate : TokenBucketLimiter.finite rate) :
  Z.of_nat (routed i events (route_all (new n cap rate) now events).2) =
    Z.min cap (Z.of_nat (length (of_tenant i events))).
Proof.
  apply route_all_budget; [|lia]. unfold budget. cbn. rewrite lookup_empty.
  by apply TokenBucketLimiter.bucket_holds_new.
Qed.
End tenant.

(** ** Witnesses *)

Definition tenant_event (i tenant : string) : ChangeEvent :=
  MkEvent i "db" "users" Create 0 VNull None
    (Some (json_object [("tenant_id", VString tenant)])) None i.

Lemma resolve_partition_spec_witness :
  0 <= PartitionRouter.resolve_partition (J:=tree_json)
         (PartitionRouter.new 8 PartitionRouter.TenantPrefix) (tenant_event "e2" "tenant-alpha") < 8.
Proof.
  apply (PartitionRouter.resolve_partition_spec (J:=tree_json)
    (PartitionRouter.new 8 PartitionRouter.TenantPrefix) (tenant_event "e2" "tenant-alpha")).
  by split.
Defined.

Definition mixture : list ChangeEvent :=
  [tenant_event "1" "A"; tenant_event "2" "B"; tenant_event "3" "A"; tenant_event "4" "A"].

Lemma route_all_quota_witness :
  Z.of_nat (routed "A" mixture (route_all (J:=tree_json) (new 4 2 (f64_of_Z 10)) 0 mixture).2) = 2.
Proof. apply (route_all_quota (J:=tree_json) 4 2 0 (f64_of_Z 10) mixture "A"); [lia|done]. Defined.
End TenantRouter.
