(* ===== verification/Transform.v ===== *)
(** [WasmTransformer] ([src/transform/mod.rs]) and [WasmPluginRegistry] ([src/transform/registry.rs]):
    each event is passed through a WebAssembly guest, as JSON in the guest's memory.

    The engine is the crate [wasmtime], an interface ([Wasmtime]) with the documented behaviour of its
    linear memory as laws ([WasmtimeLaws]). *)
From S2P Require Import Prelude Text F64 Event.

(** ** The engine *)

Class Wasmtime := {
  wasm_error : Type;
  wasm_error_msg : string → wasm_error;                     (* Error::msg *)
  wasm_error_to_string : wasm_error → string;
  memory_error : Type;
  memory_error_to_string : memory_error → string;
  wasm_module : Type;
  module_new : list byte → Result wasm_module wasm_error;   (* Module::new *)
  wasm_store : Type;                                        (* a Store with its Instance *)
  instance_new : wasm_module → Result wasm_store wasm_error;
  func1 : Type;                                             (* TypedFunc<i32, i32> *)
  func2 : Type;                                             (* TypedFunc<(i32, i32), i32> *)
  memory : Type;
  get_func1 : wasm_store → string → Result func1 wasm_error;
  get_func2 : wasm_store → string → Result func2 wasm_error;
  get_memory : wasm_store → string → option memory;
  call1 : wasm_store → func1 → Z → wasm_store * Result Z wasm_error;
  call2 : wasm_store → func2 → Z → Z → wasm_store * Result Z wasm_error;
  memory_write : wasm_store → memory → Z → list byte → wasm_store * Result unit memory_error;
  memory_read : wasm_store → memory → Z → Z → Result (list byte) memory_error;
}.

Definition is_i32 (n : Z) : Prop := - 2 ^ 31 <= n < 2 ^ 31.

Class WasmtimeLaws (W : Wasmtime) := {
  memory_size : wasm_store → memory → Z;
  write_fits s m off b : 0 <= off → off + Z.of_nat (length b) <= memory_size s m →
    ∃ s', memory_write s m off b = (s', Ok tt) ∧
      memory_read s' m off (Z.of_nat (length b)) = Ok b;
  write_out_of_bounds s m off b : memory_size s m < off + Z.of_nat (length b) →
    ∃ s' e, memory_write s m off b = (s', Err e);
  call2_i32 s f a b s' n : call2 s f a b = (s', Ok n) → is_i32 n;
}.

(** [n as i32] of a [usize], and [n as usize] of an [i32]. *)
Definition as_i32 (n : Z) : Z := (n + 2 ^ 31) mod 2 ^ 32 - 2 ^ 31.
Definition as_usize (n : Z) : Z := n mod 2 ^ 64.

(** [vec![0u8; n]] panics above [isize::MAX] bytes. *)
Definition alloc_vec (n : Z) : Outcome Z := if n <? 2 ^ 63 then Ret n else Panic.

Module WasmTransformer.
Section transformer.
Context `{J : SerdeJson} `{W : Wasmtime}.

(** ** The component *)

Inductive TransformError :=
  | Wasm (e : wasm_error)
  | Serialization (e : json_error)
  | MissingExport (s : string)
  | MemoryAccess (e : memory_error).

(** [Display], from the [#[error]] attributes. *)
Definition error_to_string (e : TransformError) : string :=
  match e with
  | Wasm e => "Wasm engine error: " ++ wasm_error_to_string e
  | Serialization e => "Serialization error: " ++ json_error_to_string e
  | MissingExport s => "Missing exported function: " ++ s
  | MemoryAccess e => "Wasm memory access error: " ++ memory_error_to_string e
  end%string.

Record t := Mk { module : wasm_module }.

Definition new (wat_or_wasm_bytes : list byte) : Result t TransformError :=
  try Wasm (module_new wat_or_wasm_bytes) (fun m => Ok (Mk m)).

(** Up to the return of the guest's [transform]: the guest's state, its memory, the pointer and the
    returned length. *)
Definition call_guest (self : t) (event : ChangeEvent) :
    Result (wasm_store * memory * Z * Z) TransformError :=
  try Wasm (instance_new self.(module)) (fun store =>
  try (λ _, MissingExport "alloc") (get_func1 store "alloc") (fun alloc =>
  try (λ _, MissingExport "transform") (get_func2 store "transform") (fun transform_fn =>
  try same (ok_or (get_memory store "memory") (Wasm (wasm_error_msg "Missing memory export")))
    (fun memory =>
  try Serialization (event_to_vec event) (fun json_bytes =>
  let len := as_i32 (Z.of_nat (length json_bytes)) in
  let '(store, r) := call1 store alloc len in
  try Wasm r (fun guest_ptr =>
  let '(store, r) := memory_write store memory (as_usize guest_ptr) json_bytes in
  try MemoryAccess r (fun _ =>
  let '(store, r) := call2 store transform_fn guest_ptr len in
  try Wasm r (fun out_len => Ok (store, memory, guest_ptr, out_len))))))))).

(** The rest: the result is read back and parsed. *)
Definition read_result (store : wasm_store) (memory : memory) (guest_ptr out_len : Z) :
    Outcome (Result ChangeEvent TransformError) :=
  size ← alloc_vec (as_usize out_len);
  Ret (try MemoryAccess (memory_read store memory (as_usize guest_ptr) size) (fun out_buffer =>
       try Serialization (event_from_slice out_buffer) Ok)).

Definition transform (self : t) (event : ChangeEvent) : Outcome (Result ChangeEvent TransformError) :=
  match call_guest self event with
  | Err e => Ret (Err e)
  | Ok (store, memory, guest_ptr, out_len) => read_result store memory guest_ptr out_len
  end.

(** ** The guest of [main]

    What the module of [src/main.rs] is: [alloc] returns 0 and [transform] its second parameter,
    neither touches the memory, and the memory has one page. *)
Definition page_size : Z := 65536.

Definition passthrough {L : WasmtimeLaws W} (self : t) : Prop :=
  ∃ store alloc transform_fn mem,
    instance_new self.(module) = Ok store ∧
    get_func1 store "alloc" = Ok alloc ∧ get_func2 store "transform" = Ok transform_fn ∧
    get_memory store "memory" = Some mem ∧ memory_size store mem = page_size ∧
    (∀ s n, call1 s alloc n = (s, Ok 0)) ∧
    (∀ s p n, is_i32 n → call2 s transform_fn p n = (s, Ok n)).

(** ** Lemmas *)

Lemma as_i32_small n : 0 <= n < 2 ^ 31 → as_i32 n = n.
Proof. intros H. unfold as_i32. rewrite Z.mod_small; lia. Qed.

Lemma as_usize_small n : 0 <= n < 2 ^ 63 → as_usize n = n.
Proof. intros H. unfold as_usize. apply Z.mod_small. lia. Qed.

Lemma as_usize_negative n : - 2 ^ 31 <= n < 0 → as_usize n = 2 ^ 64 + n.
Proof. intros H. unfold as_usize. rewrite <- (Z.mod_add n 1), Z.mod_small; lia. Qed.

Lemma alloc_vec_spec n : is_i32 n → alloc_vec (as_usize n) = if n <? 0 then Panic else Ret n.
Proof.
  intros Hn. unfold is_i32 in Hn. unfold alloc_vec. destruct (Z.ltb_spec n 0).
  - rewrite as_usize_negative by lia. by rewrite (proj2 (Z.ltb_ge _ _)) by lia.
  - rewrite as_usize_small by lia. by rewrite (proj2 (Z.ltb_lt _ _)) by lia.
Qed.

Lemma call_guest_i32 {L : WasmtimeLaws W} self event s m p n :
  call_guest self event = Ok (s, m, p, n) → is_i32 n.
Proof.
  unfold call_guest, try. repeat case_match; try done. intros; simplify_eq.
  by eapply call2_i32.
Qed.

(** A module with the three exports, whose [alloc] returns 0: the call up to the guest's [transform]. *)
Lemma call_guest_at_0 self event raw store store1 alloc transform_fn mem :
  instance_new self.(module) = Ok store → get_func1 store "alloc" = Ok alloc →
  get_func2 store "transform" = Ok transform_fn → get_memory store "memory" = Some mem →
  event_to_vec event = Ok raw → Z.of_nat (length raw) < 2 ^ 31 →
  call1 store alloc (Z.of_nat (length raw)) = (store1, Ok 0) →
  call_guest self event =
    let '(store, r) := memory_write store1 mem 0 raw in
    try MemoryAccess r (λ _,
    let '(store, r) := call2 store transform_fn 0 (Z.of_nat (length raw)) in
    try Wasm r (λ out_len, Ok (store, mem, 0, out_len))).
Proof.
  intros H1 H2 H3 H4 Hraw Hl H5. unfold call_guest. rewrite H1. cbn [try]. rewrite H2. cbn [try]. rewrite H3.
  cbn [try]. rewrite H4. cbn [try ok_or same]. rewrite Hraw. cbn [try]. rewrite as_i32_small by lia.
  by rewrite H5.
Qed.

(** The result is read back from where the event was written. *)
Lemma read_result_at_0 store mem out n : 0 <= n < 2 ^ 31 → memory_read store mem 0 n = Ok out →
  read_result store mem 0 n = Ret (try Serialization (event_from_slice out) Ok).
Proof.
  intros Hn Hr. unfold read_result. rewrite alloc_vec_spec by (unfold is_i32; lia).
  rewrite (proj2 (Z.ltb_ge _ _)) by lia. cbn [mbind Outcome_bind]. change (as_usize 0) with 0. by rewrite Hr.
Qed.

(** What comes back is what the JSON library reads from the text it has printed. *)
Lemma passthrough_reparse {L : WasmtimeLaws W} self event raw :
  passthrough self → event_to_vec event = Ok raw → Z.of_nat (length raw) <= page_size →
  transform self event = Ret (try Serialization (event_from_slice raw) Ok).
Proof.
  intros (store & alloc & f & mem & H1 & H2 & H3 & H4 & H5 & H6 & H7) Hraw Hl.
  rewrite <- H5 in Hl. destruct (write_fits store mem 0 raw (Z.le_refl 0) Hl) as (s' & Hw & Hr).
  rewrite H5 in Hl. unfold page_size in Hl. unfold transform.
  rewrite (call_guest_at_0 self event raw store store alloc f mem), Hw by (done || lia). cbn [try].
  rewrite H7 by (unfold is_i32; lia). cbn [try]. by rewrite (read_result_at_0 s' mem raw) by (done || lia).
Qed.

Lemma passthrough_transform {L : WasmtimeLaws W} {JL : SerdeJsonLaws J} self event raw :
  passthrough self → plain_event event = true → event_to_vec event = Ok raw →
  Z.of_nat (length raw) <= page_size → transform self event = Ret (Ok event).
Proof.
  intros Hg Hp Hraw Hl. by rewrite (passthrough_reparse self event raw Hg Hraw Hl), (event_roundtrip _ _ Hp Hraw).
Qed.

Lemma passthrough_too_long {L : WasmtimeLaws W} self event raw :
  passthrough self → event_to_vec event = Ok raw → page_size < Z.of_nat (length raw) < 2 ^ 31 →
  ∃ e, transform self event = Ret (Err (MemoryAccess e)).
Proof.
  intros (store & alloc & f & mem & H1 & H2 & H3 & H4 & H5 & H6 & H7) Hraw [Hl Hlen].
  rewrite <- H5 in Hl. destruct (write_out_of_bounds store mem 0 raw Hl) as (s' & e & Hw). exists e. unfold transform.
  by rewrite (call_guest_at_0 self event raw store store alloc f mem), Hw by done.
Qed.

(** The bundled guest never panics its host. *)
Lemma passthrough_no_panic {L : WasmtimeLaws W} self event : passthrough self → transform self event ≠ Panic.
Proof.
  intros (store & alloc & f & mem & H1 & H2 & H3 & H4 & H5 & H6 & H7). unfold transform, call_guest.
  rewrite H1. cbn [try]. rewrite H2. cbn [try]. rewrite H3. cbn [try]. rewrite H4. cbn [try ok_or same].
  destruct (event_to_vec event) as [raw|e]; cbn [try]; [|done]. rewrite H6. cbn [try]. change (as_usize 0) with 0.
  destruct (Z.leb_spec (Z.of_nat (length raw)) page_size) as [Hl|Hl]; rewrite <- H5 in Hl.
  - destruct (write_fits store mem 0 raw (Z.le_refl 0) Hl) as (s' & -> & Hr). rewrite H5 in Hl. unfold page_size in Hl.
    cbn [try]. rewrite as_i32_small, H7 by (unfold is_i32; lia). cbn [try]. by rewrite (read_result_at_0 _ _ raw) by (done || lia).
  - by destruct (write_out_of_bounds store mem 0 raw Hl) as (s' & e & ->).
Qed.

(** ** Properties *)

(** The bundled guest, up to one page: an event that the JSON library reads back as it printed it and whose JSON
    fits in the 65536 bytes of the memory comes back unchanged, and a longer one (below 2 GiB) is an error,
    never a truncated event. *)
Lemma passthrough_identity {L : WasmtimeLaws W} {JL : SerdeJsonLaws J} (self : t)
    (event : ChangeEvent) (raw : list byte)
    (Hg : passthrough self) (Hp : plain_event event = true) (Hraw : event_to_vec event = Ok raw)
    (Hlen : Z.of_nat (length raw) < 2 ^ 31) :
  if Z.of_nat (length raw) <=? page_size then transform self event = Ret (Ok event)
  else ∃ e, transform self event = Ret (Err (MemoryAccess e)).
Proof.
  destruct (Z.leb_spec (Z.of_nat (length raw)) page_size) as [Hl|Hl].
  - by apply (passthrough_transform self event raw).
  - by apply (passthrough_too_long self event raw).
Qed.

(** C32. When a guest panics the host: [transform] panics exactly when the guest's function returned a
    negative length, which is taken as an allocation of nearly [2 ^ 64] bytes; every other failure of
    the guest is an error value. *)
Theorem transform_panics_iff {L : WasmtimeLaws W} (self : t) (event : ChangeEvent) :
  transform self event = Panic ↔
    ∃ s m p n, call_guest self event = Ok (s, m, p, n) ∧ n < 0.
Proof.
  unfold transform. destruct (call_guest self event) as [[[[s m] p] n]|e] eqn:E; cycle 1.
  { split; [done|]. by intros (? & ? & ? & ? & ? & _). }
  pose proof (call_guest_i32 _ _ _ _ _ _ E) as Hn. unfold read_result.
  rewrite alloc_vec_spec by done. destruct (Z.ltb_spec n 0); cbn [mbind Outcome_bind].
  - split; [|done]. intros _. by exists s, m, p, n.
  - split; [done|]. intros (? & ? & ? & ? & [= <- <- <- <-] & ?). lia.
Qed.
End transformer.
Arguments TransformError : clear implicits.
Arguments t : clear implicits.
End WasmTransformer.

Module WasmPluginRegistry.
Section registry.
Context `{J : SerdeJson} `{W : Wasmtime}.

(** ** The component *)

Record PluginMetadata := Meta {
  name : string;
  version : string;
  enabled : bool;
  loaded_at : Z;
}.

Record t := Mk { plugins : gmap string (PluginMetadata * WasmTransformer.t W) }.

Definition new : t := Mk ∅.

Definition register_plugin (self : t) (plugin_name plugin_ver : string) (wasm_bytes : list byte)
    (now : Z) : t * Result unit (WasmTransformer.TransformError J W) :=
  match WasmTransformer.new wasm_bytes with
  | Err e => (self, Err e)
  | Ok engine =>
    let metadata := Meta plugin_name plugin_ver true now in
    (Mk (<[plugin_name := (metadata, engine)]> self.(plugins)), Ok tt)
  end.

Definition hot_reload_plugin (self : t) (name new_ver : string) (wasm_bytes : list byte) (now : Z) :
    t * Result unit (WasmTransformer.TransformError J W) :=
  match WasmTransformer.new wasm_bytes with
  | Err e => (self, Err e)
  | Ok engine =>
    let metadata := Meta name new_ver true now in
    (Mk (<[name := (metadata, engine)]> self.(plugins)), Ok tt)
  end.

Definition not_registered (plugin_name : string) : string :=
  ("Plugin '" ++ plugin_name ++ "' not registered")%string.

Definition execute_transform (self : t) (plugin_name : string) (event : ChangeEvent) :
    Outcome (Result (option ChangeEvent) (WasmTransformer.TransformError J W)) :=
  match ok_or (self.(plugins) !! plugin_name)
          (WasmTransformer.MissingExport (not_registered plugin_name)) with
  | Err e => Ret (Err e)
  | Ok (metadata, engine) =>
    if negb metadata.(enabled) then Ret (Ok (Some event))
    else r ← WasmTransformer.transform engine event; Ret (try same r (λ e, Ok (Some e)))
  end.

Definition get_metadata (self : t) (plugin_name : string) : option PluginMetadata :=
  fst <$> self.(plugins) !! plugin_name.

Definition len (self : t) : nat := size self.(plugins).

Definition is_empty (self : t) : bool := (len self =? 0)%nat.

(** The changes made to a registry. *)
Inductive change :=
  | Register (name version : string) (wasm_bytes : list byte) (now : Z)
  | Reload (name version : string) (wasm_bytes : list byte) (now : Z).

Definition apply (self : t) (c : change) : t :=
  match c with
  | Register n v b now => (register_plugin self n v b now).1
  | Reload n v b now => (hot_reload_plugin self n v b now).1
  end.

(** ** Specification: the last version that compiled *)

Definition active_step (n : string) (acc : option (string * WasmTransformer.t W)) (c : change) :
    option (string * WasmTransformer.t W) :=
  match c with
  | Register n' v b _ | Reload n' v b _ =>
    if String.eqb n' n
    then match WasmTransformer.new b with Ok engine => Some (v, engine) | Err _ => acc end
    else acc
  end.

Definition active (n : string) (cs : list change) : option (string * WasmTransformer.t W) :=
  fold_left (active_step n) cs None.

(** What the registry holds for a name is its active version, enabled. *)
Definition represents (self : t) (cs : list change) : Prop :=
  ∀ n, match self.(plugins) !! n, active n cs with
       | Some (meta, engine), Some (v, engine') =>
         engine = engine' ∧ meta.(name) = n ∧ meta.(version) = v ∧ meta.(enabled) = true
       | None, None => True
       | _, _ => False
       end.

Lemma apply_represents self cs c : represents self cs → represents (apply self c) (cs ++ [c]).
Proof.
  intros H n. unfold active. rewrite fold_left_app. cbn. specialize (H n). unfold active in H.
  destruct c as [n' v b now|n' v b now]; cbn; unfold register_plugin, hot_reload_plugin;
    destruct (WasmTransformer.new b) as [engine|e]; cbn;
    destruct (String.eqb_spec n' n) as [->|Hne];
    rewrite ?lookup_insert_eq, ?lookup_insert_ne by done; done.
Qed.

(** ** Properties *)

(** C31. The registry runs the last version that compiled: after any sequence of registrations and hot
    reloads, executing a plugin runs the module of the last change of that name that compiled (a
    failed reload keeps the previous one, changes of other names have no effect), its metadata tell
    that version, it is never disabled, and an unknown name is a [MissingExport] error. *)
Theorem registry_runs_active (cs : list change) (n : string) (event : ChangeEvent) :
  let self := fold_left apply cs new in
  execute_transform self n event =
    match active n cs with
    | Some (_, engine) =>
      r ← WasmTransformer.transform engine event; Ret (try same r (λ e, Ok (Some e)))
    | None => Ret (Err (WasmTransformer.MissingExport (not_registered n)))
    end ∧
  version <$> get_metadata self n = fst <$> active n cs.
Proof.
  assert (H : represents (fold_left apply cs new) cs).
  { induction cs as [|c cs IH] using rev_ind; [intros n'; by cbn; rewrite lookup_empty|].
    rewrite fold_left_app. by apply apply_represents. }
  specialize (H n). cbv zeta. unfold execute_transform, get_metadata.
  destruct (plugins _ !! n) as [[meta engine]|], (active n cs) as [[v engine']|]; try done.
  destruct H as (-> & _ & <- & Hen). cbn. by rewrite Hen.
Qed.
End registry.
End WasmPluginRegistry.
