(* ===== verification/Wasm.v ===== *)
(** The part of WebAssembly that the guests in [src/] use: the syntax of their instructions, validation and
    execution, on 32-bit integers and one linear memory.

    The guests are programs of the crate ([src/main.rs], [src/transform/mod.rs]) written in this language, so
    the language is modelled here as the specification defines it; [Wat.v] reads their text and [Guests.v]
    proves what they compute. *)
From S2P Require Import Prelude Text.

Module Wasm.

(** ** Syntax *)

Inductive binop := Add | Sub | Eq | GeS.

Inductive instr :=
  | Const (n : Z)
  | LocalGet (x : nat)
  | LocalSet (x : nat)
  | Binop (op : binop)
  | Load8U
  | Store8
  | Block (body : list instr)
  | Loop (body : list instr)
  | If (body : list instr)
  | Br (l : nat)
  | BrIf (l : nat).

(** All parameters, results and locals are of type [i32]. *)
Record func := Func {
  export : option string;
  params : nat;
  results : nat;
  locals : nat;
  body : list instr;
}.

Record memory_type := MemoryType { mem_export : option string; pages : Z }.

Record module := Module_ { memory : option memory_type; funcs : list func }.

#[export] Instance binop_eq_dec : EqDecision binop.
Proof. solve_decision. Defined.

(** ** Values

    An [i32] is its unsigned value. *)

Definition wrap (n : Z) : Z := n mod 2 ^ 32.
Definition signed (n : Z) : Z := if n <? 2 ^ 31 then n else n - 2 ^ 32.
Definition of_bool (b : bool) : Z := if b then 1 else 0.

Definition eval_binop (op : binop) (a b : Z) : Z :=
  match op with
  | Add => wrap (a + b)
  | Sub => wrap (a - b)
  | Eq => of_bool (a =? b)
  | GeS => of_bool (signed b <=? signed a)
  end.

(** ** Memory *)

Definition page_size : Z := 65536.

Definition mem_size (m : list byte) : Z := Z.of_nat (length m).

Definition load8 (m : list byte) (a : Z) : option Z :=
  if a <? mem_size m then byte_val <$> m !! Z.to_nat a else None.

Definition store8 (m : list byte) (a v : Z) : option (list byte) :=
  if a <? mem_size m then Some (<[Z.to_nat a := byte_of v]> m) else None.

Definition write (m : list byte) (off : nat) (b : list byte) : list byte :=
  take off m ++ b ++ drop (off + length b) m.

Definition read (m : list byte) (off len : nat) : list byte := take len (drop off m).

(** ** Execution *)

Record state := State { env : list Z; stack : list Z; mem : list byte }.

Definition push (v : Z) (s : state) : state := State s.(env) (v :: s.(stack)) s.(mem).

(** How a sequence ends: at its end, by a branch to the [l]-th enclosing label, by a trap (the memory keeps
    what was written), or without a rule, which validation excludes.  [Fuel] says that the bound on the
    recursion was too small. *)
Inductive outcome :=
  | Next (s : state)
  | Branch (l : nat) (s : state)
  | Trap (m : list byte)
  | Stuck
  | Fuel.

(** The instructions without a body. *)
Definition basic (i : instr) (s : state) : outcome :=
  let '(State env stack mem) := s in
  match i, stack with
  | Const n, _ => Next (State env (n :: stack) mem)
  | LocalGet x, _ => match env !! x with Some v => Next (State env (v :: stack) mem) | None => Stuck end
  | LocalSet x, v :: stack =>
    if (x <? length env)%nat then Next (State (<[x := v]> env) stack mem) else Stuck
  | Binop op, b :: a :: stack => Next (State env (eval_binop op a b :: stack) mem)
  | Load8U, a :: stack =>
    match load8 mem a with Some v => Next (State env (v :: stack) mem) | None => Trap mem end
  | Store8, v :: a :: stack =>
    match store8 mem a v with Some mem => Next (State env stack mem) | None => Trap mem end
  | Br l, _ => Branch l s
  | BrIf l, c :: stack => let s := State env stack mem in if c =? 0 then Next s else Branch l s
  | _, _ => Stuck
  end.

(** A body of type [[] -> []] runs on an empty stack; what was below is there again afterwards. *)
Definition enter (s : state) : state := State s.(env) [] s.(mem).
Definition leave (outer s : state) : state := State s.(env) outer.(stack) s.(mem).

(** What follows an instruction, and what follows a body: where it ends and where its label leads. *)
Definition follow (o : outcome) (next : state → outcome) : outcome :=
  match o with Next s => next s | r => r end.

Definition after_body (o : outcome) (outer : state) (next label : state → outcome) : outcome :=
  match o with
  | Next s => next (leave outer s)
  | Branch O s => label (leave outer s)
  | Branch (S l) s => Branch l s
  | r => r
  end.

Fixpoint exec (fuel : nat) (code : list instr) (s : state) {struct fuel} : outcome :=
  match fuel with
  | O => Fuel
  | S fuel =>
    match code with
    | [] => Next s
    | i :: rest =>
      let next := exec fuel rest in
      match i with
      | Block body => after_body (exec fuel body (enter s)) s next next
      | Loop body => after_body (exec fuel body (enter s)) s next (exec fuel code)
      | If body =>
        match s.(stack) with
        | c :: below =>
          let s := State s.(env) below s.(mem) in
          if c =? 0 then next s else after_body (exec fuel body (enter s)) s next next
        | [] => Stuck
        end
      | _ => follow (basic i s) next
      end
    end
  end.

(** The end of a function: its results are on top of the stack; a branch to the outermost label is a
    return. *)
Inductive answer :=
  | Returned (vs : list Z) (m : list byte)
  | Trapped (m : list byte)
  | Wrong
  | Exhausted.

Definition finish (results : nat) (o : outcome) : answer :=
  match o with
  | Next s => if (length s.(stack) =? results)%nat then Returned s.(stack) s.(mem) else Wrong
  | Branch O s =>
    if (results <=? length s.(stack))%nat then Returned (take results s.(stack)) s.(mem) else Wrong
  | Branch (S _) _ | Stuck => Wrong
  | Trap m => Trapped m
  | Fuel => Exhausted
  end.

(** Locals start at zero. *)
Definition invoke (fuel : nat) (f : func) (args : list Z) (m : list byte) : answer :=
  finish f.(results) (exec fuel f.(body) (State (args ++ replicate f.(locals) 0) [] m)).

(** ** Validation

    The height of the operand stack at each point: known, or, after an unconditional branch, at least [n]. *)
Inductive height := Known (n : nat) | Poly (n : nat).

Definition popped (k : nat) (h : height) : option height :=
  match h with
  | Known n => if (k <=? n)%nat then Some (Known (n - k)) else None
  | Poly n => Some (Poly (n - k))
  end.

Definition pushed (k : nat) (h : height) : height :=
  match h with Known n => Known (n + k) | Poly n => Poly (n + k) end.

Definition ends_with (results : nat) (h : height) : bool :=
  match h with Known n => (n =? results)%nat | Poly n => (n <=? results)%nat end.

Definition is_u32 (n : Z) : bool := (0 <=? n) && (n <? 2 ^ 32).

Section check.
Context (has_memory : bool) (nlocals : nat).

(** [labels] are the numbers of operands that a branch to each enclosing label takes. *)
Fixpoint check_instr (labels : list nat) (i : instr) (h : height) {struct i} : option height :=
  let seq labels := fix seq (code : list instr) (h : height) : option height :=
    match code with [] => Some h | i :: rest => h ← check_instr labels i h; seq rest h end in
  let block body h :=
    h' ← seq (0%nat :: labels) body (Known 0); if ends_with 0 h' then Some h else None in
  match i with
  | Const n => if is_u32 n then Some (pushed 1 h) else None
  | LocalGet x => if (x <? nlocals)%nat then Some (pushed 1 h) else None
  | LocalSet x => if (x <? nlocals)%nat then popped 1 h else None
  | Binop _ => h ← popped 2 h; Some (pushed 1 h)
  | Load8U => if has_memory then h ← popped 1 h; Some (pushed 1 h) else None
  | Store8 => if has_memory then popped 2 h else None
  | Block body => block body h
  | Loop body => block body h
  | If body => h ← popped 1 h; block body h
  | Br l => arity ← labels !! l; _ ← popped arity h; Some (Poly 0)
  | BrIf l => arity ← labels !! l; h ← popped 1 h; h ← popped arity h; Some (pushed arity h)
  end.

Definition check (labels : list nat) : list instr → height → option height :=
  fix seq (code : list instr) (h : height) : option height :=
    match code with [] => Some h | i :: rest => h ← check_instr labels i h; seq rest h end.
End check.

Definition valid_func (has_memory : bool) (f : func) : bool :=
  match check has_memory (f.(params) + f.(locals)) [f.(results)] f.(body) (Known 0) with
  | Some h => ends_with f.(results) h
  | None => false
  end.

Definition has_memory (m : module) : bool := match m.(memory) with Some _ => true | None => false end.

(** The names that the module exports, which must differ. *)
Definition exports (m : module) : list string :=
  omap mem_export (option_list m.(memory)) ++ omap export m.(funcs).

Definition valid (m : module) : bool :=
  forallb (valid_func (has_memory m)) m.(funcs) && bool_decide (NoDup (exports m)).

(** ** Lemmas *)

Abbreviation all_u32 := (Forall (in_range 32)).

Lemma wrap_u32 n : in_range 32 (wrap n).
Proof. apply Z.mod_pos_bound. lia. Qed.

Lemma eval_binop_u32 op a b : in_range 32 (eval_binop op a b).
Proof.
  destruct op; cbn [eval_binop]; try apply wrap_u32; unfold of_bool, in_range; case_match; lia.
Qed.

Lemma load8_u32 m a v : load8 m a = Some v → in_range 32 v.
Proof.
  unfold load8. destruct (a <? mem_size m); [|done]. intros (b & _ & ->)%fmap_Some.
  pose proof (byte_val_range b). unfold in_range. lia.
Qed.

Lemma store8_length m a v m' : store8 m a v = Some m' → length m' = length m.
Proof. unfold store8. destruct (a <? mem_size m); [|done]. intros [= <-]. apply length_insert. Qed.

Lemma write_length m off b : (off + length b <= length m)%nat → length (write m off b) = length m.
Proof. intros H. unfold write. rewrite !length_app, length_take, length_drop. lia. Qed.

(** What is written is read back. *)
Lemma read_write m off b : (off + length b <= length m)%nat → read (write m off b) off (length b) = b.
Proof.
  intros H. unfold read, write. rewrite drop_app_length' by (rewrite length_take; lia). by rewrite take_app_length.
Qed.

(** A state whose locals and operands are as validation expects. *)
Record fits (n k : nat) (s : state) : Prop := {
  fits_env : length s.(env) = n;
  fits_stack : length s.(stack) = k;
  fits_locals : all_u32 s.(env);
  fits_operands : all_u32 s.(stack);
}.

Section soundness.
Context (has_memory : bool) (n : nat).

(** What a sequence that validates from height [k] to [h] does. *)
Definition sound (labels : list nat) (h : height) (len : nat) (o : outcome) : Prop :=
  match o with
  | Next s => ∃ k, h = Known k ∧ fits n k s ∧ length s.(mem) = len
  | Branch l s => ∃ arity k, labels !! l = Some arity ∧ (arity <= k)%nat ∧ fits n k s ∧ length s.(mem) = len
  | Trap m => length m = len
  | Stuck => False
  | Fuel => True
  end.

Lemma fits_push k s v : in_range 32 v → fits n k s → fits n (S k) (push v s).
Proof. intros Hv []. split; cbn; [done|congruence|done|by constructor]. Qed.

Lemma popped_known k j h : popped j (Known k) = Some h → (j <= k)%nat ∧ h = Known (k - j).
Proof. cbn. destruct (Nat.leb_spec j k); [|done]. by intros [= <-]. Qed.

Ltac operands :=
  repeat match goal with
  | H : length ?l = S _ |- _ => is_var l; destruct l; cbn in H; [discriminate|]
  | H : popped _ (Known _) ≫= _ = Some _ |- _ =>
    let E := fresh "E" in destruct (popped _ _) as [?|] eqn:E; cbn [mbind option_bind] in H; [|discriminate]
  | H : popped _ (Known _) = Some _ |- _ => apply popped_known in H as [? ->]
  | H : all_u32 (_ :: _) |- _ => apply Forall_cons in H as [? ?]
  | H : Some _ = Some _ |- _ => injection H as <-
  end.

Ltac next :=
  eexists; split; [reflexivity|]; split; [split; cbn;
    eauto using Forall_cons_2, eval_binop_u32, load8_u32, length_insert; lia | done].

Lemma basic_sound labels i k h s :
  match i with Block _ | Loop _ | If _ => False | _ => True end →
  check_instr has_memory n labels i (Known k) = Some h → fits n k s →
  sound labels h (length s.(mem)) (basic i s).
Proof.
  intros Hi Hc [He Hs Hl Ho]. destruct s as [env stack mem]. cbn in He, Hs, Hl, Ho.
  destruct i as [v|x|x|op| | | | | |l|l]; try done; cbn [check_instr] in Hc; cbn [basic sound Wasm.mem].
  - destruct (is_u32 v) eqn:Hv; [|done]. injection Hc as <-. cbn. apply andb_true_iff in Hv as [?%Z.leb_le ?%Z.ltb_lt].
    eexists. split; [done|]. split; [|done]. split; cbn; [done|lia|done|]. by constructor.
  - destruct (Nat.ltb_spec x n) as [Hx|]; [|done]. injection Hc as <-. rewrite <- He in Hx.
    destruct (lookup_lt_is_Some_2 _ _ Hx) as [v Hv]. rewrite Hv. cbn. eexists. split; [done|]. split; [|done].
    split; cbn; [done|lia|done|]. constructor; [|done]. exact (Forall_lookup_1 _ _ _ _ Hl Hv).
  - destruct (Nat.ltb_spec x n) as [Hx|]; [|done]. operands. destruct k; [lia|]. operands.
    rewrite He, (proj2 (Nat.ltb_lt _ _)) by lia. cbn. eexists. split; [done|]. split; [|done].
    split; cbn; [by rewrite length_insert|lia| |done]. by apply Forall_insert.
  - operands. destruct stack as [|b [|a stack]]; cbn in Hs; [lia..|]. operands. cbn. next.
  - destruct has_memory; [|done]. operands. destruct stack as [|a stack]; cbn in Hs; [lia|]. operands.
    destruct (load8 mem a) eqn:Hm; [|done]. cbn. next.
  - destruct has_memory; [|done]. operands. destruct stack as [|v [|a stack]]; cbn in Hs; [lia..|]. operands.
    destruct (store8 mem a v) eqn:Hm; [|done]. cbn. eexists. split; [done|].
    split; [split; cbn; done || lia|]. by eapply store8_length.
  - destruct (labels !! l) as [arity|] eqn:El; [|done]. cbn [mbind option_bind] in Hc. operands.
    exists arity, k. done.
  - destruct (labels !! l) as [arity|] eqn:El; [|done]. cbn [mbind option_bind] in Hc. operands.
    destruct stack as [|c stack]; cbn in Hs; [lia|]. operands. destruct (c =? 0); cbn.
    + next.
    + exists arity, (k - 1)%nat. split_and!; [done|lia| |done]. split; cbn; done || lia.
Qed.

Lemma fits_enter k s : fits n k s → fits n 0 (enter s).
Proof. intros []. by split. Qed.

Lemma fits_leave k k' s s' : fits n k s → fits n k' s' → fits n k (leave s s').
Proof. intros [] []. by split. Qed.

Lemma follow_sound labels h1 h len o next : sound labels h1 len o →
  (∀ k s, h1 = Known k → fits n k s → length s.(mem) = len → sound labels h len (next s)) →
  sound labels h len (follow o next).
Proof. destruct o as [s|l s|m| |]; try done. intros (k & -> & Hs & Hm) H. by eapply H. Qed.

Lemma after_body_sound labels h0 h k len o s next label : sound (0%nat :: labels) h0 len o → fits n k s →
  (∀ s, fits n k s → length s.(mem) = len → sound labels h len (next s) ∧ sound labels h len (label s)) →
  sound labels h len (after_body o s next label).
Proof.
  intros Ho Hs H. destruct o as [s'|[|l] s'|m| |]; try done; cbn [after_body].
  - destruct Ho as (k' & _ & Hs' & Hm). apply H; [|done]. by eapply fits_leave.
  - destruct Ho as (? & k' & _ & _ & Hs' & Hm). apply H; [|done]. by eapply fits_leave.
Qed.

(** A body that validates, and what it leaves to the code after it. *)
Lemma check_body labels body (h h1 : height) :
  (h' ← check has_memory n (0%nat :: labels) body (Known 0); if ends_with 0 h' then Some h else None) = Some h1 →
  h1 = h ∧ ∃ h', check has_memory n (0%nat :: labels) body (Known 0) = Some h'.
Proof.
  destruct (check _ _ _ body _) as [h'|]; [|done]. cbn [mbind option_bind].
  destruct (ends_with 0 h'); [|done]. intros [= <-]. eauto.
Qed.

(** Validation is sound: code that validates is never without a rule, keeps the sizes of the locals and of the
    memory and the heights of the operand stack, and leaves only by labels that are there. *)
Lemma exec_sound fuel labels code k h s : check has_memory n labels code (Known k) = Some h → fits n k s →
  sound labels h (length s.(mem)) (exec fuel code s).
Proof.
  revert labels code k h s. induction fuel as [|fuel IH]; intros labels code k h s Hc Hs; [done|].
  destruct code as [|i rest]; cbn [exec].
  { injection Hc as <-. by exists k. }
  pose proof Hc as Hcode. cbn [check] in Hc. fold (check has_memory n labels) in Hc.
  destruct (check_instr has_memory n labels i (Known k)) as [h1|] eqn:Hi; [|done]. cbn [mbind option_bind] in Hc.
  assert (Hn : ∀ len k1 s1, h1 = Known k1 → fits n k1 s1 → length s1.(mem) = len →
    sound labels h len (exec fuel rest s1)).
  { intros ? k1 s1 -> Hs1 <-. by eapply IH. }
  destruct i; try (eapply follow_sound; [by eapply basic_sound|by eauto]).
  - apply check_body in Hi as [-> (h' & Hb)]. eapply after_body_sound; [|exact Hs|].
    + apply (IH _ _ 0%nat h' (enter s)); [done|by eapply fits_enter].
    + intros s1 Hs1 Hm. split; by eapply Hn.
  - apply check_body in Hi as [-> (h' & Hb)]. eapply after_body_sound; [|exact Hs|].
    + apply (IH _ _ 0%nat h' (enter s)); [done|by eapply fits_enter].
    + intros s1 Hs1 Hm. split; [by eapply Hn|]. rewrite <- Hm. by eapply IH.
  - change (check_instr has_memory n labels (If body0) (Known k)) with
      (h ← popped 1 (Known k); h' ← check has_memory n (0%nat :: labels) body0 (Known 0);
       if ends_with 0 h' then Some h else None) in Hi.
    operands. destruct Hs as [He Hst Hl Ho]. destruct (stack s) as [|c below]; cbn in Hst; [lia|].
    apply check_body in Hi as [-> (h' & Hb)]. apply Forall_cons in Ho as [_ Ho].
    assert (Hs : fits n (k - 1) (State s.(env) below s.(mem))) by (split; cbn; done || lia).
    destruct (c =? 0); [by eapply Hn|]. eapply after_body_sound; [|exact Hs|].
    + apply (IH _ _ 0%nat h' (enter (State s.(env) below s.(mem)))); [done|by eapply fits_enter].
    + intros s1 Hs1 Hm. split; by eapply Hn.
Qed.
End soundness.

(** More fuel changes no result. *)
Lemma exec_more fuel : ∀ code s, exec fuel code s ≠ Fuel → exec (S fuel) code s = exec fuel code s.
Proof.
  induction fuel as [|fuel IH]; intros code s H; [done|].
  assert (Hf : ∀ o (next next' : state → outcome), (∀ s, next s ≠ Fuel → next' s = next s) →
    follow o next ≠ Fuel → follow o next' = follow o next).
  { intros [] next next' Hn Hne; try done. by apply Hn. }
  assert (Hb : ∀ body s outer (next next' label label' : state → outcome), (∀ s, next s ≠ Fuel → next' s = next s) →
    (∀ s, label s ≠ Fuel → label' s = label s) →
    after_body (exec fuel body s) outer next label ≠ Fuel →
    after_body (exec (S fuel) body s) outer next' label' = after_body (exec fuel body s) outer next label).
  { clear -IH. intros body s outer next next' label label' Hn Hl Hne.
    destruct (exec fuel body s) as [s'|[|l] s'|m| |] eqn:E; try done; rewrite IH, E by congruence; try done.
    - by apply Hn.
    - by apply Hl. }
  destruct code as [|i rest]; [done|].
  change (exec (S (S fuel)) (i :: rest) s) with
    (let next := exec (S fuel) rest in
     match i with
     | Block body => after_body (exec (S fuel) body (enter s)) s next next
     | Loop body => after_body (exec (S fuel) body (enter s)) s next (exec (S fuel) (i :: rest))
     | If body =>
       match s.(stack) with
       | c :: below =>
         let s := State s.(env) below s.(mem) in
         if c =? 0 then next s else after_body (exec (S fuel) body (enter s)) s next next
       | [] => Stuck
       end
     | _ => follow (basic i s) next
     end).
  cbn [exec] in H. cbv zeta in H |- *.
  destruct i.
  all: try (apply (Hf _ (exec fuel rest) (exec (S fuel) rest)); [apply IH|exact H]).
  - apply (Hb _ _ _ (exec fuel rest) (exec (S fuel) rest) (exec fuel rest)); [apply IH..|exact H].
  - apply (Hb _ _ _ (exec fuel rest) (exec (S fuel) rest) (exec fuel (Loop _ :: rest))); [apply IH..|exact H].
  - destruct (stack s) as [|c below] eqn:Es; [by cbn [exec]; rewrite Es|]. cbn [exec]. rewrite Es.
    destruct (c =? 0); [by apply IH|].
    apply (Hb _ _ _ (exec fuel rest) (exec (S fuel) rest) (exec fuel rest)); [apply IH..|exact H].
Qed.

Lemma exec_enough f fuel code s : (f <= fuel)%nat → exec f code s ≠ Fuel → exec fuel code s = exec f code s.
Proof.
  induction 1 as [|fuel _ IH]; [done|]. intros H. rewrite <- IH by done. apply exec_more. by rewrite IH.
Qed.

(** ** Calls of functions *)

(** A validated function on arguments of its type returns its results, or traps; it never goes wrong, and the
    memory keeps its size. *)
Lemma invoke_sound has_memory fuel f args m : valid_func has_memory f = true →
  length args = f.(params) → all_u32 args →
  match invoke fuel f args m with
  | Returned vs m' => length vs = f.(results) ∧ all_u32 vs ∧ length m' = length m
  | Trapped m' => length m' = length m
  | Wrong => False
  | Exhausted => True
  end.
Proof.
  unfold valid_func, invoke. intros Hv Hl Ha.
  destruct (check _ _ _ _ _) as [h|] eqn:E; [|done].
  assert (Hs : fits (f.(params) + f.(locals)) 0 (State (args ++ replicate f.(locals) 0) [] m)).
  { split; cbn; [by rewrite length_app, length_replicate, Hl|done| |done].
    apply Forall_app. split; [done|]. apply Forall_replicate. unfold in_range. lia. }
  pose proof (exec_sound has_memory _ fuel _ _ _ _ _ E Hs) as H.
  destruct (exec _ _ _) as [s|l s|m'| |]; cbn [sound finish] in H |- *; try done.
  - destruct H as (k & -> & [] & Hm). cbn in Hv. apply Nat.eqb_eq in Hv as ->.
    by rewrite (proj2 (Nat.eqb_eq _ _)).
  - destruct H as (arity & k & Hlab & Hk & [] & Hm). destruct l as [|l]; [|by destruct l].
    injection Hlab as <-. rewrite (proj2 (Nat.leb_le _ _)) by lia. split_and!; [|by apply Forall_take|done].
    rewrite length_take. lia.
Qed.

Lemma invoke_enough f fuel g args m : (f <= fuel)%nat → invoke f g args m ≠ Exhausted →
  invoke fuel g args m = invoke f g args m.
Proof.
  unfold invoke. intros Hf H. rewrite (exec_enough f fuel); [done|done|]. by intros E; rewrite E in H.
Qed.

(** ** One turn of the interpreter *)

Section turns.
Context (fuel : nat) (rest : list instr) (e st : list Z) (m : list byte).

Lemma exec_const n : exec (S fuel) (Const n :: rest) (State e st m) = exec fuel rest (State e (n :: st) m).
Proof. done. Qed.

Lemma exec_get x v : e !! x = Some v →
  exec (S fuel) (LocalGet x :: rest) (State e st m) = exec fuel rest (State e (v :: st) m).
Proof. intros H. cbn. by rewrite H. Qed.

Lemma exec_set x v : (x < length e)%nat →
  exec (S fuel) (LocalSet x :: rest) (State e (v :: st) m) = exec fuel rest (State (<[x := v]> e) st m).
Proof. intros H. cbn [exec basic follow]. by rewrite (proj2 (Nat.ltb_lt _ _)). Qed.

Lemma exec_binop op a b : exec (S fuel) (Binop op :: rest) (State e (b :: a :: st) m) =
  exec fuel rest (State e (eval_binop op a b :: st) m).
Proof. done. Qed.

Lemma exec_load a v : load8 m a = Some v →
  exec (S fuel) (Load8U :: rest) (State e (a :: st) m) = exec fuel rest (State e (v :: st) m).
Proof. intros H. cbn. by rewrite H. Qed.

Lemma exec_store a v m' : store8 m a v = Some m' →
  exec (S fuel) (Store8 :: rest) (State e (v :: a :: st) m) = exec fuel rest (State e st m').
Proof. intros H. cbn. by rewrite H. Qed.

Lemma exec_br_if l (b : bool) : exec (S fuel) (BrIf l :: rest) (State e (of_bool b :: st) m) =
  if b then Branch l (State e st m) else exec fuel rest (State e st m).
Proof. by destruct b. Qed.

Lemma exec_if body (b : bool) : exec (S fuel) (If body :: rest) (State e (of_bool b :: st) m) =
  if b then after_body (exec fuel body (State e [] m)) (State e st m) (exec fuel rest) (exec fuel rest)
  else exec fuel rest (State e st m).
Proof. by destruct b. Qed.

Lemma exec_block code s : exec (S fuel) (Block code :: rest) s =
  after_body (exec fuel code (enter s)) s (exec fuel rest) (exec fuel rest).
Proof. done. Qed.

Lemma exec_loop code s : exec (S fuel) (Loop code :: rest) s =
  after_body (exec fuel code (enter s)) s (exec fuel rest) (exec fuel (Loop code :: rest)).
Proof. done. Qed.

Lemma exec_nil s : exec (S fuel) [] s = Next s.
Proof. done. Qed.

Lemma after_label s e' st' m' next label :
  after_body (Branch 0 (State e' st' m')) s next label = label (State e' s.(stack) m').
Proof. done. Qed.

Lemma after_next s e' st' m' next label :
  after_body (Next (State e' st' m')) s next label = next (State e' s.(stack) m').
Proof. done. Qed.
End turns.
End Wasm.
