(* ===== verification/Wat.v ===== *)
(** The text format of WebAssembly, for the instructions of [Wasm.v]: from the text of a guest, as it stands in
    the source, to its module.  Bodies are in the flat style ([if ... end]) or folded ([(block ...)]), locals
    have names or numbers, and comments run from [;;] to the end of the line. *)
From S2P Require Import Prelude Text Wasm.

Module Wat.
Import Wasm.

(** ** Tokens *)

Inductive token :=
  | Open
  | Close
  | Atom (s : string)
  | Str (s : string).

Inductive lexing :=
  | Start
  | InAtom (s : string)
  | InStr (s : string)
  | Semicolon                (* one [;] is read *)
  | Comment.

Definition is_space (c : ascii) : bool :=
  Ascii.eqb c " " || Ascii.eqb c "010" || Ascii.eqb c "013" || Ascii.eqb c "009".

Definition snoc (s : string) (c : ascii) : string := (s ++ String c "")%string.

(** The token that a character is or begins, and the state after it. *)
Definition begin (c : ascii) : option (list token * lexing) :=
  if is_space c then Some ([], Start)
  else if Ascii.eqb c "(" then Some ([Open], Start)
  else if Ascii.eqb c ")" then Some ([Close], Start)
  else if Ascii.eqb c "034" then Some ([], InStr "")
  else if Ascii.eqb c ";" then Some ([], Semicolon)
  else Some ([], InAtom (String c "")).

Definition delimiter (c : ascii) : bool :=
  is_space c || Ascii.eqb c "(" || Ascii.eqb c ")" || Ascii.eqb c ";".

Definition advance (st : lexing) (c : ascii) : option (list token * lexing) :=
  match st with
  | Start => begin c
  | InAtom a =>
    if delimiter c then '(ts, st) ← begin c; Some (Atom a :: ts, st)
    else if Ascii.eqb c "034" then None else Some ([], InAtom (snoc a c))
  | InStr a =>
    if Ascii.eqb c "034" then Some ([Str a], Start)
    else if Ascii.eqb c "\" then None else Some ([], InStr (snoc a c))
  | Semicolon => if Ascii.eqb c ";" then Some ([], Comment) else None
  | Comment => Some ([], if Ascii.eqb c "010" then Start else Comment)
  end.

Fixpoint tokens (st : lexing) (s : string) : option (list token) :=
  match s with
  | EmptyString =>
    match st with
    | Start | Comment => Some []
    | InAtom a => Some [Atom a]
    | InStr _ | Semicolon => None
    end
  | String c s =>
    '(now, st) ← advance st c;
    later ← tokens st s;
    Some (now ++ later)
  end.

(** ** Instructions *)

Definition says (a word : string) : bool := String.eqb a word.

(** A local, by its name or its number. *)
Fixpoint index_of (names : list (option string)) (a : string) : option nat :=
  match names with
  | [] => None
  | Some n :: names => if String.eqb n a then Some O else S <$> index_of names a
  | None :: names => S <$> index_of names a
  end.

Definition is_name (a : string) : bool := String.prefix "$" a.

Definition local (names : list (option string)) (a : string) : option nat :=
  if is_name a then index_of names a
  else n ← parse_u64 a; if n <? Z.of_nat (length names) then Some (Z.to_nat n) else None.

Definition label (a : string) : option nat :=
  n ← parse_u64 a; if n <? 1000 then Some (Z.to_nat n) else None.

(** The value of an [i32] literal; a negative one stands for its two's complement. *)
Definition literal (a : string) : option Z :=
  match a with
  | String "-" a => n ← parse_u64 a; if n <=? 2 ^ 31 then Some (wrap (- n)) else None
  | _ => n ← parse_u64 a; if n <? 2 ^ 32 then Some n else None
  end.

(** An instruction without a body: its name and its immediate. *)
Definition plain (names : list (option string)) (op : string) (ts : list token) :
    option (instr * list token) :=
  let immediate (f : string → option instr) :=
    match ts with Atom a :: ts => i ← f a; Some (i, ts) | _ => None end in
  if says op "i32.const" then immediate (λ a, Const <$> literal a)
  else if says op "local.get" then immediate (λ a, LocalGet <$> local names a)
  else if says op "local.set" then immediate (λ a, LocalSet <$> local names a)
  else if says op "br" then immediate (λ a, Br <$> label a)
  else if says op "br_if" then immediate (λ a, BrIf <$> label a)
  else if says op "i32.add" then Some (Binop Add, ts)
  else if says op "i32.sub" then Some (Binop Sub, ts)
  else if says op "i32.eq" then Some (Binop Eq, ts)
  else if says op "i32.ge_s" then Some (Binop GeS, ts)
  else if says op "i32.load8_u" then Some (Load8U, ts)
  else if says op "i32.store8" then Some (Store8, ts)
  else None.

Definition structured (op : string) : option (list instr → instr) :=
  if says op "block" then Some Block else if says op "loop" then Some Loop
  else if says op "if" then Some If else None.

(** Instructions up to the [)] or [end] that closes them. *)
Fixpoint instrs (fuel : nat) (names : list (option string)) (ts : list token) :
    option (list instr * list token) :=
  match fuel with
  | O => None
  | S fuel =>
    match ts with
    | Open :: Atom op :: ts =>
      if says op "if" then None else
      con ← structured op;
      '(body, ts) ← instrs fuel names ts;
      match ts with
      | Close :: ts => '(rest, ts) ← instrs fuel names ts; Some (con body :: rest, ts)
      | _ => None
      end
    | Atom op :: ts' =>
      if says op "end" then Some ([], ts) else
      match structured op with
      | Some con =>
        '(body, ts) ← instrs fuel names ts';
        match ts with
        | Atom a :: ts =>
          if says a "end" then '(rest, ts) ← instrs fuel names ts; Some (con body :: rest, ts) else None
        | _ => None
        end
      | None =>
        '(i, ts) ← plain names op ts';
        '(rest, ts) ← instrs fuel names ts;
        Some (i :: rest, ts)
      end
    | [] | Close :: _ => Some ([], ts)
    | _ => None
    end
  end.

(** ** Modules *)

Definition export_of (ts : list token) : option string * list token :=
  match ts with
  | Open :: Atom kw :: Str name :: Close :: ts' =>
    if says kw "export" then (Some name, ts') else (None, ts)
  | _ => (None, ts)
  end.

(** The declared variables after [(param], [(result] or [(local]: one with a name, or any number without. *)
Fixpoint types (ts : list token) : option (list (option string) * list token) :=
  match ts with
  | Close :: ts => Some ([], ts)
  | Atom t :: ts => if says t "i32" then '(vs, ts) ← types ts; Some (None :: vs, ts) else None
  | _ => None
  end.

Definition variables (ts : list token) : option (list (option string) * list token) :=
  match ts with
  | Atom x :: ts' =>
    if is_name x then
      match ts' with
      | Atom t :: Close :: ts' => if says t "i32" then Some ([Some x], ts') else None
      | _ => None
      end
    else types ts
  | _ => types ts
  end.

Fixpoint declarations (fuel : nat) (kw : string) (ts : list token) :
    option (list (option string) * list token) :=
  match fuel with
  | O => None
  | S fuel =>
    match ts with
    | Open :: Atom a :: ts' =>
      if says a kw then
        '(vs, ts) ← variables ts'; '(vs', ts) ← declarations fuel kw ts; Some (vs ++ vs', ts)
      else Some ([], ts)
    | _ => Some ([], ts)
    end
  end.

Definition function (fuel : nat) (ts : list token) : option (func * list token) :=
  let '(name, ts) := export_of ts in
  '(ps, ts) ← declarations fuel "param" ts;
  '(rs, ts) ← declarations fuel "result" ts;
  '(ls, ts) ← declarations fuel "local" ts;
  '(code, ts) ← instrs fuel (ps ++ ls) ts;
  match ts with
  | Close :: ts => Some (Func name (length ps) (length rs) (length ls) code, ts)
  | _ => None
  end.

Definition linear_memory (ts : list token) : option (memory_type * list token) :=
  let '(name, ts) := export_of ts in
  match ts with
  | Atom n :: Close :: ts =>
    n ← parse_u64 n; if n <=? 65536 then Some (MemoryType name n, ts) else None
  | _ => None
  end.

(** The fields of a module, up to the end of the text. *)
Fixpoint fields (fuel : nat) (m : module) (ts : list token) : option module :=
  match fuel with
  | O => None
  | S fuel =>
    match ts with
    | [Close] => Some m
    | Open :: Atom kw :: ts =>
      if says kw "func" then
        '(f, ts) ← function fuel ts; fields fuel (Module_ m.(memory) (m.(funcs) ++ [f])) ts
      else if says kw "memory" then
        '(mem, ts) ← linear_memory ts;
        match m.(memory) with
        | None => fields fuel (Module_ (Some mem) m.(funcs)) ts
        | Some _ => None
        end
      else None
    | _ => None
    end
  end.

Definition parse (text : string) : option module :=
  ts ← tokens Start text;
  match ts with
  | Open :: Atom kw :: fs => if says kw "module" then fields (S (length ts)) (Module_ None []) fs else None
  | _ => None
  end.

(** A text that is read and validated. *)
Definition compile (text : string) : option module :=
  m ← parse text; if valid m then Some m else None.
End Wat.
