(* ===== verification/Guests.v ===== *)
(** The guests that the crate contains as text ([src/main.rs], [src/transform/mod.rs] and
    [src/tests/wasm_plugin_registry_test.rs]), compiled from that text and run inside [WasmTransformer].

    [wat_engine] is an engine for the WebAssembly of [Wasm.v].  A call runs at most [fuel] turns of the
    interpreter; the theorems say how much is enough. *)
From S2P Require Import Prelude Text F64 Event Json Reference Transform Wasm Wat.

(** ** The engine *)

Module WatEngine.
Import Wasm.

(** A store with its only instance. *)
Record store := Store { instance : module; data : list byte }.

Definition new (text : list byte) : Result module string :=
  match Wat.compile (of_bytes text) with Some m => Ok m | None => Err "failed to parse WebAssembly module"%string end.

Definition initial_memory (m : module) : list byte :=
  match m.(memory) with Some t => replicate (Z.to_nat (t.(pages) * page_size)) x00 | None => [] end.

Definition instantiate (m : module) : store := Store m (initial_memory m).

Definition exported (m : module) (name : string) (arity : nat) : Result func string :=
  match List.find (λ f, bool_decide (f.(export) = Some name)) m.(funcs) with
  | Some f =>
    if (f.(params) =? arity)%nat && (f.(results) =? 1)%nat then Ok f
    else Err ("function types incompatible: " ++ name)%string
  | None => Err ("failed to find function export " ++ name)%string
  end.

Definition call (fuel : nat) (s : store) (f : func) (args : list Z) : store * Result Z string :=
  match invoke fuel f (wrap <$> args) s.(data) with
  | Returned [v] m => (Store s.(instance) m, Ok (as_i32 v))
  | Returned _ m => (Store s.(instance) m, Err "unexpected results"%string)
  | Trapped m => (Store s.(instance) m, Err "wasm trap: out of bounds memory access"%string)
  | Wrong => (s, Err "invalid code"%string)
  | Exhausted => (s, Err "wasm trap: all fuel consumed by WebAssembly"%string)
  end.

Definition memory_named (s : store) (name : string) : option unit :=
  t ← s.(instance).(memory); if bool_decide (t.(mem_export) = Some name) then Some tt else None.

Definition fits (s : store) (off len : Z) : bool := off + len <=? mem_size s.(data).
End WatEngine.

Definition wat_engine (fuel : nat) : Wasmtime := {|
  wasm_error := string;
  wasm_error_msg s := s;
  wasm_error_to_string s := s;
  memory_error := unit;
  memory_error_to_string _ := "out of bounds memory access"%string;
  wasm_module := Wasm.module;
  module_new := WatEngine.new;
  wasm_store := WatEngine.store;
  instance_new m := Ok (WatEngine.instantiate m);
  func1 := Wasm.func;
  func2 := Wasm.func;
  memory := unit;
  get_func1 s name := WatEngine.exported s.(WatEngine.instance) name 1;
  get_func2 s name := WatEngine.exported s.(WatEngine.instance) name 2;
  get_memory := WatEngine.memory_named;
  call1 s f n := WatEngine.call fuel s f [n];
  call2 s f p n := WatEngine.call fuel s f [p; n];
  memory_write s _ off b :=
    if WatEngine.fits s off (Z.of_nat (length b))
    then (WatEngine.Store s.(WatEngine.instance) (Wasm.write s.(WatEngine.data) (Z.to_nat off) b), Ok tt)
    else (s, Err tt);
  memory_read s _ off n :=
    if WatEngine.fits s off n then Ok (Wasm.read s.(WatEngine.data) (Z.to_nat off) (Z.to_nat n)) else Err tt;
|}.

#[export] Instance wat_engine_laws fuel : WasmtimeLaws (wat_engine fuel).
Proof.
  refine {| memory_size := λ (s : @wasm_store (wat_engine fuel)) (_ : @memory (wat_engine fuel)),
              Wasm.mem_size s.(WatEngine.data) |}; cbn.
  - intros [inst m] _ off b H0 H. unfold WatEngine.fits. cbn in H |- *. rewrite (proj2 (Z.leb_le _ _)) by done.
    eexists. split; [done|]. cbn. unfold Wasm.mem_size in *.
    rewrite (proj2 (Z.leb_le _ _)); [by rewrite Nat2Z.id, Wasm.read_write by lia|].
    rewrite Wasm.write_length; lia.
  - intros s _ off b H. unfold WatEngine.fits. rewrite (proj2 (Z.leb_gt _ _)) by done. by eexists _, _.
  - intros s f a b s' n. unfold WatEngine.call, is_i32. repeat case_match; try done. intros [= <- <-].
    unfold as_i32. pose proof (Z.mod_pos_bound (z + 2 ^ 31) (2 ^ 32) ltac:(lia)). lia.
Defined.

Module Guests.
Import Wasm.

(** ** The texts *)

Definition quoted (s : string) : string := String "034" (s ++ String "034" "").
Definition nl : string := String "010" "".

(** The guest that [main] bundles. *)
Definition wat : string :=
  String.concat nl
    [""; "        (module";
     "          (memory (export " ++ quoted "memory" ++ ") 1)";
     "          (func (export " ++ quoted "alloc" ++ ") (param i32) (result i32)";
     "            i32.const 0";
     "          )";
     "          (func (export " ++ quoted "transform" ++ ") (param i32 i32) (result i32)";
     "            local.get 1";
     "          )";
     "        )";
     "    "]%string.

(** The guest of [test_wasm_inline_replace]. *)
Definition inline_replace_wat : string :=
  String.concat nl
    ["";
     "            (module";
     "              (memory (export " ++ quoted "memory" ++ ") 1)";
     "              (func (export " ++ quoted "alloc" ++ ") (param i32) (result i32)";
     "                i32.const 0";
     "              )";
     "              (func (export " ++ quoted "transform" ++ ") (param $ptr i32) (param $len i32) (result i32)";
     "                (local $i i32)";
     "                (local $end i32)";
     "                local.get $ptr";
     "                local.set $i";
     "                local.get $ptr";
     "                local.get $len";
     "                i32.add";
     "                i32.const 4";
     "                i32.sub";
     "                local.set $end";
     "                (block";
     "                  (loop";
     "                    local.get $i";
     "                    local.get $end";
     "                    i32.ge_s";
     "                    br_if 1";
     "                    ";
     "                    local.get $i";
     "                    i32.load8_u";
     "                    i32.const 117 ;; 'u'";
     "                    i32.eq";
     "                    if";
     "                      local.get $i";
     "                      i32.const 1";
     "                      i32.add";
     "                      i32.load8_u";
     "                      i32.const 115 ;; 's'";
     "                      i32.eq";
     "                      if";
     "                        local.get $i";
     "                        i32.const 2";
     "                        i32.add";
     "                        i32.load8_u";
     "                        i32.const 101 ;; 'e'";
     "                        i32.eq";
     "                        if";
     "                          local.get $i";
     "                          i32.const 3";
     "                          i32.add";
     "                          i32.load8_u";
     "                          i32.const 114 ;; 'r'";
     "                          i32.eq";
     "                          if";
     "                            local.get $i";
     "                            i32.const 4";
     "                            i32.add";
     "                            i32.load8_u";
     "                            i32.const 115 ;; 's'";
     "                            i32.eq";
     "                            if";
     "                              local.get $i";
     "                              i32.const 97 ;; 'a'";
     "                              i32.store8";
     "                              local.get $i";
     "                              i32.const 1";
     "                              i32.add";
     "                              i32.const 117 ;; 'u'";
     "                              i32.store8";
     "                              local.get $i";
     "                              i32.const 2";
     "                              i32.add";
     "                              i32.const 100 ;; 'd'";
     "                              i32.store8";
     "                              local.get $i";
     "                              i32.const 3";
     "                              i32.add";
     "                              i32.const 105 ;; 'i'";
     "                              i32.store8";
     "                              local.get $i";
     "                              i32.const 4";
     "                              i32.add";
     "                              i32.const 116 ;; 't'";
     "                              i32.store8";
     "                            end";
     "                          end";
     "                        end";
     "                      end";
     "                    end";
     "                    ";
     "                    local.get $i";
     "                    i32.const 1";
     "                    i32.add";
     "                    local.set $i";
     "                    br 0";
     "                  )";
     "                )";
     "                local.get $len";
     "              )";
     "            )";
     "        "]%string.

(** ** The modules *)

Definition compiled (text : string) : module :=
  Eval cbv beta in match Wat.compile text with Some m => m | None => Module_ None [] end.

Definition passthrough_module : module := Eval vm_compute in compiled wat.
Definition inline_replace : module := Eval vm_compute in compiled inline_replace_wat.

Definition main_function (m : module) : func :=
  match m.(funcs) with [_; f] => f | _ => Func None 0 0 0 [] end.

(** The function that replaces, and the body of its loop. *)
Definition replace_func : func := Eval vm_compute in main_function inline_replace.
Definition sweep : list instr := Eval vm_compute in
  match replace_func.(body) with [_; _; _; _; _; _; _; _; Block [Loop code]; _] => code | _ => [] end.

Lemma wat_compiles : WatEngine.new (as_bytes wat) = Ok passthrough_module.
Proof. by_eval. Qed.

Lemma inline_replace_compiles : WatEngine.new (as_bytes inline_replace_wat) = Ok inline_replace.
Proof. by_eval. Qed.

(** ** The bundled guest *)

Lemma signed_wrap n : is_i32 n → as_i32 (wrap n) = n.
Proof.
  unfold is_i32, as_i32, wrap. intros H. rewrite Zplus_mod_idemp_l, Z.mod_small; lia.
Qed.

Lemma bundled_passthrough fuel : (2 <= fuel)%nat →
  WasmTransformer.passthrough (W:=wat_engine fuel) (WasmTransformer.Mk (W:=wat_engine fuel) passthrough_module).
Proof.
  destruct fuel as [|[|fuel]]; [lia..|]. intros _.
  eexists (WatEngine.instantiate passthrough_module), _, _, tt. split_and!.
  - reflexivity.
  - reflexivity.
  - reflexivity.
  - reflexivity.
  - reflexivity.
  - intros [inst m] n. cbn. unfold WatEngine.call, invoke. cbn. done.
  - intros [inst m] p n Hn. cbn. unfold WatEngine.call, invoke. cbn. by rewrite signed_wrap.
Qed.

(** ** The guest that replaces *)

Definition users : list byte := as_bytes "users".
Definition audit : list byte := as_bytes "audit".

(** [replace] of all occurrences, from the left: [pending] is what is left of the current replacement. *)
Fixpoint replacing (pending l : list byte) : list byte :=
  match l with
  | [] => []
  | b :: l' =>
    match pending with
    | p :: pending => p :: replacing pending l'
    | [] =>
      if bool_decide (take 5 l = users)
      then match audit with p :: pending => p :: replacing pending l' | [] => l end
      else b :: replacing [] l'
    end
  end.

Definition replace (l : list byte) : list byte := replacing [] l.

Example replace_ex : of_bytes (replace (as_bytes "ususersers users use")) = "usauditers audit use"%string.
Proof. by_eval. Qed.

Section memory_at.
Context (pre l : list byte) (Hsmall : Z.of_nat (length pre + length l) < 2 ^ 31).

Lemma address k : (k <= length l)%nat →
  wrap (Z.of_nat (length pre) + Z.of_nat k) = Z.of_nat (length pre + k).
Proof. intros H. unfold wrap. rewrite Z.mod_small; lia. Qed.

Lemma load_at k b : l !! k = Some b →
  load8 (pre ++ l) (wrap (Z.of_nat (length pre) + Z.of_nat k)) = Some (byte_val b).
Proof.
  intros H. pose proof (lookup_lt_Some _ _ _ H). rewrite address by lia. unfold load8, mem_size.
  rewrite length_app, (proj2 (Z.ltb_lt _ _)), Nat2Z.id, lookup_app_r by lia.
  replace (length pre + k - length pre)%nat with k by lia. by rewrite H.
Qed.

Lemma store_at k v : (k < length l)%nat →
  store8 (pre ++ l) (wrap (Z.of_nat (length pre) + Z.of_nat k)) v = Some (pre ++ <[k := byte_of v]> l).
Proof.
  intros H. rewrite address by lia. unfold store8, mem_size.
  by rewrite length_app, (proj2 (Z.ltb_lt _ _)), Nat2Z.id, insert_app_r by lia.
Qed.
End memory_at.

Lemma load_here pre b l : Z.of_nat (length pre + S (length l)) < 2 ^ 31 →
  load8 (pre ++ b :: l) (Z.of_nat (length pre)) = Some (byte_val b).
Proof.
  intros H. etransitivity; [|by apply (load_at pre (b :: l) H 0)]. f_equal. rewrite (address pre (b :: l) H); [lia|cbn; lia].
Qed.

Lemma store_here pre b l v : Z.of_nat (length pre + S (length l)) < 2 ^ 31 →
  store8 (pre ++ b :: l) (Z.of_nat (length pre)) v = Some (pre ++ byte_of v :: l).
Proof.
  intros H. etransitivity; [|apply (store_at pre (b :: l) H 0); cbn; lia]. f_equal.
  rewrite (address pre (b :: l) H); [lia|cbn; lia].
Qed.

Lemma signed_small n : 0 <= n < 2 ^ 31 → signed n = n.
Proof. intros H. unfold signed. by rewrite (proj2 (Z.ltb_lt _ _)) by lia. Qed.

Ltac run := repeat first
  [ progress cbn [eval_binop] | rewrite exec_const | rewrite exec_binop | erewrite exec_get by reflexivity
  | rewrite exec_set by (cbn; lia) | rewrite exec_if | rewrite exec_br_if
  | erewrite exec_load by eassumption | erewrite exec_store by eassumption
  | rewrite exec_nil | rewrite after_next; cbn [stack] ].

Lemma is_byte b c : (byte_val b =? byte_val c) = bool_decide (b = c).
Proof.
  destruct (Z.eqb_spec (byte_val b) (byte_val c)) as [E|E]; symmetry.
  - apply bool_decide_true. by apply byte_val_inj.
  - apply bool_decide_false. by intros ->.
Qed.

Ltac differ Hno Hw :=
  rewrite Hno by (clear Hno; unfold users; cbn; congruence); run; rewrite Hw; reflexivity.

Lemma turn fuel ptr len e pre b0 b1 b2 b3 b4 rest : Z.of_nat (length pre) < e → e < 2 ^ 31 →
  Z.of_nat (length pre + (5 + length rest)) < 2 ^ 31 →
  exec (70 + fuel) sweep (State [ptr; len; Z.of_nat (length pre); e] [] (pre ++ b0 :: b1 :: b2 :: b3 :: b4 :: rest)) =
    Branch 0 (State [ptr; len; Z.of_nat (length pre) + 1; e] []
      (pre ++ (if bool_decide ([b0; b1; b2; b3; b4] = users) then audit else [b0; b1; b2; b3; b4]) ++ rest)).
Proof.
  intros H1 H2 H3.
  assert (Hw : wrap (Z.of_nat (length pre) + 1) = Z.of_nat (length pre) + 1) by (etransitivity; [apply (address pre (b0 :: b1 :: b2 :: b3 :: b4 :: rest) H3 1); cbn; lia|lia]).
  assert (Hno : [b0; b1; b2; b3; b4] ≠ users → bool_decide ([b0; b1; b2; b3; b4] = users) = false) by apply bool_decide_false.
  set (l := b0 :: b1 :: b2 :: b3 :: b4 :: rest).
  pose proof (load_here pre b0 (b1 :: b2 :: b3 :: b4 :: rest) H3). pose proof (load_at pre l H3 1 b1 eq_refl).
  pose proof (load_at pre l H3 2 b2 eq_refl). pose proof (load_at pre l H3 3 b3 eq_refl).
  pose proof (load_at pre l H3 4 b4 eq_refl). subst l.
  cbn [Nat.add]. unfold sweep. run. rewrite !signed_small, (proj2 (Z.leb_gt _ _)) by lia. run.
  change 117 with (byte_val x75). rewrite is_byte. destruct (bool_decide_reflect (b0 = x75)) as [->|E]; [|differ Hno Hw].
  change 115 with (byte_val x73). rewrite is_byte. destruct (bool_decide_reflect (b1 = x73)) as [->|E]; [|differ Hno Hw].
  change 101 with (byte_val x65). rewrite is_byte. destruct (bool_decide_reflect (b2 = x65)) as [->|E]; [|differ Hno Hw].
  change 114 with (byte_val x72). rewrite is_byte. destruct (bool_decide_reflect (b3 = x72)) as [->|E]; [|differ Hno Hw].
  rewrite is_byte. destruct (bool_decide_reflect (b4 = x73)) as [->|E]; [|differ Hno Hw].
  clear Hno. 
  pose proof (store_here pre x75 (x73 :: x65 :: x72 :: x73 :: rest) 97 H3).
  pose proof (store_at pre (x61 :: x73 :: x65 :: x72 :: x73 :: rest) H3 1 117 ltac:(cbn; lia)).
  pose proof (store_at pre (x61 :: x75 :: x65 :: x72 :: x73 :: rest) H3 2 100 ltac:(cbn; lia)).
  pose proof (store_at pre (x61 :: x75 :: x64 :: x72 :: x73 :: rest) H3 3 105 ltac:(cbn; lia)).
  pose proof (store_at pre (x61 :: x75 :: x64 :: x69 :: x73 :: rest) H3 4 116 ltac:(cbn; lia)).
  run. rewrite Hw. reflexivity.
Qed.

Lemma leave_loop fuel ptr len i e m : signed e <= signed i →
  exec (70 + fuel) sweep (State [ptr; len; i; e] [] m) = Branch 1 (State [ptr; len; i; e] [] m).
Proof. intros H. cbn [Nat.add]. unfold sweep. run. by rewrite (proj2 (Z.leb_le _ _) H). Qed.

Lemma signed_of_wrap n : is_i32 n → signed (wrap n) = n.
Proof.
  unfold is_i32, signed, wrap. intros H. destruct (Z.ltb_spec n 0).
  - rewrite <- (Z.mod_add n 1), Z.mod_small by lia. rewrite (proj2 (Z.ltb_ge _ _)) by lia. lia.
  - rewrite Z.mod_small by lia. by rewrite (proj2 (Z.ltb_lt _ _)) by lia.
Qed.

Lemma replacing_skip b l : take 5 (b :: l) ≠ users → replacing [] (b :: l) = b :: replacing [] l.
Proof. intros H. cbn [replacing]. by rewrite bool_decide_false. Qed.

Lemma replacing_users rest : replacing [] (users ++ rest) = audit ++ replacing [] rest.
Proof.
  change (users ++ rest) with (x75 :: [x73; x65; x72; x73] ++ rest). unfold replacing at 1. fold replacing.
  by rewrite bool_decide_true.
Qed.

Lemma replace_short l : (length l < 5)%nat → replace l = l.
Proof.
  unfold replace. induction l as [|b l IH]; [done|]. cbn [length]. intros H.
  rewrite replacing_skip, IH; [done|lia|]. intros E%(f_equal length). rewrite length_take in E.
  change (length users) with 5%nat in E. cbn [length] in E. lia.
Qed.

(** One turn of the loop is one step of [replace]. *)
Lemma replace_turn b0 b1 b2 b3 b4 rest :
  ∃ x t, (if bool_decide ([b0; b1; b2; b3; b4] = users) then audit else [b0; b1; b2; b3; b4]) ++ rest = x :: t ∧
    replace (b0 :: b1 :: b2 :: b3 :: b4 :: rest) = x :: replace t ∧ length t = (4 + length rest)%nat.
Proof.
  unfold replace. case_bool_decide as E.
  - injection E as -> -> -> -> ->. exists x61, (x75 :: x64 :: x69 :: x74 :: rest). split; [done|]. split; [|done].
    etransitivity; [apply (replacing_users rest)|]. symmetry.
    by rewrite !(replacing_skip _ (_ :: _)), (replacing_skip x74) by (unfold users; cbn; congruence).
  - exists b0, (b1 :: b2 :: b3 :: b4 :: rest). split; [done|]. split; [by rewrite replacing_skip|done].
Qed.

(** The loop is left when fewer than five bytes remain. *)
Lemma loop_ends fuel ptr len pre s post : (length s < 5)%nat → Z.of_nat (length pre + length s) < 2 ^ 31 →
  let e := wrap (Z.of_nat (length pre + length s) - 4) in
  exec (71 + fuel) [Loop sweep] (State [ptr; len; Z.of_nat (length pre); e] [] (pre ++ s ++ post)) =
    Branch 0 (State [ptr; len; Z.of_nat (length pre); e] [] (pre ++ replace s ++ post)).
Proof.
  intros H5 Hs e. replace (71 + fuel)%nat with (S (70 + fuel)) by lia. rewrite replace_short by done.
  rewrite exec_loop. unfold enter. cbn [env mem]. rewrite leave_loop; [done|].
  unfold e. rewrite signed_of_wrap by (unfold is_i32; lia). rewrite signed_small by lia. lia.
Qed.

Lemma sweep_loop n : ∀ fuel ptr len pre s post, length s = n →
  Z.of_nat (length pre + (length s + length post)) < 2 ^ 31 →
  let e := wrap (Z.of_nat (length pre + length s) - 4) in
  ∃ i, exec (71 + (n + fuel)) [Loop sweep] (State [ptr; len; Z.of_nat (length pre); e] [] (pre ++ s ++ post)) =
    Branch 0 (State [ptr; len; i; e] [] (pre ++ replace s ++ post)).
Proof.
  induction n as [|n IH]; intros fuel ptr len pre s post Hl Hsmall e.
  { exists (Z.of_nat (length pre)). apply loop_ends; lia. }
  destruct (Nat.ltb_spec (length s) 5) as [H5|H5].
  { exists (Z.of_nat (length pre)). apply loop_ends; lia. }
  destruct s as [|b0 [|b1 [|b2 [|b3 [|b4 rest]]]]]; cbn [length] in H5; [lia..|].
  destruct (replace_turn b0 b1 b2 b3 b4 rest) as (x & t & Ex & Er & Et). rewrite Er.
  destruct (IH fuel ptr len (pre ++ [x]) t post) as [i Hi].
  { cbn in Hl. lia. }
  { rewrite length_app. cbn [length] in *. lia. }
  exists i. replace (71 + (S n + fuel))%nat with (S (70 + S (n + fuel))) by lia.
  assert (Ee : wrap (Z.of_nat (length (pre ++ [x]) + length t) - 4) = e).
  { unfold e. do 2 f_equal. rewrite length_app. cbn [length] in *. lia. }
  rewrite Ee in Hi. rewrite <- !app_assoc in Hi.
  rewrite exec_loop. unfold enter. cbn [env mem]. change ((b0 :: b1 :: b2 :: b3 :: b4 :: rest) ++ post) with
    (b0 :: b1 :: b2 :: b3 :: b4 :: (rest ++ post)). rewrite turn.
  - rewrite after_label. cbn [stack]. rewrite (app_assoc _ rest post), Ex.
    replace (70 + S (n + fuel))%nat with (71 + (n + fuel))%nat by lia.
    replace (Z.of_nat (length pre) + 1) with (Z.of_nat (length (pre ++ [x]))) by (rewrite length_app; cbn; lia).
    exact Hi.
  - unfold e, wrap. cbn [length]. rewrite Z.mod_small by (cbn [length] in *; lia). lia.
  - unfold e, wrap. cbn [length] in *. rewrite Z.mod_small by lia. lia.
  - rewrite length_app. cbn [length] in *. lia.
Qed.

(** What the guest's [transform] does to the [len] bytes at [ptr]. *)
Lemma invoke_replace fuel pre s post : Z.of_nat (length pre + (length s + length post)) < 2 ^ 31 →
  invoke (80 + (length s + fuel)) replace_func [Z.of_nat (length pre); Z.of_nat (length s)] (pre ++ s ++ post) =
    Returned [Z.of_nat (length s)] (pre ++ replace s ++ post).
Proof.
  intros Hs. unfold invoke, replace_func. cbn [body locals results replicate app Nat.add].
  run. cbn [insert list_insert]. run. fold sweep. rewrite exec_block. unfold enter. cbn [env mem].
  replace (wrap (Z.of_nat (length pre) + Z.of_nat (length s))) with (Z.of_nat (length pre + length s))
    by (unfold wrap; rewrite Z.mod_small; lia).
  destruct (sweep_loop (length s) fuel (Z.of_nat (length pre)) (Z.of_nat (length s)) pre s post eq_refl Hs) as [i Hi].
  cbn [Nat.add] in Hi. rewrite Hi, after_label. by run.
Qed.

Lemma replacing_length p l : length (replacing p l) = length l.
Proof.
  revert p. induction l as [|b l IH]; intros p; [done|]. cbn [replacing].
  destruct p as [|c p]; [|by cbn; rewrite IH]. destruct (bool_decide _); cbn; by rewrite IH.
Qed.

Lemma replace_length l : length (replace l) = length l.
Proof. apply replacing_length. Qed.

(** A byte of the result that is not the first one of a replacement is a byte of the text. *)
Lemma replacing_head l b t : replacing [] l = b :: t → b ≠ x61 → ∃ l', l = b :: l' ∧ t = replacing [] l'.
Proof.
  destruct l as [|c l]; [done|]. cbn [replacing]. destruct (bool_decide _); cbn [audit as_bytes list_byte_of_string].
  - by intros [= <- <-].
  - intros [= -> <-] _. by eexists.
Qed.

Lemma replacing_clean l : take 5 (replacing [] l) ≠ users.
Proof.
  destruct l as [|b l]; [done|]. intros H. cbn [replacing] in H. destruct (bool_decide_reflect (take 5 (b :: l) = users)) as [E|E].
  - cbn in H. by destruct l.
  - apply E. clear E. change (b :: take 4 (replacing [] l) = users) in H. injection H as -> H.
    change (x75 :: take 4 l = users). unfold users. cbn. f_equal.
    assert (G : ∀ k bs m, take k (replacing [] m) = bs → x61 ∉ bs → length bs = k → take k m = bs).
    { clear. induction k as [|k IH]; intros bs m H Hin Hl; [by destruct bs|].
      destruct bs as [|b bs]; [done|]. destruct (replacing [] m) as [|c t] eqn:E; [done|]. injection H as -> H.
      apply replacing_head in E as (m' & -> & ->); [|intros ->; apply Hin; left]. cbn. f_equal.
      apply IH; [done| |by injection Hl]. intros Hb. apply Hin. by right. }
    apply G; [done| |done]. by apply (bool_decide_unpack _).
Qed.

(** No occurrence is left. *)
Lemma replace_clean l i : take 5 (drop i (replace l)) ≠ users.
Proof.
  assert (G : ∀ l p i, (∃ k, p = drop k audit) → take 5 (drop i (replacing p l)) ≠ users).
  { clear. induction l as [|b l IH]; intros p i [k Hp]; [by destruct i|]. destruct i as [|i].
    - rewrite drop_0. destruct p as [|c p]; [apply replacing_clean|]. cbn [replacing]. intros H.
      change (c :: take 4 (replacing p l) = users) in H. injection H as -> H.
      destruct k as [|[|[|[|[|k]]]]]; try done; [|by destruct k]. injection Hp as ->. by destruct l.
    - cbn [replacing]. destruct p as [|c p].
      + destruct (bool_decide _); apply IH; [by exists 1%nat|by exists 5%nat].
      + apply IH. exists (k + 1)%nat. by rewrite <- drop_drop, <- Hp. }
  apply G. by exists 5%nat.
Qed.

Section transform.
Context `{J : SerdeJson}.

Definition replacer (fuel : nat) : WasmTransformer.t (wat_engine fuel) :=
  WasmTransformer.Mk (W:=wat_engine fuel) inline_replace.

Lemma initial_length : mem_size (WatEngine.initial_memory inline_replace) = page_size.
Proof. unfold mem_size, WatEngine.initial_memory. cbn [memory inline_replace pages]. rewrite length_replicate. done. Qed.

Lemma replace_call fuel inst raw post : Z.of_nat (length raw + length post) < 2 ^ 31 →
  (80 + length raw <= fuel)%nat →
  WatEngine.call fuel (WatEngine.Store inst (raw ++ post)) replace_func [0; Z.of_nat (length raw)] =
    (WatEngine.Store inst (replace raw ++ post), Ok (Z.of_nat (length raw))).
Proof.
  intros Hs Hf. unfold WatEngine.call. cbn [fmap list_fmap WatEngine.data WatEngine.instance].
  assert (Hw : wrap (Z.of_nat (length raw)) = Z.of_nat (length raw)) by (unfold wrap; rewrite Z.mod_small; lia).
  pose proof (invoke_replace (fuel - (80 + length raw)) [] raw post Hs) as H.
  cbn [length app] in H. change (Z.of_nat 0) with 0 in H.
  replace (80 + (length raw + (fuel - (80 + length raw))))%nat with fuel in H by lia.
  rewrite Hw. change (wrap 0) with 0. rewrite H, WasmTransformer.as_i32_small by lia. done.
Qed.

Lemma write_start m b : write m 0 b = b ++ drop (length b) m.
Proof. done. Qed.

Lemma replacer_transform (fuel : nat) (event : ChangeEvent) (raw : list byte) :
  event_to_vec event = Ok raw → Z.of_nat (length raw) < 2 ^ 31 → (80 + length raw <= fuel)%nat →
  WasmTransformer.transform (replacer fuel) event =
    if Z.of_nat (length raw) <=? WasmTransformer.page_size
    then Ret (try WasmTransformer.Serialization (event_from_slice (replace raw)) Ok)
    else Ret (Err (WasmTransformer.MemoryAccess (W:=wat_engine fuel) tt)).
Proof.
  intros Hraw Hlen Hfuel.
  unfold WasmTransformer.transform. set (s0 := WatEngine.instantiate inline_replace).
  rewrite (WasmTransformer.call_guest_at_0 (W:=wat_engine fuel) _ event raw s0 s0
    (Func (Some "alloc"%string) 1 1 0 [Const 0]) replace_func tt); try done.
  2: { destruct fuel as [|[|fuel]]; [lia..|]. done. }
  cbn [memory_write wat_engine WatEngine.data]. unfold WatEngine.fits.
  change (mem_size (WatEngine.data s0)) with (mem_size (WatEngine.initial_memory inline_replace)).
  rewrite initial_length. change (0 + Z.of_nat (length raw)) with (Z.of_nat (length raw)).
  change WasmTransformer.page_size with page_size.
  destruct (Z.leb_spec (Z.of_nat (length raw)) page_size) as [Hl|Hl]; [|done].
  cbn [try]. change (Z.to_nat 0) with 0%nat. rewrite write_start. set (post := drop (length raw) (WatEngine.data s0)).
  assert (Hpost : Z.of_nat (length raw + length post) = page_size).
  { rewrite <- initial_length. unfold mem_size, post. rewrite length_drop.
    change (WatEngine.data s0) with (WatEngine.initial_memory inline_replace).
    pose proof initial_length as Hi. unfold mem_size in Hi. lia. }
  cbn [call2 wat_engine]. rewrite replace_call by (done || (rewrite Hpost; done)). cbn [try].
  apply WasmTransformer.read_result_at_0; [lia|]. cbn [memory_read wat_engine WatEngine.data]. unfold WatEngine.fits, mem_size.
  cbn [WatEngine.data]. rewrite length_app, replace_length, Hpost, (proj2 (Z.leb_le _ _)) by lia.
  rewrite Nat2Z.id. unfold read. change (Z.to_nat 0) with 0%nat. rewrite drop_0, <- (replace_length raw).
  by rewrite take_app_length.
Qed.
Definition bundled (fuel : nat) : WasmTransformer.t (wat_engine fuel) :=
  WasmTransformer.Mk (W:=wat_engine fuel) passthrough_module.

(** C23. The guest that [main] bundles, compiled from its text, hands the JSON text back: for every event whose JSON
    (below 2 GiB) fits in the 65536 bytes of its memory, [transform] returns what the JSON library reads
    from the text it has printed of the event, or its parse error; for a longer one an error, never a
    truncated event.  So an event comes back unchanged if it is one that the library reads back as it
    printed it, by its documented round trip: no float among its numbers, no payload [Some(Null)], valid
    UTF-8, nesting within the limit of the parser ([plain_event]); of other events this is not claimed
    ([Some(Null)] comes back as [None]).  Two turns of the interpreter are enough for each call. *)
Theorem bundled_guest (fuel : nat) (event : ChangeEvent) (raw : list byte)
    (Hfuel : (2 <= fuel)%nat) (Hraw : event_to_vec event = Ok raw) (Hlen : Z.of_nat (length raw) < 2 ^ 31) :
  WasmTransformer.new (W:=wat_engine fuel) (as_bytes wat) = Ok (bundled fuel) ∧
  (if Z.of_nat (length raw) <=? WasmTransformer.page_size
   then WasmTransformer.transform (bundled fuel) event =
     Ret (try WasmTransformer.Serialization (event_from_slice raw) Ok)
   else ∃ e, WasmTransformer.transform (bundled fuel) event = Ret (Err (WasmTransformer.MemoryAccess e))) ∧
  (SerdeJsonLaws J → plain_event event = true → Z.of_nat (length raw) <= WasmTransformer.page_size →
   WasmTransformer.transform (bundled fuel) event = Ret (Ok event)).
Proof.
  pose proof (bundled_passthrough fuel Hfuel) as Hg. split_and!.
  - unfold WasmTransformer.new. change (module_new (Wasmtime:=wat_engine fuel)) with WatEngine.new. by rewrite wat_compiles.
  - destruct (Z.leb_spec (Z.of_nat (length raw)) WasmTransformer.page_size) as [Hl|Hl].
    + by apply WasmTransformer.passthrough_reparse.
    + by apply (WasmTransformer.passthrough_too_long (bundled fuel) event raw).
  - intros JL Hp Hl. by apply (WasmTransformer.passthrough_transform (bundled fuel) event raw).
Qed.

(** C24. The guest of the test rewrites the text: compiled from its WAT, it replaces each occurrence of [users] in
    the JSON of the event (below 2 GiB) by [audit] and leaves none; for an event that fits in its memory and
    [80] turns more than there are bytes, the host gets the event that the replaced text denotes, or its parse
    error; an event that does not fit is an error. *)
Theorem inline_replace_transform (fuel : nat) (event : ChangeEvent) (raw : list byte)
    (Hraw : event_to_vec event = Ok raw) (Hlen : Z.of_nat (length raw) < 2 ^ 31)
    (Hfuel : (80 + length raw <= fuel)%nat) :
  WasmTransformer.new (W:=wat_engine fuel) (as_bytes inline_replace_wat) = Ok (replacer fuel) ∧
  WasmTransformer.transform (replacer fuel) event =
    (if Z.of_nat (length raw) <=? WasmTransformer.page_size
     then Ret (try WasmTransformer.Serialization (event_from_slice (replace raw)) Ok)
     else Ret (Err (WasmTransformer.MemoryAccess (W:=wat_engine fuel) tt))) ∧
  ∀ i, take 5 (drop i (replace raw)) ≠ users.
Proof.
  split; [|split; [by apply replacer_transform|apply replace_clean]].
  unfold WasmTransformer.new. change (module_new (Wasmtime:=wat_engine fuel)) with WatEngine.new.
  by rewrite inline_replace_compiles.
Qed.
End transform.
End Guests.

(** ** The guests on which the witnesses run *)

Abbreviation page_engine := (wat_engine 2).

Definition guest_module : WasmTransformer.t page_engine :=
  WasmTransformer.Mk (W:=page_engine) Guests.passthrough_module.

Lemma guest_module_passthrough : WasmTransformer.passthrough (W:=page_engine) guest_module.
Proof. by apply Guests.bundled_passthrough. Qed.

Definition wasm_event : ChangeEvent :=
  MkEvent "evt-123" "caminus_db" "users" Create 7 (json_object [("id", VNumber (PosInt 1))]) None
    (Some (json_object [("id", VNumber (PosInt 1)); ("name", VString "John")])) None "1".

Lemma bundled_guest_witness :
  WasmTransformer.transform (J:=tree_json) (Guests.bundled 2) wasm_event = Ret (Ok wasm_event).
Proof.
  destruct (Guests.bundled_guest (J:=tree_json) 2 wasm_event (tree_bytes (event_tree wasm_event))) as (_ & _ & H);
    [done | reflexivity | vm_compute; reflexivity |].
  apply (H _); [vm_compute; reflexivity|]. apply Z.leb_le. vm_compute. reflexivity.
Defined.

(** A payload that is [Some(Null)] is gone after the guest. *)
Lemma null_payload_lost :
  WasmTransformer.transform (J:=text_json) (Guests.bundled 2) (with_after wasm_event (Some VNull)) =
    Ret (Ok (with_after wasm_event None)).
Proof. by_eval. Qed.

(** The event of [test_wasm_inline_replace]. *)
Definition users_event (table : string) : ChangeEvent :=
  MkEvent "evt-123" "caminus_db" table Create 7 (json_object [("id", VNumber (PosInt 1))]) None
    (Some (json_object [("id", VNumber (PosInt 1)); ("name", VString "John")])) None "1".

Lemma inline_replace_transform_witness :
  WasmTransformer.transform (J:=text_json) (Guests.replacer 1000) (users_event "users") =
    Ret (Ok (users_event "audit")).
Proof.
  destruct (Guests.inline_replace_transform (J:=text_json) 1000 (users_event "users")
    (as_bytes (Json.print_event (T:=Json.nanos_text) (users_event "users")))) as (_ & H & _).
  - reflexivity.
  - vm_compute. reflexivity.
  - apply Nat.leb_le. vm_compute. reflexivity.
  - etransitivity; [exact H|]. by_eval.
Defined.

Definition panics {T} (o : Outcome T) : bool := match o with Ret _ => false | Panic => true end.

(** Decides by evaluation that a concrete call does not panic. *)
Ltac no_panic :=
  let E := fresh in intros E; apply (f_equal panics) in E; vm_compute in E; discriminate E.

(** A guest that returns -1 kills its host. *)
Definition negative_wat : string :=
  String.concat Guests.nl
    ["(module (memory (export " ++ Guests.quoted "memory" ++ ") 1)";
     "  (func (export " ++ Guests.quoted "alloc" ++ ") (param i32) (result i32) i32.const 0)";
     "  (func (export " ++ Guests.quoted "transform" ++ ") (param i32 i32) (result i32) i32.const -1))"]%string.

Example negative_guest_panics :
  (t ← ok_val (WasmTransformer.new (J:=tree_json) (W:=page_engine) (as_bytes negative_wat));
   Some (panics (WasmTransformer.transform (J:=tree_json) t wasm_event))) = Some true.
Proof. vm_compute. reflexivity. Qed.
