(* ===== verification/Source.v ===== *)
(** The sources ([src/source/mod.rs], [src/source/postgres.rs], [src/source/cassandra.rs]): retries with
    exponential backoff and jitter, the resumption offset, and the two simulated change streams.

    The clock and the results of the connection attempts are arguments.  [DateTime::to_rfc3339] of the
    crate [chrono] is a parameter. *)
From S2P Require Import Prelude Text F64 Event Clock Buffer.

(** ** [retry_with_backoff] *)

Section retry.
Context {T E : Type}.

(** [0.75 + ((seed % 1000) as f64 / 2000.0)] *)
Definition jitter (seed : Z) : f64 :=
  f64_add (f64_div (f64_of_Z 3) (f64_of_Z 4)) (f64_div (f64_of_Z (seed mod 1000)) (f64_of_Z 2000)).

(** [timestamp_nanos_opt().unwrap_or(42) as u64] *)
Definition seed_of (nanos : option Z) : Z := default 42 nanos mod 2 ^ 64.

(** The two multiplications of a failed attempt: the sleep and the next delay. *)
Definition backoff (delay : Z) (seed : Z) (multiplier : f64) (max_delay : Z) : Outcome (Z * Z) :=
  current_delay ← mul_f64 delay (jitter seed);
  next ← mul_f64 delay multiplier;
  Ret (current_delay, Z.min next max_delay).

(** The loop: [f i] is the result of the call number [i] (from 0) and [nanos i] the clock after it; the
    sleeps are collected.  [None] when [fuel] turns are not enough. *)
Fixpoint retry_loop (fuel : nat) (f : nat → Result T E) (nanos : nat → option Z)
    (max_attempts : nat) (multiplier : f64) (max_delay : Z) (attempt : nat) (delay : Z)
    (sleeps : list Z) : option (Outcome (Result T E * list Z)) :=
  match fuel with
  | O => None
  | S fuel' =>
    match f attempt with
    | Ok val => Some (Ret (Ok val, sleeps))
    | Err err =>
      if (max_attempts <=? S attempt)%nat then Some (Ret (Err err, sleeps))
      else match backoff delay (seed_of (nanos attempt)) multiplier max_delay with
           | Panic => Some Panic
           | Ret (current_delay, delay') =>
             retry_loop fuel' f nanos max_attempts multiplier max_delay (S attempt) delay'
               (sleeps ++ [current_delay])
           end
    end
  end.

Definition retry_with_backoff (fuel : nat) (f : nat → Result T E) (nanos : nat → option Z)
    (max_attempts : nat) (initial_delay : Z) (multiplier : f64) (max_delay : Z) :
    option (Outcome (Result T E * list Z)) :=
  retry_loop fuel f nanos max_attempts multiplier max_delay 0 initial_delay [].

(** *** Specification: the first success of [n] attempts, else the last error, with the number of
    attempts that failed before it. *)
Fixpoint first_result (f : nat → Result T E) (n i : nat) : Result T E * nat :=
  match n, f i with
  | S (S _ as n'), Err _ => let '(r, k) := first_result f n' (S i) in (r, S k)
  | _, r => (r, 0%nat)
  end.
End retry.

(** The parameters both sources use: 5 attempts, 50 ms doubled up to 500 ms. *)
Definition max_attempts : nat := 5.
Definition initial_delay : Z := from_millis 50.
Definition multiplier : f64 := f64_of_Z 2.
Definition max_delay : Z := from_millis 500.

(** ** The sources *)

Module PostgresSource.

Record t := Mk { connection_string : string; slot_name : string; publication : string }.

Definition new (connection_string slot_name publication : string) : t :=
  Mk connection_string slot_name publication.

Inductive PostgresSourceError :=
  | Connection (s : string)
  | Slot (s : string)
  | Parse (s : string).

(** The attempt number [i] of a call of [start_stream], when the static counter holds [attempts]. *)
Definition make_conn (attempts : Z) (i : nat) : Result unit PostgresSourceError :=
  if (attempts + Z.of_nat i) mod 2 ^ 64 <? 2
  then Err (Connection "Simulated Postgres database outage") else Ok tt.

(** The position a stream starts after. *)
Definition start_seq (start_offset : option string) : Z := default 0 (start_offset ≫= parse_u64).

(** The connection, then the position of the stream; with the sleeps of the retries. *)
Definition start_stream (attempts : Z) (nanos : nat → option Z) (start_offset : option string) :
    option (Outcome (Result Z PostgresSourceError * list Z)) :=
  o ← retry_with_backoff 5 (make_conn attempts) nanos max_attempts initial_delay multiplier max_delay;
  Some (r ← o; let '(r, sleeps) := r in Ret (try same r (λ _, Ok (start_seq start_offset)), sleeps)).

(** One turn of [stream::unfold]: the event and the next position. *)
Definition next_event (p : Profile) (seq now : Z) : Outcome (ChangeEvent * Z) :=
  next_seq ← add_w 64 p seq 1;
  before_seq ← sub_w 64 p next_seq 1;
  tx_cycle ← add_w 64 p (before_seq / 4) 1000;
  let is_commit := next_seq mod 4 =? 0 in
  let op := if is_commit then Commit else if next_seq mod 4 =? 1 then Create else Update in
  Ret (MkEvent ("pg-evt-" ++ display_u64 next_seq) "caminus_db" "users" op now
         (json_object [("id", VNumber (PosInt next_seq))]) None
         (if is_commit then None
          else Some (json_object
                 [("id", VNumber (PosInt next_seq));
                  ("name", VString ("User " ++ display_u64 next_seq));
                  ("email", VString ("user" ++ display_u64 next_seq ++ "@caminus.io"))]))
         (Some ("tx-" ++ display_u64 tx_cycle)) (display_u64 next_seq), next_seq)%string.

(** The stream after position [seq], one event per clock reading. *)
Fixpoint stream (p : Profile) (seq : Z) (clock : list Z) : Outcome (list ChangeEvent) :=
  match clock with
  | [] => Ret []
  | now :: clock' =>
    r ← next_event p seq now;
    let '(e, seq') := r in
    es ← stream p seq' clock'; Ret (e :: es)
  end.
End PostgresSource.

Module CassandraSource.
Section cassandra.
Context (to_rfc3339 : Z → string).

Record t := Mk { cdc_directory : string }.

Definition new (cdc_directory : string) : t := Mk cdc_directory.

Inductive CassandraSourceError :=
  | DirectoryAccess (s : string)
  | CommitLogParse (s : string).

Definition make_conn (attempts : Z) (i : nat) : Result unit CassandraSourceError :=
  if (attempts + Z.of_nat i) mod 2 ^ 64 <? 2
  then Err (DirectoryAccess "Simulated Cassandra CommitLog folder lock error") else Ok tt.

Definition start_pos (start_offset : option string) : Z := default 0 (start_offset ≫= parse_u64).

Definition start_stream (attempts : Z) (nanos : nat → option Z) (start_offset : option string) :
    option (Outcome (Result Z CassandraSourceError * list Z)) :=
  o ← retry_with_backoff 5 (make_conn attempts) nanos max_attempts initial_delay multiplier max_delay;
  Some (r ← o; let '(r, sleeps) := r in Ret (try same r (λ _, Ok (start_pos start_offset)), sleeps)).

Definition sensor (next_pos : Z) : Value := VString ("sensor-" ++ display_u64 (next_pos mod 10)).

(** [20.0 + (next_pos as f64) * 0.1] *)
Definition reading_value (next_pos : Z) : f64 :=
  f64_add (f64_of_Z 20) (f64_mul (f64_of_Z next_pos) (f64_div (f64_of_Z 1) (f64_of_Z 10))).

(** [now] and [now'] are the two readings of the clock. *)
Definition next_event (p : Profile) (pos now now' : Z) : Outcome (ChangeEvent * Z) :=
  next_pos ← add_w 64 p pos 1;
  Ret (MkEvent ("cas-evt-" ++ display_u64 next_pos) "caminus_keyspace" "sensor_readings" Create now
         (json_object [("sensor_id", sensor next_pos); ("timestamp", VString (to_rfc3339 now'))]) None
         (Some (json_object [("sensor_id", sensor next_pos);
                             ("reading_value", VNumber (Float (reading_value next_pos)));
                             ("status", VString "OK")]))
         None (display_u64 next_pos), next_pos)%string.

Fixpoint stream (p : Profile) (pos : Z) (clock : list (Z * Z)) : Outcome (list ChangeEvent) :=
  match clock with
  | [] => Ret []
  | (now, now') :: clock' =>
    r ← next_event p pos now now';
    let '(e, pos') := r in
    es ← stream p pos' clock'; Ret (e :: es)
  end.
End cassandra.
End CassandraSource.

(** ** Specification *)

(** The nominal delay before the attempt number [S i]. *)
Definition delay_at (i : nat) : Z := Z.min (initial_delay * 2 ^ Z.of_nat i) max_delay.

(** The sleep is within a quarter of the nominal delay. *)
Definition sleep_ok (i : nat) (d : Z) : Prop := 3 * delay_at i <= 4 * d < 5 * delay_at i.

(** The event number [n] of the PostgreSQL stream, from 1. *)
Definition source_event (n now : Z) : ChangeEvent :=
  let num := display_u64 n in
  MkEvent ("pg-evt-" ++ num)%string "caminus_db" "users"
    (if n mod 4 =? 0 then Commit else if n mod 4 =? 1 then Create else Update) now
    (json_object [("id", VNumber (PosInt n))]) None
    (if n mod 4 =? 0 then None
     else Some (json_object
            [("id", VNumber (PosInt n)); ("name", VString ("User " ++ num)%string);
             ("email", VString ("user" ++ num ++ "@caminus.io")%string)]))
    (Some ("tx-" ++ display_u64 ((n - 1) / 4 + 1000))%string) num.

Fixpoint pg_events (seq : Z) (clock : list Z) : list ChangeEvent :=
  match clock with [] => [] | now :: clock' => source_event (seq + 1) now :: pg_events (seq + 1) clock' end.

Definition is_mutation (e : ChangeEvent) : bool := negb (bool_decide (e.(operation) = Commit)).

(** ** Lemmas *)

(** Every jitter, on every delay the sources reach. *)
Definition jitter_ok (ds : list (Z * f64)) (k : Z) : bool :=
  let j := jitter k in
  forallb (λ '(d, s), match from_secs_f64 (f64_mul j s) with
                      | Ret cd => (3 * d <=? 4 * cd) && (4 * cd <? 5 * d)
                      | Panic => false
                      end) ds.

Definition delays : list Z := from_millis <$> [50; 100; 200; 400].

Lemma jitter_all :
  forallb (jitter_ok ((λ d, (d, as_secs_f64 d)) <$> delays)) (Z.of_nat <$> seq 0 1000) = true.
Proof. vm_compute. reflexivity. Qed.

Lemma delay_at_elem i : (i < 4)%nat → delay_at i ∈ delays.
Proof.
  intros Hi. apply (bool_decide_unpack _).
  destruct i as [|[|[|[|i]]]]; [vm_compute; exact I..|lia].
Qed.

Lemma jitter_mod seed : jitter seed = jitter (seed mod 1000).
Proof. unfold jitter. by rewrite Z.mod_mod. Qed.

Lemma jitter_sleep i seed : (i < 4)%nat → ∃ cd, mul_f64 (delay_at i) (jitter seed) = Ret cd ∧ sleep_ok i cd.
Proof.
  intros Hi. rewrite jitter_mod. pose proof (Z.mod_pos_bound seed 1000 ltac:(lia)).
  pose proof jitter_all as H'. rewrite forallb_forall in H'.
  specialize (H' (seed mod 1000)). rewrite <- list_elem_of_In in H'.
  assert (Hin : seed mod 1000 ∈ (Z.of_nat <$> seq 0 1000)).
  { apply list_elem_of_fmap. exists (Z.to_nat (seed mod 1000)). split; [lia|]. apply elem_of_seq. lia. }
  specialize (H' Hin). unfold jitter_ok in H'. rewrite forallb_forall in H'.
  specialize (H' (delay_at i, as_secs_f64 (delay_at i))). cbn beta iota in H'.
  rewrite <- list_elem_of_In in H'. unfold mul_f64, sleep_ok.
  assert (Hd : (delay_at i, as_secs_f64 (delay_at i)) ∈ (λ d, (d, as_secs_f64 d)) <$> delays).
  { apply list_elem_of_fmap. exists (delay_at i). split; [done|]. by apply delay_at_elem. }
  specialize (H' Hd). destruct (from_secs_f64 _) as [cd|]; [|done]. exists cd. split; [done|].
  apply andb_true_iff in H' as [?%Z.leb_le ?%Z.ltb_lt]. done.
Qed.

Lemma delay_doubles i : (i < 4)%nat →
  ∃ next, mul_f64 (delay_at i) multiplier = Ret next ∧ Z.min next max_delay = delay_at (S i).
Proof.
  intros Hi. exists (match mul_f64 (delay_at i) multiplier with Ret n => n | Panic => 0 end).
  destruct i as [|[|[|[|i]]]]; [vm_compute; done..|lia].
Qed.

Lemma backoff_step i seed : (i < 4)%nat →
  ∃ cd, backoff (delay_at i) seed multiplier max_delay = Ret (cd, delay_at (S i)) ∧ sleep_ok i cd.
Proof.
  intros Hi. destruct (jitter_sleep i seed Hi) as (cd & E & Hcd).
  destruct (delay_doubles i Hi) as (next & En & Hn). exists cd. split; [|done].
  unfold backoff. by rewrite E, En; cbn; rewrite Hn.
Qed.

Lemma retry_loop_spec {T E} (f : nat → Result T E) nanos n i sleeps :
  (0 < n)%nat → (n + i)%nat = 5%nat →
  ∃ new, retry_loop n f nanos max_attempts multiplier max_delay i (delay_at i) sleeps =
    Some (Ret ((first_result f n i).1, sleeps ++ new)) ∧
    length new = (first_result f n i).2 ∧
    ∀ j cd, new !! j = Some cd → sleep_ok (i + j) cd.
Proof.
  revert i sleeps. induction n as [|n IH]; intros i sleeps Hn Hi; [lia|]. cbn [retry_loop].
  destruct (f i) as [v|err] eqn:Ef.
  { exists []. cbn. rewrite Ef, app_nil_r. by destruct n. }
  destruct n as [|n].
  { rewrite (proj2 (Nat.leb_le _ _)) by (unfold max_attempts; lia). exists [].
    cbn. by rewrite Ef, app_nil_r. }
  rewrite (proj2 (Nat.leb_gt _ _)) by (unfold max_attempts; lia).
  destruct (backoff_step i (seed_of (nanos i)) ltac:(lia)) as (cd & -> & Hcd).
  destruct (IH (S i) (sleeps ++ [cd]) ltac:(lia) ltac:(lia)) as (new & -> & Hl & Hs).
  exists (cd :: new).
  assert (Er : first_result f (S (S n)) i = let '(r, k) := first_result f (S n) (S i) in (r, S k))
    by (cbn [first_result]; by rewrite Ef).
  rewrite Er. clear Er. destruct (first_result f (S n) (S i)) as [r k]. cbn [fst snd] in *. rewrite <- app_assoc.
  split_and!; [done|cbn; lia|]. intros [|j] d; cbn.
  - intros [= <-]. by rewrite Nat.add_0_r.
  - intros Hd%Hs. by rewrite Nat.add_succ_r.
Qed.

Lemma pg_next_event p seq now : 0 <= seq → seq + 1 < 2 ^ 64 →
  PostgresSource.next_event p seq now = Ret (source_event (seq + 1) now, seq + 1).
Proof.
  intros H0 H1. unfold PostgresSource.next_event, add_w, sub_w.
  rewrite overflowing_exact by (split; lia). cbn [mbind Outcome_bind].
  rewrite overflowing_exact by (split; lia). cbn [mbind Outcome_bind].
  rewrite overflowing_exact by (split; div_lia). cbn [mbind Outcome_bind].
  replace (seq + 1 - 1) with seq by lia. unfold source_event. by replace (seq + 1 - 1) with seq by lia.
Qed.

Lemma pg_stream_spec p seq clock : 0 <= seq → seq + Z.of_nat (length clock) < 2 ^ 64 →
  PostgresSource.stream p seq clock = Ret (pg_events seq clock).
Proof.
  revert seq. induction clock as [|now clock IH]; intros seq H0 H1; [done|].
  cbn [PostgresSource.stream pg_events length] in *. rewrite pg_next_event by lia.
  cbn [mbind Outcome_bind]. rewrite IH by lia. done.
Qed.

(** The simulated outage of a source fails the first two attempts of the process. *)
Lemma outage_ends {E} (err : E) attempts : in_range 64 attempts →
  ∃ k, first_result (λ i, if (attempts + Z.of_nat i) mod 2 ^ 64 <? 2 then Err err else Ok tt) 5 0 = (Ok tt, k) ∧ (k <= 2)%nat.
Proof.
  intros Ha. unfold in_range in Ha. destruct (Z.lt_ge_cases attempts 2) as [Hl|Hl].
  - destruct (decide (attempts = 0)) as [->|]; [exists 2%nat; split; [done|lia]|].
    replace attempts with 1 by lia. exists 1%nat. split; [done|lia].
  - exists 0%nat. split; [|lia]. cbn [first_result].
    rewrite Z.add_0_r, Z.mod_small by lia. by rewrite (proj2 (Z.ltb_ge _ _)).
Qed.

Lemma pg_events_app seq c1 c2 :
  pg_events seq (c1 ++ c2) = pg_events seq c1 ++ pg_events (seq + Z.of_nat (length c1)) c2.
Proof.
  revert seq. induction c1 as [|now c1 IH]; intros seq; [by rewrite Z.add_0_r|].
  cbn. rewrite IH. do 3 f_equal. lia.
Qed.

Lemma retry_bounded_aux {T E} (f : nat → Result T E) (nanos : nat → option Z) :
  ∃ sleeps, retry_with_backoff 5 f nanos max_attempts initial_delay multiplier max_delay =
      Some (Ret ((first_result f 5 0).1, sleeps)) ∧
    length sleeps = (first_result f 5 0).2 ∧ (length sleeps <= 4)%nat ∧
    ∀ i d, sleeps !! i = Some d → sleep_ok i d.
Proof.
  destruct (retry_loop_spec f nanos 5 0 [] ltac:(lia) ltac:(done)) as (new & E1 & Hl & Hs).
  exists new. unfold retry_with_backoff. change initial_delay with (delay_at 0). rewrite E1.
  split_and!; [done|done| |exact Hs]. rewrite Hl. cbn.
  repeat (destruct (f _); [cbn; lia|]). cbn. lia.
Qed.

(** Both sources connect alike. *)
Lemma connects {E} (err : E) attempts nanos : in_range 64 attempts →
  ∃ sleeps, retry_with_backoff 5 (λ i, if (attempts + Z.of_nat i) mod 2 ^ 64 <? 2 then Err err else Ok tt) nanos
      max_attempts initial_delay multiplier max_delay = Some (Ret (Ok tt, sleeps)) ∧ (length sleeps <= 2)%nat.
Proof.
  intros Ha. set (f := λ i : nat, _). destruct (retry_bounded_aux f nanos) as (sleeps & E1 & Hl & _).
  destruct (outage_ends err attempts Ha) as (k & Ek & Hk). fold f in Ek. rewrite Ek in E1, Hl. cbn [fst snd] in E1, Hl.
  exists sleeps. split; [done|lia].
Qed.

Lemma pg_start_ok attempts nanos o : in_range 64 attempts →
  ∃ sleeps, PostgresSource.start_stream attempts nanos o =
      Some (Ret (Ok (PostgresSource.start_seq o), sleeps)) ∧ (length sleeps <= 2)%nat.
Proof.
  intros Ha. destruct (connects (PostgresSource.Connection "Simulated Postgres database outage") attempts nanos Ha)
    as (sleeps & E & Hl).
  exists sleeps. split; [|done]. unfold PostgresSource.start_stream, PostgresSource.make_conn. by rewrite E.
Qed.

(** ** The trait [CdcSource] *)

(** What [start_stream] gives is a position, and the stream is a function of the position and of what the clock
    shows for each event. *)
Class CdcSource := {
  source_error : Type;
  instants : Type;
  start_stream : Z → (nat → option Z) → option string → option (Outcome (Result Z source_error * list Z));
  events : Profile → Z → list instants → Outcome (list ChangeEvent);
}.

#[export] Instance PostgresSource_CdcSource : CdcSource :=
  {| start_stream := PostgresSource.start_stream; events := PostgresSource.stream |}.

#[export] Instance CassandraSource_CdcSource (to_rfc3339 : Z → string) : CdcSource :=
  {| start_stream := CassandraSource.start_stream; events := CassandraSource.stream to_rfc3339 |}.

(** The contract: the events are numbered, an event's offset is its number, and a stream that is started with an
    offset goes on after it. *)
Class CdcSourceLaws (S : CdcSource) := {
  numbered : Z → instants → ChangeEvent;
  numbered_offset n i : (numbered n i).(offset) = display_u64 n;
  start_resumes attempts nanos o : in_range 64 attempts → ∃ sleeps,
    start_stream attempts nanos o = Some (Ret (Ok (default 0 (o ≫= parse_u64)), sleeps)) ∧ (length sleeps <= 2)%nat;
  events_nil p pos : events p pos [] = Ret [];
  events_cons p pos i rest : 0 <= pos → pos + 1 < 2 ^ 64 →
    events p pos (i :: rest) = (es ← events p (pos + 1) rest; Ret (numbered (pos + 1) i :: es));
}.

#[export] Instance PostgresSource_laws : CdcSourceLaws PostgresSource_CdcSource.
Proof.
  refine {| numbered := source_event : Z → @instants PostgresSource_CdcSource → ChangeEvent |}; cbn.
  - done.
  - apply pg_start_ok.
  - done.
  - intros p pos i rest H0 H1. by rewrite pg_next_event.
Defined.

(** The event number [n] of the Cassandra stream. *)
Definition sensor_event (to_rfc3339 : Z → string) (n : Z) (now : Z * Z) : ChangeEvent :=
  MkEvent ("cas-evt-" ++ display_u64 n)%string "caminus_keyspace" "sensor_readings" Create now.1
    (json_object [("sensor_id", CassandraSource.sensor n); ("timestamp", VString (to_rfc3339 now.2))])%string None
    (Some (json_object [("sensor_id", CassandraSource.sensor n);
                        ("reading_value", VNumber (Float (CassandraSource.reading_value n)));
                        ("status", VString "OK")])%string)
    None (display_u64 n).

#[export] Instance CassandraSource_laws to_rfc3339 : CdcSourceLaws (CassandraSource_CdcSource to_rfc3339).
Proof.
  refine {| numbered := sensor_event to_rfc3339 : Z → @instants (CassandraSource_CdcSource to_rfc3339) → ChangeEvent |}.
  - done.
  - intros attempts nanos o Ha.
    destruct (connects (CassandraSource.DirectoryAccess "Simulated Cassandra CommitLog folder lock error") attempts nanos Ha)
      as (sleeps & E & Hl).
    exists sleeps. split; [|done]. change (@start_stream (CassandraSource_CdcSource to_rfc3339)) with (@CassandraSource.start_stream).
    unfold CassandraSource.start_stream, CassandraSource.make_conn. by rewrite E.
  - done.
  - intros p pos [now now'] rest H0 H1. cbn. unfold CassandraSource.next_event, add_w.
    by rewrite overflowing_exact by (split; lia).
Defined.

Section source.
Context {S : CdcSource} {SL : CdcSourceLaws S}.

(** The events after position [pos]. *)
Fixpoint numbered_from (pos : Z) (clock : list instants) : list ChangeEvent :=
  match clock with [] => [] | i :: clock => numbered (pos + 1) i :: numbered_from (pos + 1) clock end.

Lemma events_spec p pos clock : 0 <= pos → pos + Z.of_nat (length clock) < 2 ^ 64 →
  events p pos clock = Ret (numbered_from pos clock).
Proof.
  revert pos. induction clock as [|i clock IH]; intros pos H0 H1; [apply events_nil|].
  cbn [length numbered_from] in *. rewrite events_cons by lia. by rewrite IH by lia.
Qed.

Lemma numbered_from_app pos c1 c2 :
  numbered_from pos (c1 ++ c2) = numbered_from pos c1 ++ numbered_from (pos + Z.of_nat (length c1)) c2.
Proof.
  revert pos. induction c1 as [|i c1 IH]; intros pos; [by rewrite Z.add_0_r|]. cbn. rewrite IH. do 3 f_equal. lia.
Qed.

Lemma numbered_from_lookup pos clock k e : numbered_from pos clock !! k = Some e →
  ∃ i, e = numbered (pos + Z.of_nat k + 1) i.
Proof.
  revert pos k. induction clock as [|i clock IH]; intros pos [|k]; [done|done| |]; cbn [numbered_from lookup list_lookup].
  - intros [= <-]. exists i. f_equal. lia.
  - intros (j & ->)%IH. exists j. f_equal. lia.
Qed.

Lemma numbered_from_length pos clock : length (numbered_from pos clock) = length clock.
Proof. revert pos. induction clock as [|i clock IH]; intros pos; cbn; [done|]. by rewrite IH. Qed.
End source.

(** ** Properties *)

(** C34. The retries of both sources terminate: whatever the attempts return and whatever the clock shows,
    at most five attempts are made, the result is the first success or else the fifth error, there is
    one sleep between consecutive attempts, and the sleep number [i] is within a quarter of
    [min (50 ms * 2^i) 500 ms]; no duration conversion panics. *)
Theorem retry_bounded {T E} (f : nat → Result T E) (nanos : nat → option Z) :
  ∃ sleeps, retry_with_backoff 5 f nanos max_attempts initial_delay multiplier max_delay =
      Some (Ret ((first_result f 5 0).1, sleeps)) ∧
    length sleeps = (first_result f 5 0).2 ∧ (length sleeps <= 4)%nat ∧
    ∀ i d, sleeps !! i = Some d → sleep_ok i d.
Proof. apply retry_bounded_aux. Qed.

(** Connecting succeeds and resumes where the offset says, for each source: whatever the attempt counter of the
    process (it may have wrapped), [start_stream] connects within three attempts, and a stream started
    from the offset of the event number [n] yields the events from number [n + 1] on, so cutting a
    stream at any event and resuming from that event's offset gives the rest of the same stream. *)
Theorem resume_continues {S : CdcSource} {SL : CdcSourceLaws S} (p : Profile) (attempts : Z) (nanos : nat → option Z) (pos : Z)
    (c1 c2 : list instants) (e : ChangeEvent)
    (Ha : in_range 64 attempts) (H0 : 0 <= pos)
    (H1 : pos + Z.of_nat (length (c1 ++ c2)) < 2 ^ 64)
    (Hlast : last (numbered_from pos c1) = Some e) :
  ∃ start sleeps,
    start_stream attempts nanos (Some e.(offset)) = Some (Ret (Ok start, sleeps)) ∧
    (length sleeps <= 2)%nat ∧
    events p pos (c1 ++ c2) = (es ← events p start c2; Ret (numbered_from pos c1 ++ es)).
Proof.
  rewrite last_lookup in Hlast. pose proof (numbered_from_lookup _ _ _ _ Hlast) as [i ->].
  rewrite numbered_from_length in *. apply lookup_lt_Some in Hlast. rewrite numbered_from_length in Hlast.
  rewrite numbered_offset. rewrite length_app in H1.
  destruct (start_resumes attempts nanos (Some (display_u64 (pos + Z.of_nat (pred (length c1)) + 1))) Ha) as (sleeps & E & Hl).
  cbn [mbind option_bind] in E. rewrite parse_display_u64 in E by (unfold in_range; lia). cbn [default] in E.
  replace (pos + Z.of_nat (pred (length c1)) + 1) with (pos + Z.of_nat (length c1)) in E by lia.
  exists (pos + Z.of_nat (length c1)), sleeps. split_and!; [|exact Hl|].
  - by replace (pos + Z.of_nat (pred (length c1)) + 1) with (pos + Z.of_nat (length c1)) by lia.
  - rewrite events_spec by (rewrite ?length_app; lia). rewrite events_spec by lia. by rewrite numbered_from_app.
Qed.

(** ** Witnesses *)

Lemma resume_continues_witness :
  ∃ start sleeps,
    PostgresSource.start_stream 0 (λ _, Some 7) (Some (source_event 3 30).(offset)) = Some (Ret (Ok start, sleeps)) ∧
    PostgresSource.stream Dev 0 [10; 20; 30; 40; 50] =
      (es ← PostgresSource.stream Dev start [40; 50]; Ret (pg_events 0 [10; 20; 30] ++ es)).
Proof.
  destruct (resume_continues (S:=PostgresSource_CdcSource) Dev 0 (λ _, Some 7) 0 [10; 20; 30] [40; 50] (source_event 3 30))
    as (start & sleeps & H1 & _ & H3); [by split | lia | cbn; lia | reflexivity |].
  exists start, sleeps. split; [exact H1 | exact H3].
Defined.
