(* ===== verification/Sink.v ===== *)
(** The sinks ([src/sink/kafka.rs], [src/sink/stdout.rs], [src/sink/forwarder.rs]) and the dead letter
    queue ([src/resiliency/dlq.rs]).

    A call of [send] prints lines on the console and returns; both are its result here.  The simulated
    network delay of the Kafka sink is not modelled. *)
From S2P Require Import Prelude Text F64 Event Store Confluent Avro.

Section sinks.
Context `{J : SerdeJson}.

(** [Display for SerializationError] *)
Definition serialization_error_to_string (e : json_error) : string :=
  ("simd-json serialization error: " ++ json_error_to_string e)%string.

Definition len (s : string) : string := display_u64 (Z.of_nat (String.length s)).
End sinks.

Module KafkaSink.
Section kafka.
Context `{J : SerdeJson}.

Record t := Mk { brokers : string; topic : string; client_id : string }.

Definition new (brokers topic client_id : string) : t := Mk brokers topic client_id.

Inductive KafkaSinkError :=
  | Connection (s : string)
  | Delivery (s : string).

Definition line (self : t) (payload : string) : string :=
  ("[KAFKA SINK] Sent to topic '" ++ self.(topic) ++ "' on brokers '" ++ self.(brokers)
     ++ "' - Payload size: " ++ len payload ++ " bytes")%string.

Definition send (self : t) (event : ChangeEvent) : list string * Result unit KafkaSinkError :=
  match serialize_event event with
  | Err e => ([], Err (Delivery (serialization_error_to_string e)))
  | Ok payload => ([line self payload], Ok tt)
  end.
End kafka.
End KafkaSink.

Module StdoutSink.
Section stdout.
Context `{J : SerdeJson}.

(** The error type is [Infallible]. *)
Definition send (event : ChangeEvent) : list string * Result unit Empty_set :=
  let serialized := match serialize_event event with
                    | Ok s => s | Err _ => "Serialization error" end%string in
  ([("[CONSOLE SINK] " ++ serialized)%string], Ok tt).
End stdout.
End StdoutSink.

Module ClusterForwarderSink.
Section forwarder.
Context `{J : SerdeJson}.

Record t := Mk { target_cluster_id : string; target_endpoint : string }.

Definition new (target_cluster_id target_endpoint : string) : t := Mk target_cluster_id target_endpoint.

Inductive ForwarderSinkError :=
  | Unreachable (s : string)
  | Serialization (s : string).

Definition line (self : t) (event : ChangeEvent) (serialized : string) : string :=
  ("[CLUSTER FORWARDER] Forwarding change event " ++ event.(id) ++ " ("
     ++ event.(source_table_or_collection) ++ ") to remote cluster '" ++ self.(target_cluster_id)
     ++ "' at endpoint '" ++ self.(target_endpoint) ++ "' (" ++ len serialized ++ " bytes)")%string.

Definition send (self : t) (event : ChangeEvent) : list string * Result unit ForwarderSinkError :=
  match serialize_event event with
  | Err e => ([], Err (Serialization (serialization_error_to_string e)))
  | Ok serialized => ([line self event serialized], Ok tt)
  end.
End forwarder.
End ClusterForwarderSink.

(** ** The trait [CdcSink] *)

Class CdcSink := {
  sink_error : Type;
  sink_send : ChangeEvent → list string * Result unit sink_error;
}.

Section instances.
Context `{J : SerdeJson}.

#[export] Instance KafkaSink_CdcSink (self : KafkaSink.t) : CdcSink := {| sink_send := KafkaSink.send self |}.
#[export] Instance StdoutSink_CdcSink : CdcSink := {| sink_send := StdoutSink.send |}.
#[export] Instance ClusterForwarderSink_CdcSink (self : ClusterForwarderSink.t) : CdcSink :=
  {| sink_send := ClusterForwarderSink.send self |}.

(** The contract: an event that can be serialized is accepted, and a line is printed for each accepted event and
    for no other. *)
Class CdcSinkLaws (S : CdcSink) := {
  sink_accepts event s : serialize_event event = Ok s → (sink_send event).2 = Ok tt;
  sink_line event : length (sink_send event).1 = if is_ok (sink_send event).2 then 1%nat else 0%nat;
}.

#[export] Instance KafkaSink_laws self : CdcSinkLaws (KafkaSink_CdcSink self).
Proof. split; intros event; cbn; unfold KafkaSink.send; [intros s ->|destruct (serialize_event event)]; done. Qed.
#[export] Instance StdoutSink_laws : CdcSinkLaws StdoutSink_CdcSink.
Proof. by split. Qed.
#[export] Instance ClusterForwarderSink_laws self : CdcSinkLaws (ClusterForwarderSink_CdcSink self).
Proof. split; intros event; cbn; unfold ClusterForwarderSink.send; [intros s ->|destruct (serialize_event event)]; done. Qed.

(** The lines of a sink count the events that it has accepted. *)
Lemma accepted_lines {S : CdcSink} {SL : CdcSinkLaws S} (events : list ChangeEvent) :
  length (concat (map (λ e, (sink_send e).1) events)) = length (List.filter (λ e, is_ok (sink_send e).2) events).
Proof.
  induction events as [|e events IH]; [done|]. cbn [map concat List.filter]. rewrite length_app, IH, sink_line.
  by destruct (is_ok _).
Qed.
End instances.

Module DeadLetterQueue.
Section dlq.
Context `{J : SerdeJson}.

Record DlqRecord := Record_ {
  failed_event : ChangeEvent;
  error_reason : string;
  failed_step : string;
  timestamp : Z;
  retry_attempts : Z;
}.

(** [DlqRecord::new], with the reading of the clock. *)
Definition record (event : ChangeEvent) (error_reason failed_step : string) (retry_attempts now : Z) :
    DlqRecord := Record_ event error_reason failed_step now retry_attempts.

Record t := Mk { dlq_topic_or_path : string }.

Definition new (dlq_topic_or_path : string) : t := Mk dlq_topic_or_path.

Definition route_to_dlq (self : t) (r : DlqRecord) : list string * Result unit string :=
  let serialized := match serialize_event r.(failed_event) with
                    | Ok s => s | Err _ => "Failed to serialize raw event" end%string in
  ([("[DEAD LETTER QUEUE] Poison pill routed to '" ++ self.(dlq_topic_or_path) ++ "' | Step: "
       ++ r.(failed_step) ++ " | Retries: " ++ display_u64 r.(retry_attempts) ++ " | Reason: "
       ++ r.(error_reason) ++ " | Event Payload: " ++ serialized)%string], Ok tt).
End dlq.
End DeadLetterQueue.
