(* ===== verification/Cli.v ===== *)
(** [CliHandler] ([src/cli/mod.rs]): the subcommands and their answers.

    The [Debug] rendering of a storage error is a parameter: it prints the internals of the database's and
    the JSON library's errors. *)
From S2P Require Import Prelude Text F64 Event Store Reference.

Module CliHandler.

Inductive CliCommand :=
  | Status
  | InspectOffset (source_id : string)
  | SchemaList (source_id : string)
  | Unknown (cmd : string).

(** [vec.get(2).cloned().unwrap_or_else(...)] *)
Definition source_arg (vec : list string) : string := default "postgres_users"%string (vec !! 2%nat).

Definition parse_args (vec : list string) : CliCommand :=
  match vec !! 1%nat with
  | None => Status
  | Some cmd =>
    if String.eqb cmd "status" then Status
    else if String.eqb cmd "inspect-offset" then InspectOffset (source_arg vec)
    else if String.eqb cmd "schema-list" then SchemaList (source_arg vec)
    else Unknown cmd
  end.

Section execute.
Context `{R : RocksDB} `{J : SerdeJson}.
Context (error_debug : @StateStore.StorageError R J → string).

Definition execute (command : CliCommand) (store : StateStore.t R) : Result string string :=
  match command with
  | Status => Ok "Caminus CDC Engine Status: HEALTHY | Active Consensus: Node 1 (LEADER)"
  | InspectOffset source_id =>
    match StateStore.get_offset store source_id with
    | Ok (Some offset) => Ok ("Source '" ++ source_id ++ "' offset checkpoint: " ++ offset)
    | Ok None => Ok ("Source '" ++ source_id ++ "' offset checkpoint: NONE")
    | Err e => Err ("Storage error: " ++ error_debug e)
    end
  | SchemaList source_id =>
    match StateStore.get_schema store source_id with
    | Ok (Some schema) => Ok ("Registered schema for '" ++ source_id ++ "': " ++ value_to_string schema)
    | Ok None => Ok ("No registered schema found for '" ++ source_id ++ "'")
    | Err e => Err ("Storage error: " ++ error_debug e)
    end
  | Unknown cmd => Err ("Unknown CLI subcommand: " ++ cmd)
  end%string.

(** ** Properties *)

(** The command line shows what was checkpointed: [inspect-offset] of a source, spelled out or left to
    its default [postgres_users], prints the offset the last successful save stored for that source,
    whatever was saved before. *)
Theorem inspect_shows_checkpoint {L : RocksDBLaws R} (self self' : StateStore.t R) (prog sid off : string)
    (rest : list string) (Hoff : is_str off)
    (Hsave : StateStore.save_offset (J:=J) self sid off = (self', Ok tt))
    (Hr : db_readable (StateStore.handle self')) :
  let answer := Ok ("Source '" ++ sid ++ "' offset checkpoint: " ++ off)%string in
  execute (parse_args (prog :: "inspect-offset"%string :: sid :: rest)) self' = answer ∧
  (sid = "postgres_users"%string →
     execute (parse_args [prog; "inspect-offset"%string]) self' = answer).
Proof.
  apply StateStore.save_offset_at in Hsave as [Ho _].
  assert (Hg : StateStore.get_offset (J:=J) self' sid = Ok (Some off)).
  { rewrite StateStore.get_offset_readable, Ho, decide_True, of_as_bytes by done. by rewrite Hoff. }
  cbv zeta. split; [|intros Hs]; unfold parse_args, source_arg; cbn -[String.append].
  - by rewrite Hg.
  - rewrite <- Hs. by rewrite Hg.
Qed.
End execute.

(** ** Witness *)

Lemma inspect_shows_checkpoint_witness :
  execute (J:=tree_json) (λ _, ""%string) (parse_args ["caminus"; "inspect-offset"; "pg_users"]%string)
    (StateStore.save_offset (J:=tree_json) empty_store "pg_users" "offset-cli-777").1
  = Ok "Source 'pg_users' offset checkpoint: offset-cli-777"%string.
Proof.
  apply (inspect_shows_checkpoint (J:=tree_json) (λ _, ""%string) empty_store
    (StateStore.save_offset (J:=tree_json) empty_store "pg_users" "offset-cli-777").1 "caminus"
    "pg_users" "offset-cli-777" []); [reflexivity | reflexivity | apply mem_db_readable].
Defined.
End CliHandler.
