(* ===== verification/Pipeline.v ===== *)
(** The two ingestion tasks of [main] ([src/main.rs]): every component in the order the loops call them,
    with the effects visible outside the process as a trace.

    One item of the stream is one step.  What the environment decides is in the item: whether the node
    leads, the readings of the clocks, and what the source yields.  The metrics are effects of the trace;
    of the console messages only the two of the router and of a commit are.  An item that arrives while the
    node does not lead is taken from the stream and dropped, which the trace records as [Skipped]. *)
From S2P Require Import Prelude Text F64 Event Clock Buffer Dedup Store Schema Confluent Avro.
From S2P Require Import Watermark Consensus RateLimiter Sip Router Transform Guests Sink Reference.

Module Pipeline.
Section pipeline.
Context `{R : RocksDB} `{J : SerdeJson} `{W : Wasmtime}.

(** ** The tasks *)

(** What the tasks share, apart from the state below. *)
Record env := Env {
  kafka_sink : KafkaSink.t;
  transformer : WasmTransformer.t W;
  router : PartitionRouter.t;
  dlq : DeadLetterQueue.t;
  num_milliseconds : Z → Z;            (* chrono's, of a difference in nanoseconds *)
}.

Inductive effect :=
  | Assigned (event_id : string) (partition : Z)
  | Kafka (e : ChangeEvent) (out : list string * Result unit KafkaSink.KafkaSinkError)
  | Console (e : ChangeEvent) (out : list string * Result unit Empty_set)
  | Checkpoint (offset : string) (r : Result unit (@StateStore.StorageError R J))
  | DeadLetter (r : DeadLetterQueue.DlqRecord) (out : list string * Result unit string)
  | Flushing (tx : option string) (mutations : nat)
  | Latency (duration_seconds : f64)
  | Throughput (count : Z)
  | Lag (lag_seconds : f64)
  | StreamError
  | Skipped (event : option ChangeEvent).

Definition record_processing_latency (duration_seconds : f64) : effect := Latency duration_seconds.
Definition record_replication_lag (lag_seconds : f64) : effect := Lag lag_seconds.
Definition increment_throughput (count : Z) : effect := Throughput count.

(** The state store, the failover controller and the limiter are shared by the tasks. *)
Record pg_task := Pg {
  store : StateStore.t R;
  failover : FailoverController.t;
  limiter : TokenBucketLimiter.t;
  dedup_filter : DeduplicationFilter.t;
  watermark_engine : WatermarkSnapshotter.t;
  tx_buffer : TransactionBuffer.t;
}.

(** The clocks during the handling of an item: [Instant::now] at its start, and both clocks while its
    [k]-th mutation is handled. *)
Record readings := Readings {
  processing_start : Z;
  instant_now : nat → Z;
  utc_now : nat → Z;
}.

(** An item of the stream, with what the environment decides while it is handled. *)
Record item (E : Type) := Item {
  leads : bool;                        (* is_leader() *)
  heartbeat_now : Z;                   (* in record_heartbeat *)
  limiter_clock : list Z;              (* in acquire, one reading per turn *)
  clock : readings;
  event_result : Result ChangeEvent E;
}.
#[global] Arguments Item {_} _ _ _ _ _.
#[global] Arguments leads {_} _.
#[global] Arguments heartbeat_now {_} _.
#[global] Arguments limiter_clock {_} _.
#[global] Arguments clock {_} _.
#[global] Arguments event_result {_} _.

Definition dead_letter (v : env) (event : ChangeEvent) (reason step : string) (now : Z) : effect :=
  let r := DeadLetterQueue.record event reason step 1 now in
  DeadLetter r (DeadLetterQueue.route_to_dlq v.(dlq) r).

(** The [k]-th mutation: transformed, routed, sent to both sinks, then its offset is saved and the
    metrics are recorded; the results of the sinks and of the store are dropped. *)
Definition deliver (v : env) (source_id : string) (c : readings) (k : nat) (st : StateStore.t R)
    (mut_event : ChangeEvent) : Outcome (StateStore.t R * list effect) :=
  r ← WasmTransformer.transform v.(transformer) mut_event;
  match r with
  | Ok transformed =>
    let target_partition := PartitionRouter.resolve_partition v.(router) transformed in
    let '(st', saved) := StateStore.save_offset st source_id transformed.(offset) in
    Ret (st', [Assigned transformed.(id) target_partition;
               Kafka transformed (KafkaSink.send v.(kafka_sink) transformed);
               Console transformed (StdoutSink.send transformed);
               Checkpoint transformed.(offset) saved;
               record_processing_latency (as_secs_f64 (duration_since (c.(instant_now) k) c.(processing_start)));
               increment_throughput 1;
               record_replication_lag
                 (f64_div (f64_of_Z (v.(num_milliseconds) (c.(utc_now) k - transformed.(timestamp))))
                    (f64_of_Z 1000))])
  | Err e =>
    Ret (st, [dead_letter v mut_event (WasmTransformer.error_to_string e) "WasmTransform" (c.(utc_now) k)])
  end.

Fixpoint deliver_all (v : env) (source_id : string) (c : readings) (k : nat) (st : StateStore.t R)
    (mutations : list ChangeEvent) : Outcome (StateStore.t R * list effect) :=
  match mutations with
  | [] => Ret (st, [])
  | m :: ms =>
    r ← deliver v source_id c k st m;
    let '(st', tr) := r in
    r' ← deliver_all v source_id c (S k) st' ms;
    let '(st'', tr') := r' in Ret (st'', tr ++ tr')
  end.

Definition pg_source : string := "postgres_users".
Definition cass_source : string := "cassandra_sensors".

(** The [Ok(event)] arm of the PostgreSQL task. *)
Definition pg_event (v : env) (c : readings) (s : pg_task) (event : ChangeEvent) :
    Outcome (pg_task * list effect) :=
  let '(dedup, duplicate) := DeduplicationFilter.check_and_track s.(dedup_filter) event.(id) in
  let s := Pg s.(store) s.(failover) s.(limiter) dedup s.(watermark_engine) s.(tx_buffer) in
  if duplicate then Ret (s, [])
  else
    validated ← SchemaRegistry.validate_event s.(store) pg_source event;
    match validated with
    | Err e => Ret (s, [dead_letter v event (SchemaRegistry.error_to_string e) "SchemaValidation" (c.(utc_now) O)])
    | Ok _ =>
      let '(wm, out) := WatermarkSnapshotter.process_replication_event s.(watermark_engine) event in
      let s := Pg s.(store) s.(failover) s.(limiter) s.(dedup_filter) wm s.(tx_buffer) in
      match out with
      | None => Ret (s, [])
      | Some processed_event =>
        let '(buf, mutations) := TransactionBuffer.process s.(tx_buffer) processed_event in
        let message := match processed_event.(operation) with
                       | Commit => [Flushing processed_event.(transaction_id) (length mutations)]
                       | _ => []
                       end in
        r ← deliver_all v pg_source c O s.(store) mutations;
        let '(st, tr) := r in
        Ret (Pg st s.(failover) s.(limiter) s.(dedup_filter) s.(watermark_engine) buf, message ++ tr)
      end
    end.

(** One turn of the loop; the boolean says whether it goes on.  [None] while [acquire] waits. *)
Definition pg_item {E} (v : env) (s : pg_task) (i : item E) :
    option (Outcome (pg_task * list effect * bool)) :=
  if negb i.(leads) then Some (Ret (s, [Skipped (ok_val i.(event_result))], true))
  else
    let fo := FailoverController.record_heartbeat i.(heartbeat_now) s.(failover) in
    acquired ← TokenBucketLimiter.acquire s.(limiter) i.(limiter_clock) 1;
    Some (lim ← acquired;
          let s := Pg s.(store) fo lim s.(dedup_filter) s.(watermark_engine) s.(tx_buffer) in
          match i.(event_result) with
          | Ok event => r ← pg_event v i.(clock) s event; let '(s', tr) := r in Ret (s', tr, true)
          | Err _ => Ret (s, [StreamError], false)
          end).

(** The loop [while let Some(event_result) = stream.next().await]. *)
Fixpoint run {S I : Type} (turn : S → I → option (Outcome (S * list effect * bool))) (s : S)
    (items : list I) : option (Outcome (S * list effect)) :=
  match items with
  | [] => Some (Ret (s, []))
  | i :: items' =>
    o ← turn s i;
    match o with
    | Panic => Some Panic
    | Ret (s', tr, false) => Some (Ret (s', tr))
    | Ret (s', tr, true) =>
      o' ← run turn s' items';
      Some (r ← o'; let '(s'', tr') := r in Ret (s'', tr ++ tr'))
    end
  end.

Definition pg_run {E} (v : env) : pg_task → list (item E) → option (Outcome (pg_task * list effect)) :=
  run (pg_item v).

(** The state in which the loop starts, and the offset handed to the source. *)
Definition pg_start (st : StateStore.t R) (fo : FailoverController.t) (lim : TokenBucketLimiter.t) :
    pg_task :=
  Pg st fo lim (DeduplicationFilter.new 1000) WatermarkSnapshotter.new TransactionBuffer.new.

Definition last_offset (fo : FailoverController.t) (st : StateStore.t R) (source_id : string) :
    option string :=
  match FailoverController.resume_checkpoint_offset (J:=J) fo st source_id with
  | Some o => Some o
  | None => match StateStore.get_offset (J:=J) st source_id with Ok o => o | Err _ => None end
  end.

(** The Cassandra task has neither validation nor watermarks. *)
Record cass_task := Cass {
  cass_store : StateStore.t R;
  cass_failover : FailoverController.t;
  cass_limiter : TokenBucketLimiter.t;
  cass_dedup : DeduplicationFilter.t;
  cass_buffer : TransactionBuffer.t;
}.

Definition cass_event (v : env) (c : readings) (s : cass_task) (event : ChangeEvent) :
    Outcome (cass_task * list effect) :=
  let '(dedup, duplicate) := DeduplicationFilter.check_and_track s.(cass_dedup) event.(id) in
  let s := Cass s.(cass_store) s.(cass_failover) s.(cass_limiter) dedup s.(cass_buffer) in
  if duplicate then Ret (s, [])
  else
    let '(buf, mutations) := TransactionBuffer.process s.(cass_buffer) event in
    r ← deliver_all v cass_source c O s.(cass_store) mutations;
    let '(st, tr) := r in
    Ret (Cass st s.(cass_failover) s.(cass_limiter) s.(cass_dedup) buf, tr).

Definition cass_item {E} (v : env) (s : cass_task) (i : item E) :
    option (Outcome (cass_task * list effect * bool)) :=
  if negb i.(leads) then Some (Ret (s, [Skipped (ok_val i.(event_result))], true))
  else
    let fo := FailoverController.record_heartbeat i.(heartbeat_now) s.(cass_failover) in
    acquired ← TokenBucketLimiter.acquire s.(cass_limiter) i.(limiter_clock) 1;
    Some (lim ← acquired;
          let s := Cass s.(cass_store) fo lim s.(cass_dedup) s.(cass_buffer) in
          match i.(event_result) with
          | Ok event => r ← cass_event v i.(clock) s event; let '(s', tr) := r in Ret (s', tr, true)
          | Err _ => Ret (s, [StreamError], false)
          end).

Definition cass_run {E} (v : env) :
    cass_task → list (item E) → option (Outcome (cass_task * list effect)) :=
  run (cass_item v).

Definition cass_start (st : StateStore.t R) (fo : FailoverController.t)
    (lim : TokenBucketLimiter.t) : cass_task :=
  Cass st fo lim (DeduplicationFilter.new 1000) TransactionBuffer.new.

(** ** Specification *)

(** What a trace shows: the events handed to the Kafka sink, those it accepted, the events given up. *)
Definition attempted (tr : list effect) : list ChangeEvent :=
  omap (λ f, match f with Kafka e _ => Some e | _ => None end) tr.
Definition sent (tr : list effect) : list ChangeEvent :=
  omap (λ f, match f with Kafka e (_, Ok _) => Some e | _ => None end) tr.
Definition given_up (tr : list effect) : list ChangeEvent :=
  omap (λ f, match f with DeadLetter r _ => Some r.(DeadLetterQueue.failed_event) | _ => None end) tr.

(** What a standby has taken and dropped. *)
Definition skipped (f : effect) : bool := match f with Skipped _ => true | _ => false end.
Definition but_skipped {S} (r : option (Outcome (S * list effect))) : option (Outcome (S * list effect)) :=
  match r with
  | Some (Ret (s, tr)) => Some (Ret (s, List.filter (λ f, negb (skipped f)) tr))
  | _ => r
  end.

(** The stages, each a function of the events that reach it. *)
Fixpoint deduped (d : DeduplicationFilter.t) (es : list ChangeEvent) : list ChangeEvent :=
  match es with
  | [] => []
  | e :: es' =>
    let '(d', duplicate) := DeduplicationFilter.check_and_track d e.(id) in
    if duplicate then deduped d' es' else e :: deduped d' es'
  end.

Definition valid (st : StateStore.t R) (e : ChangeEvent) : bool :=
  match SchemaRegistry.validate_event st pg_source e with Ret (Ok _) => true | _ => false end.

Definition ordinary (e : ChangeEvent) : bool := negb (WatermarkSnapshotter.is_watermark e).

Definition committed (es : list ChangeEvent) : list ChangeEvent :=
  concat (TransactionBuffer.released_all [] es).

Definition transformed (v : env) (e : ChangeEvent) : list ChangeEvent :=
  match WasmTransformer.transform v.(transformer) e with Ret (Ok e') => [e'] | _ => [] end.

Definition untransformed (v : env) (e : ChangeEvent) : bool :=
  match WasmTransformer.transform v.(transformer) e with Ret (Err _) => true | _ => false end.

Definition no_panic (v : env) (e : ChangeEvent) : Prop :=
  WasmTransformer.transform v.(transformer) e ≠ Panic.

(** The leading node receives [es], and the limiter lets every item pass. *)
Fixpoint granted {E} (lim : TokenBucketLimiter.t) (items : list (item E)) : Prop :=
  match items with
  | [] => True
  | i :: items' =>
    ∃ lim', TokenBucketLimiter.acquire lim i.(limiter_clock) 1 = Some (Ret lim') ∧ granted lim' items'
  end.

Definition receives {E} (items : list (item E)) (es : list ChangeEvent) : Prop :=
  Forall (λ i, i.(leads) = true) items ∧ event_result <$> items = Ok <$> es.

(** ** Lemmas *)

Lemma attempted_app a b : attempted (a ++ b) = attempted a ++ attempted b.
Proof. apply omap_app. Qed.
Lemma given_up_app a b : given_up (a ++ b) = given_up a ++ given_up b.
Proof. apply omap_app. Qed.

Context {L : RocksDBLaws R}.
Context (readable : ∀ d : db, db_readable d).

Definition same_schema (a b : StateStore.t R) : Prop :=
  ∀ sid, StateStore.schema_at a sid = StateStore.schema_at b sid.

Lemma same_schema_refl a : same_schema a a.
Proof. by intros s. Qed.

Lemma save_offset_schema st sid off : same_schema (StateStore.save_offset (J:=J) st sid off).1 st.
Proof.
  intros sid'. destruct (StateStore.save_offset st sid off) as [st' [[]|e]] eqn:E; cbn.
  - by apply StateStore.save_offset_at in E as [_ ->].
  - unfold StateStore.schema_at. by rewrite (StateStore.put_err _ _ _ _ _ E).
Qed.

Lemma same_schema_valid a b sid e : same_schema a b →
  SchemaRegistry.validate_event (J:=J) a sid e = SchemaRegistry.validate_event (J:=J) b sid e.
Proof.
  intros H. unfold SchemaRegistry.validate_event.
  by rewrite !StateStore.get_schema_readable, H by apply readable.
Qed.

Lemma deliver_spec v sid c k st e : no_panic v e →
  ∃ st' tr, deliver v sid c k st e = Ret (st', tr) ∧ same_schema st' st ∧
    attempted tr = transformed v e ∧ given_up tr = List.filter (untransformed v) [e] ∧
    st' = match transformed v e with
          | e' :: _ => (StateStore.save_offset (J:=J) st sid e'.(offset)).1
          | [] => st
          end.
Proof.
  unfold no_panic, deliver, transformed, untransformed. intros Hp. cbn [List.filter].
  destruct (WasmTransformer.transform (transformer v) e) as [[e'|err]|]; [| |done]; cbn.
  - pose proof (save_offset_schema st sid e'.(offset)) as Hs.
    destruct (StateStore.save_offset st sid (offset e')) as [st' r]. by eexists _, _.
  - by eexists _, _.
Qed.

Lemma deliver_all_spec v sid c k st ms : Forall (no_panic v) ms →
  ∃ st' tr, deliver_all v sid c k st ms = Ret (st', tr) ∧ same_schema st' st ∧
    attempted tr = flat_map (transformed v) ms ∧ given_up tr = List.filter (untransformed v) ms ∧
    st' = fold_left (λ st e', (StateStore.save_offset (J:=J) st sid e'.(offset)).1)
            (flat_map (transformed v) ms) st.
Proof.
  intros H. revert k st. induction H as [|m ms Hm _ IH]; intros k st; [by eexists _, _|].
  destruct (deliver_spec v sid c k st m Hm) as (st1 & tr1 & E1 & S1 & A1 & G1 & D1).
  destruct (IH (S k) st1) as (st2 & tr2 & E2 & S2 & A2 & G2 & D2).
  cbn [deliver_all]. rewrite E1. cbn [mbind Outcome_bind]. rewrite E2. cbn [mbind Outcome_bind].
  exists st2, (tr1 ++ tr2). rewrite attempted_app, given_up_app, A1, A2, G1, G2.
  split_and!; [done| |done| |].
  - intros s. by rewrite S2.
  - cbn. by destruct (untransformed v m).
  - rewrite D2, D1. cbn [flat_map]. rewrite fold_left_app. f_equal. unfold transformed.
    by destruct (WasmTransformer.transform (transformer v) m) as [[]|].
Qed.

(** What the PostgreSQL task hands to [deliver_all] and what its validation rejects, from any state. *)
Definition pg_mutations (st : StateStore.t R) (d : DeduplicationFilter.t) (b : TransactionBuffer.t)
    (es : list ChangeEvent) : list ChangeEvent :=
  concat (TransactionBuffer.run b
            (List.filter ordinary (List.filter (valid st) (deduped d es)))).2.

Definition rejected (st : StateStore.t R) (d : DeduplicationFilter.t) (es : list ChangeEvent) :
    list ChangeEvent := List.filter (λ e, negb (valid st e)) (deduped d es).

Definition save_all (sid : string) (st : StateStore.t R) (es : list ChangeEvent) : StateStore.t R :=
  fold_left (λ st e, (StateStore.save_offset (J:=J) st sid e.(offset)).1) es st.

Lemma save_all_schema sid st es : same_schema (save_all sid st es) st.
Proof.
  revert st. induction es as [|e es IH]; intros st s; [done|]. unfold save_all. cbn.
  etransitivity; [apply IH|]. apply save_offset_schema.
Qed.

(** One event: it is rejected ([rej]) or contributes the mutations [ms]. *)
Lemma pg_event_spec v c s e st0 : same_schema s.(store) st0 →
  ∃ ms rej d' b', (∀ rest,
    pg_mutations st0 s.(dedup_filter) s.(tx_buffer) (e :: rest) = ms ++ pg_mutations st0 d' b' rest ∧
    rejected st0 s.(dedup_filter) (e :: rest) = rej ++ rejected st0 d' rest) ∧
  (Forall (no_panic v) ms → ∃ wm' tr,
    pg_event v c s e =
      Ret (Pg (save_all pg_source s.(store) (flat_map (transformed v) ms)) s.(failover)
             s.(limiter) d' wm' b', tr) ∧
    attempted tr = flat_map (transformed v) ms ∧
    given_up tr = rej ++ List.filter (untransformed v) ms).
Proof.
  intros Hst. unfold pg_event, pg_mutations, rejected. cbn [deduped].
  destruct (DeduplicationFilter.check_and_track (dedup_filter s) (id e)) as [d' dup].
  destruct dup.
  { exists [], [], d', (tx_buffer s). split; [done|]. intros _. by eexists _, []. }
  destruct (SchemaRegistry.validate_event_total (store s) pg_source e) as [r Er].
  assert (Hv : valid st0 e = is_ok r).
  { unfold valid. rewrite <- (same_schema_valid (store s) st0) by done. rewrite Er. by destruct r. }
  cbn [List.filter store]. rewrite Hv. rewrite Er. cbn [mbind Outcome_bind].
  destruct r as [u|err]; cbn [is_ok negb]; cycle 1.
  { exists [], [e], d', (tx_buffer s). split; [done|]. intros _. by eexists _, _. }
  cbn [List.filter watermark_engine]. pose proof (WatermarkSnapshotter.process_out (watermark_engine s) e) as Hw.
  destruct (WatermarkSnapshotter.process_replication_event (watermark_engine s) e) as [wm out].
  cbn in Hw. subst out. unfold ordinary at 1. destruct (WatermarkSnapshotter.is_watermark e); cbn [negb].
  { exists [], [], d', (tx_buffer s). split; [done|]. intros _. by eexists _, []. }
  cbn [TransactionBuffer.run tx_buffer].
  destruct (TransactionBuffer.process (tx_buffer s) e) as [b' ms]. exists ms, [], d', b'. split.
  { intros rest. split; [|done]. destruct (TransactionBuffer.run b' _). done. }
  intros Hms. destruct (deliver_all_spec v pg_source c O (store s) ms Hms)
    as (st' & tr & E & _ & A & G & D).
  cbn [store]. rewrite E. cbn [mbind Outcome_bind].
  subst st'. eexists wm, _. split; [reflexivity|]. rewrite attempted_app, given_up_app, A, G.
  by destruct (operation e).
Qed.

Lemma pg_item_standby {E} v s (i : item E) : i.(leads) = false →
  pg_item v s i = Some (Ret (s, [Skipped (ok_val i.(event_result))], true)).
Proof. intros Hl. unfold pg_item. by rewrite Hl. Qed.

(** The state in which the handler of an accepted item runs. *)
Definition pg_admit {E} (s : pg_task) (i : item E) (lim : TokenBucketLimiter.t) : pg_task :=
  Pg s.(store) (FailoverController.record_heartbeat i.(heartbeat_now) s.(failover)) lim
    s.(dedup_filter) s.(watermark_engine) s.(tx_buffer).

Lemma pg_item_leader {E} v s (i : item E) lim e : i.(leads) = true →
  TokenBucketLimiter.acquire s.(limiter) i.(limiter_clock) 1 = Some (Ret lim) →
  i.(event_result) = Ok e →
  pg_item v s i = Some (r ← pg_event v i.(clock) (pg_admit s i lim) e;
                        let '(s', tr) := r in Ret (s', tr, true)).
Proof.
  intros Hl Ha He. unfold pg_item. rewrite Hl. cbn [negb]. rewrite Ha. cbn [mbind option_bind Outcome_bind].
  by rewrite He.
Qed.

Lemma pg_run_spec {E} v (items : list (item E)) es s st0 : same_schema s.(store) st0 →
  receives items es → granted s.(limiter) items →
  Forall (no_panic v) (pg_mutations st0 s.(dedup_filter) s.(tx_buffer) es) →
  let ms := pg_mutations st0 s.(dedup_filter) s.(tx_buffer) es in
  ∃ s' tr, pg_run v s items = Some (Ret (s', tr)) ∧
    attempted tr = flat_map (transformed v) ms ∧
    given_up tr ≡ₚ rejected st0 s.(dedup_filter) es ++ List.filter (untransformed v) ms ∧
    s'.(store) = save_all pg_source s.(store) (flat_map (transformed v) ms).
Proof.
  intros Hst [Hl He] Hg Hp. revert es s Hst He Hg Hp.
  induction Hl as [|i items Hlead _ IH]; intros es s Hst He Hg Hp.
  { destruct es; [|done]. by eexists _, _. }
  destruct es as [|e es]; [done|]. cbn in He. injection He as Hi He.
  destruct Hg as (lim & Ha & Hg). cbv zeta. unfold pg_run. cbn [run].
  rewrite (pg_item_leader v s i lim e Hlead Ha Hi). cbn [mbind option_bind].
  destruct (pg_event_spec v (clock i) (pg_admit s i lim) e st0 Hst) as (ms & rej & d' & b' & Hrest & Hrun).
  destruct (Hrest es) as [Em Ej].
  cbn [pg_admit dedup_filter tx_buffer store failover limiter] in *.
  rewrite Em in Hp. apply Forall_app in Hp as [Hp1 Hp2].
  destruct (Hrun Hp1) as (wm & tr & -> & A & G). cbn [mbind Outcome_bind].
  destruct (IH es (Pg (save_all pg_source (store s) (flat_map (transformed v) ms))
    (failover (pg_admit s i lim)) lim d' wm b'))
    as (s2 & tr2 & E2 & A2 & G2 & D2); [|done|done|done|].
  { intros sid. cbn. etransitivity; [apply save_all_schema|apply Hst]. }
  cbn [store dedup_filter tx_buffer failover pg_admit] in *. unfold pg_run in E2. rewrite E2.
  cbn [mbind option_bind Outcome_bind].
  exists s2, (tr ++ tr2).
  rewrite attempted_app, given_up_app, A, A2, G, G2, Em, Ej, flat_map_app, List.filter_app, D2.
  split_and!; [done|done| |].
  - solve_Permutation.
  - unfold save_all. by rewrite fold_left_app.
Qed.


(** *** Serial logs: the transactions one after the other, as [PostgresSource] produces them. *)

Record tx_block := Block { block_tx : string; block_ms : list ChangeEvent; block_commit : ChangeEvent }.

Definition block_ok (k : tx_block) : Prop :=
  Forall (λ e, TransactionBuffer.in_tx k.(block_tx) e = true ∧ TransactionBuffer.is_control e = false)
    k.(block_ms) ∧
  TransactionBuffer.in_tx k.(block_tx) k.(block_commit) = true ∧
  k.(block_commit).(operation) = Commit.

Definition block_events (k : tx_block) : list ChangeEvent := k.(block_ms) ++ [k.(block_commit)].
Definition serial_log (ks : list tx_block) : list ChangeEvent := flat_map block_events ks.
Definition mutations (ks : list tx_block) : list ChangeEvent := flat_map block_ms ks.

(** The events a source yields when it resumes after an offset. *)
Fixpoint after_offset (off : string) (log : list ChangeEvent) : list ChangeEvent :=
  match log with
  | [] => []
  | e :: log' => if String.eqb e.(offset) off then log' else after_offset off log'
  end.

Definition resume_from (o : option string) (log : list ChangeEvent) : list ChangeEvent :=
  match o with Some off => after_offset off log | None => log end.

Lemma released_all_pending h h' es :
  (∀ t, TransactionBuffer.pending t h = TransactionBuffer.pending t h') →
  TransactionBuffer.released_all h es = TransactionBuffer.released_all h' es.
Proof.
  revert h h'. induction es as [|e es IH]; intros h h' H; [done|]. cbn. f_equal.
  - unfold TransactionBuffer.released. by repeat case_match.
  - apply IH. intros t. by rewrite !TransactionBuffer.pending_snoc, H.
Qed.

Lemma block_pending k t : block_ok k → TransactionBuffer.pending t (block_events k) = [].
Proof.
  intros (Hm & Hc & Hop). unfold block_events. rewrite TransactionBuffer.pending_snoc.
  unfold TransactionBuffer.pending_step. destruct (TransactionBuffer.in_tx t (block_commit k)) eqn:Et.
  - unfold TransactionBuffer.is_control. by rewrite Hop.
  - rewrite <- TransactionBuffer.pending_tx_only, (TransactionBuffer.tx_only_other _ (block_tx k)); [done| |].
    + intros ->. congruence.
    + eapply Forall_impl; [exact Hm|]. by intros e [? _].
Qed.

Lemma committed_block k rest : block_ok k →
  committed (block_events k ++ rest) = k.(block_ms) ++ committed rest.
Proof.
  intros Hk. unfold committed. rewrite TransactionBuffer.released_all_app, concat_app. f_equal.
  - destruct Hk as (Hm & Hc & Hop). unfold block_events.
    rewrite (TransactionBuffer.released_atomic (block_tx k)) by done. by rewrite Hop.
  - f_equal. apply released_all_pending. intros t. by rewrite app_nil_l, block_pending.
Qed.

Lemma committed_serial ks : Forall block_ok ks → committed (serial_log ks) = mutations ks.
Proof.
  induction 1 as [|k ks Hk _ IH]; [done|]. cbn [serial_log mutations flat_map].
  fold (serial_log ks) (mutations ks). by rewrite committed_block, IH.
Qed.

Lemma after_offset_skip off l1 l2 : off ∉ (offset <$> l1) →
  after_offset off (l1 ++ l2) = after_offset off l2.
Proof.
  induction l1 as [|e l1 IH]; [done|]. cbn. intros [Hne H]%not_elem_of_cons.
  rewrite (proj2 (String.eqb_neq _ _)) by congruence. by apply IH.
Qed.

Lemma after_offset_at l1 e l2 : e.(offset) ∉ (offset <$> l1) →
  after_offset e.(offset) (l1 ++ e :: l2) = l2.
Proof. intros H. rewrite after_offset_skip by done. cbn. by rewrite String.eqb_refl. Qed.

Lemma after_offset_suffix off l : ∃ l', l = l' ++ after_offset off l.
Proof.
  induction l as [|e l [l' IH]]; [by exists []|]. cbn. destruct (String.eqb _ _); [by exists [e]|].
  exists (e :: l'). cbn. by f_equal.
Qed.

Lemma mutations_in_log ks e : e ∈ mutations ks → e ∈ serial_log ks.
Proof.
  induction ks as [|k ks IH]; [done|]. cbn. rewrite !elem_of_app. unfold block_events.
  rewrite elem_of_app. naive_solver.
Qed.

(** What a cut of the log has released is a prefix of all the mutations. *)
Lemma serial_prefix ks c : Forall block_ok ks →
  committed (take c (serial_log ks)) `prefix_of` mutations ks.
Proof.
  intros Hks. revert c. induction Hks as [|k ks Hk _ IH]; intros c; [by destruct c; exists []|].
  cbn [serial_log mutations flat_map]. fold (serial_log ks) (mutations ks).
  destruct (Nat.lt_ge_cases c (length (block_events k))) as [Hlt|Hge].
  - rewrite take_app_le by lia. unfold block_events in *. rewrite length_app in Hlt. cbn in Hlt.
    rewrite take_app_le by lia. unfold committed. pose proof Hk as (Hm & _).
    rewrite (TransactionBuffer.released_mutations (block_tx k)) by by apply Forall_take. apply prefix_nil.
  - rewrite take_app_ge, committed_block by done.
    destruct (IH (c - length (block_events k))%nat) as [l Hl]. exists l. by rewrite Hl, app_assoc.
Qed.

(** The mutations up to any point, then what the log releases from the offset of the last of them on,
    are all the mutations, once each. *)
Lemma serial_resume ks j : Forall block_ok ks → NoDup (offset <$> serial_log ks) →
  take j (mutations ks) ++ committed (resume_from (offset <$> last (take j (mutations ks))) (serial_log ks))
    = mutations ks.
Proof.
  intros Hks. revert j. induction Hks as [|k ks Hk Hks IH]; intros j Hn; [by destruct j|].
  pose proof Hk as (Hm & Hc & Hop). cbn [serial_log mutations flat_map] in *.
  fold (serial_log ks) (mutations ks) in *. rewrite fmap_app in Hn.
  apply NoDup_app in Hn as (Hn1 & Hn12 & Hn2). rewrite take_app.
  destruct (take (j - length (block_ms k)) (mutations ks)) as [|x a] eqn:Ea.
  - rewrite app_nil_r. destruct (last (take j (block_ms k))) as [m|] eqn:El; cbn [fmap option_fmap option_map resume_from].
    + apply last_Some in El as [a El].
      assert (∃ r, block_ms k = a ++ m :: r) as [r Hd].
      { exists (drop j (block_ms k)). rewrite <- (take_drop j (block_ms k)) at 1. by rewrite El, <- app_assoc. }
      unfold block_events in *. rewrite El. rewrite Hd in Hm, Hn1 |- *.
      apply Forall_app in Hm as [_ [_ Hm]%Forall_cons]. rewrite <- !app_assoc. cbn [app].
      rewrite after_offset_at.
      * pose proof (committed_block (Block (block_tx k) r (block_commit k)) (serial_log ks)) as Hr.
        unfold block_events in Hr. cbn [block_ms block_commit] in Hr. rewrite <- app_assoc in Hr.
        cbn [app] in Hr. by rewrite Hr, committed_serial.
      * rewrite <- app_assoc, fmap_app in Hn1. apply NoDup_app in Hn1 as (_ & Hx & _).
        intros Hin. apply (Hx _ Hin). left.
    + apply last_None in El. by rewrite El, committed_block, committed_serial.
  - rewrite take_ge by (destruct (Nat.le_gt_cases (length (block_ms k)) j); [done|];
      by replace (j - length (block_ms k))%nat with O in Ea by lia).
    rewrite last_app. destruct (last (x :: a)) as [y|] eqn:Ey; [|by apply last_None in Ey].
    rewrite <- app_assoc. f_equal. specialize (IH (j - length (block_ms k))%nat Hn2). rewrite Ea, Ey in IH.
    rewrite <- IH. f_equal. f_equal. cbn [fmap option_fmap option_map resume_from].
    apply after_offset_skip. intros Hin. apply (Hn12 _ Hin), list_elem_of_fmap_2, mutations_in_log.
    apply last_Some_elem_of in Ey. rewrite <- Ea in Ey. by eapply subseteq_take.
Qed.

(** *** The Cassandra task *)

Definition cass_mutations (d : DeduplicationFilter.t) (b : TransactionBuffer.t)
    (es : list ChangeEvent) : list ChangeEvent :=
  concat (TransactionBuffer.run b (deduped d es)).2.

Lemma cass_event_spec v c s e :
  ∃ ms d' b', (∀ rest,
    cass_mutations s.(cass_dedup) s.(cass_buffer) (e :: rest) = ms ++ cass_mutations d' b' rest) ∧
  (Forall (no_panic v) ms → ∃ st' tr,
    cass_event v c s e = Ret (Cass st' s.(cass_failover) s.(cass_limiter) d' b', tr) ∧
    attempted tr = flat_map (transformed v) ms ∧ given_up tr = List.filter (untransformed v) ms).
Proof.
  unfold cass_event, cass_mutations. cbn [deduped].
  destruct (DeduplicationFilter.check_and_track (cass_dedup s) (id e)) as [d' dup]. destruct dup.
  { exists [], d', (cass_buffer s). split; [done|]. intros _. by eexists _, []. }
  cbn [TransactionBuffer.run cass_buffer].
  destruct (TransactionBuffer.process (cass_buffer s) e) as [b' ms]. exists ms, d', b'. split.
  { intros rest. by destruct (TransactionBuffer.run b' _). }
  intros Hms. destruct (deliver_all_spec v cass_source c O (cass_store s) ms Hms)
    as (st' & tr & E & _ & A & G & _).
  cbn [cass_store]. rewrite E. by eexists _, _.
Qed.

Lemma cass_item_leader {E} v s (i : item E) lim e : i.(leads) = true →
  TokenBucketLimiter.acquire s.(cass_limiter) i.(limiter_clock) 1 = Some (Ret lim) →
  i.(event_result) = Ok e →
  cass_item v s i =
    Some (r ← cass_event v i.(clock)
                (Cass s.(cass_store)
                   (FailoverController.record_heartbeat i.(heartbeat_now) s.(cass_failover)) lim
                   s.(cass_dedup) s.(cass_buffer)) e;
          let '(s', tr) := r in Ret (s', tr, true)).
Proof.
  intros Hl Ha He. unfold cass_item. rewrite Hl. cbn [negb]. rewrite Ha.
  cbn [mbind option_bind Outcome_bind]. by rewrite He.
Qed.

Lemma cass_run_spec {E} v (items : list (item E)) es s : receives items es →
  granted s.(cass_limiter) items → Forall (no_panic v) (cass_mutations s.(cass_dedup) s.(cass_buffer) es) →
  let ms := cass_mutations s.(cass_dedup) s.(cass_buffer) es in
  ∃ s' tr, cass_run v s items = Some (Ret (s', tr)) ∧
    attempted tr = flat_map (transformed v) ms ∧ given_up tr = List.filter (untransformed v) ms.
Proof.
  intros [Hl He] Hg Hp. revert es s He Hg Hp.
  induction Hl as [|i items Hlead _ IH]; intros es s He Hg Hp.
  { destruct es; [|done]. by eexists _, _. }
  destruct es as [|e es]; [done|]. cbn in He. injection He as Hi He.
  destruct Hg as (lim & Ha & Hg). cbv zeta. unfold cass_run. cbn [run].
  rewrite (cass_item_leader v s i lim e Hlead Ha Hi). cbn [mbind option_bind].
  set (s1 := Cass _ _ _ _ _).
  destruct (cass_event_spec v (clock i) s1 e) as (ms & d' & b' & Hrest & Hrun).
  pose proof (Hrest es) as Em. cbn [s1 cass_dedup cass_buffer] in Em. rewrite Em in Hp |- *.
  apply Forall_app in Hp as [Hp1 Hp2]. destruct (Hrun Hp1) as (st' & tr & -> & A & G).
  cbn [mbind Outcome_bind].
  destruct (IH es (Cass st' s1.(cass_failover) lim d' b') He Hg Hp2) as (s2 & tr2 & E2 & A2 & G2).
  unfold cass_run in E2. cbn [s1 cass_failover cass_limiter] in E2 |- *. rewrite E2.
  cbn [mbind option_bind Outcome_bind]. cbn [cass_dedup cass_buffer] in A2, G2.
  exists s2, (tr ++ tr2).
  by rewrite attempted_app, given_up_app, A, A2, G, G2, flat_map_app, List.filter_app.
Qed.

(** *** Events that no stage drops or changes *)

Lemma deduped_distinct d es : NoDup (id <$> es) →
  (∀ i, i ∈ (id <$> es) → i ∉ d.(DeduplicationFilter.processed_ids)) → deduped d es = es.
Proof.
  revert d. induction es as [|e es IH]; intros d Hn Hd; [done|]. cbn in *.
  apply NoDup_cons in Hn as [He Hn].
  assert (Hout : id e ∉ DeduplicationFilter.processed_ids d) by (apply Hd; left).
  assert (Hsub : ∀ i, i ∈ (DeduplicationFilter.check_and_track d (id e)).1.(DeduplicationFilter.processed_ids) →
    i = id e ∨ i ∈ d.(DeduplicationFilter.processed_ids)).
  { intros i. unfold DeduplicationFilter.check_and_track. rewrite decide_False by done.
    repeat case_match; cbn; set_solver. }
  assert (Hdup : (DeduplicationFilter.check_and_track d (id e)).2 = false).
  { unfold DeduplicationFilter.check_and_track. rewrite decide_False by done. by repeat case_match. }
  destruct (DeduplicationFilter.check_and_track d (id e)) as [d' dup]. cbn in Hsub, Hdup. subst dup.
  f_equal. apply IH; [done|]. intros i Hi [->|Hin]%Hsub; [done|]. apply (Hd i); [by right|done].
Qed.

(** The event passes validation and the transform as it is. *)
Definition passes (v : env) (st : StateStore.t R) (e : ChangeEvent) : Prop :=
  valid st e = true ∧ ordinary e = true ∧
  WasmTransformer.transform v.(transformer) e = Ret (Ok e) ∧ is_str e.(offset).

Lemma filter_all {A} (f : A → bool) l : Forall (λ x, f x = true) l → List.filter f l = l.
Proof. induction 1 as [|x l Hx _ IH]; cbn; [done|]. by rewrite Hx, IH. Qed.

Lemma passes_mutations v st st' es : same_schema st' st → Forall (passes v st) es →
  NoDup (id <$> es) →
  pg_mutations st' (DeduplicationFilter.new 1000) TransactionBuffer.new es = committed es.
Proof.
  intros Hs Hp Hn. unfold pg_mutations. rewrite deduped_distinct; [|done|cbn; set_solver].
  rewrite !filter_all; [by rewrite TransactionBuffer.run_new_outputs| |].
  - eapply Forall_impl; [exact Hp|]. intros e (He & _). unfold valid.
    rewrite (same_schema_valid st' st) by done. exact He.
  - rewrite filter_all.
    + eapply Forall_impl; [exact Hp|]. by intros e (_ & He & _).
    + eapply Forall_impl; [exact Hp|]. intros e (He & _). unfold valid.
      rewrite (same_schema_valid st' st) by done. exact He.
Qed.

Lemma committed_elem es e : e ∈ committed es → e ∈ es.
Proof.
  unfold committed. enough (G : ∀ h, (∀ t x, x ∈ TransactionBuffer.pending t h → x ∈ h) →
    e ∈ concat (TransactionBuffer.released_all h es) → e ∈ h ∨ e ∈ es).
  { intros H. destruct (G [] ltac:(done) H) as [?%elem_of_nil|]; done. }
  induction es as [|a es IH]; intros h Hh; cbn; [by intros ?%elem_of_nil|].
  rewrite elem_of_app. intros [H|H].
  - unfold TransactionBuffer.released in H. repeat case_match; rewrite ?list_elem_of_singleton in H; subst;
      try by apply elem_of_nil in H.
    + left. by eapply Hh.
    + right. left.
  - apply IH in H.
    + rewrite elem_of_app, list_elem_of_singleton in H. rewrite elem_of_cons. naive_solver.
    + intros t x. rewrite TransactionBuffer.pending_snoc. unfold TransactionBuffer.pending_step.
      rewrite elem_of_app. repeat case_match; [by intros ?%elem_of_nil| |by left; eapply Hh].
      rewrite elem_of_app. intros [?|?]; [left; by eapply Hh | by right].
Qed.

Lemma transformed_same v st es : Forall (passes v st) es → flat_map (transformed v) es = es.
Proof.
  induction 1 as [|e es (_ & _ & He & _) _ IH]; [done|]. cbn. unfold transformed at 1. by rewrite He, IH.
Qed.

Lemma passes_no_panic v st es : Forall (passes v st) es → Forall (no_panic v) es.
Proof. intros H. eapply Forall_impl; [exact H|]. intros e (_ & _ & He & _). unfold no_panic. by rewrite He. Qed.

Context (writable : ∀ (d : db) k b, ∃ d', db_put d k b = (d', Ok tt)).

Lemma save_all_offset sid st es :
  StateStore.offset_at (save_all sid st es) sid =
    match last es with Some e => Some (as_bytes e.(offset)) | None => StateStore.offset_at st sid end.
Proof.
  revert st. induction es as [|e es IH] using rev_ind; intros st; [done|].
  unfold save_all. rewrite fold_left_app, last_snoc. cbn [fold_left].
  set (st1 := fold_left _ es st).
  destruct (StateStore.save_offset st1 sid (offset e)) as [st2 r] eqn:E. cbn.
  assert (r = Ok tt) as ->.
  { unfold StateStore.save_offset, StateStore.put in E.
    destruct (writable (StateStore.handle st1) (as_bytes (StateStore.offset_key sid)) (as_bytes (offset e)))
      as [d' Ed]. rewrite Ed in E. by injection E as _ <-. }
  apply StateStore.save_offset_at in E as [E _]. by rewrite E, decide_True.
Qed.

Lemma last_offset_saved fo st sid off : is_str off →
  StateStore.offset_at st sid = Some (as_bytes off) → last_offset fo st sid = Some off.
Proof.
  intros Hs Ho. unfold last_offset, FailoverController.resume_checkpoint_offset.
  rewrite StateStore.get_offset_readable, Ho, of_as_bytes by apply readable. by rewrite Hs.
Qed.

Lemma last_offset_none fo st sid : StateStore.offset_at st sid = None → last_offset fo st sid = None.
Proof.
  intros Ho. unfold last_offset, FailoverController.resume_checkpoint_offset.
  by rewrite StateStore.get_offset_readable, Ho by apply readable.
Qed.


(** A run on events that every stage lets through. *)
Lemma passes_run {E} v st st' fo lim (items : list (item E)) es : same_schema st' st →
  Forall (passes v st) es → NoDup (id <$> es) → receives items es → granted lim items →
  ∃ s tr, pg_run v (pg_start st' fo lim) items = Some (Ret (s, tr)) ∧
    attempted tr = committed es ∧ s.(store) = save_all pg_source st' (committed es).
Proof.
  intros Hs Hp Hn Hes Hg. pose proof (passes_mutations v st st' _ Hs Hp Hn) as M.
  assert (Hc : Forall (passes v st) (committed es)).
  { rewrite Forall_forall in Hp |- *. intros e He. by apply Hp, committed_elem. }
  destruct (pg_run_spec v items es (pg_start st' fo lim) st' (same_schema_refl _) Hes Hg)
    as (s & tr & R1 & A1 & _ & D1).
  { cbn [pg_start dedup_filter tx_buffer]. rewrite M. by eapply passes_no_panic. }
  cbn [pg_start dedup_filter tx_buffer store] in A1, D1.
  rewrite M, (transformed_same v st) in A1, D1 by done. by exists s, tr.
Qed.

(** A node that restarts on a store in which the offsets of [sent] were saved. *)
Lemma resume_run {E} v st fo lim log sent (items : list (item E)) :
  Forall (passes v st) log → NoDup (id <$> log) → StateStore.offset_at st pg_source = None →
  (∀ e, e ∈ sent → e ∈ log) → let st1 := save_all pg_source st sent in
  receives items (resume_from (last_offset fo st1 pg_source) log) → granted lim items →
  ∃ s tr, pg_run v (pg_start st1 fo lim) items = Some (Ret (s, tr)) ∧
    attempted tr = committed (resume_from (offset <$> last sent) log).
Proof.
  intros Hpass Hids Hnone Hin st1 Hes Hg.
  assert (Hlast : last_offset fo st1 pg_source = offset <$> last sent).
  { pose proof (save_all_offset pg_source st sent) as Ho.
    destruct (last sent) as [e|] eqn:El; cbn.
    - apply last_offset_saved; [|done]. rewrite Forall_forall in Hpass.
      apply last_Some_elem_of, Hin, Hpass in El. apply El.
    - apply last_offset_none. by rewrite <- Hnone. }
  rewrite Hlast in Hes. assert (Hsub : ∃ l, log = l ++ resume_from (offset <$> last sent) log).
  { unfold resume_from. destruct (offset <$> last sent); [apply after_offset_suffix|by exists []]. }
  destruct Hsub as [l Hl]. rewrite Hl in Hpass, Hids. apply Forall_app in Hpass as [_ Hp2].
  rewrite fmap_app in Hids. apply NoDup_app in Hids as (_ & _ & Hn2).
  destruct (passes_run v st st1 fo lim items _ (save_all_schema _ _ _) Hp2 Hn2 Hes Hg)
    as (s & tr & R2 & A2 & _).
  by exists s, tr.
Qed.

(** The first [c] events of a log that every stage lets through. *)
Lemma first_run {E} v st fo lim log c (items : list (item E)) :
  Forall (passes v st) log → NoDup (id <$> log) → receives items (take c log) → granted lim items →
  ∃ s tr, pg_run v (pg_start st fo lim) items = Some (Ret (s, tr)) ∧
    attempted tr = committed (take c log) ∧ s.(store) = save_all pg_source st (committed (take c log)).
Proof.
  intros Hp Hn. apply (passes_run v st); [apply same_schema_refl|by apply Forall_take|].
  rewrite <- (take_drop c log), fmap_app in Hn. by apply NoDup_app in Hn as [? _].
Qed.

(** A crash after [c] events, then a restart: what each of the two runs sends. *)
Lemma crash_resume {E} v st fo lim log c (items : list (item E)) :
  Forall (passes v st) log → NoDup (id <$> log) → StateStore.offset_at st pg_source = None →
  receives items (take c log) → granted lim items →
  ∃ s1 tr1, pg_run v (pg_start st fo lim) items = Some (Ret (s1, tr1)) ∧
    attempted tr1 = committed (take c log) ∧
    ∀ fo' lim' (items' : list (item E)),
      receives items' (resume_from (last_offset fo' s1.(store) pg_source) log) →
      granted lim' items' →
      ∃ s2 tr2, pg_run v (pg_start s1.(store) fo' lim') items' = Some (Ret (s2, tr2)) ∧
        attempted tr2 = committed (resume_from (offset <$> last (committed (take c log))) log).
Proof.
  intros Hpass Hids Hnone Hes Hg.
  destruct (first_run v st fo lim log c items Hpass Hids Hes Hg) as (s1 & tr1 & R1 & A1 & D1).
  exists s1, tr1. split_and!; [done|done|]. intros fo' lim' items' Hes' Hg'. rewrite D1 in *.
  apply resume_run; [done|done|done| |done|done].
  intros e He%committed_elem. by eapply subseteq_take.
Qed.

(** ** Properties *)

(** C5. The PostgreSQL task is the composition of its components: on any events received while the node
    leads and the limiter lets them pass, with a readable database and no panic of the guest, the loop
    terminates without panic; the events handed to Kafka are, in order, the transformed mutations of
    the committed transactions among the events that are neither duplicates nor invalid nor
    watermarks; the dead letter queue gets exactly the invalid events and the mutations whose
    transformation failed. *)
Theorem pg_delivers {E} (v : env) (st : StateStore.t R) (fo : FailoverController.t)
    (lim : TokenBucketLimiter.t) (items : list (item E)) (es : list ChangeEvent)
    (Hes : receives items es) (Hg : granted lim items) :
  let fresh := deduped (DeduplicationFilter.new 1000) es in
  let ms := committed (List.filter ordinary (List.filter (valid st) fresh)) in
  Forall (no_panic v) ms →
  ∃ s' tr, pg_run v (pg_start st fo lim) items = Some (Ret (s', tr)) ∧
    attempted tr = flat_map (transformed v) ms ∧
    given_up tr ≡ₚ List.filter (λ e, negb (valid st e)) fresh ++ List.filter (untransformed v) ms.
Proof.
  intros fresh ms Hms. unfold ms, fresh, committed in *.
  rewrite <- TransactionBuffer.run_new_outputs in Hms |- *.
  destruct (pg_run_spec v items es (pg_start st fo lim) st) as (s' & tr & E1 & A & G & _);
    [by intros s | done..|]. by exists s', tr.
Qed.

(** C38. The Cassandra task is the composition of its components: on any events received while the node
    leads and the limiter lets them pass, with no panic of the guest, the loop terminates without
    panic, the events handed to Kafka are, in order, the transformed mutations that the transaction
    buffer releases for the events that are not duplicates, and the dead letter queue gets exactly the
    mutations whose transformation failed; if no event has a transaction id, the mutations released are
    all the events that are not duplicates. *)
Theorem cass_delivers {E} (v : env) (st : StateStore.t R) (fo : FailoverController.t)
    (lim : TokenBucketLimiter.t) (items : list (item E)) (es : list ChangeEvent)
    (Hes : receives items es) (Hg : granted lim items) :
  let ms := committed (deduped (DeduplicationFilter.new 1000) es) in
  Forall (no_panic v) ms →
  (∃ s' tr, cass_run v (cass_start st fo lim) items = Some (Ret (s', tr)) ∧
    attempted tr = flat_map (transformed v) ms ∧ given_up tr = List.filter (untransformed v) ms) ∧
  (Forall (λ e, e.(transaction_id) = None) es → ms = deduped (DeduplicationFilter.new 1000) es).
Proof.
  intros ms Hms. split.
  - unfold ms, committed in *. rewrite <- TransactionBuffer.run_new_outputs in Hms |- *.
    destruct (cass_run_spec v items es (cass_start st fo lim) Hes Hg Hms) as (s' & tr & H).
    by exists s', tr.
  - unfold ms. generalize (DeduplicationFilter.new 1000) as d. clear.
    intros d Hn. unfold committed. generalize (@nil ChangeEvent) as h. revert d.
    induction Hn as [|e es He _ IH]; intros d h; [done|]. cbn [deduped].
    destruct (DeduplicationFilter.check_and_track d (id e)) as [d' []]; [apply IH|].
    cbn [TransactionBuffer.released_all concat]. unfold TransactionBuffer.released at 1.
    rewrite He. cbn. f_equal. apply IH.
Qed.

(** A standby consumes its stream: the events that arrive while the node does not lead are taken and
    dropped, with no effect on the task's state, and the loop never sees them again: but for the record
    of what was dropped, the run is the run on the other events alone. *)
Theorem standby_drops {E} (v : env) (s : pg_task) (items : list (item E)) :
  but_skipped (pg_run v s items) = but_skipped (pg_run v s (List.filter leads items)).
Proof.
  revert s. induction items as [|i items IH]; intros s; [done|]. cbn [List.filter].
  destruct (leads i) eqn:El; unfold pg_run; cbn [run].
  - destruct (pg_item v s i) as [[[[s' tr] []]|]|]; cbn [mbind option_bind]; try done.
    specialize (IH s'). unfold pg_run in IH. revert IH.
    destruct (run (pg_item v) s' items) as [[[s1 t1]|]|], (run (pg_item v) s' (List.filter leads items)) as [[[s2 t2]|]|];
      cbn; try done. intros [= -> E0]. by rewrite !List.filter_app, E0.
  - rewrite pg_item_standby by done. cbn [mbind option_bind]. specialize (IH s). unfold pg_run in IH.
    rewrite <- IH. by destruct (run (pg_item v) s items) as [[[]|]|].
Qed.

(** Crash and resume on a serial log: when the source yields one transaction after the other (what
    [PostgresSource] does), with distinct ids and offsets and events that every stage lets through,
    then for a crash after any number of events, the events sent before it, followed by those sent
    by a restarted node that resumes from the saved offset, are all the mutations of the log, in
    order and once each. *)
Theorem serial_crash_resume {E} (v : env) (st : StateStore.t R) (fo : FailoverController.t)
    (lim : TokenBucketLimiter.t) (ks : list tx_block) (c : nat) (items : list (item E))
    (Hks : Forall block_ok ks) (Hpass : Forall (passes v st) (serial_log ks))
    (Hids : NoDup (id <$> serial_log ks)) (Hoffs : NoDup (offset <$> serial_log ks))
    (Hnone : StateStore.offset_at st pg_source = None)
    (Hes : receives items (take c (serial_log ks))) (Hg : granted lim items) :
  ∃ s1 tr1, pg_run v (pg_start st fo lim) items = Some (Ret (s1, tr1)) ∧
    ∀ fo' lim' (items' : list (item E)),
      receives items' (resume_from (last_offset fo' s1.(store) pg_source) (serial_log ks)) →
      granted lim' items' →
      ∃ s2 tr2, pg_run v (pg_start s1.(store) fo' lim') items' = Some (Ret (s2, tr2)) ∧
        attempted tr1 ++ attempted tr2 = mutations ks.
Proof.
  destruct (crash_resume v st fo lim _ c items Hpass Hids Hnone Hes Hg) as (s1 & tr1 & R1 & A1 & Hrest).
  exists s1, tr1. split; [done|]. intros fo' lim' items' Hes' Hg'.
  destruct (Hrest fo' lim' items' Hes' Hg') as (s2 & tr2 & R2 & A2). exists s2, tr2.
  split; [done|]. rewrite A1, A2. destruct (serial_prefix ks c Hks) as [l Hl].
  pose proof (serial_resume ks (length (committed (take c (serial_log ks)))) Hks Hoffs) as H.
  by rewrite Hl, take_app_length, <- Hl in H.
Qed.

(** C25. Crash and resume loses data when transactions interleave: the saved offset is that of the last
    mutation sent, not that of the oldest one still buffered.  On a database whose reads and writes succeed
    and that holds no checkpoint yet, let the node lead, the limiter grant every item and every stage let
    the events through.  If [a] of transaction [A] precedes [b]
    of transaction [B] and the node crashes after the commit of [B], the restarted node resumes
    after [b] and sends nothing, although the commit of [A] is still to come: [a] is lost, whereas a
    run without a crash sends it. *)
Theorem interleaved_crash_loses {E} (v : env) (st : StateStore.t R) (fo : FailoverController.t)
    (lim : TokenBucketLimiter.t) (A B : string) (a b cb ca : ChangeEvent) (items : list (item E))
    (HA : Forall (λ e, e.(transaction_id) = Some A) [a; ca])
    (HB : Forall (λ e, e.(transaction_id) = Some B) [b; cb]) (HAB : A ≠ B)
    (Hms : Forall (λ e, TransactionBuffer.is_control e = false) [a; b])
    (Hcs : Forall (λ e, e.(operation) = Commit) [cb; ca])
    (Hpass : Forall (passes v st) [a; b; cb; ca]) (Hids : NoDup (id <$> [a; b; cb; ca]))
    (Hoffs : a.(offset) ≠ b.(offset))
    (Hnone : StateStore.offset_at st pg_source = None)
    (Hes : receives items [a; b; cb]) (Hg : granted lim items) :
  committed [a; b; cb; ca] = [b; a] ∧
  ∃ s1 tr1, pg_run v (pg_start st fo lim) items = Some (Ret (s1, tr1)) ∧ attempted tr1 = [b] ∧
    ∀ fo' lim' (items' : list (item E)),
      receives items' (resume_from (last_offset fo' s1.(store) pg_source) [a; b; cb; ca]) →
      granted lim' items' →
      ∃ s2 tr2, pg_run v (pg_start s1.(store) fo' lim') items' = Some (Ret (s2, tr2)) ∧
        attempted tr2 = [].
Proof.
  apply Forall_cons in HA as [Ha [Hca _]%Forall_cons], HB as [Hb [Hcb _]%Forall_cons].
  apply Forall_cons in Hms as [Ma [Mb _]%Forall_cons], Hcs as [Mcb [Mca _]%Forall_cons].
  pose proof (proj2 (String.eqb_neq A B) HAB) as EAB. pose proof EAB as EBA. rewrite String.eqb_sym in EBA.
  assert (Hall : committed [a; b; cb; ca] = [b; a] ∧ committed [a; b; cb] = [b] ∧ committed [cb; ca] = []).
  { unfold committed, TransactionBuffer.released_all, TransactionBuffer.released, TransactionBuffer.pending,
      TransactionBuffer.pending_step, TransactionBuffer.in_tx.
    cbn [fold_left app concat]. rewrite Ha, Hb, Hca, Hcb, Mca, Mcb, !String.eqb_refl, EAB, EBA, Ma, Mb.
    unfold TransactionBuffer.is_control in *.
    destruct (operation a), (operation b); done. }
  destruct Hall as (H1 & H2 & H3). split; [done|].
  destruct (crash_resume v st fo lim [a; b; cb; ca] 3 items Hpass Hids Hnone Hes Hg)
    as (s1 & tr1 & R1 & A1 & Hrest).
  cbn [take] in A1, Hrest. rewrite H2 in A1, Hrest. exists s1, tr1. split_and!; [done|done|].
  intros fo' lim' items' Hes' Hg'. destruct (Hrest fo' lim' items' Hes' Hg') as (s2 & tr2 & R2 & A2).
  exists s2, tr2. split; [done|]. rewrite A2. change (offset <$> last [b]) with (Some b.(offset)).
  cbn [resume_from after_offset]. rewrite (proj2 (String.eqb_neq _ _) Hoffs), String.eqb_refl. done.
Qed.

(** A failed delivery is lost: when the event cannot be sent to Kafka, the failure is dropped, its
    offset is saved all the same, and it is not given to the dead letter queue. *)
Theorem failed_send_lost (v : env) (sid : string) (c : readings) (k : nat) (st : StateStore.t R)
    (e e' : ChangeEvent) (err : json_error)
    (Ht : WasmTransformer.transform v.(transformer) e = Ret (Ok e'))
    (Hs : simd_to_string e' = Err err) :
  ∃ st' tr, deliver v sid c k st e = Ret (st', tr) ∧ attempted tr = [e'] ∧ sent tr = [] ∧
    given_up tr = [] ∧ StateStore.offset_at st' sid = Some (as_bytes e'.(offset)).
Proof.
  pose proof (save_all_offset sid st [e']) as Ho. unfold save_all in Ho. cbn [fold_left last] in Ho.
  unfold deliver. rewrite Ht. cbn [mbind Outcome_bind].
  destruct (StateStore.save_offset st sid (offset e')) as [st' r]. eexists st', _. split; [done|].
  cbn in Ho. unfold KafkaSink.send, serialize_event. rewrite Hs. by split_and!.
Qed.

(** A watermark inserted in the snapshot table is rejected by the schema of the replicated one: every
    [Create] is validated against the schema of [postgres_users] before the watermark engine sees it,
    so when the watermark's row lacks a field of that schema the event goes to the dead letter queue
    and the window does not open. *)
Theorem watermark_insert_rejected (v : env) (c : readings) (s : pg_task) (e : ChangeEvent)
    (schema : Value) (fields obj : list (string * Value)) (k : string)
    (Hs : StateStore.get_schema s.(store) pg_source = Ok (Some schema))
    (Hf : SchemaRegistry.schema_fields schema = Some fields) (Hk : k ∈ fields.*1)
    (Hw : WatermarkSnapshotter.is_watermark e = true) (Hop : e.(operation) = Create)
    (Hobj : e.(after) = Some (VObject obj)) (Hmiss : bt_get k obj = None)
    (Hfresh : e.(id) ∉ s.(dedup_filter).(DeduplicationFilter.processed_ids)) :
  (WatermarkSnapshotter.process_replication_event s.(watermark_engine) e).1
    .(WatermarkSnapshotter.in_watermark_window)
    = negb s.(watermark_engine).(WatermarkSnapshotter.in_watermark_window) ∧
  ∃ s' tr, pg_event v c s e = Ret (s', tr) ∧ s'.(watermark_engine) = s.(watermark_engine) ∧
    given_up tr = [e].
Proof.
  split.
  { unfold WatermarkSnapshotter.process_replication_event. rewrite Hw, Hop.
    by destruct (WatermarkSnapshotter.in_watermark_window (watermark_engine s)). }
  assert (Hv : SchemaRegistry.validated e = true) by (unfold SchemaRegistry.validated; by rewrite Hop).
  destruct (SchemaRegistry.missing_field_rejected _ _ _ _ _ _ _ Hs Hf Hk Hv Hobj Hmiss) as [err Herr].
  unfold pg_event. assert (Hdup : (DeduplicationFilter.check_and_track (dedup_filter s) (id e)).2 = false).
  { unfold DeduplicationFilter.check_and_track. rewrite decide_False by done. by repeat case_match. }
  destruct (DeduplicationFilter.check_and_track _ _) as [d dup]. cbn in Hdup. subst dup.
  cbn [store]. rewrite Herr. by eexists _, _.
Qed.

End pipeline.

(** ** Witnesses *)

Definition pipeline_env : env (W:=page_engine) :=
  Env (W:=page_engine) (KafkaSink.Mk "localhost:9092" "caminus_mutations" "caminus_engine")
    guest_module (PartitionRouter.new 4 PartitionRouter.KeyHash)
    (DeadLetterQueue.new "caminus_dlq_poison_pills") (λ d, d `quot` 10 ^ 6).

Definition still : readings := Readings 0 (λ _, 0) (λ _, 0).

Lemma mem_db_writable (d : @db mem_db) k b : ∃ d', db_put d k b = (d', Ok tt).
Proof. by eexists. Qed.

Definition pg_ev (i tx : string) (op : Operation) : ChangeEvent :=
  MkEvent i "caminus_db" "users" op 0 VNull None
    (Some (json_object [("id", VNumber (PosInt 1)); ("name", VString "User 1")])) (Some tx) i.

(** The leading node receives the events at one instant. *)
Definition items_at (E : Type) (es : list ChangeEvent) : list (item E) :=
  (λ e, Item true 0 [0] still (Ok e)) <$> es.
Abbreviation items_of := (items_at unit).

Definition main_limiter : TokenBucketLimiter.t := TokenBucketLimiter.new 1000 (f64_of_Z 500) 0.
Definition main_failover : FailoverController.t := FailoverController.new 0 1 1000.
Definition main_store : StateStore.t mem_db :=
  (SchemaRegistry.register_schema (R:=mem_db) (J:=tree_json) empty_store "postgres_users" user_schema
     SchemaRegistry.Backward).1.

Lemma receives_items {E} es : receives (items_at E es) es.
Proof. split; [by apply Forall_fmap, Forall_true|]. unfold items_at. by rewrite <- list_fmap_compose. Qed.

Lemma granted_items {E} lim k es : TokenBucketLimiter.holds lim 0 k → Z.of_nat (length es) <= k →
  granted lim (items_at E es).
Proof.
  revert lim k. induction es as [|e es IH]; intros lim k H Hk; [done|]. cbn in Hk |- *.
  unfold TokenBucketLimiter.acquire_turn. rewrite (TokenBucketLimiter.holds_refill _ _ _ H). cbv zeta.
  pose proof H as [H1 H2 H3 H4 H5]. rewrite H2, f64_leb_exact, (proj2 (Z.leb_le _ _)) by lia.
  eexists. split; [done|]. apply (IH _ (k - 1)); [|lia]. apply TokenBucketLimiter.holds_take; [done|lia].
Qed.

Lemma granted_main {E} es : (length es <= 1000)%nat → granted main_limiter (items_at E es).
Proof. intros H. apply (granted_items _ 1000); [apply TokenBucketLimiter.bucket_holds_new; [lia|done]|lia]. Qed.

(** One committed transaction, one rolled back, a duplicate, an invalid event. *)
Definition mixed : list ChangeEvent :=
  [pg_ev "1" "A" Create; pg_ev "2" "B" Update; pg_ev "1" "A" Create; pg_ev "3" "B" Rollback;
   with_after (pg_ev "4" "A" Create) None; pg_ev "5" "A" Commit].

Lemma pg_delivers_witness :
  ∃ s' tr, pg_run (J:=tree_json) pipeline_env (pg_start main_store main_failover main_limiter)
             (items_of mixed) = Some (Ret (s', tr)) ∧
    attempted tr = [pg_ev "1" "A" Create] ∧ given_up tr = [with_after (pg_ev "4" "A" Create) None].
Proof.
  destruct (pg_delivers (J:=tree_json) mem_db_readable pipeline_env main_store main_failover main_limiter
    (items_of mixed) mixed) as (s' & tr & H & A & G).
  - apply receives_items.
  - apply granted_main. cbn. lia.
  - repeat constructor; no_panic.
  - exists s', tr. split; [exact H|]. split; [etransitivity; [exact A|by vm_compute]|].
    apply Permutation_singleton_r. etransitivity; [exact G|]. by vm_compute.
Defined.

Lemma cass_delivers_witness :
  ∃ s' tr, cass_run (J:=tree_json) pipeline_env (cass_start empty_store main_failover main_limiter)
             (items_of [wasm_event; wasm_event]) = Some (Ret (s', tr)) ∧ attempted tr = [wasm_event].
Proof.
  destruct (cass_delivers (J:=tree_json) pipeline_env empty_store main_failover main_limiter
    (items_of [wasm_event; wasm_event]) [wasm_event; wasm_event]) as ((s' & tr & H & A & _) & _).
  - apply receives_items.
  - apply granted_main. cbn. lia.
  - repeat constructor; no_panic.
  - exists s', tr. split; [exact H|]. etransitivity; [exact A|by vm_compute].
Defined.

Lemma ev_passes i tx op : op = Create ∨ op = Update ∨ op = Commit → is_str i →
  SchemaRegistry.validate_event (J:=tree_json) main_store pg_source (pg_ev i tx op) = Ret (Ok tt) →
  WasmTransformer.transform (J:=tree_json) guest_module (pg_ev i tx op) = Ret (Ok (pg_ev i tx op)) →
  passes (J:=tree_json) pipeline_env main_store (pg_ev i tx op).
Proof.
  intros Hop Hi Hv Ht. split_and!; [unfold valid; by rewrite Hv|done|exact Ht|exact Hi].
Qed.

Ltac all_pass :=
  cbn [serial_log flat_map block_events block_ms block_commit app];
  repeat (apply Forall_cons; split);
  lazymatch goal with
  | |- Forall _ _ => apply Forall_nil; exact I
  | _ => apply ev_passes; [auto | reflexivity | by_eval | by_eval]
  end.

Definition two_blocks : list tx_block :=
  [Block "A" [pg_ev "1" "A" Create; pg_ev "2" "A" Update] (pg_ev "3" "A" Commit);
   Block "B" [pg_ev "4" "B" Create] (pg_ev "5" "B" Commit)].

(** The crash comes in the middle of the second transaction. *)
Lemma serial_crash_resume_witness :
  ∃ s1 tr1, pg_run (J:=tree_json) pipeline_env (pg_start main_store main_failover main_limiter)
              (items_of (take 4 (serial_log two_blocks))) = Some (Ret (s1, tr1)) ∧
    (receives (items_of [pg_ev "3" "A" Commit; pg_ev "4" "B" Create; pg_ev "5" "B" Commit])
       (resume_from (last_offset (J:=tree_json) main_failover s1.(store) pg_source) (serial_log two_blocks)) →
     ∃ s2 tr2, pg_run (J:=tree_json) pipeline_env (pg_start s1.(store) main_failover main_limiter)
         (items_of [pg_ev "3" "A" Commit; pg_ev "4" "B" Create; pg_ev "5" "B" Commit]) = Some (Ret (s2, tr2)) ∧
       attempted tr1 ++ attempted tr2 =
         [pg_ev "1" "A" Create; pg_ev "2" "A" Update; pg_ev "4" "B" Create]).
Proof.
  destruct (serial_crash_resume (J:=tree_json) mem_db_readable mem_db_writable pipeline_env main_store
    main_failover main_limiter two_blocks 4 (items_of (take 4 (serial_log two_blocks))))
    as (s1 & tr1 & R1 & Hrest).
  - by repeat constructor.
  - all_pass.
  - apply (bool_decide_unpack _). by vm_compute.
  - apply (bool_decide_unpack _). by vm_compute.
  - reflexivity.
  - apply receives_items.
  - apply granted_main. cbn. lia.
  - exists s1, tr1. split; [exact R1|]. intros Hr. apply (Hrest main_failover main_limiter); [exact Hr|].
    apply granted_main. cbn. lia.
Defined.

Lemma interleaved_crash_loses_witness :
  ∃ s1 tr1, pg_run (J:=tree_json) pipeline_env (pg_start main_store main_failover main_limiter)
              (items_of [pg_ev "1" "A" Create; pg_ev "2" "B" Create; pg_ev "3" "B" Commit])
              = Some (Ret (s1, tr1)) ∧ attempted tr1 = [pg_ev "2" "B" Create].
Proof.
  destruct (interleaved_crash_loses (J:=tree_json) mem_db_readable mem_db_writable pipeline_env main_store
    main_failover main_limiter "A" "B" (pg_ev "1" "A" Create) (pg_ev "2" "B" Create) (pg_ev "3" "B" Commit)
    (pg_ev "4" "A" Commit)
    (items_of [pg_ev "1" "A" Create; pg_ev "2" "B" Create; pg_ev "3" "B" Commit]))
    as (_ & s1 & tr1 & R1 & A1 & _).
  - by repeat constructor.
  - by repeat constructor.
  - discriminate.
  - by repeat constructor.
  - by repeat constructor.
  - all_pass.
  - apply (bool_decide_unpack _). by vm_compute.
  - discriminate.
  - reflexivity.
  - apply receives_items.
  - apply granted_main. cbn. lia.
  - exists s1, tr1. split; [exact R1|exact A1].
Defined.

(** A JSON library whose SIMD serialiser fails. *)
Definition failing_json : SerdeJson := {|
  json_error := unit;
  value_to_string := @value_to_string tree_json;
  value_debug := @value_debug tree_json;
  value_to_vec := @value_to_vec tree_json;
  value_from_slice := @value_from_slice tree_json;
  event_to_vec := @event_to_vec tree_json;
  event_from_slice := @event_from_slice tree_json;
  simd_to_string _ := Err tt;
  json_error_to_string := @json_error_to_string tree_json;
|}.

Lemma failed_send_lost_witness :
  ∃ st' tr, deliver (J:=failing_json) pipeline_env "postgres_users" still O empty_store wasm_event
      = Ret (st', tr) ∧ attempted tr = [wasm_event] ∧ sent tr = [] ∧ given_up tr = [].
Proof.
  destruct (failed_send_lost (J:=failing_json) mem_db_writable pipeline_env "postgres_users" still O empty_store
    wasm_event wasm_event tt) as (st' & tr & H1 & H2 & H3 & H4 & _); [by_eval|reflexivity|].
  exists st', tr. split; [exact H1|]. split; [exact H2|]. split; [exact H3|exact H4].
Defined.

Definition watermark_event : ChangeEvent :=
  MkEvent "wm-1" "caminus_db" "caminus_watermarks" Create 0 VNull None
    (Some (VObject [("mark", VString "low")])) None "9".

Lemma watermark_insert_rejected_witness :
  ∃ s' tr, pg_event (J:=tree_json) pipeline_env still (pg_start main_store main_failover main_limiter)
      watermark_event = Ret (s', tr) ∧ given_up tr = [watermark_event].
Proof.
  destruct (watermark_insert_rejected (J:=tree_json) pipeline_env still
    (pg_start main_store main_failover main_limiter) watermark_event user_schema
    [("id", VString "integer"); ("name", VString "string")] [("mark", VString "low")] "id")
    as (_ & s' & tr & H1 & _ & H3);
    [by_eval | reflexivity | left | reflexivity | reflexivity | reflexivity | reflexivity |
     apply not_elem_of_empty |].
  exists s', tr. split; [exact H1|exact H3].
Defined.

End Pipeline.
