(* ===== verification/Effects.v ===== *)
(** The effects of the ingestion tasks one by one: in which order an event is sent, checkpointed and
    counted, and what a crash between two effects leaves behind. *)
From S2P Require Import Prelude Text F64 Event Clock Buffer Dedup Store Schema Confluent Avro.
From S2P Require Import Watermark Consensus RateLimiter Sip Router Transform Guests Sink Reference Pipeline.

Module Effects.
Import Pipeline.
Section effects.
Context `{R : RocksDB} `{J : SerdeJson} `{W : Wasmtime}.
Abbreviation effect := (@effect R J).

(** ** Observations of a trace *)

Definition checkpoints (tr : list effect) : list string :=
  omap (λ f, match f with Checkpoint off _ => Some off | _ => None end) tr.
Definition latencies (tr : list effect) : list f64 :=
  omap (λ f, match f with Latency d => Some d | _ => None end) tr.
Definition lags (tr : list effect) : list f64 :=
  omap (λ f, match f with Lag d => Some d | _ => None end) tr.
Definition throughput (tr : list effect) : Z :=
  foldr Z.add 0 (omap (λ f, match f with Throughput n => Some n | _ => None end) tr).

(** The store after the effects of a trace: of these only the checkpoints write to it. *)
Definition stored (sid : string) (st : StateStore.t R) (tr : list effect) : StateStore.t R :=
  fold_left (λ st off, (StateStore.save_offset (J:=J) st sid off).1) (checkpoints tr) st.

(** ** The shape of a trace *)

Definition quiet (f : effect) : bool :=
  match f with DeadLetter _ _ | Flushing _ _ | StreamError | Skipped _ => true | _ => false end.

(** [audited sid st tr st']: the trace consists of whole deliveries, between them effects that touch
    neither sinks nor store, and takes the store from [st] to [st']. *)
Inductive audited (sid : string) : StateStore.t R → list effect → StateStore.t R → Prop :=
  | audited_nil st : audited sid st [] st
  | audited_quiet f st tr st' : quiet f = true → audited sid st tr st' → audited sid st (f :: tr) st'
  | audited_delivery e i p k c d l st tr st' :
    audited sid (StateStore.save_offset (J:=J) st sid e.(offset)).1 tr st' →
    audited sid st
      ([Assigned i p; Kafka e k; Console e c;
        Checkpoint e.(offset) (StateStore.save_offset (J:=J) st sid e.(offset)).2;
        Latency d; Throughput 1; Lag l] ++ tr) st'.
#[local] Hint Constructors audited : core.

Lemma audited_app sid st1 tr1 st2 tr2 st3 :
  audited sid st1 tr1 st2 → audited sid st2 tr2 st3 → audited sid st1 (tr1 ++ tr2) st3.
Proof. induction 1; intros H2; cbn; [done|auto|]. apply audited_delivery. auto. Qed.

Lemma deliver_audited v sid c k st e st' tr :
  deliver v sid c k st e = Ret (st', tr) → audited sid st tr st'.
Proof.
  unfold deliver. destruct (WasmTransformer.transform _ e) as [[e'|err]|]; cbn [mbind Outcome_bind]; [| |done].
  - destruct (StateStore.save_offset st sid (offset e')) as [st1 saved] eqn:E. intros [= <- <-].
    change saved with (st1, saved).2. rewrite <- E. apply audited_delivery. rewrite E. cbn. auto.
  - intros [= <- <-]. auto.
Qed.

Lemma deliver_all_audited v sid c k st ms st' tr :
  deliver_all v sid c k st ms = Ret (st', tr) → audited sid st tr st'.
Proof.
  revert k st st' tr. induction ms as [|m ms IH]; intros k st st' tr; cbn [deliver_all].
  { intros [= <- <-]. auto. }
  destruct (deliver v sid c k st m) as [[st1 tr1]|] eqn:E1; cbn [mbind Outcome_bind]; [|done].
  destruct (deliver_all v sid c (S k) st1 ms) as [[st2 tr2]|] eqn:E2; cbn [mbind Outcome_bind]; [|done].
  intros [= <- <-]. eapply audited_app; [by eapply deliver_audited|by eapply IH].
Qed.

Lemma pg_event_audited v c s e s' tr :
  pg_event v c s e = Ret (s', tr) → audited pg_source s.(store) tr s'.(store).
Proof.
  unfold pg_event. destruct (DeduplicationFilter.check_and_track _ _) as [d []]; cbn [store].
  { intros [= <- <-]. auto. }
  destruct (SchemaRegistry.validate_event _ _ _) as [[u|err]|]; cbn [mbind Outcome_bind]; [| |done].
  2: { intros [= <- <-]. auto. }
  destruct (WatermarkSnapshotter.process_replication_event _ _) as [wm [e'|]].
  2: { intros [= <- <-]. auto. }
  destruct (TransactionBuffer.process _ _) as [b ms]. cbn [store].
  destruct (deliver_all _ _ _ _ _ _) as [[st1 tr1]|] eqn:E; cbn [mbind Outcome_bind]; [|done].
  intros [= <- <-]. apply deliver_all_audited in E. destruct (operation e'); cbn; auto.
Qed.

Lemma cass_event_audited v c s e s' tr :
  cass_event v c s e = Ret (s', tr) → audited cass_source s.(cass_store) tr s'.(cass_store).
Proof.
  unfold cass_event. destruct (DeduplicationFilter.check_and_track _ _) as [d []]; cbn [cass_store].
  { intros [= <- <-]. auto. }
  destruct (TransactionBuffer.process _ _) as [b ms]. cbn [cass_store].
  destruct (deliver_all _ _ _ _ _ _) as [[st1 tr1]|] eqn:E; cbn [mbind Outcome_bind]; [|done].
  intros [= <- <-]. by apply deliver_all_audited in E.
Qed.

Lemma pg_item_audited {E} v s (i : item E) s' tr b :
  pg_item v s i = Some (Ret (s', tr, b)) → audited pg_source s.(store) tr s'.(store).
Proof.
  unfold pg_item. destruct (negb (leads i)); [intros [= <- <- <-]; auto|].
  destruct (TokenBucketLimiter.acquire _ _ _) as [[lim|]|]; cbn [mbind option_bind Outcome_bind]; try done.
  destruct (event_result i) as [e|err].
  - destruct (pg_event _ _ _ _) as [[s1 tr1]|] eqn:Ee; cbn [mbind Outcome_bind]; [|done].
    intros [= <- <- <-]. by apply pg_event_audited in Ee.
  - intros [= <- <- <-]. cbn. auto.
Qed.

Lemma cass_item_audited {E} v s (i : item E) s' tr b :
  cass_item v s i = Some (Ret (s', tr, b)) → audited cass_source s.(cass_store) tr s'.(cass_store).
Proof.
  unfold cass_item. destruct (negb (leads i)); [intros [= <- <- <-]; auto|].
  destruct (TokenBucketLimiter.acquire _ _ _) as [[lim|]|]; cbn [mbind option_bind Outcome_bind]; try done.
  destruct (event_result i) as [e|err].
  - destruct (cass_event _ _ _ _) as [[s1 tr1]|] eqn:Ee; cbn [mbind Outcome_bind]; [|done].
    intros [= <- <- <-]. by apply cass_event_audited in Ee.
  - intros [= <- <- <-]. cbn. auto.
Qed.

Lemma run_audited {S I} (turn : S → I → option (Outcome (S * list effect * bool)))
    (sto : S → StateStore.t R) sid s items s' tr :
  (∀ s i s' tr b, turn s i = Some (Ret (s', tr, b)) → audited sid (sto s) tr (sto s')) →
  run turn s items = Some (Ret (s', tr)) → audited sid (sto s) tr (sto s').
Proof.
  intros Ht. revert s s' tr. induction items as [|i items IH]; intros s s' tr; cbn [run].
  { intros [= <- <-]. auto. }
  destruct (turn s i) as [[[[s1 tr1] []]|]|] eqn:E; cbn [mbind option_bind]; try done.
  - destruct (run turn s1 items) as [[[s2 tr2]|]|] eqn:E2; cbn [mbind option_bind Outcome_bind]; try done.
    intros [= <- <-]. eapply audited_app; [by eapply Ht|by eapply IH].
  - intros [= <- <-]. by eapply Ht.
Qed.

(** A run of either task. *)
Inductive task_run {E} (v : env) (items : list (item E)) :
    string → StateStore.t R → list effect → StateStore.t R → Prop :=
  | run_pg s s' tr : pg_run v s items = Some (Ret (s', tr)) →
    task_run v items pg_source s.(store) tr s'.(store)
  | run_cass s s' tr : cass_run v s items = Some (Ret (s', tr)) →
    task_run v items cass_source s.(cass_store) tr s'.(cass_store).

Lemma task_audited {E} v (items : list (item E)) sid st tr st' :
  task_run v items sid st tr st' → audited sid st tr st'.
Proof.
  intros [s s' tr' H|s s' tr' H].
  - eapply (run_audited _ store); [|exact H]. intros *. apply pg_item_audited.
  - eapply (run_audited _ cass_store); [|exact H]. intros *. apply cass_item_audited.
Qed.

(** ** Cutting a trace *)

Lemma attempted_cons f tr : attempted (f :: tr) = attempted [f] ++ attempted tr.
Proof. apply (attempted_app [f]). Qed.
Lemma checkpoints_app a b : checkpoints (a ++ b) = checkpoints a ++ checkpoints b.
Proof. apply omap_app. Qed.
Lemma checkpoints_cons f tr : checkpoints (f :: tr) = checkpoints [f] ++ checkpoints tr.
Proof. apply (checkpoints_app [f]). Qed.

(** [cut_at tr a d]: in the trace [tr] the events [a] were sent and checkpointed, then [d] was only sent. *)
Definition cut_at (tr : list effect) (a d : list ChangeEvent) : Prop :=
  attempted tr = a ++ d ∧ checkpoints tr = offset <$> a ∧ (length d <= 1)%nat.

Lemma cut_nil : cut_at [] [] [].
Proof. split_and!; [done|done|cbn; lia]. Qed.

Lemma audited_cut sid st tr st' tr1 tr2 : audited sid st tr st' → tr = tr1 ++ tr2 →
  ∃ a d, cut_at tr1 a d.
Proof.
  intros H. revert tr1. induction H as [st|f st tr st' Hq _ IH|e i p k c d l st tr st' _ IH]; intros tr1 E.
  - symmetry in E. apply app_nil in E as [-> ->]. exists [], []. apply cut_nil.
  - destruct tr1 as [|g tr1]; [exists [], []; apply cut_nil|]. injection E as <- E.
    destruct (IH _ E) as (a & d & Ha & Hc & Hd). exists a, d. unfold cut_at. rewrite attempted_cons, checkpoints_cons, Ha, Hc.
    by destruct f.
  - do 7 (destruct tr1 as [|? tr1];
      [first [exists [], []; by split_and!; cbn; try lia | exists [], [e]; by split_and!; cbn; try lia
             | exists [e], []; by split_and!; cbn; try lia]
      |injection E as <- E]).
    destruct (IH _ E) as (a & d' & Ha & Hc & Hd). exists (e :: a), d'. unfold cut_at.
    split_and!; [| |done].
    + change (e :: attempted tr1 = e :: a ++ d'). by rewrite Ha.
    + change (offset e :: checkpoints tr1 = offset e :: (offset <$> a)). by rewrite Hc.
Qed.

Lemma audited_whole sid st tr st' : audited sid st tr st' →
  checkpoints tr = offset <$> attempted tr ∧ stored sid st tr = st' ∧
  throughput tr = Z.of_nat (length (attempted tr)) ∧
  length (latencies tr) = length (attempted tr) ∧ length (lags tr) = length (attempted tr).
Proof.
  unfold stored. induction 1 as [st|f st tr st' Hq _ IH|e i p k c d l st tr st' _ IH]; [done| |].
  - by destruct f.
  - destruct IH as (H1 & H2 & H3 & H4 & H5).
    split_and!; [|exact H2| | |].
    + change (offset e :: checkpoints tr = offset e :: (offset <$> attempted tr)). by rewrite H1.
    + change (1 + throughput tr = Z.of_nat (S (length (attempted tr)))). lia.
    + change (S (length (latencies tr)) = S (length (attempted tr))). by rewrite H4.
    + change (S (length (lags tr)) = S (length (attempted tr))). by rewrite H5.
Qed.

(** ** Properties *)

(** C10. An offset is saved only after its event is sent: in every run of either task, whatever its
    items, and at every point of its trace, the offsets saved are those of the events handed to
    Kafka, in order, but for at most the last one (an offset counts as saved when [save_offset] is called
    with it, since the loop drops the result; an event as handed to Kafka when [send] is); at the end of the run they are those of all of
    them, the throughput counter has counted each of them once, and each has one observation of
    its latency and one of its lag. *)
Theorem checkpoint_after_send {E} (v : env) (items : list (item E)) (sid : string)
    (st st' : StateStore.t R) (tr : list effect) (Hrun : task_run v items sid st tr st') :
  (∀ tr1 tr2, tr = tr1 ++ tr2 → ∃ a d, attempted tr1 = a ++ d ∧ checkpoints tr1 = offset <$> a ∧
     (length d <= 1)%nat) ∧
  checkpoints tr = offset <$> attempted tr ∧ throughput tr = Z.of_nat (length (attempted tr)) ∧
  length (latencies tr) = length (attempted tr) ∧ length (lags tr) = length (attempted tr).
Proof.
  apply task_audited in Hrun. split.
  - intros tr1 tr2. by apply audited_cut with (1 := Hrun).
  - apply audited_whole in Hrun. naive_solver.
Qed.

Context {L : RocksDBLaws R}.
Context (readable : ∀ d : db, db_readable d).
Context (writable : ∀ (d : db) k b, ∃ d', db_put d k b = (d', Ok tt)).

Lemma stored_cut sid st tr a d : cut_at tr a d → stored sid st tr = save_all sid st a.
Proof.
  intros (_ & Hc & _). unfold stored, save_all. rewrite Hc. clear. revert st.
  induction a as [|e a IH]; intros st; [done|]. apply IH.
Qed.

(** At least once: on a serial log with distinct ids and offsets and events that every stage lets
    through, the node may crash between any two effects, also between sending an event and saving
    its offset.  A node that restarts on the store as the crash left it sends all the remaining
    mutations in order, and of those already sent at most one again: the one whose offset was not
    saved yet. *)
Theorem crash_anywhere {E} (v : env) (st : StateStore.t R) (fo : FailoverController.t)
    (lim : TokenBucketLimiter.t) (ks : list tx_block) (c : nat) (items : list (item E))
    (Hks : Forall block_ok ks) (Hpass : Forall (passes v st) (serial_log ks))
    (Hids : NoDup (id <$> serial_log ks)) (Hoffs : NoDup (offset <$> serial_log ks))
    (Hnone : StateStore.offset_at st pg_source = None)
    (Hes : receives items (take c (serial_log ks))) (Hg : granted lim items) :
  ∃ s tr, pg_run v (pg_start st fo lim) items = Some (Ret (s, tr)) ∧
  stored pg_source st tr = s.(store) ∧
  ∀ tr1 tr2, tr = tr1 ++ tr2 → let st1 := stored pg_source st tr1 in
  ∀ fo' lim' (items' : list (item E)),
    receives items' (resume_from (last_offset fo' st1 pg_source) (serial_log ks)) → granted lim' items' →
    ∃ s2 tr', pg_run v (pg_start st1 fo' lim') items' = Some (Ret (s2, tr')) ∧
    ∃ a b d, mutations ks = a ++ b ∧ attempted tr1 = a ++ d ∧ attempted tr' = b ∧
      d `prefix_of` b ∧ (length d <= 1)%nat.
Proof.
  destruct (first_run readable v st fo lim _ c items Hpass Hids Hes Hg) as (s & tr & R1 & A1 & _).
  exists s, tr. split; [done|]. pose proof (task_audited v items _ _ _ _ (run_pg v items _ _ _ R1)) as Ha.
  split; [by destruct (audited_whole _ _ _ _ Ha) as (_ & ? & _)|]. intros tr1 tr2 E1 st1 fo' lim' items' Hes' Hg'.
  destruct (audited_cut _ _ _ _ tr1 tr2 Ha E1) as (a & d & Hcut).
  assert (Hst : st1 = save_all pg_source st a) by by by apply (stored_cut _ _ _ _ d).
  destruct Hcut as (H1 & _ & Hd).
  destruct (serial_prefix ks c Hks) as [l Hl]. rewrite <- A1, E1, attempted_app, H1, <- !app_assoc in Hl.
  rewrite Hst in *.
  destruct (resume_run readable writable v st fo' lim' _ a items' Hpass Hids Hnone) as (s2 & tr' & R2 & A2);
    [|done|done|].
  { intros e He. apply mutations_in_log. rewrite Hl, elem_of_app. by left. }
  exists s2, tr'. split; [done|]. pose proof (serial_resume ks (length a) Hks Hoffs) as Hr.
  rewrite Hl, take_app_length, <- Hl in Hr. exists a, (attempted tr'), d. rewrite A2, Hr.
  split_and!; [done|done|done| |done]. rewrite Hl in Hr. apply app_inv_head in Hr. rewrite Hr.
  by eexists.
Qed.

End effects.

(** ** Witnesses *)

Lemma two_blocks_pass : Forall (passes (J:=tree_json) pipeline_env main_store) (serial_log two_blocks).
Proof. all_pass. Qed.

Lemma two_blocks_ids : NoDup (id <$> serial_log two_blocks).
Proof. apply (bool_decide_unpack _). by vm_compute. Qed.

Lemma two_blocks_offsets : NoDup (offset <$> serial_log two_blocks).
Proof. apply (bool_decide_unpack _). by vm_compute. Qed.

Lemma checkpoint_after_send_witness :
  ∃ s tr, pg_run (J:=tree_json) pipeline_env (pg_start main_store main_failover main_limiter)
      (items_of (serial_log two_blocks)) = Some (Ret (s, tr)) ∧
    checkpoints tr = ["1"; "2"; "4"]%string ∧ throughput tr = 3.
Proof.
  destruct (first_run (J:=tree_json) mem_db_readable pipeline_env main_store main_failover main_limiter
    (serial_log two_blocks) 5 (items_of (serial_log two_blocks))) as (s & tr & R1 & A1 & _).
  - exact two_blocks_pass.
  - exact two_blocks_ids.
  - apply receives_items.
  - apply granted_main. cbn. lia.
  - destruct (checkpoint_after_send (J:=tree_json) pipeline_env (items_of (serial_log two_blocks)) pg_source
      main_store s.(store) tr) as (_ & H1 & H2 & _).
    + exact (run_pg pipeline_env _ _ _ _ R1).
    + exists s, tr. split; [exact R1|]. rewrite H1, H2, A1. split; by_eval.
Defined.

(** The effects of a run that ends. *)
Definition trace_of (r : option (Outcome (pg_task * list (@effect mem_db tree_json)))) :
    list (@effect mem_db tree_json) :=
  match r with Some (Ret (_, tr)) => tr | _ => [] end.

(** The node crashes after it has sent the second mutation and before it saves its offset. *)
Definition cut_trace : list (@effect mem_db tree_json) :=
  take 10 (trace_of (pg_run pipeline_env (pg_start main_store main_failover main_limiter)
                       (items_of (take 4 (serial_log two_blocks))))).

Lemma crash_anywhere_witness :
  ∃ s2 tr', pg_run (J:=tree_json) pipeline_env
      (pg_start (stored pg_source main_store cut_trace) main_failover main_limiter)
      (items_of (drop 1 (serial_log two_blocks))) = Some (Ret (s2, tr')) ∧
    ∃ a b d, mutations two_blocks = a ++ b ∧ [pg_ev "1" "A" Create; pg_ev "2" "A" Update] = a ++ d ∧
      attempted tr' = b ∧ d `prefix_of` b ∧ (length d <= 1)%nat.
Proof.
  destruct (crash_anywhere (J:=tree_json) mem_db_readable mem_db_writable pipeline_env main_store
    main_failover main_limiter two_blocks 4 (items_of (take 4 (serial_log two_blocks))))
    as (s & tr & R1 & _ & H).
  - by repeat constructor.
  - exact two_blocks_pass.
  - exact two_blocks_ids.
  - exact two_blocks_offsets.
  - reflexivity.
  - apply receives_items.
  - apply granted_main. cbn. lia.
  - assert (E : tr = cut_trace ++ drop 10 tr).
    { unfold cut_trace. rewrite R1. cbn [trace_of]. by rewrite take_drop. }
    destruct (H _ _ E main_failover main_limiter (items_of (drop 1 (serial_log two_blocks))))
      as (s2 & tr' & R2 & a & b & d & H1 & H2 & H3 & H4 & H5).
    + assert (resume_from (last_offset (J:=tree_json) main_failover (stored pg_source main_store cut_trace) pg_source)
        (serial_log two_blocks) = drop 1 (serial_log two_blocks)) as -> by by_eval.
      apply receives_items.
    + apply granted_main. cbn. lia.
    + exists s2, tr'. split; [exact R2|]. exists a, b, d.
      split; [exact H1|]. split; [|split; [exact H3|split; [exact H4|exact H5]]].
      etransitivity; [|exact H2]. by_eval.
Defined.

End Effects.
