(* ===== verification/Engine.v ===== *)
(** Both ingestion tasks of [main] at once.

    The tasks share the state store, the failover controller and the limiter, and every call on a shared
    object is one atomic step: the steps of the two tasks interleave in any order.  A task is described
    by the class [Task], what it promises by [TaskLaws]; the theorems hold for any two tasks with
    different source ids and are used for the tasks of [main].

    Nothing is assumed of the writes of the database: [main] drops the result of [save_offset], so what
    is stored is the offset of the last [save_offset] that succeeded. *)
From S2P Require Import Prelude Text F64 Event Clock Buffer Dedup Store Schema Confluent Avro.
From S2P Require Import Watermark Consensus RateLimiter Sip Router Transform Guests Sink Reference Pipeline Effects.

Module Engine.
Import Pipeline Effects.
Section engine.
Context `{R : RocksDB} `{J : SerdeJson} `{W : Wasmtime}.
Context {L : RocksDBLaws R}.
Abbreviation effect := (@effect R J).
Abbreviation env := (@env W).

(** ** Tasks *)

(** The part of a task that differs between the two: its private state and how it turns an event into
    the mutations to deliver. *)
Class Task := {
  local : Type;
  source_id : string;
  handle : env → StateStore.t R → readings → local → ChangeEvent →
    Outcome (local * list effect * list ChangeEvent);
}.

(** What a task hands on, as a function of the events it has received from a given private state. *)
Class TaskLaws (T : Task) := {
  expected : StateStore.t R → local → list ChangeEvent → list ChangeEvent;
  expected_nil st l : expected st l [] = [];
  handle_quiet v st c l e l' tr ms : handle v st c l e = Ret (l', tr, ms) →
    attempted tr = [] ∧ checkpoints tr = [];
  handle_expected v st st0 c l e l' tr ms : same_schema st st0 → handle v st c l e = Ret (l', tr, ms) →
    ∀ rest, expected st0 l (e :: rest) = ms ++ expected st0 l' rest;
  expected_prefix st l es more : expected st l es `prefix_of` expected st l (es ++ more);
}.

(** ** The steps of a task *)

Record shared := Shared {
  sh_store : StateStore.t R;
  sh_failover : FailoverController.t;
  sh_limiter : TokenBucketLimiter.t;
}.

(** Where a task is: waiting for its stream, in [acquire] with an item, before the transformation of a
    mutation, between the sinks and the store with a transformed one, or ended. *)
Inductive point (E : Type) :=
  | Idle
  | Acquiring (i : item E)
  | Delivering (c : readings) (k : nat) (ms : list ChangeEvent)
  | Saving (c : readings) (k : nat) (e : ChangeEvent) (ms : list ChangeEvent)
  | Stopped.
#[global] Arguments Idle {_}.
#[global] Arguments Acquiring {_} _.
#[global] Arguments Delivering {_} _ _ _.
#[global] Arguments Saving {_} _ _ _ _.
#[global] Arguments Stopped {_}.

(** [received] are the events that [acquire] let pass while the node led, which is later than their being taken
    from the stream: an event being waited for is in [Acquiring], one dropped on standby is a [Skipped] of
    [trace]. *)
Record running (T : Task) (E : Type) := Running {
  loc : local;
  at_ : point E;
  trace : list effect;
  received : list ChangeEvent;
}.
#[global] Arguments Running {_ _} _ _ _ _.
#[global] Arguments loc {_ _} _.
#[global] Arguments at_ {_ _} _.
#[global] Arguments trace {_ _} _.
#[global] Arguments received {_ _} _.

(** The two halves of [deliver]: up to the sinks, and from the store on. *)
Definition send_effects (v : env) (e : ChangeEvent) : list effect :=
  [Assigned e.(id) (PartitionRouter.resolve_partition v.(router) e);
   Kafka e (KafkaSink.send v.(kafka_sink) e); Console e (StdoutSink.send e)].

Definition save_effects (v : env) (c : readings) (k : nat) (e : ChangeEvent)
    (saved : Result unit (@StateStore.StorageError R J)) : list effect :=
  [Checkpoint e.(offset) saved;
   record_processing_latency (as_secs_f64 (duration_since (c.(instant_now) k) c.(processing_start)));
   increment_throughput 1;
   record_replication_lag
     (f64_div (f64_of_Z (v.(num_milliseconds) (c.(utc_now) k - e.(timestamp)))) (f64_of_Z 1000))].

Inductive task_step {E} (T : Task) (v : env) : shared → running T E → shared → running T E → Prop :=
  | step_standby sh l tr es (i : item E) : i.(leads) = false →
    task_step T v sh (Running l Idle tr es) sh
      (Running l Idle (tr ++ [Skipped (ok_val i.(event_result))]) es)
  | step_receive sh l tr es (i : item E) : i.(leads) = true →
    task_step T v sh (Running l Idle tr es)
      (Shared sh.(sh_store) (FailoverController.record_heartbeat i.(heartbeat_now) sh.(sh_failover)) sh.(sh_limiter))
      (Running l (Acquiring i) tr es)
  | step_sleep sh l tr es i now lim d :
    TokenBucketLimiter.acquire_turn sh.(sh_limiter) now 1 = (lim, Ret (Some d)) →
    task_step T v sh (Running l (Acquiring i) tr es) (Shared sh.(sh_store) sh.(sh_failover) lim)
      (Running l (Acquiring i) tr es)
  | step_event sh l tr es i now lim e l' tr' ms :
    TokenBucketLimiter.acquire_turn sh.(sh_limiter) now 1 = (lim, Ret None) → i.(event_result) = Ok e →
    handle v sh.(sh_store) i.(clock) l e = Ret (l', tr', ms) →
    task_step T v sh (Running l (Acquiring i) tr es) (Shared sh.(sh_store) sh.(sh_failover) lim)
      (Running l' (Delivering i.(clock) O ms) (tr ++ tr') (es ++ [e]))
  | step_stream_error sh l tr es i now lim err :
    TokenBucketLimiter.acquire_turn sh.(sh_limiter) now 1 = (lim, Ret None) → i.(event_result) = Err err →
    task_step T v sh (Running l (Acquiring i) tr es) (Shared sh.(sh_store) sh.(sh_failover) lim)
      (Running l Stopped (tr ++ [StreamError]) es)
  | step_send sh l tr es c k m ms e :
    WasmTransformer.transform v.(transformer) m = Ret (Ok e) →
    task_step T v sh (Running l (Delivering c k (m :: ms)) tr es) sh
      (Running l (Saving c k e ms) (tr ++ send_effects v e) es)
  | step_save sh l tr es c k e ms st saved :
    StateStore.save_offset sh.(sh_store) source_id e.(offset) = (st, saved) →
    task_step T v sh (Running l (Saving c k e ms) tr es) (Shared st sh.(sh_failover) sh.(sh_limiter))
      (Running l (Delivering c (S k) ms) (tr ++ save_effects v c k e saved) es)
  | step_reject sh l tr es c k m ms err :
    WasmTransformer.transform v.(transformer) m = Ret (Err err) →
    task_step T v sh (Running l (Delivering c k (m :: ms)) tr es) sh
      (Running l (Delivering c (S k) ms)
         (tr ++ [dead_letter v m (WasmTransformer.error_to_string err) "WasmTransform" (c.(utc_now) k)]) es)
  | step_next sh l tr es c k :
    task_step T v sh (Running l (Delivering c k []) tr es) sh (Running l Idle tr es)
  | step_panic_acquire sh l tr es i now lim :
    TokenBucketLimiter.acquire_turn sh.(sh_limiter) now 1 = (lim, Panic) →
    task_step T v sh (Running l (Acquiring i) tr es) (Shared sh.(sh_store) sh.(sh_failover) lim)
      (Running l Stopped tr es)
  | step_panic_handle sh l tr es i now lim e :
    TokenBucketLimiter.acquire_turn sh.(sh_limiter) now 1 = (lim, Ret None) → i.(event_result) = Ok e →
    handle v sh.(sh_store) i.(clock) l e = Panic →
    task_step T v sh (Running l (Acquiring i) tr es) (Shared sh.(sh_store) sh.(sh_failover) lim)
      (Running l Stopped tr es)
  | step_panic_transform sh l tr es c k m ms :
    WasmTransformer.transform v.(transformer) m = Panic →
    task_step T v sh (Running l (Delivering c k (m :: ms)) tr es) sh (Running l Stopped tr es).

(** ** The engine *)

Record engine (T1 T2 : Task) (E1 E2 : Type) := Both {
  sh : shared;
  first : running T1 E1;
  second : running T2 E2;
}.
#[global] Arguments Both {_ _ _ _} _ _ _.
#[global] Arguments sh {_ _ _ _} _.
#[global] Arguments first {_ _ _ _} _.
#[global] Arguments second {_ _ _ _} _.

Inductive step {T1 T2 : Task} {E1 E2 : Type} (v : env) : engine T1 T2 E1 E2 → engine T1 T2 E1 E2 → Prop :=
  | step_first s a b s' a' : task_step T1 v s a s' a' → step v (Both s a b) (Both s' a' b)
  | step_second s a b s' b' : task_step T2 v s b s' b' → step v (Both s a b) (Both s' a b').

(** ** The invariant of a task *)

(** The mutations a task has still to deliver, and the event it has sent and not yet saved. *)
Definition to_deliver {E} (p : point E) : list ChangeEvent :=
  match p with Delivering _ _ ms | Saving _ _ _ ms => ms | _ => [] end.
Definition unsaved {E} (p : point E) : list ChangeEvent :=
  match p with Saving _ _ e _ => [e] | _ => [] end.

Definition saved_offset (sid : string) (st0 : StateStore.t R) (a : list ChangeEvent) : option (list byte) :=
  match last a with Some e => Some (as_bytes e.(offset)) | None => StateStore.offset_at st0 sid end.

(** The offsets that the store has accepted, in order, and the one it holds after them. *)
Definition saves (tr : list effect) : list string :=
  omap (λ f, match f with Checkpoint off (Ok _) => Some off | _ => None end) tr.
Definition stored_offset (sid : string) (st0 : StateStore.t R) (tr : list effect) : option (list byte) :=
  match last (saves tr) with Some off => Some (as_bytes off) | None => StateStore.offset_at st0 sid end.

(** [done_] are the mutations handled so far and [a] the events sent and saved: relative to the store
    [st0] and the private state [l0] at the start. *)
Record task_inv {T : Task} {TL : TaskLaws T} {E} (v : env) (st0 : StateStore.t R) (l0 : local)
    (s : shared) (t : running T E) (done_ a : list ChangeEvent) : Prop := {
  inv_schema : same_schema s.(sh_store) st0;
  inv_sent : attempted t.(trace) = a ++ unsaved t.(at_);
  inv_transformed : attempted t.(trace) = flat_map (transformed v) done_;
  inv_checkpoints : checkpoints t.(trace) = offset <$> a;
  inv_saves : db_writable R → saves t.(trace) = checkpoints t.(trace);
  inv_offset : StateStore.offset_at s.(sh_store) source_id = stored_offset source_id st0 t.(trace);
  inv_prefix : ∃ lost, expected st0 l0 t.(received) = done_ ++ lost;
  inv_expected : t.(at_) ≠ Stopped → ∀ more,
    expected st0 l0 (t.(received) ++ more) = done_ ++ to_deliver t.(at_) ++ expected st0 t.(loc) more;
}.

(** A call of [save_offset], successful or not. *)
Lemma save_offset_result (st st' : StateStore.t R) sid off saved : StateStore.save_offset (J:=J) st sid off = (st', saved) →
  same_schema st' st ∧ (db_writable R → saved = Ok tt) ∧
  ∀ s, StateStore.offset_at st' s =
    if decide (s = sid) then match saved with Ok _ => Some (as_bytes off) | Err _ => StateStore.offset_at st s end
    else StateStore.offset_at st s.
Proof.
  intros E. split_and!.
  - intros s. destruct saved as [[]|e].
    + by apply StateStore.save_offset_at in E as [_ ->].
    + by apply StateStore.save_offset_failed in E as [_ ->].
  - intros Hw. unfold StateStore.save_offset, StateStore.put in E.
    destruct (Hw (StateStore.handle st) (as_bytes (StateStore.offset_key sid)) (as_bytes off)) as [d' Ed].
    rewrite Ed in E. by injection E.
  - intros s. destruct saved as [[]|e].
    + by apply StateStore.save_offset_at in E as [-> _].
    + apply StateStore.save_offset_failed in E as [-> _]. by case_decide.
Qed.

Lemma checkpoints_of_app (x y : list effect) : checkpoints (x ++ y) = checkpoints x ++ checkpoints y.
Proof. apply omap_app. Qed.
Lemma saves_app (x y : list effect) : saves (x ++ y) = saves x ++ saves y.
Proof. apply omap_app. Qed.

(** Effects that save nothing. *)
Lemma saves_quiet (tr : list effect) : checkpoints tr = [] → saves tr = [].
Proof. induction tr as [|[] tr IH]; cbn; try done. Qed.

Lemma stored_offset_quiet sid st0 (x y : list effect) : checkpoints y = [] →
  stored_offset sid st0 (x ++ y) = stored_offset sid st0 x.
Proof. intros Hy%saves_quiet. unfold stored_offset. by rewrite saves_app, Hy, app_nil_r. Qed.

Lemma stored_offset_save sid st0 tr v c k e saved : stored_offset sid st0 (tr ++ save_effects v c k e saved) =
  match saved with Ok _ => Some (as_bytes e.(offset)) | Err _ => stored_offset sid st0 tr end.
Proof.
  unfold stored_offset. rewrite saves_app. destruct saved; cbn; [by rewrite last_snoc|by rewrite app_nil_r].
Qed.

(** Effects that neither send nor save leave what the invariant says of the trace as it is. *)
Lemma task_inv_quiet {T : Task} {TL : TaskLaws T} {E} v st0 l0 s (l : local) (p : point E) tr tr' es done_ a :
  attempted tr' = [] → checkpoints tr' = [] →
  task_inv v st0 l0 s (Running l p tr es) done_ a → task_inv v st0 l0 s (Running l p (tr ++ tr') es) done_ a.
Proof.
  intros Ha Hc [I1 I2 I3 I4 I5 I6 I7 I8]. split; cbn [trace at_ received loc] in *; try done.
  - by rewrite attempted_app, Ha, app_nil_r.
  - by rewrite attempted_app, Ha, app_nil_r.
  - by rewrite checkpoints_of_app, Hc, app_nil_r.
  - intros Hw. by rewrite saves_app, (saves_quiet tr'), checkpoints_of_app, Hc, I5.
  - by rewrite stored_offset_quiet.
Qed.

(** A step after which the task has still to do what it had to do. *)
Lemma task_inv_moved {T : Task} {TL : TaskLaws T} {E} v st0 l0 s s' (t : running T E) (p : point E) done_ a :
  task_inv v st0 l0 s t done_ a → s'.(sh_store) = s.(sh_store) → unsaved p = unsaved t.(at_) →
  p = Stopped ∨ (t.(at_) ≠ Stopped ∧ to_deliver p = to_deliver t.(at_)) →
  task_inv v st0 l0 s' (Running t.(loc) p t.(trace) t.(received)) done_ a.
Proof.
  intros [I1 I2 I3 I4 I5 I6 I7 I8] Hs Hu Hp. split; cbn [trace at_ received loc]; rewrite ?Hs, ?Hu; try done.
  intros Hn more. destruct Hp as [->|[Hn' ->]]; [done|by apply I8].
Qed.

(** What is expected begins with what is done. *)
Lemma prefix_of_rest {T : Task} {TL : TaskLaws T} st0 (l0 l : local) done_ es m rest :
  (∀ more, expected st0 l0 (es ++ more) = done_ ++ (m :: rest) ++ expected st0 l more) →
  ∃ lost, expected st0 l0 es = (done_ ++ [m]) ++ lost.
Proof.
  intros H. specialize (H []). rewrite app_nil_r in H. eexists. rewrite H, <- app_assoc. reflexivity.
Qed.

(** On a database that accepts every write, the offset stored is that of the last event sent and saved. *)
Lemma inv_saved {T : Task} {TL : TaskLaws T} {E} v st0 l0 s (t : running T E) done_ a : db_writable R →
  task_inv v st0 l0 s t done_ a → StateStore.offset_at s.(sh_store) source_id = saved_offset source_id st0 a.
Proof.
  intros Hw [I1 I2 I3 I4 I5 I6 I7 I8]. rewrite I6. unfold stored_offset, saved_offset.
  rewrite I5, I4, fmap_last by done. by destruct (last a).
Qed.

Lemma task_inv_start {T : Task} {TL : TaskLaws T} {E} v s (l0 : local) :
  task_inv (E:=E) v s.(sh_store) l0 s (Running l0 Idle [] []) [] [].
Proof.
  split; cbn; try done.
  - exists []. by rewrite expected_nil.
Qed.

(** A step of the task itself. *)
Lemma task_inv_step {T : Task} {TL : TaskLaws T} {E} v st0 l0 s (t : running T E) s' t' done_ a :
  task_step T v s t s' t' → task_inv v st0 l0 s t done_ a → ∃ done' a', task_inv v st0 l0 s' t' done' a'.
Proof.
  destruct 1; intros I.
  - exists done_, a. by apply task_inv_quiet.
  - exists done_, a. apply (task_inv_moved _ _ _ _ _ _ _ _ _ I); auto.
  - exists done_, a. apply (task_inv_moved _ _ _ _ _ _ _ _ _ I); auto.
  - pose proof (handle_quiet _ _ _ _ _ _ _ _ H1) as [Q1 Q2]. exists done_, a.
    apply task_inv_quiet; [done..|]. destruct I as [I1 I2 I3 I4 I5 I6 I7 I8].
    split; cbn [sh_store loc at_ trace received to_deliver unsaved] in *; [done..| |].
    + specialize (I8 ltac:(done) [e]). eexists. exact I8.
    + intros _ more. rewrite <- app_assoc. rewrite I8 by done. cbn [app].
      by rewrite (handle_expected _ _ st0 _ _ _ _ _ _ I1 H1).
  - exists done_, a. apply task_inv_quiet; [done..|]. apply (task_inv_moved _ _ _ _ _ _ _ _ _ I); auto.
  - exists (done_ ++ [m]), a. destruct I as [I1 I2 I3 I4 I5 I6 I7 I8]. cbn [at_ unsaved to_deliver trace] in *.
    rewrite app_nil_r in I2.
    split; cbn [sh_store loc at_ trace received to_deliver unsaved]; [done| | | | | | |].
    + rewrite attempted_app. by rewrite I2.
    + rewrite attempted_app, flat_map_app, I3. f_equal. cbn. unfold transformed. by rewrite H.
    + rewrite checkpoints_of_app. cbn. by rewrite app_nil_r.
    + intros Hw. rewrite saves_app, checkpoints_of_app, I5 by done. done.
    + by rewrite stored_offset_quiet.
    + by apply (prefix_of_rest _ _ _ _ _ _ _ (I8 ltac:(done))).
    + intros _ more. cbn [loc received] in I8. rewrite I8 by done. by rewrite <- app_assoc.
  - apply save_offset_result in H as (S1 & S2 & S3). exists done_, (a ++ [e]).
    destruct I as [I1 I2 I3 I4 I5 I6 I7 I8]. cbn [at_ unsaved to_deliver trace sh_store] in *.
    split; cbn [sh_store loc at_ trace received to_deliver unsaved]; [| | | | | |done|by intros _; apply I8].
    + intros sid. by rewrite S1.
    + rewrite attempted_app, I2. cbn. by rewrite !app_nil_r.
    + rewrite attempted_app, I3. cbn. by rewrite app_nil_r.
    + rewrite checkpoints_of_app, I4, fmap_app. done.
    + intros Hw. rewrite saves_app, checkpoints_of_app, I5 by done. by rewrite S2.
    + rewrite S3, decide_True, stored_offset_save by done. by destruct saved.
  - exists (done_ ++ [m]), a. apply task_inv_quiet; [done..|].
    destruct I as [I1 I2 I3 I4 I5 I6 I7 I8]. cbn [at_ unsaved to_deliver trace] in *.
    split; cbn [sh_store loc at_ trace received to_deliver unsaved]; [done|done| |done|done|done| |].
    + rewrite flat_map_app, I3. cbn. unfold transformed. by rewrite H, app_nil_r.
    + by apply (prefix_of_rest _ _ _ _ _ _ _ (I8 ltac:(done))).
    + intros _ more. cbn [loc received] in I8. rewrite I8 by done. by rewrite <- app_assoc.
  - exists done_, a. apply (task_inv_moved _ _ _ _ _ _ _ _ _ I); auto.
  - exists done_, a. apply (task_inv_moved _ _ _ _ _ _ _ _ _ I); auto.
  - exists done_, a. apply (task_inv_moved _ _ _ _ _ _ _ _ _ I); auto.
  - exists done_, a. apply (task_inv_moved _ _ _ _ _ _ _ _ _ I); auto.
Qed.

(** A step of the other task. *)
Lemma task_inv_other {T T' : Task} {TL : TaskLaws T} {E E'} v st0 l0 s (t : running T E) s' (u u' : running T' E') done_ a :
  source_id (Task:=T) ≠ source_id (Task:=T') →
  task_step T' v s u s' u' → task_inv v st0 l0 s t done_ a → task_inv v st0 l0 s' t done_ a.
Proof.
  intros Hne Hstep [I1 I2 I3 I4 I5 I6 I7 I8]. destruct Hstep; try by split.
  apply save_offset_result in H as (S1 & _ & S3). split; try done; cbn [sh_store].
  - intros sid. by rewrite S1.
  - by rewrite S3, decide_False.
Qed.

(** ** The two tasks of [main] *)

(** The arm [Ok(event)] of the PostgreSQL task up to the mutations. *)
Definition pg_handle (v : env) (st : StateStore.t R) (c : readings)
    (l : DeduplicationFilter.t * WatermarkSnapshotter.t * TransactionBuffer.t) (event : ChangeEvent) :
    Outcome (DeduplicationFilter.t * WatermarkSnapshotter.t * TransactionBuffer.t * list effect * list ChangeEvent) :=
  let '(d, wm, b) := l in
  let '(d, duplicate) := DeduplicationFilter.check_and_track d event.(id) in
  if duplicate then Ret (d, wm, b, [], [])
  else
    validated ← SchemaRegistry.validate_event st pg_source event;
    match validated with
    | Err e =>
      Ret (d, wm, b, [dead_letter v event (SchemaRegistry.error_to_string e) "SchemaValidation" (c.(utc_now) O)], [])
    | Ok _ =>
      let '(wm, out) := WatermarkSnapshotter.process_replication_event wm event in
      match out with
      | None => Ret (d, wm, b, [], [])
      | Some processed_event =>
        let '(b, mutations) := TransactionBuffer.process b processed_event in
        let message := match processed_event.(operation) with
                       | Commit => [Flushing processed_event.(transaction_id) (length mutations)]
                       | _ => []
                       end in
        Ret (d, wm, b, message, mutations)
      end
    end.

Definition cass_handle (v : env) (st : StateStore.t R) (c : readings)
    (l : DeduplicationFilter.t * TransactionBuffer.t) (event : ChangeEvent) :
    Outcome (DeduplicationFilter.t * TransactionBuffer.t * list effect * list ChangeEvent) :=
  let '(d, b) := l in
  let '(d, duplicate) := DeduplicationFilter.check_and_track d event.(id) in
  if duplicate then Ret (d, b, [], [])
  else let '(b, mutations) := TransactionBuffer.process b event in Ret (d, b, [], mutations).

#[export] Instance pg : Task := { source_id := pg_source; handle := pg_handle }.
#[export] Instance cass : Task := { source_id := cass_source; handle := cass_handle }.

Context (readable : ∀ d : db, db_readable d).

Lemma pg_handle_quiet v st c l e l' tr ms : pg_handle v st c l e = Ret (l', tr, ms) →
  attempted tr = [] ∧ checkpoints tr = [].
Proof.
  destruct l as [[d wm] b]. unfold pg_handle. destruct (DeduplicationFilter.check_and_track d (id e)) as [d1 []].
  { by intros [= _ <- _]. }
  destruct (SchemaRegistry.validate_event _ _ _) as [[u|err]|]; cbn [mbind Outcome_bind]; [|by intros [= _ <- _]|done].
  destruct (WatermarkSnapshotter.process_replication_event wm e) as [wm1 [e1|]]; [|by intros [= _ <- _]].
  destruct (TransactionBuffer.process b e1) as [b1 ms1]. intros [= _ <- _]. by destruct (operation e1).
Qed.

Lemma pg_handle_expected v st st0 c d wm b e d' wm' b' tr ms : same_schema st st0 →
  pg_handle v st c (d, wm, b) e = Ret (d', wm', b', tr, ms) →
  ∀ rest, pg_mutations st0 d b (e :: rest) = ms ++ pg_mutations st0 d' b' rest.
Proof.
  intros Hst. unfold pg_handle, pg_mutations. cbn [deduped].
  destruct (DeduplicationFilter.check_and_track d (id e)) as [d1 []]; [by intros [= <- <- <- <- <-]|].
  assert (Hv : valid st0 e = valid st e) by (unfold valid; by rewrite (same_schema_valid readable st st0)).
  cbn [List.filter]. rewrite Hv. unfold valid at 1.
  destruct (SchemaRegistry.validate_event st pg_source e) as [[u|err]|]; cbn [mbind Outcome_bind];
    [|by intros [= <- <- <- <- <-]|done].
  cbn [List.filter]. pose proof (WatermarkSnapshotter.process_out wm e) as Hw.
  destruct (WatermarkSnapshotter.process_replication_event wm e) as [wm1 out]. cbn in Hw. subst out.
  unfold ordinary at 1. destruct (WatermarkSnapshotter.is_watermark e); cbn [negb]; [by intros [= <- <- <- <- <-]|].
  cbn [TransactionBuffer.run]. destruct (TransactionBuffer.process b e) as [b1 ms1]. intros [= <- <- <- <- <-] rest.
  by destruct (TransactionBuffer.run b1 _).
Qed.

Lemma deduped_app d es more : ∃ d', deduped d (es ++ more) = deduped d es ++ deduped d' more.
Proof.
  revert d. induction es as [|e es IH]; intros d; cbn; [by exists d|].
  destruct (DeduplicationFilter.check_and_track d (id e)) as [d1 []]; destruct (IH d1) as [d' E]; exists d'; [done|].
  by rewrite E.
Qed.

Lemma buffered_prefix b es more :
  concat (TransactionBuffer.run b es).2 `prefix_of` concat (TransactionBuffer.run b (es ++ more)).2.
Proof.
  rewrite TransactionBuffer.run_app. destruct (TransactionBuffer.run b es) as [b1 o1].
  destruct (TransactionBuffer.run b1 more) as [b2 o2]. cbn. rewrite concat_app. by eexists.
Qed.

#[export] Program Instance pg_laws : TaskLaws pg := {
  expected st l es := pg_mutations st l.1.1 l.2 es;
}.
Next Obligation. done. Qed.
Next Obligation. intros *. apply pg_handle_quiet. Qed.
Next Obligation. intros v st st0 c [[d wm] b] e [[d' wm'] b'] tr ms. apply pg_handle_expected. Qed.
Next Obligation.
  intros st [[d wm] b] es more. cbn. unfold pg_mutations. destruct (deduped_app d es more) as [d' ->].
  rewrite !List.filter_app. apply buffered_prefix.
Qed.

#[export] Program Instance cass_laws : TaskLaws cass := {
  expected _ l es := cass_mutations l.1 l.2 es;
}.
Next Obligation. done. Qed.
Next Obligation.
  intros v st c [d b] e l' tr ms. cbn. unfold cass_handle.
  destruct (DeduplicationFilter.check_and_track d (id e)) as [d1 []]; [by intros [= _ <- _]|].
  destruct (TransactionBuffer.process b e). by intros [= _ <- _].
Qed.
Next Obligation.
  intros v st st0 c [d b] e [d' b'] tr ms _. cbn. unfold cass_handle, cass_mutations. cbn [deduped].
  destruct (DeduplicationFilter.check_and_track d (id e)) as [d1 []]; [by intros [= <- <- <- <-]|].
  cbn [TransactionBuffer.run]. destruct (TransactionBuffer.process b e) as [b1 ms1]. intros [= <- <- <- <-] rest.
  by destruct (TransactionBuffer.run b1 _).
Qed.
Next Obligation.
  intros st [d b] es more. cbn. unfold cass_mutations. destruct (deduped_app d es more) as [d' ->].
  apply buffered_prefix.
Qed.

(** ** Reachable states *)

Definition pg_local0 : local (Task:=pg) :=
  (DeduplicationFilter.new 1000, WatermarkSnapshotter.new, TransactionBuffer.new).
Definition cass_local0 : local (Task:=cass) := (DeduplicationFilter.new 1000, TransactionBuffer.new).

(** Both tasks at the beginning, on a given store. *)
Definition start {E1 E2} (st : StateStore.t R) (fo : FailoverController.t) (lim : TokenBucketLimiter.t) :
    engine pg cass E1 E2 :=
  Both (Shared st fo lim) (Running pg_local0 Idle [] []) (Running cass_local0 Idle [] []).

Lemma steps_inv {T1 T2 : Task} {TL1 : TaskLaws T1} {TL2 : TaskLaws T2} {E1 E2} v st0 l1 l2
    (x y : engine T1 T2 E1 E2) : source_id (Task:=T1) ≠ source_id (Task:=T2) → rtc (step v) x y →
  (∃ d a, task_inv v st0 l1 x.(sh) x.(first) d a) → (∃ d a, task_inv v st0 l2 x.(sh) x.(second) d a) →
  (∃ d a, task_inv v st0 l1 y.(sh) y.(first) d a) ∧ (∃ d a, task_inv v st0 l2 y.(sh) y.(second) d a).
Proof.
  intros Hne H. induction H as [x|x y z Hxy _ IH]; [done|]. intros (d1 & a1 & I1) (d2 & a2 & I2). apply IH.
  - destruct Hxy as [s a b s' a' Ht|s a b s' b' Ht]; cbn in *; [by eapply task_inv_step|].
    exists d1, a1. by apply (task_inv_other (T':=T2) v st0 l1 s a s' b b').
  - destruct Hxy as [s a b s' a' Ht|s a b s' b' Ht]; cbn in *; [|by eapply task_inv_step].
    exists d2, a2. by apply (task_inv_other (T':=T1) v st0 l2 s b s' a a').
Qed.

Lemma engine_inv {E1 E2} v st fo lim (e : engine pg cass E1 E2) : rtc (step v) (start st fo lim) e →
  (∃ d a, task_inv v st pg_local0 e.(sh) e.(first) d a) ∧ (∃ d a, task_inv v st cass_local0 e.(sh) e.(second) d a).
Proof.
  intros H. apply (steps_inv v st pg_local0 cass_local0 (start st fo lim)); [done|done| |];
    exists [], []; apply (task_inv_start v (Shared st fo lim)).
Qed.

(** What an idle task has sent is determined by the events it has received. *)
Lemma idle_sent {T : Task} {TL : TaskLaws T} {E} v st0 l0 s (t : running T E) d a : task_inv v st0 l0 s t d a →
  t.(at_) = Idle → attempted t.(trace) = flat_map (transformed v) (expected st0 l0 t.(received)) ∧
  attempted t.(trace) = a ∧ checkpoints t.(trace) = offset <$> attempted t.(trace).
Proof.
  intros [I1 I2 I3 I4 I5 I6 I7 I8] Hi. rewrite Hi in *. specialize (I8 ltac:(done) []). cbn [to_deliver unsaved] in *.
  rewrite expected_nil, !app_nil_r in I8. rewrite app_nil_r in I2. subst a. by rewrite I8.
Qed.

(** What the store and the trace of a task say of its offsets: [save_offset] has been called with that of each event
    sent, in order, and the store holds the last one it has accepted, which is the last one if none fails. *)
Record all_saved {T : Task} {E} (st0 : StateStore.t R) (s : shared) (t : running T E) : Prop := {
  all_attempted : checkpoints t.(trace) = offset <$> attempted t.(trace);
  all_stored : StateStore.offset_at s.(sh_store) source_id = stored_offset source_id st0 t.(trace);
  all_last : db_writable R →
    StateStore.offset_at s.(sh_store) source_id = saved_offset source_id st0 (attempted t.(trace));
}.

Lemma all_saved_inv {T : Task} {TL : TaskLaws T} {E} v st0 l0 s (t : running T E) d a :
  task_inv v st0 l0 s t d a → unsaved t.(at_) = [] → all_saved st0 s t.
Proof.
  intros I Hu. pose proof I as [_ I2 _ I4 _ I6 _ _]. rewrite Hu, app_nil_r in I2. split; rewrite ?I2; [done|done|].
  intros Hw. by apply (inv_saved v st0 l0 s t d a Hw I).
Qed.

(** ** The turns of the loop are runs of the steps *)

Definition tstep {E} (T : Task) (v : env) (x y : shared * running T E) : Prop :=
  task_step T v x.1 x.2 y.1 y.2.

Lemma tstep_once {E} {T : Task} v s (t : running T E) s' t' :
  task_step T v s t s' t' → rtc (tstep T v) (s, t) (s', t').
Proof. intros H. by apply rtc_once. Qed.

Lemma tstep_cons {E} {T : Task} v s (t : running T E) s' t' z :
  task_step T v s t s' t' → rtc (tstep T v) (s', t') z → rtc (tstep T v) (s, t) z.
Proof. intros H. by apply rtc_l. Qed.

Lemma deliver_steps {E} {T : Task} v c k st fo lim m ms st' tr (l : local) tr0 es :
  deliver v source_id c k st m = Ret (st', tr) →
  rtc (tstep (E:=E) T v) (Shared st fo lim, Running l (Delivering c k (m :: ms)) tr0 es)
    (Shared st' fo lim, Running l (Delivering c (S k) ms) (tr0 ++ tr) es).
Proof.
  unfold deliver. destruct (WasmTransformer.transform _ m) as [[e|err]|] eqn:Et; cbn [mbind Outcome_bind]; [| |done].
  - destruct (StateStore.save_offset st source_id (offset e)) as [st1 saved] eqn:Es. intros [= <- <-].
    eapply tstep_cons; [by apply step_send|]. eapply tstep_cons; [by eapply step_save|].
    rewrite <- app_assoc. apply rtc_refl.
  - intros [= <- <-]. by apply tstep_once, step_reject.
Qed.

Lemma deliver_all_steps {E} {T : Task} v c k st fo lim ms st' tr (l : local) tr0 es :
  deliver_all v source_id c k st ms = Ret (st', tr) →
  rtc (tstep (E:=E) T v) (Shared st fo lim, Running l (Delivering c k ms) tr0 es)
    (Shared st' fo lim, Running l Idle (tr0 ++ tr) es).
Proof.
  revert k st tr tr0. induction ms as [|m ms IH]; intros k st tr tr0; cbn [deliver_all].
  { intros [= <- <-]. rewrite app_nil_r. apply tstep_once, step_next. }
  destruct (deliver v source_id c k st m) as [[st1 tr1]|] eqn:E1; cbn [mbind Outcome_bind]; [|done].
  destruct (deliver_all v source_id c (S k) st1 ms) as [[st2 tr2]|] eqn:E2; cbn [mbind Outcome_bind]; [|done].
  intros [= <- <-]. etransitivity; [by apply deliver_steps|]. rewrite app_assoc. by apply IH.
Qed.

Lemma acquire_steps {E} {T : Task} v st fo lim clk lim' (i : item E) (l : local) tr es :
  TokenBucketLimiter.acquire lim clk 1 = Some (Ret lim') → ∃ lim0 now,
  rtc (tstep T v) (Shared st fo lim, Running l (Acquiring i) tr es)
    (Shared st fo lim0, Running l (Acquiring i) tr es) ∧
  TokenBucketLimiter.acquire_turn lim0 now 1 = (lim', Ret None).
Proof.
  revert lim. induction clk as [|now clk IH]; intros lim; [done|]. cbn [TokenBucketLimiter.acquire].
  destruct (TokenBucketLimiter.acquire_turn lim now 1) as [lim1 [[d|]|]] eqn:Et; [| |done].
  - intros (lim0 & now0 & Hs & Hg)%IH. exists lim0, now0. split; [|done].
    eapply tstep_cons; [|exact Hs]. by apply (step_sleep T v (Shared st fo lim) l tr es i now lim1 d).
  - intros [= <-]. exists lim, now. by split.
Qed.

(** [pg_event] is the handling followed by the deliveries. *)
Lemma pg_event_handle v c s e s' tr : pg_event v c s e = Ret (s', tr) → ∃ tr1 tr2 ms,
  pg_handle v s.(store) c (s.(dedup_filter), s.(watermark_engine), s.(tx_buffer)) e =
    Ret (s'.(dedup_filter), s'.(watermark_engine), s'.(tx_buffer), tr1, ms) ∧
  deliver_all v pg_source c O s.(store) ms = Ret (s'.(store), tr2) ∧ tr = tr1 ++ tr2 ∧
  s'.(failover) = s.(failover) ∧ s'.(limiter) = s.(limiter).
Proof.
  unfold pg_event, pg_handle. destruct (DeduplicationFilter.check_and_track _ _) as [d []]; cbn [store].
  { intros [= <- <-]. by exists [], [], []. }
  destruct (SchemaRegistry.validate_event _ _ _) as [[u|err]|]; cbn [mbind Outcome_bind]; [| |done].
  2: { intros [= <- <-]. by eexists _, [], []. }
  cbn [watermark_engine]. destruct (WatermarkSnapshotter.process_replication_event _ _) as [wm [e'|]].
  2: { intros [= <- <-]. by exists [], [], []. }
  cbn [tx_buffer store]. destruct (TransactionBuffer.process _ _) as [b ms].
  destruct (deliver_all _ _ _ _ _ _) as [[st1 tr1]|] eqn:Ed; cbn [mbind Outcome_bind]; [|done].
  intros [= <- <-]. by eexists _, tr1, ms.
Qed.

Definition pg_shared (s : pg_task) : shared := Shared s.(store) s.(failover) s.(limiter).
Definition pg_local (s : pg_task) : local (Task:=pg) := (s.(dedup_filter), s.(watermark_engine), s.(tx_buffer)).

(** The events of the items that arrive while the node leads. *)
Definition taken {E} (items : list (item E)) : list ChangeEvent :=
  omap (λ i, if i.(leads) then ok_val i.(event_result) else None) items.

Lemma pg_item_steps {E} v s (i : item E) s' tr goes_on tr0 es : pg_item v s i = Some (Ret (s', tr, goes_on)) →
  rtc (tstep (E:=E) pg v) (pg_shared s, Running (T:=pg) (pg_local s) Idle tr0 es)
    (pg_shared s', Running (T:=pg) (pg_local s') (if goes_on then Idle else Stopped) (tr0 ++ tr)
       (es ++ taken [i])).
Proof.
  unfold pg_item, taken. cbn [omap list_omap]. destruct (leads i) eqn:El; cbn [negb]; cycle 1.
  { intros [= <- <- <-]. rewrite app_nil_r. by apply tstep_once, (step_standby pg v (pg_shared s) _ tr0 es i). }
  set (fo := FailoverController.record_heartbeat _ _).
  destruct (TokenBucketLimiter.acquire _ _ _) as [[lim|]|] eqn:Ea; cbn [mbind option_bind Outcome_bind]; try done.
  destruct (acquire_steps (T:=pg) v s.(store) fo _ _ _ i (pg_local s) tr0 es Ea) as (lim0 & now & Hacq & Hg).
  destruct (event_result i) as [e|err] eqn:Ee.
  - destruct (pg_event _ _ _ _) as [[s1 tr1]|] eqn:Ep; cbn [mbind Outcome_bind]; [|done]. intros [= -> -> <-].
    destruct (pg_event_handle _ _ _ _ _ _ Ep) as (t1 & t2 & ms & Hh & Hd & -> & Ef & Eli). cbn [ok_val].
    cbn [store dedup_filter watermark_engine tx_buffer failover limiter] in Hh, Hd, Ef, Eli.
    eapply tstep_cons; [by apply (step_receive pg v (pg_shared s) _ tr0 es i)|]. etransitivity; [exact Hacq|].
    eapply tstep_cons; [by eapply (step_event pg v (Shared (store s) fo lim0) (pg_local s) tr0 es i now lim e)|].
    unfold pg_shared. rewrite Ef, Eli, app_assoc. by apply (deliver_all_steps (T:=pg)).
  - intros [= <- <- <-]. cbn [ok_val]. rewrite app_nil_r. eapply tstep_cons; [by apply (step_receive pg v (pg_shared s) _ tr0 es i)|].
    etransitivity; [exact Hacq|]. by eapply tstep_once, (step_stream_error pg v (Shared (store s) fo lim0) (pg_local s) tr0 es i now lim err).
Qed.

(** The loop ends on an error of the stream only. *)
Lemma pg_item_stops {E} v s (i : item E) s' tr : pg_item v s i = Some (Ret (s', tr, false)) →
  i.(leads) = true ∧ ∃ err, i.(event_result) = Err err.
Proof.
  unfold pg_item. destruct (leads i); cbn [negb]; [|done].
  destruct (TokenBucketLimiter.acquire _ _ _) as [[lim|]|]; cbn [mbind option_bind Outcome_bind]; try done.
  destruct (event_result i) as [e|err]; [|by eauto].
  by destruct (pg_event _ _ _ _) as [[s1 tr1]|].
Qed.

(** Alone, the task's steps are steps of the engine. *)
Lemma tstep_engine {T2 : Task} {E1 E2} v (b : running T2 E2) (x y : shared * running pg E1) :
  rtc (tstep pg v) x y → rtc (step v) (Both x.1 x.2 b) (Both y.1 y.2 b).
Proof.
  induction 1 as [|[s t] [s' t'] z Hxy _ IH]; [done|]. eapply rtc_l; [|exact IH]. by apply step_first.
Qed.

(** A run of the loop, item after item, is one schedule of the steps. *)
Lemma pg_run_steps {E} v s (items : list (item E)) s' tr : pg_run v s items = Some (Ret (s', tr)) →
  ∀ tr0 es, ∃ p es', rtc (tstep (E:=E) pg v) (pg_shared s, Running (T:=pg) (pg_local s) Idle tr0 es)
    (pg_shared s', Running (T:=pg) (pg_local s') p (tr0 ++ tr) es') ∧
    ((p = Idle ∧ es' = es ++ taken items) ∨
     (p = Stopped ∧ Exists (λ i, i.(leads) = true ∧ ∃ err, i.(event_result) = Err err) items)).
Proof.
  revert s tr. induction items as [|i items IH]; intros s tr; unfold pg_run; cbn [run].
  { intros [= <- <-] tr0 es. exists Idle, es. rewrite app_nil_r. split; [done|left].
    by rewrite app_nil_r. }
  destruct (pg_item v s i) as [[[[s1 tr1] goes_on]|]|] eqn:Ei; cbn [mbind option_bind]; [|done..].
  destruct goes_on.
  - destruct (run (pg_item v) s1 items) as [[[s2 tr2]|]|] eqn:Er; cbn [mbind option_bind Outcome_bind]; try done.
    intros [= <- <-] tr0 es. pose proof (pg_item_steps v s i s1 tr1 true tr0 es Ei) as Hs1.
    destruct (IH s1 tr2 Er (tr0 ++ tr1) (es ++ taken [i])) as (p & es2 & Hs2 & Hp). exists p, es2.
    rewrite app_assoc. split; [by etransitivity|]. rewrite <- app_assoc in Hp.
    unfold taken in *. rewrite <- omap_app in Hp. destruct Hp as [?|[??]]; [by left|right]. split; [done|by right].
  - intros [= <- <-] tr0 es. pose proof (pg_item_steps v s i s1 tr1 false tr0 es Ei) as Hs1.
    exists Stopped, (es ++ taken [i]). split; [done|right]. split; [done|left].
    by eapply pg_item_stops.
Qed.

(** ** Properties *)

(** C6. The tasks do not disturb each other: on a database whose reads do not fail and whose writes may,
    in every state that both tasks together can reach from their start, by any interleaving of their
    steps on the shared store, limiter and failover controller, whatever the leadership and the clocks,
    a task that waits for its stream has sent exactly what its own events determine (those that [acquire]
    let pass, as if it ran alone); it has called [save_offset] with the offset of each event it sent, in
    that order; and the offset the store holds for its source is that of the last of these calls that
    succeeded, or the one held at the start if none has, so that it is the offset of the last event sent
    if no write fails. *)
Theorem tasks_independent {E1 E2} (v : env) (st : StateStore.t R) (fo : FailoverController.t)
    (lim : TokenBucketLimiter.t) (e : engine pg cass E1 E2) (H : rtc (step v) (start st fo lim) e) :
  (e.(first).(at_) = Idle →
    let fresh := deduped (DeduplicationFilter.new 1000) e.(first).(received) in
    attempted e.(first).(trace) =
      flat_map (transformed v) (committed (List.filter ordinary (List.filter (valid st) fresh))) ∧
    all_saved st e.(sh) e.(first)) ∧
  (e.(second).(at_) = Idle →
    attempted e.(second).(trace) =
      flat_map (transformed v) (committed (deduped (DeduplicationFilter.new 1000) e.(second).(received))) ∧
    all_saved st e.(sh) e.(second)).
Proof.
  destruct (engine_inv v st fo lim e H) as [(d1 & a1 & I1) (d2 & a2 & I2)]. split; intros Hi.
  - destruct (idle_sent v st _ _ _ _ _ I1 Hi) as (S1 & _). split; [|apply (all_saved_inv _ _ _ _ _ _ _ I1); by rewrite Hi].
    rewrite S1. cbn [expected pg_laws pg_local0 fst snd]. unfold pg_mutations. by rewrite TransactionBuffer.run_new_outputs.
  - destruct (idle_sent v st _ _ _ _ _ I2 Hi) as (S1 & _). split; [|apply (all_saved_inv _ _ _ _ _ _ _ I2); by rewrite Hi].
    rewrite S1. cbn [expected cass_laws cass_local0 fst snd]. unfold cass_mutations. by rewrite TransactionBuffer.run_new_outputs.
Qed.

End engine.

(** ** Witnesses *)

Lemma taken_items E es : taken (items_at E es) = es.
Proof. induction es as [|e es IH]; [done|]. cbn. f_equal. exact IH. Qed.

(** The PostgreSQL task alone on events that every stage lets through, the other resting at [b]. *)
Lemma alone (E1 E2 : Type) (st : StateStore.t mem_db) fo (b : running (J:=tree_json) (W:=page_engine) cass E2) es : same_schema st main_store →
  Forall (passes (J:=tree_json) pipeline_env main_store) es → NoDup (id <$> es) → (length es <= 1000)%nat →
  ∃ e : engine (R:=mem_db) (J:=tree_json) (W:=page_engine) pg cass E1 E2,
    rtc (step pipeline_env) (Both (Shared st fo main_limiter) (Running pg_local0 Idle [] []) b) e ∧
    e.(first).(at_) = Idle ∧ e.(first).(received) = es ∧ e.(second) = b.
Proof.
  intros Hs Hp Hn Hl. destruct (passes_run (J:=tree_json) mem_db_readable pipeline_env main_store st
    fo main_limiter (items_at E1 es) es Hs Hp Hn (receives_items es) (granted_main es Hl))
    as (s & tr & R1 & _).
  destruct (pg_run_steps pipeline_env _ _ _ _ R1 [] []) as (p & es' & H & [[-> ->]|[_ He]]).
  - apply (tstep_engine pipeline_env b) in H. eexists. split; [exact H|]. split_and!; [done|apply taken_items|done].
  - exfalso. apply Exists_exists in He as (i & Hi & _ & err & He). unfold items_at in Hi.
    apply list_elem_of_fmap in Hi as (e & -> & _). done.
Qed.

Lemma rtc_trans {A} {S : relation A} {x y z} : rtc S x y → rtc S y z → rtc S x z.
Proof. apply transitivity. Qed.

(** The Cassandra task has got an event and waits for its token. *)
Definition waiting_item : item unit := Item true 5 [0] still (Ok wasm_event).
Definition waiting : running (J:=tree_json) (W:=page_engine) cass unit := Running cass_local0 (Acquiring waiting_item) [] [].

Lemma waiting_step : rtc (step pipeline_env) (start main_store main_failover main_limiter)
  (Both (Shared main_store (FailoverController.record_heartbeat 5 main_failover) main_limiter)
     (Running (E:=unit) (pg_local0 (J:=tree_json)) Idle [] []) waiting).
Proof. apply rtc_once, step_second. by apply (step_receive cass pipeline_env (Shared main_store _ _) _ _ _ waiting_item). Qed.

Lemma tasks_independent_witness : ∃ e : engine (R:=mem_db) (J:=tree_json) (W:=page_engine) pg cass unit unit,
  rtc (step pipeline_env) (start (J:=tree_json) main_store main_failover main_limiter) e ∧
  e.(second).(at_) = Acquiring waiting_item ∧
  attempted e.(first).(trace) = [pg_ev "1" "A" Create; pg_ev "2" "A" Update; pg_ev "4" "B" Create].
Proof.
  destruct (alone unit unit main_store (FailoverController.record_heartbeat 5 main_failover) waiting (serial_log two_blocks))
    as (e & H & Hi & Hr & Hb).
  - by intros sid.
  - exact two_blocks_pass.
  - exact two_blocks_ids.
  - cbn. lia.
  - assert (H' := rtc_trans waiting_step H). exists e. split; [exact H'|]. split; [by rewrite Hb|].
    destruct (tasks_independent mem_db_readable pipeline_env main_store main_failover main_limiter e H')
      as [H1 _].
    destruct (H1 Hi) as [H2 _]. rewrite Hr in H2. etransitivity; [exact H2|]. by_eval.
Defined.
End Engine.
