(* ===== verification/Sensors.v ===== *)
(** The Cassandra task from end to end: the simulated stream of [CassandraSource], through the loop of [main], to
    Kafka, over two lives of the node with a crash between any two effects of the first. *)
From S2P Require Import Prelude Text F64 Event Clock Buffer Dedup Store Schema Confluent Avro.
From S2P Require Import Watermark Consensus RateLimiter Sip Router Transform Guests Source Sink Reference Pipeline Effects.

Module Sensors.
Import Pipeline Effects.
Section sensors.
Context `{R : RocksDB} `{J : SerdeJson} `{W : Wasmtime} {L : RocksDBLaws R}.
Context (readable : ∀ d : db, db_readable d) (writable : ∀ (d : db) k b, ∃ d', db_put d k b = (d', Ok tt)).
Context (to_rfc3339 : Z → string).
Abbreviation env := (@env W).
Abbreviation source := (CassandraSource_CdcSource to_rfc3339).
Abbreviation readings_from := (numbered_from (S:=source)).

Implicit Types clock : list (Z * Z).

(** The guest keeps the id and the offset of an event (it may change its numbers). *)
Definition keeps (v : env) (e : ChangeEvent) : Prop :=
  ∃ e', WasmTransformer.transform v.(transformer) e = Ret (Ok e') ∧ e'.(id) = e.(id) ∧ e'.(offset) = e.(offset).

(** The ids of the [len] readings after position [pos]. *)
Definition reading_id (n : Z) : string := ("cas-evt-" ++ display_u64 n)%string.
Definition reading_ids (pos : Z) (len : nat) : list string := (λ k, reading_id (pos + Z.of_nat k + 1)) <$> seq 0 len.

Lemma reading_ids_app pos a b : reading_ids pos (a + b) = reading_ids pos a ++ reading_ids (pos + Z.of_nat a) b.
Proof.
  unfold reading_ids. rewrite seq_app, fmap_app. f_equal.
  replace (seq (0 + a) b) with (Nat.add a <$> seq 0 b) by (rewrite fmap_add_seq; f_equal; lia). rewrite <- list_fmap_compose.
  apply list_fmap_ext. intros i k _. unfold compose. f_equal. lia.
Qed.

Lemma readings_cons pos i clock : readings_from pos (i :: clock) = sensor_event to_rfc3339 (pos + 1) i :: readings_from (pos + 1) clock.
Proof. done. Qed.

Lemma readings_ids pos clock : id <$> readings_from pos clock = reading_ids pos (length clock).
Proof.
  revert pos. induction clock as [|i clock IH]; intros pos; [done|]. rewrite readings_cons.
  change (length (i :: clock)) with (1 + length clock)%nat. rewrite reading_ids_app, fmap_cons, IH.
  change (reading_ids pos 1) with [reading_id (pos + 0 + 1)]. by replace (pos + 0 + 1) with (pos + 1) by lia.
Qed.

Lemma readings_offsets pos clock : offset <$> readings_from pos clock =
  (λ k, display_u64 (pos + Z.of_nat k + 1)) <$> seq 0 (length clock).
Proof.
  revert pos. induction clock as [|i clock IH]; intros pos; [done|]. rewrite readings_cons, fmap_cons, IH.
  cbn [length seq]. rewrite fmap_cons. rewrite <- fmap_S_seq, <- list_fmap_compose. f_equal.
  - change (display_u64 (pos + 1) = display_u64 (pos + Z.of_nat 0 + 1)). f_equal. lia.
  - apply list_fmap_ext. intros k x _. unfold compose. f_equal. lia.
Qed.

Lemma readings_distinct pos clock : 0 <= pos → pos + Z.of_nat (length clock) < 2 ^ 64 → NoDup (id <$> readings_from pos clock).
Proof.
  intros H0 H1. rewrite readings_ids. unfold reading_ids. apply NoDup_fmap_2_strong; [|apply NoDup_seq].
  intros a b Ha%elem_of_seq Hb%elem_of_seq E. unfold reading_id in E.
  apply string_app_inj_l, display_u64_inj in E; unfold in_range; lia.
Qed.

Lemma readings_untransacted pos clock : Forall (λ e, e.(transaction_id) = None) (readings_from pos clock).
Proof. revert pos. induction clock as [|i clock IH]; intros pos; [by constructor|]. rewrite readings_cons. by constructor. Qed.

Lemma keeps_transformed v es : Forall (keeps v) es →
  id <$> flat_map (transformed v) es = id <$> es ∧ offset <$> flat_map (transformed v) es = offset <$> es ∧
  Forall (no_panic v) es.
Proof.
  induction 1 as [|e es (e' & He & Hi & Ho) _ (IH1 & IH2 & IH3)]; [done|]. cbn [flat_map]. unfold transformed at 1 3.
  rewrite He. cbn [app]. rewrite !fmap_cons, IH1, IH2, Hi, Ho. split_and!; [done|done|]. constructor; [|done].
  unfold no_panic. by rewrite He.
Qed.

(** One life of the task on the readings after [pos]. *)
Lemma sensors_run {E} v st fo lim (items : list (item E)) pos clock : 0 <= pos → pos + Z.of_nat (length clock) < 2 ^ 64 →
  Forall (keeps v) (readings_from pos clock) → receives items (readings_from pos clock) → granted lim items →
  ∃ s tr, cass_run v (cass_start st fo lim) items = Some (Ret (s, tr)) ∧
    id <$> attempted tr = reading_ids pos (length clock) ∧
    offset <$> attempted tr = (λ k, display_u64 (pos + Z.of_nat k + 1)) <$> seq 0 (length clock).
Proof.
  intros H0 H1 Hk Hes Hg. destruct (keeps_transformed v _ Hk) as (K1 & K2 & K3).
  assert (M : cass_mutations (DeduplicationFilter.new 1000) TransactionBuffer.new (readings_from pos clock) = readings_from pos clock).
  { unfold cass_mutations. rewrite (deduped_distinct readable); [|by apply readings_distinct|cbn; set_solver].
    apply TransactionBuffer.run_untransacted, readings_untransacted. }
  destruct (cass_run_spec v items _ (cass_start st fo lim) Hes Hg) as (s & tr & R1 & A & _).
  { cbn [cass_start cass_dedup cass_buffer]. by rewrite M. }
  cbn [cass_start cass_dedup cass_buffer] in A. rewrite M in A. exists s, tr.
  by rewrite A, K1, K2, readings_ids, readings_offsets.
Qed.

(** Where a node resumes after a crash. *)
Lemma sensors_resume fo st (a : list ChangeEvent) n : Z.of_nat n < 2 ^ 64 → StateStore.offset_at st cass_source = None →
  offset <$> a = (λ k, display_u64 (0 + Z.of_nat k + 1)) <$> seq 0 n →
  default 0 (last_offset fo (save_all cass_source st a) cass_source ≫= parse_u64) = Z.of_nat n.
Proof.
  intros Hn Hnone Ha. pose proof (save_all_offset writable cass_source st a) as Ho.
  destruct n as [|n].
  - destruct a; [|done]. cbn in Ho. rewrite Hnone in Ho. by rewrite (last_offset_none readable).
  - rewrite seq_S, fmap_app, list_fmap_singleton in Ha.
    assert (Hl : last (offset <$> a) = Some (display_u64 (Z.of_nat (S n)))).
    { rewrite Ha, last_snoc. f_equal. f_equal. lia. }
    rewrite fmap_last in Hl. destruct (last a) as [e|]; [|done]. injection Hl as Hl. rewrite Hl in Ho.
    rewrite (last_offset_saved readable _ _ _ (display_u64 (Z.of_nat (S n)))); [| |exact Ho].
    + cbn [mbind option_bind]. rewrite parse_display_u64 by (unfold in_range; lia). done.
    + apply ascii_str_ok, display_ascii. lia.
Qed.

(** From the Cassandra source to Kafka across a crash: with a database that does not fail, a guest that keeps the
    id and the offset of an event and nothing saved before, the node reads any number of readings and
    crashes between any two effects, also between sending a reading and saving its offset.  Whatever the
    node that takes over finds in its attempt counter and clock, it connects, resumes after the last
    offset that was saved and reads up to reading number [m].  Then the events sent by the two nodes are
    the readings from 1 to [m], in order and each once, but that the second node may repeat one: the
    reading that was sent when its offset was not saved yet. *)
Theorem cass_end_to_end {E} (p : Profile) (v : env) (st : StateStore.t R) (fo : FailoverController.t)
    (lim : TokenBucketLimiter.t) (m : nat) (clock : list (Z * Z)) (es : list ChangeEvent) (items : list (item E))
    (Hnone : StateStore.offset_at st cass_source = None) (Hm : Z.of_nat m < 2 ^ 64) (Hc : (length clock <= m)%nat)
    (Hs : CassandraSource.stream to_rfc3339 p (CassandraSource.start_pos (last_offset fo st cass_source)) clock = Ret es)
    (Hkeep : Forall (keeps v) es) (Hes : receives items es) (Hg : granted lim items) :
  ∃ s1 tr, cass_run v (cass_start st fo lim) items = Some (Ret (s1, tr)) ∧
  stored cass_source st tr = s1.(cass_store) ∧
  ∀ tr1 tr2, tr = tr1 ++ tr2 → let st1 := stored cass_source st tr1 in
  ∀ attempts nanos fo', in_range 64 attempts →
  ∃ start sleeps, CassandraSource.start_stream attempts nanos (last_offset fo' st1 cass_source)
      = Some (Ret (Ok (Z.of_nat start), sleeps)) ∧ (start <= length clock)%nat ∧
  ∀ clock', (start + length clock' = m)%nat →
  ∃ es', CassandraSource.stream to_rfc3339 p (Z.of_nat start) clock' = Ret es' ∧
  ∀ lim' (items' : list (item E)), Forall (keeps v) es' → receives items' es' → granted lim' items' →
  ∃ s2 tr', cass_run v (cass_start st1 fo' lim') items' = Some (Ret (s2, tr')) ∧
  ∃ d, id <$> attempted tr1 = reading_ids 0 start ++ reading_ids (Z.of_nat start) d ∧ (d <= 1)%nat ∧
    reading_ids 0 start ++ (id <$> attempted tr') = reading_ids 0 m.
Proof.
  rewrite (last_offset_none readable) in Hs by done. change (CassandraSource.start_pos None) with 0 in Hs.
  change (events (CdcSource:=source) p 0 clock = Ret es) in Hs. assert (Hlt : 0 + Z.of_nat (length clock) < 2 ^ 64) by lia.
  rewrite (events_spec (S:=source) p 0 clock (Z.le_refl 0) Hlt) in Hs. injection Hs as <-.
  destruct (sensors_run v st fo lim items 0 clock (Z.le_refl 0) Hlt Hkeep Hes Hg) as (s1 & tr & R1 & A1 & O1).
  pose proof (task_audited v items _ _ _ _ (run_cass v items _ _ _ R1)) as Ha. cbn [cass_start cass_store] in Ha.
  exists s1, tr. split; [done|]. split; [by destruct (audited_whole _ _ _ _ Ha) as (_ & ? & _)|].
  intros tr1 tr2 -> st1 attempts nanos fo' Hatt.
  destruct (audited_cut _ _ _ _ tr1 tr2 Ha eq_refl) as (a & d & Hcut).
  assert (Est : st1 = save_all cass_source st a) by by apply (stored_cut _ _ _ _ d). destruct Hcut as (H1 & _ & Hd).
  rewrite attempted_app, H1 in A1, O1. rewrite !fmap_app in A1, O1.
  assert (Hlen : (length a + length d + length (attempted tr2) = length clock)%nat).
  { apply (f_equal length) in A1. unfold reading_ids in A1. rewrite !length_app, !length_fmap, length_seq in A1. lia. }
  assert (Hoff : offset <$> a = (λ k, display_u64 (0 + Z.of_nat k + 1)) <$> seq 0 (length a)).
  { replace (length clock) with (length a + (length d + length (attempted tr2)))%nat in O1 by lia.
    rewrite seq_app, fmap_app, <- app_assoc in O1. apply app_inj_1 in O1 as [O1 _]; [done|]. by rewrite !length_fmap, length_seq. }
  pose proof (sensors_resume fo' st a (length a) ltac:(lia) Hnone Hoff) as Hres. rewrite <- Est in Hres.
  destruct (start_resumes (CdcSourceLaws:=CassandraSource_laws to_rfc3339) attempts nanos (last_offset fo' st1 cass_source) Hatt)
    as (sleeps & E1 & _). rewrite Hres in E1.
  exists (length a), sleeps. split; [exact E1|]. split; [lia|]. intros clock' Hm'.
  assert (H0' : 0 <= Z.of_nat (length a)) by lia.
  assert (Hlt' : Z.of_nat (length a) + Z.of_nat (length clock') < 2 ^ 64) by lia.
  exists (readings_from (Z.of_nat (length a)) clock'). split.
  { change (events (CdcSource:=source) p (Z.of_nat (length a)) clock' = Ret (readings_from (Z.of_nat (length a)) clock')).
    exact (events_spec (S:=source) p _ clock' H0' Hlt'). }
  intros lim' items' Hk' Hes' Hg'.
  destruct (sensors_run v st1 fo' lim' items' (Z.of_nat (length a)) clock' H0' Hlt' Hk' Hes' Hg')
    as (s2 & tr' & R2 & A2 & _).
  exists s2, tr'. split; [done|]. exists (length d). split; [|split; [done|]].
  - rewrite H1, fmap_app. replace (length clock) with (length a + (length d + length (attempted tr2)))%nat in A1 by lia.
    rewrite !reading_ids_app, (app_assoc (reading_ids 0 _)) in A1. apply app_inj_1 in A1 as [A1 _]; [done|].
    unfold reading_ids. by rewrite !length_app, !length_fmap, !length_seq.
  - rewrite A2, <- Hm', reading_ids_app. done.
Qed.
End sensors.

(** ** Witness: two readings, a crash after the second is sent and before its offset is saved, and two more *)

Definition no_time (_ : Z) : string := "2024-01-01T00:00:00+00:00".

Ltac all_keep := cbn [numbered_from]; repeat (apply Forall_cons; split);
  lazymatch goal with
  | |- Forall _ _ => apply Forall_nil; exact I
  | _ => eexists; split; [by_eval|split; reflexivity]
  end.

Lemma cass_end_to_end_witness :
  ∃ s1 tr, cass_run (J:=tree_json) pipeline_env (cass_start empty_store main_failover main_limiter)
    (items_of (numbered_from (S:=CassandraSource_CdcSource no_time) 0 [(1, 2); (3, 4)])) = Some (Ret (s1, tr)) ∧
  ∃ start s2 tr', cass_run (J:=tree_json) pipeline_env
    (cass_start (stored cass_source empty_store (take 10 tr)) main_failover main_limiter)
    (items_of (numbered_from (S:=CassandraSource_CdcSource no_time) (Z.of_nat start)
       (take (4 - start) [(5, 6); (7, 8); (9, 10); (11, 12)]))) = Some (Ret (s2, tr')) ∧
  reading_ids 0 start ++ (id <$> attempted tr') = ["cas-evt-1"; "cas-evt-2"; "cas-evt-3"; "cas-evt-4"]%string.
Proof.
  destruct (cass_end_to_end (J:=tree_json) mem_db_readable mem_db_writable no_time Dev pipeline_env empty_store main_failover
    main_limiter 4 [(1, 2); (3, 4)] (numbered_from (S:=CassandraSource_CdcSource no_time) 0 [(1, 2); (3, 4)])
    (items_of (numbered_from (S:=CassandraSource_CdcSource no_time) 0 [(1, 2); (3, 4)]))) as (s1 & tr & R1 & _ & H).
  - reflexivity.
  - lia.
  - cbn. lia.
  - by_eval.
  - all_keep.
  - apply receives_items.
  - apply granted_main. cbn. lia.
  - exists s1, tr. split; [exact R1|].
    destruct (H (take 10 tr) (drop 10 tr) (eq_sym (take_drop 10 tr)) 0 (λ _, None) main_failover ltac:(unfold in_range; lia))
      as (start & _ & _ & Hle & H2).
    set (clock := take (4 - start) [(5, 6); (7, 8); (9, 10); (11, 12)]).
    destruct (H2 clock) as (es' & E & H3).
    { unfold clock. rewrite length_take. cbn in Hle |- *. lia. }
    assert (es' = numbered_from (S:=CassandraSource_CdcSource no_time) (Z.of_nat start) clock) as ->.
    { clear -E Hle. cbn in Hle. destruct start as [|[|[|]]]; [..|lia]; injection E as <-; reflexivity. }
    destruct (H3 main_limiter (items_of (numbered_from (S:=CassandraSource_CdcSource no_time) (Z.of_nat start) clock)))
      as (s2 & tr' & R2 & d & _ & _ & Hids).
    + clear -Hle. cbn in Hle. unfold clock. destruct start as [|[|[|]]]; [..|lia]; cbn [take Nat.sub]; all_keep.
    + apply receives_items.
    + apply granted_main. rewrite numbered_from_length. unfold clock. rewrite length_take. lia.
    + exists start, s2, tr'. split; [exact R2|]. etransitivity; [exact Hids|reflexivity].
Defined.
End Sensors.
