(* ===== verification/Throttle.v ===== *)
(** The throughput of the node: both tasks of [main] call [acquire] on one limiter, so that the events it lets pass for
    the two together, in any period and in any interleaving, are bounded by its capacity and its rate.  (A task
    takes an event from its stream before it calls [acquire], so it can hold one more that waits; and what a
    standby takes and drops does not meet the limiter at all.)

    The limiter reads the clock under its lock and keeps the reading, so the readings of a run are those that
    the bucket has seen; [Instant::now()] does not go back. *)
From Stdlib Require Import Reals Lra.
From S2P Require Import Prelude Text F64 Rounding Event Clock Buffer Dedup Store Schema Confluent Avro.
From S2P Require Import Watermark Consensus RateLimiter RateBound Sip Router Transform Guests Sink Reference Pipeline Effects Engine.

Module Throttle.
Import Pipeline Effects Engine.
#[local] Open Scope Z_scope.

(** ** Calls on a bucket *)

Lemma grants_app self c1 c2 : RateBound.grants self (c1 ++ c2) =
  let '(self', n) := RateBound.grants self c1 in let '(self'', m) := RateBound.grants self' c2 in (self'', n + m).
Proof.
  revert self. induction c1 as [|[now c] c1 IH]; intros self; cbn [app RateBound.grants].
  { by destruct (RateBound.grants self c2). }
  destruct (TokenBucketLimiter.try_acquire self now c) as [self1 b]. rewrite IH.
  destruct (RateBound.grants self1 c1) as [self2 n]. destruct (RateBound.grants self2 c2) as [self3 m]. f_equal. lia.
Qed.

Lemma clocked_app t c1 t1 c2 t2 : RateBound.clocked t c1 t1 → RateBound.clocked t1 c2 t2 → RateBound.clocked t (c1 ++ c2) t2.
Proof.
  revert t. induction c1 as [|[now c] c1 IH]; intros t; cbn; [|intros [? ?] ?; split; [done|by eapply IH]].
  intros Hle Hc. destruct c2 as [|[now c] c2]; cbn in *; lia || split; [lia|apply Hc].
Qed.

Section throttle.
Context `{R : RocksDB} `{J : SerdeJson} `{W : Wasmtime}.
Context {T1 T2 : Task (R:=R) (J:=J) (W:=W)} {E1 E2 : Type}.
Abbreviation env := (@env W).
Implicit Types (v : env) (x y : engine T1 T2 E1 E2).

Definition bucket x : TokenBucketLimiter.t := x.(sh).(sh_limiter).
Definition clock x : Z := (bucket x).(TokenBucketLimiter.last_refill).

(** A step at which the clock does not go back. *)
Definition timed_step v x y : Prop := step v x y ∧ clock x <= clock y.

(** The events that [acquire] has let pass for the two tasks. *)
Definition passed x : Z := Z.of_nat (length x.(first).(received) + length x.(second).(received)).

(** The calls that a run makes on the bucket, one token each. *)
Record calls_of (k : nat) x y (calls : list (Z * Z)) : Prop := {
  calls_clocked : RateBound.clocked (clock x) calls (clock y);
  calls_granted : ∃ n, RateBound.grants (bucket x) calls = (bucket y, n) ∧ passed y - passed x <= n;
  calls_one : Forall (λ nc, nc.2 = 1) calls;
  calls_length : (length calls <= k)%nat;
}.

Lemma turn_call self now self' r : TokenBucketLimiter.acquire_turn self now 1 = (self', r) →
  self'.(TokenBucketLimiter.last_refill) = now ∧
  RateBound.grants self [(now, 1)] = (self', match r with Ret None => 1 | _ => 0 end).
Proof.
  intros H. pose proof (RateBound.acquire_turn_try self now 1) as [H1 H2]. rewrite H in H1, H2. cbn [fst snd] in *.
  split.
  - unfold TokenBucketLimiter.acquire_turn in H. destruct (f64_leb _ _); injection H as <- _; done.
  - cbn [RateBound.grants]. destruct (TokenBucketLimiter.try_acquire self now 1) as [s b]. cbn [fst snd] in *. subst s.
    destruct r as [[d|]|]; [| |]; destruct b; try done; (discriminate (proj2 H2 eq_refl) || discriminate (proj1 H2 eq_refl)).
Qed.

(** A step of a task makes one call or none, and receives an event only if the call is granted. *)
Lemma task_step_calls {T : Task} {E} v s (t : running T E) s' t' : task_step T v s t s' t' →
  (s'.(sh_limiter) = s.(sh_limiter) ∧ length t'.(received) = length t.(received)) ∨
  ∃ n, RateBound.grants s.(sh_limiter) [(s'.(sh_limiter).(TokenBucketLimiter.last_refill), 1)] = (s'.(sh_limiter), n) ∧
    Z.of_nat (length t'.(received)) - Z.of_nat (length t.(received)) <= n.
Proof.
  destruct 1; cbn [sh_limiter received]; try (by left); right;
    match goal with H : TokenBucketLimiter.acquire_turn _ _ _ = _ |- _ => apply turn_call in H as [-> H] end;
    eexists; (split; [eassumption|]); rewrite ?length_app; cbn [length]; lia.
Qed.

Lemma step_calls v x y : timed_step v x y → ∃ calls, calls_of 1 x y calls.
Proof.
  intros [H Hc]. assert (G : (bucket y = bucket x ∧ passed y = passed x) ∨
    ∃ n, RateBound.grants (bucket x) [(clock y, 1)] = (bucket y, n) ∧ passed y - passed x <= n).
  { unfold clock, bucket, passed. destruct H as [s a b s' a' H|s a b s' b' H]; apply task_step_calls in H as [[E1' E2']|(n & E & Hn)];
      cbn [sh first second]; [left|right|left|right]; try (split; [done|lia]); exists n; split; [done|lia|done|lia]. }
  destruct G as [[Eb Ep]|G]; [exists []|exists [(clock y, 1)]]; split.
  - done.
  - exists 0. rewrite Eb. split; [done|lia].
  - done.
  - cbn. lia.
  - cbn. split; [done|lia].
  - done.
  - by repeat constructor.
  - done.
Qed.

Lemma run_calls v k x y : nsteps (timed_step v) k x y → ∃ calls, calls_of k x y calls.
Proof.
  induction 1 as [x|k x y z Hxy _ [c2 [C1 (n2 & C2 & C3) C4 C5]]].
  - exists []. split; [cbn; lia|exists 0; split; [done|lia]|done|done].
  - destruct (step_calls v x y Hxy) as [c1 [D1 (n1 & D2 & D3) D4 D5]]. exists (c1 ++ c2). split.
    + by eapply clocked_app.
    + exists (n1 + n2). rewrite grants_app, D2, C2. split; [done|lia].
    + by apply Forall_app.
    + rewrite length_app. lia.
Qed.

Lemma one_small (calls : list (Z * Z)) : Forall (λ nc, nc.2 = 1) calls → Forall (λ nc, 0 <= nc.2 < 2 ^ 32) calls.
Proof. intros H. eapply Forall_impl; [exact H|]. intros nc ->. lia. Qed.

(** The bucket stays well formed, with its parameters. *)
Lemma run_bucket v k x y : nsteps (timed_step v) k x y → RateBound.bucket_ok (bucket x) → clock y - clock x < 2 ^ 100 →
  RateBound.bucket_ok (bucket y) ∧
  (bucket y).(TokenBucketLimiter.capacity) = (bucket x).(TokenBucketLimiter.capacity).
Proof.
  intros (calls & [C1 (n & C2 & _) C4 _])%run_calls Hok Ht.
  pose proof (RateBound.grants_time (bucket x) calls (clock y) Hok C1 Ht (one_small _ C4)) as H. rewrite C2 in H.
  split; apply H.
Qed.

Lemma grants_rate (self : TokenBucketLimiter.t) calls :
  (RateBound.grants self calls).1.(TokenBucketLimiter.refill_rate_per_sec) = self.(TokenBucketLimiter.refill_rate_per_sec).
Proof.
  revert self. induction calls as [|[now c] calls IH]; intros self; [done|]. cbn [RateBound.grants].
  unfold TokenBucketLimiter.try_acquire. destruct (f64_leb _ _);
    match goal with |- context [RateBound.grants ?b calls] => specialize (IH b); destruct (RateBound.grants b calls) end;
    cbn in *; by rewrite IH.
Qed.

Lemma run_rate v k x y : nsteps (timed_step v) k x y →
  (bucket y).(TokenBucketLimiter.refill_rate_per_sec) = (bucket x).(TokenBucketLimiter.refill_rate_per_sec).
Proof. intros (calls & [_ (n & C2 & _) _ _])%run_calls. rewrite <- (grants_rate (bucket x) calls). by rewrite C2. Qed.

Lemma timed_clock v k x y : nsteps (timed_step v) k x y → clock x <= clock y.
Proof. induction 1 as [|k x y z [_ H] _ IH]; lia. Qed.

Lemma timed_steps v k x y : nsteps (timed_step v) k x y → rtc (step v) x y.
Proof. induction 1 as [|k x y z [H _] _ IH]; [done|]. by eapply rtc_l. Qed.

(** In a period in which the clock advances by at most [s] seconds. *)
Lemma passed_bounded v k x y (r s : Z) : RateBound.bucket_ok (bucket x) →
  (bucket x).(TokenBucketLimiter.refill_rate_per_sec) = f64_of_Z r → 0 <= r <= 2 ^ 53 →
  nsteps (timed_step v) k x y → clock y - clock x <= s * 10 ^ 9 → r * s <= 2 ^ 40 →
  Z.of_nat k * ((bucket x).(TokenBucketLimiter.capacity) + 1) <= 2 ^ 48 →
  passed y - passed x <= (bucket x).(TokenBucketLimiter.capacity) + r * s.
Proof.
  intros Hok Hrate Hr (calls & [C1 (n & C2 & C3) C4 C5])%run_calls Hs Hrs Hk.
  pose proof (RateBound.ok_capacity _ Hok).
  pose proof (RateBound.grants_bounded (bucket x) r s (clock y) calls Hok Hrate Hr C1 Hs Hrs ltac:(nia) (one_small _ C4)) as H0.
  rewrite C2 in H0. cbn [snd] in H0. lia.
Qed.
End throttle.

(** ** What is sent was received *)

Section main.
Context `{R : RocksDB} `{J : SerdeJson} `{W : Wasmtime} {L : RocksDBLaws R} {E1 E2 : Type}.
Abbreviation env := (@env W).
Context (readable : ∀ d : db, db_readable d).

Lemma deduped_sublist d es : deduped d es `sublist_of` es.
Proof.
  revert d. induction es as [|e es IH]; intros d; [done|]. cbn [deduped].
  destruct (DeduplicationFilter.check_and_track d (id e)) as [d1 []]; [by apply sublist_cons|by apply sublist_skip].
Qed.

Lemma filter_sublist' {A} (f : A → bool) l : List.filter f l `sublist_of` l.
Proof. induction l as [|x l IH]; [done|]. cbn. destruct (f x); [by apply sublist_skip|by apply sublist_cons]. Qed.

Lemma pg_mutations_conserved (st : StateStore.t R) d es : pg_mutations st d TransactionBuffer.new es ⊆+ es.
Proof.
  etransitivity; [apply TransactionBuffer.outputs_conserved|]. apply sublist_submseteq.
  etransitivity; [apply filter_sublist'|]. etransitivity; [apply filter_sublist'|]. apply deduped_sublist.
Qed.

Lemma cass_mutations_conserved d es : cass_mutations d TransactionBuffer.new es ⊆+ es.
Proof.
  etransitivity; [apply TransactionBuffer.outputs_conserved|]. apply sublist_submseteq, deduped_sublist.
Qed.

Lemma transformed_length (v : env) ms : (length (flat_map (transformed v) ms) <= length ms)%nat.
Proof.
  induction ms as [|m ms IH]; [done|]. cbn [flat_map]. rewrite length_app. cbn [length].
  assert (length (transformed v m) <= 1)%nat; [|lia]. unfold transformed.
  destruct (WasmTransformer.transform _ m) as [[|]|]; cbn; lia.
Qed.

Lemma sent_received {T : Task} {TL : TaskLaws T} {E} (v : env) st0 (l0 : local) s (t : running T E) d a :
  task_inv v st0 l0 s t d a → expected st0 l0 t.(received) ⊆+ t.(received) →
  (length (attempted t.(trace)) <= length t.(received))%nat.
Proof.
  intros [_ _ I3 _ _ _ [lost I6] _] H%submseteq_length. rewrite I3. rewrite I6, length_app in H.
  pose proof (transformed_length v d). lia.
Qed.

(** C26. The node keeps to its rate: with a limiter of [cap] tokens and [r] tokens per second as [main] makes it, in
    any part of any run, whatever the interleaving of the two tasks, from [x] to [y], in which the clock
    that the limiter reads does not go back and advances by at most [s] seconds, [acquire] lets at most
    [cap + r * s] events pass for the two tasks together, although each reads, waits and sends on its own
    (events that a task drops on standby, or holds while it waits for its token, are not among them); and
    on a database whose reads do not fail, in the whole run the two send no more mutations than events were
    let pass.  The bound is exact, with no error of [f64], for [r * s] up to [2 ^ 40] and
    [2 ^ 48 / (cap + 1)] steps, and the clock advancing by less than [2 ^ 100] ns in the whole run. *)
Theorem node_rate (v : env) (st : StateStore.t R) (fo : FailoverController.t) (cap r s t0 : Z) (k0 k : nat)
    (x y : engine pg cass E1 E2) (Hcap : 0 <= cap < 2 ^ 32) (Hr : 0 < r <= 2 ^ 53)
    (Hx : nsteps (timed_step v) k0 (start st fo (TokenBucketLimiter.new cap (f64_of_Z r) t0)) x)
    (Hy : nsteps (timed_step v) k x y) (Hclock : clock y - t0 < 2 ^ 100)
    (Hs : clock y - clock x <= s * 10 ^ 9) (Hrs : r * s <= 2 ^ 40) (Hk : Z.of_nat k * (cap + 1) <= 2 ^ 48) :
  passed y - passed x <= cap + r * s ∧
  Z.of_nat (length (attempted y.(first).(trace)) + length (attempted y.(second).(trace))) <= passed y.
Proof.
  destruct (RateBound.integral_rate r Hr) as [Nr Rr]. pose proof (timed_clock _ _ _ _ Hy) as Hxy.
  destruct (run_bucket v k0 _ x Hx) as [Hok Hc]; [by apply RateBound.new_bucket_ok|cbn; lia|].
  change (TokenBucketLimiter.capacity (bucket (start _ _ _))) with cap in Hc. split.
  - pose proof (passed_bounded v k x y r s Hok) as H. rewrite Hc in H. apply H; try done; [|lia].
    by rewrite (run_rate v k0 _ x Hx).
  - destruct (engine_inv readable v st fo (TokenBucketLimiter.new cap (f64_of_Z r) t0) y) as [(d1 & a1 & I1) (d2 & a2 & I2)].
    { etransitivity; eapply timed_steps; [exact Hx|exact Hy]. }
    apply sent_received in I1; [|apply pg_mutations_conserved]. apply sent_received in I2; [|apply cass_mutations_conserved].
    unfold passed. lia.
Qed.
End main.

(** ** Witness *)

(** The Cassandra task takes an event in the first second. *)
Lemma node_rate_witness : ∃ y : engine (R:=mem_db) (J:=tree_json) (W:=page_engine) pg cass unit unit,
  nsteps (timed_step pipeline_env) 2 (start main_store main_failover main_limiter) y ∧
  length y.(second).(received) = 1%nat ∧ passed y <= 1000 + 500 * 1.
Proof.
  set (sh1 := Shared main_store (FailoverController.record_heartbeat 5 main_failover) main_limiter).
  destruct (TokenBucketLimiter.acquire_turn main_limiter (10 ^ 9) 1) as [lim r] eqn:Ea.
  pose proof (turn_call _ _ _ _ Ea) as [El _]. assert (r = Ret None) as ->.
  { apply (f_equal snd) in Ea. vm_compute in Ea. by symmetry. }
  assert (∃ l tr ms, cass_handle (J:=tree_json) (W:=page_engine) pipeline_env main_store (Pipeline.clock waiting_item) (cass_local0 (W:=page_engine) (J:=tree_json)) wasm_event = Ret (l, tr, ms))
    as (l & tr & ms & Eh).
  { unfold cass_handle, cass_local0. destruct (DeduplicationFilter.check_and_track _ _) as [d []]; [by eexists _, _, _|].
    destruct (TransactionBuffer.process _ _). by eexists _, _, _. }
  set (y := Both (W:=page_engine) (Shared main_store sh1.(sh_failover) lim) (Running (E:=unit) (pg_local0 (W:=page_engine) (J:=tree_json)) Idle [] [])
    (Running (E:=unit) (T:=cass (W:=page_engine)) l (Delivering (Pipeline.clock waiting_item) 0 ms) ([] ++ tr) ([] ++ [wasm_event]))).
  assert (H : nsteps (timed_step pipeline_env) 2 (start main_store main_failover main_limiter) y).
  { apply (nsteps_l _ _ _ (Both (W:=page_engine) sh1 (Running (E:=unit) (pg_local0 (W:=page_engine) (J:=tree_json)) Idle [] []) waiting));
      [|apply nsteps_once].
    - split; [|apply Z.le_refl]. apply step_second.
      by apply (step_receive cass pipeline_env (Shared main_store main_failover main_limiter) _ [] [] waiting_item).
    - split; [|unfold Throttle.clock, bucket; cbn [sh sh_limiter y]; rewrite El; cbn; lia]. apply step_second.
      exact (step_event cass pipeline_env sh1 (cass_local0 (J:=tree_json)) [] [] waiting_item _ _ _ _ _ _ Ea eq_refl Eh). }
  exists y. split; [exact H|]. split; [done|].
  destruct (node_rate (J:=tree_json) mem_db_readable pipeline_env main_store main_failover 1000 500 1 0 0 2
    (start main_store main_failover main_limiter) y) as [H1 _]; try lia.
  - apply nsteps_O.
  - exact H.
  - unfold Throttle.clock, bucket. cbn [sh sh_limiter y]. rewrite El. lia.
  - unfold Throttle.clock, bucket. cbn [sh sh_limiter y]. rewrite El. cbn. lia.
  - exact H1.
Defined.
End Throttle.
