(* ===== verification/Leadership.v ===== *)
(** The tasks of [main] under the coordinator of the node: the election task, [shutdown] and both ingestion tasks
    interleave.  A task that takes an item from its stream goes on with it if [is_leader()] is true at that
    instant and drops it otherwise. *)
From S2P Require Import Prelude Text F64 Event Clock Buffer Dedup Store Schema Confluent Avro.
From S2P Require Import Watermark Consensus RateLimiter Sip Router Transform Guests Sink Reference Pipeline Effects Engine.

Module Leadership.
Import Pipeline Effects Engine.
Section leadership.
Context `{R : RocksDB} `{J : SerdeJson} `{W : Wasmtime}.
Context {E1 E2 : Type}.
Implicit Types (v : env (W:=W)) (c : ClusterCoordinator.t).

(** ** The node *)

Record node := Node {
  coord : ClusterCoordinator.t;
  tasks : engine (R:=R) (J:=J) (W:=W) pg cass E1 E2;
}.

(** The test of [is_leader()]: a task that waits for its stream goes on with the item it takes if the flag is set, and
    drops it otherwise. *)
Definition gate {T : Task} {E} c (a a' : running T E) : Prop :=
  a.(at_) = Idle → c.(ClusterCoordinator.is_leader) = match a'.(at_) with Acquiring _ => true | _ => false end.

Inductive node_step v : node → node → Prop :=
  | node_coord c c' e : ClusterCoordinator.step c c' → node_step v (Node c e) (Node c' e)
  | node_first c s a b s' a' : task_step pg v s a s' a' → gate c a a' →
    node_step v (Node c (Both s a b)) (Node c (Both s' a' b))
  | node_second c s a b s' b' : task_step cass v s b s' b' → gate c b b' →
    node_step v (Node c (Both s a b)) (Node c (Both s' a b')).

(** ** Lemmas *)

(** A run of the node is a run of its coordinator and a run of its tasks. *)
Lemma node_projects v x y : rtc (node_step v) x y →
  rtc ClusterCoordinator.step x.(coord) y.(coord) ∧ rtc (step v) x.(tasks) y.(tasks).
Proof.
  induction 1 as [x|x y z Hxy _ [IH1 IH2]]; [done|]. destruct Hxy; cbn in *.
  - split; [by eapply rtc_l|done].
  - split; [done|]. eapply rtc_l; [|exact IH2]. by apply step_first.
  - split; [done|]. eapply rtc_l; [|exact IH2]. by apply step_second.
Qed.

(** Effects that are only items taken and dropped. *)
Definition only_drops (tr : list (@effect R J)) : Prop := Forall (λ f, skipped f = true) tr.

(** A task that has done nothing but drop what it took. *)
Record standing_by {T : Task} {E} (t : running T E) : Prop := {
  standing_idle : t.(at_) = Idle;
  standing_trace : only_drops t.(trace);
  standing_received : t.(received) = [];
}.

Lemma standing_step {T : Task} {E} v c s (t : running T E) s' t' : task_step T v s t s' t' → gate c t t' → standing_by t →
  s'.(sh_store) = s.(sh_store) ∧ (standing_by t' ∨ c.(ClusterCoordinator.is_leader) = true).
Proof.
  intros H Hg [Hi Ht Hr]. specialize (Hg Hi). destruct H; cbn [at_ trace received] in *; try done; (split; [done|]).
  - left. split; [done| |done]. apply Forall_app. by repeat constructor.
  - by right.
Qed.

Lemma led_step c c' : ClusterCoordinator.step c c' → c.(ClusterCoordinator.role) = ClusterCoordinator.Leader →
  c'.(ClusterCoordinator.role) = ClusterCoordinator.Leader.
Proof.
  intros [l H] Hr. destruct c, l; unfold ClusterCoordinator.exec in H; cbn in *; repeat case_match; simplify_eq; done.
Qed.

(** The event a task has taken from its stream and has not passed on. *)
Definition in_hand {T : Task} {E} (t : running T E) : list ChangeEvent :=
  match t.(at_) with Acquiring i => match i.(event_result) with Ok e => [e] | Err _ => [] end | _ => [] end.

(** From [t] to [t'] a task has finished at most the item it had in hand, and has dropped all it took since. *)
Record wound_down {T : Task} {E} (t t' : running T E) : Prop := {
  wound_received : ∃ l, t'.(received) = t.(received) ++ l ∧ l ++ in_hand t' `prefix_of` in_hand t;
  wound_holds i : t'.(at_) = Acquiring i → t.(at_) = Acquiring i;
  wound_idle : t.(at_) = Idle →
    t'.(at_) = Idle ∧ ∃ drops, t'.(trace) = t.(trace) ++ drops ∧ only_drops drops;
}.

#[local] Instance wound_down_preorder {T : Task} {E} : PreOrder (wound_down (T:=T) (E:=E)).
Proof.
  split.
  - intros t. split; [exists []; by rewrite app_nil_r|done|]. intros Hi. split; [done|]. exists []. rewrite app_nil_r.
    split; [done|constructor].
  - intros t1 t2 t3 [(l1 & A1 & B1) C1 D1] [(l2 & A2 & B2) C2 D2]. split.
    + exists (l1 ++ l2). rewrite A2, A1, <- !app_assoc. split; [done|]. etransitivity; [|exact B1].
      destruct B2 as [k ->]. exists k. by rewrite <- !app_assoc.
    + intros i Hi. by apply C1, C2.
    + intros Hi. destruct (D1 Hi) as (Hi2 & d1 & E1' & F1), (D2 ltac:(done)) as (Hi3 & d2 & E2' & F2).
      split; [done|]. exists (d1 ++ d2). rewrite E2', E1', <- app_assoc. split; [done|]. by apply Forall_app.
Qed.

(** Without the flag a task takes up nothing new. *)
Lemma closed_step {T : Task} {E} v c s (t : running T E) s' t' : c.(ClusterCoordinator.is_leader) = false →
  task_step T v s t s' t' → gate c t t' → wound_down t t'.
Proof.
  intros Hc H Hg. unfold gate in Hg. rewrite Hc in Hg. destruct H; cbn [at_] in Hg;
    try (exfalso; by specialize (Hg eq_refl));
    (split; unfold in_hand; cbn [at_ received trace]; [|try done|try done]); try (exists []; by rewrite app_nil_r).
  1: intros _; split; [done|]; eexists; split; [done|]; by repeat constructor.
  1: exists [e]; by rewrite H0.
  all: exists []; rewrite app_nil_r; split; [done|apply prefix_nil].
Qed.

Lemma closed_run v x y : rtc (node_step v) x y → ClusterCoordinator.stopped x.(coord) →
  x.(coord).(ClusterCoordinator.is_leader) = false →
  wound_down x.(tasks).(first) y.(tasks).(first) ∧ wound_down x.(tasks).(second) y.(tasks).(second).
Proof.
  induction 1 as [x|x y z Hxy _ IH]; [done|]. intros Hs Hc.
  destruct Hxy as [c c' e [l Hl]|c s a b s' a' Ht Hg|c s a b s' b' Ht Hg]; cbn [coord tasks first second] in *.
  - destruct (ClusterCoordinator.exec_stopped _ _ _ Hs Hl) as [Hs' Hc']. apply IH; [done|]. by rewrite Hc'.
  - destruct (IH Hs Hc) as [Q1 Q2]. split; [|done]. etransitivity; [by eapply closed_step|exact Q1].
  - destruct (IH Hs Hc) as [Q1 Q2]. split; [done|]. etransitivity; [by eapply closed_step|exact Q2].
Qed.

(** Until the coordinator is elected, the tasks have only dropped what they took. *)
Definition fresh (st : StateStore.t R) (x : node) : Prop :=
  x.(coord).(ClusterCoordinator.role) ≠ ClusterCoordinator.Leader →
  standing_by x.(tasks).(first) ∧ standing_by x.(tasks).(second) ∧ x.(tasks).(sh).(sh_store) = st.

Lemma fresh_step v st x y : node_step v x y → ClusterCoordinator.inv x.(coord) → fresh st x → fresh st y.
Proof.
  unfold fresh. intros H Hinv Hx. destruct H as [c c' e Hc|c s a b s' a' Ht Hg|c s a b s' b' Ht Hg];
    cbn [coord tasks first second sh] in *; intros Hn.
  - apply Hx. intros Hr. by apply Hn, (led_step c).
  - destruct (Hx Hn) as (U1 & U2 & U3). destruct (standing_step v c s a s' a' Ht Hg U1) as [Es [|Hl]].
    + split_and!; [done|done|by rewrite Es].
    + exfalso. by apply Hn, Hinv.
  - destruct (Hx Hn) as (U1 & U2 & U3). destruct (standing_step v c s b s' b' Ht Hg U2) as [Es [|Hl]].
    + split_and!; [done|done|by rewrite Es].
    + exfalso. by apply Hn, Hinv.
Qed.

Lemma fresh_run v st x y : rtc (node_step v) x y → ClusterCoordinator.inv x.(coord) → fresh st x → fresh st y.
Proof.
  induction 1 as [x|x y z Hxy _ IH]; [done|]. intros Hinv Hx. apply IH; [|by eapply fresh_step].
  destruct Hxy as [c c' e [l Hl]| |]; [|done..]. by eapply ClusterCoordinator.exec_inv.
Qed.

(** ** Property *)

(** C7. Only the leader works: in every run of a node from its start, (1) until its coordinator has won an
    election, both tasks wait for their streams, have passed, sent, saved and given up nothing, and have
    dropped every item they took (a standby consumes its stream); the store is as it was; (2) from the
    moment at which [shutdown] has returned and the election task can no longer raise the flag, each task
    finishes at most the item it has in hand: the events it lets pass from then on are that event or
    none, it takes up no other item, and if it waits for its stream it only drops what it takes; (3) the
    run is a run of the election protocol and a run of the two tasks, so what is proved of each of them
    holds on the node. *)
Theorem only_leader_works v (n : Z) (st : StateStore.t R) (fo : FailoverController.t)
    (lim : TokenBucketLimiter.t) (x y : node)
    (H : rtc (node_step v) (Node (ClusterCoordinator.start n) (start st fo lim)) x) (H' : rtc (node_step v) x y) :
  (x.(coord).(ClusterCoordinator.role) ≠ ClusterCoordinator.Leader →
     standing_by x.(tasks).(first) ∧ standing_by x.(tasks).(second) ∧ x.(tasks).(sh).(sh_store) = st) ∧
  (ClusterCoordinator.stopped x.(coord) → x.(coord).(ClusterCoordinator.is_leader) = false →
     wound_down x.(tasks).(first) y.(tasks).(first) ∧ wound_down x.(tasks).(second) y.(tasks).(second)) ∧
  ClusterCoordinator.reachable n x.(coord) ∧ rtc (step v) (start st fo lim) x.(tasks).
Proof.
  destruct (node_projects v _ _ H) as [P1 P2]. cbn [coord tasks] in P1, P2.
  split_and!; [|by apply (closed_run v)|done|done].
  apply (fresh_run v st _ _ H); [apply ClusterCoordinator.inv_start|]. intros _. split_and!; [| |done]; by repeat constructor.
Qed.
End leadership.

(** ** Witness *)

Definition tasks0 : engine (R:=mem_db) (J:=tree_json) (W:=page_engine) pg cass unit unit :=
  start main_store main_failover main_limiter.

(** Elected, then shut down while the Cassandra task holds an item. *)
Definition elected : ClusterCoordinator.t :=
  default (ClusterCoordinator.start 1) (ClusterCoordinator.exec_all
    [ClusterCoordinator.Wake; ClusterCoordinator.Act; ClusterCoordinator.Wake; ClusterCoordinator.Act]
    (ClusterCoordinator.start 1)).
Definition shut : ClusterCoordinator.t :=
  default elected (ClusterCoordinator.exec_all [ClusterCoordinator.Shut1; ClusterCoordinator.Shut2] elected).
Definition busy : engine (R:=mem_db) (J:=tree_json) (W:=page_engine) pg cass unit unit :=
  Both (Shared main_store (FailoverController.record_heartbeat 5 main_failover) main_limiter)
    (Running pg_local0 Idle [] []) waiting.

Lemma coord_run v c ls c' (e : engine (R:=mem_db) (J:=tree_json) (W:=page_engine) pg cass unit unit) :
  ClusterCoordinator.exec_all ls c = Some c' → rtc (node_step v) (Node c e) (Node c' e).
Proof.
  revert c. induction ls as [|l ls IH]; intros c; [by intros [= ->]|]. cbn.
  destruct (ClusterCoordinator.exec l c) as [c1|] eqn:E; cbn; [|done]. intros H.
  eapply rtc_l; [|by apply IH]. apply node_coord. by exists l.
Qed.

Lemma only_leader_works_witness :
  rtc (node_step pipeline_env) (Node (ClusterCoordinator.start 1) tasks0) (Node shut busy) ∧
  ∀ y, rtc (node_step pipeline_env) (Node shut busy) y →
    only_drops y.(tasks).(first).(trace) ∧ y.(tasks).(second).(received) `prefix_of` [wasm_event].
Proof.
  assert (H : rtc (node_step pipeline_env) (Node (ClusterCoordinator.start 1) tasks0) (Node shut busy)).
  { eapply rtc_trans; [apply (coord_run pipeline_env _
      [ClusterCoordinator.Wake; ClusterCoordinator.Act; ClusterCoordinator.Wake; ClusterCoordinator.Act] elected);
      reflexivity|].
    eapply rtc_l; [|apply (coord_run pipeline_env elected [ClusterCoordinator.Shut1; ClusterCoordinator.Shut2]); reflexivity].
    apply node_second; [|done].
    by apply (step_receive cass pipeline_env (Shared main_store _ _) _ _ _ waiting_item). }
  split; [exact H|]. intros y Hy.
  destruct (only_leader_works pipeline_env 1 main_store main_failover main_limiter (Node shut busy) y H Hy) as (_ & H2 & _).
  destruct H2 as [[_ _ Hi] [(l2 & F2 & P2) _ _]]; [by repeat split|reflexivity|].
  destruct (Hi eq_refl) as (_ & drops & -> & Hd). split; [exact Hd|]. rewrite F2. cbn in P2 |- *.
  etransitivity; [|exact P2]. by eexists.
Defined.
End Leadership.
