(* ===== verification/Progress.v ===== *)
(** Progress of the ingestion loop: the rate limiter lets every item of a leading node pass, so that the loop
    returns.  This composes the bounds on [acquire] with the loop of the PostgreSQL task. *)
From S2P Require Import Prelude Text F64 Event Clock Buffer Dedup Store Schema Confluent Avro.
From S2P Require Import Watermark Consensus RateLimiter RateBound Sip Router Transform Guests Sink Reference Pipeline Effects Engine.

Module Progress.
Import Pipeline Engine RateBound.

(** A limiter that one token can always pass. *)
Record limiter_ok (lim : TokenBucketLimiter.t) : Prop := {
  lim_bucket : bucket_ok lim;
  lim_rate : usual_rate lim;
  lim_capacity : 1 <= lim.(TokenBucketLimiter.capacity);
  lim_clock : 0 <= lim.(TokenBucketLimiter.last_refill);
}.

(** While the node leads, the clock does not go back, each sleep lasts as long as asked for, and five turns
    have their reading: what a task meets that is the limiter's only caller. *)
Fixpoint paced {E} (lim : TokenBucketLimiter.t) (items : list (item E)) : Prop :=
  match items with
  | [] => True
  | i :: items' =>
    if i.(leads) then
      (5 <= length i.(limiter_clock))%nat ∧
      Forall (λ n, lim.(TokenBucketLimiter.last_refill) <= n < 2 ^ 99) i.(limiter_clock) ∧
      slept lim i.(limiter_clock) 1 ∧
      ∀ lim', TokenBucketLimiter.acquire lim i.(limiter_clock) 1 = Some (Ret lim') → paced lim' items'
    else paced lim items'
  end.

Lemma limiter_next lim clock lim' : limiter_ok lim →
  Forall (λ n, lim.(TokenBucketLimiter.last_refill) <= n < 2 ^ 99) clock →
  TokenBucketLimiter.acquire lim clock 1 = Some (Ret lim') → limiter_ok lim'.
Proof.
  intros [H1 H2 H3 H4] Hc Ha. destruct (acquire_keeps clock lim 1 lim' H1 H4) as (K1 & K2 & K3 & K4); [|lia|done|].
  - eapply Forall_impl; [exact Hc|]. cbn. lia.
  - split; [done| |lia|done]. unfold usual_rate in *. by rewrite K4.
Qed.

Section progress.
Context `{R : RocksDB} `{J : SerdeJson} `{W : Wasmtime}.
Implicit Types (v : env (W:=W)).

Lemma deliver_all_returns v sid c k st ms : (∀ e, no_panic v e) → ∃ r, deliver_all v sid c k st ms = Ret r.
Proof.
  intros Hp. revert k st. induction ms as [|m ms IH]; intros k st; [by eexists|]. cbn [deliver_all].
  specialize (Hp m). unfold no_panic in Hp. unfold deliver.
  destruct (WasmTransformer.transform _ m) as [[e|err]|]; [| |done]; cbn [mbind Outcome_bind].
  - destruct (StateStore.save_offset st sid (offset e)) as [st1 saved].
    destruct (IH (S k) st1) as [[st2 tr2] E]. cbn [mbind Outcome_bind]. rewrite E. by eexists.
  - destruct (IH (S k) st) as [[st2 tr2] E]. cbn [mbind Outcome_bind]. rewrite E. by eexists.
Qed.

Lemma pg_event_returns v c s e : (∀ e, no_panic v e) →
  ∃ s' tr, pg_event v c s e = Ret (s', tr) ∧ s'.(limiter) = s.(limiter).
Proof.
  intros Hp. enough (∃ r, pg_event v c s e = Ret r) as [[s' tr] E].
  { exists s', tr. split; [done|]. by destruct (pg_event_handle _ _ _ _ _ _ E) as (? & ? & ? & _ & _ & _ & _ & H). }
  unfold pg_event. destruct (DeduplicationFilter.check_and_track _ _) as [d []]; [by eexists|]. cbn [store].
  destruct (SchemaRegistry.validate_event_total s.(store) pg_source e) as [[u|err] ->]; cbn [mbind Outcome_bind]; [|by eexists].
  destruct (WatermarkSnapshotter.process_replication_event _ _) as [wm [e'|]]; [|by eexists].
  destruct (TransactionBuffer.process _ _) as [b ms].
  destruct (deliver_all_returns v pg_source c O s.(store) ms Hp) as [[st tr] E].
  cbn [store tx_buffer watermark_engine] in *. rewrite E. by eexists.
Qed.

(** One turn of the loop, and the limiter that the next one finds. *)
Lemma pg_item_returns {E} v s (i : item E) items : (∀ e, no_panic v e) → limiter_ok s.(limiter) →
  paced s.(limiter) (i :: items) → ∃ s' tr goes_on, pg_item v s i = Some (Ret (s', tr, goes_on)) ∧
    limiter_ok s'.(limiter) ∧ (goes_on = true → paced s'.(limiter) items).
Proof.
  intros Hp Hlim. cbn [paced]. unfold pg_item. destruct (leads i); cbn [negb].
  2: { intros Hrest. by eexists s, _, true. }
  intros (H5 & Hc & Hs & Hrest).
  destruct (acquire_passes s.(limiter) (limiter_clock i) 1) as [lim' E1]; try apply Hlim; try done.
  { pose proof (lim_capacity _ Hlim). lia. }
  pose proof (limiter_next _ _ _ Hlim Hc E1) as Hlim'.
  rewrite E1. cbn [mbind option_bind Outcome_bind].
  destruct (event_result i) as [e|err]; cbn [mbind option_bind Outcome_bind]; [|by eexists _, _, _].
  set (s0 := Pg _ _ lim' _ _ _). destruct (pg_event_returns v (clock i) s0 e Hp) as (s1 & tr1 & E2 & Hl1).
  rewrite E2. cbn [mbind option_bind Outcome_bind]. exists s1, tr1, true. split; [done|]. rewrite Hl1. cbn. auto.
Qed.

(** ** Property *)

(** C9. The loop of the PostgreSQL task, alone on its limiter, ends: whatever arrives, on a leading or a standby node,
    valid, invalid or an error of the stream, with a limiter of positive capacity and a rate between
    [1 / 256] and [2 ^ 40] tokens per second, in whatever well-formed state its bucket is, the loop goes
    through [acquire] at every item it takes up (five readings of the clock are enough), never panics and handles the
    items to the end or to the first error.  Assumed: no other task calls this limiter meanwhile (in [main]
    the Cassandra task shares it, of which nothing is said here); the clock does not go back, stays below
    [2 ^ 99] ns, and each sleep lasts at least as long as asked for ([paced]); no call of the guest panics. *)
Theorem loop_returns {E} (v : env (W:=W)) (s : pg_task) (items : list (item E)) (Hguest : ∀ e, no_panic v e)
    (Hlim : limiter_ok s.(limiter)) (Hpaced : paced s.(limiter) items) :
  ∃ s' tr, pg_run v s items = Some (Ret (s', tr)).
Proof.
  revert s Hlim Hpaced. induction items as [|i items IH]; intros s Hlim Hpaced; [by eexists _, _|].
  destruct (pg_item_returns v s i items Hguest Hlim Hpaced) as (s1 & tr1 & goes_on & E1 & Hlim1 & Hp1).
  unfold pg_run in *. cbn [run]. rewrite E1. cbn [mbind option_bind Outcome_bind].
  destruct goes_on; [|by eexists _, _]. destruct (IH s1 Hlim1 (Hp1 eq_refl)) as (s2 & tr2 & E2).
  rewrite E2. by eexists _, _.
Qed.
End progress.

(** ** Witness *)

Lemma page_no_panic e : no_panic (J:=tree_json) pipeline_env e.
Proof. apply WasmTransformer.passthrough_no_panic, guest_module_passthrough. Qed.

(** The bucket has been emptied; an event, an item on standby and an error of the stream follow. *)
Definition drained : TokenBucketLimiter.t := TokenBucketLimiter.take main_bucket 1000.
Definition slow_items : list (item unit) :=
  [Item true 0 [0; 2000000; 4000000; 6000000; 8000000] still (Ok (pg_ev "1" "A" Create));
   Item false 0 [] still (Ok (pg_ev "2" "A" Commit));
   Item true 0 [8000000; 10000000; 12000000; 14000000; 16000000] still (Err tt)].

Lemma loop_returns_witness : ∃ s' tr,
  pg_run (J:=tree_json) pipeline_env (pg_start main_store main_failover drained) slow_items = Some (Ret (s', tr)).
Proof.
  apply (loop_returns (J:=tree_json) pipeline_env).
  - exact page_no_panic.
  - split.
    + apply take_time; [apply main_bucket_ok|cbn; lia|]. apply main_tokens.
    + apply main_bucket_ok.
    + cbn. lia.
    + cbn. lia.
  - cbn [paced slow_items leads limiter_clock]. split; [cbn; lia|]. split; [repeat constructor; cbn; lia|].
    split; [vm_compute; repeat split; discriminate|]. intros lim' H. vm_compute in H. injection H as <-.
    split; [cbn; lia|]. split; [repeat constructor; cbn; lia|]. split; [by vm_compute|done].
Defined.
End Progress.
