(* ===== verification/EndToEnd.v ===== *)
(** The engine as [main] assembles it: the simulated PostgreSQL source, its schema, the bundled guest and the
    ingestion loop, from the source's first event to the Kafka sink, across a crash. *)
From S2P Require Import Prelude Text F64 Event Clock Buffer Dedup Store Schema Confluent Avro.
From S2P Require Import Watermark Consensus RateLimiter Sip Router Transform Guests Source Sink Reference Pipeline.

Module EndToEnd.
Import Pipeline.

(** ** The events pass every stage *)

Section engine.
Context `{R : RocksDB} `{J : SerdeJson} `{W : Wasmtime}.
Context {L : RocksDBLaws R} {JL : SerdeJsonLaws J} {WL : WasmtimeLaws W}.
Context (readable : ∀ d : db, db_readable d).
Context (writable : ∀ (d : db) k b, ∃ d', db_put d k b = (d', Ok tt)).

Lemma pg_event_valid (st : StateStore.t R) n now : 0 <= n < 2 ^ 53 →
  StateStore.get_schema (J:=J) st pg_source = Ok (Some user_schema) →
  SchemaRegistry.validate_event (J:=J) st pg_source (source_event n now) = Ret (Ok tt).
Proof.
  intros Hn Hs. apply SchemaRegistry.validate_event_ok. right.
  exists user_schema, [("id", VString "integer"); ("name", VString "string")]%string.
  split_and!; [done|done|]. unfold SchemaRegistry.validated, source_event. cbn [operation after].
  destruct (n mod 4 =? 0); [done|]. intros _. eexists. split; [reflexivity|].
  apply Forall_cons; split; [|apply Forall_cons; split; [done|by apply Forall_nil]].
  unfold SchemaRegistry.field_ok. cbn. by apply f64_integer.
Qed.

Lemma payload_object a b c : json_object [("id", a); ("name", b); ("email", c)]%string =
  VObject [("email", c); ("id", a); ("name", b)]%string.
Proof. reflexivity. Qed.

Lemma pg_event_plain n now : 0 <= n < 2 ^ 64 → plain_event (source_event n now) = true.
Proof.
  intros Hn. pose proof (display_ascii n ltac:(lia)) as Hd.
  assert (Hk : (0 <=? n) && (n <? 2 ^ 64) = true).
  { apply andb_true_iff. rewrite Z.leb_le, Z.ltb_lt. done. }
  assert (Htx : is_ascii (display_u64 ((n - 1) / 4 + 1000)) = true).
  { apply display_ascii. div_lia. }
  assert (Hs : ∀ s t, is_ascii s = true → is_ascii t = true → str_ok (s ++ t) = true).
  { intros s t H1 H2. apply ascii_str_ok. by rewrite is_ascii_app, H1, H2. }
  unfold plain_event, source_event.
  cbn [id source_database source_table_or_collection key before after transaction_id offset].
  rewrite (Hs "pg-evt-"%string), (Hs "tx-"%string), (ascii_str_ok _ Hd) by done.
  change (json_object [("id", VNumber (PosInt n))]) with (VObject [("id"%string, VNumber (PosInt n))]).
  rewrite payload_object.
  destruct (n mod 4 =? 0); cbn -[str_ok String.append String.ltb display_u64 Z.leb Z.ltb Z.pow]; rewrite !Hk.
  - done.
  - rewrite (Hs "User "%string), (Hs "user"%string) by (rewrite ?is_ascii_app, ?Hd; done). done.
Qed.

Lemma pg_event_passes v (st : StateStore.t R) n now raw : 0 <= n < 2 ^ 53 →
  StateStore.get_schema (J:=J) st pg_source = Ok (Some user_schema) →
  WasmTransformer.passthrough v.(transformer) →
  event_to_vec (source_event n now) = Ok raw → Z.of_nat (length raw) <= WasmTransformer.page_size →
  passes v st (source_event n now).
Proof.
  intros Hn Hs Hg Hr Hl. split_and!; [|done| |].
  - unfold valid. by rewrite pg_event_valid.
  - apply (WasmTransformer.passthrough_transform _ _ raw); [done| |done|done]. apply pg_event_plain. lia.
  - apply ascii_str_ok, display_ascii. lia.
Qed.

(** ** The transactions of the stream *)

Lemma pg_event_tx n now k : k = (n - 1) / 4 →
  TransactionBuffer.in_tx ("tx-" ++ display_u64 (k + 1000)) (source_event n now) = true.
Proof. intros ->. unfold TransactionBuffer.in_tx, source_event. apply String.eqb_refl. Qed.

Lemma pg_event_control n now :
  TransactionBuffer.is_control (source_event n now) = negb (is_mutation (source_event n now)).
Proof.
  unfold TransactionBuffer.is_control, is_mutation, source_event. cbn [operation].
  destruct (n mod 4 =? 0); [done|]. by destruct (n mod 4 =? 1).
Qed.

Lemma pg_event_mutation n now : is_mutation (source_event n now) = negb (n mod 4 =? 0).
Proof.
  unfold is_mutation, source_event. cbn [operation]. destruct (n mod 4 =? 0); [done|].
  by destruct (n mod 4 =? 1).
Qed.

Lemma pg_events_elem e seq clock : e ∈ pg_events seq clock →
  ∃ n now, e = source_event n now ∧ seq + 1 <= n <= seq + Z.of_nat (length clock).
Proof.
  revert seq. induction clock as [|now clock IH]; intros seq; cbn [pg_events length].
  { by intros ?%elem_of_nil. }
  intros [->|H]%elem_of_cons; [exists (seq + 1), now; split; [done|lia]|].
  destruct (IH _ H) as (n & now' & -> & Hn). exists n, now'. split; [done|lia].
Qed.

(** The mutations that a transaction's events contribute while its commit is missing. *)
Lemma pg_open seq clock : 0 <= seq → seq mod 4 + Z.of_nat (length clock) < 4 →
  Forall (λ e, TransactionBuffer.in_tx ("tx-" ++ display_u64 (seq / 4 + 1000)) e = true ∧
               TransactionBuffer.is_control e = false) (pg_events seq clock) ∧
  List.filter is_mutation (pg_events seq clock) = pg_events seq clock.
Proof.
  intros Hs Hl.
  assert (H : ∀ e, e ∈ pg_events seq clock → is_mutation e = true ∧
    TransactionBuffer.in_tx ("tx-" ++ display_u64 (seq / 4 + 1000)) e = true).
  { intros e (n & now & -> & Hn)%pg_events_elem. split.
    - rewrite pg_event_mutation. apply negb_true_iff, Z.eqb_neq. div_lia.
    - apply pg_event_tx. div_lia. }
  split.
  - apply Forall_forall. intros e He. pose proof He as (n & now & -> & _)%pg_events_elem.
    apply H in He as [Hm Ht]. split; [done|]. by rewrite pg_event_control, Hm.
  - apply filter_all, Forall_forall. intros e He. by apply H.
Qed.

Lemma pg_block seq clock now : 0 <= seq → seq mod 4 + Z.of_nat (length clock) = 3 →
  block_ok (Block ("tx-" ++ display_u64 (seq / 4 + 1000)) (pg_events seq clock)
    (source_event (seq + Z.of_nat (length clock) + 1) now)).
Proof.
  intros Hs Hl. destruct (pg_open seq clock Hs ltac:(lia)) as [Ho _].
  assert (Hn : (seq + Z.of_nat (length clock) + 1) mod 4 = 0) by div_lia.
  split_and!; cbn [block_tx block_ms block_commit]; [done| |].
  - apply pg_event_tx. div_lia.
  - unfold source_event. cbn [operation]. by rewrite Hn.
Qed.

Lemma pg_transaction seq clock now es : 0 <= seq → seq mod 4 + Z.of_nat (length clock) = 3 →
  committed (pg_events seq (clock ++ [now]) ++ es) =
    List.filter is_mutation (pg_events seq (clock ++ [now])) ++ committed es.
Proof.
  intros Hs Hl. rewrite pg_events_app. cbn [pg_events].
  destruct (pg_open seq clock Hs ltac:(lia)) as [_ Hf].
  rewrite (committed_block _ _ (pg_block seq clock now Hs Hl)). cbn [block_ms].
  rewrite List.filter_app, Hf. cbn [List.filter]. rewrite pg_event_mutation.
  replace ((seq + Z.of_nat (length clock) + 1) mod 4) with 0 by div_lia. cbn. by rewrite app_nil_r.
Qed.

(** Up to the end of a transaction everything is released. *)
Lemma pg_committed seq clock es : 0 <= seq → (seq + Z.of_nat (length clock)) mod 4 = 0 →
  committed (pg_events seq clock ++ es) = List.filter is_mutation (pg_events seq clock) ++ committed es.
Proof.
  remember (length clock) as len eqn:El. revert seq clock El.
  induction len as [len IH] using lt_wf_ind. intros seq clock -> Hs Hm.
  destruct clock as [|t clock]; [done|]. set (k := Z.to_nat (3 - seq mod 4)).
  pose proof (Z.mod_pos_bound seq 4 ltac:(lia)).
  assert (Hk : Z.of_nat k = 3 - seq mod 4) by (unfold k; lia).
  assert (Hlt : (k < length (t :: clock))%nat).
  { apply Nat2Z.inj_lt. rewrite Hk. cbn [length] in *.
    assert (Hp : 0 < Z.of_nat (S (length clock))) by lia. revert Hm Hp.
    generalize (Z.of_nat (S (length clock))). intros len Hm Hp. clear -Hm Hp Hs. div_lia. }
  destruct (lookup_lt_is_Some_2 _ _ Hlt) as [now Hnow].
  rewrite <- (take_drop_middle _ _ _ Hnow). set (c1 := take k (t :: clock)) in *.
  set (c2 := drop (S k) (t :: clock)) in *.
  assert (H1 : length c1 = k) by (unfold c1; rewrite length_take; lia).
  assert (H2 : (length c2 = length (t :: clock) - S k)%nat) by (unfold c2; by rewrite length_drop).
  replace (c1 ++ now :: c2) with ((c1 ++ [now]) ++ c2) by by rewrite <- app_assoc.
  rewrite pg_events_app, List.filter_app, <- !app_assoc, pg_transaction by (rewrite ?H1; lia).
  f_equal. apply (IH (length c2)); [lia|done|lia|]. rewrite length_app, H1, H2.
  cbn [length] in *. rewrite <- Hm.
  f_equal. lia.
Qed.

Lemma pg_committed_open seq clock : 0 <= seq → seq mod 4 + Z.of_nat (length clock) < 4 →
  committed (pg_events seq clock) = [].
Proof.
  intros Hs Hl. destruct (pg_open seq clock Hs Hl) as [Ho _]. unfold committed.
  by rewrite (TransactionBuffer.released_mutations ("tx-" ++ display_u64 (seq / 4 + 1000))).
Qed.

(** Whole transactions are a serial log. *)
Lemma pg_blocks q clock k : 0 <= k → length clock = (4 * q)%nat → ∃ ks, Forall block_ok ks ∧
  serial_log ks = pg_events (4 * k) clock ∧ mutations ks = List.filter is_mutation (pg_events (4 * k) clock).
Proof.
  revert clock k. induction q as [|q IH]; intros clock k Hk Hl; [destruct clock; [by exists []|done]|].
  destruct clock as [|t1 [|t2 [|t3 [|now clock]]]]; cbn in Hl; try lia.
  destruct (IH clock (k + 1)) as (ks & H1 & H2 & H3); [lia|lia|].
  assert (Hm : (4 * k) mod 4 = 0) by div_lia.
  pose proof (pg_block (4 * k) [t1; t2; t3] now ltac:(lia) ltac:(rewrite Hm; done)) as Hb.
  destruct (pg_open (4 * k) [t1; t2; t3] ltac:(lia) ltac:(rewrite Hm; done)) as [_ Hf].
  eexists (_ :: ks). split; [by constructor|]. cbn [serial_log mutations flat_map].
  fold (serial_log ks) (mutations ks). rewrite H2, H3. unfold block_events. cbn [block_ms block_commit].
  change (t1 :: t2 :: t3 :: now :: clock) with ([t1; t2; t3] ++ now :: clock). rewrite pg_events_app.
  rewrite List.filter_app, Hf. change (Z.of_nat (length [t1; t2; t3])) with 3 in *.
  set (es := pg_events (4 * k) [t1; t2; t3]) in *. cbn [pg_events List.filter].
  replace (4 * k + 3 + 1) with (4 * (k + 1)) by lia. split; [by rewrite <- app_assoc|].
  rewrite pg_event_mutation.
  by replace ((4 * (k + 1)) mod 4) with 0 by div_lia.
Qed.

(** ** Which mutations *)

(** The ids of the mutations among the [len] events after position [seq]. *)
Fixpoint mutation_ids (seq : Z) (len : nat) : list string :=
  match len with
  | O => []
  | S len' =>
    (if (seq + 1) mod 4 =? 0 then [] else [("pg-evt-" ++ display_u64 (seq + 1))%string])
      ++ mutation_ids (seq + 1) len'
  end.

Lemma pg_mutation_ids seq clock :
  id <$> List.filter is_mutation (pg_events seq clock) = mutation_ids seq (length clock).
Proof.
  revert seq. induction clock as [|now clock IH]; intros seq; [done|].
  cbn [pg_events List.filter length mutation_ids]. rewrite pg_event_mutation, <- IH.
  by destruct ((seq + 1) mod 4 =? 0).
Qed.

(** Their numbers. *)
Fixpoint mutation_numbers (seq : Z) (len : nat) : list Z :=
  match len with
  | O => []
  | S len' => (if (seq + 1) mod 4 =? 0 then [] else [seq + 1]) ++ mutation_numbers (seq + 1) len'
  end.

Lemma pg_mutation_offsets seq clock :
  offset <$> List.filter is_mutation (pg_events seq clock) = display_u64 <$> mutation_numbers seq (length clock).
Proof.
  revert seq. induction clock as [|now clock IH]; intros seq; [done|].
  cbn [pg_events List.filter length mutation_numbers]. rewrite pg_event_mutation, fmap_app, <- IH.
  by destruct ((seq + 1) mod 4 =? 0).
Qed.

Lemma mutation_numbers_range seq len : Forall (λ n, seq < n <= seq + Z.of_nat len) (mutation_numbers seq len).
Proof.
  revert seq. induction len as [|len IH]; intros seq; [constructor|]. cbn [mutation_numbers]. apply Forall_app. split.
  - destruct (_ =? 0); repeat constructor; lia.
  - eapply Forall_impl; [apply IH|]. cbn. lia.
Qed.

Lemma mutation_ids_app seq a b :
  mutation_ids seq (a + b) = mutation_ids seq a ++ mutation_ids (seq + Z.of_nat a) b.
Proof.
  revert seq. induction a as [|a IH]; intros seq; [by rewrite Z.add_0_r|].
  cbn [Nat.add mutation_ids]. rewrite IH, <- app_assoc. do 3 f_equal. lia.
Qed.

Lemma pg_events_ids seq clock : 0 <= seq → seq + Z.of_nat (length clock) < 2 ^ 64 →
  NoDup (id <$> pg_events seq clock).
Proof.
  revert seq. induction clock as [|now clock IH]; intros seq Hs Hl; [constructor|].
  cbn [pg_events length fmap list_fmap] in *. apply NoDup_cons. split; [|apply IH; lia].
  intros (e & Hid & He)%list_elem_of_fmap. apply pg_events_elem in He as (n & now' & -> & Hn).
  cbn [id source_event] in Hid. apply string_app_inj_l, display_u64_inj in Hid; unfold in_range; lia.
Qed.

(** After whole transactions the last mutation is the event before the last commit. *)
Lemma pg_last_mutation q clock : (0 < q)%nat → length clock = (4 * q)%nat →
  ∃ now, last (List.filter is_mutation (pg_events 0 clock)) = Some (source_event (4 * Z.of_nat q - 1) now).
Proof.
  intros Hq Hl. destruct clock as [|b clock _] using rev_ind; [cbn in Hl; lia|].
  rewrite length_app in Hl. cbn in Hl. destruct clock as [|a clock _] using rev_ind; [cbn in Hl; lia|].
  rewrite length_app in Hl. cbn in Hl. exists a.
  rewrite !pg_events_app, !List.filter_app, length_app. cbn [length pg_events List.filter].
  rewrite !pg_event_mutation.
  replace (0 + Z.of_nat (length clock + 1) + 1) with (4 * Z.of_nat q) by lia.
  replace (0 + Z.of_nat (length clock) + 1) with (4 * Z.of_nat q - 1) by lia.
  assert (H1 : ((4 * Z.of_nat q - 1) mod 4 =? 0) = false) by (apply Z.eqb_neq; div_lia).
  assert (H2 : ((4 * Z.of_nat q) mod 4 =? 0) = true) by (apply Z.eqb_eq; div_lia).
  rewrite H1, H2. cbn [negb]. by rewrite app_nil_r, last_snoc.
Qed.

(** The event's JSON, with which the guest is called, fits the page of the bundled guest. *)
Definition fits (e : ChangeEvent) : Prop :=
  ∃ raw, event_to_vec e = Ok raw ∧ Z.of_nat (length raw) <= WasmTransformer.page_size.

Lemma pg_events_pass v (st : StateStore.t R) seq clock : 0 <= seq →
  seq + Z.of_nat (length clock) < 2 ^ 53 →
  StateStore.get_schema (J:=J) st pg_source = Ok (Some user_schema) →
  WasmTransformer.passthrough v.(transformer) →
  Forall fits (pg_events seq clock) → Forall (passes v st) (pg_events seq clock).
Proof.
  rewrite !Forall_forall. intros Hs Hl Hsch Hg Hser e He. destruct (Hser e He) as (raw & Hr & Hlen).
  apply pg_events_elem in He as (n & now & -> & Hn). apply (pg_event_passes v st n now raw); [lia|done..].
Qed.

(** What a run from the beginning of the stream sends: the mutations of its whole transactions. *)
Lemma pg_first_run clock :
  committed (pg_events 0 clock) =
    List.filter is_mutation (pg_events 0 (take (4 * (length clock / 4)) clock)).
Proof.
  pose proof (Nat.div_mod_eq (length clock) 4) as Hd.
  pose proof (Nat.mod_upper_bound (length clock) 4 ltac:(lia)) as Hm.
  set (q := (length clock / 4)%nat) in *.
  rewrite <- (take_drop (4 * q) clock) at 1. rewrite pg_events_app.
  assert (Ht : length (take (4 * q) clock) = (4 * q)%nat) by (rewrite length_take; lia).
  rewrite pg_committed by (rewrite ?Ht; div_lia). rewrite pg_committed_open; [by rewrite app_nil_r| |].
  - lia.
  - rewrite Ht, length_drop. replace ((0 + Z.of_nat (4 * q)) mod 4) with 0 by div_lia. lia.
Qed.

(** Where the second node resumes: at the beginning, or at the commit of the last whole transaction. *)
Definition resumes_at (q : nat) : Z := Z.max 0 (4 * Z.of_nat q - 1).

Lemma pg_resume_point fo st (s1 : pg_task) q whole : StateStore.offset_at st pg_source = None →
  length whole = (4 * q)%nat → 4 * Z.of_nat q < 2 ^ 53 →
  s1.(store) = save_all pg_source st (List.filter is_mutation (pg_events 0 whole)) →
  PostgresSource.start_seq (last_offset fo s1.(store) pg_source) = resumes_at q.
Proof.
  intros Hnone Hw Hq D. pose proof (save_all_offset writable pg_source st
    (List.filter is_mutation (pg_events 0 whole))) as Ho. rewrite <- D in Ho. unfold resumes_at.
  destruct (decide (q = 0%nat)) as [->|Hne].
  - destruct whole; [|done]. cbn in Ho. rewrite Hnone in Ho. by rewrite last_offset_none.
  - destruct (pg_last_mutation q whole ltac:(lia) Hw) as [now El]. rewrite El in Ho.
    rewrite Z.max_r by lia. rewrite (last_offset_saved readable _ _ _ (display_u64 (4 * Z.of_nat q - 1))).
    + unfold PostgresSource.start_seq. cbn [mbind option_bind].
      rewrite parse_display_u64; [done|unfold in_range; lia].
    + apply ascii_str_ok, display_ascii. lia.
    + exact Ho.
Qed.

Lemma resumed_ids q len m : resumes_at q + Z.of_nat len = 4 * Z.of_nat m →
  mutation_ids 0 (4 * q) ++ mutation_ids (resumes_at q) len = mutation_ids 0 (4 * m).
Proof.
  unfold resumes_at. intros Hl. destruct (decide (q = 0%nat)) as [->|Hq].
  { cbn. cbn in Hl. f_equal. lia. }
  rewrite Z.max_r in * by lia.
  destruct len as [|len]; [exfalso; lia|]. cbn [mutation_ids].
  replace (4 * Z.of_nat q - 1 + 1) with (4 * Z.of_nat q) by lia.
  assert (H4 : ((4 * Z.of_nat q) mod 4 =? 0) = true) by (apply Z.eqb_eq; div_lia). rewrite H4. cbn [app].
  replace (4 * m)%nat with (4 * q + len)%nat by lia. rewrite mutation_ids_app. do 2 f_equal. lia.
Qed.

(** ** Property *)

(** C2. From the source to Kafka over a hand-over between two items: the node runs its PostgreSQL loop on any
    number of events of the simulated stream and stops after one of them, not in the middle of its handling
    (a crash there can repeat one event, which is [Lives.sources_at_least_once]); whatever the node that
    takes over finds in its attempt counter and clock, it connects, resumes at the last mutation of the last
    transaction that the first has seen whole and reads up to the end of transaction number [m].  Then the
    events the two nodes hand to Kafka are the mutations of the first [m] transactions, in order and once
    each (the events of the stream that are not commits).  Both nodes lead and their limiters grant every
    item; no read or write of the database fails; it holds the schema that [main] registers and no
    checkpoint at first; the guest is the pass-through of [main] and its page holds each event's JSON; and
    the first [m] transactions have fewer than [2 ^ 53] events. *)
Theorem main_end_to_end {E} (p : Profile) (v : env) (st : StateStore.t R) (fo : FailoverController.t)
    (lim : TokenBucketLimiter.t) (m : nat) (clock : list Z) (es : list ChangeEvent)
    (items : list (item E))
    (Hschema : StateStore.get_schema (J:=J) st pg_source = Ok (Some user_schema))
    (Hnone : StateStore.offset_at st pg_source = None)
    (Hguest : WasmTransformer.passthrough v.(transformer))
    (Hm : 4 * Z.of_nat m < 2 ^ 53) (Hc : (length clock <= 4 * m)%nat)
    (Hs : PostgresSource.stream p (PostgresSource.start_seq (last_offset fo st pg_source)) clock = Ret es)
    (Hfit : Forall fits es) (Hes : receives items es) (Hg : granted lim items) :
  ∃ s1 tr1, pg_run v (pg_start st fo lim) items = Some (Ret (s1, tr1)) ∧
  ∀ attempts nanos fo', in_range 64 attempts →
  let start := resumes_at (length clock / 4) in
  ∃ sleeps, PostgresSource.start_stream attempts nanos (last_offset fo' s1.(store) pg_source)
      = Some (Ret (Ok start, sleeps)) ∧
  ∀ clock', start + Z.of_nat (length clock') = 4 * Z.of_nat m →
  ∃ es', PostgresSource.stream p start clock' = Ret es' ∧
  ∀ lim' (items' : list (item E)), Forall fits es' → receives items' es' → granted lim' items' →
  ∃ s2 tr2, pg_run v (pg_start s1.(store) fo' lim') items' = Some (Ret (s2, tr2)) ∧
    id <$> attempted tr1 ++ attempted tr2 = mutation_ids 0 (4 * m).
Proof.
  rewrite last_offset_none in Hs by done. change (PostgresSource.start_seq None) with 0 in Hs.
  rewrite pg_stream_spec in Hs by lia. injection Hs as <-.
  pose proof (pg_events_pass v st 0 clock ltac:(lia) ltac:(lia) Hschema Hguest Hfit) as Hp1.
  destruct (passes_run readable v st st fo lim items _ (same_schema_refl _) Hp1
    (pg_events_ids 0 clock ltac:(lia) ltac:(lia)) Hes Hg) as (s1 & tr1 & R1 & A1 & D1).
  exists s1, tr1. split; [done|]. intros attempts nanos fo' Ha start. rewrite pg_first_run in A1, D1.
  pose proof (Nat.div_mod_eq (length clock) 4) as Hd. set (q := (length clock / 4)%nat) in *.
  set (whole := take (4 * q) clock) in *.
  assert (Hw : length whole = (4 * q)%nat) by (unfold whole; rewrite length_take; lia).
  destruct (pg_start_ok attempts nanos (last_offset fo' (store s1) pg_source) Ha) as (sleeps & E1 & _).
  rewrite (pg_resume_point fo' st s1 q whole) in E1 by (done || lia). exists sleeps. split; [done|].
  intros clock' Hc'. exists (pg_events start clock').
  assert (H0 : 0 <= start) by (unfold start, resumes_at; lia).
  split; [apply pg_stream_spec; lia|]. intros lim' items' Hfit' Hes' Hg'.
  pose proof (pg_events_pass v st start clock' H0 ltac:(lia) Hschema Hguest Hfit') as Hp2.
  assert (Hss : same_schema (store s1) st) by (rewrite D1; apply save_all_schema).
  destruct (passes_run readable v st (store s1) fo' lim' items' _ Hss Hp2
    (pg_events_ids start clock' H0 ltac:(lia)) Hes' Hg') as (s2 & tr2 & R2 & A2 & _).
  exists s2, tr2. split; [done|]. rewrite A1, A2, fmap_app, pg_mutation_ids, Hw.
  rewrite <- (app_nil_r (pg_events start clock')), pg_committed by (rewrite ?Hc'; div_lia).
  rewrite fmap_app, pg_mutation_ids. cbn [fmap list_fmap]. rewrite app_nil_r. by apply resumed_ids.
Qed.

End engine.

(** ** Example: six events, a crash in the second transaction, and the second node from its mutation 3 on *)

Ltac all_fit :=
  repeat (apply Forall_cons; split);
  lazymatch goal with
  | |- Forall _ _ => apply Forall_nil; exact I
  | _ => eexists; split; [reflexivity | apply Z.leb_le; by_eval]
  end.

Lemma main_end_to_end_witness :
  ∃ s1 tr1, pg_run (J:=tree_json) pipeline_env (pg_start main_store main_failover main_limiter)
      (items_of (pg_events 0 [1; 2; 3; 4; 5; 6])) = Some (Ret (s1, tr1)) ∧
  ∃ s2 tr2, pg_run (J:=tree_json) pipeline_env (pg_start s1.(store) main_failover main_limiter)
      (items_of (pg_events 3 [7; 8; 9; 10; 11])) = Some (Ret (s2, tr2)) ∧
    id <$> attempted tr1 ++ attempted tr2 =
      ["pg-evt-1"; "pg-evt-2"; "pg-evt-3"; "pg-evt-5"; "pg-evt-6"; "pg-evt-7"]%string.
Proof.
  destruct (main_end_to_end (J:=tree_json) mem_db_readable mem_db_writable Dev pipeline_env main_store
    main_failover main_limiter 2 [1; 2; 3; 4; 5; 6] (pg_events 0 [1; 2; 3; 4; 5; 6])
    (items_of (pg_events 0 [1; 2; 3; 4; 5; 6]))) as (s1 & tr1 & R1 & H).
  - by_eval.
  - by_eval.
  - exact guest_module_passthrough.
  - lia.
  - cbn. lia.
  - by_eval.
  - all_fit.
  - apply receives_items.
  - apply granted_main. cbn. lia.
  - exists s1, tr1. split; [exact R1|].
    destruct (H 0 (λ _, None) main_failover ltac:(unfold in_range; lia)) as (_ & _ & H2).
    destruct (H2 [7; 8; 9; 10; 11] eq_refl) as (es' & E & H3).
    rewrite pg_stream_spec in E by (unfold resumes_at; cbn; lia). injection E as <-.
    destruct (H3 main_limiter (items_of (pg_events 3 [7; 8; 9; 10; 11]))) as (s2 & tr2 & R2 & A).
    + all_fit.
    + apply receives_items.
    + apply granted_main. cbn. lia.
    + exists s2, tr2. split; [exact R2|]. etransitivity; [exact A|by_eval].
Defined.
End EndToEnd.
