(* ===== verification/Lives.v ===== *)
(** The process from its two simulated sources to Kafka, over any number of lives that crashes end: the events of
    each life carry the times of that life, so what the lives have in common is the numbers of the events. *)
From S2P Require Import Prelude Text F64 Event Clock Buffer Dedup Store Schema Confluent Avro.
From S2P Require Import Watermark Consensus RateLimiter Sip Router Transform Guests Source Sink Reference Pipeline.
From S2P Require Import Effects Engine Sensors Main EndToEnd.

Module Lives.
Import Pipeline Effects Engine Main.

(** ** Streams that are started again *)

Section stream.
Context {S : CdcSource} {SL : CdcSourceLaws S}.

(** What a stream that is started with the offset [o] delivers, up to event number [N], while the clock shows what
    [ok] admits. *)
Definition delivers (p : Profile) (ok : instants → Prop) (N : nat) (o : option string) (es : list ChangeEvent) : Prop :=
  ∃ attempts nanos pos sleeps clock, in_range 64 attempts ∧ start_stream attempts nanos o = Some (Ret (Ok pos, sleeps)) ∧
    events p pos clock = Ret es ∧ Forall ok clock ∧ pos + Z.of_nat (length clock) <= Z.of_nat N.

Lemma start_delivers p (ok : instants → Prop) N o clock : let pos := default 0 (o ≫= parse_u64) in
  0 <= pos → pos + Z.of_nat (length clock) <= Z.of_nat N → Z.of_nat N < 2 ^ 64 → Forall ok clock →
  delivers p ok N o (numbered_from pos clock).
Proof.
  intros pos H0 H1 H2 Hok. destruct (start_resumes 0 (λ _, None) o) as (sleeps & E & _); [by split|].
  exists 0, (λ _, None), pos, sleeps, clock. split_and!; [by split|done|apply events_spec; lia|done|done].
Qed.

Lemma numbered_elem pos clock e : e ∈ numbered_from pos clock →
  ∃ k i, e = numbered k i ∧ pos < k <= pos + Z.of_nat (length clock) ∧ i ∈ clock.
Proof.
  revert pos. induction clock as [|i clock IH]; intros pos; [by intros ?%elem_of_nil|].
  cbn [numbered_from length]. intros [->|H]%elem_of_cons; [exists (pos + 1), i; split_and!; [done|lia|lia|left]|].
  destruct (IH _ H) as (k & j & -> & Hk & Hj). exists k, j. split_and!; [done|lia|lia|by right].
Qed.

Lemma numbered_offsets_fresh pos (c1 c2 : list instants) n i : 0 <= pos → pos + Z.of_nat (length c1 + length c2) < 2 ^ 64 →
  pos + Z.of_nat (length c1) < n <= pos + Z.of_nat (length c1 + length c2) →
  (numbered n i).(offset) ∉ (offset <$> numbered_from pos c1).
Proof.
  intros H0 H1 Hn (e & E & He)%list_elem_of_fmap. apply numbered_elem in He as (k & j & -> & Hk & _).
  rewrite !numbered_offset in E. apply display_u64_inj in E; unfold in_range; lia.
Qed.

Lemma numbered_offsets_nodup pos clock : 0 <= pos → pos + Z.of_nat (length clock) < 2 ^ 64 →
  NoDup (offset <$> numbered_from pos clock).
Proof.
  intros H0. induction clock as [|i clock IH] using rev_ind; intros H1; [constructor|].
  rewrite length_app in H1. cbn in H1. rewrite numbered_from_app, fmap_app. apply NoDup_app. split_and!.
  - apply IH. lia.
  - intros o Ho. cbn. intros [->|[]%elem_of_nil]%elem_of_cons. revert Ho.
    apply (numbered_offsets_fresh pos clock [i]); cbn; lia.
  - cbn. apply NoDup_cons. split; [apply not_elem_of_nil|constructor].
Qed.

Lemma stream_resume c1 c2 : (0 < length c1)%nat → Z.of_nat (length (c1 ++ c2)) < 2 ^ 64 →
  after_offset (display_u64 (Z.of_nat (length c1))) (numbered_from 0 (c1 ++ c2)) =
    numbered_from (Z.of_nat (length c1)) c2.
Proof.
  destruct c1 as [|i c1 _] using rev_ind; [cbn; lia|]. intros _. rewrite <- app_assoc, !length_app. cbn [length]. intros H.
  rewrite numbered_from_app. cbn [numbered_from]. change ([i] ++ c2) with (i :: c2). cbn [numbered_from]. rewrite <- (numbered_offset (Z.of_nat (length c1 + 1)) i).
  replace (Z.of_nat (length c1 + 1)) with (Z.of_nat (length c1) + 1) by lia.
  apply after_offset_at, (numbered_offsets_fresh 0 c1 [i]); cbn; lia.
Qed.

End stream.

Section lives.
Context `{R : RocksDB} `{J : SerdeJson} `{W : Wasmtime}.
Context {L : RocksDBLaws R}.
Context (writable : ∀ (d : db) k b, ∃ d', db_put d k b = (d', Ok tt)).
Context (readable : ∀ d : db, db_readable d).

(** ** What a task makes of the streams of its lives *)

Section task.
Context {S : CdcSource} {SL : CdcSourceLaws S} {T : Task} {TL : TaskLaws T} {A : Type}.
Context (mark : ChangeEvent → A) (v : env (W:=W)) (st0 : StateStore.t R) (l0 : local).
Context (ok : instants → Prop) (N : nat) (nums : list Z) (marks : list A) (muts : list instants → list ChangeEvent).

(** On every whole stream of [N] events the task can take up after any of the mutations, which have the numbers [nums]
    and show [marks], whatever the times. *)
Record family : Prop := {
  fam_replay clock : length clock = N → Forall ok clock → replayable mark v st0 l0 (numbered_from 0 clock) (muts clock);
  fam_marks clock : length clock = N → mark <$> muts clock = marks;
  fam_offsets clock : length clock = N → offset <$> muts clock = display_u64 <$> nums;
  fam_nums : Forall (λ k, 0 < k <= Z.of_nat N) nums;
  fam_size : Z.of_nat N < 2 ^ 64;
}.
End task.
#[local] Arguments fam_replay {S SL T TL A mark v st0 l0 ok N nums marks muts} f.
#[local] Arguments fam_marks {S SL T TL A mark v st0 l0 ok N nums marks muts} f.
#[local] Arguments fam_offsets {S SL T TL A mark v st0 l0 ok N nums marks muts} f.
#[local] Arguments fam_nums {S SL T TL A mark v st0 l0 ok N nums marks muts} f.
#[local] Arguments fam_size {S SL T TL A mark v st0 l0 ok N nums marks muts} f.

Section family.
Context {S : CdcSource} {SL : CdcSourceLaws S} {T : Task} {TL : TaskLaws T} {A : Type}.
Context {mark : ChangeEvent → A} {v : env (W:=W)} {st0 : StateStore.t R} {l0 : local} {ok : instants → Prop} {N : nat}.
Context {nums : list Z} {marks : list A} {muts : list instants → list ChangeEvent}.
Context (F : family mark v st0 l0 ok N nums marks muts) (i0 : instants) (Hi0 : ok i0).

(** The first [n] mutations are sent and saved. *)
Definition saved_up_to {T : Task} (nums : list Z) (n : nat) (st : StateStore.t R) : Prop :=
  StateStore.offset_at st source_id = last (as_bytes ∘ display_u64 <$> take n nums).

Lemma saved_up_to_of clock n st : length clock = N →
  saved_up_to nums n st ↔ offset_of source_id st (take n (muts clock)).
Proof.
  intros Hc. unfold saved_up_to, offset_of. by rewrite !list_fmap_compose, !fmap_take, (fam_offsets F clock Hc).
Qed.

Lemma last_num n k : last (take n nums) = Some k → 0 < k < 2 ^ 64.
Proof.
  pose proof (fam_nums F) as Hn. pose proof (fam_size F). rewrite Forall_forall in Hn.
  intros El%last_Some_elem_of. apply elem_of_take in El as (? & El%list_elem_of_lookup_2 & _). apply Hn in El. lia.
Qed.

(** The events that a life reads belong to a whole stream. *)
Lemma delivers_log p n es : delivers p ok N (display_u64 <$> last (take n nums)) es → ∃ clock,
  length clock = N ∧ Forall ok clock ∧
  ∃ rest, resume_from (display_u64 <$> last (take n nums)) (numbered_from 0 clock) = es ++ rest ∧
    Z.of_nat (length es + length rest) = Z.of_nat N - default 0 (last (take n nums)).
Proof.
  intros (attempts & nanos & pos & sleeps & clock & Ha & Hs & He & Hok & Hle).
  set (o := last (take n nums)) in *. assert (Hpos : pos = default 0 o ∧ 0 <= pos ∧ ∀ k, o = Some k → 0 < k).
  { destruct (start_resumes attempts nanos (display_u64 <$> o) Ha) as (sl & E & _). rewrite E in Hs.
    injection Hs as <- _. destruct o as [k|] eqn:Eo; [|done]. pose proof (last_num n k Eo) as Hk.
    cbn [fmap option_fmap option_map mbind option_bind]. rewrite parse_display_u64 by (unfold in_range; lia).
    split_and!; [done|cbn; lia|]. intros ? [= <-]. lia. }
  destruct Hpos as (Hpos & H0 & Hk). pose proof (fam_size F). rewrite events_spec in He by lia. injection He as <-.
  set (pad := replicate (N - Z.to_nat pos - length clock) i0).
  exists (replicate (Z.to_nat pos) i0 ++ clock ++ pad). unfold pad. split; [|split].
  - rewrite !length_app, !length_replicate. lia.
  - rewrite !Forall_app. split_and!; [by apply Forall_replicate|done|by apply Forall_replicate].
  - exists (numbered_from (pos + Z.of_nat (length clock)) pad). rewrite !numbered_from_length. unfold pad.
    rewrite length_replicate. split; [|lia]. rewrite <- numbered_from_app.
    destruct o as [k|]; cbn in Hpos; subst pos; cbn [fmap option_fmap option_map resume_from]; [|done].
    specialize (Hk k eq_refl). pose proof (stream_resume (replicate (Z.to_nat k) i0) (clock ++ replicate (N - Z.to_nat k - length clock) i0)) as Hr.
    rewrite length_replicate, Z2Nat.id in Hr by lia. apply Hr; [lia|].
    rewrite !length_app, !length_replicate. lia.
Qed.

(** What [main] reads back when it starts again. *)
Lemma saved_last_offset fo n st : saved_up_to nums n st →
  last_offset fo st source_id = display_u64 <$> last (take n nums) ∧
  default 0 (last_offset fo st source_id ≫= parse_u64) = default 0 (last (take n nums)).
Proof.
  unfold saved_up_to. rewrite fmap_last. intros Ho. destruct (last (take n nums)) as [k|] eqn:El.
  - pose proof (last_num n k El) as Hk.
    rewrite (last_offset_saved readable fo st _ (display_u64 k)); [|apply ascii_str_ok, display_ascii; lia|exact Ho].
    cbn [fmap option_fmap option_map mbind option_bind]. by rewrite parse_display_u64 by (unfold in_range; lia).
  - by rewrite (last_offset_none readable).
Qed.
End family.

(** ** Lives on the two streams *)

Context (num_milliseconds : Z → Z) (to_rfc3339 : Z → string).
Abbreviation pg_stream := PostgresSource_CdcSource.
Abbreviation cass_stream := (CassandraSource_CdcSource to_rfc3339).
Context (p : Profile) (ok1 : Z → Prop) (ok2 : Z * Z → Prop) (N1 N2 : nat).

(** One start of the process on a database that opens, each task on what its source delivers from the saved offset
    on, up to any step. *)
Definition source_life {E1 E2} (st : StateStore.t R) (es1 es2 : list ChangeEvent) (e : engine pg cass E1 E2) : Prop :=
  ∃ (M : Type) (install : string → Result unit M) now_failover now_limiter printed a,
    startup install now_failover now_limiter (λ _, Ok st.(StateStore.handle)) = (printed, Ok a) ∧
    rtc (step (env_of num_milliseconds a)) (spawned a) e ∧
    delivers (S:=pg_stream) p ok1 N1 (last_offset a.(failover_controller) a.(state_store) pg_source) es1 ∧
    delivers (S:=cass_stream) p ok2 N2 (last_offset a.(failover_controller) a.(state_store) cass_source) es2 ∧
    e.(first).(received) `prefix_of` es1 ∧ e.(second).(received) `prefix_of` es2.

Inductive source_lives {E1 E2} :
    StateStore.t R → list (list (@effect R J) * list (@effect R J)) → StateStore.t R → Prop :=
  | source_lives_none st : source_lives st [] st
  | source_lives_again st es1 es2 (e : engine pg cass E1 E2) trs st' :
    source_life st es1 es2 e → source_lives (E1:=E1) (E2:=E2) e.(sh).(sh_store) trs st' →
    source_lives st ((e.(first).(trace), e.(second).(trace)) :: trs) st'.

Section families.
Context {E1 E2 A1 A2 : Type} (mark1 : ChangeEvent → A1) (mark2 : ChangeEvent → A2).
Context (m : wasm_module) (Hm : module_new (as_bytes Guests.wat) = Ok m) (st0 : StateStore.t R).
Context (nums1 nums2 : list Z) (marks1 : list A1) (marks2 : list A2).
Context (muts1 : list Z → list ChangeEvent) (muts2 : list (Z * Z) → list ChangeEvent).
Context (F1 : family (S:=pg_stream) (TL:=pg_laws readable) mark1 (main_env num_milliseconds m) (registered st0).1
  pg_local0 ok1 N1 nums1 marks1 muts1).
Context (F2 : family (S:=cass_stream) (TL:=cass_laws) mark2 (main_env num_milliseconds m) (registered st0).1
  cass_local0 ok2 N2 nums2 marks2 muts2).
Context (i1 : Z) (i2 : Z * Z) (Hi1 : ok1 i1) (Hi2 : ok2 i2).

(** Between two lives, [n1] and [n2] mutations being sent and saved. *)
Record rested (n1 n2 : nat) (st : StateStore.t R) : Prop := {
  rested_schema : same_schema (registered st).1 (registered st0).1;
  rested_pg : saved_up_to (T:=pg) nums1 n1 st;
  rested_cass : saved_up_to (T:=cass) nums2 n2 st;
}.

Lemma registered_saved {T : Task} nums n st : saved_up_to (T:=T) nums n st → saved_up_to (T:=T) nums n (registered st).1.
Proof. unfold saved_up_to. destruct (registered_at st) as [Ho _]. by rewrite Ho. Qed.

(** What a life adds to what the lives before it have sent. *)
Lemma lived_step {T : Task} {A} {mark : ChangeEvent → A} {n st' tr a' d b'} {muts : list ChangeEvent} {marks nums} :
  mark <$> muts = marks → offset <$> muts = display_u64 <$> nums →
  lived mark source_id (take n muts) (drop n muts) st' tr a' d b' →
  let n' := length (take n muts ++ a') in
  saved_up_to (T:=T) nums n' st' ∧ ∀ trs b, delivered (λ tr, mark <$> attempted tr) (drop n' marks) trs b →
    delivered (λ tr, mark <$> attempted tr) (drop n marks) (tr :: trs) b.
Proof.
  intros <- Hoff V n'. pose proof (lived_rest _ _ _ _ _ _ _ _ _ V) as Hb.
  assert (Hmuts : muts = (take n muts ++ a') ++ b') by (by rewrite <- app_assoc, <- Hb, take_drop).
  split.
  - unfold saved_up_to. rewrite list_fmap_compose, fmap_take, <- Hoff, <- fmap_take, <- list_fmap_compose.
    rewrite Hmuts. unfold n'. rewrite take_app_length. apply (lived_offset _ _ _ _ _ _ _ _ _ V).
  - intros trs b D. rewrite <- fmap_drop. eapply delivered_cons; [exact V|].
    rewrite <- fmap_drop, Hmuts in D. unfold n' in D. rewrite drop_app_length in D. exact D.
Qed.

Lemma one_source_life n1 n2 st es1 es2 (e : engine pg cass E1 E2) : rested n1 n2 st → source_life st es1 es2 e →
  ∃ n1' n2', rested n1' n2' e.(sh).(sh_store) ∧
    (∀ trs b, delivered (λ tr, mark1 <$> attempted tr) (drop n1' marks1) trs b →
       delivered (λ tr, mark1 <$> attempted tr) (drop n1 marks1) (e.(first).(trace) :: trs) b) ∧
    (∀ trs b, delivered (λ tr, mark2 <$> attempted tr) (drop n2' marks2) trs b →
       delivered (λ tr, mark2 <$> attempted tr) (drop n2 marks2) (e.(second).(trace) :: trs) b) ∧
    (e.(first).(at_) = Idle → e.(first).(received) = es1 →
       Z.of_nat (length es1) = Z.of_nat N1 - default 0 (last (take n1 nums1)) →
       mark1 <$> attempted e.(first).(trace) = drop n1 marks1) ∧
    (e.(second).(at_) = Idle → e.(second).(received) = es2 →
       Z.of_nat (length es2) = Z.of_nat N2 - default 0 (last (take n2 nums2)) →
       mark2 <$> attempted e.(second).(trace) = drop n2 marks2).
Proof.
  intros [Hsch Ho1 Ho2] (M & install & t1 & t2 & out & a & Hst & Hrun & D1 & D2 & R1 & R2).
  pose proof Hst as Hst'. apply (startup_app num_milliseconds) in Hst' as (m' & Hm' & _ & Hstore).
  assert (m' = m) as -> by congruence.
  assert (K1 : ∀ fo, last_offset fo (registered st).1 pg_source = display_u64 <$> last (take n1 nums1))
    by (intros fo; apply (saved_last_offset F1), registered_saved, Ho1).
  assert (K2 : ∀ fo, last_offset fo (registered st).1 cass_source = display_u64 <$> last (take n2 nums2))
    by (intros fo; apply (saved_last_offset F2), registered_saved, Ho2).
  rewrite Hstore, K1 in D1. rewrite Hstore, K2 in D2.
  apply (delivers_log F1 i1 Hi1) in D1 as (c1 & Hc1 & Hok1 & rest1 & G1 & Hl1).
  apply (delivers_log F2 i2 Hi2) in D2 as (c2 & Hc2 & Hok2 & rest2 & G2 & Hl2).
  assert (Hlife : life num_milliseconds (numbered_from (S:=pg_stream) 0 c1) (numbered_from (S:=cass_stream) 0 c2) st e).
  { exists M, install, t1, t2, out, a. rewrite Hstore, K1, K2, G1, G2. split_and!; [done|done|by apply prefix_app_r..]. }
  pose proof (fam_replay F1 c1 Hc1 Hok1) as Rep1.
  pose proof (fam_replay F2 c2 Hc2 Hok2) as Rep2.
  assert (Hr : rests st0 (take n1 (muts1 c1)) (take n2 (muts2 c2)) st).
  { split; [done| |]; [by apply (saved_up_to_of F1)|by apply (saved_up_to_of F2)]. }
  destruct (one_life num_milliseconds writable readable mark1 mark2 m st0 _ _ _ _ _ _ _ _ st e Hm Rep1 Rep2
    (eq_sym (take_drop n1 _)) (eq_sym (take_drop n2 _)) Hr Hlife)
    as (a1' & d1 & b1' & a2' & d2 & b2' & V1 & V2 & [Hsch' _ _] & _ & _ & F).
  destruct (lived_step (T:=pg) (fam_marks F1 c1 Hc1) (fam_offsets F1 c1 Hc1) V1) as [S1 Q1].
  destruct (lived_step (T:=cass) (fam_marks F2 c2 Hc2) (fam_offsets F2 c2 Hc2) V2) as [S2 Q2].
  eexists _, _. split; [split; [exact Hsch'|exact S1|exact S2]|]. split; [exact Q1|]. split; [exact Q2|].
  destruct (F a.(failover_controller)) as [G1' G2']. rewrite K1, G1 in G1'. rewrite K2, G2 in G2'.
  rewrite <- (fam_marks F1 c1 Hc1), <- (fam_marks F2 c2 Hc2), <- !fmap_drop.
  destruct V1 as [-> -> _ _], V2 as [-> -> _ _]. split; intros Hi Hrec Hl.
  - destruct G1' as [-> ->]; [done| |by rewrite app_nil_r]. assert (rest1 = []) as -> by (apply nil_length_inv; lia).
    by rewrite app_nil_r.
  - destruct G2' as [-> ->]; [done| |by rewrite app_nil_r]. assert (rest2 = []) as -> by (apply nil_length_inv; lia).
    by rewrite app_nil_r.
Qed.

Lemma source_lives_from n1 n2 st trs st' : rested n1 n2 st → source_lives (E1:=E1) (E2:=E2) st trs st' →
  ∃ n1' n2', rested n1' n2' st' ∧
    delivered (λ tr, mark1 <$> attempted tr) (drop n1 marks1) trs.*1 (drop n1' marks1) ∧
    delivered (λ tr, mark2 <$> attempted tr) (drop n2 marks2) trs.*2 (drop n2' marks2).
Proof.
  intros Hr H. revert n1 n2 Hr. induction H as [st|st es1 es2 e trs st' Hl _ IH]; intros n1 n2 Hr.
  { exists n1, n2. split_and!; [done|apply delivered_nil..]. }
  destruct (one_source_life n1 n2 st es1 es2 e Hr Hl) as (k1 & k2 & Hr' & Q1 & Q2 & _).
  destruct (IH k1 k2 Hr') as (n1' & n2' & Hr2 & D1 & D2). exists n1', n2'. cbn. auto.
Qed.
End families.

(** ** The families of the two tasks *)

Context {JL : SerdeJsonLaws J} {WL : WasmtimeLaws W}.

Lemma pg_numbered pos clock : numbered_from (S:=pg_stream) pos clock = pg_events pos clock.
Proof. revert pos. induction clock as [|now clock IH]; intros pos; [done|]. cbn. by rewrite IH. Qed.

Lemma pg_family v st m : StateStore.get_schema (J:=J) st pg_source = Ok (Some user_schema) →
  WasmTransformer.passthrough v.(Pipeline.transformer) → 4 * Z.of_nat m < 2 ^ 53 →
  (∀ n now, 0 < n <= 4 * Z.of_nat m → ok1 now → EndToEnd.fits (source_event n now)) →
  family (S:=pg_stream) (TL:=pg_laws readable) id v st pg_local0 ok1 (4 * m) (EndToEnd.mutation_numbers 0 (4 * m))
    (EndToEnd.mutation_ids 0 (4 * m)) (λ clock, List.filter is_mutation (pg_events 0 clock)).
Proof.
  intros Hsch Hg Hm Hfit. split.
  - intros clock Hc Hok. destruct (EndToEnd.pg_blocks m clock 0 ltac:(lia) Hc) as (ks & Hks & Hlog & Hmuts).
    assert (Hc' : length (clock : list Z) = (4 * m)%nat) by exact Hc. change (4 * 0) with 0 in *.
    rewrite pg_numbered, <- Hmuts, <- Hlog. apply pg_replayable; [done|rewrite Hlog..].
    + apply EndToEnd.pg_events_pass; [lia|rewrite Hc'; lia|done|done|]. apply Forall_forall.
      rewrite <- pg_numbered. intros e (n & now & -> & Hn & Hnow)%numbered_elem. rewrite Hc in Hn.
      apply Hfit; [lia|]. rewrite Forall_forall in Hok. by apply Hok.
    + apply EndToEnd.pg_events_ids; rewrite ?Hc'; lia.
    + rewrite <- pg_numbered. apply numbered_offsets_nodup; rewrite ?Hc; lia.
  - intros clock Hc. rewrite EndToEnd.pg_mutation_ids. exact (f_equal (EndToEnd.mutation_ids 0) Hc).
  - intros clock Hc. rewrite EndToEnd.pg_mutation_offsets.
    exact (f_equal (λ l, display_u64 <$> EndToEnd.mutation_numbers 0 l) Hc).
  - eapply Forall_impl; [apply EndToEnd.mutation_numbers_range|]. cbn. lia.
  - lia.
Qed.

Lemma cass_family v st k : Z.of_nat k < 2 ^ 64 →
  (∀ n now, 0 < n <= Z.of_nat k → ok2 now → Sensors.keeps v (sensor_event to_rfc3339 n now)) →
  family (S:=cass_stream) (TL:=cass_laws) id v st cass_local0 ok2 k ((λ j, 0 + Z.of_nat j + 1) <$> seq 0 k)
    (Sensors.reading_ids 0 k) (numbered_from (S:=cass_stream) 0).
Proof.
  intros Hk Hkeep. split.
  - intros clock Hc Hok. assert (Hc' : length (clock : list (Z * Z)) = k) by exact Hc. apply (cass_replayable writable readable).
    + apply Sensors.readings_untransacted.
    + apply Forall_forall. intros e (n & now & -> & Hn & _)%numbered_elem. apply ascii_str_ok, display_ascii. lia.
    + apply Forall_forall. intros e (n & now & -> & Hn & Hnow)%numbered_elem. rewrite Forall_forall in Hok. rewrite Hc in Hn.
      destruct (Hkeep n now ltac:(lia) (Hok _ Hnow)) as (e' & He & Hi & Ho). exists e'. unfold transformed.
      change (numbered n now) with (sensor_event to_rfc3339 n now). by rewrite He.
    + apply Sensors.readings_distinct; rewrite ?Hc'; lia.
    + apply numbered_offsets_nodup; rewrite ?Hc; lia.
  - intros clock Hc. rewrite Sensors.readings_ids. exact (f_equal (Sensors.reading_ids 0) Hc).
  - intros clock Hc. rewrite Sensors.readings_offsets, <- list_fmap_compose.
    exact (f_equal (λ l, (λ j, display_u64 (0 + Z.of_nat j + 1)) <$> seq 0 l) Hc).
  - apply Forall_forall. intros n (j & -> & Hj%elem_of_seq)%list_elem_of_fmap. lia.
  - done.
Qed.
End lives.

(** ** Property *)

Section sources.
Context `{R : RocksDB} `{J : SerdeJson} `{W : Wasmtime}.
Context {L : RocksDBLaws R} {JL : SerdeJsonLaws J} {WL : WasmtimeLaws W}.
Context (writable : ∀ (d : db) k b, ∃ d', db_put d k b = (d', Ok tt)) (readable : ∀ d : db, db_readable d).
Context (num_milliseconds : Z → Z) (to_rfc3339 : Z → string).

(** C1. From the sources to Kafka, over any number of lives: the process is started again and again, each time on the
    database the life before has left, and dies at any step of its two tasks, in any interleaving; in each
    life, which leads while it reads, both tasks connect (whatever their attempt counters and clocks), resume after the offset that
    [main] reads from the store, and read some more of their simulated streams, the PostgreSQL task at
    most to the end of transaction number [m], the Cassandra task to reading number [k].  Then the events
    sent are, per task, the mutations of the first [m] transactions (the events that are not commits) and the
    readings from 1 to [k], in order, each life going on where the one before stopped, but that each crash
    may make the next lives repeat one event first; and a life that reads its stream to the end sends all
    the rest.  The schema is the one of [main], the database does not fail, each event's JSON fits the page of
    the guest, and the guest keeps the id and the offset of a reading (it may change its numbers).  An event is
    sent when the task calls [send] with it, whose result the task drops; the first database holds no
    checkpoint. *)
Theorem sources_at_least_once {E1 E2} (p : Profile) (ok1 : Z → Prop) (ok2 : Z * Z → Prop) (m k : nat) (guest : wasm_module)
    (st0 st : StateStore.t R) (trs : list (list (@effect R J) * list (@effect R J)))
    (Hguest : module_new (as_bytes Guests.wat) = Ok guest)
    (Hpass : WasmTransformer.passthrough (WasmTransformer.Mk guest))
    (Hschema : StateStore.get_schema (J:=J) (registered st0).1 pg_source = Ok (Some user_schema))
    (Hpg : StateStore.offset_at st0 pg_source = None) (Hcass : StateStore.offset_at st0 cass_source = None)
    (Hm : 4 * Z.of_nat m < 2 ^ 53) (Hk : Z.of_nat k < 2 ^ 64) (Hok1 : ∃ i, ok1 i) (Hok2 : ∃ i, ok2 i)
    (Hfit : ∀ n now, 0 < n <= 4 * Z.of_nat m → ok1 now → EndToEnd.fits (J:=J) (source_event n now))
    (Hkeep : ∀ n now, 0 < n <= Z.of_nat k → ok2 now →
       Sensors.keeps (main_env num_milliseconds guest) (sensor_event to_rfc3339 n now))
    (H : source_lives (E1:=E1) (E2:=E2) num_milliseconds to_rfc3339 p ok1 ok2 (4 * m) k st0 trs st) :
  ∃ b1 b2, delivered (λ tr, id <$> attempted tr) (EndToEnd.mutation_ids 0 (4 * m)) trs.*1 b1 ∧
    delivered (λ tr, id <$> attempted tr) (Sensors.reading_ids 0 k) trs.*2 b2 ∧
    ∀ es1 es2 (e : engine pg cass E1 E2) fo,
      source_life num_milliseconds to_rfc3339 p ok1 ok2 (4 * m) k st es1 es2 e →
      (e.(first).(at_) = Idle → e.(first).(received) = es1 →
       default 0 (last_offset fo (registered st).1 pg_source ≫= parse_u64) + Z.of_nat (length es1) = Z.of_nat (4 * m) →
       id <$> attempted e.(first).(trace) = b1) ∧
      (e.(second).(at_) = Idle → e.(second).(received) = es2 →
       default 0 (last_offset fo (registered st).1 cass_source ≫= parse_u64) + Z.of_nat (length es2) = Z.of_nat k →
       id <$> attempted e.(second).(trace) = b2).
Proof.
  destruct Hok1 as [i1 Hi1], Hok2 as [i2 Hi2].
  pose proof (pg_family readable ok1 (main_env num_milliseconds guest) (registered st0).1 m Hschema Hpass Hm Hfit) as F1.
  pose proof (cass_family writable readable to_rfc3339 ok2 (main_env num_milliseconds guest) (registered st0).1 k Hk Hkeep) as F2.
  destruct (source_lives_from (E1:=E1) (E2:=E2) writable readable num_milliseconds to_rfc3339 p ok1 ok2 (4 * m) k id id guest Hguest st0
    _ _ _ _ _ _ F1 F2 i1 i2 Hi1 Hi2 0 0 st0 trs st) as (n1 & n2 & Hr & D1 & D2).
  { split; [apply same_schema_refl|exact Hpg|exact Hcass]. }
  { exact H. }
  rewrite !drop_0 in D1, D2. eexists _, _. split; [exact D1|]. split; [exact D2|].
  intros es1 es2 e fo Hl.
  destruct (one_source_life writable readable num_milliseconds to_rfc3339 p ok1 ok2 (4 * m) k id id guest Hguest st0
    _ _ _ _ _ _ F1 F2 i1 i2 Hi1 Hi2 n1 n2 st es1 es2 e Hr Hl) as (_ & _ & _ & _ & _ & G1 & G2).
  destruct Hr as [_ Ho1 Ho2]. split; intros Hi Hrec Hlen; [apply G1|apply G2]; try done.
  - apply registered_saved in Ho1. destruct (saved_last_offset readable F1 fo n1 _ Ho1) as [_ E].
    cbn [source_id pg] in E. rewrite E in Hlen. lia.
  - apply registered_saved in Ho2. destruct (saved_last_offset readable F2 fo n2 _ Ho2) as [_ E].
    cbn [source_id cass] in E. rewrite E in Hlen. lia.
Qed.
End sources.

(** ** Witness: six events, a crash, and from the last mutation of the first transaction on *)

Definition zero (t : Z) : Prop := t = 0.
Definition zeros (t : Z * Z) : Prop := t = (0, 0).

Lemma eight_fit n now : 0 < n <= 8 → zero now → EndToEnd.fits (J:=tree_json) (source_event n now).
Proof.
  intros Hn ->. assert (n ∈ Z.of_nat <$> seq 1 8) as Hin.
  { apply list_elem_of_fmap. exists (Z.to_nat n). rewrite elem_of_seq. lia. }
  clear Hn. revert n Hin. refine (proj1 (Forall_forall (λ n, EndToEnd.fits (J:=tree_json) (source_event n 0)) _) _).
  cbn [fmap list_fmap seq].
  repeat (apply Forall_cons; split); try apply Forall_nil; [eexists; split; [reflexivity|apply Z.leb_le; by_eval]..|exact I].
Qed.

Lemma eight_pass seq clock : 0 <= seq → seq + Z.of_nat (length clock) <= 8 → Forall zero clock →
  Forall (passes (J:=tree_json) pipeline_env main_store) (pg_events seq clock).
Proof.
  intros H0 H1 Hz. apply EndToEnd.pg_events_pass; [done|lia|by_eval|exact guest_module_passthrough|].
  apply Forall_forall. rewrite <- pg_numbered. intros e (n & now & -> & Hn & Hnow)%numbered_elem.
  rewrite Forall_forall in Hz. apply eight_fit; [|by apply Hz]. change (length (A:=@instants PostgresSource_CdcSource)) with (length (A:=Z)) in Hn. lia.
Qed.

Lemma two_keep n now : 0 < n <= 2 → zeros now →
  Sensors.keeps (J:=tree_json) (main_env (W:=page_engine) millis Guests.passthrough_module) (sensor_event Sensors.no_time n now).
Proof. intros Hn ->. assert (n = 1 ∨ n = 2) as [-> | ->] by lia; (eexists; split; [by_eval|split; reflexivity]). Qed.

(** The life of a process whose PostgreSQL task reads the events after the offset it finds. *)
Lemma alone_source_life {E1 E2} st o clock a e : alone_run (E1:=E1) (E2:=E2) st (pg_events (default 0 (o ≫= parse_u64)) clock) a e →
  last_offset (J:=tree_json) main_failover (registered (J:=tree_json) st).1 pg_source = o →
  0 <= default 0 (o ≫= parse_u64) → default 0 (o ≫= parse_u64) + Z.of_nat (length clock) <= 8 → Forall zero clock →
  last_offset (J:=tree_json) main_failover (registered (J:=tree_json) st).1 cass_source = None →
  source_life millis Sensors.no_time Dev zero zeros 8 2 st (pg_events (default 0 (o ≫= parse_u64)) clock) [] e.
Proof.
  intros [[printed Hst] [Ha Hf] Hrun _ _ _ [_ Hr] Hb] Ho H0 H1 Hz Hn. eexists unit, (λ _, Ok tt), 0, 0, printed, a.
  rewrite Ha, Hf, Hr, Hb, Ho, Hn. split_and!; [exact Hst|exact Hrun| | |done|done].
  - rewrite <- pg_numbered. by apply (start_delivers (S:=PostgresSource_CdcSource)).
  - by apply (start_delivers (S:=CassandraSource_CdcSource Sensors.no_time) Dev zeros 2 None []).
Qed.

Lemma sources_at_least_once_witness : ∃ tr1 tr2 tr1' tr2' st b1 b2,
  source_lives (R:=mem_db) (J:=tree_json) (W:=page_engine) (E1:=unit) (E2:=unit) millis Sensors.no_time Dev zero zeros 8 2
    empty_store [(tr1, tr1'); (tr2, tr2')] st ∧
  delivered (λ tr, id <$> attempted tr)
    ["pg-evt-1"; "pg-evt-2"; "pg-evt-3"; "pg-evt-5"; "pg-evt-6"; "pg-evt-7"]%string [tr1; tr2] b1 ∧
  delivered (λ tr, id <$> attempted tr) ["cas-evt-1"; "cas-evt-2"]%string [tr1'; tr2'] b2.
Proof.
  assert (Hs0 : same_schema (registered (J:=tree_json) empty_store).1 main_store) by (by intros s).
  destruct (alone_runs unit unit empty_store (pg_events 0 (replicate 6 0)) Hs0) as (a1 & e1 & A1).
  - apply eight_pass; [done|cbn; lia|repeat constructor].
  - apply EndToEnd.pg_events_ids; cbn; lia.
  - cbn. lia.
  - destruct (alone_runs unit unit e1.(sh).(sh_store) (pg_events 3 (replicate 5 0))) as (a2 & e2 & A2).
    + apply (registered_again mem_db_writable mem_db_readable empty_store), (alone_schema _ _ _ _ A1).
    + apply eight_pass; [done|cbn; lia|repeat constructor].
    + apply EndToEnd.pg_events_ids; cbn; lia.
    + cbn. lia.
    + assert (L1 := alone_source_life empty_store None (replicate 6 0) a1 e1 A1 eq_refl ltac:(done) ltac:(by vm_compute)
        ltac:(repeat constructor) eq_refl).
      assert (L2 : source_life millis Sensors.no_time Dev zero zeros 8 2 e1.(sh).(sh_store) (pg_events 3 (replicate 5 0)) [] e2).
      { destruct (registered_at (J:=tree_json) e1.(sh).(sh_store)) as [Ho _].
        apply (alone_source_life _ (Some "3"%string) (replicate 5 0) a2 e2 A2); [|by vm_compute|by vm_compute|repeat constructor|].
        - apply (last_offset_saved mem_db_readable); [done|]. rewrite Ho, (alone_saved _ _ _ _ A1). by_eval.
        - apply (last_offset_none mem_db_readable). rewrite Ho, (alone_other _ _ _ _ A1). by_eval. }
      assert (H := source_lives_again millis Sensors.no_time Dev zero zeros 8 2 _ _ _ _ _ _ L1
        (source_lives_again millis Sensors.no_time Dev zero zeros 8 2 _ _ _ _ _ _ L2
          (source_lives_none millis Sensors.no_time Dev zero zeros 8 2 _))).
      destruct (sources_at_least_once (J:=tree_json) (W:=page_engine) (E1:=unit) (E2:=unit) mem_db_writable mem_db_readable millis Sensors.no_time
        Dev zero zeros 2 2 Guests.passthrough_module empty_store _ _ Guests.wat_compiles guest_module_passthrough
        ltac:(by_eval) eq_refl eq_refl ltac:(lia) ltac:(lia) (ex_intro _ 0 eq_refl) (ex_intro _ (0, 0) eq_refl)
        eight_fit two_keep H) as (b1 & b2 & D1 & D2 & _).
      eexists _, _, _, _, _, b1, b2. split; [exact H|]. split; [exact D1|exact D2].
Defined.
End Lives.
