(* ===== verification/Tests.v ===== *)
(** The unit tests of the crate (the [mod tests] of the files under [src]), run on the model: each test is the
    sequence of its calls and assertions, on the concrete database of [Reference], with the codec of [Reference]
    or, where a test looks into the JSON text, that of [Json], and with the guests of [Guests].

    A test takes the instant that [Utc::now()] returns.  The tests that only remove and create the directory of
    their database start on the empty store.  Tests of concurrent code hold for every interleaving:
    [test_metrics_server] here, [test_parallel_worker_execution] in [Snapshot.v].  Left out is
    [test_observability_helpers], which only calls the macros of the Prometheus recorder. *)
From S2P Require Import Prelude Text F64 Event Clock Buffer Dedup Store Schema Confluent Json Avro Kms Security.
From S2P Require Import Watermark Consensus Parallel Sync Metrics Exporter RateLimiter Sip Router Transform Guests Source Sink Reference Cli Main.

Module Tests.

(** ** Assertions *)

(** A test that returns has passed. *)
Definition test : Type := option unit.
Definition assert (b : bool) : test := if b then Some tt else None.
Abbreviation unwrap := ok_val.
Abbreviation returned := ret_val.
Definition is_err {T E} (r : Result T E) : bool := negb (is_ok r).
Definition is_empty {T} (l : list T) : bool := match l with [] => true | _ => false end.
Definition same_string : string → string → bool := String.eqb.

Definition is_some {T} (o : option T) : bool := match o with Some _ => true | None => false end.

(** [s.contains(p)]. *)
Fixpoint contains (s p : string) : bool :=
  String.prefix p s || match s with EmptyString => false | String _ s' => contains s' p end.

Definition passes (t : test) : Prop := t = Some tt.

(** The common fields of the events. *)
Definition event (id table : string) (op : Operation) (now : Z) (key : Value) (after : option Value)
    (tx : option string) (offset : string) : ChangeEvent :=
  MkEvent id "db" table op now key None after tx offset.
Definition int (n : Z) : Value := VNumber (PosInt n).
Definition object := json_object.

Section tests.
Local Open Scope string_scope.
Local Open Scope Z_scope.
Context (now : Z).

(** ** [buffer] *)

Definition tbl_event (id : string) (op : Operation) (tx : option string) : ChangeEvent :=
  event id "tbl" op now (object []) None tx id.

Definition test_transaction_commit : test :=
  let tb := TransactionBuffer.new in
  let e1 := tbl_event "1" Create (Some "tx-123"%string) in
  let e2 := tbl_event "2" Update (Some "tx-123"%string) in
  let commit := tbl_event "3" Commit (Some "tx-123"%string) in
  let '(tb, out) := TransactionBuffer.process tb e1 in
  _ ← assert (is_empty out);
  let '(tb, out) := TransactionBuffer.process tb e2 in
  _ ← assert (is_empty out);
  let '(tb, out) := TransactionBuffer.process tb commit in
  _ ← assert (length out =? 2)%nat;
  out0 ← out !! 0%nat; _ ← assert (same_string out0.(id) "1");
  out1 ← out !! 1%nat; assert (same_string out1.(id) "2").

Definition test_transaction_rollback : test :=
  let tb := TransactionBuffer.new in
  let e1 := tbl_event "1" Create (Some "tx-123"%string) in
  let rollback := tbl_event "2" Rollback (Some "tx-123"%string) in
  let '(tb, out) := TransactionBuffer.process tb e1 in
  _ ← assert (is_empty out);
  let '(tb, out) := TransactionBuffer.process tb rollback in
  _ ← assert (is_empty out);
  assert (bool_decide (tb.(TransactionBuffer.buffer) = ∅)).

Definition test_passthrough : test :=
  let tb := TransactionBuffer.new in
  let e1 := tbl_event "1" Create None in
  let '(tb, out) := TransactionBuffer.process tb e1 in
  _ ← assert (length out =? 1)%nat;
  out0 ← out !! 0%nat; assert (same_string out0.(id) "1").

(** ** [resiliency::dedup] *)

Definition test_dedup_filtering : test :=
  let filter := DeduplicationFilter.new 3 in
  let '(filter, dup) := DeduplicationFilter.check_and_track filter "evt-1" in _ ← assert (negb dup);
  let '(filter, dup) := DeduplicationFilter.check_and_track filter "evt-1" in _ ← assert dup;
  let '(filter, dup) := DeduplicationFilter.check_and_track filter "evt-2" in _ ← assert (negb dup);
  let '(filter, dup) := DeduplicationFilter.check_and_track filter "evt-3" in _ ← assert (negb dup);
  let '(filter, dup) := DeduplicationFilter.check_and_track filter "evt-4" in _ ← assert (negb dup);
  let '(filter, dup) := DeduplicationFilter.check_and_track filter "evt-1" in assert (negb dup).

(** ** [storage] *)

Definition test_offset_and_schema_storage : test :=
  let store := empty_store in
  let '(store, r) := StateStore.save_offset (J:=tree_json) store "pg_users" "offset-99" in
  _ ← unwrap r;
  o ← unwrap (StateStore.get_offset (J:=tree_json) store "pg_users");
  _ ← assert (bool_decide (o = Some "offset-99"%string));
  o ← unwrap (StateStore.get_offset (J:=tree_json) store "unknown");
  _ ← assert (bool_decide (o = None));
  let schema := object [("table", VString "users");
                        ("columns", object [("id", VString "INT"); ("name", VString "VARCHAR")])]%string in
  let '(store, r) := StateStore.save_schema (J:=tree_json) store "pg_users" schema in
  _ ← unwrap r;
  o ← unwrap (StateStore.get_schema (J:=tree_json) store "pg_users");
  v ← o; assert (value_eqb v schema).

(** ** [storage::schema] *)

Definition validates (store : StateStore.t mem_db) (e : ChangeEvent) : option bool :=
  r ← returned (SchemaRegistry.validate_event (J:=tree_json) store "pg_users" e); Some (is_ok r).

Definition test_schema_registration_and_validation : test :=
  let store := empty_store in
  let schema := object [("fields", object [("id", VString "integer"); ("name", VString "string");
                                           ("active", VString "boolean")])]%string in
  let '(store, r) := SchemaRegistry.register_schema (J:=tree_json) store "pg_users" schema SchemaRegistry.None_ in
  _ ← unwrap r;
  let e after := event "evt-1" "users" Create now (object [("id", int 1)])%string (Some after) None "1" in
  valid ← validates store (e (object [("id", int 1); ("name", VString "John"); ("active", VBool true)]%string));
  _ ← assert valid;
  valid ← validates store (e (object [("id", int 1); ("name", VString "John")]%string));
  _ ← assert (negb valid);
  valid ← validates store
    (e (object [("id", VString "not-an-int"); ("name", VString "John"); ("active", VBool true)]%string));
  assert (negb valid).

Definition test_schema_compatibility : test :=
  let check := SchemaRegistry.check_compatibility (R:=mem_db) (J:=tree_json) in
  let id_ := ("id", VString "integer")%string in
  let name := ("name", VString "string")%string in
  let email := ("email", VString "string")%string in
  let old_schema := object [("fields", object [id_; name])%string] in
  let new_schema_add := object [("fields", object [id_; name; email])%string] in
  _ ← assert (is_ok (check old_schema new_schema_add SchemaRegistry.Backward));
  let new_schema_del := object [("fields", object [id_])%string] in
  _ ← assert (is_err (check old_schema new_schema_del SchemaRegistry.Backward));
  _ ← assert (is_ok (check old_schema new_schema_del SchemaRegistry.Forward));
  _ ← assert (is_err (check old_schema new_schema_add SchemaRegistry.Forward));
  _ ← assert (is_ok (check old_schema old_schema SchemaRegistry.Full));
  assert (is_err (check old_schema new_schema_add SchemaRegistry.Full)).

(** ** [storage::confluent] and [serialize::avro] *)

Definition record_json : string :=
  String.concat "" ["{"; AvroEncoder.quoted "type"; ":"; AvroEncoder.quoted "record"; "}"].

Definition test_confluent_wire_format_encoding_decoding : test :=
  let client := ConfluentRegistryClient.new "http://localhost:8081" in
  '(client, schema_id) ←
    returned (ConfluentRegistryClient.register_schema Dev client "postgres_users-value" record_json);
  _ ← assert (schema_id =? 100);
  let payload := as_bytes "avro-binary-payload-data" in
  let encoded := ConfluentRegistryClient.encode_wire_format client schema_id payload in
  _ ← assert (length encoded =? 5 + length payload)%nat;
  b ← encoded !! 0%nat; _ ← assert (byte_val b =? 0);
  _ ← assert (bool_decide (byte_val <$> take 4 (drop 1 encoded) = [0; 0; 0; 100]));
  '(decoded_id, decoded_payload) ← unwrap (ConfluentRegistryClient.decode_wire_format client encoded);
  _ ← assert (decoded_id =? 100);
  assert (bool_decide (decoded_payload = payload)).

(** The JSON text of the event, in the codec of [Json.v]. *)
Definition test_simd_serialization : test :=
  let e := event "evt-simd" "users" Create now (object [("id", int 1)])
             (Some (object [("id", int 1); ("name", VString "Simd")])) None "100" in
  serialized ← unwrap (serialize_event (J:=text_json) e);
  _ ← assert (contains serialized "evt-simd");
  assert (contains serialized "users").

Definition test_avro_encoder_confluent_header : test :=
  let encoder := AvroEncoder.new "http://localhost:8081" in
  let e := event "evt-avro-1" "users" Create now (object [("id", int 1)])
             (Some (object [("id", int 1); ("name", VString "Bob")])) (Some "tx-1") "offset-1" in
  '(encoder, r) ← returned (AvroEncoder.encode_event (J:=tree_json) Dev encoder e);
  encoded ← unwrap r;
  b ← encoded !! 0%nat; _ ← assert (byte_val b =? 0);
  '(schema_id, decoded) ← unwrap (AvroEncoder.decode_event (J:=tree_json) encoder encoded);
  _ ← assert (schema_id =? 100);
  assert (same_string decoded.(id) "evt-avro-1").

(** ** [security] *)

Definition test_kms_key_rotation : test :=
  let v1 := as_bytes "secret-key-v1-32-bytes-long-key!" in
  let v2 := as_bytes "secret-key-v2-32-bytes-long-key!" in
  let kms := KmsProvider.new v1 in
  let '(ver1, key1) := KmsProvider.get_active_key kms in
  _ ← assert (ver1 =? 1); _ ← assert (bool_decide (key1 = v1));
  '(kms, ver2) ← returned (KmsProvider.rotate_key Dev kms v2);
  _ ← assert (ver2 =? 2);
  let '(ver_act, key_act) := KmsProvider.get_active_key kms in
  _ ← assert (ver_act =? 2); _ ← assert (bool_decide (key_act = v2));
  assert (bool_decide (KmsProvider.get_key_by_version kms 1 = Some v1)).

Definition test_payload_security_redact_and_hash : test :=
  let engine := PayloadSecurityEngine.new in
  let engine := PayloadSecurityEngine.add_rule engine "ssn" PayloadSecurityEngine.Redact in
  let engine := PayloadSecurityEngine.add_rule engine "email" PayloadSecurityEngine.Hash in
  let e := event "evt-sec-1" "users" Create now (object [("id", int 1)])
             (Some (object [("id", int 1); ("name", VString "Alice"); ("ssn", VString "000-12-3456");
                            ("email", VString "alice@example.com")])) (Some "tx-1") "offset-1" in
  let secured := PayloadSecurityEngine.apply_security (J:=tree_json) engine
                   (map_to_list engine.(PayloadSecurityEngine.field_rules)) e in
  after ← secured.(after);
  ssn ← value_get after "ssn"; _ ← assert (value_eqb ssn (VString "[REDACTED]"));
  email ← value_get after "email"; _ ← assert (negb (value_eqb email (VString "alice@example.com")));
  name ← value_get after "name"; assert (value_eqb name (VString "Alice")).

(** ** [snapshot] *)

Definition process := WatermarkSnapshotter.process_replication_event (J:=tree_json).

Definition test_watermark_reconciliation : test :=
  let snapshotter := WatermarkSnapshotter.new in
  let chunk_event := event "snap-1" "users" Snapshot now (object [("id", int 1)])
    (Some (object [("id", int 1); ("name", VString "John")])) None "0" in
  let snapshotter := WatermarkSnapshotter.load_chunk (J:=tree_json) snapshotter [chunk_event] in
  let low_watermark := event "wm-low" "caminus_watermarks" Create now (object [("wm_id", VString "low-123")])
    None (Some "tx-watermark") "1" in
  let '(snapshotter, out) := process snapshotter low_watermark in
  _ ← assert (negb (is_some out));
  _ ← assert (WatermarkSnapshotter.is_in_window snapshotter);
  let update_event := event "pg-evt-2" "users" Update now (object [("id", int 1)])
    (Some (object [("id", int 1); ("name", VString "John Updated")])) (Some "tx-user-update") "2" in
  let '(snapshotter, out) := process snapshotter update_event in
  _ ← assert (is_some out);
  let high_watermark := event "wm-high" "caminus_watermarks" Create now (object [("wm_id", VString "high-123")])
    None (Some "tx-watermark") "3" in
  let '(snapshotter, out) := process snapshotter high_watermark in
  _ ← assert (negb (is_some out));
  _ ← assert (negb (WatermarkSnapshotter.is_in_window snapshotter));
  let '(_, chunk_events) := WatermarkSnapshotter.flush_chunk snapshotter
    (map_to_list snapshotter.(WatermarkSnapshotter.active_chunk)) in
  _ ← assert (length chunk_events =? 1)%nat;
  e ← chunk_events !! 0%nat; after ← e.(after); name ← value_get after "name";
  assert (value_eqb name (VString "John Updated")).

Definition test_parallel_snapshotter_chunking : test :=
  o ← ParallelSnapshotter.new Dev 5 100 25;
  chunks ← returned o;
  _ ← assert (length chunks =? 4)%nat;
  c0 ← chunks !! 0%nat;
  _ ← assert (c0.(ParallelSnapshotter.min_key) =? 1); _ ← assert (c0.(ParallelSnapshotter.max_key) =? 25);
  c3 ← chunks !! 3%nat;
  _ ← assert (c3.(ParallelSnapshotter.min_key) =? 76); assert (c3.(ParallelSnapshotter.max_key) =? 100).

(** ** [consensus]

    While the caller sleeps, the election task wakes up after each of its timeouts that ends before the caller
    does. *)
Fixpoint ticks (n : nat) (s : ClusterCoordinator.t) : option ClusterCoordinator.t :=
  match n with
  | O => Some s
  | S n' => s' ← ClusterCoordinator.exec_all [ClusterCoordinator.Wake; ClusterCoordinator.Act] s; ticks n' s'
  end.
Definition sleep_millis (ms : Z) (s : ClusterCoordinator.t) : option ClusterCoordinator.t :=
  timeout ← returned (ClusterCoordinator.election_timeout Dev s.(ClusterCoordinator.node_id));
  ticks (Z.to_nat ((ms - 1) / timeout)) s.

Definition test_consensus_leader_election : test :=
  let coordinator := ClusterCoordinator.start 1 in
  coordinator ← sleep_millis 800 coordinator;
  assert coordinator.(ClusterCoordinator.is_leader).

Definition test_consensus_shutdown : test :=
  let coordinator := ClusterCoordinator.start 2 in
  coordinator ← sleep_millis 800 coordinator;
  _ ← assert coordinator.(ClusterCoordinator.is_leader);
  coordinator ← ClusterCoordinator.exec_all [ClusterCoordinator.Shut1; ClusterCoordinator.Shut2] coordinator;
  assert (negb coordinator.(ClusterCoordinator.is_leader)).

Definition test_failover_controller_lease_claim : test :=
  let controller := FailoverController.new now 2 50 in
  let '(controller, claimed) := FailoverController.check_and_claim_lease now controller in
  _ ← assert (negb claimed);
  let '(controller, claimed) := FailoverController.check_and_claim_lease (now + from_millis 120) controller in
  assert claimed.

Definition test_checkpoint_resume : test :=
  let store := empty_store in
  let '(store, r) := StateStore.save_offset (J:=tree_json) store "pg_users" "offset-checkpoint-555" in
  _ ← unwrap r;
  let controller := FailoverController.new now 1 1000 in
  let resumed := FailoverController.resume_checkpoint_offset (J:=tree_json) controller store "pg_users" in
  assert (bool_decide (resumed = Some "offset-checkpoint-555")).

(** ** [source]: the number of calls is one more than the number of sleeps. *)

Definition test_retry_with_backoff_success : test :=
  let f (i : nat) : Result string string := if (i + 1 <? 3)%nat then Err "temporary error" else Ok "success" in
  o ← retry_with_backoff 5 f (λ _, Some now) 5 (from_millis 10) (f64_of_Z 2) (from_millis 50);
  '(result, sleeps) ← returned o;
  v ← unwrap result; _ ← assert (same_string v "success");
  assert (length sleeps + 1 =? 3)%nat.

Definition test_retry_with_backoff_failure : test :=
  let f (_ : nat) : Result unit string := Err "persistent error" in
  o ← retry_with_backoff 3 f (λ _, Some now) 3 (from_millis 10) (f64_of_Z 2) (from_millis 50);
  '(result, sleeps) ← returned o;
  _ ← match result with Err e => assert (same_string e "persistent error") | Ok _ => None end;
  assert (length sleeps + 1 =? 3)%nat.

(** ** [sync] *)

Definition test_sync_coordinator_loop_suppression : test :=
  let coordinator := SyncCoordinator.new "us-east-1" in
  let e tx := MkEvent "evt-1" "caminus_db" "users" Create now (object [("id", int 1)]) None
                (Some (object [("id", int 1)])) (Some tx) "offset-1" in
  _ ← assert (SyncCoordinator.should_forward coordinator (e "local-tx-1"));
  assert (negb (SyncCoordinator.should_forward coordinator (e "remote-us-east-1-tx"))).

Definition test_lww_conflict_resolution : test :=
  let coordinator := SyncCoordinator.new "us-east-1" in
  let earlier := now - 5 * 10 ^ 9 in
  let event_old := event "evt-old" "users" Update earlier (object [("id", int 1)])
    (Some (object [("name", VString "Old")])) None "off-1" in
  let event_new := event "evt-new" "users" Update now (object [("id", int 1)])
    (Some (object [("name", VString "New")])) None "off-1" in
  let winner := SyncCoordinator.resolve_conflict coordinator event_old event_new in
  assert (same_string winner.(id) "evt-new").

(** ** [resiliency] *)

Definition test_token_bucket_limiter : test :=
  let limiter := TokenBucketLimiter.new 10 (f64_of_Z 100) now in
  o ← TokenBucketLimiter.acquire limiter [now] 5; limiter ← returned o;
  o ← TokenBucketLimiter.acquire limiter [now + from_millis 49] 5; _ ← returned o;
  let elapsed := duration_since (now + from_millis 49) now in
  assert (elapsed <? from_millis 50).

Definition test_tenant_quota_limiter : test :=
  let quota_limiter := TenantQuotaLimiter.new 2 (f64_of_Z 10) in
  let quota_limiter := TenantQuotaLimiter.set_tenant_quota quota_limiter "tenant-A" 1 (f64_of_Z 1) now in
  _ ← assert (TenantQuotaLimiter.has_tenant_quota quota_limiter "tenant-A");
  _ ← assert (TenantQuotaLimiter.tenant_count quota_limiter =? 1)%nat;
  let '(quota_limiter, ok) := TenantQuotaLimiter.try_allow quota_limiter "tenant-A" now now in
  _ ← assert ok;
  let '(quota_limiter, ok) := TenantQuotaLimiter.try_allow quota_limiter "tenant-A" now now in
  _ ← assert (negb ok);
  let '(quota_limiter, ok) := TenantQuotaLimiter.try_allow quota_limiter "tenant-B" now now in
  _ ← assert ok;
  let '(quota_limiter, ok) := TenantQuotaLimiter.try_allow quota_limiter "tenant-B" now now in
  _ ← assert ok;
  let '(quota_limiter, ok) := TenantQuotaLimiter.try_allow quota_limiter "tenant-B" now now in
  _ ← assert (negb ok);
  assert (TenantQuotaLimiter.tenant_count quota_limiter =? 2)%nat.

Definition test_dlq_routing : test :=
  let dlq := DeadLetterQueue.new "caminus_dlq_topic" in
  let e := event "poison-1" "users" Create now (object [("id", int 999)])
    (Some (object [("id", int 999); ("malformed", VBool true)])) None "100" in
  let record := DeadLetterQueue.record e "Type mismatch on field 'id'" "SchemaValidation" 3 now in
  assert (is_ok (DeadLetterQueue.route_to_dlq (J:=tree_json) dlq record).2).

Definition metrics_run (adds : list (MetricsRegistry.cell * Z)) (s : MetricsRegistry.t) : MetricsRegistry.t :=
  fold_left (λ s a, MetricsRegistry.fetch_add a.1 a.2 s) adds s.

Definition test_metrics_rendering : test :=
  let s := MetricsRegistry.init in
  let s := metrics_run MetricsRegistry.increment_ingested s in
  let s := metrics_run MetricsRegistry.increment_processed s in
  let s := metrics_run MetricsRegistry.increment_duplicates s in
  let s := metrics_run (MetricsRegistry.record_latency 500000) s in
  let rendered := MetricsRegistry.render s in
  _ ← assert (contains rendered "caminus_events_ingested_total 1");
  _ ← assert (contains rendered "caminus_events_processed_total 1");
  _ ← assert (contains rendered "caminus_duplicates_filtered_total 1");
  _ ← assert (contains rendered "caminus_processing_latency_seconds_sum 0.500000");
  assert (contains rendered "caminus_processing_latency_seconds_count 1").

(** The client reads until the connection is closed.  The exporter of the test serves one connection, among whatever
    threads update the counters. *)
Definition test_metrics_server (counters : MetricsRegistry.t) (writers : list MetricsRegistry.thread) : Prop :=
  let addr := "127.0.0.1:29100" in
  ∃ server, Exporter.start_exporter addr (Ok tt : Result unit unit) counters writers [Ok tt : Result unit unit] =
    (Exporter.Listening addr, Some server) ∧
  (∃ y seen resp, rtc Exporter.step server y ∧ y.(Exporter.connections) = [Exporter.Written seen resp]) ∧
  ∀ y seen resp, rtc Exporter.step server y → y.(Exporter.connections) = [Exporter.Written seen resp] →
    passes (_ ← assert (contains resp "HTTP/1.1 200 OK"); assert (contains resp "caminus_events_ingested_total")).

(** ** [router] *)

Definition test_key_hash_partitioning : test :=
  let router := PartitionRouter.new 4 PartitionRouter.KeyHash in
  let event1 := event "e1" "users" Create now (object [("user_id", int 42)])
    (Some (object [("user_id", int 42); ("tenant_id", VString "tenant-a")])) None "1" in
  let p1 := PartitionRouter.resolve_partition (J:=tree_json) router event1 in
  let p2 := PartitionRouter.resolve_partition (J:=tree_json) router event1 in
  _ ← assert (p1 =? p2);
  assert (p1 <? 4).

Definition test_tenant_partitioning : test :=
  let router := PartitionRouter.new 8 PartitionRouter.TenantPrefix in
  let e := event "e2" "users" Create now (object [("user_id", int 100)])
    (Some (object [("user_id", int 100); ("tenant_id", VString "tenant-alpha")])) None "2" in
  let p := PartitionRouter.resolve_partition (J:=tree_json) router e in
  assert (p <? 8).

(** ** [sink::forwarder], [transform] and [cli] *)

Definition test_cluster_forwarder_sink : test :=
  let forwarder := ClusterForwarderSink.new "eu-west-1" "https://eu.caminus.io:9000" in
  let e := event "evt-fwd-1" "orders" Create now (object [("id", int 100)])
    (Some (object [("id", int 100); ("total", VNumber (Float (f64_div (f64_of_Z 4999) (f64_of_Z 100))))]))
    (Some "tx-100") "offset-100" in
  assert (is_ok (ClusterForwarderSink.send (J:=tree_json) forwarder e).2).

Definition test_wasm_passthrough : test :=
  transformer ← unwrap (WasmTransformer.new (J:=tree_json) (W:=page_engine) (as_bytes Guests.wat));
  let e := event "evt-123" "users" Create now (object [("id", int 1)])
    (Some (object [("id", int 1); ("name", VString "John")])) None "1" in
  r ← returned (WasmTransformer.transform (J:=tree_json) (W:=page_engine) transformer e);
  transformed ← unwrap r;
  _ ← assert (same_string transformed.(id) e.(id));
  assert (same_string transformed.(source_table_or_collection) e.(source_table_or_collection)).

(** The guest is compiled from its text and run on the text of the event. *)
Definition inline_event : ChangeEvent :=
  MkEvent "evt-123" "caminus_db" "users" Create now (object [("id", int 1)]) None
    (Some (object [("id", int 1); ("name", VString "John")])) None "1".

Definition test_wasm_inline_replace : test :=
  transformer ←
    unwrap (WasmTransformer.new (J:=text_json) (W:=wat_engine 1000) (as_bytes Guests.inline_replace_wat));
  r ← returned (WasmTransformer.transform (J:=text_json) (W:=wat_engine 1000) transformer inline_event);
  transformed ← unwrap r;
  assert (same_string transformed.(source_table_or_collection) "audit").

Definition test_wasm_plugin_registration_and_metadata : test :=
  let registry := WasmPluginRegistry.new (W:=page_engine) in
  _ ← assert (WasmPluginRegistry.is_empty registry);
  let '(registry, res) :=
    WasmPluginRegistry.register_plugin (J:=tree_json) registry "anonymizer" "1.0.0" (as_bytes "(module)") now in
  _ ← assert (is_ok res);
  _ ← assert (WasmPluginRegistry.len registry =? 1)%nat;
  meta ← WasmPluginRegistry.get_metadata registry "anonymizer";
  _ ← assert (same_string meta.(WasmPluginRegistry.name) "anonymizer");
  _ ← assert (same_string meta.(WasmPluginRegistry.version) "1.0.0");
  assert meta.(WasmPluginRegistry.enabled).

Definition test_cli_parsing_and_execution : test :=
  let store := empty_store in
  let '(store, r) := StateStore.save_offset (J:=tree_json) store "pg_users" "offset-cli-777" in
  _ ← unwrap r;
  let cmd := CliHandler.parse_args ["caminus"; "inspect-offset"; "pg_users"] in
  _ ← match cmd with CliHandler.InspectOffset source_id => assert (same_string source_id "pg_users") | _ => None end;
  res ← unwrap (CliHandler.execute (J:=tree_json) (λ _, "") cmd store);
  _ ← assert (contains res "offset-cli-777");
  let status_cmd := CliHandler.parse_args ["caminus"; "status"] in
  status_res ← unwrap (CliHandler.execute (J:=tree_json) (λ _, "") status_cmd store);
  assert (contains status_res "HEALTHY").
End tests.

(** The tests at an instant. *)
Definition unit_tests (now : Z) : list test :=
  [test_wasm_inline_replace now; test_transaction_commit now; test_transaction_rollback now; test_passthrough now; test_dedup_filtering;
   test_offset_and_schema_storage; test_schema_registration_and_validation now; test_schema_compatibility;
   test_confluent_wire_format_encoding_decoding; test_simd_serialization now;
   test_avro_encoder_confluent_header now; test_kms_key_rotation;
   test_payload_security_redact_and_hash now; test_watermark_reconciliation now; test_parallel_snapshotter_chunking;
   test_consensus_leader_election; test_consensus_shutdown; test_failover_controller_lease_claim now;
   test_checkpoint_resume now; test_retry_with_backoff_success now; test_retry_with_backoff_failure now;
   test_sync_coordinator_loop_suppression now; test_lww_conflict_resolution now; test_token_bucket_limiter now;
   test_tenant_quota_limiter now; test_dlq_routing now; test_metrics_rendering; test_key_hash_partitioning now;
   test_tenant_partitioning now; test_cluster_forwarder_sink now; test_wasm_passthrough now;
   test_wasm_plugin_registration_and_metadata now; test_cli_parsing_and_execution].

(** ** Results *)

(** Concrete tests are evaluated to a boolean, once. *)
Lemma all_pass (ts : list test) : forallb is_some ts = true → Forall passes ts.
Proof.
  intros H. apply Forall_forall. intros t Ht%list_elem_of_In. rewrite forallb_forall in H. specialize (H t Ht).
  by destruct t as [[]|].
Qed.

Ltac run_tests := apply all_pass; vm_compute; reflexivity.

(** The tests whose outcome does not depend on the instant, at every instant. *)
Lemma timeless_tests now : Forall passes [test_transaction_commit now; test_transaction_rollback now; test_passthrough now;
  test_schema_registration_and_validation now; test_payload_security_redact_and_hash now;
  test_watermark_reconciliation now; test_checkpoint_resume now; test_key_hash_partitioning now;
  test_tenant_partitioning now].
Proof. repeat (apply Forall_cons; split; [by vm_compute|]). apply Forall_nil_2. Qed.

(** The guest that replaces need not be run instruction by instruction: [Guests] says what it does. *)
Lemma replacer_new fuel : WasmTransformer.new (J:=text_json) (W:=wat_engine fuel) (as_bytes Guests.inline_replace_wat) = Ok (Guests.replacer fuel).
Proof.
  unfold WasmTransformer.new. change (module_new (Wasmtime:=wat_engine fuel)) with WatEngine.new.
  by rewrite Guests.inline_replace_compiles.
Qed.

Definition replaced (e : ChangeEvent) : option ChangeEvent :=
  raw ← unwrap (event_to_vec (SerdeJson:=text_json) e);
  if (length raw <=? 900)%nat then unwrap (event_from_slice (SerdeJson:=text_json) (Guests.replace raw)) else None.

Lemma replaced_transform e e' : replaced e = Some e' →
  WasmTransformer.transform (J:=text_json) (Guests.replacer 1000) e = Ret (Ok e').
Proof.
  unfold replaced. destruct (event_to_vec e) as [raw|] eqn:Hraw; [|done]. cbn [ok_val mbind option_bind].
  destruct (Nat.leb_spec (length raw) 900) as [Hl|]; [|done]. intros H.
  rewrite (Guests.replacer_transform (J:=text_json) 1000 e raw Hraw) by lia.
  rewrite (proj2 (Z.leb_le _ _)) by (unfold WasmTransformer.page_size; lia).
  destruct (event_from_slice (Guests.replace raw)) as [e1|]; [|done]. by injection H as ->.
Qed.

Definition becomes_audit (e : ChangeEvent) : bool :=
  match replaced e with Some e' => same_string e'.(source_table_or_collection) "audit" | None => false end.

Lemma becomes_audit_transform e : becomes_audit e = true →
  ∃ e', WasmTransformer.transform (J:=text_json) (Guests.replacer 1000) e = Ret (Ok e') ∧
    same_string e'.(source_table_or_collection) "audit" = true.
Proof.
  unfold becomes_audit. destruct (replaced e) as [e'|] eqn:He; [|done]. exists e'. split; [by apply replaced_transform|done].
Qed.

Lemma inline_replace_passes now : becomes_audit (inline_event now) = true → passes (test_wasm_inline_replace now).
Proof.
  intros (e' & He & Ht)%becomes_audit_transform. unfold test_wasm_inline_replace, passes.
  rewrite replacer_new. cbn [ok_val mbind option_bind]. rewrite He. cbn [ret_val ok_val mbind option_bind]. by rewrite Ht.
Qed.

Lemma contains_app p q s : contains s p = true → contains (q ++ s) p = true.
Proof.
  induction q as [|c q IH]; [done|]. intros H. rewrite string_app_cons. cbn [contains]. rewrite (IH H). apply orb_true_r.
Qed.

Lemma test_metrics_server_passes counters writers : test_metrics_server counters writers.
Proof.
  eexists. split; [reflexivity|]. split.
  - pose proof (Exporter.answered counters writers (A:=unit) [] [Exporter.Reading] 0 eq_refl) as [seen H].
    eexists _, seen, _. split; [eapply rtc_l; [apply Exporter.step_accept|exact H]|reflexivity].
  - intros y seen resp Hr Hc. pose proof (Exporter.run_shape _ _ Hr (Forall_nil_2 _)) as Hs. rewrite Hc in Hs.
    apply Forall_singleton in Hs as [Hl ->]. destruct seen as [|a [|b [|c [|d [|e [|]]]]]]; try done.
    unfold passes, assert. assert (contains (MetricsRegistry.response (Exporter.rendered [a; b; c; d; e]))
      "caminus_events_ingested_total" = true) as ->; [|done].
    unfold MetricsRegistry.response. do 9 apply contains_app. apply contains_app. reflexivity.
Qed.

(** The model passes the unit tests of the crate: 33 tests of the modules, transcribed call by call and
    assertion by assertion, succeed when [Utc::now()] is the epoch and when it is a day of 2023. *)
Lemma unit_tests_pass : Forall (λ now, Forall passes (unit_tests now)) [0; 1700000000 * 10 ^ 9].
Proof.
  apply Forall_cons; split; [|apply Forall_cons; split; [|apply Forall_nil_2]];
    (apply Forall_cons; split; [apply inline_replace_passes; by vm_compute|run_tests]).
Qed.
End Tests.
