(* ===== verification/IntegrationTests.v ===== *)
(** The integration tests of the crate ([src/tests]), run on the model like the unit tests of [Tests.v].

    The benchmark runs with a clock that stands still, which is the hardest case for its limiter; its figures
    of time are not part of it. *)
From S2P Require Import Prelude Text F64 Event Json Clock Dedup Store Schema Confluent Avro Kms Security.
From S2P Require Import Parallel Snapshot Sync RateLimiter Sip Router Transform Guests Sink Reference Tests.

Module IntegrationTests.
Import Tests.

Section tests.
Local Open Scope string_scope.
Local Open Scope Z_scope.
Context (now : Z).

Definition test_confluent_schema_registry_wire_format_integration : test :=
  let registry_url := "http://localhost:8081" in
  let client := ConfluentRegistryClient.new registry_url in
  let encoder := AvroEncoder.new registry_url in
  let e := MkEvent "evt-confluent-99" "production_db" "orders" Create now (object [("order_id", int 999)]) None
    (Some (object [("order_id", int 999); ("amount", VNumber (Float (f64_div (f64_of_Z 19995) (f64_of_Z 100))))]))
    (Some "tx-999") "offset-999" in
  '(encoder, r) ← returned (AvroEncoder.encode_event (J:=tree_json) Dev encoder e);
  wire_bytes ← unwrap r;
  _ ← assert (5 <? length wire_bytes)%nat;
  b ← wire_bytes !! 0%nat; _ ← assert (byte_val b =? 0);
  '(schema_id, payload) ← unwrap (ConfluentRegistryClient.decode_wire_format client wire_bytes);
  _ ← assert (schema_id =? 100);
  _ ← assert (negb (is_empty payload));
  '(decoded_id, decoded_event) ← unwrap (AvroEncoder.decode_event (J:=tree_json) encoder wire_bytes);
  _ ← assert (decoded_id =? 100);
  _ ← assert (same_string decoded_event.(id) "evt-confluent-99");
  assert (same_string decoded_event.(source_table_or_collection) "orders").

Definition set_origin (e : ChangeEvent) (tx : string) : ChangeEvent :=
  MkEvent e.(id) e.(source_database) e.(source_table_or_collection) e.(operation) e.(timestamp) e.(key)
    e.(before) e.(after) (Some tx) e.(offset).

Definition conflicting (e : ChangeEvent) (id : string) (timestamp : Z) (after : Value) : ChangeEvent :=
  MkEvent id e.(source_database) e.(source_table_or_collection) e.(operation) timestamp e.(key)
    e.(before) (Some after) e.(transaction_id) e.(offset).

Definition test_active_active_multi_cluster_sync : test :=
  let coord_us_east := SyncCoordinator.new "us-east-1" in
  let coord_eu_west := SyncCoordinator.new "eu-west-1" in
  let coord_us_east := SyncCoordinator.register_peer coord_us_east "eu-west-1" "https://eu.caminus.io:9000" in
  let coord_eu_west := SyncCoordinator.register_peer coord_eu_west "us-east-1" "https://us.caminus.io:9000" in
  let forwarder_to_eu := ClusterForwarderSink.new "eu-west-1" "https://eu.caminus.io:9000" in
  let balance n := object [("balance", VNumber (Float (f64_of_Z n)))] in
  let event_us := MkEvent "evt-us-100" "users_db" "accounts" Update now (object [("account_id", int 42)]) None
    (Some (balance 1500)) (Some "tx-us-100") "us-offset-100" in
  _ ← assert (SyncCoordinator.should_forward coord_us_east event_us);
  _ ← assert (is_ok (ClusterForwarderSink.send (J:=tree_json) forwarder_to_eu event_us).2);
  let echoed_event := set_origin event_us "remote-eu-west-1-tx" in
  _ ← assert (negb (SyncCoordinator.should_forward coord_eu_west echoed_event));
  let event_eu_conflicting := conflicting event_us "evt-eu-100" (now - 10 * NANOS_PER_SEC) (balance 1200) in
  let winner := SyncCoordinator.resolve_conflict coord_us_east event_us event_eu_conflicting in
  _ ← assert (same_string winner.(id) "evt-us-100");
  after ← winner.(after); b ← value_get after "balance";
  assert (value_eqb b (VNumber (Float (f64_of_Z 1500)))).

Definition test_end_to_end_payload_security_and_key_rotation : test :=
  let kms := KmsProvider.new (as_bytes "initial-32-byte-master-key-v1!!") in
  let engine := PayloadSecurityEngine.with_kms PayloadSecurityEngine.new kms in
  let engine := PayloadSecurityEngine.add_rule engine "ssn" PayloadSecurityEngine.Redact in
  let engine := PayloadSecurityEngine.add_rule engine "email" PayloadSecurityEngine.Hash in
  let engine := PayloadSecurityEngine.add_rule engine "credit_card" PayloadSecurityEngine.Encrypt in
  let e := MkEvent "evt-sec-100" "finance_db" "accounts" Create now (object [("id", int 100)]) None
    (Some (object [("id", int 100); ("owner", VString "John Doe"); ("ssn", VString "123-45-6789");
                   ("email", VString "john@domain.com"); ("credit_card", VString "4532-1234-5678-9012")]))
    (Some "tx-sec-100") "sec-offset-100" in
  let secured_v1 := PayloadSecurityEngine.apply_security (J:=tree_json) engine
                      (map_to_list engine.(PayloadSecurityEngine.field_rules)) e in
  after_v1 ← secured_v1.(after);
  ssn ← value_get after_v1 "ssn"; _ ← assert (value_eqb ssn (VString "[REDACTED]"));
  email ← value_get after_v1 "email"; _ ← assert (negb (value_eqb email (VString "john@domain.com")));
  credit_card ← value_get after_v1 "credit_card" ≫= as_str; _ ← assert (String.prefix "ENC:v1:" credit_card);
  owner ← value_get after_v1 "owner"; assert (value_eqb owner (VString "John Doe")).

Definition tenant_order (id tx offset tenant : string) (n : Z) : ChangeEvent :=
  MkEvent id "db_prod" "orders" Create now (object [("id", int n)]) None
    (Some (object [("id", int n); ("tenant_id", VString tenant)])) (Some tx) offset.

Definition test_tenant_quota_isolation_and_routing : test :=
  let tenant_router := TenantRouter.new 8 2 (f64_of_Z 10) in
  let tenant_router := TenantRouter.set_tenant_quota tenant_router "tenant-A" 1 (f64_of_Z 1) now in
  let event_a := tenant_order "evt-t-a-1" "tx-a-1" "off-a-1" "tenant-A" 1 in
  let event_b := tenant_order "evt-t-b-1" "tx-b-1" "off-b-1" "tenant-B" 2 in
  let route := TenantRouter.route_event (J:=tree_json) in
  let '(tenant_router, part_a1) := route tenant_router event_a now now in _ ← assert (is_some part_a1);
  let '(tenant_router, part_a2) := route tenant_router event_a now now in _ ← assert (negb (is_some part_a2));
  let '(tenant_router, part_b1) := route tenant_router event_b now now in _ ← assert (is_some part_b1);
  let '(tenant_router, part_b2) := route tenant_router event_b now now in _ ← assert (is_some part_b2);
  let '(tenant_router, part_b3) := route tenant_router event_b now now in assert (negb (is_some part_b3)).

Definition alice : ChangeEvent :=
  event "evt-wasm-10" "users" Create now (object [("id", int 10)])
    (Some (object [("id", int 10); ("name", VString "Alice")])) (Some "tx-10") "offset-10".

(** Both guests of the test are texts of the crate up to their indentation. *)
Definition test_live_wasm_plugin_registration_and_hot_reloading : test :=
  let registry := WasmPluginRegistry.new (W:=wat_engine 1000) in
  let '(registry, r) := WasmPluginRegistry.register_plugin (J:=text_json) registry "audit_rewriter" "1.0.0"
                          (as_bytes Guests.wat) now in
  _ ← unwrap r;
  meta1 ← WasmPluginRegistry.get_metadata registry "audit_rewriter";
  _ ← assert (same_string meta1.(WasmPluginRegistry.version) "1.0.0");
  let e := alice in
  r ← returned (WasmPluginRegistry.execute_transform (J:=text_json) registry "audit_rewriter" e);
  o ← unwrap r; res1 ← o;
  _ ← assert (same_string res1.(source_table_or_collection) "users");
  let '(registry, r) := WasmPluginRegistry.hot_reload_plugin (J:=text_json) registry "audit_rewriter" "2.0.0"
                          (as_bytes Guests.inline_replace_wat) now in
  _ ← unwrap r;
  meta2 ← WasmPluginRegistry.get_metadata registry "audit_rewriter";
  _ ← assert (same_string meta2.(WasmPluginRegistry.version) "2.0.0");
  r ← returned (WasmPluginRegistry.execute_transform (J:=text_json) registry "audit_rewriter" e);
  o ← unwrap r; res2 ← o;
  assert (same_string res2.(source_table_or_collection) "audit").

(** ** The benchmark *)

Definition bench_event (i : nat) : ChangeEvent :=
  let n := display_u64 (Z.of_nat i) in
  MkEvent ("bench-evt-" ++ n) "caminus_db" "users" Create now (object [("id", int (Z.of_nat i))]) None
    (Some (object [("id", int (Z.of_nat i)); ("name", VString ("User-" ++ n))])) (Some "tx-1") ("offset-" ++ n).

Record bench := Bench {
  state_store : StateStore.t mem_db;
  dedup_filter : DeduplicationFilter.t;
  rate_limiter : TokenBucketLimiter.t;
}.

(** The body of the loop, whose [acquire] reads the clock once. *)
Definition bench_turn (router : PartitionRouter.t) (i : nat) (b : bench) : option bench :=
  o ← TokenBucketLimiter.acquire b.(rate_limiter) [now] 1; limiter ← returned o;
  let e := bench_event i in
  let '(filter, dup) := DeduplicationFilter.check_and_track b.(dedup_filter) e.(id) in
  _ ← assert (negb dup);
  r ← returned (SchemaRegistry.validate_event (J:=text_json) b.(state_store) "pg_users" e);
  _ ← assert (is_ok r);
  _ ← assert (PartitionRouter.resolve_partition (J:=text_json) router e <? 4);
  serialized ← unwrap (serialize_event (J:=text_json) e);
  _ ← assert (contains serialized ("User-" ++ display_u64 (Z.of_nat i)));
  _ ← assert (is_ok (StdoutSink.send (J:=text_json) e).2);
  let '(store, r) := StateStore.save_offset (J:=text_json) b.(state_store) "pg_users" e.(offset) in
  _ ← unwrap r;
  Some (Bench store filter limiter).

Fixpoint bench_loop (router : PartitionRouter.t) (from n : nat) (b : bench) : option bench :=
  match n with
  | O => Some b
  | S n => b ← bench_turn router from b; bench_loop router (S from) n b
  end.

Definition test_high_throughput_e2e_pipeline : test :=
  let store := empty_store in
  let schema := object [("fields", object [("id", VString "integer"); ("name", VString "string")])] in
  let '(store, r) :=
    SchemaRegistry.register_schema (J:=text_json) store "pg_users" schema SchemaRegistry.Backward in
  _ ← unwrap r;
  let dedup_filter := DeduplicationFilter.new 5000 in
  let rate_limiter := TokenBucketLimiter.new 10000 (f64_of_Z 10000) now in
  let router := PartitionRouter.new 4 PartitionRouter.KeyHash in
  let total_events := 1000%nat in
  b ← bench_loop router 0 total_events (Bench store dedup_filter rate_limiter);
  last_offset ← unwrap (StateStore.get_offset (J:=text_json) b.(state_store) "pg_users");
  assert (bool_decide (last_offset = Some "offset-999")).
End tests.

(** ** The parallel backfill, in every interleaving of its workers *)

(** The events that [process_fn] makes of a chunk, and counts. *)
Definition rows (c : ParallelSnapshotter.ChunkRange) : Z :=
  c.(ParallelSnapshotter.max_key) - c.(ParallelSnapshotter.min_key) + 1.

Definition events_generated (calls : list ParallelSnapshotter.ChunkRange) : Z := foldr Z.add 0 (rows <$> calls).

Definition test_multi_threaded_parallel_snapshot_backfill : Prop :=
  let total_rows := 10000 in
  let chunk_size := 2500 in
  let worker_count := 4%nat in
  ∃ chunks, ParallelSnapshotter.new Dev 5 total_rows chunk_size = Some (Ret chunks) ∧
  ∀ s, rtc ParallelSnapshotter.step (ParallelSnapshotter.spawn chunks worker_count) s →
    ParallelSnapshotter.finished s → (∀ c, ParallelSnapshotter.Crashed c ∉ s.(ParallelSnapshotter.workers)) →
    let store := ParallelSnapshotter.save_progress (R:=mem_db) (J:=tree_json) empty_store "postgres_users"
                   s.(ParallelSnapshotter.chunks) in
    passes (
      _ ← assert (events_generated s.(ParallelSnapshotter.calls) =? total_rows);
      progress ← unwrap (StateStore.get_offset (J:=tree_json) store "postgres_users_snapshot_progress");
      assert (bool_decide (progress = Some "4/4"%string))).

(** The tests that a clock standing at [now] decides. *)
Definition integration_tests (now : Z) : list test :=
  [test_live_wasm_plugin_registration_and_hot_reloading now; test_confluent_schema_registry_wire_format_integration now; test_active_active_multi_cluster_sync now;
   test_end_to_end_payload_security_and_key_rotation now; test_tenant_quota_isolation_and_routing now].

(** ** Results *)

(** The rows of the chunks of a table are its rows. *)
Lemma events_generated_fresh calls : events_generated (Snapshot.fresh <$> calls) = events_generated calls.
Proof. unfold events_generated. by rewrite <- list_fmap_compose. Qed.

Lemma events_generated_perm calls calls' : calls ≡ₚ calls' → events_generated calls = events_generated calls'.
Proof. unfold events_generated. induction 1; cbn in *; lia. Qed.

(** *** The benchmark, at any instant *)

Definition bench_schema : Value :=
  object [("fields", object [("id", VString "integer"); ("name", VString "string")])]%string.

(** Before turn [i]. *)
Record ready (now : Z) (i : nat) (b : bench) : Prop := {
  ready_schema : StateStore.schema_at b.(state_store) "pg_users" = Some (as_bytes (Json.print bench_schema));
  ready_ids : ∀ j, (i <= j)%nat → Z.of_nat j < 10000 → (bench_event now j).(id) ∉ b.(dedup_filter).(DeduplicationFilter.processed_ids);
  ready_tokens : TokenBucketLimiter.holds b.(rate_limiter) now (10000 - Z.of_nat i);
}.

Lemma number_inj i j : Z.of_nat i < 10000 → Z.of_nat j < 10000 → display_u64 (Z.of_nat i) = display_u64 (Z.of_nat j) → i = j.
Proof. intros Hi Hj E. apply display_u64_inj in E; [lia|split; lia..]. Qed.

Lemma acquire_one self now k : TokenBucketLimiter.holds self now k → 1 <= k →
  ∃ self', TokenBucketLimiter.acquire self [now] 1 = Some (Ret self') ∧ TokenBucketLimiter.holds self' now (k - 1).
Proof.
  intros H Hk. pose proof (TokenBucketLimiter.holds_capacity _ _ _ H). pose proof (TokenBucketLimiter.holds_bound _ _ _ H).
  exists (TokenBucketLimiter.take self 1). split; [|apply TokenBucketLimiter.holds_take; [done|lia]].
  cbn [TokenBucketLimiter.acquire]. unfold TokenBucketLimiter.acquire_turn.
  rewrite (TokenBucketLimiter.holds_refill _ _ _ H). cbv zeta. rewrite (TokenBucketLimiter.holds_tokens _ _ _ H).
  by rewrite f64_leb_exact, (proj2 (Z.leb_le _ _)) by lia.
Qed.

(** A new id passes, and no other id gets into the filter. *)
Lemma check_new self i : i ∉ self.(DeduplicationFilter.processed_ids) →
  ∃ self', DeduplicationFilter.check_and_track self i = (self', false) ∧
  ∀ j, j ≠ i → j ∉ self.(DeduplicationFilter.processed_ids) → j ∉ self'.(DeduplicationFilter.processed_ids).
Proof.
  intros Hi. unfold DeduplicationFilter.check_and_track. rewrite decide_False by done. cbv zeta.
  repeat case_match; eexists; (split; [reflexivity|]); cbn; set_solver.
Qed.

Lemma bench_valid now i (store : StateStore.t mem_db) : Z.of_nat i < 10000 →
  StateStore.schema_at store "pg_users" = Some (as_bytes (Json.print bench_schema)) →
  SchemaRegistry.validate_event (J:=text_json) store "pg_users" (bench_event now i) = Ret (Ok tt).
Proof.
  intros Hi H. apply SchemaRegistry.validate_event_ok. right.
  exists bench_schema, [("id", VString "integer"); ("name", VString "string")]%string. split_and!; [|done|].
  - rewrite StateStore.get_schema_readable by apply mem_db_readable. rewrite H.
    assert (value_from_slice (SerdeJson:=text_json) (as_bytes (Json.print bench_schema)) = Ok bench_schema) as ->
      by by_eval. done.
  - intros _. eexists. split; [reflexivity|].
    apply Forall_cons; split; [apply f64_integer; lia|]. by apply Forall_singleton.
Qed.

Lemma contains_self p q : contains (p ++ q) p = true.
Proof. destruct p as [|c p]; [by destruct q|]. rewrite string_app_cons. cbn [contains]. by rewrite <- string_app_cons, prefix_app. Qed.

Lemma contains_app_l p q s : contains s p = true → contains (s ++ q) p = true.
Proof.
  induction s as [|c s IH].
  - destruct p; [|done]. by destruct q.
  - rewrite string_app_cons. cbn [contains]. intros [H%prefix_spec|H]%orb_true_iff.
    + destruct H as [t H]. by rewrite <- string_app_cons, H, string_app_assoc, prefix_app.
    + rewrite IH by done. apply orb_true_r.
Qed.

Lemma contains_commas p s l : s ∈ l → contains s p = true → contains (Json.commas l) p = true.
Proof.
  intros Hin Hc. induction l as [|x l IH]; [by apply elem_of_nil in Hin|]. apply elem_of_cons in Hin as [<-|Hin].
  - destruct l; [done|]. rewrite Json.commas_cons. by apply contains_app_l.
  - destruct l as [|y l]; [by apply elem_of_nil in Hin|]. rewrite Json.commas_cons. apply contains_app.
    cbn [contains]. rewrite IH by done. apply orb_true_r.
Qed.

Lemma contains_entry p k v : contains (Json.print v) p = true → contains (Json.entry (k, v)) p = true.
Proof. intros H. unfold Json.entry. apply contains_app. cbn [contains fst snd]. rewrite H. apply orb_true_r. Qed.

Lemma contains_object p k v m : (k, v) ∈ m → contains (Json.print v) p = true → contains (Json.print (VObject m)) p = true.
Proof.
  intros Hin H. rewrite Json.print_object. cbn [contains]. rewrite contains_app_l; [apply orb_true_r|].
  apply (contains_commas _ (Json.entry (k, v))); [|by apply contains_entry].
  apply list_elem_of_In, in_map. by apply list_elem_of_In.
Qed.

Lemma escape_digits s : Json.all_digits s = true → Json.escape s = s.
Proof.
  induction s as [|c s IH]; [done|]. cbn [Json.all_digits Json.escape]. intros [Hc Hs]%andb_true_iff. rewrite IH by done.
  unfold Json.is_digit in Hc. destruct c as [[] [] [] [] [] [] [] []]; (done || discriminate Hc).
Qed.

Lemma escape_app a b : Json.escape (a ++ b) = (Json.escape a ++ Json.escape b)%string.
Proof. induction a as [|c a IH]; [done|]. rewrite string_app_cons. cbn [Json.escape]. by rewrite IH, string_app_assoc. Qed.

Lemma serialized now i : serialize_event (J:=text_json) (bench_event now i) = Ok (Json.print_event (T:=Json.nanos_text) (bench_event now i)).
Proof. reflexivity. Qed.

Lemma serialized_name now i : 0 <= Z.of_nat i →
  contains (Json.print_event (T:=Json.nanos_text) (bench_event now i)) ("User-" ++ display_u64 (Z.of_nat i)) = true.
Proof.
  intros Hi. unfold Json.print_event. eapply (contains_object _ "after").
  { unfold Json.event_members. cbn [bench_event after Json.option_value]. rewrite !elem_of_cons. auto 12. }
  eapply (contains_object _ "name").
  { right. left. }
  cbn [Json.print same]. unfold Json.text_of. cbn [contains]. apply orb_true_iff. right.
  apply contains_app_l. assert (Json.escape ("User-" ++ display_u64 (Z.of_nat i)) = "User-" ++ display_u64 (Z.of_nat i))%string as ->.
  { rewrite escape_app, (escape_digits (display_u64 _)) by by apply Json.dec_digits_all. done. }
  pose proof (contains_self ("User-" ++ display_u64 (Z.of_nat i)) "") as H. by rewrite string_app_nil_r in H.
Qed.

Lemma bench_turn_ok now router i b : router.(PartitionRouter.num_partitions) = 4 → Z.of_nat i < 10000 → ready now i b →
  ∃ b', bench_turn now router i b = Some b' ∧ ready now (S i) b' ∧
    StateStore.offset_at b'.(state_store) "pg_users" = Some (as_bytes (bench_event now i).(offset)).
Proof.
  intros Hr Hi [H1 H2 H3]. unfold bench_turn.
  destruct (acquire_one _ _ _ H3 ltac:(lia)) as (limiter & -> & H3'). cbn [mbind option_bind ret_val].
  destruct (check_new b.(dedup_filter) (bench_event now i).(id) (H2 i (Nat.le_refl i) Hi)) as (filter & -> & H2').
  cbn [negb assert mbind option_bind]. rewrite (bench_valid now i) by done. cbn [ret_val is_ok assert mbind option_bind].
  pose proof (PartitionRouter.resolve_partition_spec (J:=text_json) router (bench_event now i)) as [Hp _]; [by rewrite Hr; split|].
  rewrite Hr in Hp. rewrite (proj2 (Z.ltb_lt _ _)) by lia. cbn [assert mbind option_bind].
  rewrite serialized. cbn [ok_val mbind option_bind]. rewrite serialized_name by lia. cbn [assert mbind option_bind].
  assert (is_ok (StdoutSink.send (J:=text_json) (bench_event now i)).2 = true) as -> by done. cbn [assert mbind option_bind].
  destruct (StateStore.save_offset _ _ _) as [store r] eqn:E. assert (r = Ok tt) as ->.
  { unfold StateStore.save_offset, StateStore.put in E. cbn in E. by injection E. }
  cbn [ok_val mbind option_bind]. pose proof (StateStore.save_offset_at _ _ _ _ E) as [Ho Hs].
  eexists. split; [reflexivity|]. split; [|by rewrite Ho, decide_True]. split.
  - by rewrite Hs.
  - intros j Hj Hj'. apply H2'; [|apply H2; lia]. intros Ej. cbn [bench_event id] in Ej.
    apply string_app_inj_l, number_inj in Ej; lia.
  - replace (10000 - Z.of_nat (S i)) with (10000 - Z.of_nat i - 1) by lia. done.
Qed.

Lemma bench_loop_ok now router n : ∀ i b, router.(PartitionRouter.num_partitions) = 4 → Z.of_nat (i + n) <= 10000 → ready now i b →
  ∃ b', bench_loop now router i n b = Some b' ∧
    (n ≠ 0%nat → StateStore.offset_at b'.(state_store) "pg_users" = Some (as_bytes (bench_event now (i + n - 1)).(offset))).
Proof.
  induction n as [|n IH]; intros i b Hr Hn H; [by exists b|]. cbn [bench_loop].
  destruct (bench_turn_ok now router i b Hr ltac:(lia) H) as (b1 & -> & H1 & Ho). cbn [mbind option_bind].
  destruct (IH (S i) b1 Hr ltac:(lia) H1) as (b2 & E & Hl). exists b2. split; [done|]. intros _.
  destruct n as [|n].
  - cbn [bench_loop] in E. injection E as <-. by replace (i + 1 - 1)%nat with i by lia.
  - replace (i + S (S n) - 1)%nat with (S i + S n - 1)%nat by lia. by apply Hl.
Qed.

Lemma bench_passes now : passes (test_high_throughput_e2e_pipeline now).
Proof.
  unfold test_high_throughput_e2e_pipeline, passes. cbv zeta.
  destruct (SchemaRegistry.register_schema _ _ _ _) as [store r] eqn:E.
  assert (r = Ok tt) as ->.
  { apply (f_equal (λ p, is_ok p.2)) in E. vm_compute in E. destruct r as [[]|]; [done|discriminate E]. }
  pose proof (SchemaRegistry.register_schema_saved _ _ _ _ _ E) as [Hsave _].
  apply StateStore.save_schema_at in Hsave as (bytes & Hb & Hs & _).
  specialize (Hs "pg_users"%string). rewrite decide_True in Hs by done.
  assert (bytes = as_bytes (Json.print bench_schema)) as -> by by injection Hb.
  cbn [ok_val mbind option_bind].
  destruct (bench_loop_ok now (PartitionRouter.new 4 PartitionRouter.KeyHash) 1000 0 (Bench store (DeduplicationFilter.new 5000)
    (TokenBucketLimiter.new 10000 (f64_of_Z 10000) now))) as (b & -> & Ho).
  - done.
  - done.
  - split; [done|set_solver|]. apply TokenBucketLimiter.bucket_holds_new; [lia|done].
  - cbn [mbind option_bind]. rewrite StateStore.get_offset_readable by apply mem_db_readable.
    rewrite Ho by done. by_eval.
Qed.

Lemma backfill_passes : test_multi_threaded_parallel_snapshot_backfill.
Proof.
  eexists. split; [vm_compute; reflexivity|]. intros s Hs Hfin Hcr.
  destruct (Snapshot.snapshot_calls 10000 2500 4 s ltac:(lia) Hs Hfin Hcr) as (Hall & Hlen & Hcalls).
  assert (Hg : events_generated s.(ParallelSnapshotter.calls) = 10000).
  { rewrite <- events_generated_fresh, (events_generated_perm _ _ Hcalls). by vm_compute. }
  unfold passes, ParallelSnapshotter.save_progress. rewrite Hg, Snapshot.completed_all, Hlen by done. by vm_compute.
Qed.

(** *** The hot reload *)

(** The bundled guest, before. *)
Definition unchanged (e : ChangeEvent) : bool :=
  match event_to_vec (SerdeJson:=text_json) e with
  | Ok raw => (Z.of_nat (length raw) <=? WasmTransformer.page_size) && plain_event e
  | Err _ => false
  end.

Lemma unchanged_transform e : unchanged e = true →
  WasmTransformer.transform (J:=text_json) (Guests.bundled 1000) e = Ret (Ok e).
Proof.
  unfold unchanged. destruct (event_to_vec e) as [raw|] eqn:Hraw; [|done]. intros [Hl Hp]%andb_true_iff.
  pose proof (WasmTransformer.passthrough_identity (J:=text_json) (W:=wat_engine 1000) (JL:=Json.codec_laws _) (Guests.bundled 1000) e raw (Guests.bundled_passthrough 1000 ltac:(lia)) Hp Hraw) as H.
  rewrite Hl in H. apply H. apply Z.leb_le in Hl. unfold WasmTransformer.page_size in Hl. lia.
Qed.

Lemma hot_reload_passes now : unchanged (alice now) && becomes_audit (alice now) = true →
  passes (test_live_wasm_plugin_registration_and_hot_reloading now).
Proof.
  intros [H1%unchanged_transform (e' & H2 & Ht)%becomes_audit_transform]%andb_true_iff.
  unfold passes, test_live_wasm_plugin_registration_and_hot_reloading. cbv zeta.
  assert (WasmTransformer.new (J:=text_json) (W:=wat_engine 1000) (as_bytes Guests.wat) = Ok (Guests.bundled 1000)) as E1.
  { unfold WasmTransformer.new. change (module_new (Wasmtime:=wat_engine 1000)) with WatEngine.new. by rewrite Guests.wat_compiles. }
  unfold WasmPluginRegistry.register_plugin, WasmPluginRegistry.hot_reload_plugin. rewrite E1, replacer_new.
  unfold WasmPluginRegistry.get_metadata, WasmPluginRegistry.execute_transform.
  cbn [WasmPluginRegistry.plugins WasmPluginRegistry.new ok_val mbind option_bind]. rewrite !lookup_insert_eq.
  cbn [fmap option_fmap option_map fst ok_or WasmPluginRegistry.enabled WasmPluginRegistry.version negb mbind option_bind Outcome_bind].
  rewrite H1, H2. cbn. by rewrite Ht.
Qed.

(** The model passes the tests of the crate, transcribed call by call and assertion by assertion: 33 unit
    tests and 5 integration tests succeed when [Utc::now()] is the epoch and when it is a day of 2023; the
    benchmark sends its 1000 events at every instant, even if the clock stands still; the test of the
    metrics server succeeds whatever threads update the counters and however they interleave with it, and
    the parallel backfill calls its function for 10000 rows and saves 4/4 in every interleaving of its
    workers. *)
Theorem tests_pass :
  Forall (λ now, Forall passes (unit_tests now) ∧ Forall passes (integration_tests now)) [0; 1700000000 * 10 ^ 9] ∧
  (∀ now, passes (test_high_throughput_e2e_pipeline now)) ∧
  (∀ counters writers, test_metrics_server counters writers) ∧
  test_multi_threaded_parallel_snapshot_backfill.
Proof.
  split; [|split_and!; [exact bench_passes|exact test_metrics_server_passes|exact backfill_passes]].
  pose proof unit_tests_pass as H. rewrite Forall_forall in H. apply Forall_forall. intros now Hnow.
  split; [by apply H|]. clear H. revert now Hnow. apply Forall_forall.
  apply Forall_cons; split; [|apply Forall_cons; split; [|apply Forall_nil_2]];
    (apply Forall_cons; split; [apply hot_reload_passes; by vm_compute|run_tests]).
Qed.
End IntegrationTests.
